(* ===== verification/_CoqProject ===== *)
-Q . S2P
Prelude.v
Json.v
Naming.v
Ledger.v
ReplayGuard.v
ConsoleBuffer.v
Entries.v
HubCore.v
SchemaRegistry.v
HubOps.v
EntryFacts.v
HubInv.v
HubPreserve.v
HubProps.v
PresenceFsm.v
AdmissionProps.v
TeardownProps.v
SlotRW.v
SlotProps.v
Ring.v
RingInv.v
RingProps.v
RingStall.v
Topology.v
Lifecycle.v
LifecycleLoad.v
LifecycleInv.v
LifecycleReach.v
LifecycleProps.v
LifecycleUnload.v
LifecycleRuns.v
Wire.v
AdmissionGates.v
WireDispatch.v
VersionRegistry.v
NetAddress.v
Broker.v
BrokerLogic.v
BrokerReg.v
BrokerFederation.v
BrokerChannels.v
BrokerAttach.v
BrokerQueries.v
BrokerSweep.v
BrokerDispatch.v
DispatchProps.v
BrokerHub.v
BrokerView.v
BrokerInv.v
BrokerReach.v
BrokerAnswers.v
BrokerReplies.v
BrokerRoles.v
BrokerDepartures.v
BrokerFifo.v
BrokerWitnesses.v
ShmHeader.v
Layout.v
Segment.v
Checksums.v
ShmQueue.v
Attach.v
Recovery.v
RecoveryProps.v
SpinLock.v
SpinGuard.v
KeyStore.v
AttachProtocol.v
HandshakeProps.v
HandshakeToy.v
ZmqWire.v
ZmqQueue.v
ZmqQueueProps.v
ZmqDelivery.v
ZmqControl.v
ZapRouter.v
ZmqControlProps.v
ZmqLifecycle.v
ZmqToy.v
