(* ===== verification/Prelude.v ===== *)
(** * pyLabHub: a verification development

    pyLabHub connects the roles of a laboratory pipeline (producers,
    consumers, processors) through a hub: roles register on channels over a
    ROUTER socket, the hub keeps the authoritative state of channels, roles and
    bands, and the data itself flows through shared-memory rings or ZeroMQ
    queues.  Every process runs under a lifecycle manager that starts, loads,
    unloads and stops its modules.  This library models the parts that decide;
    the names below are Modules, each in the file of its name or in that of the
    component it belongs to (each file's first comment says what it holds):

    - names: [Naming] (core/naming.cpp), byte strings against the identifier
      grammar, with its declarative reading; [Hex] (format_tools.hpp);
      [Json], the part of JSON values the hub inspects.
    - the hub state: [Entries] (hub_state.hpp: channel, role, presence, band
      entries and their member functions), [HubCore] (hub_state.cpp: the store,
      the accessors, handlers and the erasure cascade), [HubOps] (every [_on_*]
      operation, guards and early returns included), [SchemaRegistry]
      (registration and citation of schemas), [Ledger]
      (versioned_admission_ledger.hpp), [ReplayGuard] (replay_guard.hpp),
      [ConsoleBuffer] (console_output_buffer.hpp).
    - the shared-memory data block: [SlotRW] (data_block_slot_ops.cpp and
      data_block_internal.hpp, one atomic access per step, any interleaving
      and any crash), [Ring] (data_block.cpp: the ring of slots with a producer
      and its consumers, one call or one scan step at a time).
    - the segment of a data block: [ShmHeader] (data_block.hpp and the files it
      includes: configuration, header, its hash and checksum, the accessors of
      data_block_c_api.cpp), [Layout] (the offsets of the sections), [Segment]
      (creation, attachment, checksums and heartbeats of data_block.cpp, the
      factories, the shared-memory calls of platform.cpp), [FieldLayout]
      (schema_field_layout.hpp: the fields of a slot), [ShmQueue]
      (hub_shm_queue.cpp: the queue a role uses, over a segment) and [Recovery]
      (data_block_recovery.cpp: the tools that diagnose, reset, check and
      repair a block).  [SpinLock] (shared_memory_spinlock.cpp and
      spinlock_owner_ops.hpp, one atomic access per step) and [SpinGuard]
      (in_process_spin_state.hpp: the guard objects over such a lock).
    - the attach handshake of a shared-memory channel: [KeyStore]
      (key_store.cpp, curve_keypair.cpp, the box calls of secure_subsystem.cpp)
      and [AttachProtocol] (attach_protocol.cpp, shm_attach_orchestrator.cpp,
      attach_channel_shm.cpp): programs that send, receive, draw random bytes
      and make callbacks, run against what their surroundings answer.
    - the ZeroMQ queues: [ZmqWire] (zmq_wire_helpers.hpp: an item as a
      MessagePack frame), [ZmqQueue] (hub_zmq_queue.cpp: the rings, both worker
      threads, acquiring and committing), [ZmqControl] (the same file: the
      factories, the peers, start, stop, the broker's approval and the deferred
      dial; peer_admission.hpp; domain_routing_table.cpp) and [ZapRouter]
      (zap_router.cpp: the answers to ZeroMQ's authentication requests).
    - the lifecycle manager: [Topology] (lifecycle_topology.cpp: the sort of
      the module graph) and [Lifecycle] (lifecycle.cpp, lifecycle_dynamic.cpp:
      registration, start-up, loading, unloading, the shutdown thread,
      finalisation; one critical section of the graph mutex per event).

    - the wire: [Wire] (wire_envelope.cpp, wire_adapter.cpp: envelopes and
      their binding hash), [WireBodies] (wire_bodies.cpp: the typed bodies),
      [WireDispatch] (wire_dispatch.cpp: the table of types and
      [receive_and_validate]), [AdmissionGates] (admission_gates.cpp),
      [VersionRegistry] (plh_version_registry.hpp, version_registry.cpp),
      [NetAddress] (net_address.hpp), [SchemaUtils] (schema_utils.hpp).
    - the broker (broker_service.cpp): [Broker] (its state, the monad of its
      handlers, the deferred attach queue), [BrokerReg] and
      [BrokerConsumerReg] (REG_REQ, CONSUMER_REG_REQ), [BrokerChannels]
      (discovery, departure, heartbeat, endpoints, broadcasts), [BrokerAttach]
      (the attach handshake), [BrokerBands], [BrokerQueries],
      [BrokerFederation], [BrokerSweep] (the periodic work) and
      [BrokerDispatch] (process_message and the way from frames to it).

    A file [X.v] of definitions is followed by the files that prove facts about
    it.  [EntryFacts], [HubInv], [HubPreserve] and [HubReach] build the
    invariant of the hub state and show that every operation keeps it; the
    properties are in [HubProps] (what holds in every reachable hub),
    [PresenceFsm] (the hub refines the presence machine of HEP-CORE-0023),
    [AdmissionProps] (who is admitted, and what admission stores) and
    [TeardownProps] (what a departure removes, what an observer sees).
    [SlotProps] proves exclusion and consistency of one slot; [RingInv] and
    [RingProps] prove that a ring which blocks its writer is a queue with one
    cursor per consumer, when its consumers join as [RingProps.allowed] says,
    and that no policy lets a slot change in a reader's hands; [RingStall] has
    the runs where the ring stops short: a full ring nobody can move, a late
    joiner and an overtaken [Latest_only] reader holding another commit.
    [Layout] and [FieldLayout] prove that sections, slots and fields do not
    overlap; [AttachProps] when the layout survives the header; [Attach] which
    consumers a block accepts; [Checksums] what a stamped checksum detects;
    [ShmQueueProps] which items a verifying reader gets; [RecoveryProps] what
    the recovery tools report and what they leave behind.
    [SpinLock] proves exclusion under any interleaving and any death of
    processes, [SpinGuard] what the guards add; [HandshakeProps] what an
    accepted peer has proved, that honest peers complete, and that frames
    survive the socket; [HandshakeToy] has a concrete box and codec for it.
    [ZmqQueueProps] proves that a writer sends in order what was committed or
    counts it, and that a reader keeps the newest; [ZmqDelivery] which items
    cross from one to the other and what the counter of gaps says;
    [ZmqControlProps] who gets through to a queue; [ZmqLifecycle] that a
    thread runs only behind CURVE, what the factories make, and what failures leave
    behind; [ZmqToy] has a concrete format, runs and witnesses.
    [LifecycleLoad], [LifecycleInv] and [LifecycleReach] build the invariant of
    the module graph; [LifecycleInit], [LifecycleProps] and [LifecycleUnload]
    prove the outcomes of start-up, loading and unloading, and [LifecycleRuns]
    the runs in which modules stop in the wrong order or a wait never ends.

    [GateProps], [WireProps] and [DispatchProps] prove what the gates, the
    envelope and the dispatch let through.  [BrokerLogic] has the program logic
    of the handlers (invariants, triples, what is emitted); [BrokerStable]
    carries an invariant through every handler and turn from an interface, the
    class [Stable], whose instances are the hub's invariant ([BrokerHub]), the
    consistency of the attach queue ([BrokerInv], on the views of [BrokerRoster]
    and [BrokerView]) and its order ([BrokerFifo]).  [BrokerReach] defines the
    states a broker reaches, [BrokerSession] a concrete session.
    [BrokerAnswers] and [BrokerReplies] prove that requests are answered and
    when the dispatch throws, [BrokerSilence] what never reaches the socket,
    [BrokerRoles] and [BrokerDepartures] what heartbeats and departures do;
    [BrokerWitnesses] applies these theorems to the session.

    How the code is represented.  A handler of the broker is a function of the
    clocks and the broker's state that returns or throws, with the messages and
    callbacks it made as a list.  Libraries the broker calls (BLAKE2b, the JSON
    printer and parser, [inet_pton]) are the fields of the class [External];
    printing is taken as total, although nlohmann's throws on a string that is
    not UTF-8.  Machine integers are [Z] with the wrap-around
    written out ([u64]); counters that would need 2^64 increments to wrap are
    assumed not to, as a named hypothesis where it matters.  A mutator of the
    hub runs under the writer lock of [HubState::Impl], so it is one function
    from the store to the store with the handler calls it makes as a list, and
    takes one reading of each clock.  [std::unordered_map] is [gmap]; where the
    code traverses one, the model uses [map_to_list], and no statement depends
    on that order; [std::map] is traversed in the order of its keys.  Handlers
    are opaque: the model records which one is called with what.

    Fuel.  The solo run of [acquire_write] has twelve steps, which is enough on
    every path; the sort of the graph takes as many rounds as it has nodes; a
    load and the closure of an unload take one more than the size of the graph.
    Each bound is proved sufficient: the properties say that a result is
    returned.

    Segments.  The operating system's shared memory is a store of segments with
    names and descriptors; the calls that create or map one succeed as a field
    of [Os] says.  BLAKE2b is the class [Crypto], which may fail; that its
    results have 32 bytes, or that it succeeds, is a hypothesis where needed.
    Calls on a segment are single steps; the slot and ring models say what
    happens in between.

    Libraries of the transports.  libsodium and the Z85 codec are the class
    [Sodium] with the laws [SodiumLaws] (what is sealed opens with the keys it
    was sealed for, what opens was sealed under them, codecs come back); nlohmann's text form is the class
    [JsonText]; msgpack-c is the class [Msgpack] with the laws [MsgpackLaws]
    (numbers and objects come back, sizes of the format); which scalars it gives
    back is a hypothesis on the item.  ZeroMQ's sockets answer as an argument
    says: per send, and per call as the record [Net].  [HandshakeToy] and
    [ZmqToy] show that the laws can hold.  A queue's threads and its caller
    interleave one critical section at a time; calls that approve, start or stop
    a queue are one step each, as the role host makes them in sequence.

    Memory.  The slot model interleaves atomic accesses sequentially; the
    acquire and release annotations of the code are what justifies this on the
    platforms it supports, and weaker orders are not modelled.

    Not modelled: the poll loop of the broker's sockets (a turn is an argument),
    the inbox queue and the glue that picks a queue class, the queues' timing
    metrics, vaults and key files (third-party cryptography and I/O),
    configuration and logging (files), the script engines (bindings), service
    threads and role hosts, and JSON rendering. *)

From stdpp Require Export prelude strings gmap list sets fin_maps.
From Stdlib Require Export ZArith Lia.

#[global] Open Scope Z_scope.

(** ** Notations of the development *)

Declare Scope hub_scope.
Delimit Scope hub_scope with hub.
#[global] Open Scope hub_scope.

(** [b ? x : y]-style guards are written [if]; string equality of the C++
    code ([==] on [std::string]) is [=s]. *)
Definition str_eqb (a b : string) : bool := bool_decide (a = b).
Infix "=s" := str_eqb (at level 70, no associativity) : hub_scope.

(** [s.empty()] of the C++ code. *)
Definition str_empty (s : string) : bool :=
  match s with EmptyString => true | _ => false end.

(** ** Machine integers

    [std::uint64_t], [std::size_t] and [std::uint32_t] are [Z] with the
    wrap-around written out. *)
Definition u64_modulus : Z := 2 ^ 64.
Definition u64 (x : Z) : Z := x mod u64_modulus.
Definition u64_max : Z := u64_modulus - 1.
Definition u64_succ (x : Z) : Z := u64 (x + 1).
Definition u32_max : Z := 2 ^ 32 - 1.

(** ** Record update

    [r <| f := v |>] and [r <| f ::= g |>]: a record type that declares its
    eta expansion gets an updater for every projection, found by abstracting
    the projection in the eta expansion. *)
Class Eta (R : Type) := eta : R → R.

Class Update {R F : Type} (proj : R → F) := update : (F → F) → R → R.

Ltac solve_update :=
  lazymatch goal with
  | |- @Update ?R ?F ?p =>
      let e := eval hnf in (@eta R _) in
      lazymatch eval pattern p in e with
      | ?body _ => exact (λ f r, body (λ x, f (p x)) r)
      end
  end.

#[export] Hint Extern 1 (Update _) => solve_update : typeclass_instances.

Notation "r <| p ::= f |>" := (update (proj := p) f r)
  (at level 1, left associativity, p at level 9, f at level 200) : hub_scope.
Notation "r <| p := v |>" := (update (proj := p) (λ _, v) r)
  (at level 1, left associativity, p at level 9, v at level 200) : hub_scope.
Arguments update {_ _} _ {_} / _ _.

(** ** Automation *)

Create HintDb hub.
Create Rewrite HintDb hub.

(** Case split on the test of every [if] and the scrutinee of every [match]
    in the goal. *)
Ltac split_cases := repeat (case_match; simplify_eq/=; try done).

(** Turn boolean facts about strings and decisions into propositions. *)
Ltac bool_facts :=
  repeat match goal with
  | H : _ && _ = true |- _ => apply andb_true_iff in H as [? ?]
  | H : _ || _ = false |- _ => apply orb_false_iff in H as [? ?]
  | H : negb _ = true |- _ => apply negb_true_iff in H
  | H : negb _ = false |- _ => apply negb_false_iff in H
  | H : (_ =s _) = true |- _ => apply bool_decide_eq_true_1 in H
  | H : (_ =s _) = false |- _ => apply bool_decide_eq_false_1 in H
  | H : bool_decide _ = true |- _ => apply bool_decide_eq_true_1 in H
  | H : bool_decide _ = false |- _ => apply bool_decide_eq_false_1 in H
  | H : str_empty ?s = true |- _ => destruct s; [clear H | discriminate H]
  end.

Lemma str_empty_false s : str_empty s = false ↔ s ≠ "".
Proof. by destruct s. Qed.

Lemma str_empty_true s : str_empty s = true ↔ s = "".
Proof. by destruct s. Qed.

Lemma str_eqb_refl s : (s =s s) = true.
Proof. by apply bool_decide_eq_true_2. Qed.

#[export] Hint Rewrite str_eqb_refl : hub.

Lemma u64_id x : 0 ≤ x ≤ u64_max → u64 x = x.
Proof. unfold u64, u64_max, u64_modulus. intros. apply Z.mod_small. lia. Qed.

Lemma u64_range x : 0 ≤ u64 x ≤ u64_max.
Proof.
  unfold u64, u64_max, u64_modulus.
  pose proof (Z.mod_pos_bound x (2 ^ 64)). lia.
Qed.

Lemma u64_succ_id x : 0 ≤ x < u64_max → u64_succ x = x + 1.
Proof. intros. apply u64_id. lia. Qed.

Lemma omap_cons {A B} (f : A → option B) (x : A) (l : list A) :
  omap f (x :: l) = match f x with Some y => y :: omap f l | None => omap f l end.
Proof. done. Qed.

Lemma filter_all {A} (P : A → Prop) `{!∀ x, Decision (P x)} (l : list A) :
  (∀ x, x ∈ l → P x) → filter P l = l.
Proof.
  induction l as [|x l IH]; intros HP; [done|].
  rewrite filter_cons_True by set_solver. f_equal. apply IH. set_solver.
Qed.

Lemma NoDup_fmap_filter {A B} (f : A → B) (P : A → Prop) `{!∀ x, Decision (P x)} l :
  NoDup (f <$> l) → NoDup (f <$> filter P l).
Proof.
  induction l as [|x l IH]; [done|]. rewrite fmap_cons, filter_cons.
  intros [Hn Hd]%NoDup_cons. case_decide; [|by apply IH].
  rewrite fmap_cons. apply NoDup_cons. split; [|by apply IH].
  rewrite list_elem_of_fmap in Hn |- *.
  intros (y & ? & [_ ?]%list_elem_of_filter). by apply Hn; eauto.
Qed.

Lemma size_filter_le {K A} `{Countable K} (P : K * A → Prop) `{!∀ x, Decision (P x)}
    (m : gmap K A) : (size (filter P m) ≤ size m)%nat.
Proof.
  rewrite <- !length_map_to_list. apply submseteq_length, map_to_list_submseteq.
  apply map_filter_subseteq.
Qed.

(** ** Lists addressed by a key

    The C++ code keeps producers, consumers, presences and band members in
    vectors and addresses them by a linear scan on a key.  [find_by],
    [erase_by] and [alter_by] are the three shapes of that scan: return the
    first match, erase the first match, mutate the first match in place. *)
Section keyed.
Context {A K : Type} `{!EqDecision K} (key : A → K).
Implicit Types (l : list A) (x y : A) (k : K).

Fixpoint find_by (k : K) (l : list A) : option A :=
  match l with
  | [] => None
  | x :: l => if bool_decide (key x = k) then Some x else find_by k l
  end.

Fixpoint erase_by (k : K) (l : list A) : list A :=
  match l with
  | [] => []
  | x :: l => if bool_decide (key x = k) then l else x :: erase_by k l
  end.

Fixpoint alter_by (f : A → A) (k : K) (l : list A) : list A :=
  match l with
  | [] => []
  | x :: l => if bool_decide (key x = k) then f x :: l else x :: alter_by f k l
  end.

Lemma find_by_Some k l x : find_by k l = Some x → x ∈ l ∧ key x = k.
Proof.
  induction l as [|y l IH]; simpl; [done|].
  case_bool_decide; intros; simplify_eq; set_solver.
Qed.

Lemma find_by_None k l : find_by k l = None ↔ k ∉ key <$> l.
Proof.
  induction l as [|y l IH]; simpl; [set_solver|].
  case_bool_decide; rewrite ?not_elem_of_cons, ?IH; naive_solver.
Qed.

Lemma find_by_is_Some k l : is_Some (find_by k l) ↔ k ∈ key <$> l.
Proof.
  rewrite <- not_eq_None_Some, find_by_None.
  destruct (decide (k ∈ key <$> l)); tauto.
Qed.

Lemma find_by_elem k l x :
  NoDup (key <$> l) → x ∈ l → key x = k → find_by k l = Some x.
Proof.
  induction l as [|y l IH]; simpl; [set_solver|].
  intros [Hn Hd]%NoDup_cons [->|Hx]%elem_of_cons Hk; case_bool_decide; try done.
  - exfalso. apply Hn. subst k. rewrite H. by apply list_elem_of_fmap_2.
  - by apply IH.
Qed.

Lemma find_by_app k l1 l2 :
  find_by k (l1 ++ l2) =
  match find_by k l1 with Some x => Some x | None => find_by k l2 end.
Proof. induction l1; simpl; [done|]. by case_bool_decide. Qed.

Lemma erase_by_absent k l : k ∉ key <$> l → erase_by k l = l.
Proof.
  induction l as [|y l IH]; simpl; [done|].
  rewrite not_elem_of_cons. intros [? ?].
  rewrite bool_decide_eq_false_2 by congruence. f_equal. auto.
Qed.

Lemma elem_of_erase_by k l x : x ∈ erase_by k l → x ∈ l.
Proof.
  induction l as [|y l IH]; simpl; [done|]. case_bool_decide; set_solver.
Qed.

Lemma elem_of_erase_by_NoDup k l x :
  NoDup (key <$> l) → x ∈ erase_by k l ↔ x ∈ l ∧ key x ≠ k.
Proof.
  induction l as [|y l IH]; simpl; [set_solver|].
  intros [Hn Hd]%NoDup_cons. case_bool_decide as Hk.
  - rewrite elem_of_cons. split; [|naive_solver].
    intros Hx. split; [by right|]. intros ?. apply Hn.
    replace (key y) with (key x) by congruence. by apply list_elem_of_fmap_2.
  - rewrite !elem_of_cons, IH by done. naive_solver.
Qed.

Lemma erase_by_keys k l j :
  NoDup (key <$> l) → j ∈ key <$> erase_by k l ↔ j ∈ key <$> l ∧ j ≠ k.
Proof.
  intros Hd. rewrite !list_elem_of_fmap. split.
  - intros (x & -> & Hx). apply elem_of_erase_by_NoDup in Hx as [??]; eauto.
  - intros ((x & -> & Hx) & ?). exists x. split; [done|].
    by apply elem_of_erase_by_NoDup.
Qed.

Lemma NoDup_erase_by k l : NoDup (key <$> l) → NoDup (key <$> erase_by k l).
Proof.
  induction l as [|y l IH]; simpl; [done|].
  intros [Hn Hd]%NoDup_cons. case_bool_decide; [done|]. simpl.
  apply NoDup_cons. split; [|auto]. rewrite erase_by_keys by done. tauto.
Qed.

Lemma length_erase_by k l :
  k ∈ key <$> l → S (length (erase_by k l)) = length l.
Proof.
  induction l as [|y l IH]; simpl; [set_solver|].
  case_bool_decide; [done|]. rewrite elem_of_cons. intros [?|?]; [congruence|].
  simpl. auto.
Qed.

Lemma length_erase_by_le k l : (length (erase_by k l) ≤ length l)%nat.
Proof. induction l as [|y l IH]; simpl; [lia|]. case_bool_decide; simpl; lia. Qed.

Lemma alter_by_keys f k l :
  (∀ x, key (f x) = key x) → key <$> alter_by f k l = key <$> l.
Proof.
  intros Hf. induction l as [|y l IH]; simpl; [done|].
  case_bool_decide; simpl; rewrite ?Hf; [done|]. by f_equal.
Qed.

Lemma alter_by_absent f k l : k ∉ key <$> l → alter_by f k l = l.
Proof.
  induction l as [|y l IH]; simpl; [done|].
  rewrite not_elem_of_cons. intros [? ?].
  rewrite bool_decide_eq_false_2 by congruence. f_equal. auto.
Qed.

Lemma find_by_alter_by f k j l :
  (∀ x, key (f x) = key x) →
  find_by j (alter_by f k l) =
  (if bool_decide (j = k) then f <$> find_by k l else find_by j l).
Proof.
  intros Hf. induction l as [|y l IH]; simpl; [by destruct (bool_decide (j = k))|].
  destruct (decide (key y = k)) as [Hy|Hy].
  - rewrite (bool_decide_eq_true_2 _ Hy). simpl. rewrite Hf.
    destruct (decide (j = k)) as [->|Hj]; [by rewrite !bool_decide_eq_true_2|].
    by rewrite !bool_decide_eq_false_2 by congruence.
  - rewrite (bool_decide_eq_false_2 _ Hy). simpl. rewrite IH.
    destruct (decide (j = k)) as [->|Hj]; [|by rewrite (bool_decide_eq_false_2 _ Hj)].
    by rewrite (bool_decide_eq_false_2 _ Hy), bool_decide_eq_true_2.
Qed.

Lemma find_by_erase_by_ne k j l : j ≠ k → find_by j (erase_by k l) = find_by j l.
Proof.
  intros Hj. induction l as [|y l IH]; simpl; [done|].
  case_bool_decide as Hy; simpl; [by rewrite bool_decide_eq_false_2 by congruence|].
  by rewrite IH.
Qed.

Lemma find_by_erase_by_eq k l :
  NoDup (key <$> l) → find_by k (erase_by k l) = None.
Proof. intros Hd. apply find_by_None. rewrite erase_by_keys by done. tauto. Qed.
End keyed.

(** Where an element of a concatenation comes from. *)
Lemma app_cons_split {A} (l l' l1 l2 : list A) m :
  l ++ l' = l1 ++ m :: l2 →
  (∃ k, l = l1 ++ m :: k ∧ l2 = k ++ l') ∨ (∃ k, l1 = l ++ k ∧ l' = k ++ m :: l2).
Proof.
  intros [(k & -> & Hk)|(k & -> & ->)]%app_eq_inv; [|by right; eauto].
  destruct k as [|x k]; cbn in Hk.
  - right. exists []. by rewrite !app_nil_r.
  - injection Hk as <- ->. left. eauto.
Qed.
