(* ===== verification/Json.v ===== *)
(** * JSON values

    The part of [nlohmann::json] values the hub state builds and inspects:
    a value is data (RFC 8259); an object keeps its members in key order, as
    [std::map] does.  Only the operations the modelled code calls are here:
    [is_null], [is_object] and the other type tests, [empty], [operator\[\]]
    with an assignment.

    Module [Hex] comes first: hex encoding of bytes (src/src/include/utils/format_tools.hpp). *)

From S2P Require Import Prelude.
From Stdlib Require Import Ascii.
From Stdlib Require Import Strings.String.
(** * Hex encoding of bytes (src/src/include/utils/format_tools.hpp)

    [bytes_to_hex] and [bytes_from_hex] on [std::string]s of raw bytes, with
    the decoder's fall-back: input that is not hex is returned unchanged. *)
Module Hex.

Local Arguments String.append !_ _ : simpl nomatch.

Definition code (c : ascii) : Z := Z.of_N (N_of_ascii c).
Definition chr (z : Z) : ascii := ascii_of_N (Z.to_N z).

(** [kHex[i]] for [0 <= i < 16]. *)
Definition kHex (i : Z) : ascii :=
  if i <? 10 then chr (code "0" + i) else chr (code "a" + (i - 10)).

Fixpoint bytes_to_hex (raw : string) : string :=
  match raw with
  | EmptyString => EmptyString
  | String c raw =>
      String (kHex (Z.shiftr (code c) 4))
        (String (kHex (Z.land (code c) 15)) (bytes_to_hex raw))
  end.

(** The lambda [h]: the value of a hex digit, -1 for anything else. *)
Definition hex_digit (c : ascii) : Z :=
  let z := code c in
  if (code "0" <=? z) && (z <=? code "9") then z - code "0"
  else if (code "a" <=? z) && (z <=? code "f") then z - code "a" + 10
  else if (code "A" <=? z) && (z <=? code "F") then z - code "A" + 10
  else -1.

(** The decoding loop, two characters per iteration; [None] when it meets a
    character that is not a hex digit. *)
Fixpoint decode_pairs (hex : string) : option string :=
  match hex with
  | String a (String b rest) =>
      let hi := hex_digit a in
      let lo := hex_digit b in
      if (hi <? 0) || (lo <? 0) then None
      else String (chr (Z.lor (Z.shiftl hi 4) lo)) <$> decode_pairs rest
  | _ => Some EmptyString
  end.

Definition bytes_from_hex (hex : string) : string :=
  if negb (Nat.even (String.length hex)) then hex
  else default hex (decode_pairs hex).

Lemma digits_of_byte c :
  hex_digit (kHex (Z.shiftr (code c) 4)) = Z.shiftr (code c) 4 ∧
  hex_digit (kHex (Z.land (code c) 15)) = Z.land (code c) 15 ∧
  chr (Z.lor (Z.shiftl (Z.shiftr (code c) 4) 4) (Z.land (code c) 15)) = c ∧
  0 ≤ Z.shiftr (code c) 4 ∧ 0 ≤ Z.land (code c) 15.
Proof.
  destruct c as [[] [] [] [] [] [] [] []]; vm_compute; repeat split; discriminate.
Qed.

Lemma bytes_to_hex_length raw :
  String.length (bytes_to_hex raw) = (2 * String.length raw)%nat.
Proof. induction raw as [|c raw IH]; simpl; [done|]. rewrite IH. lia. Qed.

Lemma decode_pairs_bytes_to_hex raw : decode_pairs (bytes_to_hex raw) = Some raw.
Proof.
  induction raw as [|c raw IH]; [done|]. cbn [bytes_to_hex decode_pairs].
  destruct (digits_of_byte c) as (-> & -> & -> & Hhi & Hlo).
  rewrite (proj2 (Z.ltb_ge _ _) Hhi), (proj2 (Z.ltb_ge _ _) Hlo), IH. done.
Qed.

(** Hex encoding is reversible: decoding the encoding of any byte string
    gives it back, and every byte takes exactly two lowercase hex digits. *)
Theorem bytes_hex_roundtrip raw :
  bytes_from_hex (bytes_to_hex raw) = raw ∧
  String.length (bytes_to_hex raw) = (2 * String.length raw)%nat.
Proof.
  split; [|apply bytes_to_hex_length].
  unfold bytes_from_hex. rewrite bytes_to_hex_length, decode_pairs_bytes_to_hex.
  by rewrite Nat.even_mul.
Qed.
End Hex.

Local Set Warnings "-register-all".

Module Json.

(** Integers keep their value; a [double] keeps its 64-bit pattern. *)
Inductive json :=
  | JNull
  | JBool (b : bool)
  | JInt (z : Z)
  | JFloat (bits : Z)
  | JStr (s : string)
  | JArr (l : list json)
  | JObj (members : list (string * json)).

Definition is_null (j : json) : bool := match j with JNull => true | _ => false end.
Definition is_object (j : json) : bool := match j with JObj _ => true | _ => false end.

(** [nlohmann::json::empty]: null, [[]] and [{}] are empty; scalars are not. *)
Definition json_empty (j : json) : bool :=
  match j with JNull | JArr [] | JObj [] => true | _ => false end.

(** [std::map::operator\[\] = v] on members sorted by key. *)
Fixpoint members_set (k : string) (v : json) (ms : list (string * json)) :
    list (string * json) :=
  match ms with
  | [] => [(k, v)]
  | (k', v') :: rest =>
      match String.compare k k' with
      | Lt => (k, v) :: ms
      | Eq => (k, v) :: rest
      | Gt => (k', v') :: members_set k v rest
      end
  end.

Fixpoint members_get (k : string) (ms : list (string * json)) : option json :=
  match ms with
  | [] => None
  | (k', v') :: rest => if k =s k' then Some v' else members_get k rest
  end.

Definition json_get (k : string) (j : json) : option json :=
  match j with JObj ms => members_get k ms | _ => None end.

(** [j\[k\] = v]: null becomes an object first; any other non-object throws
    [type_error] ([None]). *)
Definition json_set (k : string) (v : json) (j : json) : option json :=
  match j with
  | JNull => Some (JObj [(k, v)])
  | JObj ms => Some (JObj (members_set k v ms))
  | _ => None
  end.

(** The type tests of a parsed value: a number that is not negative is
    unsigned. *)
Definition is_string (j : json) : bool := match j with JStr _ => true | _ => false end.
Definition is_array (j : json) : bool := match j with JArr _ => true | _ => false end.
Definition is_number_unsigned (j : json) : bool := match j with JInt z => 0 <=? z | _ => false end.

(** [json j; j\[k1\] = v1; j\[k2\] = v2; ...]. *)
Definition obj (l : list (string * json)) : json :=
  JObj (foldl (λ ms kv, members_set kv.1 kv.2 ms) [] l).

(** [j\[k\] = v] on a value that is an object. *)
Definition put (k : string) (v : json) (j : json) : json := default j (json_set k v j).

Lemma string_compare_eq a b : String.compare a b = Eq ↔ a = b.
Proof.
  split; [apply String.compare_eq_iff|]. intros ->.
  pose proof (String.compare_antisym b b) as Ha. by destruct (String.compare b b).
Qed.

Lemma members_get_set k v ms k' :
  members_get k' (members_set k v ms) =
  if k' =s k then Some v else members_get k' ms.
Proof.
  induction ms as [|[k0 v0] ms IH]; simpl; [done|].
  destruct (String.compare k k0) eqn:Hc; simpl.
  - apply string_compare_eq in Hc as ->. by destruct (k' =s k0).
  - done.
  - rewrite IH. destruct (k' =s k0) eqn:H0, (k' =s k) eqn:H1; try done.
    bool_facts. subst. by rewrite (proj2 (string_compare_eq k0 k0) eq_refl) in Hc.
Qed.

Lemma json_get_set k v j j' k' :
  json_set k v j = Some j' →
  json_get k' j' = if k' =s k then Some v else json_get k' j.
Proof.
  destruct j; simpl; intros; simplify_eq/=; [done|]. apply members_get_set.
Qed.
Lemma json_get_put k v ms k' :
  json_get k' (put k v (JObj ms)) = if k' =s k then Some v else json_get k' (JObj ms).
Proof. apply members_get_set. Qed.

Lemma put_obj k v l : put k v (obj l) = obj (l ++ [(k, v)]).
Proof. unfold put, obj. cbn. by rewrite foldl_app. Qed.

(** A member of an object built by assignments is the last one assigned. *)
Lemma json_get_obj_snoc l k v k' :
  json_get k' (obj (l ++ [(k, v)])) = if k' =s k then Some v else json_get k' (obj l).
Proof. unfold obj. rewrite foldl_app. cbn. apply members_get_set. Qed.

End Json.
