(* ===== verification/Naming.v ===== *)
(** * Identifier grammar (src/src/utils/core/naming.cpp, naming.hpp)

    Every name that enters the hub (channels, bands, role uids, peer uids,
    schema ids, counter keys) passes [is_valid_identifier].  This file holds
    the validator and the parsers as the code has them ([Module Naming]), the
    grammar the header states ([Module Grammar]) and the proof that the
    validator accepts exactly that grammar, that the parsers invert
    concatenation, and that the name spaces are disjoint. *)

From S2P Require Import Prelude.
From Stdlib Require Import Ascii.

Local Open Scope string_scope.
Local Arguments String.append !_ _ : simpl nomatch.
Local Open Scope Z_scope.

Module Naming.

Definition kMaxComponentLen : nat := 64.
Definition kMaxTotalLen : nat := 256.

(** [c >= lo && c <= hi] on characters. *)
Definition char_in (lo hi c : ascii) : bool :=
  (N_of_ascii lo <=? N_of_ascii c)%N && (N_of_ascii c <=? N_of_ascii hi)%N.

Definition is_first_char (c : ascii) : bool :=
  char_in "A" "Z" c || char_in "a" "z" c.

Definition is_component_char (c : ascii) : bool :=
  is_first_char c || char_in "0" "9" c || Ascii.eqb c "_" || Ascii.eqb c "-".

Fixpoint all_chars (f : ascii → bool) (s : string) : bool :=
  match s with
  | EmptyString => true
  | String c s => f c && all_chars f s
  end.

Definition is_valid_component (c : string) : bool :=
  match c with
  | EmptyString => false
  | String c0 rest =>
      if (kMaxComponentLen <? String.length c)%nat then false
      else if negb (is_first_char c0) then false
      else all_chars is_component_char rest
  end.

(** The index loop of [for_each_component]: [comp] is the text between
    [start] and the current index. *)
Fixpoint for_each_component_from (comp rest : string) (f : string → bool) : bool :=
  match rest with
  | EmptyString =>
      if negb (is_valid_component comp) then false
      else if negb (f comp) then false
      else true
  | String c rest =>
      if Ascii.eqb c "." then
        if negb (is_valid_component comp) then false
        else if negb (f comp) then false
        else for_each_component_from "" rest f
      else for_each_component_from (comp ++ String c EmptyString) rest f
  end.

Definition for_each_component (body : string) (f : string → bool) : bool :=
  for_each_component_from "" body f.

Definition validate_dotted_body (body : string) : bool :=
  if str_empty body then false
  else for_each_component body (λ _, true).

Fixpoint count_dots (s : string) : nat :=
  match s with
  | EmptyString => 0
  | String c s => if Ascii.eqb c "." then S (count_dots s) else count_dots s
  end.

Definition kRoleTags : list string := ["prod"; "cons"; "proc"].
Definition kPeerTag : string := "hub".
Definition kChannelReservedFirst : list string :=
  ["prod"; "cons"; "proc"; "hub"; "sys"].

Definition is_short_tag (s : string) : bool := existsb (λ t, s =s t) kRoleTags.
Definition is_peer_tag (s : string) : bool := s =s kPeerTag.
Definition is_reserved_channel_first (s : string) : bool :=
  existsb (λ t, s =s t) kChannelReservedFirst.

Definition is_valid_tagged_uid_structure (s : string) : bool :=
  if negb (validate_dotted_body s) then false else (2 <=? count_dots s)%nat.

(** [s.find('.')] and [s.rfind('.')]; [None] is [npos]. *)
Fixpoint find_dot (s : string) : option nat :=
  match s with
  | EmptyString => None
  | String c s => if Ascii.eqb c "." then Some 0%nat else S <$> find_dot s
  end.

Fixpoint rfind_dot (s : string) : option nat :=
  match s with
  | EmptyString => None
  | String c s =>
      match rfind_dot s with
      | Some d => Some (S d)
      | None => if Ascii.eqb c "." then Some 0%nat else None
      end
  end.

(** [s.substr(pos)] and [s.substr(0, n)]. *)
Fixpoint str_drop (n : nat) (s : string) : string :=
  match n, s with
  | O, _ => s
  | S n, String _ s => str_drop n s
  | S _, EmptyString => EmptyString
  end.

Fixpoint str_take (n : nat) (s : string) : string :=
  match n, s with
  | O, _ => EmptyString
  | S n, String c s => String c (str_take n s)
  | S _, EmptyString => EmptyString
  end.

Definition first_component (s : string) : string :=
  match find_dot s with None => s | Some d => str_take d s end.

Definition last_component (s : string) : string :=
  match rfind_dot s with None => s | Some d => str_drop (S d) s end.

(** The digit loop of [is_version_component]; the accumulator is a
    [uint64_t] that never exceeds [10 * u32_max + 9], so it does not wrap. *)
Fixpoint version_digits (acc : Z) (s : string) : option Z :=
  match s with
  | EmptyString => Some acc
  | String c s =>
      if negb (char_in "0" "9" c) then None
      else
        let acc := u64 (acc * 10 + (Z.of_N (N_of_ascii c) - Z.of_N (N_of_ascii "0"))) in
        if u32_max <? acc then None else version_digits acc s
  end.

Definition is_version_component (s : string) : option Z :=
  match s with
  | String c (String _ _ as digits) =>
      if negb (Ascii.eqb c "v") then None else version_digits 0 digits
  | _ => None
  end.

Inductive IdentifierKind :=
  | Channel | Band | RoleUid | RoleName | PeerUid | Schema | SysKey.

#[export] Instance IdentifierKind_eq_dec : EqDecision IdentifierKind.
Proof. solve_decision. Defined.

Definition kind_to_string (k : IdentifierKind) : string :=
  match k with
  | Channel => "Channel" | Band => "Band" | RoleUid => "RoleUid"
  | RoleName => "RoleName" | PeerUid => "PeerUid" | Schema => "Schema"
  | SysKey => "SysKey"
  end.

Definition is_valid_identifier (s : string) (kind : IdentifierKind) : bool :=
  if str_empty s || (kMaxTotalLen <? String.length s)%nat then false
  else
    match kind with
    | Channel =>
        if negb (validate_dotted_body s) then false
        else negb (is_reserved_channel_first (first_component s))
    | RoleName => validate_dotted_body s
    | Band =>
        match s with
        | String c body => Ascii.eqb c "!" && validate_dotted_body body
        | EmptyString => false
        end
    | Schema =>
        match s with
        | String c (String _ _ as body) =>
            if negb (Ascii.eqb c "$") then false
            else if negb (validate_dotted_body body) then false
            else
              match find_dot body with
              | None => false
              | Some _ =>
                  match is_version_component (last_component body) with
                  | Some _ => true
                  | None => false
                  end
              end
        | _ => false
        end
    | RoleUid => is_valid_tagged_uid_structure s && is_short_tag (first_component s)
    | PeerUid => is_valid_tagged_uid_structure s && is_peer_tag (first_component s)
    | SysKey =>
        if (String.length s <? 5)%nat then false
        else if negb (str_take 4 s =s "sys.") then false
        else validate_dotted_body s
    end.

Record TaggedUidParts := mkTaggedUidParts {
  tag : string;
  name : string;
  unique : string;
}.

(** The [npos] branches follow [substr] and the wrap-around of [npos + 1];
    [parse_role_uid] and [parse_peer_uid] never reach them. *)
Definition split_tagged_uid (uid : string) : TaggedUidParts :=
  match find_dot uid with
  | None => mkTaggedUidParts uid uid uid
  | Some d1 =>
      let rest := str_drop (S d1) uid in
      match find_dot rest with
      | None => mkTaggedUidParts (str_take d1 uid) rest uid
      | Some d2 =>
          mkTaggedUidParts (str_take d1 uid) (str_take d2 rest) (str_drop (S d2) rest)
      end
  end.

Definition parse_role_uid (uid : string) : option TaggedUidParts :=
  if negb (is_valid_identifier uid RoleUid) then None
  else Some (split_tagged_uid uid).

Definition parse_peer_uid (uid : string) : option TaggedUidParts :=
  if negb (is_valid_identifier uid PeerUid) then None
  else Some (split_tagged_uid uid).

Record SchemaIdParts := mkSchemaIdParts {
  base : string;
  version_token : string;
  version : Z;
}.

Definition parse_schema_id (id : string) : option SchemaIdParts :=
  if negb (is_valid_identifier id Schema) then None
  else
    let body := str_drop 1 id in
    let '(base, version_token) :=
      match rfind_dot body with
      | None => (body, body)
      | Some last_dot => (str_take last_dot body, str_drop (S last_dot) body)
      end in
    Some (mkSchemaIdParts base version_token
            (default 0 (is_version_component version_token))).

Definition short_role_tag (role_type : string) : string :=
  if role_type =s "producer" then "prod"
  else if role_type =s "consumer" then "cons"
  else if role_type =s "processor" then "proc"
  else str_take (Nat.min (String.length role_type) 4) role_type.

Definition extract_short_tag (uid : string) : option string :=
  tag <$> parse_role_uid uid.

Definition format_role_ref (uid name tag : string) : string :=
  if negb (str_empty uid) then uid
  else
    (if negb (str_empty tag) then
       "[" ++ tag ++ "]" ++ (if negb (str_empty name) then " " else "")
     else "") ++ name.

End Naming.

(** ** The grammar of naming.hpp, stated over lists of components *)
Module Grammar.
Import Naming.

Fixpoint join_dots (cs : list string) : string :=
  match cs with
  | [] => ""
  | [c] => c
  | c :: cs => c ++ String "." (join_dots cs)
  end.

(** [NameComponent := [A-Za-z][A-Za-z0-9_-]{0,63}] *)
Definition NameComponent (c : string) : Prop :=
  ∃ c0 rest, c = String c0 rest ∧ is_first_char c0 = true ∧
    all_chars is_component_char rest = true ∧ (String.length rest ≤ 63)%nat.

(** ['v' [0-9]+], and the number it writes. *)
Definition VersionComponent (c : string) : Prop :=
  ∃ digits, c = String "v" digits ∧ digits ≠ "" ∧ all_chars (char_in "0" "9") digits = true.

Definition digit_value (c : ascii) : Z := Z.of_N (N_of_ascii c) - Z.of_N (N_of_ascii "0").

Fixpoint decimal (acc : Z) (s : string) : Z :=
  match s with
  | EmptyString => acc
  | String c s => decimal (acc * 10 + digit_value c) s
  end.

Definition dotted (cs : list string) (s : string) : Prop :=
  cs ≠ [] ∧ Forall NameComponent cs ∧ s = join_dots cs.

(** The rules, for a given rule of version components. *)
Definition identifier_with (version : string → Prop) (kind : IdentifierKind) (s : string) : Prop :=
  (String.length s ≤ 256)%nat ∧
  match kind with
  | Channel => ∃ c cs, dotted (c :: cs) s ∧ c ∉ ["prod"; "cons"; "proc"; "hub"; "sys"]
  | RoleName => ∃ cs, dotted cs s
  | Band => ∃ cs body, s = String "!" body ∧ dotted cs body
  | Schema => ∃ cs v body, s = String "$" body ∧ cs ≠ [] ∧
      dotted (cs ++ [v]) body ∧ version v
  | RoleUid => ∃ tag name unique cs,
      dotted (tag :: name :: unique :: cs) s ∧ tag ∈ ["prod"; "cons"; "proc"]
  | PeerUid => ∃ name unique cs, dotted ("hub" :: name :: unique :: cs) s
  | SysKey => ∃ c cs, dotted ("sys" :: c :: cs) s
  end.

(** The published grammar. *)
Definition identifier : IdentifierKind → string → Prop := identifier_with VersionComponent.

(** What the validator asks for beyond the rules: a schema's version is at most
    [2^32 - 1]. *)
Definition version_fits (kind : IdentifierKind) (s : string) : Prop :=
  kind = Schema → ∀ cs v body, s = String "$" body → dotted (cs ++ [v]) body →
  decimal 0 (str_drop 1 v) ≤ u32_max.
End Grammar.

(** ** Lemmas on strings and components *)
Module NamingFacts.
Import Naming Grammar.

Lemma str_app_assoc (a b c : string) : (a ++ b) ++ c = a ++ (b ++ c).
Proof. induction a as [|x a IH]; [done|]. cbn. by f_equal. Qed.

Lemma str_app_nil_r (a : string) : a ++ "" = a.
Proof. induction a as [|x a IH]; [done|]. cbn. by f_equal. Qed.

Lemma str_length_app (a b : string) :
  String.length (a ++ b) = (String.length a + String.length b)%nat.
Proof. induction a as [|x a IH]; [done|]. cbn. by f_equal. Qed.

Fixpoint split_from (comp rest : string) : list string :=
  match rest with
  | EmptyString => [comp]
  | String c rest =>
      if Ascii.eqb c "." then comp :: split_from "" rest
      else split_from (comp ++ String c "") rest
  end.

Definition split_dots (s : string) : list string := split_from "" s.

Definition no_dot (s : string) : bool := all_chars (λ c, negb (Ascii.eqb c ".")) s.

Lemma for_each_component_split comp rest f :
  for_each_component_from comp rest f =
  forallb (λ c, is_valid_component c && f c) (split_from comp rest).
Proof.
  revert comp. induction rest as [|c rest IH]; intros comp; cbn.
  - by destruct (is_valid_component comp), (f comp).
  - destruct (Ascii.eqb c "."); cbn; rewrite IH; [|done].
    by destruct (is_valid_component comp), (f comp).
Qed.

Lemma split_from_nonnil comp rest : split_from comp rest ≠ [].
Proof. revert comp. induction rest; intros; cbn; [done|]. by case_match. Qed.

Lemma join_split_from comp rest : join_dots (split_from comp rest) = comp ++ rest.
Proof.
  revert comp. induction rest as [|c rest IH]; intros comp; cbn.
  - by rewrite str_app_nil_r.
  - destruct (Ascii.eqb_spec c ".") as [->|_].
    + pose proof (split_from_nonnil "" rest). specialize (IH "").
      destruct (split_from "" rest); [done|]. cbn in *. by rewrite IH.
    + by rewrite IH, str_app_assoc.
Qed.

Lemma split_from_app comp a rest :
  no_dot a = true → split_from comp (a ++ rest) = split_from (comp ++ a) rest.
Proof.
  revert comp. induction a as [|c a IH]; intros comp; cbn.
  - by rewrite str_app_nil_r.
  - intros [Hc%negb_true_iff Ha]%andb_true_iff. rewrite Hc.
    by rewrite IH, str_app_assoc.
Qed.

Lemma split_join cs :
  cs ≠ [] → Forall (λ c, no_dot c = true) cs → split_dots (join_dots cs) = cs.
Proof.
  induction cs as [|c [|c' cs] IH]; intros Hne Hall; [done| |].
  - apply Forall_cons in Hall as [Hc _]. unfold split_dots. cbn.
    rewrite <- (str_app_nil_r c) at 1. by rewrite split_from_app.
  - apply Forall_cons in Hall as [Hc Hall].
    change (join_dots (c :: c' :: cs)) with (c ++ String "." (join_dots (c' :: cs))).
    unfold split_dots. rewrite split_from_app by done. cbn [String.append].
    change (split_from c (String "." (join_dots (c' :: cs))))
      with (c :: split_dots (join_dots (c' :: cs))).
    by rewrite IH.
Qed.

Lemma is_first_char_component c : is_first_char c = true → is_component_char c = true.
Proof. unfold is_component_char. by intros ->. Qed.

Lemma component_char_not_dot c : is_component_char c = true → Ascii.eqb c "." = false.
Proof. destruct (Ascii.eqb_spec c "."); [by subst|done]. Qed.

Lemma all_chars_impl f g s :
  (∀ c, f c = true → g c = true) → all_chars f s = true → all_chars g s = true.
Proof. intros Hfg. induction s; cbn; [done|]. rewrite !andb_true_iff. naive_solver. Qed.

Lemma valid_component_spec c : is_valid_component c = true ↔ NameComponent c.
Proof.
  unfold NameComponent, is_valid_component, kMaxComponentLen. destruct c as [|c0 rest].
  - split; [done|]. naive_solver.
  - cbn [String.length]. destruct (Nat.ltb_spec 64 (S (String.length rest))).
    + split; [done|]. intros (?&?&[= -> ->]&?&?&?). lia.
    + destruct (is_first_char c0) eqn:Hc; cbn; [|naive_solver].
      split; [intros; do 2 eexists; split_and!; eauto; lia|]. naive_solver.
Qed.

Lemma NameComponent_no_dot c : NameComponent c → no_dot c = true.
Proof.
  intros (c0 & rest & -> & Hc & Hr & _). cbn. apply andb_true_iff. split.
  - by rewrite component_char_not_dot by by apply is_first_char_component.
  - eapply all_chars_impl; [|done]. intros x Hx. by rewrite component_char_not_dot.
Qed.

Lemma dotted_no_dot cs : Forall NameComponent cs → Forall (λ c, no_dot c = true) cs.
Proof. intros H. eapply Forall_impl; [done|]. apply NameComponent_no_dot. Qed.

(** The dotted body validator accepts exactly the joined component lists. *)
Lemma validate_dotted_body_split s :
  validate_dotted_body s = true ↔ Forall NameComponent (split_dots s).
Proof.
  unfold validate_dotted_body, for_each_component.
  rewrite for_each_component_split. fold (split_dots s).
  assert (forallb (λ c, is_valid_component c && true) (split_dots s) = true
          ↔ Forall NameComponent (split_dots s)) as Hf.
  { induction (split_dots s) as [|c cs IH]; cbn; [by split|].
    rewrite andb_true_r, andb_true_iff, valid_component_spec, Forall_cons, IH. tauto. }
  destruct s; cbn [str_empty]; [|done].
  split; [done|]. cbn. intros [(?&?&?&_) _]%Forall_cons. done.
Qed.

Lemma validate_dotted_body_spec s :
  validate_dotted_body s = true ↔ ∃ cs, dotted cs s.
Proof.
  rewrite validate_dotted_body_split. split.
  - intros H. exists (split_dots s). split_and!; [apply split_from_nonnil|done|].
    unfold split_dots. by rewrite join_split_from.
  - intros (cs & Hne & Hall & ->). rewrite split_join; auto using dotted_no_dot.
Qed.

Lemma dotted_split cs s : dotted cs s → split_dots s = cs.
Proof. intros (Hne & Hall & ->). apply split_join; auto using dotted_no_dot. Qed.

Lemma dotted_functional cs cs' s : dotted cs s → dotted cs' s → cs = cs'.
Proof. intros H%dotted_split H'%dotted_split. congruence. Qed.

Lemma dotted_nonempty cs s : dotted cs s → s ≠ "".
Proof.
  intros H ->. pose proof (dotted_split _ _ H) as <-.
  destruct H as (_ & Hall & _). cbn in Hall.
  apply Forall_cons in Hall as [(?&?&?&_) _]. done.
Qed.

Lemma validated_dotted s : validate_dotted_body s = true → dotted (split_dots s) s.
Proof.
  intros [cs H]%validate_dotted_body_spec. by rewrite (dotted_split _ _ H).
Qed.

Lemma length_split_dots s : length (split_dots s) = S (count_dots s).
Proof.
  unfold split_dots. generalize "". induction s as [|c s IH]; intros comp; cbn; [done|].
  destruct (Ascii.eqb c "."); cbn; by rewrite IH.
Qed.

(** Cutting at a dot found by [find] or [rfind]. *)
Lemma split_from_dot comp a b :
  split_from comp (a ++ String "." b) = (split_from comp a ++ split_dots b)%list.
Proof.
  revert comp. induction a as [|c a IH]; intros comp; cbn; [done|].
  destruct (Ascii.eqb c "."); rewrite IH; done.
Qed.

Lemma no_dot_split comp a : no_dot a = true → split_from comp a = [comp ++ a].
Proof.
  intros Ha. rewrite <- (str_app_nil_r a) at 1. by rewrite split_from_app.
Qed.

Lemma find_dot_None s : find_dot s = None → no_dot s = true.
Proof.
  induction s as [|c s IH]; cbn; [done|]. destruct (Ascii.eqb c "."); cbn; [done|].
  destruct (find_dot s); [done|auto].
Qed.

Lemma find_dot_Some s d :
  find_dot s = Some d →
  s = str_take d s ++ String "." (str_drop (S d) s) ∧ no_dot (str_take d s) = true.
Proof.
  revert d. induction s as [|c s IH]; intros d; cbn; [done|].
  destruct (Ascii.eqb_spec c ".") as [->|Hc]; intros ?; simplify_eq; [done|].
  destruct (find_dot s) as [d'|] eqn:?; simplify_eq/=.
  destruct (IH d') as [Hs Hn]; [done|]. split.
  - cbn [str_take str_drop String.append]. f_equal. exact Hs.
  - unfold no_dot in *. cbn. rewrite Hn. by destruct (Ascii.eqb_spec c ".").
Qed.

Lemma rfind_dot_None s : rfind_dot s = None → no_dot s = true.
Proof.
  induction s as [|c s IH]; cbn; [done|]. destruct (rfind_dot s); [done|].
  destruct (Ascii.eqb c "."); cbn; [done|auto].
Qed.

Lemma rfind_dot_Some s d :
  rfind_dot s = Some d →
  s = str_take d s ++ String "." (str_drop (S d) s) ∧ no_dot (str_drop (S d) s) = true.
Proof.
  revert d. induction s as [|c s IH]; intros d; cbn; [done|].
  destruct (rfind_dot s) as [d'|] eqn:?.
  - intros [= <-]. destruct (IH d') as [Hs Hn]; [done|].
    split; [cbn [str_take str_drop String.append]; f_equal; exact Hs|exact Hn].
  - destruct (Ascii.eqb_spec c ".") as [->|Hc]; intros ?; simplify_eq.
    cbn. split; [done|]. destruct s; by apply rfind_dot_None.
Qed.

Lemma first_component_split s c cs : split_dots s = c :: cs → first_component s = c.
Proof.
  unfold first_component. destruct (find_dot s) as [d|] eqn:Hd.
  - apply find_dot_Some in Hd as [Hs Hn]. rewrite Hs at 1. unfold split_dots.
    rewrite split_from_dot, no_dot_split by done. cbn. congruence.
  - apply find_dot_None in Hd. unfold split_dots. rewrite no_dot_split by done.
    cbn. congruence.
Qed.

Lemma last_component_split s cs c : split_dots s = (cs ++ [c])%list → last_component s = c.
Proof.
  unfold last_component. destruct (rfind_dot s) as [d|] eqn:Hd.
  - apply rfind_dot_Some in Hd as [Hs Hn]. rewrite Hs at 1. unfold split_dots.
    rewrite split_from_dot. unfold split_dots. rewrite (no_dot_split "" (str_drop (S d) s)) by done.
    intros H. by destruct (app_inj_tail _ _ _ _ H).
  - apply rfind_dot_None in Hd. unfold split_dots. rewrite no_dot_split by done.
    cbn. intros H. by destruct (app_inj_tail [] cs s c H).
Qed.

Lemma find_dot_two s : find_dot s ≠ None ↔ (2 ≤ length (split_dots s))%nat.
Proof.
  destruct (find_dot s) as [d|] eqn:Hd.
  - apply find_dot_Some in Hd as [Hs _]. rewrite Hs. unfold split_dots.
    rewrite split_from_dot, length_app. unfold split_dots.
    pose proof (split_from_nonnil "" (str_take d s)).
    pose proof (split_from_nonnil "" (str_drop (S d) s)).
    destruct (split_from "" (str_take d s)), (split_from "" (str_drop (S d) s)); try done.
    split; [cbn; lia|done].
  - apply find_dot_None in Hd. unfold split_dots. rewrite no_dot_split by done.
    cbn. split; [done|lia].
Qed.

Lemma is_short_tag_spec s : is_short_tag s = true ↔ s ∈ ["prod"; "cons"; "proc"].
Proof.
  unfold is_short_tag. rewrite existsb_exists. setoid_rewrite list_elem_of_In.
  unfold str_eqb. setoid_rewrite bool_decide_eq_true.
  split; [by intros (? & ? & ->)|by eexists].
Qed.

Lemma is_reserved_spec s :
  is_reserved_channel_first s = true ↔ s ∈ ["prod"; "cons"; "proc"; "hub"; "sys"].
Proof.
  unfold is_reserved_channel_first. rewrite existsb_exists.
  setoid_rewrite list_elem_of_In. unfold str_eqb. setoid_rewrite bool_decide_eq_true.
  split; [by intros (? & ? & ->)|by eexists].
Qed.

(** The components [is_version_component] takes. *)
Definition BoundedVersion (c : string) : Prop :=
  ∃ digits v, c = String "v" digits ∧ digits ≠ "" ∧ version_digits 0 digits = Some v.

Lemma digit_range c : char_in "0" "9" c = true → 0 ≤ digit_value c ≤ 9.
Proof.
  unfold char_in, digit_value. intros [H1%N.leb_le H2%N.leb_le]%andb_true_iff.
  change (N_of_ascii "0") with 48%N in *. change (N_of_ascii "9") with 57%N in *. lia.
Qed.

Lemma decimal_mono acc s : 0 ≤ acc → all_chars (char_in "0" "9") s = true → acc ≤ decimal acc s.
Proof.
  revert acc. induction s as [|c s IH]; intros acc Ha; cbn; [done|].
  intros [Hc Hs]%andb_true_iff. apply digit_range in Hc. specialize (IH (acc * 10 + digit_value c) ltac:(lia) Hs). lia.
Qed.

Lemma version_digits_decimal acc s :
  0 ≤ acc ≤ u32_max →
  version_digits acc s =
    if all_chars (char_in "0" "9") s && (decimal acc s <=? u32_max) then Some (decimal acc s) else None.
Proof.
  revert acc. induction s as [|c s IH]; intros acc Ha; cbn [version_digits all_chars decimal].
  { by rewrite (proj2 (Z.leb_le _ _)) by lia. }
  destruct (char_in "0" "9" c) eqn:Hc; cbn [negb andb]; [|done]. apply digit_range in Hc.
  fold (digit_value c). assert (u64 (acc * 10 + digit_value c) = acc * 10 + digit_value c) as ->.
  { unfold u64, u64_modulus, u32_max in *. apply Z.mod_small. lia. }
  destruct (Z.ltb_spec u32_max (acc * 10 + digit_value c)); [|apply IH; lia].
  destruct (all_chars _ s) eqn:Hs; [|done]. pose proof (decimal_mono (acc * 10 + digit_value c) s ltac:(lia) Hs).
  by rewrite (proj2 (Z.leb_gt _ _)) by lia.
Qed.

Lemma bounded_version c : BoundedVersion c ↔ VersionComponent c ∧ decimal 0 (str_drop 1 c) ≤ u32_max.
Proof.
  assert (∀ ds, str_drop 1 (String "v" ds) = ds) as Hd by (intros; reflexivity).
  unfold BoundedVersion, VersionComponent. split.
  - intros (ds & v & -> & Hne & Hv). rewrite version_digits_decimal in Hv by (unfold u32_max; lia).
    destruct (_ && _) eqn:Hb; [|done]. apply andb_true_iff in Hb as [Hc Hl%Z.leb_le]. rewrite Hd. eauto.
  - intros [(ds & -> & Hne & Hc) Hl]. rewrite Hd in Hl. exists ds, (decimal 0 ds). split_and!; [done..|].
    rewrite version_digits_decimal by (unfold u32_max; lia). by rewrite Hc, (proj2 (Z.leb_le _ _)) by lia.
Qed.

Lemma is_version_spec c : is_Some (is_version_component c) ↔ BoundedVersion c.
Proof.
  unfold is_version_component, BoundedVersion. destruct c as [|v digits].
  - split; [by intros []|naive_solver].
  - destruct digits as [|d ds]; [split; [by intros []|naive_solver]|].
    destruct (Ascii.eqb_spec v "v") as [->|Hv]; cbn [negb].
    + split; [intros [x Hx]; by exists (String d ds), x|].
      intros (? & x & [= <-] & _ & ?). by exists x.
    + split; [by intros []|naive_solver].
Qed.

Lemma tagged_uid_split s :
  is_valid_tagged_uid_structure s = true ↔
  ∃ a b c cs, dotted (a :: b :: c :: cs) s.
Proof.
  unfold is_valid_tagged_uid_structure.
  destruct (validate_dotted_body s) eqn:Hv; cbn [negb].
  - apply validated_dotted in Hv. pose proof (length_split_dots s) as Hl.
    rewrite Nat.leb_le. split.
    + intros Hc. destruct (split_dots s) as [|a [|b [|c cs]]]; cbn in Hl; try lia. eauto.
    + intros (a & b & c & cs & H). rewrite (dotted_split _ _ H) in Hl. cbn in Hl. lia.
  - split; [done|]. intros (a & b & c & cs & H).
    assert (validate_dotted_body s = true) by (apply validate_dotted_body_spec; eauto).
    congruence.
Qed.
End NamingFacts.

(** ** Properties of the validator and the parsers *)
Module NamingProps.
Import Naming Grammar NamingFacts.

Lemma valid_dotted cs s : dotted cs s → validate_dotted_body s = true.
Proof. intros. apply validate_dotted_body_spec. eauto. Qed.

Lemma dotted_first c cs s : dotted (c :: cs) s → first_component s = c.
Proof. intros H%dotted_split. by apply first_component_split in H. Qed.

Lemma valid_length s kind :
  is_valid_identifier s kind = true → (String.length s ≤ 256)%nat ∧ s ≠ "".
Proof.
  unfold is_valid_identifier, kMaxTotalLen.
  destruct (str_empty s) eqn:He; [done|]. apply str_empty_false in He. cbn [orb].
  destruct (Nat.ltb_spec 256 (String.length s)); [done|]. by intros _; split.
Qed.

Lemma channel_grammar s :
  (if negb (validate_dotted_body s) then false
   else negb (is_reserved_channel_first (first_component s))) = true ↔
  ∃ c cs, dotted (c :: cs) s ∧ c ∉ ["prod"; "cons"; "proc"; "hub"; "sys"].
Proof.
  setoid_rewrite <- is_reserved_spec. destruct (validate_dotted_body s) eqn:Hv; cbn [negb].
  - apply validated_dotted in Hv. rewrite negb_true_iff, <- not_true_iff_false.
    destruct (split_dots s) as [|c cs] eqn:Hs; [by destruct Hv|].
    rewrite (dotted_first _ _ _ Hv). split; [eauto|].
    intros (c' & cs' & H & ?). by pose proof (dotted_functional _ _ _ Hv H); simplify_eq.
  - split; [done|]. intros (c & cs & H%valid_dotted & _). congruence.
Qed.

Lemma tagged_grammar (P : string → bool) s :
  is_valid_tagged_uid_structure s && P (first_component s) = true ↔
  ∃ tag name unique cs, dotted (tag :: name :: unique :: cs) s ∧ P tag = true.
Proof.
  rewrite andb_true_iff, tagged_uid_split. split.
  - intros [(a & b & c & cs & H) HP]. rewrite (dotted_first _ _ _ H) in HP. eauto 10.
  - intros (a & b & c & cs & H & HP). rewrite (dotted_first _ _ _ H). eauto 10.
Qed.

Lemma schema_body_grammar body :
  (if negb (validate_dotted_body body) then false
   else match find_dot body with
        | None => false
        | Some _ => match is_version_component (last_component body) with
                    | Some _ => true | None => false end
        end) = true ↔
  ∃ cs v, cs ≠ [] ∧ dotted (cs ++ [v])%list body ∧ BoundedVersion v.
Proof.
  destruct (validate_dotted_body body) eqn:Hv; cbn [negb].
  - apply validated_dotted in Hv. setoid_rewrite <- is_version_spec.
    pose proof (find_dot_two body) as Hd.
    destruct (exists_last (split_from_nonnil "" body)) as (cs & v & Hcs).
    fold (split_dots body) in Hcs.
    rewrite (last_component_split _ _ _ Hcs). rewrite Hcs, length_app in Hd. cbn in Hd.
    assert (find_dot body ≠ None ↔ cs ≠ []) as Hne.
    { rewrite Hd. destruct cs; cbn; split; intros; try done; lia. }
    rewrite Hcs in Hv. split.
    + intros Ht. exists cs, v. destruct (find_dot body) eqn:?; [|done].
      destruct (is_version_component v) eqn:?; [|done]. naive_solver.
    + intros (cs' & v' & Hn & H & [x Hx]).
      pose proof (dotted_functional _ _ _ Hv H) as [-> ->]%app_inj_tail.
      destruct (find_dot body); [by rewrite Hx|naive_solver].
  - split; [done|]. intros (cs & v & _ & H%valid_dotted & _). congruence.
Qed.

Lemma syskey_grammar s :
  (if (String.length s <? 5)%nat then false
   else if negb (str_take 4 s =s "sys.") then false else validate_dotted_body s) = true ↔
  ∃ c cs, dotted ("sys" :: c :: cs) s.
Proof.
  split.
  - case_match; [done|]. destruct (str_take 4 s =s "sys.") eqn:Ht; [|done].
    apply bool_decide_eq_true_1 in Ht. intros Hv%validated_dotted.
    do 4 (destruct s as [|? s]; [done|]; cbn in Ht). simplify_eq.
    change (split_dots (String "s" (String "y" (String "s" (String "." s)))))
      with ("sys" :: split_dots s) in Hv.
    destruct (split_dots s) as [|c cs] eqn:Hs; [by apply split_from_nonnil in Hs|eauto].
  - intros (c & cs & H). pose proof (valid_dotted _ _ H) as Hv. rewrite Hv.
    destruct H as (_ & Hall & ->). change (join_dots ("sys" :: c :: cs))
      with ("sys." ++ join_dots (c :: cs)).
    apply Forall_cons in Hall as [_ Hall].
    assert (join_dots (c :: cs) ≠ "") as Hj by by eapply (dotted_nonempty (c :: cs)).
    destruct (join_dots (c :: cs)); [done|]. cbn. by destruct s.
Qed.

Lemma bounded_identifier kind s :
  identifier_with BoundedVersion kind s ↔ identifier kind s ∧ version_fits kind s.
Proof.
  unfold version_fits. destruct kind; try (by split; [intros ?; split|intros [? _]]).
  split.
  - intros [Hl (cs & v & body & -> & Hne & Hd & [Hv Hb]%bounded_version)]. split.
    + split; [done|]. by exists cs, v, body.
    + intros _ cs' v' body' [= <-] Hd'. by pose proof (dotted_functional _ _ _ Hd Hd') as [-> ->]%app_inj_tail.
  - intros [[Hl (cs & v & body & -> & Hne & Hd & Hv)] Hfit]. split; [done|].
    exists cs, v, body. split_and!; [done..|]. apply bounded_version. split; [done|by eapply Hfit].
Qed.

Lemma valid_identifier_spec s kind :
  is_valid_identifier s kind = true ↔ identifier_with BoundedVersion kind s.
Proof.
  unfold identifier_with. split.
  - intros H. pose proof (valid_length _ _ H) as [Hl Hne]. split; [done|].
    revert H. unfold is_valid_identifier, kMaxTotalLen.
    rewrite (proj2 (str_empty_false s) Hne), (proj2 (Nat.ltb_ge _ _) Hl). cbn [orb].
    destruct kind.
    + apply channel_grammar.
    + destruct s as [|c body]; [done|].
      intros [->%Ascii.eqb_eq [cs ?]%validate_dotted_body_spec]%andb_true_iff. eauto.
    + rewrite tagged_grammar. by setoid_rewrite is_short_tag_spec.
    + apply validate_dotted_body_spec.
    + rewrite tagged_grammar. unfold is_peer_tag. intros (t & a & b & cs & H & Ht).
      bool_facts. subst. eauto.
    + destruct s as [|c [|d ds]]; [done..|].
      destruct (Ascii.eqb_spec c "$") as [->|]; [|done]. cbn [negb].
      intros (cs & v & ?)%schema_body_grammar. eauto.
    + apply syskey_grammar.
  - intros [Hl H].
    assert (s ≠ "") as Hne.
    { destruct kind; decompose [ex and] H; subst; try done; eauto using dotted_nonempty. }
    unfold is_valid_identifier, kMaxTotalLen.
    rewrite (proj2 (str_empty_false s) Hne), (proj2 (Nat.ltb_ge _ _) Hl). cbn [orb].
    destruct kind.
    + by apply channel_grammar.
    + destruct H as (cs & body & -> & H). cbn. eauto using valid_dotted.
    + rewrite tagged_grammar. by setoid_rewrite is_short_tag_spec.
    + by apply validate_dotted_body_spec.
    + rewrite tagged_grammar. destruct H as (a & b & cs & H).
      exists "hub", a, b, cs. done.
    + destruct H as (cs & v & body & -> & H). destruct body as [|d ds].
      { destruct H as (_ & H & _). by apply dotted_nonempty in H. }
      cbn [negb Ascii.eqb]. apply schema_body_grammar. naive_solver.
    + by apply syskey_grammar.
Qed.

(** C39 The validator decides the published grammar up to the size of versions:
    for every string and every identifier kind it answers true exactly when the
    string is at most 256 characters long and is derived by that kind's rule
    (components of at most 64 characters, tags, sigils and version suffix as the
    rule says) and, for a schema, the number in its version is below 2^32, which
    the rule does not ask for. *)
Theorem is_valid_identifier_grammar s kind :
  is_valid_identifier s kind = true ↔ identifier kind s ∧ version_fits kind s.
Proof. rewrite valid_identifier_spec. apply bounded_identifier. Qed.

(** A schema id of the published grammar that the validator refuses. *)
Theorem large_version_refused :
  identifier Schema "$lab.v4294967296" ∧ is_valid_identifier "$lab.v4294967296" Schema = false.
Proof.
  split; [|by vm_compute]. split; [cbn; lia|]. exists ["lab"], "v4294967296", "lab.v4294967296".
  split; [done|]. split; [done|]. split.
  - by apply (validated_dotted "lab.v4294967296").
  - by exists "4294967296".
Qed.

Lemma find_dot_app a b : no_dot a = true → find_dot (a ++ String "." b) = Some (String.length a).
Proof.
  induction a as [|c a IH]; cbn; [done|].
  intros [Hc%negb_true_iff Ha]%andb_true_iff. by rewrite Hc, IH.
Qed.

Lemma rfind_dot_app a b :
  no_dot b = true → rfind_dot (a ++ String "." b) = Some (String.length a).
Proof.
  intros Hb. induction a as [|c a IH]; cbn; [|by rewrite IH].
  destruct (rfind_dot b) as [d|] eqn:Hd; [|done].
  apply rfind_dot_Some in Hd as [Hd _]. rewrite Hd in Hb. exfalso. revert Hb.
  generalize (str_take d b) (str_drop (S d) b). intros x y.
  induction x as [|c x IH]; cbn; [done|]. intros [_ H]%andb_true_iff. auto.
Qed.

Lemma str_take_app a b : str_take (String.length a) (a ++ b) = a.
Proof. induction a as [|c a IH]; cbn; [by destruct b|]. by f_equal. Qed.

Lemma str_drop_app a c b : str_drop (S (String.length a)) (a ++ String c b) = b.
Proof. induction a as [|x a IH]; [done|]. exact IH. Qed.

Lemma split_tagged_uid_app t n u :
  no_dot t = true → no_dot n = true →
  split_tagged_uid (t ++ String "." (n ++ String "." u)) = mkTaggedUidParts t n u.
Proof.
  intros Ht Hn. unfold split_tagged_uid.
  by rewrite (find_dot_app t), str_drop_app, (find_dot_app n), !str_take_app, str_drop_app.
Qed.

(** A tagged uid is its three parts joined by dots. *)
Definition tagged_uid_of (p : TaggedUidParts) : string :=
  tag p ++ String "." (name p ++ String "." (unique p)).

Lemma tagged_uid_shape s t n u cs :
  dotted (t :: n :: u :: cs) s →
  s = t ++ String "." (n ++ String "." (join_dots (u :: cs))) ∧
  NameComponent t ∧ NameComponent n ∧ dotted (u :: cs) (join_dots (u :: cs)).
Proof.
  intros (_ & Hall & ->).
  apply Forall_cons in Hall as [? Hall]. apply Forall_cons in Hall as [? Hall]. done.
Qed.

Lemma tagged_uid_unshape t n u cs :
  NameComponent t → NameComponent n → dotted cs u →
  ∃ x xs, cs = x :: xs ∧
  dotted (t :: n :: x :: xs) (t ++ String "." (n ++ String "." u)).
Proof.
  intros Ht Hn (Hne & Hall & ->). destruct cs as [|x xs]; [done|].
  exists x, xs. split; [done|]. split_and!; [done| |done].
  by apply Forall_cons; split; [|apply Forall_cons; split].
Qed.

(** The tag of a parsed role uid is one of the role tags. *)
Lemma parse_role_uid_tag uid p : parse_role_uid uid = Some p → tag p ∈ ["prod"; "cons"; "proc"].
Proof.
  unfold parse_role_uid. destruct (is_valid_identifier uid RoleUid) eqn:Hv; [|done]. intros [= <-].
  apply valid_identifier_spec in Hv as [_ (t & n & u & cs & H & Ht)].
  apply tagged_uid_shape in H as (-> & Htc & Hn & Hu).
  by rewrite split_tagged_uid_app by by apply NameComponent_no_dot.
Qed.

(** Parsing a role uid and printing the parts are inverse: the parser
    returns parts [p] for [uid] exactly when [uid] is the printed form of [p],
    the tag is one of the role tags, the parts are well-formed components and
    the whole is not too long; so the parts are determined by the uid. *)
Theorem parse_role_uid_roundtrip uid p :
  parse_role_uid uid = Some p ↔
  uid = tagged_uid_of p ∧ (String.length uid ≤ 256)%nat ∧
  tag p ∈ ["prod"; "cons"; "proc"] ∧ NameComponent (name p) ∧
  ∃ cs, dotted cs (unique p).
Proof.
  unfold parse_role_uid. split.
  - destruct (is_valid_identifier uid RoleUid) eqn:Hv; [|done]. intros [= <-].
    apply valid_identifier_spec in Hv as [Hl (t & n & u & cs & H & Ht)].
    apply tagged_uid_shape in H as (-> & Htc & Hn & Hu).
    rewrite split_tagged_uid_app by by apply NameComponent_no_dot.
    cbn. split_and!; eauto.
  - destruct p as [t n u]. cbn. unfold tagged_uid_of; cbn.
    intros (-> & Hl & Ht & Hn & cs & Hu).
    assert (NameComponent t) as Htc.
    { apply valid_component_spec. by repeat (apply elem_of_cons in Ht as [->|Ht]; [done|]);
      apply elem_of_nil in Ht. }
    pose proof (tagged_uid_unshape _ _ _ _ Htc Hn Hu) as (x & xs & -> & H).
    rewrite (proj2 (valid_identifier_spec _ RoleUid)) by (split; eauto 10).
    cbn [negb]. by rewrite split_tagged_uid_app by by apply NameComponent_no_dot.
Qed.

Lemma version_digits_bound acc s v :
  0 ≤ acc ≤ u32_max → version_digits acc s = Some v → 0 ≤ v ≤ u32_max.
Proof.
  revert acc. induction s as [|c s IH]; intros acc Hacc; cbn; [by intros [= <-]|].
  destruct (char_in "0" "9" c); cbn [negb]; [|done].
  case_match eqn:Hlt; [done|]. apply IH. apply Z.ltb_ge in Hlt.
  match goal with |- _ ≤ u64 ?x ≤ _ => pose proof (u64_range x) end. lia.
Qed.

(** Parsing a schema id and printing the parts are inverse: the parser
    returns a base, a version token and a number exactly when the id is the
    printed form of the base and token, the base is a dotted name, and the token
    is [v] followed by the digits of that number, which fits 32 bits. *)
Theorem parse_schema_id_roundtrip id p :
  parse_schema_id id = Some p ↔
  id = String "$" (base p ++ String "." (version_token p)) ∧
  (String.length id ≤ 256)%nat ∧ (∃ cs, dotted cs (base p)) ∧
  NameComponent (version_token p) ∧
  is_version_component (version_token p) = Some (version p).
Proof.
  unfold parse_schema_id. split.
  - destruct (is_valid_identifier id Schema) eqn:Hv; [|done].
    apply valid_identifier_spec in Hv as [Hl (cs & v & body & -> & Hne & H & Hver)].
    cbn [negb]. change (str_drop 1 (String "$" body)) with body.
    assert (body = join_dots cs ++ String "." v ∧ Forall NameComponent (cs ++ [v])%list) as [-> Hall].
    { destruct H as (_ & Hall & ->). split; [|done]. clear -Hne.
      induction cs as [|c [|c' cs] IH]; [done|done|].
      change (join_dots ((c :: c' :: cs) ++ [v])) with
        (c ++ String "." (join_dots ((c' :: cs) ++ [v]))).
      rewrite IH by done. cbn [join_dots]. by rewrite str_app_assoc. }
    apply Forall_app in Hall as [Hcs [Hvc _]%Forall_cons].
    rewrite rfind_dot_app by by apply NameComponent_no_dot.
    cbv beta iota zeta. rewrite str_take_app, str_drop_app.
    apply is_version_spec in Hver as [x Hx]. rewrite Hx. intros [= <-]. cbn.
    split_and!; try done. by exists cs.
  - destruct p as [b t v]. cbn [base version_token version].
    intros (-> & Hl & (cs & Hne & Hall & ->) & Ht & Hv).
    rewrite (proj2 (valid_identifier_spec _ Schema)).
    + cbn [negb]. change (str_drop 1 (String "$" ?b)) with b.
      rewrite rfind_dot_app by by apply NameComponent_no_dot.
      cbv beta iota zeta. rewrite str_take_app, str_drop_app.
      by rewrite Hv.
    + split; [done|]. exists cs, t. eexists. split_and!; [done|done| |].
      * split_and!; [by destruct cs|by apply Forall_app; split; [|apply Forall_singleton]|].
        clear -Hne. induction cs as [|c [|c' cs] IH]; [done|done|].
        change (join_dots ((c :: c' :: cs) ++ [t])) with
          (c ++ String "." (join_dots ((c' :: cs) ++ [t]))).
        rewrite <- IH by done. cbn [join_dots]. by rewrite str_app_assoc.
      * apply is_version_spec. eauto.
Qed.

(** The identifier kinds do not overlap: apart from role names, which share
    the channel grammar, no string is valid under two kinds, so a channel can
    never be mistaken for a uid, a band, a schema or a system key. *)
Theorem identifier_kinds_disjoint s k1 k2 :
  k1 ≠ RoleName → k2 ≠ RoleName → k1 ≠ k2 →
  is_valid_identifier s k1 = true → is_valid_identifier s k2 = false.
Proof.
  intros N1 N2 Hne H1. apply not_true_iff_false. intros H2.
  apply valid_identifier_spec in H1 as [_ H1], H2 as [_ H2].
  assert (∀ c body cs, c ∈ ["!"%char; "$"%char] → ¬ dotted cs (String c body)) as Hsigil.
  { intros c body cs Hc (Hcs & Hall & Hj). destruct cs as [|d ds]; [done|].
    apply Forall_cons in Hall as [(c0 & rest & -> & Hf & _) _].
    assert (c = c0) as -> by (destruct ds; cbn in Hj; congruence).
    by repeat (apply elem_of_cons in Hc as [->|Hc]; [done|]); apply elem_of_nil in Hc. }
  destruct k1, k2; try done; decompose [ex and] H1; decompose [ex and] H2; subst; simplify_eq;
    try (by eapply Hsigil; [|done]; set_solver);
    match goal with
    | Ha : dotted _ ?s, Hb : dotted _ ?s |- _ =>
        pose proof (dotted_functional _ _ _ Ha Hb); simplify_eq; set_solver
    end.
Qed.

Lemma identifier_kinds_disjoint_witness :
  is_valid_identifier "prod.cam.u1" RoleUid = true ∧
  is_valid_identifier "prod.cam.u1" Channel = false.
Proof.
  split; [by vm_compute|].
  apply (identifier_kinds_disjoint "prod.cam.u1" RoleUid Channel); [done|done|done|by vm_compute].
Defined.
End NamingProps.
