(* ===== verification/Ledger.v ===== *)
(** * Versioned admission ledger
    (src/src/include/utils/versioned_admission_ledger.hpp)

    The per-channel record of which peers are admitted and how far each role
    has confirmed.  [Section ledger] holds the class template as the code has
    it; versions are [std::uint64_t], so every increment wraps.  The main
    result characterises [is_visible_to] by the history of calls: a peer is
    visible to a role exactly when the role confirmed, after the peer's
    current admission, a version at least as high as that admission. *)

From S2P Require Import Prelude.

Module Ledger.
Section ledger.
Context {PubkeyT RoleUidT : Type} `{Countable PubkeyT} `{Countable RoleUidT}.

Record VersionedAdmissionLedger := mkLedger {
  current_version_ : Z;
  admission_version_ : gmap PubkeyT Z;
  confirmed_version_ : gmap RoleUidT Z;
}.

Definition empty_ledger : VersionedAdmissionLedger := mkLedger 0 ∅ ∅.

Implicit Types (l : VersionedAdmissionLedger) (pk : PubkeyT) (role_uid : RoleUidT).

Definition admit_ pk l : Z * VersionedAdmissionLedger :=
  match admission_version_ l !! pk with
  | Some v => (v, l)
  | None =>
      let v := u64_succ (current_version_ l) in
      (v, mkLedger v (<[pk := v]> (admission_version_ l)) (confirmed_version_ l))
  end.

Definition revoke pk l : Z * VersionedAdmissionLedger :=
  match admission_version_ l !! pk with
  | Some _ =>
      let v := u64_succ (current_version_ l) in
      (v, mkLedger v (delete pk (admission_version_ l)) (confirmed_version_ l))
  | None => (current_version_ l, l)
  end.

(** [confirmed_version_[role_uid]] inserts 0 for an absent role; the slot
    is then raised to the clamped version. *)
Definition confirm role_uid (applied_version : Z) l : Z * VersionedAdmissionLedger :=
  let bounded :=
    if applied_version <? current_version_ l then applied_version
    else current_version_ l in
  let slot := default 0 (confirmed_version_ l !! role_uid) in
  let slot := if slot <? bounded then bounded else slot in
  (slot, mkLedger (current_version_ l) (admission_version_ l)
           (<[role_uid := slot]> (confirmed_version_ l))).

Definition is_visible_to role_uid pk l : option bool :=
  match confirmed_version_ l !! role_uid with
  | None => None
  | Some conf =>
      match admission_version_ l !! pk with
      | None => Some false
      | Some adm => Some (adm <=? conf)
      end
  end.

Definition current_version l : Z := current_version_ l.
Definition admission_version_of pk l : option Z := admission_version_ l !! pk.
Definition confirmed_version_of role_uid l : option Z := confirmed_version_ l !! role_uid.

Definition max_confirmed_version l : Z :=
  map_fold (λ _ v max_v, if max_v <? v then v else max_v) 0 (confirmed_version_ l).

Definition admitted_count l : nat := size (admission_version_ l).

Definition admitted_snapshot l : list PubkeyT :=
  (map_to_list (admission_version_ l)).*1.

Definition for_each_admitted {S : Type} (visitor : PubkeyT → S → S) l (s : S) : S :=
  foldl (λ s kv, visitor kv.1 s) s (map_to_list (admission_version_ l)).

Definition reset_role_confirmation role_uid l : bool * VersionedAdmissionLedger :=
  (bool_decide (is_Some (confirmed_version_ l !! role_uid)),
   mkLedger (current_version_ l) (admission_version_ l)
     (delete role_uid (confirmed_version_ l))).

(** ** Histories of calls *)
Inductive op :=
  | Admit pk
  | Revoke pk
  | Confirm role_uid (applied_version : Z)
  | Reset role_uid.

Definition step l (o : op) : VersionedAdmissionLedger :=
  match o with
  | Admit pk => (admit_ pk l).2
  | Revoke pk => (revoke pk l).2
  | Confirm r v => (confirm r v l).2
  | Reset r => (reset_role_confirmation r l).2
  end.

Definition run (ops : list op) : VersionedAdmissionLedger :=
  foldl step empty_ledger ops.

(** ** Well-formedness *)
Record wf l : Prop := {
  wf_current : 0 ≤ current_version_ l ≤ u64_max;
  wf_admission pk v : admission_version_ l !! pk = Some v → 1 ≤ v ≤ current_version_ l;
  wf_injective pk pk' v :
    admission_version_ l !! pk = Some v → admission_version_ l !! pk' = Some v → pk = pk';
  wf_confirmed r v : confirmed_version_ l !! r = Some v → 0 ≤ v ≤ current_version_ l;
}.

Lemma wf_empty : wf empty_ledger.
Proof. split; cbn; try done; unfold u64_max, u64_modulus; lia. Qed.

Lemma wf_admit pk l : wf l → current_version_ l < u64_max → wf (admit_ pk l).2.
Proof.
  intros [H1 H2 H3 H4] Hlt. unfold admit_.
  destruct (admission_version_ l !! pk) eqn:Hpk; [by split|].
  rewrite u64_succ_id by lia. split; cbn; try lia.
  - intros pk' v. rewrite lookup_insert. case_decide; [naive_solver lia|].
    intros ?%H2. lia.
  - intros p p' v. rewrite !lookup_insert. repeat case_decide; simplify_eq; eauto.
    + by intros [= <-] ?%H2; lia.
    + by intros ?%H2 [= <-]; lia.
  - intros r v ?%H4. lia.
Qed.

Lemma wf_revoke pk l : wf l → current_version_ l < u64_max → wf (revoke pk l).2.
Proof.
  intros [H1 H2 H3 H4] Hlt. unfold revoke.
  destruct (admission_version_ l !! pk) eqn:Hpk; [|by split].
  rewrite u64_succ_id by lia. split; cbn; try lia.
  - intros pk' v [_ ?%H2]%lookup_delete_Some. lia.
  - intros p p' v [_ ?]%lookup_delete_Some [_ ?]%lookup_delete_Some. eauto.
  - intros r v ?%H4. lia.
Qed.

Lemma wf_confirm r v l : wf l → wf (confirm r v l).2.
Proof.
  intros [H1 H2 H3 H4]. unfold confirm. split; cbn; eauto.
  intros r' x. rewrite lookup_insert. case_decide; [|eauto]. intros [= <-].
  destruct (confirmed_version_ l !! r) as [c|] eqn:Hc; cbn; [apply H4 in Hc|];
    repeat case_match; lia.
Qed.

Lemma wf_reset r l : wf l → wf (reset_role_confirmation r l).2.
Proof. intros [????]. split; cbn; eauto. intros r' x [_ ?]%lookup_delete_Some. eauto. Qed.

Lemma current_step l o :
  current_version_ l < u64_max → 0 ≤ current_version_ l →
  current_version_ l ≤ current_version_ (step l o) ≤ current_version_ l + 1.
Proof.
  intros ??. destruct o; cbn; unfold admit_, revoke; try case_match; cbn;
    rewrite ?u64_succ_id by lia; lia.
Qed.

Lemma wf_step l o : wf l → current_version_ l < u64_max → wf (step l o).
Proof.
  intros. destruct o;
    [by apply wf_admit|by apply wf_revoke|by apply wf_confirm|by apply wf_reset].
Qed.

Lemma ledger_run_snoc ops o : run (ops ++ [o]) = step (run ops) o.
Proof. unfold run. by rewrite foldl_app. Qed.

(** Fewer than [2^64 - 1] calls cannot exhaust the version counter. *)
Lemma wf_run ops :
  Z.of_nat (length ops) < u64_max →
  wf (run ops) ∧ current_version_ (run ops) ≤ Z.of_nat (length ops).
Proof.
  induction ops as [|o ops IH] using rev_ind; [by intros; split; [apply wf_empty|]|].
  rewrite length_app, ledger_run_snoc. cbn. intros Hlt.
  destruct IH as [Hwf Hle]; [lia|].
  pose proof (wf_current _ Hwf). pose proof (current_step (run ops) o).
  split; [apply wf_step; [done|lia]|lia].
Qed.

(** What the code calls wire evidence: after [pre] the peer is admitted at
    version [a]; the role then confirms a version at least [a]; from there
    on neither the role's confirmation nor the admission is dropped. *)
Definition confirmed_after_admission (ops : list op) (r : RoleUidT) (pk : PubkeyT) : Prop :=
  ∃ pre v post a,
    ops = pre ++ (Confirm r v :: post) ∧
    admission_version_of pk (run pre) = Some a ∧ a ≤ v ∧
    (Revoke pk ∉ post) ∧ (Reset r ∉ post).

Lemma evidence_snoc ops o r pk :
  confirmed_after_admission ops r pk → o ≠ Revoke pk → o ≠ Reset r →
  confirmed_after_admission (ops ++ [o]) r pk.
Proof.
  intros (pre & v & post & a & -> & Ha & Hv & ? & ?) ??.
  exists pre, v, (post ++ [o]), a. split_and!; try done; [|set_solver..].
  by rewrite <- app_assoc.
Qed.

Lemma visible_Some r pk l :
  is_visible_to r pk l = Some true ↔
  ∃ a c, admission_version_ l !! pk = Some a ∧ confirmed_version_ l !! r = Some c ∧ a ≤ c.
Proof.
  unfold is_visible_to. split.
  - repeat case_match; intros; simplify_eq. rewrite Z.leb_le in *. eauto.
  - intros (a & c & -> & -> & ?). by rewrite (proj2 (Z.leb_le _ _)).
Qed.

Lemma visible_step_sound ops o r pk :
  wf (run ops) → current_version_ (run ops) < u64_max →
  (is_visible_to r pk (run ops) = Some true → confirmed_after_admission ops r pk) →
  is_visible_to r pk (step (run ops) o) = Some true →
  confirmed_after_admission (ops ++ [o]) r pk.
Proof.
  intros Hwf Hlt IH (a & c & Ha & Hc & Hac)%visible_Some.
  assert (∀ c', confirmed_version_ (run ops) !! r = Some c' → a ≤ c' →
    admission_version_ (run ops) !! pk = Some a → confirmed_after_admission ops r pk) as IH'.
  { intros c' ???. apply IH, visible_Some. eauto. }
  destruct o as [pk'|pk'|r' v|r']; cbn in Ha, Hc.
  - apply evidence_snoc; [|done..]. unfold admit_ in Ha, Hc.
    destruct (admission_version_ (run ops) !! pk') eqn:?; cbn in *; [eauto|].
    rewrite lookup_insert in Ha. case_decide; simplify_eq; [|eauto].
    apply (wf_confirmed _ Hwf) in Hc. rewrite u64_succ_id in Hac by (pose proof (wf_current _ Hwf); lia). lia.
  - unfold revoke in Ha, Hc. destruct (admission_version_ (run ops) !! pk') eqn:?; cbn in *.
    + apply lookup_delete_Some in Ha as [??]. apply evidence_snoc; [eauto|congruence|done].
    + apply evidence_snoc; [eauto|congruence|done].
  - rewrite lookup_insert in Hc. case_decide; simplify_eq; [|apply evidence_snoc; eauto].
    destruct (confirmed_version_ (run ops) !! r) as [c'|] eqn:Hc'; cbn in Hac;
      pose proof (wf_admission _ Hwf _ _ Ha).
    + destruct (decide (a ≤ c')); [apply evidence_snoc; eauto|].
      exists ops, v, [], a. split_and!; try done; [|set_solver..].
      repeat case_match; lia.
    + exists ops, v, [], a. split_and!; try done; [|set_solver..]. repeat case_match; lia.
  - apply lookup_delete_Some in Hc as [??]. apply evidence_snoc; [eauto|done|congruence].
Qed.

Lemma visible_step_complete l o r pk a c :
  wf l → o ≠ Revoke pk → o ≠ Reset r →
  admission_version_ l !! pk = Some a → confirmed_version_ l !! r = Some c → a ≤ c →
  ∃ c', admission_version_ (step l o) !! pk = Some a ∧
        confirmed_version_ (step l o) !! r = Some c' ∧ a ≤ c'.
Proof.
  intros Hwf ?? Ha Hc Hac. destruct o as [pk'|pk'|r' v|r']; cbn.
  - unfold admit_. case_match; cbn; [eauto|]. rewrite lookup_insert_ne by congruence. eauto.
  - unfold revoke. case_match; cbn; [|eauto]. rewrite lookup_delete_ne by congruence. eauto.
  - rewrite lookup_insert. case_decide; simplify_eq; [|eauto].
    rewrite Hc. cbn. eexists; split_and!; [done..|]. repeat case_match; lia.
  - rewrite lookup_delete_ne by congruence. eauto.
Qed.

(** The visibility query agrees with the call history: over any
    sequence of fewer than [2^64 - 1] calls on a fresh ledger,
    [is_visible_to] answers [true] for a role and a peer exactly when the
    role confirmed, after the peer's admission, a version at least as high
    as that admission, with no later revoke of the peer and no later reset
    of the role. *)
Theorem visible_iff_confirmed_after_admission ops r pk :
  Z.of_nat (length ops) < u64_max →
  is_visible_to r pk (run ops) = Some true ↔ confirmed_after_admission ops r pk.
Proof.
  intros Hlen. split.
  - induction ops as [|o ops IH] using rev_ind; [done|].
    rewrite length_app in Hlen; cbn in Hlen. rewrite ledger_run_snoc. intros Hv.
    destruct (wf_run ops) as [Hwf Hle]; [lia|].
    eapply visible_step_sound; eauto with lia.
  - intros (pre & v & post & a & -> & Ha & Hv & Hr & Hs).
    rewrite visible_Some. exists a. unfold admission_version_of in Ha.
    revert Hlen Hr Hs. induction post as [|o post IH] using rev_ind; intros Hlen Hr Hs.
    + rewrite ledger_run_snoc. rewrite length_app in Hlen; cbn in Hlen.
      destruct (wf_run pre) as [Hwf _]; [lia|]. cbn.
      rewrite lookup_insert_eq. eexists; split_and!; [done..|].
      pose proof (wf_admission _ Hwf _ _ Ha). repeat case_match; lia.
    + rewrite app_comm_cons, app_assoc in *. rewrite ledger_run_snoc.
      rewrite length_app in Hlen; cbn in Hlen.
      destruct IH as (c & ? & ? & ?); [lia|set_solver..|].
      destruct (wf_run (pre ++ Confirm r v :: post)) as [Hwf _]; [lia|].
      eapply visible_step_complete; eauto; set_solver.
Qed.

(** A peer that is admitted now is not visible to any role until that
    role confirms again, whatever version the role claimed before: the clamp
    in [confirm] keeps every confirmation below the next admission. *)
Theorem fresh_admission_not_visible ops r pk :
  Z.of_nat (length ops) < u64_max →
  admission_version_of pk (run ops) = None →
  is_visible_to r pk (admit_ pk (run ops)).2 ≠ Some true.
Proof.
  intros Hlen Hpk (a & c & Ha & Hc & Hac)%visible_Some.
  destruct (wf_run ops Hlen) as [Hwf Hle]. unfold admission_version_of in Hpk.
  unfold admit_ in *. rewrite Hpk in *. cbn in *. rewrite lookup_insert_eq in Ha.
  apply (wf_confirmed _ Hwf) in Hc. pose proof (wf_current _ Hwf).
  simplify_eq. rewrite u64_succ_id in Hac by lia. lia.
Qed.
End ledger.
Arguments VersionedAdmissionLedger _ _ {_ _ _ _}.
Arguments op : clear implicits.
Arguments empty_ledger {_ _ _ _ _ _}.

(** ** Witnesses *)

(** A peer admitted, confirmed at a forged version and still admitted; the
    forged version does not make the next peer visible. *)
Definition demo_history : list (op string string) :=
  [Admit "k1"; Confirm "cons.a.b" u64_max].

Lemma visible_iff_confirmed_after_admission_witness :
  Z.of_nat (length demo_history) < u64_max ∧
  confirmed_after_admission demo_history "cons.a.b" "k1".
Proof.
  split; [vm_compute; reflexivity|].
  apply visible_iff_confirmed_after_admission; vm_compute; reflexivity.
Defined.

Lemma fresh_admission_not_visible_witness :
  admission_version_of "k2" (run demo_history) = None ∧
  is_visible_to "cons.a.b" "k2" (admit_ "k2" (run demo_history)).2 ≠ Some true.
Proof.
  split; [vm_compute; reflexivity|].
  apply fresh_admission_not_visible; vm_compute; reflexivity.
Defined.
End Ledger.
