(* ===== verification/ReplayGuard.v ===== *)
(** * Replay guard (src/src/include/utils/replay_guard.hpp)

    Sliding-window nonce dedup used by the hub's registration plane and by
    the role inbox.  The guard reads its own monotonic clock; here the reading
    is the argument [now_ms] of [check_and_record], and a history is a list of
    calls with the readings they saw, non-decreasing. *)

From S2P Require Import Prelude.

Module ReplayGuard.

Record Entry := mkEntry { nonce : string; recorded_ms : Z }.

#[export] Instance Entry_eq_dec : EqDecision Entry.
Proof. solve_decision. Defined.

Definition guard := gmap string (list Entry).

Definition cutoff (now_ms window_ms : Z) : Z :=
  if window_ms <? now_ms then u64 (now_ms - window_ms) else 0.

(** [by_identity_[identity]] creates the entry list on first use, also when
    the call then rejects. *)
Definition check_and_record (identity nonce_ : string) (window_ms now_ms : Z)
    (by_identity_ : gmap string (list Entry)) : bool * gmap string (list Entry) :=
  if str_empty identity || str_empty nonce_ then (false, by_identity_)
  else
    let entries := default [] (by_identity_ !! identity) in
    let entries := filter (λ e, ¬ (recorded_ms e < cutoff now_ms window_ms)) entries in
    if existsb (λ e, nonce e =s nonce_) entries
    then (false, <[identity := entries]> by_identity_)
    else (true, <[identity := entries ++ [mkEntry nonce_ now_ms]]> by_identity_).

(** ** Histories *)
Record call := mkCall { c_identity : string; c_nonce : string; c_now : Z }.

Definition step (window_ms : Z) (g : gmap string (list Entry)) (c : call) :
    gmap string (list Entry) :=
  (check_and_record (c_identity c) (c_nonce c) window_ms (c_now c) g).2.

Definition run (window_ms : Z) (cs : list call) : gmap string (list Entry) :=
  foldl (step window_ms) ∅ cs.

(** Clock readings are [uint64_t] and non-decreasing. *)
Fixpoint clock_ok (from : Z) (cs : list call) : Prop :=
  match cs with
  | [] => True
  | c :: cs => from ≤ c_now c ≤ u64_max ∧ clock_ok (c_now c) cs
  end.

Definition last_reading (from : Z) (cs : list call) : Z :=
  foldl (λ _ c, c_now c) from cs.

Lemma clock_ok_app from cs1 cs2 :
  clock_ok from (cs1 ++ cs2) ↔ clock_ok from cs1 ∧ clock_ok (last_reading from cs1) cs2.
Proof.
  revert from. induction cs1 as [|c cs1 IH]; intros from; cbn; [tauto|].
  rewrite IH. unfold last_reading. cbn. tauto.
Qed.

Lemma last_reading_ge from cs : clock_ok from cs → from ≤ last_reading from cs.
Proof.
  revert from. induction cs as [|c cs IH]; intros from; cbn; [lia|].
  intros [? H%IH]. unfold last_reading in *. lia.
Qed.

Lemma cutoff_le now_ms window_ms :
  0 ≤ now_ms ≤ u64_max → 0 ≤ window_ms → 0 ≤ cutoff now_ms window_ms ≤ now_ms.
Proof. intros. unfold cutoff. case_match; [rewrite u64_id|]; lia. Qed.

Lemma cutoff_bound now_ms window_ms t :
  0 ≤ t ≤ now_ms → now_ms ≤ u64_max → 0 ≤ window_ms →
  now_ms - t ≤ window_ms ↔ cutoff now_ms window_ms ≤ t.
Proof. intros. unfold cutoff. case_match eqn:E; [rewrite u64_id|]; lia. Qed.

Definition entries_of (identity : string) (g : gmap string (list Entry)) : list Entry :=
  default [] (g !! identity).

Lemma entries_of_insert i j es g :
  entries_of j (<[i := es]> g) = if decide (i = j) then es else entries_of j g.
Proof. unfold entries_of. rewrite lookup_insert. by case_decide. Qed.

Lemma existsb_nonce (n : string) (es : list Entry) :
  existsb (λ e, nonce e =s n) es = true ↔ ∃ e, e ∈ es ∧ nonce e = n.
Proof.
  rewrite existsb_exists. setoid_rewrite list_elem_of_In.
  unfold str_eqb. by setoid_rewrite bool_decide_eq_true.
Qed.

(** An entry survives every call whose window still reaches it. *)
Lemma entry_kept window_ms g c i e :
  0 ≤ window_ms → 0 ≤ recorded_ms e ≤ c_now c → c_now c ≤ u64_max →
  c_now c - recorded_ms e ≤ window_ms →
  e ∈ entries_of i g → e ∈ entries_of i (step window_ms g c).
Proof.
  intros Hw Hr Hc Hd He. unfold step, check_and_record.
  destruct (str_empty _ || str_empty _); [done|]. fold (entries_of (c_identity c) g).
  apply (cutoff_bound _ _ _ Hr Hc Hw) in Hd.
  case_match; cbn; rewrite entries_of_insert; case_decide; subst; try done;
    rewrite ?elem_of_app, ?list_elem_of_filter; [|left]; auto with lia.
Qed.

Lemma check_accepts window_ms now_ms i n g :
  (check_and_record i n window_ms now_ms g).1 = true ↔
  i ≠ "" ∧ n ≠ "" ∧
  ∀ e, e ∈ entries_of i g → nonce e = n → recorded_ms e < cutoff now_ms window_ms.
Proof.
  unfold check_and_record. fold (entries_of i g).
  destruct (str_empty i) eqn:Hi; [apply str_empty_true in Hi; by split; [|intros []]|].
  destruct (str_empty n) eqn:Hn; [apply str_empty_true in Hn; by split; [|intros (?&[]&?)]|].
  apply str_empty_false in Hi, Hn. cbn [orb].
  case_match eqn:Hd; cbn.
  - apply existsb_nonce in Hd as (e & [Hlt He]%list_elem_of_filter & Hne).
    split; [done|]. intros (_ & _ & H). by apply H in Hne.
  - split; [|done]. intros _. split_and!; [done..|]. intros e He Hen.
    destruct (decide (recorded_ms e < cutoff now_ms window_ms)) as [|Hge]; [done|].
    exfalso. apply not_true_iff_false in Hd. apply Hd, existsb_nonce.
    exists e. by rewrite list_elem_of_filter.
Qed.

(** ** What the guard remembers *)

(** [c] is one of the calls of the history and was accepted when it was made. *)
Definition accepted_in (window_ms : Z) (cs : list call) (c : call) : Prop :=
  ∃ pre post, cs = pre ++ c :: post ∧
    (check_and_record (c_identity c) (c_nonce c) window_ms (c_now c) (run window_ms pre)).1 = true.

Lemma guard_run_snoc window_ms cs c : run window_ms (cs ++ [c]) = step window_ms (run window_ms cs) c.
Proof. unfold run. by rewrite foldl_app. Qed.

Lemma last_reading_snoc from cs c : last_reading from (cs ++ [c]) = c_now c.
Proof. unfold last_reading. by rewrite foldl_app. Qed.

Lemma accepted_in_snoc window_ms cs c d :
  accepted_in window_ms (cs ++ [d]) c ↔
  accepted_in window_ms cs c ∨
  (c = d ∧ (check_and_record (c_identity c) (c_nonce c) window_ms (c_now c) (run window_ms cs)).1 = true).
Proof.
  unfold accepted_in. split.
  - intros (pre & post & Heq & Hacc).
    destruct post as [|x post _] using rev_ind.
    + apply app_inj_tail in Heq as [-> ->]. by right.
    + rewrite app_comm_cons, app_assoc in Heq.
      apply app_inj_tail in Heq as [-> ->]. left. eauto.
  - intros [(pre & post & -> & Hacc)|[-> Hacc]].
    + exists pre, (post ++ [d]). by rewrite <- app_assoc.
    + by exists cs, [].
Qed.

(** What one call adds to the memory of an identity. *)
Lemma entries_of_step window_ms g c i e :
  e ∈ entries_of i (step window_ms g c) →
  e ∈ entries_of i g ∨
  (e = mkEntry (c_nonce c) (c_now c) ∧ c_identity c = i ∧
   (check_and_record (c_identity c) (c_nonce c) window_ms (c_now c) g).1 = true).
Proof.
  unfold step, check_and_record.
  destruct (str_empty _ || str_empty _); [by left|]. fold (entries_of (c_identity c) g).
  case_match; cbn; rewrite entries_of_insert; case_decide; subst; auto;
    rewrite ?elem_of_app, ?list_elem_of_singleton, ?list_elem_of_filter; naive_solver.
Qed.

Lemma accepted_is_recorded window_ms g c :
  (check_and_record (c_identity c) (c_nonce c) window_ms (c_now c) g).1 = true →
  mkEntry (c_nonce c) (c_now c) ∈ entries_of (c_identity c) (step window_ms g c).
Proof.
  unfold step, check_and_record. repeat case_match; try done. intros _. cbn.
  rewrite entries_of_insert, decide_True by done. set_solver.
Qed.

Lemma memory_sound window_ms cs i e :
  e ∈ entries_of i (run window_ms cs) →
  accepted_in window_ms cs (mkCall i (nonce e) (recorded_ms e)).
Proof.
  induction cs as [|c cs IH] using rev_ind.
  - unfold entries_of, run. cbn. rewrite lookup_empty. cbn. set_solver.
  - rewrite guard_run_snoc, accepted_in_snoc. intros [He|(-> & <- & Hacc)]%entries_of_step.
    + left. auto.
    + right. by destruct c.
Qed.

Lemma accepted_in_time window_ms cs c from :
  clock_ok from cs → accepted_in window_ms cs c → from ≤ c_now c ≤ last_reading from cs.
Proof.
  intros Hok (pre & post & -> & _). apply clock_ok_app in Hok as [Hpre [Hc Hpost]].
  apply last_reading_ge in Hpre, Hpost.
  unfold last_reading in *. rewrite foldl_app. cbn. lia.
Qed.

Lemma memory_complete window_ms cs c :
  0 ≤ window_ms → clock_ok 0 cs → accepted_in window_ms cs c →
  last_reading 0 cs - c_now c ≤ window_ms →
  mkEntry (c_nonce c) (c_now c) ∈ entries_of (c_identity c) (run window_ms cs).
Proof.
  intros Hw. induction cs as [|d cs IH] using rev_ind; intros Hok Hacc Hd.
  - destruct Hacc as (pre & post & Heq & _). by destruct pre.
  - rewrite guard_run_snoc. rewrite last_reading_snoc in Hd.
    pose proof Hok as [Hok' [Hdr _]]%clock_ok_app.
    apply accepted_in_snoc in Hacc as [Hacc|[-> Hacc]]; [|by apply accepted_is_recorded].
    pose proof (accepted_in_time _ _ _ _ Hok' Hacc).
    apply entry_kept; cbn; [lia..|]. apply IH; [done..|lia].
Qed.

(** ** Claims *)

(** Over any history of calls whose clock readings do not go back, the
    guard accepts a (identity, nonce) pair exactly when both are non-empty
    and no call with that pair was accepted within the last [window_ms]
    milliseconds (bounds included): a replay inside the window is always
    rejected, a call that is not one is never rejected, whatever the other
    identities did in between and however the window moved. *)
Theorem accepted_iff_not_replayed window_ms cs i n now_ms :
  0 ≤ window_ms → clock_ok 0 cs → last_reading 0 cs ≤ now_ms ≤ u64_max →
  (check_and_record i n window_ms now_ms (run window_ms cs)).1 = true ↔
  i ≠ "" ∧ n ≠ "" ∧
  ∀ t, accepted_in window_ms cs (mkCall i n t) → window_ms < now_ms - t.
Proof.
  intros Hw Hok Hnow. rewrite check_accepts.
  split; intros (Hi & Hn & H); (split_and!; [done..|]).
  - intros t Hacc. destruct (Z.le_gt_cases (now_ms - t) window_ms) as [Hle|]; [|lia].
    pose proof (accepted_in_time _ _ _ _ Hok Hacc). cbn in *.
    assert (Hin := memory_complete _ _ _ Hw Hok Hacc ltac:(cbn; lia)). cbn in Hin.
    apply H in Hin; [|done]. cbn in Hin. apply cutoff_bound in Hle; lia.
  - intros e He <-. pose proof (memory_sound _ _ _ _ He) as Hacc.
    pose proof (accepted_in_time _ _ _ _ Hok Hacc). cbn in *. apply H in Hacc.
    apply Z.nle_gt. intros Hle%cutoff_bound; lia.
Qed.

Lemma accepted_iff_not_replayed_witness :
  let cs := [mkCall "prod.a.u1" "n1" 1000; mkCall "prod.b.u2" "n1" 40000] in
  (check_and_record "prod.a.u1" "n1" 60000 61000 (run 60000 cs)).1 = false ∧
  ¬ (∀ t, accepted_in 60000 cs (mkCall "prod.a.u1" "n1" t) → 60000 < 61000 - t).
Proof.
  split; [by vm_compute|]. intros H.
  assert (Hf : (check_and_record "prod.a.u1" "n1" 60000 61000
            (run 60000 [mkCall "prod.a.u1" "n1" 1000; mkCall "prod.b.u2" "n1" 40000])).1 = true).
  { apply accepted_iff_not_replayed; [lia|by vm_compute|by vm_compute|by split_and!]. }
  by vm_compute in Hf.
Defined.
End ReplayGuard.
