(* ===== verification/ConsoleBuffer.v ===== *)
(** * Operator console output buffer
    (src/src/include/utils/console_output_buffer.hpp)

    The hub's single pull buffer: lines are appended, returned-and-cleared by
    a poll, and spilled to the log oldest first when a cap is hit.  The size
    of a serialised JSON value ([content.dump().size()]) belongs to
    nlohmann::json and is the parameter [dump_size]; the wall clock is the
    argument [now_ms] of [append]; the log sink is an output of the
    operations that write to it. *)

From S2P Require Import Prelude.
From S2P Require Import Json.
Import Json.

Module ConsoleBuffer.

Record Line := mkLine { ts_ms : Z; request_id : string; content : json }.

Record Caps := mkCaps { max_lines : Z; max_bytes : Z; max_line_bytes : Z }.

Record Drain := mkDrain { d_lines : list Line; dropped_count : Z }.

Record ConsoleOutputBuffer := mkBuffer {
  lines_ : list Line;
  bytes_ : Z;
  dropped_since_drain_ : Z;
  caps_ : Caps;
}.

#[export] Instance eta_ConsoleOutputBuffer : Eta ConsoleOutputBuffer := λ r,
  mkBuffer (lines_ r) (bytes_ r) (dropped_since_drain_ r) (caps_ r).

Definition default_caps : Caps := mkCaps 1000 (1024 * 1024) (64 * 1024).
Definition new_buffer : ConsoleOutputBuffer := mkBuffer [] 0 0 default_caps.

Section buffer.
Context (dump_size : json → Z).

Definition content_bytes_ (c : json) : Z := dump_size c.

Definition line_bytes_ (l : Line) : Z :=
  u64 (content_bytes_ (content l) + Z.of_nat (String.length (request_id l)) + 8).

(** The [while] of [enforce_caps_] pops one line per iteration: recursion on
    the deque. The result lists the lines handed to the log, oldest first. *)
Fixpoint enforce_loop (caps : Caps) (lines : list Line) (bytes dropped : Z) :
    list Line * (list Line * Z * Z) :=
  if (max_lines caps <? Z.of_nat (length lines)) || (max_bytes caps <? bytes) then
    match lines with
    | [] => ([], (lines, bytes, dropped))
    | oldest :: rest =>
        let '(spilled, r) :=
          enforce_loop caps rest (u64 (bytes - line_bytes_ oldest)) (u64_succ dropped) in
        (oldest :: spilled, r)
    end
  else ([], (lines, bytes, dropped)).

Definition enforce_caps_ (b : ConsoleOutputBuffer) : list Line * ConsoleOutputBuffer :=
  let '(spilled, (ls, bs, d)) :=
    enforce_loop (caps_ b) (lines_ b) (bytes_ b) (dropped_since_drain_ b) in
  (spilled, mkBuffer ls bs d (caps_ b)).

Definition not_an_object_marker : json :=
  JObj [("reason", JStr "not_an_object"); ("truncated", JBool true)].

Definition line_too_large_marker (content_sz : Z) : json :=
  JObj [("bytes", JInt content_sz); ("reason", JStr "line_too_large");
        ("truncated", JBool true)].

(** What [append] stores for [content]. *)
Definition stored_content (caps : Caps) (c : json) : json :=
  if negb (is_object c) then not_an_object_marker
  else if max_line_bytes caps <? content_bytes_ c
  then line_too_large_marker (content_bytes_ c) else c.

Definition append (rid : string) (c : json) (now_ms : Z) (b : ConsoleOutputBuffer) :
    list Line * ConsoleOutputBuffer :=
  let line := mkLine now_ms rid (stored_content (caps_ b) c) in
  enforce_caps_
    (b <| bytes_ ::= λ n, u64 (n + (content_bytes_ (content line) +
                                      Z.of_nat (String.length rid) + 8)) |>
       <| lines_ ::= λ ls, ls ++ [line] |>).

Definition drain (b : ConsoleOutputBuffer) : Drain * ConsoleOutputBuffer :=
  (mkDrain (lines_ b) (dropped_since_drain_ b), mkBuffer [] 0 0 (caps_ b)).

Definition on_connect (b : ConsoleOutputBuffer) : ConsoleOutputBuffer :=
  mkBuffer [] 0 0 (caps_ b).

(** The un-drained lines go to the log ([disconnect_flush]). *)
Definition on_disconnect (b : ConsoleOutputBuffer) : list Line * ConsoleOutputBuffer :=
  (lines_ b, mkBuffer [] 0 0 (caps_ b)).

Definition set_caps (caps : Caps) (b : ConsoleOutputBuffer) : ConsoleOutputBuffer :=
  b <| caps_ := caps |>.

Definition size (b : ConsoleOutputBuffer) : Z := Z.of_nat (length (lines_ b)).

(** ** Sessions *)
Inductive op :=
  | Append (rid : string) (c : json) (now_ms : Z)
  | Poll
  | Disconnect
  | SetCaps (caps : Caps).

Inductive output :=
  | Spilled (l : Line)
  | Drained (l : Line)
  | Reported (dropped : Z).

Definition output_line (o : output) : list Line :=
  match o with Spilled l | Drained l => [l] | Reported _ => [] end.

(** One operation: the new buffer and what left it, in order. *)
Definition step (b : ConsoleOutputBuffer) (o : op) : list output * ConsoleOutputBuffer :=
  match o with
  | Append rid c t => let '(ls, b') := append rid c t b in (Spilled <$> ls, b')
  | Poll => let '(d, b') := drain b in
            ((Drained <$> d_lines d) ++ [Reported (dropped_count d)], b')
  | Disconnect => let '(ls, b') := on_disconnect b in (Spilled <$> ls, b')
  | SetCaps c => ([], set_caps c b)
  end.

Fixpoint run (b : ConsoleOutputBuffer) (ops : list op) : list output * ConsoleOutputBuffer :=
  match ops with
  | [] => ([], b)
  | o :: ops =>
      let '(out, b1) := step b o in
      let '(outs, b2) := run b1 ops in (out ++ outs, b2)
  end.

(** The line each append stores, by the caps in force when it runs. *)
Fixpoint stored_lines (caps : Caps) (ops : list op) : list Line :=
  match ops with
  | [] => []
  | Append rid c t :: ops => mkLine t rid (stored_content caps c) :: stored_lines caps ops
  | SetCaps caps' :: ops => stored_lines caps' ops
  | _ :: ops => stored_lines caps ops
  end.

Definition total_bytes (ls : list Line) : Z := foldr (λ l n, line_bytes_ l + n) 0 ls.

Record wf (b : ConsoleOutputBuffer) : Prop := {
  wf_bytes : bytes_ b = u64 (total_bytes (lines_ b));
  wf_objects : Forall (λ l, is_object (content l) = true) (lines_ b);
  wf_dropped : 0 ≤ dropped_since_drain_ b ≤ u64_max;
  wf_caps : 0 ≤ max_lines (caps_ b) ∧ 0 ≤ max_bytes (caps_ b);
}.

Lemma total_bytes_app l1 l2 : total_bytes (l1 ++ l2) = total_bytes l1 + total_bytes l2.
Proof.
  unfold total_bytes. induction l1 as [|x l1 IH]; simpl; [done|]. rewrite IH. lia.
Qed.

Lemma total_bytes_nonneg ls : 0 ≤ total_bytes ls.
Proof.
  unfold total_bytes. induction ls as [|x ls IH]; simpl; [done|].
  unfold line_bytes_ at 1. pose proof (u64_range (content_bytes_ (content x) +
    Z.of_nat (String.length (request_id x)) + 8)). lia.
Qed.

Lemma u64_add_l a b : u64 (u64 a + b) = u64 (a + b).
Proof. unfold u64. by rewrite Zplus_mod_idemp_l. Qed.

Lemma u64_add_r a b : u64 (a + u64 b) = u64 (a + b).
Proof. unfold u64. by rewrite Zplus_mod_idemp_r. Qed.

Lemma u64_sub_cancel a b : u64 (u64 (a + b) - a) = u64 b.
Proof. unfold u64. rewrite Zminus_mod_idemp_l. f_equal. lia. Qed.

(** The loop pops a prefix, keeps the byte count exact, stops within the
    caps and counts every line it drops. *)
Lemma enforce_loop_spec caps ls d spilled ls' bs' d' :
  0 ≤ max_lines caps → 0 ≤ max_bytes caps → 0 ≤ d ≤ u64_max →
  enforce_loop caps ls (u64 (total_bytes ls)) d = (spilled, (ls', bs', d')) →
  ls = spilled ++ ls' ∧ bs' = u64 (total_bytes ls') ∧
  Z.of_nat (length ls') ≤ max_lines caps ∧ bs' ≤ max_bytes caps ∧
  d' = u64 (d + Z.of_nat (length spilled)).
Proof.
  intros Hl Hb. revert d spilled.
  induction ls as [|x ls IH]; intros d spilled Hd; simpl.
  - replace (u64 0) with 0 by done.
    rewrite (proj2 (Z.ltb_ge _ _)) by lia. rewrite (proj2 (Z.ltb_ge _ _)) by lia.
    intros [= <- <- <- <-]. cbn [length]. by rewrite Z.add_0_r, (u64_id d).
  - destruct (_ || _) eqn:Hc.
    + rewrite u64_sub_cancel.
      destruct (enforce_loop caps ls (u64 (total_bytes ls)) (u64_succ d))
        as [sp [[l b] dd]] eqn:He.
      intros [= <- <- <- <-]. apply IH in He as (-> & -> & ? & ? & ->).
      2: apply u64_range. split_and!; try done. unfold u64_succ. cbn [length].
      rewrite u64_add_l. f_equal. lia.
    + intros [= <- <- <- <-]. apply orb_false_iff in Hc as [?%Z.ltb_ge ?%Z.ltb_ge].
      cbn [length]. by rewrite Z.add_0_r, (u64_id d).
Qed.

Lemma stored_content_object caps c : is_object (stored_content caps c) = true.
Proof. unfold stored_content. destruct (is_object c) eqn:E; simpl; [|done]. by case_match. Qed.

Lemma append_spec rid c t b spilled b' :
  wf b → append rid c t b = (spilled, b') →
  wf b' ∧ caps_ b' = caps_ b ∧
  lines_ b ++ [mkLine t rid (stored_content (caps_ b) c)] = spilled ++ lines_ b' ∧
  Z.of_nat (length (lines_ b')) ≤ max_lines (caps_ b) ∧ bytes_ b' ≤ max_bytes (caps_ b) ∧
  dropped_since_drain_ b' = u64 (dropped_since_drain_ b + Z.of_nat (length spilled)).
Proof.
  intros [Hby Hob Hdr [Hl Hm]]. unfold append, enforce_caps_. simpl.
  set (ln := mkLine t rid _).
  assert (Hsum : u64 (bytes_ b + (content_bytes_ (content ln) +
                   Z.of_nat (String.length rid) + 8)) = u64 (total_bytes (lines_ b ++ [ln]))).
  { rewrite total_bytes_app, Hby, u64_add_l. cbn. unfold line_bytes_.
    rewrite Z.add_0_r. by rewrite u64_add_r. }
  cbn in Hsum. rewrite Hsum.
  destruct (enforce_loop _ _ _ _) as [sp [[l bs] d]] eqn:He. intros [= <- <-].
  apply enforce_loop_spec in He as (Heq & -> & ? & ? & ->); [|done..].
  split_and!; try done. constructor; simpl; [done| |apply u64_range|done].
  assert (Hall : Forall (λ l, is_object (content l) = true) (lines_ b ++ [ln])).
  { apply Forall_app; split; [done|]. constructor; [apply stored_content_object|done]. }
  rewrite Heq in Hall. by apply Forall_app in Hall as [_ ?].
Qed.

Definition caps_ok (o : op) : Prop :=
  match o with SetCaps c => 0 ≤ max_lines c ∧ 0 ≤ max_bytes c | _ => True end.

Lemma step_spec b o out b' :
  wf b → caps_ok o → step b o = (out, b') →
  wf b' ∧
  lines_ b ++ stored_lines (caps_ b) [o] = mjoin (output_line <$> out) ++ lines_ b' ∧
  (∀ ops, stored_lines (caps_ b) (o :: ops) =
          stored_lines (caps_ b) [o] ++ stored_lines (caps_ b') ops).
Proof.
  assert (Hs : ∀ ls, mjoin (output_line <$> (Spilled <$> ls)) = ls).
  { induction ls; cbn in *; [done|]. by f_equal. }
  assert (Hd : ∀ ls, mjoin (output_line <$> (Drained <$> ls)) = ls).
  { induction ls; cbn in *; [done|]. by f_equal. }
  intros Hwf Hok. destruct o; simpl.
  - destruct (append rid c now_ms b) as [ls b1] eqn:He. intros [= <- <-].
    apply append_spec in He as (? & Hc & Heq & _); [|done]. rewrite Hs, Hc. done.
  - intros [= <- <-]. rewrite fmap_app, join_app, Hd. cbn. rewrite !app_nil_r.
    split_and!; [|done..]. by constructor; try apply Hwf.
  - intros [= <- <-]. rewrite Hs, !app_nil_r. split_and!; [|done..].
    by constructor; try apply Hwf.
  - intros [= <- <-]. rewrite app_nil_r. split_and!; [|done..]. by constructor; try apply Hwf.
Qed.

Lemma run_spec b ops outs b' :
  wf b → Forall caps_ok ops → run b ops = (outs, b') →
  wf b' ∧
  lines_ b ++ stored_lines (caps_ b) ops = mjoin (output_line <$> outs) ++ lines_ b'.
Proof.
  revert b outs. induction ops as [|o ops IH]; intros b outs Hwf Hok.
  - cbn. intros [= <- <-]. by rewrite app_nil_r.
  - cbn [run]. destruct (step b o) as [out b1] eqn:Hst.
    destruct (run b1 ops) as [outs2 b2] eqn:Hr. intros [= <- <-].
    apply Forall_cons in Hok as [Ho Hok].
    apply step_spec in Hst as (Hwf1 & Heq & Hsplit); [|done..].
    apply IH in Hr as [? Heq2]; [|done..]. split; [done|].
    rewrite (Hsplit ops), app_assoc, Heq, <- app_assoc, Heq2, app_assoc.
    by rewrite fmap_app, join_app.
Qed.

Lemma wf_new_buffer : wf new_buffer.
Proof. by constructor. Qed.

(** ** Claims *)

(** Over any session (appends, polls, disconnects and cap changes in any
    order) no line is lost, duplicated or reordered: the lines that left the
    buffer, drained by a poll or spilled to the log, followed by the lines
    still buffered, are exactly the lines the appends stored, in order; and
    every buffered line is a JSON object. *)
Theorem console_lines_conserved ops outs b :
  Forall caps_ok ops → run new_buffer ops = (outs, b) →
  stored_lines default_caps ops = mjoin (output_line <$> outs) ++ lines_ b ∧
  Forall (λ l, is_object (content l) = true) (lines_ b).
Proof.
  intros Hok Hr. apply run_spec in Hr as [[] Heq]; [|apply wf_new_buffer|done].
  by cbn in Heq.
Qed.

(** After every append the buffer is within both caps, whatever caps were
    in force before, the byte count is the sum of the buffered lines' sizes
    (as long as that sum fits a [size_t]), and the dropped counter has grown
    by exactly the number of lines spilled. *)
Theorem console_caps_respected ops outs b rid c t spilled b' :
  Forall caps_ok ops → run new_buffer ops = (outs, b) →
  append rid c t b = (spilled, b') →
  total_bytes (lines_ b') ≤ u64_max →
  Z.of_nat (length (lines_ b')) ≤ max_lines (caps_ b) ∧
  total_bytes (lines_ b') ≤ max_bytes (caps_ b) ∧
  bytes_ b' = total_bytes (lines_ b') ∧
  dropped_since_drain_ b' = u64 (dropped_since_drain_ b + Z.of_nat (length spilled)).
Proof.
  intros Hok Hr Ha Hfit. apply run_spec in Hr as [Hwf _]; [|apply wf_new_buffer|done].
  apply append_spec in Ha as ([Hb' _ _ _] & _ & _ & Hl & Hm & Hd); [|done].
  pose proof (total_bytes_nonneg (lines_ b')).
  rewrite u64_id in Hb' by lia. by rewrite Hb' in Hm.
Qed.
End buffer.

(** A session that overflows a one-line cap and then polls. *)
Definition sample_session : list op :=
  [SetCaps (mkCaps 1 100 50); Append "a" (JObj []) 1; Append "b" (JInt 3) 2; Poll;
   Append "" (JObj [("k", JNull)]) 3].

Lemma sample_session_caps : Forall caps_ok sample_session.
Proof. repeat constructor; done. Qed.

Lemma console_lines_conserved_witness :
  let r := run (λ _, 10) new_buffer sample_session in
  stored_lines (λ _, 10) default_caps sample_session =
    mjoin (output_line <$> r.1) ++ lines_ r.2 ∧
  Forall (λ l, is_object (content l) = true) (lines_ r.2) ∧
  length (lines_ r.2) = 1%nat.
Proof.
  assert (H := console_lines_conserved (λ _, 10) sample_session _ _ sample_session_caps
                 (surjective_pairing (run (λ _, 10) new_buffer sample_session))).
  destruct H as [H1 H2]. split; [exact H1|]. split; [exact H2|reflexivity].
Defined.

Lemma console_caps_respected_witness :
  let b := (run (λ _, 10) new_buffer sample_session).2 in
  let b' := (append (λ _, 10) "x" (JObj []) 4 b).2 in
  Z.of_nat (length (lines_ b')) ≤ 1 ∧ bytes_ b' = 19.
Proof.
  destruct (console_caps_respected (λ _, 10) sample_session _ _ "x" (JObj []) 4 _ _
    sample_session_caps (surjective_pairing _) (surjective_pairing _)) as (H1 & _ & H3 & _);
    [by vm_compute|]. split; [exact H1|]. exact H3.
Defined.
End ConsoleBuffer.
