(* ===== verification/Entries.v ===== *)
(** * Entry types of the hub state (src/src/include/utils/hub_state.hpp and
    the enum helpers of src/src/utils/ipc/hub_state.cpp)

    The structs [HubState] stores, one [Record] per struct with a prefix on
    the fields several structs share, and their member functions.  A member
    function that mutates the struct returns its result and the new struct.
    Time points are [Z]; the clock a member function reads is its argument
    [now]. *)

From S2P Require Import Prelude.
From S2P Require Import Json.
From S2P Require Import Ledger.
Import Json.

Module Entries.

(** ** Enums *)

Inductive RoleState := Connected | Pending | Disconnected.
Inductive PeerState := PeerConnecting | PeerConnected | PeerDisconnected.
Inductive ChannelCloseReason :=
  | VoluntaryDereg | HeartbeatTimeout | AdminClose | BrokerShutdown.
Inductive ChannelObservable := kAbsent | kRegistering | kStalled | kLive.
Inductive ChannelTopology := FanIn | FanOut | OneToOne.
Inductive AdmissionSide := SideProducer | SideConsumer.

#[export] Instance RoleState_eq_dec : EqDecision RoleState.
Proof. solve_decision. Defined.
#[export] Instance PeerState_eq_dec : EqDecision PeerState.
Proof. solve_decision. Defined.
#[export] Instance ChannelTopology_eq_dec : EqDecision ChannelTopology.
Proof. solve_decision. Defined.
#[export] Instance ChannelObservable_eq_dec : EqDecision ChannelObservable.
Proof. solve_decision. Defined.

Definition role_state_to_string (s : RoleState) : string :=
  match s with
  | Connected => "Connected" | Pending => "Pending" | Disconnected => "Disconnected"
  end.

Definition peer_state_to_string (s : PeerState) : string :=
  match s with
  | PeerConnecting => "Connecting"
  | PeerConnected => "Connected"
  | PeerDisconnected => "Disconnected"
  end.

Definition close_reason_to_string (r : ChannelCloseReason) : string :=
  match r with
  | VoluntaryDereg => "VoluntaryDereg"
  | HeartbeatTimeout => "HeartbeatTimeout"
  | AdminClose => "AdminClose"
  | BrokerShutdown => "BrokerShutdown"
  end.

Definition observable_to_string (o : ChannelObservable) : string :=
  match o with
  | kAbsent => "absent" | kRegistering => "registering"
  | kStalled => "stalled" | kLive => "live"
  end.

(** *** [namespace topology] *)

Definition topology_to_string (t : ChannelTopology) : string :=
  match t with
  | FanIn => "fan-in" | FanOut => "fan-out" | OneToOne => "one-to-one"
  end.

Definition topology_parse (s : string) : option ChannelTopology :=
  if s =s "fan-in" then Some FanIn
  else if s =s "fan-out" then Some FanOut
  else if s =s "one-to-one" then Some OneToOne
  else None.

Definition transport_compatible (t : ChannelTopology) (data_transport : string) : bool :=
  if bool_decide (t = FanIn) && (data_transport =s "shm") then false
  else if negb (data_transport =s "zmq") && negb (data_transport =s "shm") then false
  else true.

(** [None] is the [nullptr] of an admitted role. *)
Definition check_cardinality (t : ChannelTopology) (side : AdmissionSide)
    (existing_producers existing_consumers : nat) : option string :=
  let is_consumer := match side with SideConsumer => true | SideProducer => false end in
  match t with
  | FanIn =>
      if is_consumer && (1 <=? existing_consumers)%nat
      then Some "FAN_IN_IS_SINGLE_CONSUMER" else None
  | FanOut =>
      if negb is_consumer && (1 <=? existing_producers)%nat
      then Some "FAN_OUT_IS_SINGLE_PRODUCER" else None
  | OneToOne =>
      if is_consumer && (1 <=? existing_consumers)%nat
      then Some "ONE_TO_ONE_CARDINALITY_VIOLATED"
      else if negb is_consumer && (1 <=? existing_producers)%nat
      then Some "ONE_TO_ONE_CARDINALITY_VIOLATED" else None
  end.

(** ** Consumers and producers *)

Record ConsumerEntry := mkConsumerEntry {
  consumer_pid : Z;
  consumer_hostname : string;
  c_zmq_identity : string;
  c_zmq_pubkey : string;
  c_role_name : string;
  c_role_uid : string;
  c_inbox_endpoint : string;
  c_inbox_schema_json : string;
  c_inbox_packing : string;
  c_inbox_checksum : string;
  c_connected_at : Z;
}.

#[export] Instance eta_ConsumerEntry : Eta ConsumerEntry := λ r,
  mkConsumerEntry (consumer_pid r) (consumer_hostname r) (c_zmq_identity r)
    (c_zmq_pubkey r) (c_role_name r) (c_role_uid r) (c_inbox_endpoint r)
    (c_inbox_schema_json r) (c_inbox_packing r) (c_inbox_checksum r) (c_connected_at r).

Record ProducerEntry := mkProducerEntry {
  producer_pid : Z;
  producer_hostname : string;
  p_zmq_identity : string;
  p_role_name : string;
  p_role_uid : string;
  p_inbox_endpoint : string;
  p_inbox_schema_json : string;
  p_inbox_packing : string;
  p_inbox_checksum : string;
  p_zmq_node_endpoint : string;
  p_zmq_pubkey : string;
  p_shm_capability_endpoint : string;
  p_metadata : json;
  p_connected_at : Z;
}.

#[export] Instance eta_ProducerEntry : Eta ProducerEntry := λ r,
  mkProducerEntry (producer_pid r) (producer_hostname r) (p_zmq_identity r)
    (p_role_name r) (p_role_uid r) (p_inbox_endpoint r) (p_inbox_schema_json r)
    (p_inbox_packing r) (p_inbox_checksum r) (p_zmq_node_endpoint r) (p_zmq_pubkey r)
    (p_shm_capability_endpoint r) (p_metadata r) (p_connected_at r).

(** ** Admission inputs and results *)

Record ChannelSchemaInvariants := mkSchemaInvariants {
  si_schema_hash : string;
  si_schema_id : string;
  si_schema_blds : string;
  si_schema_owner : string;
  si_flexzone_blds : string;
}.

Record ChannelTransportInvariants := mkTransportInvariants { ti_data_transport : string }.

Record ChannelAccessEntry := mkChannelAccessEntry {
  ledger : @Ledger.VersionedAdmissionLedger string string _ _ _ _;
}.

#[export] Instance eta_ChannelAccessEntry : Eta ChannelAccessEntry := λ r,
  mkChannelAccessEntry (ledger r).

Inductive AddProducerResult := ProducerCreated | ProducerRejectedUidConflict.
Inductive AddConsumerResult := ConsumerCreated | ConsumerRejectedUidConflict.
Record RemoveProducerResult := mkRemoveProducerResult {
  removed : bool; channel_now_empty : bool }.
Inductive InvariantSetResult := InvCreated | IdempotentEqual | RejectedMismatch.

Record ProducerAdmissionResult := mkProducerAdmissionResult {
  producer_result : AddProducerResult;
  pr_invariant_result : InvariantSetResult;
  pr_topology_error_code : option string;
  pr_invalid_identifier : bool;
  pr_channel_opened : bool;
  mismatched_invariant : string;
}.

#[export] Instance eta_ProducerAdmissionResult : Eta ProducerAdmissionResult := λ r,
  mkProducerAdmissionResult (producer_result r) (pr_invariant_result r)
    (pr_topology_error_code r) (pr_invalid_identifier r) (pr_channel_opened r)
    (mismatched_invariant r).

Definition default_producer_result : ProducerAdmissionResult :=
  mkProducerAdmissionResult ProducerCreated InvCreated None false false "".

Record ConsumerAdmissionResult := mkConsumerAdmissionResult {
  admitted : bool;
  cr_topology_error_code : option string;
  cr_invalid_identifier : bool;
  cr_channel_opened : bool;
  cr_invariant_result : InvariantSetResult;
}.

#[export] Instance eta_ConsumerAdmissionResult : Eta ConsumerAdmissionResult := λ r,
  mkConsumerAdmissionResult (admitted r) (cr_topology_error_code r)
    (cr_invalid_identifier r) (cr_channel_opened r) (cr_invariant_result r).

Definition default_consumer_result : ConsumerAdmissionResult :=
  mkConsumerAdmissionResult false None false false InvCreated.

(** ** Channels *)

Record ChannelEntry := mkChannelEntry {
  ch_name : string;
  ch_schema_hash : string;
  ch_schema_id : string;
  ch_schema_blds : string;
  ch_flexzone_blds : string;
  ch_schema_owner : string;
  producers : list ProducerEntry;
  consumers : list ConsumerEntry;
  ch_data_transport : string;
  topology : ChannelTopology;
  data_endpoint : option string;
  ch_created_at : Z;
}.

#[export] Instance eta_ChannelEntry : Eta ChannelEntry := λ r,
  mkChannelEntry (ch_name r) (ch_schema_hash r) (ch_schema_id r) (ch_schema_blds r)
    (ch_flexzone_blds r) (ch_schema_owner r) (producers r) (consumers r)
    (ch_data_transport r) (topology r) (data_endpoint r) (ch_created_at r).

(** [ChannelEntry{}]: the default member initialisers. *)
Definition default_channel (now : Z) : ChannelEntry :=
  mkChannelEntry "" "" "" "" "" "" [] [] "shm" OneToOne None now.

Definition first_producer (ch : ChannelEntry) : option ProducerEntry := head (producers ch).
Definition find_producer (role_uid : string) (ch : ChannelEntry) : option ProducerEntry :=
  find_by p_role_uid role_uid (producers ch).
Definition find_consumer (role_uid : string) (ch : ChannelEntry) : option ConsumerEntry :=
  find_by c_role_uid role_uid (consumers ch).
Definition producer_count (ch : ChannelEntry) : nat := length (producers ch).
Definition consumer_count (ch : ChannelEntry) : nat := length (consumers ch).
Definition is_shm (ch : ChannelEntry) : bool := ch_data_transport ch =s "shm".

Definition add_producer (p : ProducerEntry) (ch : ChannelEntry) :
    AddProducerResult * ChannelEntry :=
  match find_producer (p_role_uid p) ch with
  | Some _ => (ProducerRejectedUidConflict, ch)
  | None => (ProducerCreated, ch <| producers ::= λ ps, ps ++ [p] |>)
  end.

Definition remove_producer (role_uid : string) (ch : ChannelEntry) :
    RemoveProducerResult * ChannelEntry :=
  match find_by p_role_uid role_uid (producers ch) with
  | Some _ =>
      let ps := erase_by p_role_uid role_uid (producers ch) in
      (mkRemoveProducerResult true (bool_decide (ps = [])), ch <| producers := ps |>)
  | None => (mkRemoveProducerResult false (bool_decide (producers ch = [])), ch)
  end.

Definition add_consumer (c : ConsumerEntry) (ch : ChannelEntry) :
    AddConsumerResult * ChannelEntry :=
  match find_consumer (c_role_uid c) ch with
  | Some _ => (ConsumerRejectedUidConflict, ch)
  | None => (ConsumerCreated, ch <| consumers ::= λ cs, cs ++ [c] |>)
  end.

Definition remove_consumer (role_uid : string) (ch : ChannelEntry) : bool * ChannelEntry :=
  match find_by c_role_uid role_uid (consumers ch) with
  | Some _ => (true, ch <| consumers ::= erase_by c_role_uid role_uid |>)
  | None => (false, ch)
  end.

(** The per-producer setters share one loop: the first producer with the uid
    is mutated in place; the result says whether there is one. *)
Definition set_on_producer (f : ProducerEntry → ProducerEntry) (role_uid : string)
    (ch : ChannelEntry) : bool * ChannelEntry :=
  (bool_decide (is_Some (find_by p_role_uid role_uid (producers ch))),
   ch <| producers ::= alter_by p_role_uid f role_uid |>).

Definition set_producer_inbox (role_uid endpoint schema_json packing checksum : string) :=
  set_on_producer (λ p, p <| p_inbox_endpoint := endpoint |>
    <| p_inbox_schema_json := schema_json |> <| p_inbox_packing := packing |>
    <| p_inbox_checksum := checksum |>) role_uid.

Definition set_consumer_inbox (role_uid endpoint schema_json packing checksum : string)
    (ch : ChannelEntry) : bool * ChannelEntry :=
  (bool_decide (is_Some (find_by c_role_uid role_uid (consumers ch))),
   ch <| consumers ::= alter_by c_role_uid (λ c, c <| c_inbox_endpoint := endpoint |>
     <| c_inbox_schema_json := schema_json |> <| c_inbox_packing := packing |>
     <| c_inbox_checksum := checksum |>) role_uid |>).

Definition set_producer_zmq_node_endpoint (role_uid endpoint : string) :=
  set_on_producer (λ p, p <| p_zmq_node_endpoint := endpoint |>) role_uid.
Definition set_producer_zmq_pubkey (role_uid pubkey : string) :=
  set_on_producer (λ p, p <| p_zmq_pubkey := pubkey |>) role_uid.
Definition set_producer_shm_capability_endpoint (role_uid endpoint : string) :=
  set_on_producer (λ p, p <| p_shm_capability_endpoint := endpoint |>) role_uid.
Definition set_producer_metadata (role_uid : string) (blob : json) :=
  set_on_producer (λ p, p <| p_metadata := blob |>) role_uid.

Definition producer_zmq_pubkey (role_uid : string) (ch : ChannelEntry) : option string :=
  p_zmq_pubkey <$> find_by p_role_uid role_uid (producers ch).
Definition producer_zmq_node_endpoint (role_uid : string) (ch : ChannelEntry) : option string :=
  p_zmq_node_endpoint <$> find_by p_role_uid role_uid (producers ch).
Definition producer_metadata (role_uid : string) (ch : ChannelEntry) : option json :=
  p_metadata <$> find_by p_role_uid role_uid (producers ch).

Definition set_data_endpoint (endpoint : string) (ch : ChannelEntry) : ChannelEntry :=
  ch <| data_endpoint := Some endpoint |>.

(** [out] starts as [json::object()], so the assignment never throws. *)
Definition aggregate_metadata_tree (ch : ChannelEntry) : json :=
  JObj (foldl (λ out p, if negb (is_null (p_metadata p))
                        then members_set (p_role_uid p) (p_metadata p) out else out)
          [] (producers ch)).

(** ** Bands *)

Record BandMember := mkBandMember {
  bm_role_uid : string;
  bm_role_name : string;
  bm_zmq_identity : string;
  bm_joined_at : Z;
}.

Record BandEntry := mkBandEntry {
  band_name : string;
  members : list BandMember;
  band_created_at : Z;
  last_activity : Z;
}.

#[export] Instance eta_BandEntry : Eta BandEntry := λ r,
  mkBandEntry (band_name r) (members r) (band_created_at r) (last_activity r).

Definition default_band (now : Z) : BandEntry := mkBandEntry "" [] now now.

(** ** Roles and their presences *)

Record RolePresence := mkRolePresence {
  rp_channel : string;
  rp_role_type : string;
  rp_state : RoleState;
  first_heartbeat_seen : bool;
  last_heartbeat : Z;
  state_since : Z;
  heartbeats_received : Z;
  latest_metrics : json;
  metrics_collected_at : Z;
}.

#[export] Instance eta_RolePresence : Eta RolePresence := λ r,
  mkRolePresence (rp_channel r) (rp_role_type r) (rp_state r) (first_heartbeat_seen r)
    (last_heartbeat r) (state_since r) (heartbeats_received r) (latest_metrics r)
    (metrics_collected_at r).

(** Presences are addressed by (channel, role type). *)
Definition presence_key (p : RolePresence) : string * string := (rp_channel p, rp_role_type p).

(** A fresh row: what [add_presence] and [upsert_presence_row_locked] push. *)
Definition new_presence (channel role_type : string) (now : Z) : RolePresence :=
  mkRolePresence channel role_type Connected false now now 0 JNull 0.

Inductive AddPresenceResult := PresenceCreated | PresenceRejectedDuplicate.
Inductive TransitionEffect := NoChange | Refreshed | NewlyConnected | ToPending | ToDisconnected.

#[export] Instance TransitionEffect_eq_dec : EqDecision TransitionEffect.
Proof. solve_decision. Defined.

Record HeartbeatEffect := mkHeartbeatEffect {
  presence_found : bool;
  prev_state : RoleState;
  was_first_heartbeat_seen : bool;
}.

Definition default_heartbeat_effect : HeartbeatEffect :=
  mkHeartbeatEffect false Disconnected false.

Definition to_transition_effect (r : HeartbeatEffect) : TransitionEffect :=
  if negb (presence_found r) then NoChange
  else if negb (was_first_heartbeat_seen r) then NewlyConnected
  else if bool_decide (prev_state r ≠ Connected) then NewlyConnected
  else Refreshed.

Record RoleEntry := mkRoleEntry {
  re_uid : string;
  re_name : string;
  re_short_tag : string;
  channels : list string;
  first_seen : Z;
  re_pubkey_z85 : string;
  presences : list RolePresence;
}.

#[export] Instance eta_RoleEntry : Eta RoleEntry := λ r,
  mkRoleEntry (re_uid r) (re_name r) (re_short_tag r) (channels r) (first_seen r)
    (re_pubkey_z85 r) (presences r).

Definition default_role (now : Z) : RoleEntry := mkRoleEntry "" "" "" [] now "" [].

Definition find_presence (channel role_type : string) (r : RoleEntry) : option RolePresence :=
  find_by presence_key (channel, role_type) (presences r).

Definition any_presence_alive (r : RoleEntry) : bool := negb (bool_decide (length (presences r) = 0%nat)).

Definition add_presence (channel_ role_type_ : string) (now : Z) (r : RoleEntry) :
    AddPresenceResult * RoleEntry :=
  match find_presence channel_ role_type_ r with
  | Some _ => (PresenceRejectedDuplicate, r)
  | None =>
      (PresenceCreated, r <| presences ::= λ ps, ps ++ [new_presence channel_ role_type_ now] |>)
  end.

Definition remove_presence (channel_ role_type_ : string) (r : RoleEntry) : bool * RoleEntry :=
  match find_presence channel_ role_type_ r with
  | Some _ => (true, r <| presences ::= erase_by presence_key (channel_, role_type_) |>)
  | None => (false, r)
  end.

(** What a heartbeat does to its row. *)
Definition beat (when : Z) (p : RolePresence) : RolePresence :=
  let p := p <| last_heartbeat := when |> <| first_heartbeat_seen := true |>
             <| heartbeats_received ::= u64_succ |> in
  if bool_decide (rp_state p ≠ Connected)
  then p <| rp_state := Connected |> <| state_since := when |> else p.

Definition on_heartbeat (channel_ role_type_ : string) (when : Z) (r : RoleEntry) :
    HeartbeatEffect * RoleEntry :=
  match find_presence channel_ role_type_ r with
  | Some p =>
      (mkHeartbeatEffect true (rp_state p) (first_heartbeat_seen p),
       r <| presences ::= alter_by presence_key (beat when) (channel_, role_type_) |>)
  | None => (default_heartbeat_effect, r)
  end.

Definition on_heartbeat_timeout (channel_ role_type_ : string) (now : Z) (r : RoleEntry) :
    TransitionEffect * RoleEntry :=
  match find_presence channel_ role_type_ r with
  | Some p =>
      if bool_decide (rp_state p ≠ Connected) then (NoChange, r)
      else (ToPending,
            r <| presences ::= alter_by presence_key
                   (λ p, p <| rp_state := Pending |> <| state_since := now |>)
                   (channel_, role_type_) |>)
  | None => (NoChange, r)
  end.

Definition on_pending_timeout (channel_ role_type_ : string) (r : RoleEntry) :
    TransitionEffect * RoleEntry :=
  match find_presence channel_ role_type_ r with
  | Some p =>
      if bool_decide (rp_state p ≠ Pending) then (NoChange, r)
      else (ToDisconnected, r <| presences ::= erase_by presence_key (channel_, role_type_) |>)
  | None => (NoChange, r)
  end.

Definition on_dereg (channel_ role_type_ : string) (r : RoleEntry) :
    TransitionEffect * RoleEntry :=
  match find_presence channel_ role_type_ r with
  | Some _ => (ToDisconnected, r <| presences ::= erase_by presence_key (channel_, role_type_) |>)
  | None => (NoChange, r)
  end.

Definition drop_channel_if_orphaned (channel_ : string) (r : RoleEntry) : bool * RoleEntry :=
  if bool_decide (channel_ ∈ rp_channel <$> presences r) then (false, r)
  else if bool_decide (channel_ ∈ channels r)
  then (true, r <| channels ::= erase_by id channel_ |>) else (false, r).

(** ** Observability *)

Definition observe (producer : option RolePresence) : ChannelObservable :=
  match producer with
  | None => kAbsent
  | Some p =>
      if bool_decide (rp_state p = Disconnected) then kAbsent
      else if negb (first_heartbeat_seen p) then kRegistering
      else if bool_decide (rp_state p = Pending) then kStalled
      else kLive
  end.

(** The observables the scan of [compute_channel_observable] meets, in
    producer order; producers with no role entry or no presence are skipped. *)
Definition producer_observables (ch : ChannelEntry) (roles : gmap string RoleEntry) :
    list ChannelObservable :=
  omap (λ prod, r ← roles !! p_role_uid prod;
                p ← find_presence (ch_name ch) "producer" r;
                Some (observe (Some p))) (producers ch).

Definition compute_channel_observable (ch : ChannelEntry) (roles : gmap string RoleEntry) :
    ChannelObservable :=
  let obs := producer_observables ch roles in
  if bool_decide (producers ch = []) then kAbsent
  else if bool_decide (kLive ∈ obs) then kLive
  else if bool_decide (kRegistering ∈ obs) then kRegistering
  else if bool_decide (kStalled ∈ obs) then kStalled
  else kAbsent.

(** ** Peers, SHM blocks, counters *)

Record PeerEntry := mkPeerEntry {
  pe_uid : string;
  pe_endpoint : string;
  pe_state : PeerState;
  last_seen : Z;
  pe_pubkey_z85 : string;
  relay_channels : list string;
  pe_zmq_identity : string;
}.

#[export] Instance eta_PeerEntry : Eta PeerEntry := λ r,
  mkPeerEntry (pe_uid r) (pe_endpoint r) (pe_state r) (last_seen r) (pe_pubkey_z85 r)
    (relay_channels r) (pe_zmq_identity r).

Record ShmBlockRef := mkShmBlockRef { sb_channel_name : string; block_path : string }.

Record BrokerCounters := mkBrokerCounters {
  ready_to_pending_total : Z;
  pending_to_deregistered_total : Z;
  pending_to_ready_total : Z;
  bytes_in_total : Z;
  bytes_out_total : Z;
  msg_type_counts : gmap string Z;
  msg_type_errors : gmap string Z;
  schema_registered_total : Z;
  schema_evicted_total : Z;
  schema_citation_rejected_total : Z;
}.

#[export] Instance eta_BrokerCounters : Eta BrokerCounters := λ r,
  mkBrokerCounters (ready_to_pending_total r) (pending_to_deregistered_total r)
    (pending_to_ready_total r) (bytes_in_total r) (bytes_out_total r) (msg_type_counts r)
    (msg_type_errors r) (schema_registered_total r) (schema_evicted_total r)
    (schema_citation_rejected_total r).

Definition zero_counters : BrokerCounters := mkBrokerCounters 0 0 0 0 0 ∅ ∅ 0 0 0.

(** [map[key] += n] on a map of [uint64_t]. *)
Definition bump (key : string) (n : Z) (m : gmap string Z) : gmap string Z :=
  <[key := u64 (default 0 (m !! key) + n)]> m.
End Entries.
