(* ===== verification/HubCore.v ===== *)
(** * Hub state: the store, its effects and the primitive setters
    (src/src/utils/ipc/hub_state.cpp, first half)

    [HubImpl] is [HubState::Impl] without the mutexes.  Every mutator is a
    computation [M A]: it reads the clocks ([Env]), transforms the store and
    appends to the trace of handler calls.  The store has a single writer (the
    broker's dispatch thread), so a mutator's critical sections run back to
    back; handlers fire after the lock is released and are recorded as
    (handler id, event) pairs in the order of the calls.  One clock reading
    serves a whole mutator.  Traversals of an [std::unordered_map] go in the
    order of [map_to_list]. *)

From S2P Require Import Prelude.
From S2P Require Import Json.
From S2P Require Import Naming.
From S2P Require Import Ledger.
From S2P Require Import ReplayGuard.
From S2P Require Import ConsoleBuffer.
From S2P Require Import Entries.
Import Json Entries.

Module HubCore.

(** ** Schema records (src/src/include/utils/schema_record.hpp) *)

Record SchemaRecord := mkSchemaRecord {
  owner_uid : string;
  sr_schema_id : string;
  hash : list Z;
  packing : string;
  blds : string;
  flexzone_packing : string;
  sr_flexzone_blds : string;
  registered_at : Z;
}.

#[export] Instance eta_SchemaRecord : Eta SchemaRecord := λ r,
  mkSchemaRecord (owner_uid r) (sr_schema_id r) (hash r) (packing r) (blds r)
    (flexzone_packing r) (sr_flexzone_blds r) (registered_at r).

Definition has_datablock (r : SchemaRecord) : bool := negb (str_empty (blds r)).
Definition has_flexzone (r : SchemaRecord) : bool := negb (str_empty (sr_flexzone_blds r)).

(** [schema_records_equivalent] of schema_utils.hpp. *)
Definition schema_records_equivalent (a b : SchemaRecord) : bool :=
  bool_decide (hash a = hash b).

(** ** Events and handlers *)

Inductive HandlerKind :=
  | ch_opened | ch_status_changed | ch_closed | cons_added | cons_removed
  | role_reg | role_disc | band_joined | band_left | peer_conn | peer_disc.

#[export] Instance HandlerKind_eq_dec : EqDecision HandlerKind.
Proof. solve_decision. Defined.

Inductive Event :=
  | ChannelOpened (entry : ChannelEntry)
  | ChannelStatusChanged (entry : ChannelEntry) (obs : ChannelObservable)
  | ChannelClosed (name : string)
  | ConsumerAdded (channel : string) (entry : ConsumerEntry)
  | ConsumerRemoved (channel role_uid : string)
  | RoleRegistered (entry : RoleEntry)
  | RoleDisconnected (uid : string)
  | BandJoined (band : string) (member : BandMember)
  | BandLeft (band role_uid role_name reason : string)
  | PeerConnectedEv (entry : PeerEntry)
  | PeerDisconnectedEv (hub_uid : string).

(** The registry an event is delivered through. *)
Definition kind_of (e : Event) : HandlerKind :=
  match e with
  | ChannelOpened _ => ch_opened
  | ChannelStatusChanged _ _ => ch_status_changed
  | ChannelClosed _ => ch_closed
  | ConsumerAdded _ _ => cons_added
  | ConsumerRemoved _ _ => cons_removed
  | RoleRegistered _ => role_reg
  | RoleDisconnected _ => role_disc
  | BandJoined _ _ => band_joined
  | BandLeft _ _ _ _ => band_left
  | PeerConnectedEv _ => peer_conn
  | PeerDisconnectedEv _ => peer_disc
  end.

Abbreviation HandlerId := Z (only parsing).
Definition kInvalidHandlerId : HandlerId := 0.

Definition delivery : Type := HandlerId * Event.

(** ** [HubState::Impl] *)

Record HubImpl := mkHubImpl {
  channels_ : gmap string ChannelEntry;
  roles_ : gmap string RoleEntry;
  bands_ : gmap string BandEntry;
  peers_ : gmap string PeerEntry;
  shm_blocks_ : gmap string ShmBlockRef;
  schemas_ : gmap (string * string) SchemaRecord;
  channel_access_index : gmap string ChannelAccessEntry;
  producer_instance_ : gmap string Z;
  replay_guard : gmap string (list ReplayGuard.Entry);
  console_buffer : ConsoleBuffer.ConsoleOutputBuffer;
  counters_ : BrokerCounters;
  next_handler_id : HandlerId;
  slots : HandlerKind → list HandlerId;
  hub_uid_ : string;
  snapshot_seq_counter_ : Z;
}.

#[export] Instance eta_HubImpl : Eta HubImpl := λ r,
  mkHubImpl (channels_ r) (roles_ r) (bands_ r) (peers_ r) (shm_blocks_ r) (schemas_ r)
    (channel_access_index r) (producer_instance_ r) (replay_guard r) (console_buffer r)
    (counters_ r) (next_handler_id r) (slots r) (hub_uid_ r) (snapshot_seq_counter_ r).

Definition empty_hub : HubImpl :=
  mkHubImpl ∅ ∅ ∅ ∅ ∅ ∅ ∅ ∅ ∅ ConsoleBuffer.new_buffer zero_counters 1 (λ _, []) "" 0.

(** ** The effect of a mutator *)

Record Env := mkEnv { system_now : Z; steady_now : Z }.

Definition M (A : Type) : Type := Env → HubImpl → A * HubImpl * list delivery.

#[export] Instance M_ret : MRet M := λ A a _ h, (a, h, []).
#[export] Instance M_bind : MBind M := λ A B f m env h,
  let '(a, h1, t1) := m env h in
  let '(b, h2, t2) := f a env h1 in (b, h2, t1 ++ t2).

Definition gets {A} (f : HubImpl → A) : M A := λ _ h, (f h, h, []).
Definition modify (f : HubImpl → HubImpl) : M unit := λ _ h, (tt, f h, []).
Definition ask : M Env := λ env h, (env, h, []).

(** [for (auto &h : snapshot_handlers(...)) h(event)]. *)
Definition fire (e : Event) : M unit := λ _ h,
  (tt, h, (λ id, (id, e)) <$> slots h (kind_of e)).

Fixpoint for_each {A} (f : A → M unit) (l : list A) : M unit :=
  match l with
  | [] => mret tt
  | x :: l => _ ← f x; for_each f l
  end.

(** Projections of a run: the result, the store, the handler calls. *)
Definition result {A} (m : M A) (env : Env) (h : HubImpl) : A := (m env h).1.1.
Definition exec {A} (m : M A) (env : Env) (h : HubImpl) : HubImpl := (m env h).1.2.
Definition trace {A} (m : M A) (env : Env) (h : HubImpl) : list delivery := (m env h).2.

Section run.
Context {A B : Type}.
Implicit Types (m : M A) (env : Env) (h : HubImpl).

Lemma exec_bind m (f : A → M B) env h :
  exec (m ≫= f) env h = exec (f (result m env h)) env (exec m env h).
Proof.
  unfold exec, result, mbind, M_bind. destruct (m env h) as [[a h1] t1]. cbn.
  by destruct (f a env h1) as [[b h2] t2].
Qed.

Lemma result_bind m (f : A → M B) env h :
  result (m ≫= f) env h = result (f (result m env h)) env (exec m env h).
Proof.
  unfold exec, result, mbind, M_bind. destruct (m env h) as [[a h1] t1]. cbn.
  by destruct (f a env h1) as [[b h2] t2].
Qed.

Lemma trace_bind m (f : A → M B) env h :
  trace (m ≫= f) env h = trace m env h ++ trace (f (result m env h)) env (exec m env h).
Proof.
  unfold exec, result, trace, mbind, M_bind. destruct (m env h) as [[a h1] t1]. cbn.
  by destruct (f a env h1) as [[b h2] t2].
Qed.

Lemma exec_if (b : bool) m m' env h :
  exec (if b then m else m') env h = if b then exec m env h else exec m' env h.
Proof. by destruct b. Qed.
End run.

(** The store a computation leaves, computed stepwise. *)
Lemma exec_ret {A} (a : A) env h : exec (mret a : M A) env h = h.
Proof. done. Qed.
Lemma result_ret {A} (a : A) env h : result (mret a : M A) env h = a.
Proof. done. Qed.
Lemma trace_ret {A} (a : A) env h : trace (mret a : M A) env h = [].
Proof. done. Qed.
Lemma exec_gets {A} (f : HubImpl → A) env h : exec (gets f) env h = h.
Proof. done. Qed.
Lemma result_gets {A} (f : HubImpl → A) env h : result (gets f) env h = f h.
Proof. done. Qed.
Lemma trace_gets {A} (f : HubImpl → A) env h : trace (gets f) env h = [].
Proof. done. Qed.
Lemma exec_modify f env h : exec (modify f) env h = f h.
Proof. done. Qed.
Lemma trace_modify f env h : trace (modify f) env h = [].
Proof. done. Qed.
Lemma exec_ask env h : exec ask env h = h.
Proof. done. Qed.
Lemma result_ask env h : result ask env h = env.
Proof. done. Qed.
Lemma trace_ask env h : trace ask env h = [].
Proof. done. Qed.
Lemma exec_fire e env h : exec (fire e) env h = h.
Proof. done. Qed.
Lemma trace_fire e env h : trace (fire e) env h = (λ id, (id, e)) <$> slots h (kind_of e).
Proof. done. Qed.

Create Rewrite HintDb run.
#[export] Hint Rewrite @exec_bind @result_bind @trace_bind @exec_ret @result_ret @trace_ret
  @exec_gets @result_gets @trace_gets exec_modify trace_modify exec_ask result_ask trace_ask
  exec_fire trace_fire : run.

(** Run the monadic structure of the goal. *)
Ltac run := repeat (autorewrite with run; cbn beta iota).

Lemma exec_for_each_ind {A} (P : HubImpl → Prop) (f : A → M unit) l env h :
  (∀ x h, x ∈ l → P h → P (exec (f x) env h)) → P h → P (exec (for_each f l) env h).
Proof.
  revert h. induction l as [|x l IH]; intros h Hf HP; [done|].
  cbn [for_each]. rewrite exec_bind. apply IH; [|apply Hf; [set_solver|done]].
  intros y h' Hy. apply Hf. set_solver.
Qed.

Lemma exec_for_each_fire {A} (f : A → Event) l env h :
  exec (for_each (λ x, fire (f x)) l) env h = h.
Proof.
  induction l as [|x l IH]; [done|]. cbn [for_each]. by rewrite exec_bind, exec_fire.
Qed.

(** ** Read-only accessors *)

Definition set_hub_uid (hub_uid : string) : M unit := modify (λ h, h <| hub_uid_ := hub_uid |>).

Record HubStateSnapshot := mkSnapshot {
  snap_channels : gmap string ChannelEntry;
  snap_roles : gmap string RoleEntry;
  snap_bands : gmap string BandEntry;
  snap_peers : gmap string PeerEntry;
  snap_shm_blocks : gmap string ShmBlockRef;
  snap_schemas : gmap (string * string) SchemaRecord;
  snap_counters : BrokerCounters;
  captured_at : Z;
  captured_mono : Z;
  snap_hub_uid : string;
  snapshot_seq : Z;
}.

Definition snapshot : M HubStateSnapshot :=
  env ← ask;
  h ← gets id;
  _ ← modify (λ h, h <| snapshot_seq_counter_ ::= u64_succ |>);
  mret (mkSnapshot (channels_ h) (roles_ h) (bands_ h) (peers_ h) (shm_blocks_ h)
          (schemas_ h) (counters_ h) (system_now env) (steady_now env) (hub_uid_ h)
          (u64_succ (snapshot_seq_counter_ h))).

Definition observe_channel (ch : ChannelEntry) (snap : HubStateSnapshot) : ChannelObservable :=
  compute_channel_observable ch (snap_roles snap).

Definition channel (name : string) (h : HubImpl) : option ChannelEntry := channels_ h !! name.
Definition role (uid : string) (h : HubImpl) : option RoleEntry := roles_ h !! uid.
Definition band (name : string) (h : HubImpl) : option BandEntry := bands_ h !! name.
Definition peer (hub_uid : string) (h : HubImpl) : option PeerEntry := peers_ h !! hub_uid.
Definition shm_block (channel_name : string) (h : HubImpl) : option ShmBlockRef :=
  shm_blocks_ h !! channel_name.
Definition counters (h : HubImpl) : BrokerCounters := counters_ h.
Definition channel_access (channel_name : string) (h : HubImpl) : option ChannelAccessEntry :=
  channel_access_index h !! channel_name.
Definition schema (owner schema_id : string) (h : HubImpl) : option SchemaRecord :=
  schemas_ h !! (owner, schema_id).
Definition schema_count (h : HubImpl) : nat := size (schemas_ h).

Definition producer_instance (producer_role_uid : string) (h : HubImpl) : Z :=
  if str_empty producer_role_uid then 0
  else default 0 (producer_instance_ h !! producer_role_uid).

(** ** Subscribe / unsubscribe *)

Definition set_slots (k : HandlerKind) (v : list HandlerId) (s : HandlerKind → list HandlerId) :
    HandlerKind → list HandlerId := λ k', if bool_decide (k' = k) then v else s k'.

(** [add_handler]; the eleven [subscribe_*] members differ in [k] only. *)
Definition subscribe (k : HandlerKind) : M HandlerId :=
  id ← gets next_handler_id;
  _ ← modify (λ h, h <| next_handler_id ::= u64_succ |>
                     <| slots ::= λ s, set_slots k (s k ++ [id]) s |>);
  mret id.

Definition all_kinds : list HandlerKind :=
  [ch_opened; ch_status_changed; ch_closed; cons_added; cons_removed; role_reg; role_disc;
   band_joined; band_left; peer_conn; peer_disc].

(** The first registry that holds the id loses it. *)
Fixpoint erase_handler_from (ks : list HandlerKind) (hid : HandlerId)
    (s : HandlerKind → list HandlerId) : HandlerKind → list HandlerId :=
  match ks with
  | [] => s
  | k :: ks =>
      if bool_decide (hid ∈ s k) then set_slots k (erase_by id hid (s k)) s
      else erase_handler_from ks hid s
  end.

Definition unsubscribe (id : HandlerId) : M unit :=
  if bool_decide (id = kInvalidHandlerId) then mret tt
  else modify (λ h, h <| slots ::= erase_handler_from all_kinds id |>).

(** ** Terminal cleanup shared by the two role-disconnect paths *)

(** The band half of [cascade_role_terminal_cleanup_locked] on one band. *)
Definition leave_band (now : Z) (uid : string) (b : BandEntry) : BandEntry :=
  let m := filter (λ x, bm_role_uid x ≠ uid) (members b) in
  let b' := b <| members := m |> in
  if (length m <? length (members b))%nat then b' <| last_activity := now |> else b'.

Definition cascade_role_terminal_cleanup_locked (now : Z) (uid : string) (h : HubImpl) :
    nat * list string * HubImpl :=
  let schemas' := filter (λ kv, kv.1.1 ≠ uid) (schemas_ h) in
  let schemas_evicted := (size (schemas_ h) - size schemas')%nat in
  let bands_left := (filter (λ kv, Exists (λ x, bm_role_uid x = uid) (members kv.2))
                       (map_to_list (bands_ h))).*1 in
  let bands' := filter (λ kv, members kv.2 ≠ []) (leave_band now uid <$> bands_ h) in
  (schemas_evicted, bands_left, h <| schemas_ := schemas' |> <| bands_ := bands' |>).

(** The part both paths run once they decide to erase role [uid]. *)
Definition erase_role (uid : string) (r : RoleEntry) : M unit :=
  env ← ask;
  h ← gets id;
  let '(evicted, bands_left, h') :=
    cascade_role_terminal_cleanup_locked (steady_now env) uid h in
  _ ← modify (λ _, h' <| counters_ ::= λ c,
                          c <| schema_evicted_total ::= λ n, u64 (n + Z.of_nat evicted) |> |>
                      <| roles_ ::= delete uid |>);
  _ ← fire (RoleDisconnected uid);
  for_each (λ band_name, fire (BandLeft band_name uid (re_name r) "role_closed")) bands_left.

Definition _set_role_disconnected (uid : string) : M unit :=
  o ← gets (λ h, roles_ h !! uid);
  match o with
  | None => mret tt
  | Some r => erase_role uid r
  end.

Definition _dispatch_role_disconnected_if_dead (uid : string) : M unit :=
  o ← gets (λ h, roles_ h !! uid);
  match o with
  | None => mret tt
  | Some r => if any_presence_alive r then mret tt else erase_role uid r
  end.

(** ** Primitive setters *)

Definition _set_channel_opened (entry : ChannelEntry) : M unit :=
  _ ← modify (λ h, h <| channels_ ::= <[ch_name entry := entry]> |>);
  fire (ChannelOpened entry).

Definition _set_channel_closed (name : string) : M unit :=
  o ← gets (λ h, channels_ h !! name);
  match o with
  | None => mret tt
  | Some _ =>
      _ ← modify (λ h, h <| channels_ ::= delete name |>);
      fire (ChannelClosed name)
  end.

Definition reset_confirmation (channel role_uid : string) (h : HubImpl) : HubImpl :=
  h <| channel_access_index ::=
    alter (λ a, a <| ledger ::= λ l, (Ledger.reset_role_confirmation role_uid l).2 |>) channel |>.

Definition _remove_consumer (channel role_uid : string) : M unit :=
  o ← gets (λ h, channels_ h !! channel);
  match o with
  | None => mret tt
  | Some ch =>
      let cons := filter (λ c, c_role_uid c ≠ role_uid) (consumers ch) in
      let removed := (length cons <? length (consumers ch))%nat in
      _ ← modify (λ h, h <| channels_ ::= <[channel := ch <| consumers := cons |>]> |>);
      if removed then
        _ ← modify (reset_confirmation channel role_uid);
        fire (ConsumerRemoved channel role_uid)
      else mret tt
  end.

Definition _set_role_registered (entry : RoleEntry) : M unit :=
  _ ← modify (λ h, h <| roles_ ::= <[re_uid entry := entry]> |>);
  fire (RoleRegistered entry).

Definition _set_band_joined (band : string) (member : BandMember) : M unit :=
  env ← ask;
  b0 ← gets (λ h, default (default_band (steady_now env)) (bands_ h !! band));
  let b1 := if str_empty (band_name b0) then b0 <| band_name := band |> else b0 in
  let m := filter (λ x, bm_role_uid x ≠ bm_role_uid member) (members b1) ++ [member] in
  let b2 := b1 <| members := m |> <| last_activity := steady_now env |> in
  _ ← modify (λ h, h <| bands_ ::= <[band := b2]> |>);
  fire (BandJoined band member).

Definition _set_band_left (band role_uid reason : string) : M unit :=
  env ← ask;
  o ← gets (λ h, bands_ h !! band);
  match o with
  | None => mret tt
  | Some b =>
      let role_name := default "" (bm_role_name <$> find_by bm_role_uid role_uid (members b)) in
      let m := filter (λ x, bm_role_uid x ≠ role_uid) (members b) in
      let fire_ := (length m <? length (members b))%nat in
      let b' := b <| members := m |> <| last_activity := steady_now env |> in
      _ ← modify (λ h, h <| bands_ ::= if bool_decide (m = []) then delete band
                                       else <[band := b']> |>);
      if fire_ then fire (BandLeft band role_uid role_name reason) else mret tt
  end.

Definition _set_peer_connected (entry : PeerEntry) : M unit :=
  env ← ask;
  let entry' := entry <| pe_state := PeerConnected |> <| last_seen := steady_now env |> in
  _ ← modify (λ h, h <| peers_ ::= <[pe_uid entry := entry']> |>);
  fire (PeerConnectedEv entry').

Definition _set_peer_disconnected (hub_uid : string) : M unit :=
  o ← gets (λ h, peers_ h !! hub_uid);
  match o with
  | None => mret tt
  | Some p =>
      if bool_decide (pe_state p ≠ PeerDisconnected) then
        _ ← modify (λ h, h <| peers_ ::= <[hub_uid := p <| pe_state := PeerDisconnected |>]> |>);
        fire (PeerDisconnectedEv hub_uid)
      else mret tt
  end.

Definition _set_producer_zmq_node_endpoint (channel_name role_uid endpoint : string) : M bool :=
  if str_empty channel_name || str_empty role_uid || str_empty endpoint then mret false
  else
    o ← gets (λ h, channels_ h !! channel_name);
    match o with
    | None => mret false
    | Some ch =>
        let '(ok, ch') := set_producer_zmq_node_endpoint role_uid endpoint ch in
        _ ← modify (λ h, h <| channels_ ::= <[channel_name := ch']> |>);
        mret ok
    end.

Definition _set_channel_data_endpoint (channel_name endpoint : string) : M bool :=
  if str_empty channel_name || str_empty endpoint then mret false
  else
    o ← gets (λ h, channels_ h !! channel_name);
    match o with
    | None => mret false
    | Some ch =>
        _ ← modify (λ h, h <| channels_ ::= <[channel_name := set_data_endpoint endpoint ch]> |>);
        mret true
    end.

Definition _set_shm_block (ref : ShmBlockRef) : M unit :=
  modify (λ h, h <| shm_blocks_ ::= <[sb_channel_name ref := ref]> |>).

Definition _bump_msg_type_error (msg_type : string) (n : Z) : M unit :=
  modify (λ h, h <| counters_ ::= λ c, c <| msg_type_errors ::= bump msg_type n |> |>).

Definition _bump_counter (key : string) (n : Z) : M unit :=
  modify (λ h, h <| counters_ ::= λ c, c <| msg_type_counts ::= bump key n |> |>).

Definition bump_invalid_identifier : M unit :=
  modify (λ h, h <| counters_ ::= λ c,
    c <| msg_type_counts ::= bump "sys.invalid_identifier_rejected" 1 |> |>).
End HubCore.
