(* ===== verification/SchemaRegistry.v ===== *)
(** * Schema registry operations of the hub state
    (src/src/utils/ipc/hub_state.cpp, last section)

    Registration, owner eviction and the citation validator, with the
    validator's abstract contract: the joiner matches the channel on every
    axis it declares and, when it cites the registry, the record exists under
    an allowed owner with the channel's fingerprint.

    Module [SchemaUtils] comes first: schema fingerprints on the wire. *)

From Stdlib Require Import Ascii.
From S2P Require Import Prelude.
From S2P Require Import Json.
From S2P Require Import HubCore.
From S2P Require Import Entries.
Import HubCore.

(** * Schema fingerprints on the wire

    Models the fingerprint functions of [src/include/utils/schema_utils.hpp]
    and [hex_to_fingerprint_array] of [broker_service.cpp].  A fingerprint is
    the 64 bytes of the datablock half and the flexzone half; BLAKE2b is a
    parameter that gives 32 bytes. *)
Module SchemaUtils.

(** The bytes of a [std::string]. *)
Fixpoint bytes_of (s : string) : list Z :=
  match s with EmptyString => [] | String c rest => Hex.code c :: bytes_of rest end.

Definition zeros (n : nat) : list Z := replicate n 0.

Definition hex_to_fingerprint_array (hex : string) : list Z :=
  if bool_decide (String.length hex ≠ 128%nat) then zeros 64
  else
    let decoded := Hex.bytes_from_hex hex in
    if bool_decide (String.length decoded ≠ 64%nat) then zeros 64 else bytes_of decoded.

Section fingerprint.
Context (blake2b : string → string).

Definition compute_zone_hash (blds packing : string) : list Z :=
  if str_empty blds then zeros 32 else bytes_of (blake2b (blds +:+ "|pack:" +:+ packing)).

Definition compute_fingerprint_from_wire (slot_blds slot_packing fz_blds fz_packing : string) : list Z :=
  compute_zone_hash slot_blds slot_packing ++ compute_zone_hash fz_blds fz_packing.

Record RequestFingerprint := mkFingerprint { fp_hash : list Z; consistent : bool }.

Definition verify_request_fingerprint
    (slot_blds slot_packing fz_blds fz_packing claimed_hash_hex : string) : RequestFingerprint :=
  let hash := compute_fingerprint_from_wire slot_blds slot_packing fz_blds fz_packing in
  mkFingerprint hash
    (if str_empty claimed_hash_hex then true
     else bool_decide (bytes_of (Hex.bytes_from_hex claimed_hash_hex) = hash)).

(** A record starts with the time of its construction. *)
Definition make_schema_record (now : Z) (owner id db_blds db_packing fz_blds fz_packing : string) : SchemaRecord :=
  mkSchemaRecord owner id (compute_fingerprint_from_wire db_blds db_packing fz_blds fz_packing)
    db_packing db_blds fz_packing fz_blds now.
End fingerprint.

End SchemaUtils.

Import Entries HubCore.

Module SchemaRegistry.

Inductive SchemaRegOutcome := kCreated | kIdempotent | kHashMismatchSelf | kForbiddenOwner.

Inductive Reason :=
  | kOk | kCrossCitation | kUnknownSchema | kFingerprintMismatch
  | kSchemaIdMismatch | kSchemaOwnerMismatch.

#[export] Instance Reason_eq_dec : EqDecision Reason.
Proof. solve_decision. Defined.

Record CitationOutcome := mkCitationOutcome { reason : Reason; detail : string }.

Definition ok (o : CitationOutcome) : bool := bool_decide (reason o = kOk).

Definition _on_schema_registered (rec : SchemaRecord) : M SchemaRegOutcome :=
  if str_empty (owner_uid rec) || str_empty (sr_schema_id rec) then mret kForbiddenOwner
  else if negb (has_datablock rec) && negb (has_flexzone rec) then mret kForbiddenOwner
  else if has_datablock rec && str_empty (packing rec) then mret kForbiddenOwner
  else if has_flexzone rec && str_empty (flexzone_packing rec) then mret kForbiddenOwner
  else
    let key := (owner_uid rec, sr_schema_id rec) in
    env ← ask;
    o ← gets (λ h, schemas_ h !! key);
    match o with
    | Some old =>
        mret (if schema_records_equivalent old rec then kIdempotent else kHashMismatchSelf)
    | None =>
        _ ← modify (λ h, h <| schemas_ ::= <[key := rec <| registered_at := system_now env |>]> |>
              <| counters_ ::= λ c, c <| schema_registered_total ::= u64_succ |> |>);
        mret kCreated
    end.

Definition _on_schemas_evicted_for_owner (owner : string) : M nat :=
  if str_empty owner then mret 0%nat
  else if owner =s "hub" then mret 0%nat
  else
    old ← gets schemas_;
    let kept := filter (λ kv, kv.1.1 ≠ owner) old in
    let removed := (size old - size kept)%nat in
    _ ← modify (λ h, h <| schemas_ := kept |> <| counters_ ::= λ c,
          c <| schema_evicted_total ::= λ n, u64 (n + Z.of_nat removed) |> |>);
    mret removed.

(** ** Citations *)

Record SchemaCitationInput := mkCitation {
  channel_owner : string;
  channel_id : string;
  channel_hash : list Z;
  channel_producer_uids : list string;
  cited_id : string;
  cited_owner : string;
  expected_hash : list Z;
  check_registry_record : bool;
}.

Definition show_id (s : string) : string :=
  if str_empty s then "(anonymous)" else "'" +:+ s +:+ "'".
Definition show_owner (s : string) : string :=
  if str_empty s then "(none)" else "'" +:+ s +:+ "'".

Definition raw_bytes (l : list Z) : string :=
  foldr (λ z s, String (Hex.chr z) s) EmptyString l.

Definition short_hash (h : list Z) : string := Hex.bytes_to_hex (raw_bytes (take 4 h)).

Definition mismatch_zone (a b : list Z) : string :=
  let db_diff := negb (bool_decide (take 32 a = take 32 b)) in
  let fz_diff := negb (bool_decide (drop 32 a = drop 32 b)) in
  if db_diff && fz_diff then "datablock+flexzone"
  else if db_diff then "datablock"
  else if fz_diff then "flexzone"
  else "none".

(** The branch chain of the validator, before the counter. *)
Definition citation_outcome (cin : SchemaCitationInput)
    (schemas : gmap (string * string) SchemaRecord) : CitationOutcome :=
  if negb (bool_decide (expected_hash cin = channel_hash cin)) then
    mkCitationOutcome kFingerprintMismatch
      ("schema fingerprint mismatch (" +:+ mismatch_zone (channel_hash cin) (expected_hash cin) +:+
       " zone): channel hash=" +:+ short_hash (channel_hash cin) +:+ "… cited hash=" +:+
       short_hash (expected_hash cin) +:+ "…")
  else if negb (cited_id cin =s channel_id cin) then
    mkCitationOutcome kSchemaIdMismatch
      ("schema id mismatch: channel id=" +:+ show_id (channel_id cin) +:+ " cited id=" +:+
       show_id (cited_id cin) +:+
       " (anonymous matches only anonymous; a named channel requires its name — HEP-CORE-0034 §9)")
  else if negb (str_empty (cited_id cin)) && negb (str_empty (cited_owner cin)) &&
          negb (cited_owner cin =s channel_owner cin) then
    mkCitationOutcome kSchemaOwnerMismatch
      ("schema owner mismatch: channel owner=" +:+ show_owner (channel_owner cin) +:+
       " claimed owner=" +:+ show_owner (cited_owner cin))
  else if check_registry_record cin && negb (str_empty (channel_id cin)) then
    let owner := channel_owner cin in
    let owner_is_channel_producer := bool_decide (owner ∈ channel_producer_uids cin) in
    if negb (owner =s "hub") && negb owner_is_channel_producer then
      mkCitationOutcome kCrossCitation
        ("schema cross-citation: owner " +:+ show_owner owner +:+
         " is neither 'hub' nor a producer of the channel (HEP-CORE-0034 §9.1)")
    else match schemas !! (owner, channel_id cin) with
         | None =>
             mkCitationOutcome kUnknownSchema
               ("schema unknown: no registry record under (owner=" +:+ show_owner owner +:+
                ", id=" +:+ show_id (channel_id cin) +:+ ")")
         | Some rec =>
             if negb (bool_decide (hash rec = channel_hash cin)) then
               mkCitationOutcome kFingerprintMismatch
                 ("schema fingerprint mismatch (" +:+ mismatch_zone (hash rec) (channel_hash cin) +:+
                  " zone): registry record (owner=" +:+ show_owner owner +:+ ", id=" +:+
                  show_id (channel_id cin) +:+ ") hash=" +:+ short_hash (hash rec) +:+
                  "… differs from channel hash=" +:+ short_hash (channel_hash cin) +:+ "…")
             else mkCitationOutcome kOk ""
         end
  else mkCitationOutcome kOk "".

Definition _validate_schema_citation (cin : SchemaCitationInput) : M CitationOutcome :=
  out ← gets (λ h, citation_outcome cin (schemas_ h));
  _ ← (if ok out then mret tt
       else modify (λ h, h <| counters_ ::= λ c,
              c <| schema_citation_rejected_total ::= u64_succ |> |>));
  mret out.

(** ** The contract of the validator *)

(** Step 2: the joiner matches the channel on every axis it declares. *)
Definition matches_channel (cin : SchemaCitationInput) : Prop :=
  expected_hash cin = channel_hash cin ∧ cited_id cin = channel_id cin ∧
  (cited_id cin ≠ "" → cited_owner cin ≠ "" → cited_owner cin = channel_owner cin).

(** Step 3: an explicit citation of a named schema resolves in the registry. *)
Definition resolves (cin : SchemaCitationInput) (schemas : gmap (string * string) SchemaRecord) :
    Prop :=
  check_registry_record cin = true → channel_id cin ≠ "" →
  (channel_owner cin = "hub" ∨ channel_owner cin ∈ channel_producer_uids cin) ∧
  ∃ rec, schemas !! (channel_owner cin, channel_id cin) = Some rec ∧ hash rec = channel_hash cin.

(** A citation is accepted exactly when the joiner matches the channel on
    fingerprint, schema id and (when it names one) owner, and, for an explicit
    citation of a named schema, the record exists under the hub or a producer
    of the channel with the channel's fingerprint.  An accepted citation leaves
    the hub state as it was; a rejected one only bumps the rejection counter. *)
Theorem citation_accepted_iff cin env h :
  (reason (result (_validate_schema_citation cin) env h) = kOk ↔
     matches_channel cin ∧ resolves cin (schemas_ h)) ∧
  exec (_validate_schema_citation cin) env h =
    (if ok (result (_validate_schema_citation cin) env h) then h
     else h <| counters_ ::= λ c, c <| schema_citation_rejected_total ::= u64_succ |> |>).
Proof.
  unfold _validate_schema_citation. run. split; [|by rewrite exec_if].
  unfold citation_outcome, matches_channel, resolves, str_eqb.
  case_bool_decide as H1; cbn [negb]; [|by split; [|intros [(? & ? & ?) _]]].
  case_bool_decide as H2; cbn [negb]; [|by split; [|intros [(? & ? & ?) _]]].
  destruct (negb (str_empty (cited_id cin)) && negb (str_empty (cited_owner cin)) && _) eqn:H3.
  { cbn. split; [done|]. intros [(_ & _ & H) _]. bool_facts.
    destruct H3 as []. apply H; by apply str_empty_false. }
  assert (H3' : cited_id cin ≠ "" → cited_owner cin ≠ "" → cited_owner cin = channel_owner cin).
  { intros Hi%str_empty_false Ho%str_empty_false. rewrite Hi, Ho in H3. cbn in H3. by bool_facts. }
  destruct (check_registry_record cin && negb (str_empty (channel_id cin))) eqn:H4; cbn.
  - bool_facts. apply str_empty_false in H0. rewrite H.
    destruct (negb (bool_decide (channel_owner cin = "hub")) && _) eqn:H5; cbn.
    + bool_facts. split; [done|]. intros [_ Hr]. destruct (Hr eq_refl H0) as ([?|?] & _); done.
    + assert (channel_owner cin = "hub" ∨ channel_owner cin ∈ channel_producer_uids cin) as Hown.
      { apply andb_false_iff in H5 as [?|?]; bool_facts; auto. }
      destruct (schemas_ h !! _) as [rec|] eqn:Hrec; cbn;
        [destruct (bool_decide (hash rec = channel_hash cin)) eqn:Hh; bool_facts; cbn|].
      * split; [|done]. intros _. split; [done|]. intros _ _. eauto.
      * split; [done|]. intros [_ Hr]. destruct (Hr eq_refl H0) as (_ & r & ? & ?). congruence.
      * split; [done|]. intros [_ Hr]. destruct (Hr eq_refl H0) as (_ & r & ? & ?). congruence.
  - split; [|done]. intros _. split; [done|]. intros Hc Hi%str_empty_false.
    by rewrite Hc, Hi in H4.
Qed.

(** Registering a schema record: an ill-formed record (no owner, no id, no
    zone, or a present zone without its packing) is refused and nothing
    changes; a record under a free (owner, id) key is stored with the
    registration time and counted; one under a taken key never changes the
    stored record, and is idempotent exactly when the 64-byte fingerprints are
    equal. *)
Theorem schema_registration_outcome rec env h :
  let m := _on_schema_registered rec in
  let key := (owner_uid rec, sr_schema_id rec) in
  match result m env h with
  | kForbiddenOwner =>
      exec m env h = h ∧
      (owner_uid rec = "" ∨ sr_schema_id rec = "" ∨
       (blds rec = "" ∧ sr_flexzone_blds rec = "") ∨
       (blds rec ≠ "" ∧ packing rec = "") ∨
       (sr_flexzone_blds rec ≠ "" ∧ flexzone_packing rec = ""))
  | kCreated =>
      schemas_ h !! key = None ∧
      exec m env h = (h <| schemas_ ::= <[key := rec <| registered_at := system_now env |>]> |>
                        <| counters_ ::= λ c, c <| schema_registered_total ::= u64_succ |> |>)
  | kIdempotent => exec m env h = h ∧ ∃ old, schemas_ h !! key = Some old ∧ hash old = hash rec
  | kHashMismatchSelf =>
      exec m env h = h ∧ ∃ old, schemas_ h !! key = Some old ∧ hash old ≠ hash rec
  end.
Proof.
  cbv zeta. unfold _on_schema_registered, has_datablock, has_flexzone.
  assert (Hse : ∀ s, str_empty s = true → s = "") by (intros; by apply str_empty_true).
  assert (Hsn : ∀ s, str_empty s = false → s ≠ "") by (intros; by apply str_empty_false).
  destruct (str_empty (owner_uid rec)) eqn:E1; [cbn; auto|].
  destruct (str_empty (sr_schema_id rec)) eqn:E2; [cbn; auto|].
  destruct (str_empty (blds rec)) eqn:E3, (str_empty (sr_flexzone_blds rec)) eqn:E4,
    (str_empty (packing rec)) eqn:E5, (str_empty (flexzone_packing rec)) eqn:E6;
    cbn [negb andb orb]; run; try (split; [done|]; naive_solver).
  all: unfold schema_records_equivalent;
    destruct (schemas_ h !! _) as [old|] eqn:Ho; run; [|done];
    case_bool_decide; cbn; (split; [done|]); by exists old.
Qed.

(** Eviction by owner: every record of the owner goes and no other is
    touched; records of the hub are never evicted; the count returned is the
    number removed. *)
Theorem eviction_is_exact owner env h :
  let m := _on_schemas_evicted_for_owner owner in
  (∀ k, schemas_ (exec m env h) !! k =
        if bool_decide (k.1 = owner ∧ owner ≠ "" ∧ owner ≠ "hub") then None else schemas_ h !! k) ∧
  (result m env h + size (schemas_ (exec m env h)) = size (schemas_ h))%nat.
Proof.
  cbv zeta. unfold _on_schemas_evicted_for_owner.
  destruct (str_empty owner) eqn:E1; run.
  { apply str_empty_true in E1 as ->. split; [|done]. intros k.
    rewrite bool_decide_eq_false_2 by naive_solver. done. }
  destruct (owner =s "hub") eqn:E2; run; bool_facts.
  { subst. split; [|done]. intros k. rewrite bool_decide_eq_false_2 by naive_solver. done. }
  apply str_empty_false in E1. split.
  - intros k. cbn. rewrite map_lookup_filter. case_bool_decide as Hk.
    + destruct (schemas_ h !! k); cbn; [|done]. case_guard; naive_solver.
    + destruct (schemas_ h !! k); cbn; [|done]. case_guard; [done|]. naive_solver.
  - cbn. pose proof (size_filter_le (λ kv : string * string * SchemaRecord, kv.1.1 ≠ owner)
      (schemas_ h)). lia.
Qed.
End SchemaRegistry.
