(* ===== verification/HubOps.v ===== *)
(** * Hub state: the capability operations
    (src/src/utils/ipc/hub_state.cpp, the [_on_*] layer)

    Each operation is the whole C++ function: identifier validation, the
    checks and early returns in the code's order, every map it touches, the
    handlers it fires and the dispatches it ends with. *)

From S2P Require Import Prelude.
From S2P Require Import Json.
From S2P Require Import Naming.
From S2P Require Import Ledger.
From S2P Require Import ReplayGuard.
From S2P Require Import ConsoleBuffer.
From S2P Require Import Entries.
From S2P Require Import HubCore.
Import Json Entries HubCore.

Module HubOps.

Abbreviation valid_channel s := (Naming.is_valid_identifier s Naming.Channel).
Abbreviation valid_role_uid s := (Naming.is_valid_identifier s Naming.RoleUid).
Abbreviation valid_peer_uid s := (Naming.is_valid_identifier s Naming.PeerUid).
Abbreviation valid_band s := (Naming.is_valid_identifier s Naming.Band).
Abbreviation valid_schema s := (Naming.is_valid_identifier s Naming.Schema).

(** ** Role upsert *)

Definition upsert_presence_row_locked (channel role_type : string) (now : Z) (r : RoleEntry) :
    RoleEntry :=
  if str_empty channel || str_empty role_type then r
  else match find_presence channel role_type r with
       | Some _ => r
       | None => r <| presences ::= λ ps, ps ++ [new_presence channel role_type now] |>
       end.

(** The entry the upsert stores for [uid], from the entry found there. *)
Definition upserted_role (env : Env) (uid tag name pubkey_z85 added_channel role_type : string)
    (found : option RoleEntry) : RoleEntry :=
  match found with
  | None =>
      let r := mkRoleEntry uid name tag
                 (if str_empty added_channel then [] else [added_channel])
                 (system_now env) pubkey_z85 [] in
      upsert_presence_row_locked added_channel role_type (steady_now env) r
  | Some ex =>
      let ex := ex <| re_name := name |> <| re_short_tag := tag |> in
      let ex := if str_empty pubkey_z85 then ex else ex <| re_pubkey_z85 := pubkey_z85 |> in
      let ex := if negb (str_empty added_channel) && bool_decide (added_channel ∉ channels ex)
                then ex <| channels ::= λ cs, cs ++ [added_channel] |> else ex in
      upsert_presence_row_locked added_channel role_type (steady_now env) ex
  end.

Definition upsert_role_locked (uid pubkey_z85 added_channel role_type : string) : M RoleEntry :=
  env ← ask;
  match Naming.parse_role_uid uid with
  | None => mret (default_role (system_now env))
  | Some parts =>
      found ← gets (λ h, roles_ h !! uid);
      let r := upserted_role env uid (Naming.tag parts) (Naming.name parts) pubkey_z85
                 added_channel role_type found in
      _ ← modify (λ h, h <| roles_ ::= <[uid := r]> |>);
      mret r
  end.

(** ** Channel open *)

Definition _open_channel_locked (channel_name : string) (schema : ChannelSchemaInvariants)
    (transport : ChannelTransportInvariants) (topo : ChannelTopology) :
    M (string + ChannelEntry) :=
  env ← ask;
  if negb (transport_compatible topo (ti_data_transport transport))
  then mret (inl "TOPOLOGY_NOT_SUPPORTED_FOR_TRANSPORT")
  else
    let entry := mkChannelEntry channel_name (si_schema_hash schema) (si_schema_id schema)
      (si_schema_blds schema) (si_flexzone_blds schema) (si_schema_owner schema) [] []
      (ti_data_transport transport) topo None (system_now env) in
    _ ← modify (λ h, h <| channels_ ::= <[channel_name := entry]> |>);
    mret (inr entry).

(** The test-scaffolding registration path. *)
Definition _on_channel_registered (entry : ChannelEntry) : M unit :=
  if negb (valid_channel (ch_name entry)) then bump_invalid_identifier
  else if existsb (λ p, negb (str_empty (p_role_uid p)) && negb (valid_role_uid (p_role_uid p)))
            (producers entry) then bump_invalid_identifier
  else if negb (str_empty (ch_schema_id entry)) && negb (valid_schema (ch_schema_id entry))
  then bump_invalid_identifier
  else
    let producer_uid := default "" (p_role_uid <$> first_producer entry) in
    let producer_pubkey := default "" (p_zmq_pubkey <$> first_producer entry) in
    let has_shm := ch_data_transport entry =s "shm" in
    _ ← _set_channel_opened entry;
    _ ← (if str_empty producer_uid then mret tt
         else fired ← upsert_role_locked producer_uid producer_pubkey (ch_name entry) "producer";
              fire (RoleRegistered fired));
    if has_shm then _set_shm_block (mkShmBlockRef (ch_name entry) (ch_name entry)) else mret tt.

(** ** Producer admission *)

(** The critical section of [_on_producer_added]: the rejection to return, or
    the accepting result and the channel entry to announce when one was
    opened. *)
Definition admit_producer_locked (channel_name : string) (schema : ChannelSchemaInvariants)
    (transport : ChannelTransportInvariants) (declared_topology : option ChannelTopology)
    (producer : ProducerEntry) :
    M (ProducerAdmissionResult + ProducerAdmissionResult * option ChannelEntry) :=
  let result := default_producer_result in
  o ← gets (λ h, channels_ h !! channel_name);
  match o with
  | None =>
      opened ← _open_channel_locked channel_name schema transport
                 (default OneToOne declared_topology);
      match opened with
      | inl open_err => mret (inl (result <| pr_topology_error_code := Some open_err |>))
      | inr new_entry =>
          match add_producer producer new_entry with
          | (ProducerCreated, ch') =>
              _ ← modify (λ h, h <| channels_ ::= <[channel_name := ch']> |>);
              mret (inr (result <| producer_result := ProducerCreated |>
                           <| pr_invariant_result := InvCreated |>
                           <| pr_channel_opened := true |>, Some ch'))
          | (r, _) =>
              _ ← modify (λ h, h <| channels_ ::= delete channel_name |>);
              mret (inl (result <| producer_result := r |>))
          end
      end
  | Some cur =>
      if negb (ch_data_transport cur =s ti_data_transport transport) then
        mret (inl (result <| pr_invariant_result := RejectedMismatch |>
                     <| mismatched_invariant := "data_transport" |>))
      else if match declared_topology with
              | Some t => bool_decide (t ≠ topology cur)
              | None => false
              end
      then mret (inl (result <| pr_topology_error_code := Some "TOPOLOGY_MISMATCH" |>))
      else
        let same_uid_reregister :=
          negb (str_empty (p_role_uid producer)) &&
          bool_decide (is_Some (find_producer (p_role_uid producer) cur)) in
        match (if same_uid_reregister then None
               else check_cardinality (topology cur) SideProducer
                      (length (producers cur)) (length (consumers cur))) with
        | Some err => mret (inl (result <| pr_topology_error_code := Some err |>))
        | None =>
            let '(r, ch') := add_producer producer cur in
            let result := result <| pr_invariant_result := IdempotentEqual |>
                            <| producer_result := r |> in
            match r with
            | ProducerCreated =>
                _ ← modify (λ h, h <| channels_ ::= <[channel_name := ch']> |>);
                mret (inr (result <| pr_channel_opened := false |>, None))
            | _ => mret (inl result)
            end
        end
  end.

Definition _on_producer_added (channel_name : string) (schema : ChannelSchemaInvariants)
    (transport : ChannelTransportInvariants) (declared_topology : option ChannelTopology)
    (producer : ProducerEntry) : M ProducerAdmissionResult :=
  if negb (valid_channel channel_name) ||
     (negb (str_empty (p_role_uid producer)) && negb (valid_role_uid (p_role_uid producer))) ||
     (negb (str_empty (si_schema_id schema)) && negb (valid_schema (si_schema_id schema)))
  then
    _ ← bump_invalid_identifier;
    mret (default_producer_result <| pr_invalid_identifier := true |>)
  else
    let producer_uid := p_role_uid producer in
    let producer_pubkey := p_zmq_pubkey producer in
    let has_shm := ti_data_transport transport =s "shm" in
    locked ← admit_producer_locked channel_name schema transport declared_topology producer;
    match locked with
    | inl rejected => mret rejected
    | inr (res, fired_entry) =>
        _ ← (if str_empty producer_uid then mret tt
             else
               _ ← modify (λ h, h <| producer_instance_ ::= bump producer_uid 1 |>);
               modify (reset_confirmation channel_name producer_uid));
        _ ← match fired_entry with
            | Some e => fire (ChannelOpened e)
            | None => mret tt
            end;
        _ ← (if str_empty producer_uid then mret tt
             else fired ← upsert_role_locked producer_uid producer_pubkey channel_name "producer";
                  fire (RoleRegistered fired));
        _ ← match fired_entry with
            | Some _ => if has_shm then _set_shm_block (mkShmBlockRef channel_name channel_name)
                        else mret tt
            | None => mret tt
            end;
        mret res
    end.

(** ** Channel close *)

(** A role's presence on [channel] ends: [on_dereg] then
    [drop_channel_if_orphaned]. *)
Definition end_presence (channel role_type : string) (r : RoleEntry) : RoleEntry :=
  (drop_channel_if_orphaned channel (on_dereg channel role_type r).2).2.

Definition nonempty_uids (l : list string) : list string := filter (λ u, u ≠ "") l.

Definition _on_channel_closed (name : string) (why : ChannelCloseReason) : M unit :=
  if negb (valid_channel name) then bump_invalid_identifier
  else
    o ← gets (λ h, channels_ h !! name);
    let producer_uids := match o with
      | Some ch => nonempty_uids (p_role_uid <$> producers ch) | None => [] end in
    let consumer_uids := match o with
      | Some ch => nonempty_uids (c_role_uid <$> consumers ch) | None => [] end in
    _ ← _set_channel_closed name;
    _ ← modify (λ h, h <| roles_ ::= λ rs,
          foldl (λ rs u, alter (end_presence name "consumer") u rs)
            (foldl (λ rs u, alter (end_presence name "producer") u rs) rs producer_uids)
            consumer_uids |>
        <| shm_blocks_ ::= delete name |>);
    _ ← _bump_counter ("close:" +:+ close_reason_to_string why) 1;
    _ ← for_each _dispatch_role_disconnected_if_dead producer_uids;
    for_each _dispatch_role_disconnected_if_dead consumer_uids.

Definition _on_producer_dropped (channel_name role_uid : string) (reason : ChannelCloseReason) :
    M RemoveProducerResult :=
  let result := mkRemoveProducerResult false false in
  if negb (valid_channel channel_name) || negb (valid_role_uid role_uid) then
    _ ← bump_invalid_identifier; mret result
  else
    o ← gets (λ h, channels_ h !! channel_name);
    match o with
    | None => mret result
    | Some ch =>
        match find_producer role_uid ch with
        | None => mret result
        | Some _ =>
            if bool_decide (producer_count ch = 1%nat) then
              _ ← _on_channel_closed channel_name reason;
              mret (mkRemoveProducerResult true true)
            else
              let '(rm, ch') := remove_producer role_uid ch in
              found ← gets (λ h, roles_ h !! role_uid);
              _ ← modify (λ h, h <| channels_ ::= <[channel_name := ch']> |>
                                 <| roles_ ::= alter (end_presence channel_name "producer") role_uid |>);
              _ ← modify (reset_confirmation channel_name role_uid);
              _ ← (if bool_decide (is_Some found)
                   then _dispatch_role_disconnected_if_dead role_uid else mret tt);
              mret (mkRemoveProducerResult (removed rm) false)
        end
    end.

(** ** Consumer admission *)

Definition _add_consumer (channel : string) (entry : ConsumerEntry)
    (declared_topology : option ChannelTopology) (open_schema : option ChannelSchemaInvariants)
    (open_transport : option ChannelTransportInvariants) : M ConsumerAdmissionResult :=
  let result := default_consumer_result in
  o ← gets (λ h, channels_ h !! channel);
  match o with
  | None =>
      match declared_topology, open_schema, open_transport with
      | Some FanIn, Some schema, Some transport =>
          opened ← _open_channel_locked channel schema transport FanIn;
          match opened with
          | inl open_err => mret (result <| cr_topology_error_code := Some open_err |>)
          | inr new_entry =>
              let ch' := new_entry <| consumers ::= λ cs, cs ++ [entry] |> in
              _ ← modify (λ h, h <| channels_ ::= <[channel := ch']> |>);
              _ ← fire (ChannelOpened ch');
              _ ← fire (ConsumerAdded channel entry);
              mret (result <| admitted := true |> <| cr_channel_opened := true |>
                      <| cr_invariant_result := InvCreated |>)
          end
      | _, _, _ => mret result
      end
  | Some channel_entry =>
      if match declared_topology with
         | Some t => bool_decide (t ≠ topology channel_entry)
         | None => false
         end
      then mret (result <| cr_topology_error_code := Some "TOPOLOGY_MISMATCH" |>)
      else
        let cons := consumers channel_entry in
        let is_dupe c := negb (str_empty (c_role_uid entry)) && (c_role_uid c =s c_role_uid entry) in
        let is_reregistration := existsb is_dupe cons in
        match (if is_reregistration then None
               else check_cardinality (topology channel_entry) SideConsumer
                      (length (producers channel_entry)) (length cons)) with
        | Some err => mret (result <| cr_topology_error_code := Some err |>)
        | None =>
            let cons' := filter (λ c, is_dupe c = false) cons ++ [entry] in
            _ ← modify (λ h, h <| channels_ ::=
                          <[channel := channel_entry <| consumers := cons' |>]> |>);
            _ ← fire (ConsumerAdded channel entry);
            mret (result <| admitted := true |> <| cr_invariant_result := IdempotentEqual |>)
        end
  end.

Definition _on_consumer_joined (channel : string) (consumer : ConsumerEntry)
    (declared_topology : option ChannelTopology) (open_schema : option ChannelSchemaInvariants)
    (open_transport : option ChannelTransportInvariants) : M ConsumerAdmissionResult :=
  if negb (valid_channel channel) ||
     (negb (str_empty (c_role_uid consumer)) && negb (valid_role_uid (c_role_uid consumer))) ||
     match open_schema with
     | Some s => negb (str_empty (si_schema_id s)) && negb (valid_schema (si_schema_id s))
     | None => false
     end
  then
    _ ← bump_invalid_identifier;
    mret (default_consumer_result <| cr_invalid_identifier := true |>)
  else
    let consumer_uid := c_role_uid consumer in
    result ← _add_consumer channel consumer declared_topology open_schema open_transport;
    if negb (admitted result) then mret result
    else
      _ ← (if str_empty consumer_uid then mret tt
           else fired ← upsert_role_locked consumer_uid "" channel "consumer";
                fire (RoleRegistered fired));
      mret result.

Definition _on_consumer_left (channel role_uid : string) : M unit :=
  if negb (valid_channel channel) ||
     (negb (str_empty role_uid) && negb (valid_role_uid role_uid))
  then bump_invalid_identifier
  else
    _ ← _remove_consumer channel role_uid;
    if str_empty role_uid then mret tt
    else
      o ← gets (λ h, roles_ h !! role_uid);
      match o with
      | None => mret tt
      | Some _ =>
          _ ← modify (λ h, h <| roles_ ::= alter (end_presence channel "consumer") role_uid |>);
          _dispatch_role_disconnected_if_dead role_uid
      end.

(** ** Presence FSM *)

Definition set_metrics (metrics : option json) (now : Z) (channel role_type : string)
    (r : RoleEntry) : RoleEntry :=
  match metrics with
  | None => r
  | Some m => r <| presences ::= alter_by presence_key
                (λ p, p <| latest_metrics := m |> <| metrics_collected_at := now |>)
                (channel, role_type) |>
  end.

Definition _on_heartbeat (channel role_uid role_type : string) (when : Z) (metrics : option json) :
    M HeartbeatEffect :=
  if negb (valid_channel channel) ||
     (negb (str_empty role_uid) && negb (valid_role_uid role_uid))
  then _ ← bump_invalid_identifier; mret default_heartbeat_effect
  else if str_empty role_uid || str_empty role_type then mret default_heartbeat_effect
  else
    env ← ask;
    o ← gets (λ h, roles_ h !! role_uid);
    match o with
    | None => mret default_heartbeat_effect
    | Some r =>
        let '(eff, r') := on_heartbeat channel role_type when r in
        if negb (presence_found eff) then mret default_heartbeat_effect
        else
          _ ← (if bool_decide (prev_state eff = Pending)
               then modify (λ h, h <| counters_ ::= λ c,
                                     c <| pending_to_ready_total ::= u64_succ |> |>)
               else mret tt);
          let r'' := set_metrics metrics (system_now env) channel role_type r' in
          _ ← modify (λ h, h <| roles_ ::= <[role_uid := r'']> |>);
          let transitioned_to_live :=
            negb (was_first_heartbeat_seen eff) || bool_decide (prev_state eff ≠ Connected) in
          _ ← (if (role_type =s "producer") && transitioned_to_live then
                 c ← gets (λ h, channels_ h !! channel);
                 match c with
                 | None => mret tt
                 | Some ch =>
                     rs ← gets roles_;
                     fire (ChannelStatusChanged ch (compute_channel_observable ch rs))
                 end
               else mret tt);
          mret eff
    end.

(** With no channel entry the code announces a default-constructed one as
    [kAbsent]. *)
Definition _on_heartbeat_timeout (channel role_uid role_type : string) : M unit :=
  if negb (valid_channel channel) ||
     (negb (str_empty role_uid) && negb (valid_role_uid role_uid))
  then bump_invalid_identifier
  else if str_empty role_uid || str_empty role_type then mret tt
  else
    env ← ask;
    o ← gets (λ h, roles_ h !! role_uid);
    match o with
    | None => mret tt
    | Some r =>
        let '(te, r') := on_heartbeat_timeout channel role_type (steady_now env) r in
        if bool_decide (te ≠ ToPending) then mret tt
        else
          _ ← modify (λ h, h <| roles_ ::= <[role_uid := r']> |>
                             <| counters_ ::= λ c, c <| ready_to_pending_total ::= u64_succ |> |>);
          if role_type =s "producer" then
            c ← gets (λ h, channels_ h !! channel);
            rs ← gets roles_;
            fire (match c with
                  | Some ch => ChannelStatusChanged ch (compute_channel_observable ch rs)
                  | None => ChannelStatusChanged (default_channel (system_now env)) kAbsent
                  end)
          else mret tt
    end.

Definition bump_pending_to_deregistered : M unit :=
  modify (λ h, h <| counters_ ::= λ c, c <| pending_to_deregistered_total ::= u64_succ |> |>).

Definition pending_timeout_consumer (channel role_uid : string) : M RemoveProducerResult :=
  let result := mkRemoveProducerResult false false in
  c ← gets (λ h, channels_ h !! channel);
  r ← gets (λ h, roles_ h !! role_uid);
  match c, r with
  | Some ch, Some ro =>
      let '(te, ro') := on_pending_timeout channel "consumer" ro in
      if bool_decide (te ≠ ToDisconnected) then mret result
      else
        _ ← bump_pending_to_deregistered;
        let '(rm, ch') := remove_consumer role_uid ch in
        _ ← modify (λ h, h <| channels_ ::= <[channel := ch']> |>
              <| roles_ ::= <[role_uid := (drop_channel_if_orphaned channel ro').2]> |>);
        _ ← _dispatch_role_disconnected_if_dead role_uid;
        mret (mkRemoveProducerResult rm false)
  | _, _ => mret result
  end.

Definition pending_timeout_producer (channel role_uid : string) : M RemoveProducerResult :=
  let result := mkRemoveProducerResult false false in
  c ← gets (λ h, channels_ h !! channel);
  r ← gets (λ h, roles_ h !! role_uid);
  match c ≫= (λ ch, _ ← find_producer role_uid ch; Some ch), r with
  | Some ch, Some ro =>
      let '(te, ro') := on_pending_timeout channel "producer" ro in
      if bool_decide (te ≠ ToDisconnected) then mret result
      else
        _ ← bump_pending_to_deregistered;
        if bool_decide (producer_count ch = 1%nat) then
          _ ← modify (λ h, h <| roles_ ::= <[role_uid := ro']> |>);
          _ ← _on_channel_closed channel HeartbeatTimeout;
          mret (mkRemoveProducerResult true true)
        else
          let '(rm, ch') := remove_producer role_uid ch in
          _ ← modify (λ h, h <| channels_ ::= <[channel := ch']> |>
                <| roles_ ::= <[role_uid := (drop_channel_if_orphaned channel ro').2]> |>);
          _ ← modify (reset_confirmation channel role_uid);
          _ ← _dispatch_role_disconnected_if_dead role_uid;
          mret (mkRemoveProducerResult (removed rm) false)
  | _, _ => mret result
  end.

Definition _on_pending_timeout (channel role_uid role_type : string) : M RemoveProducerResult :=
  let result := mkRemoveProducerResult false false in
  if negb (valid_channel channel) || negb (valid_role_uid role_uid)
  then _ ← bump_invalid_identifier; mret result
  else if str_empty role_type then mret result
  else if role_type =s "consumer" then pending_timeout_consumer channel role_uid
  else pending_timeout_producer channel role_uid.

(** ** Bands and peers *)

Definition _on_band_joined (band : string) (member : BandMember) : M unit :=
  if negb (valid_band band) ||
     (negb (str_empty (bm_role_uid member)) && negb (valid_role_uid (bm_role_uid member)))
  then bump_invalid_identifier
  else
    _ ← _set_band_joined band member;
    if str_empty (bm_role_uid member) then mret tt
    else fired ← upsert_role_locked (bm_role_uid member) "" "" "";
         fire (RoleRegistered fired).

Definition _on_band_left (band role_uid : string) : M unit :=
  if negb (valid_band band) ||
     (negb (str_empty role_uid) && negb (valid_role_uid role_uid))
  then bump_invalid_identifier
  else _set_band_left band role_uid "voluntary".

Definition _on_peer_connected (p : PeerEntry) : M unit :=
  if negb (valid_peer_uid (pe_uid p)) then bump_invalid_identifier else _set_peer_connected p.

Definition _on_peer_disconnected (hub_uid : string) : M unit :=
  if negb (valid_peer_uid hub_uid) then bump_invalid_identifier
  else _set_peer_disconnected hub_uid.

(** ** Channel access *)

Definition _on_channel_access_opened (channel_name : string) : M unit :=
  if negb (valid_channel channel_name) then bump_invalid_identifier
  else
    o ← gets (λ h, channel_access_index h !! channel_name);
    match o with
    | Some _ => mret tt
    | None => modify (λ h, h <| channel_access_index ::=
                <[channel_name := mkChannelAccessEntry Ledger.empty_ledger]> |>)
    end.

Definition _on_channel_access_closed (channel_name : string) : M unit :=
  if negb (valid_channel channel_name) then bump_invalid_identifier
  else modify (λ h, h <| channel_access_index ::= delete channel_name |>).

Definition _on_consumer_authorized (channel_name pubkey_z85 : string) : M unit :=
  if negb (valid_channel channel_name) || str_empty pubkey_z85 then bump_invalid_identifier
  else modify (λ h, h <| channel_access_index ::=
         alter (λ a, a <| ledger ::= λ l, (Ledger.admit_ pubkey_z85 l).2 |>) channel_name |>).

Definition _on_consumer_revoked (channel_name pubkey_z85 : string) : M unit :=
  if negb (valid_channel channel_name) || str_empty pubkey_z85 then bump_invalid_identifier
  else modify (λ h, h <| channel_access_index ::=
         alter (λ a, a <| ledger ::= λ l, (Ledger.revoke pubkey_z85 l).2 |>) channel_name |>).

Definition _on_role_confirmed (channel_name role_uid : string) (applied_version : Z) : M Z :=
  if negb (valid_channel channel_name) || str_empty role_uid
  then _ ← bump_invalid_identifier; mret 0
  else
    o ← gets (λ h, channel_access_index h !! channel_name);
    match o with
    | None => mret 0
    | Some a =>
        let '(v, l) := Ledger.confirm role_uid applied_version (ledger a) in
        _ ← modify (λ h, h <| channel_access_index ::=
              <[channel_name := a <| ledger := l |>]> |>);
        mret v
    end.

Definition is_role_registered_on_channel (channel_name role_uid role_type : string) (h : HubImpl) :
    bool :=
  if negb (valid_channel channel_name) || str_empty role_uid then false
  else match channels_ h !! channel_name with
       | None => false
       | Some ch =>
           if role_type =s "consumer" then existsb (λ c, c_role_uid c =s role_uid) (consumers ch)
           else if role_type =s "producer"
           then existsb (λ p, p_role_uid p =s role_uid) (producers ch)
           else false
       end.

Definition is_pubkey_visible_to (channel_name binding_role_uid pubkey_z85 : string)
    (h : HubImpl) : option bool :=
  if negb (valid_channel channel_name) || str_empty binding_role_uid || str_empty pubkey_z85
  then None
  else a ← channel_access_index h !! channel_name;
       Ledger.is_visible_to binding_role_uid pubkey_z85 (ledger a).

(** ** Replay guard, console, message counters *)

(** The guard's clock is the steady clock in milliseconds. *)
Definition nonce_seen (role_uid client_nonce : string) (window_ms now_ms : Z) : M bool :=
  g ← gets replay_guard;
  let '(fresh, g') := ReplayGuard.check_and_record role_uid client_nonce window_ms now_ms g in
  _ ← modify (λ h, h <| replay_guard := g' |>);
  mret fresh.

Definition append_console_line (dump_size : json → Z) (rid : string) (c : json) (now_ms : Z) :
    M (list ConsoleBuffer.Line) :=
  b ← gets console_buffer;
  let '(spilled, b') := ConsoleBuffer.append dump_size rid c now_ms b in
  _ ← modify (λ h, h <| console_buffer := b' |>);
  mret spilled.

Definition line_json (l : ConsoleBuffer.Line) : json :=
  JObj [("content", ConsoleBuffer.content l); ("request_id", JStr (ConsoleBuffer.request_id l));
        ("ts", JInt (ConsoleBuffer.ts_ms l))].

Definition drain_console_output : M json :=
  b ← gets console_buffer;
  let '(d, b') := ConsoleBuffer.drain b in
  _ ← modify (λ h, h <| console_buffer := b' |>);
  let nothing := bool_decide (ConsoleBuffer.d_lines d = []) &&
                 (ConsoleBuffer.dropped_count d =? 0) in
  mret (JObj [("dropped_count", JInt (ConsoleBuffer.dropped_count d));
              ("lines", JArr (line_json <$> ConsoleBuffer.d_lines d));
              ("status", JStr (if nothing then "empty" else "ok"))]).

Definition console_on_connect : M unit :=
  modify (λ h, h <| console_buffer ::= ConsoleBuffer.on_connect |>).

Definition console_on_disconnect : M (list ConsoleBuffer.Line) :=
  b ← gets console_buffer;
  let '(flushed, b') := ConsoleBuffer.on_disconnect b in
  _ ← modify (λ h, h <| console_buffer := b' |>);
  mret flushed.

Definition set_console_buffer_caps (max_lines max_bytes max_line_bytes : Z) : M unit :=
  modify (λ h, h <| console_buffer ::=
    ConsoleBuffer.set_caps (ConsoleBuffer.mkCaps max_lines max_bytes max_line_bytes) |>).

Definition _on_message_processed (msg_type : string) (bytes_in bytes_out : Z) : M unit :=
  modify (λ h, h <| counters_ ::= λ c,
    c <| msg_type_counts ::= bump msg_type 1 |>
      <| bytes_in_total ::= λ n, u64 (n + bytes_in) |>
      <| bytes_out_total ::= λ n, u64 (n + bytes_out) |> |>).
End HubOps.
