(* ===== verification/EntryFacts.v ===== *)
(** * Facts about the entry types

    Well-formedness of a role entry (the cache of channels against the
    presence rows) and of a channel entry (uniqueness of uids, cardinality,
    transport), and how each member function acts on the keys the rest of the
    hub state relies on. *)

From S2P Require Import Prelude.
From S2P Require Import Json.
From S2P Require Import Naming.
From S2P Require Import Ledger.
From S2P Require Import Entries.
From S2P Require Import HubCore.
From S2P Require Import HubOps.
Import Json Entries HubCore HubOps.

Module EntryFacts.

(** The (channel, role type) pairs a role is present on. *)
Definition keys (r : RoleEntry) : list (string * string) := presence_key <$> presences r.

(** A row whose role type is producer or consumer and whose FSM state is not
    the terminal one: terminal rows are erased, never stored. *)
Definition wf_presence (p : RolePresence) : Prop :=
  rp_channel p ≠ "" ∧ (rp_role_type p = "producer" ∨ rp_role_type p = "consumer") ∧
  rp_state p ≠ Disconnected.

Record wf_role (uid : string) (r : RoleEntry) : Prop := {
  wr_uid : re_uid r = uid;
  wr_derived : ∃ unique, Naming.parse_role_uid uid =
                 Some (Naming.mkTaggedUidParts (re_short_tag r) (re_name r) unique);
  wr_rows : Forall wf_presence (presences r);
  wr_keys : NoDup (keys r);
  wr_channels : NoDup (channels r);
  wr_cache c : c ∈ channels r ↔ c ∈ (keys r).*1;
}.

Lemma keys_channels r : (keys r).*1 = rp_channel <$> presences r.
Proof. unfold keys. rewrite <- list_fmap_compose. by apply list_fmap_ext. Qed.

Lemma find_presence_keys c t r : is_Some (find_presence c t r) ↔ (c, t) ∈ keys r.
Proof. apply find_by_is_Some. Qed.

Lemma find_presence_None c t r : find_presence c t r = None ↔ (c, t) ∉ keys r.
Proof. apply find_by_None. Qed.

(** ** [on_dereg], [drop_channel_if_orphaned], [end_presence] *)

Lemma on_dereg_eq c t r :
  (on_dereg c t r).2 = r <| presences ::= erase_by presence_key (c, t) |>.
Proof.
  unfold on_dereg. destruct (find_presence c t r) eqn:E; [done|]. cbn.
  apply find_presence_None in E. rewrite erase_by_absent by done. by destruct r.
Qed.

Lemma on_pending_timeout_dereg c t r :
  (on_pending_timeout c t r).1 = ToDisconnected →
  (on_pending_timeout c t r).2 = (on_dereg c t r).2 ∧ (c, t) ∈ keys r.
Proof.
  rewrite <- find_presence_keys. unfold on_pending_timeout, on_dereg.
  destruct (find_presence c t r); [|done]. by case_bool_decide.
Qed.

Lemma drop_channel_presences c r :
  presences (drop_channel_if_orphaned c r).2 = presences r.
Proof. unfold drop_channel_if_orphaned. by repeat case_bool_decide. Qed.

Lemma end_presence_presences c t r :
  presences (end_presence c t r) = erase_by presence_key (c, t) (presences r).
Proof. unfold end_presence. by rewrite drop_channel_presences, on_dereg_eq. Qed.

Lemma end_presence_keys c t r k :
  NoDup (keys r) → k ∈ keys (end_presence c t r) ↔ k ∈ keys r ∧ k ≠ (c, t).
Proof. intros. unfold keys. rewrite end_presence_presences. by apply erase_by_keys. Qed.

Lemma end_presence_idem c t r :
  NoDup (keys r) → end_presence c t (on_dereg c t r).2 = end_presence c t r.
Proof.
  intros Hd. unfold end_presence. do 2 f_equal. rewrite !on_dereg_eq. destruct r. cbn in *.
  f_equal. apply erase_by_absent. rewrite erase_by_keys by done. by intros [].
Qed.

Lemma drop_channel_channels c r :
  NoDup (channels r) → ∀ d,
  d ∈ channels (drop_channel_if_orphaned c r).2 ↔
  d ∈ channels r ∧ (d ≠ c ∨ c ∈ rp_channel <$> presences r).
Proof.
  intros Hd d. unfold drop_channel_if_orphaned.
  repeat case_bool_decide; cbn; [tauto| |set_solver].
  rewrite (elem_of_erase_by_NoDup id) by (by rewrite list_fmap_id). unfold id. tauto.
Qed.

Lemma drop_channel_NoDup c r :
  NoDup (channels r) → NoDup (channels (drop_channel_if_orphaned c r).2).
Proof.
  intros. unfold drop_channel_if_orphaned. repeat case_bool_decide; cbn; try done.
  rewrite <- (list_fmap_id (erase_by id c (channels r))).
  apply (NoDup_erase_by id). by rewrite list_fmap_id.
Qed.

Lemma drop_channel_scalars c r :
  re_uid (drop_channel_if_orphaned c r).2 = re_uid r ∧
  re_name (drop_channel_if_orphaned c r).2 = re_name r ∧
  re_short_tag (drop_channel_if_orphaned c r).2 = re_short_tag r.
Proof. unfold drop_channel_if_orphaned. by repeat case_bool_decide. Qed.

Lemma wf_role_end_presence uid c t r : wf_role uid r → wf_role uid (end_presence c t r).
Proof.
  intros [Hu Hd Hr Hk Hc Hcache].
  pose proof (drop_channel_scalars c (on_dereg c t r).2) as (Hs1 & Hs2 & Hs3).
  assert (Hch : NoDup (channels (on_dereg c t r).2)) by (by rewrite on_dereg_eq).
  constructor.
  - unfold end_presence. by rewrite Hs1, on_dereg_eq.
  - unfold end_presence. by rewrite Hs2, Hs3, on_dereg_eq.
  - rewrite end_presence_presences, Forall_forall in *.
    intros p Hp%elem_of_erase_by. auto.
  - unfold keys. rewrite end_presence_presences. by apply NoDup_erase_by.
  - by apply drop_channel_NoDup.
  - intros d. unfold end_presence at 1. rewrite drop_channel_channels by done.
    rewrite on_dereg_eq. cbn. rewrite Hcache.
    rewrite !keys_channels, end_presence_presences.
    rewrite !list_elem_of_fmap. setoid_rewrite elem_of_erase_by_NoDup; [|done..].
    unfold presence_key. split.
    + intros [(p & -> & Hp) [Hne|(q & -> & Hq & Hne)]]; [exists p|].
      * split_and!; [done..|]. congruence.
      * destruct (decide (rp_channel p = rp_channel q)) as [Heq|]; [by exists q|].
        exists p. split_and!; [done..|]. congruence.
    + intros (p & -> & Hp & Hne). split; [by eauto|].
      destruct (decide (rp_channel p = c)); [right|by left].
      exists p. by split_and!.
Qed.

(** ** Upsert *)

Lemma upsert_presence_keys c t now r k :
  c ≠ "" → t ≠ "" →
  k ∈ keys (upsert_presence_row_locked c t now r) ↔ k ∈ keys r ∨ k = (c, t).
Proof.
  intros Hc%str_empty_false Ht%str_empty_false.
  unfold upsert_presence_row_locked. rewrite Hc, Ht. cbn.
  destruct (find_presence c t r) eqn:E.
  - assert ((c, t) ∈ keys r) by (apply find_presence_keys; eauto). naive_solver.
  - unfold keys. cbn. rewrite fmap_app, elem_of_app. cbn. unfold presence_key at 2. cbn.
    set_solver.
Qed.

Lemma wf_role_upserted env uid parts pubkey c t found :
  Naming.parse_role_uid uid = Some parts →
  (∀ r, found = Some r → wf_role uid r) →
  (c = "" ∧ t = "") ∨ (c ≠ "" ∧ (t = "producer" ∨ t = "consumer")) →
  wf_role uid (upserted_role env uid (Naming.tag parts) (Naming.name parts) pubkey c t found).
Proof.
  intros Hp Hfound Hct.
  (* the base entry, before the presence row is added *)
  assert (Hgen : ∀ r, re_uid r = uid → re_name r = Naming.name parts →
            re_short_tag r = Naming.tag parts → Forall wf_presence (presences r) →
            NoDup (keys r) → NoDup (channels r) →
            (∀ d, d ∈ channels r ↔ d ∈ (keys r).*1 ∨ (d = c ∧ c ≠ "")) →
            wf_role uid (upsert_presence_row_locked c t (steady_now env) r)).
  { intros r Hu Hn Ht Hrows Hk Hc Hcache.
    unfold upsert_presence_row_locked.
    destruct Hct as [[-> ->]|[Hne Hty]]; cbn.
    - constructor; try done; [rewrite Hn, Ht; exists (Naming.unique parts); by destruct parts|].
      intros d. rewrite Hcache. naive_solver.
    - assert (str_empty t = false) as Ht0 by (by destruct Hty as [-> | ->]).
      rewrite (proj2 (str_empty_false c) Hne), Ht0. cbn.
      destruct (find_presence c t r) eqn:E.
      + assert ((c, t) ∈ keys r) as Hin by (apply find_presence_keys; eauto).
        constructor; try done; [rewrite Hn, Ht; exists (Naming.unique parts); by destruct parts|].
        intros d. rewrite Hcache. split; [|tauto].
        intros [?|[-> _]]; [done|]. by apply (list_elem_of_fmap_2 fst) in Hin.
      + apply find_presence_None in E.
        constructor; try done; unfold keys in *; cbn.
        * rewrite Hn, Ht. exists (Naming.unique parts). by destruct parts.
        * apply Forall_app; split; [done|]. apply Forall_singleton. by repeat split.
        * rewrite fmap_app. apply NoDup_app. split_and!; [done| |apply NoDup_singleton].
          intros k Hk1 Hk2%list_elem_of_singleton. by subst k.
        * intros d. rewrite Hcache, !fmap_app, elem_of_app. cbn. set_solver. }
  unfold upserted_role. destruct found as [ex|].
  - destruct (Hfound ex eq_refl) as [Hu (un & Hd) Hrows Hk Hc Hcache].
    assert (Hex : ∀ ex', ex' = ex <| re_name := Naming.name parts |> <| re_short_tag := Naming.tag parts |>
              ∨ ex' = ex <| re_name := Naming.name parts |> <| re_short_tag := Naming.tag parts |>
                        <| re_pubkey_z85 := pubkey |> →
              wf_role uid (upsert_presence_row_locked c t (steady_now env)
                (if negb (str_empty c) && bool_decide (c ∉ channels ex')
                 then ex' <| channels ::= λ cs, cs ++ [c] |> else ex'))).
    { intros ex' Hex'. apply Hgen;
        destruct Hex' as [-> | ->]; destruct (str_empty c) eqn:Ec; cbn;
        try case_bool_decide; cbn; try done;
        try (apply NoDup_app; split_and!; [done|set_solver|apply NoDup_singleton]);
        intros d; unfold keys in *; cbn in *; rewrite ?elem_of_app, ?list_elem_of_singleton, Hcache;
        apply str_empty_true in Ec || apply str_empty_false in Ec; try (subst c); naive_solver. }
    destruct (str_empty pubkey); apply Hex; auto.
  - apply Hgen; cbn; try done; try apply NoDup_nil_2.
    + case_match; [apply NoDup_nil_2|apply NoDup_singleton].
    + intros d. destruct (str_empty c) eqn:Ec;
        [apply str_empty_true in Ec|apply str_empty_false in Ec]; set_solver.
Qed.

Lemma upserted_role_keys env uid tag name pubkey c t found k :
  (c = "" ∧ t = "") ∨ (c ≠ "" ∧ t ≠ "") →
  k ∈ keys (upserted_role env uid tag name pubkey c t found) ↔
  (∃ r, found = Some r ∧ k ∈ keys r) ∨ (c ≠ "" ∧ k = (c, t)).
Proof.
  intros Hct.
  assert (Hup : ∀ r, k ∈ keys (upsert_presence_row_locked c t (steady_now env) r) ↔
                     k ∈ keys r ∨ (c ≠ "" ∧ k = (c, t))).
  { intros r. destruct Hct as [[-> ->]|[Hc Ht]]; [cbn; naive_solver|].
    rewrite upsert_presence_keys by done. naive_solver. }
  unfold upserted_role. destruct found as [ex|]; rewrite Hup.
  - assert (∀ e f : RoleEntry, presences e = presences f → keys e = keys f) as Hk
      by (unfold keys; congruence).
    match goal with |- k ∈ keys ?e ∨ _ ↔ _ => rewrite (Hk e ex) end; [naive_solver|].
    by destruct (str_empty pubkey), (negb _ && bool_decide _).
  - unfold keys at 1. cbn. set_solver.
Qed.

(** ** In-place row updates *)

(** [f] changes neither the key of a row nor makes it terminal. *)
Definition row_update (f : RolePresence → RolePresence) : Prop :=
  ∀ p, presence_key (f p) = presence_key p ∧
       (rp_state p ≠ Disconnected → rp_state (f p) ≠ Disconnected).

Lemma alter_row_keys f k r :
  row_update f → keys (r <| presences ::= alter_by presence_key f k |>) = keys r.
Proof. intros Hf. apply alter_by_keys. apply Hf. Qed.

Lemma Forall_alter_by {A K} `{!EqDecision K} (key : A → K) (P : A → Prop) f k l :
  (∀ x, P x → P (f x)) → Forall P l → Forall P (alter_by key f k l).
Proof.
  intros Hf. induction 1; simpl; [constructor|]. case_bool_decide; constructor; auto.
Qed.

Lemma wf_role_alter_row uid f k r :
  row_update f → wf_role uid r → wf_role uid (r <| presences ::= alter_by presence_key f k |>).
Proof.
  intros Hf [Hu Hd Hr Hk Hc Hcache].
  constructor; rewrite ?alter_row_keys by done; try done.
  cbn. apply Forall_alter_by; [|done].
  intros p (Hn & Ht & Hs). destruct (Hf p) as [[= Hk1 Hk2] Hst].
  unfold wf_presence. rewrite Hk1, Hk2. auto.
Qed.

Lemma row_update_beat when : row_update (beat when).
Proof. intros p. unfold beat. case_bool_decide; done. Qed.

Lemma row_update_pending now :
  row_update (λ p, p <| rp_state := Pending |> <| state_since := now |>).
Proof. done. Qed.

Lemma row_update_metrics m now :
  row_update (λ p, p <| latest_metrics := m |> <| metrics_collected_at := now |>).
Proof. done. Qed.

(** ** Channels *)

(** The uids attached to a channel under a role type. *)
Definition party (ty : string) (ch : ChannelEntry) : list string :=
  if ty =s "producer" then p_role_uid <$> producers ch
  else if ty =s "consumer" then c_role_uid <$> consumers ch
  else [].

(** The cardinality each topology promises. *)
Definition cardinality_ok (ch : ChannelEntry) : Prop :=
  match topology ch with
  | FanIn => (length (consumers ch) ≤ 1)%nat
  | FanOut => (length (producers ch) ≤ 1)%nat
  | OneToOne => (length (producers ch) ≤ 1)%nat ∧ (length (consumers ch) ≤ 1)%nat
  end.

Record wf_channel (name : string) (ch : ChannelEntry) : Prop := {
  wc_name : ch_name ch = name;
  wc_valid : valid_channel name = true;
  wc_producers : NoDup (p_role_uid <$> producers ch);
  wc_consumers : NoDup (nonempty_uids (c_role_uid <$> consumers ch));
  wc_cardinality : cardinality_ok ch;
  wc_transport : transport_compatible (topology ch) (ch_data_transport ch) = true;
}.

Lemma cardinality_producer ch :
  check_cardinality (topology ch) SideProducer (length (producers ch)) (length (consumers ch)) = None →
  cardinality_ok ch → topology ch = FanIn ∨ producers ch = [].
Proof.
  unfold check_cardinality, cardinality_ok.
  destruct (topology ch), (producers ch), (consumers ch); cbn; auto; done.
Qed.

Lemma cardinality_consumer ch :
  check_cardinality (topology ch) SideConsumer (length (producers ch)) (length (consumers ch)) = None →
  cardinality_ok ch → topology ch = FanOut ∨ consumers ch = [].
Proof.
  unfold check_cardinality, cardinality_ok.
  destruct (topology ch), (producers ch), (consumers ch); cbn; auto; done.
Qed.

Lemma add_producer_Created p ch ch' :
  add_producer p ch = (ProducerCreated, ch') →
  p_role_uid p ∉ (p_role_uid <$> producers ch) ∧
  ch' = (ch <| producers ::= λ ps, ps ++ [p] |>).
Proof.
  unfold add_producer, find_producer. destruct (find_by _ _ _) eqn:E; [done|].
  intros [= <-]. split; [|done]. by apply find_by_None in E.
Qed.

Lemma remove_producer_eq uid ch :
  (remove_producer uid ch).2 = (ch <| producers ::= erase_by p_role_uid uid |>).
Proof.
  unfold remove_producer. destruct (find_by _ _ _) eqn:E; [done|]. cbn.
  apply find_by_None in E. rewrite erase_by_absent by done. by destruct ch.
Qed.

Lemma remove_consumer_eq uid ch :
  (remove_consumer uid ch).2 = (ch <| consumers ::= erase_by c_role_uid uid |>).
Proof.
  unfold remove_consumer. destruct (find_by _ _ _) eqn:E; [done|]. cbn.
  apply find_by_None in E. rewrite erase_by_absent by done. by destruct ch.
Qed.

Lemma elem_of_nonempty_uids u l : u ∈ nonempty_uids l ↔ u ≠ "" ∧ u ∈ l.
Proof. unfold nonempty_uids. by rewrite list_elem_of_filter. Qed.

Lemma cardinality_fewer ch ch' :
  topology ch' = topology ch →
  (length (producers ch') ≤ length (producers ch))%nat →
  (length (consumers ch') ≤ length (consumers ch))%nat →
  cardinality_ok ch → cardinality_ok ch'.
Proof. unfold cardinality_ok. intros ->. destruct (topology ch); lia. Qed.

(** Erasing the first consumer with a non-empty uid. *)
Lemma erase_consumer uid l :
  uid ≠ "" → NoDup (nonempty_uids (c_role_uid <$> l)) →
  nonempty_uids (c_role_uid <$> erase_by c_role_uid uid l) =
  filter (λ u, u ≠ uid) (nonempty_uids (c_role_uid <$> l)).
Proof.
  intros Hne. induction l as [|c l IH]; [done|]. unfold nonempty_uids in *.
  cbn [erase_by]. rewrite fmap_cons. intros Hd. case_bool_decide as Hc.
  - subst uid. rewrite filter_cons_True in Hd |- * by done.
    apply NoDup_cons in Hd as [Hn Hd]. rewrite filter_cons_False by tauto.
    symmetry. apply filter_all. by intros x Hx ->.
  - rewrite fmap_cons. destruct (decide (c_role_uid c = "")) as [He|He].
    + rewrite !filter_cons_False in * by (by intros []). auto.
    + rewrite !(filter_cons_True (λ u, u ≠ "")) in * by done.
      apply NoDup_cons in Hd as [_ Hd]. rewrite filter_cons_True by done. f_equal. auto.
Qed.
End EntryFacts.
