(* ===== verification/HubInv.v ===== *)
(** * Invariant of the hub state

    What every reachable hub state satisfies: the channel registry, the role
    registry, the bands, the SHM blocks, the peers and the access ledgers are
    each well formed and agree with each other.  The link between channels
    and roles is exact: a role has a presence row for (channel, type) if and
    only if the channel lists its uid under that type. *)

From S2P Require Import Prelude.
From S2P Require Import Json.
From S2P Require Import Naming.
From S2P Require Import Ledger.
From S2P Require Import ReplayGuard.
From S2P Require Import ConsoleBuffer.
From S2P Require Import Entries.
From S2P Require Import HubCore.
From S2P Require Import HubOps.
From S2P Require Import EntryFacts.
Import Json Entries HubCore HubOps EntryFacts.

Module HubInv.

Implicit Types (C : gmap string ChannelEntry) (R : gmap string RoleEntry)
  (B : gmap string BandEntry) (S : gmap string ShmBlockRef) (h : HubImpl).

(** ** The two views of membership *)

Definition live (R : gmap string RoleEntry) (u n t : string) : Prop :=
  ∃ r, R !! u = Some r ∧ (n, t) ∈ keys r.

Definition member (C : gmap string ChannelEntry) (u n t : string) : Prop :=
  u ≠ "" ∧ ∃ ch, C !! n = Some ch ∧ u ∈ party t ch.

Record wf_band (R : gmap string RoleEntry) (n : string) (b : BandEntry) : Prop := {
  wb_name : band_name b = n;
  wb_valid : valid_band n = true;
  wb_nonempty : members b ≠ [];
  wb_unique : NoDup (bm_role_uid <$> members b);
  wb_roles m : m ∈ members b → bm_role_uid m ≠ "" → is_Some (R !! bm_role_uid m);
}.

Definition shm_of (n : string) (o : option ChannelEntry) : option ShmBlockRef :=
  ch ← o; if is_shm ch then Some (mkShmBlockRef n n) else None.

Record core (C : gmap string ChannelEntry) (R : gmap string RoleEntry)
    (B : gmap string BandEntry) (S : gmap string ShmBlockRef) : Prop := {
  core_channels n ch : C !! n = Some ch → wf_channel n ch;
  core_roles u r : R !! u = Some r → wf_role u r;
  core_link u n t : live R u n t ↔ member C u n t;
  core_bands n b : B !! n = Some b → wf_band R n b;
  core_shm n : S !! n = shm_of n (C !! n);
}.

Definition peers_ok (P : gmap string PeerEntry) : Prop :=
  ∀ u p, P !! u = Some p → pe_uid p = u ∧ valid_peer_uid u = true ∧ pe_state p ≠ PeerConnecting.

Definition access_ok (I : gmap string ChannelAccessEntry) : Prop :=
  ∀ n a, I !! n = Some a → valid_channel n = true ∧ Ledger.wf (ledger a).

Definition schemas_ok (S : gmap (string * string) SchemaRecord) : Prop :=
  ∀ k s, S !! k = Some s → k = (owner_uid s, sr_schema_id s) ∧ k.1 ≠ "" ∧ k.2 ≠ "" ∧
    (has_datablock s = true ∨ has_flexzone s = true).

Record Inv (h : HubImpl) : Prop := {
  inv_core : core (channels_ h) (roles_ h) (bands_ h) (shm_blocks_ h);
  inv_peers : peers_ok (peers_ h);
  inv_access : access_ok (channel_access_index h);
  inv_schemas : schemas_ok (schemas_ h);
}.

(** ** Membership under map updates *)

Lemma live_insert R uid r u n t :
  live (<[uid := r]> R) u n t ↔ (u = uid ∧ (n, t) ∈ keys r) ∨ (u ≠ uid ∧ live R u n t).
Proof.
  unfold live. destruct (decide (u = uid)) as [->|Hne].
  - rewrite lookup_insert_eq. naive_solver.
  - rewrite lookup_insert_ne by done. naive_solver.
Qed.

Lemma member_insert C name ch u n t :
  member (<[name := ch]> C) u n t ↔
  (n = name ∧ u ≠ "" ∧ u ∈ party t ch) ∨ (n ≠ name ∧ member C u n t).
Proof.
  unfold member. destruct (decide (n = name)) as [->|Hne].
  - rewrite lookup_insert_eq. naive_solver.
  - rewrite lookup_insert_ne by done. naive_solver.
Qed.

Lemma member_delete C name u n t :
  member (delete name C) u n t ↔ n ≠ name ∧ member C u n t.
Proof.
  unfold member. destruct (decide (n = name)) as [->|Hne].
  - rewrite lookup_delete_eq. naive_solver.
  - rewrite lookup_delete_ne by done. naive_solver.
Qed.

Lemma member_at C name ch u t :
  C !! name = Some ch → member C u name t ↔ u ≠ "" ∧ u ∈ party t ch.
Proof. unfold member. naive_solver. Qed.

(** ** Building the core of a new state *)

Lemma bands_mono R R' B :
  (∀ u, is_Some (R !! u) → is_Some (R' !! u)) →
  (∀ n b, B !! n = Some b → wf_band R n b) → ∀ n b, B !! n = Some b → wf_band R' n b.
Proof.
  intros Hdom HB n b [? ? ? ? Hr]%HB. constructor; try done. intros m Hm Hne. auto.
Qed.

Lemma shm_insert S C name ch ch0 :
  (∀ n, S !! n = shm_of n (C !! n)) → C !! name = Some ch0 →
  ch_data_transport ch = ch_data_transport ch0 →
  ∀ n, S !! n = shm_of n (<[name := ch]> C !! n).
Proof.
  intros HS Hc Ht n. rewrite HS. destruct (decide (n = name)) as [->|Hne].
  - rewrite lookup_insert_eq, Hc. unfold shm_of, is_shm. cbn. by rewrite Ht.
  - by rewrite lookup_insert_ne.
Qed.

(** A channel entry is replaced and a role entry written, so that the two
    sides of the link move together. *)
Lemma core_update C R B S name ch uid r S' :
  core C R B S → wf_channel name ch → wf_role uid r →
  (∀ u n t, live (<[uid := r]> R) u n t ↔ member (<[name := ch]> C) u n t) →
  (∀ n, S' !! n = shm_of n (<[name := ch]> C !! n)) →
  core (<[name := ch]> C) (<[uid := r]> R) B S'.
Proof.
  intros [HC HR HL HB HS] Hch Hr Hlink Hshm. constructor; try done.
  - intros n c. rewrite lookup_insert_Some. naive_solver.
  - intros u x. rewrite lookup_insert_Some. naive_solver.
  - eapply bands_mono; [|done]. intros u Hu. destruct (decide (uid = u)) as [->|].
    + rewrite lookup_insert_eq. eauto.
    + by rewrite lookup_insert_ne.
Qed.

(** The same with the role registry untouched: the channel's named parties
    do not change. *)
Lemma core_channel C R B S name ch S' :
  core C R B S → wf_channel name ch →
  (∀ u t, u ≠ "" → u ∈ party t ch ↔ member C u name t) →
  (∀ n, S' !! n = shm_of n (<[name := ch]> C !! n)) →
  core (<[name := ch]> C) R B S'.
Proof.
  intros [HC HR HL HB HS] Hch Hp Hshm. constructor; try done.
  - intros n c. rewrite lookup_insert_Some. naive_solver.
  - intros u n t. rewrite HL, member_insert. destruct (decide (n = name)) as [->|Hne].
    + split; [|by intros [(_ & ? & ?%Hp)|[]]].
      intros Hm. left. pose proof Hm as [Hu _]. by rewrite Hp.
    + tauto.
Qed.

(** Only rows of existing roles are refreshed. *)
Lemma core_role C R B S uid r0 r :
  core C R B S → R !! uid = Some r0 → wf_role uid r → keys r = keys r0 →
  core C (<[uid := r]> R) B S.
Proof.
  intros [HC HR HL HB HS] Hr0 Hr Hk. constructor; try done.
  - intros u x. rewrite lookup_insert_Some. naive_solver.
  - intros u n t. rewrite <- HL, live_insert, Hk. unfold live.
    destruct (decide (u = uid)) as [->|]; naive_solver.
  - eapply bands_mono; [|done]. intros u Hu. destruct (decide (uid = u)) as [->|].
    + rewrite lookup_insert_eq. eauto.
    + by rewrite lookup_insert_ne.
Qed.

(** ** Identifiers *)

Lemma valid_channel_nonempty n : valid_channel n = true → n ≠ "".
Proof. by intros H ->. Qed.

Lemma valid_role_uid_nonempty u : valid_role_uid u = true → u ≠ "".
Proof. by intros H ->. Qed.

Lemma valid_role_uid_parse u :
  valid_role_uid u = true → ∃ parts, Naming.parse_role_uid u = Some parts.
Proof. intros H. unfold Naming.parse_role_uid. rewrite H. cbn. eauto. Qed.

(** ** Joining a channel *)

Lemma core_join C R B S S' name ch uid env pubkey ty parts :
  core C R B S → wf_channel name ch → Naming.parse_role_uid uid = Some parts →
  uid ≠ "" → ty = "producer" ∨ ty = "consumer" →
  (∀ u t, u ≠ "" → u ∈ party t ch ↔ member C u name t ∨ (u = uid ∧ t = ty)) →
  (∀ n, S' !! n = shm_of n (<[name := ch]> C !! n)) →
  core (<[name := ch]> C)
    (<[uid := upserted_role env uid (Naming.tag parts) (Naming.name parts) pubkey name ty
                (R !! uid)]> R) B S'.
Proof.
  intros HI Hch Hparse Huid Hty Hparty Hshm.
  assert (Hname : name ≠ "") by (apply valid_channel_nonempty, Hch).
  assert (Hty' : ty ≠ "") by (by destruct Hty as [-> | ->]).
  apply (core_update C R B S); try done.
  - apply wf_role_upserted; [done| |by right].
    intros r Hr. by apply (core_roles _ _ _ _ HI).
  - intros u n t. rewrite live_insert, upserted_role_keys by auto.
    assert (Hold : (∃ r, R !! uid = Some r ∧ (n, t) ∈ keys r) ↔ member C uid n t)
      by apply (core_link _ _ _ _ HI).
    rewrite Hold, (core_link _ _ _ _ HI), member_insert.
    destruct (decide (n = name)) as [->|Hn], (decide (u = uid)) as [->|Hu].
    + rewrite Hparty by done. naive_solver.
    + assert (u = "" ∨ u ≠ "") as [->|Hne] by (destruct (decide (u = "")); auto).
      * unfold member. naive_solver.
      * rewrite Hparty by done. naive_solver.
    + naive_solver.
    + naive_solver.
Qed.

Lemma party_add_producer p ch u t :
  u ∈ party t (ch <| producers ::= λ ps, ps ++ [p] |>) ↔
  u ∈ party t ch ∨ (u = p_role_uid p ∧ t = "producer").
Proof.
  unfold party. cbn.
  destruct (t =s "producer") eqn:Ht; bool_facts; [|destruct (t =s "consumer"); naive_solver].
  rewrite fmap_app, elem_of_app. cbn. rewrite list_elem_of_singleton. naive_solver.
Qed.

Lemma wf_channel_add_producer name p ch :
  wf_channel name ch → p_role_uid p ∉ (p_role_uid <$> producers ch) →
  topology ch = FanIn ∨ producers ch = [] →
  wf_channel name (ch <| producers ::= λ ps, ps ++ [p] |>).
Proof.
  intros [? ? Hp ? Hcard ?] Hnew Htopo. constructor; try done; cbn.
  - rewrite fmap_app. apply NoDup_app. split_and!; [done| |apply NoDup_singleton].
    intros u Hu Hu'%list_elem_of_singleton. by subst u.
  - unfold cardinality_ok in *. cbn in *. destruct Htopo as [Ht|Hnil].
    + by rewrite Ht in *.
    + rewrite Hnil in *. cbn. destruct (topology ch); lia.
Qed.

Lemma wf_channel_opened name schema transport topo now :
  valid_channel name = true → transport_compatible topo (ti_data_transport transport) = true →
  wf_channel name (mkChannelEntry name (si_schema_hash schema) (si_schema_id schema)
    (si_schema_blds schema) (si_flexzone_blds schema) (si_schema_owner schema) [] []
    (ti_data_transport transport) topo None now).
Proof.
  intros. constructor; try done; cbn; try apply NoDup_nil_2.
  unfold cardinality_ok. cbn. destruct topo; lia.
Qed.

Lemma Inv_intro h h' :
  Inv h → core (channels_ h') (roles_ h') (bands_ h') (shm_blocks_ h') →
  peers_ h' = peers_ h → access_ok (channel_access_index h') → schemas_ h' = schemas_ h →
  Inv h'.
Proof. intros [? ? ? ?] ? Hp ? Hs. constructor; [done|by rewrite Hp|done|by rewrite Hs]. Qed.

Lemma access_ok_alter f n I :
  (∀ a, Ledger.wf (ledger a) → Ledger.wf (ledger (f a))) → access_ok I → access_ok (alter f n I).
Proof.
  intros Hf HI m a. rewrite lookup_alter_Some. intros [(-> & a0 & Ha & ->)|[_ Ha]]; [|by apply HI].
  destruct (HI _ _ Ha). auto.
Qed.

Lemma access_ok_reset h n u :
  access_ok (channel_access_index h) →
  access_ok (channel_access_index (reset_confirmation n u h)).
Proof. intros. by apply access_ok_alter; [intros; apply Ledger.wf_reset|]. Qed.

Lemma Inv_counters f h : Inv h → Inv (h <| counters_ ::= f |>).
Proof. by intros []. Qed.

Lemma Inv_bump_invalid env h : Inv h → Inv (exec bump_invalid_identifier env h).
Proof. apply Inv_counters. Qed.

(** ** Producer admission *)

(** What the critical section of [_on_producer_added] may leave behind when it
    accepts: the channel with the producer appended, everything else as it
    was. *)
Lemma admit_producer_locked_spec name schema transport declared p env h :
  Inv h → valid_channel name = true →
  let m := admit_producer_locked name schema transport declared p in
  match result m env h with
  | inl _ => exec m env h = h
  | inr (_, fired) => ∃ ch, exec m env h = (h <| channels_ ::= <[name := ch]> |>) ∧
      wf_channel name ch ∧
      (∀ u t, u ≠ "" → u ∈ party t ch ↔
                       member (channels_ h) u name t ∨ (u = p_role_uid p ∧ t = "producer")) ∧
      ch_data_transport ch = ti_data_transport transport ∧
      match fired with
      | Some e => e = ch ∧ channels_ h !! name = None
      | None => ∃ ch0, channels_ h !! name = Some ch0 ∧
                       ch_data_transport ch0 = ti_data_transport transport
      end
  end.
Proof.
  intros HI Hv. cbv zeta. unfold admit_producer_locked, _open_channel_locked. run.
  destruct (channels_ h !! name) as [cur|] eqn:Hc.
  - pose proof (core_channels _ _ _ _ (inv_core _ HI) _ _ Hc) as Hwf.
    destruct (negb (_ =s _)) eqn:Htr; [done|].
    destruct (match declared with Some t => _ | None => _ end) eqn:Htopo; [done|].
    destruct (if _ && _ then None else _) eqn:Hcard; [done|].
    destruct (add_producer p cur) as [[] ch'] eqn:Hadd; [|done].
    apply add_producer_Created in Hadd as [Hnew ->]. run.
    exists (cur <| producers ::= λ ps, ps ++ [p] |>). bool_facts.
    split_and!; [done| | |done|by exists cur].
    + apply wf_channel_add_producer; [done..|]. apply cardinality_producer; [|apply Hwf].
      destruct (negb _ && _) eqn:Hsame in Hcard; [|done]. exfalso. bool_facts. apply Hnew.
      by apply find_by_is_Some.
    + intros u t Hu. rewrite party_add_producer, (member_at _ _ _ _ _ Hc). tauto.
  - destruct (transport_compatible _ _) eqn:Htr; cbn [negb]; run; [|done].
    unfold add_producer. cbn. run. eexists. split_and!; [by cbn; rewrite insert_insert_eq|..]; try done.
    + apply (wf_channel_add_producer name p _
        (wf_channel_opened name schema transport _ (system_now env) Hv Htr)); [set_solver|by right].
    + intros u t Hu. unfold member. rewrite Hc. unfold party. cbn.
      destruct (t =s "producer") eqn:Ht; bool_facts; [set_solver|].
      destruct (t =s "consumer"); set_solver.
Qed.

Lemma exec_upsert_role uid pubkey c t parts env h :
  Naming.parse_role_uid uid = Some parts →
  exec (upsert_role_locked uid pubkey c t) env h =
  (h <| roles_ ::= <[uid := upserted_role env uid (Naming.tag parts) (Naming.name parts)
                              pubkey c t (roles_ h !! uid)]> |>).
Proof. intros Hp. unfold upsert_role_locked. rewrite exec_bind, result_ask, Hp. by run. Qed.

(** The SHM blocks once a channel entry is written, [opened] when it is new. *)
Lemma shm_after_admission C R B S name ch (opened : bool) :
  core C R B S →
  (if opened then C !! name = None
   else ∃ ch0, C !! name = Some ch0 ∧ ch_data_transport ch0 = ch_data_transport ch) →
  ∀ n, (if opened && (ch_data_transport ch =s "shm")
        then <[name := mkShmBlockRef name name]> S else S) !! n =
       shm_of n (<[name := ch]> C !! n).
Proof.
  intros HI Ho n. destruct opened; cbn.
  - destruct (decide (n = name)) as [->|Hne].
    + rewrite lookup_insert_eq. unfold shm_of, is_shm. cbn.
      destruct (ch_data_transport ch =s "shm"); [by rewrite lookup_insert_eq|].
      rewrite (core_shm _ _ _ _ HI), Ho. done.
    + rewrite lookup_insert_ne by done. rewrite <- (core_shm _ _ _ _ HI).
      case_match; [by rewrite lookup_insert_ne|done].
  - destruct Ho as (ch0 & Hc & Ht). eapply shm_insert; [apply HI|done|done].
Qed.

Lemma Inv_on_producer_added name schema transport declared p env h :
  Inv h → Inv (exec (_on_producer_added name schema transport declared p) env h).
Proof.
  intros HI. unfold _on_producer_added.
  destruct (negb _ || _ || _) eqn:Hv; [run; by apply Inv_bump_invalid|].
  apply orb_false_iff in Hv as [[Hvc Hvr]%orb_false_iff _]. apply negb_false_iff in Hvc.
  pose proof (admit_producer_locked_spec name schema transport declared p env h HI Hvc) as Hadm.
  cbv zeta in Hadm. rewrite exec_bind.
  destruct (result (admit_producer_locked _ _ _ _ _) env h) as [?|[res fired]].
  { run. by rewrite Hadm. }
  destruct Hadm as (ch & -> & Hch & Hparty & Htr & Hfired). run. rewrite <- Htr in Hfired.
  assert (Hshm := shm_after_admission _ _ _ _ name ch (if fired is Some _ then true else false)
            (inv_core _ HI) ltac:(destruct fired; naive_solver)).
  destruct (str_empty (p_role_uid p)) eqn:Hu.
  - run. apply str_empty_true in Hu.
    assert (Hcore : core (<[name := ch]> (channels_ h)) (roles_ h) (bands_ h)
              (if (if fired is Some _ then true else false) && (ch_data_transport ch =s "shm")
               then <[name := mkShmBlockRef name name]> (shm_blocks_ h) else shm_blocks_ h)).
    { apply (core_channel _ _ _ _ _ _ _ (inv_core _ HI) Hch); [|done].
      intros u t Hne. rewrite Hparty by done. naive_solver. }
    destruct fired; cbn in Hcore; rewrite ?Htr in Hcore; run;
      [destruct (ti_data_transport transport =s "shm")|]; run;
      (eapply Inv_intro; [done|done|done|apply HI|done]).
  - assert (Huid := proj1 (str_empty_false _) Hu).
    cbn in Hvr. apply negb_false_iff in Hvr.
    destruct (valid_role_uid_parse _ Hvr) as [parts Hparts].
    assert (Hcore := core_join _ _ _ _ _ name ch (p_role_uid p) env (p_zmq_pubkey p) "producer"
              parts (inv_core _ HI) Hch Hparts Huid ltac:(by left) Hparty Hshm).
    run. destruct fired; cbn in Hcore; rewrite ?Htr in Hcore; run;
      rewrite !(exec_upsert_role _ _ _ _ _ _ _ Hparts);
      [destruct (ti_data_transport transport =s "shm")|]; run;
      (eapply Inv_intro; [done|exact Hcore|done|by apply access_ok_reset, HI|done]).
Qed.

(** ** Role disconnect *)

Lemma leave_band_members now uid b :
  members (leave_band now uid b) = filter (λ x, bm_role_uid x ≠ uid) (members b).
Proof. unfold leave_band. by case_match. Qed.

Lemma leave_band_name now uid b : band_name (leave_band now uid b) = band_name b.
Proof. unfold leave_band. by case_match. Qed.

Definition bands_without (now : Z) (uid : string) (B : gmap string BandEntry) :
    gmap string BandEntry :=
  filter (λ kv, members kv.2 ≠ []) (leave_band now uid <$> B).

Lemma bands_without_Some now uid B n b :
  bands_without now uid B !! n = Some b ↔
  ∃ b0, B !! n = Some b0 ∧ b = leave_band now uid b0 ∧ members b ≠ [].
Proof.
  unfold bands_without. rewrite map_lookup_filter_Some, lookup_fmap_Some. cbn. naive_solver.
Qed.

Lemma core_erase_role C R B S now uid r :
  core C R B S → R !! uid = Some r → presences r = [] →
  core C (delete uid R) (bands_without now uid B) S.
Proof.
  intros [HC HR HL HB HS] Hr Hnil. constructor; try done.
  - intros u x [_ ?]%lookup_delete_Some. by apply HR.
  - intros u n t. rewrite <- HL. unfold live. split.
    + intros (x & [_ ?]%lookup_delete_Some & ?). by exists x.
    + intros (x & Hx & Hk). exists x. split; [|done]. apply lookup_delete_Some.
      split; [|done]. intros <-. simplify_eq. unfold keys in Hk. rewrite Hnil in Hk. set_solver.
  - intros n b (b0 & Hb0 & -> & Hne)%bands_without_Some. destruct (HB _ _ Hb0) as [Hn Hv _ Hu Hm].
    constructor; try done; [by rewrite leave_band_name|..]; rewrite leave_band_members.
    + by apply NoDup_fmap_filter.
    + intros m [Hmu Hm']%list_elem_of_filter He. rewrite lookup_delete_ne by done. auto.
Qed.

Lemma exec_erase_role uid r env h :
  exec (erase_role uid r) env h =
  (let kept := filter (λ kv, kv.1.1 ≠ uid) (schemas_ h) in
   h <| schemas_ := kept |> <| bands_ ::= bands_without (steady_now env) uid |>
     <| counters_ ::= λ c, c <| schema_evicted_total ::= λ n,
          u64 (n + Z.of_nat (size (schemas_ h) - size kept)) |> |>
     <| roles_ ::= delete uid |>).
Proof.
  unfold erase_role. run. unfold cascade_role_terminal_cleanup_locked. run.
  by rewrite exec_for_each_fire.
Qed.

Lemma schemas_ok_filter P `{!∀ x, Decision (P x)} (m : gmap (string * string) SchemaRecord) :
  schemas_ok m → schemas_ok (filter P m).
Proof. intros HS k s [? _]%map_lookup_filter_Some. by apply HS. Qed.

Lemma any_presence_alive_false r : any_presence_alive r = false ↔ presences r = [].
Proof. unfold any_presence_alive. rewrite negb_false_iff, bool_decide_eq_true. apply length_zero_iff_nil. Qed.

Lemma Inv_dispatch uid env h :
  Inv h → Inv (exec (_dispatch_role_disconnected_if_dead uid) env h).
Proof.
  intros HI. unfold _dispatch_role_disconnected_if_dead. run.
  destruct (roles_ h !! uid) as [r|] eqn:Hr; [|done].
  destruct (any_presence_alive r) eqn:Ha; [done|]. apply any_presence_alive_false in Ha.
  rewrite exec_erase_role. destruct HI as [Hc Hp Hx Hs]. constructor; cbn; try done.
  - eapply core_erase_role; eauto.
  - by apply schemas_ok_filter.
Qed.

Lemma Inv_dispatch_all uids env h :
  Inv h → Inv (exec (for_each _dispatch_role_disconnected_if_dead uids) env h).
Proof. intros HI. apply exec_for_each_ind; [|done]. intros. by apply Inv_dispatch. Qed.

(** ** Closing a channel *)

Definition end_all (name ty : string) (uids : list string) R : gmap string RoleEntry :=
  foldl (λ rs u, alter (end_presence name ty) u rs) R uids.

Definition wf_roles R : Prop := ∀ u r, R !! u = Some r → wf_role u r.

Lemma wf_roles_end name ty u R : wf_roles R → wf_roles (alter (end_presence name ty) u R).
Proof.
  intros HR v r. rewrite lookup_alter_Some.
  intros [(-> & r0 & Hr0 & ->)|[_ Hr]]; [|auto]. by apply wf_role_end_presence, HR.
Qed.

Lemma live_end_wf R uid name ty u n t :
  wf_roles R →
  live (alter (end_presence name ty) uid R) u n t ↔
  live R u n t ∧ (u, n, t) ≠ (uid, name, ty).
Proof.
  intros HR. unfold live. destruct (decide (u = uid)) as [->|Hne].
  - rewrite lookup_alter_eq. destruct (R !! uid) as [r|] eqn:Hr; cbn; [|naive_solver].
    pose proof (wr_keys _ _ (HR _ _ Hr)) as Hk. split.
    + intros (? & [= <-] & Hin%end_presence_keys); naive_solver.
    + intros ((? & [= <-] & Hin) & Hne). eexists. split; [done|].
      apply end_presence_keys; [done|]. naive_solver.
  - rewrite lookup_alter_ne by done. naive_solver.
Qed.

Lemma end_all_spec name ty uids R :
  wf_roles R →
  wf_roles (end_all name ty uids R) ∧
  (∀ u, is_Some (end_all name ty uids R !! u) ↔ is_Some (R !! u)) ∧
  (∀ u n t, live (end_all name ty uids R) u n t ↔
            live R u n t ∧ ¬ (u ∈ uids ∧ n = name ∧ t = ty)).
Proof.
  unfold end_all. revert R. induction uids as [|v uids IH]; intros R HR; cbn.
  - split_and!; [done..|]. set_solver.
  - destruct (IH _ (wf_roles_end name ty v R HR)) as (Hwf & Hdom & Hlive). split_and!; [done|..].
    + intros u. rewrite Hdom. destruct (decide (v = u)) as [->|].
      * rewrite lookup_alter_eq. by rewrite fmap_is_Some.
      * by rewrite lookup_alter_ne.
    + intros u n t. rewrite Hlive, live_end_wf, elem_of_cons by done.
      destruct (decide (u = v)); naive_solver.
Qed.

Lemma party_types t ch u : u ∈ party t ch → t = "producer" ∨ t = "consumer".
Proof.
  unfold party. destruct (t =s "producer") eqn:H1; bool_facts; [by left|].
  destruct (t =s "consumer") eqn:H2; bool_facts; [by right|set_solver].
Qed.

Lemma core_close C R B S name ch :
  core C R B S → C !! name = Some ch →
  core (delete name C)
    (end_all name "consumer" (nonempty_uids (c_role_uid <$> consumers ch))
       (end_all name "producer" (nonempty_uids (p_role_uid <$> producers ch)) R))
    B (delete name S).
Proof.
  intros [HC HR HL HB HS] Hc.
  destruct (end_all_spec name "producer" (nonempty_uids (p_role_uid <$> producers ch)) R HR)
    as (HR1 & Hd1 & HL1).
  destruct (end_all_spec name "consumer" (nonempty_uids (c_role_uid <$> consumers ch)) _ HR1)
    as (HR2 & Hd2 & HL2).
  constructor; try done.
  - intros n c [_ ?]%lookup_delete_Some. auto.
  - intros u n t. rewrite HL2, HL1, HL, member_delete, !elem_of_nonempty_uids.
    destruct (decide (n = name)) as [->|]; [|naive_solver].
    rewrite (member_at _ _ _ _ _ Hc). split; [|naive_solver].
    intros [[[Hu Hp] Hnp] Hnc]. exfalso.
    destruct (party_types _ _ _ Hp) as [-> | ->]; cbn in Hp; tauto.
  - eapply bands_mono; [|done]. intros u. by rewrite Hd2, Hd1.
  - intros n. destruct (decide (n = name)) as [->|].
    + by rewrite !lookup_delete_eq.
    + by rewrite !lookup_delete_ne.
Qed.

(** The store once the channel, its rows and its SHM block are gone, before
    the dead roles are reaped. *)
Definition closed_state (name : string) (why : ChannelCloseReason) (ch : ChannelEntry) h :
    HubImpl :=
  h <| channels_ ::= delete name |>
    <| roles_ ::= λ R,
         end_all name "consumer" (nonempty_uids (c_role_uid <$> consumers ch))
           (end_all name "producer" (nonempty_uids (p_role_uid <$> producers ch)) R) |>
    <| shm_blocks_ ::= delete name |>
    <| counters_ ::= λ c,
         c <| msg_type_counts ::= bump ("close:" +:+ close_reason_to_string why) 1 |> |>.

Lemma exec_on_channel_closed name why ch env h :
  valid_channel name = true → channels_ h !! name = Some ch →
  exec (_on_channel_closed name why) env h =
  exec (for_each _dispatch_role_disconnected_if_dead (nonempty_uids (c_role_uid <$> consumers ch)))
    env
    (exec (for_each _dispatch_role_disconnected_if_dead
             (nonempty_uids (p_role_uid <$> producers ch))) env (closed_state name why ch h)).
Proof.
  intros Hv Hc. unfold _on_channel_closed, _set_channel_closed, _bump_counter.
  rewrite Hv. cbn [negb]. run. rewrite Hc. run. done.
Qed.

Lemma exec_on_channel_closed_absent name why env h :
  valid_channel name = true → channels_ h !! name = None →
  exec (_on_channel_closed name why) env h =
  (h <| shm_blocks_ ::= delete name |>
     <| counters_ ::= λ c,
          c <| msg_type_counts ::= bump ("close:" +:+ close_reason_to_string why) 1 |> |>).
Proof.
  intros Hv Hc. unfold _on_channel_closed, _set_channel_closed, _bump_counter.
  rewrite Hv. cbn [negb]. run. rewrite Hc. run. by destruct h.
Qed.

Lemma Inv_on_channel_closed name why env h :
  Inv h → Inv (exec (_on_channel_closed name why) env h).
Proof.
  intros HI. destruct (valid_channel name) eqn:Hv.
  - destruct (channels_ h !! name) as [ch|] eqn:Hc.
    + rewrite (exec_on_channel_closed _ _ ch) by done. do 2 apply Inv_dispatch_all.
      eapply Inv_intro; [done| |done|apply HI|done]. cbn. eapply core_close; [apply HI|done].
    + rewrite exec_on_channel_closed_absent by done.
      eapply Inv_intro; [done| |done|apply HI|done]. cbn.
      destruct HI as [[HC HR HL HB HS] _ _ _]. constructor; try done.
      intros n. destruct (decide (n = name)) as [->|].
      * by rewrite lookup_delete_eq, Hc.
      * by rewrite lookup_delete_ne.
  - unfold _on_channel_closed. rewrite Hv. by apply Inv_bump_invalid.
Qed.

(** ** Leaving a channel *)

Lemma core_leave C R B S name ch ch' uid ty :
  core C R B S → C !! name = Some ch → wf_channel name ch' →
  ch_data_transport ch' = ch_data_transport ch →
  (∀ u t, u ≠ "" → u ∈ party t ch' ↔ u ∈ party t ch ∧ ¬ (u = uid ∧ t = ty)) →
  core (<[name := ch']> C) (alter (end_presence name ty) uid R) B S.
Proof.
  intros [HC HR HL HB HS] Hc Hch' Htr Hp. constructor.
  - intros n c. rewrite lookup_insert_Some. naive_solver.
  - by apply wf_roles_end.
  - intros u n t. rewrite live_end_wf, HL, member_insert by done.
    destruct (decide (n = name)) as [->|]; [|naive_solver].
    rewrite (member_at _ _ _ _ _ Hc). destruct (decide (u = "")) as [->|Hu]; [naive_solver|].
    rewrite Hp by done. naive_solver.
  - eapply bands_mono; [|done]. intros u. destruct (decide (uid = u)) as [->|].
    + by rewrite lookup_alter_eq, fmap_is_Some.
    + by rewrite lookup_alter_ne.
  - by eapply shm_insert.
Qed.

Lemma party_erase_producer name uid ch u t :
  wf_channel name ch →
  u ∈ party t (ch <| producers ::= erase_by p_role_uid uid |>) ↔
  u ∈ party t ch ∧ ¬ (u = uid ∧ t = "producer").
Proof.
  intros Hwf. unfold party. cbn. destruct (t =s "producer") eqn:Ht; bool_facts.
  - rewrite erase_by_keys by apply Hwf. naive_solver.
  - destruct (t =s "consumer"); naive_solver.
Qed.

Lemma wf_channel_erase_producer name uid ch :
  wf_channel name ch → wf_channel name (ch <| producers ::= erase_by p_role_uid uid |>).
Proof.
  intros [? ? ? ? ? ?]. constructor; try done; cbn.
  - by apply NoDup_erase_by.
  - eapply cardinality_fewer; [..|done]; cbn; [done|apply length_erase_by_le|lia].
Qed.

(** The consumers of [uid] leave: all of them ([remove_if]) or the first. *)
Lemma party_filter_consumers uid ch u t :
  u ∈ party t (ch <| consumers ::= filter (λ c, c_role_uid c ≠ uid) |>) ↔
  u ∈ party t ch ∧ ¬ (u = uid ∧ t = "consumer").
Proof.
  unfold party. cbn. destruct (t =s "producer") eqn:Hp; bool_facts; [naive_solver|].
  destruct (t =s "consumer") eqn:Ht; bool_facts; [|set_solver].
  rewrite !list_elem_of_fmap. setoid_rewrite list_elem_of_filter. naive_solver.
Qed.

Lemma party_erase_consumer name uid ch u t :
  wf_channel name ch → uid ≠ "" → u ≠ "" →
  u ∈ party t (ch <| consumers ::= erase_by c_role_uid uid |>) ↔
  u ∈ party t ch ∧ ¬ (u = uid ∧ t = "consumer").
Proof.
  intros Hwf Hne Hu. unfold party. cbn.
  destruct (t =s "producer") eqn:Hp; bool_facts; [naive_solver|].
  destruct (t =s "consumer") eqn:Ht; bool_facts; [|set_solver].
  assert (∀ l, u ∈ l ↔ u ∈ nonempty_uids l) as Hl by (intros l; rewrite elem_of_nonempty_uids; tauto).
  rewrite (Hl (_ <$> _)), erase_consumer by (done || apply Hwf).
  rewrite list_elem_of_filter, <- Hl. naive_solver.
Qed.

Lemma wf_channel_erase_consumer name uid ch :
  uid ≠ "" → wf_channel name ch →
  wf_channel name (ch <| consumers ::= erase_by c_role_uid uid |>).
Proof.
  intros ? [? ? ? ? ? ?]. constructor; try done; cbn.
  - rewrite erase_consumer by done. by apply NoDup_filter.
  - eapply cardinality_fewer; [..|done]; cbn; [done|lia|apply length_erase_by_le].
Qed.

Lemma nonempty_filter_consumers (P : ConsumerEntry → Prop) `{!∀ x, Decision (P x)} l :
  NoDup (nonempty_uids (c_role_uid <$> l)) →
  NoDup (nonempty_uids (c_role_uid <$> filter P l)).
Proof.
  unfold nonempty_uids. induction l as [|c l IH]; [done|]. rewrite fmap_cons.
  destruct (decide (c_role_uid c = "")) as [He|He].
  - rewrite (filter_cons_False (λ u, u ≠ "")) by (by intros []). intros Hd%IH.
    rewrite filter_cons. case_decide; [|done]. rewrite fmap_cons.
    by rewrite (filter_cons_False (λ u, u ≠ "")) by (by intros []).
  - rewrite (filter_cons_True (λ u, u ≠ "")) by done. intros [Hn Hd]%NoDup_cons.
    specialize (IH Hd). rewrite (filter_cons P). case_decide; [|done]. rewrite fmap_cons.
    rewrite (filter_cons_True (λ u, u ≠ "")) by done. apply NoDup_cons. split; [|done].
    rewrite list_elem_of_filter, list_elem_of_fmap in Hn |- *.
    intros (_ & c' & ? & [_ ?]%list_elem_of_filter). apply Hn. eauto.
Qed.

Lemma wf_channel_filter_consumers name (P : ConsumerEntry → Prop) `{!∀ x, Decision (P x)} ch :
  wf_channel name ch → wf_channel name (ch <| consumers ::= filter P |>).
Proof.
  intros [? ? ? ? ? ?]. constructor; try done; cbn.
  - by apply nonempty_filter_consumers.
  - eapply cardinality_fewer; [..|done]; cbn; [done|lia|apply length_filter].
Qed.

Lemma Inv_on_producer_dropped name uid reason env h :
  Inv h → Inv (exec (_on_producer_dropped name uid reason) env h).
Proof.
  intros HI. unfold _on_producer_dropped.
  destruct (negb _ || negb _) eqn:Hv; [run; by apply Inv_bump_invalid|]. run.
  destruct (channels_ h !! name) as [ch|] eqn:Hc; [|done].
  destruct (find_producer uid ch) eqn:Hf; [|done].
  case_bool_decide; [run; by apply Inv_on_channel_closed|].
  destruct (remove_producer uid ch) as [rm ch'] eqn:Hrm.
  assert (ch' = (remove_producer uid ch).2) as -> by (by rewrite Hrm).
  rewrite remove_producer_eq. run. rewrite exec_if.
  assert (Hwf := core_channels _ _ _ _ (inv_core _ HI) _ _ Hc).
  match goal with |- Inv (if _ then exec _ _ ?g else ?g') => assert (HI' : Inv g) end.
  { eapply Inv_intro; [done| |done|by apply access_ok_reset, HI|done]. cbn.
    eapply core_leave; [apply HI|done|by apply wf_channel_erase_producer|done|].
    intros u t Hu. by eapply party_erase_producer. }
  case_bool_decide; [by apply Inv_dispatch|done].
Qed.
End HubInv.
