(* ===== verification/HubPreserve.v ===== *)
(** * The invariant is preserved by the remaining operations

    Consumer admission and departure, the presence state machine, bands,
    peers and channel access; and the reachability theorem over every
    operation the broker performs. *)

From S2P Require Import Prelude.
From S2P Require Import Json.
From S2P Require Import Naming.
From S2P Require Import Ledger.
From S2P Require Import ReplayGuard.
From S2P Require Import ConsoleBuffer.
From S2P Require Import Entries.
From S2P Require Import HubCore.
From S2P Require Import HubOps.
From S2P Require Import EntryFacts.
From S2P Require Import HubInv.
From S2P Require Import SchemaRegistry.
Import Json Entries HubCore HubOps EntryFacts HubInv SchemaRegistry.

Module HubPreserve.

(** ** Consumers *)

(** The duplicate test of [_add_consumer] and what it leaves. *)
Lemma dupe_spec (entry c : ConsumerEntry) :
  negb (str_empty (c_role_uid entry)) && (c_role_uid c =s c_role_uid entry) = true ↔
  c_role_uid entry ≠ "" ∧ c_role_uid c = c_role_uid entry.
Proof. rewrite andb_true_iff, negb_true_iff, str_empty_false. unfold str_eqb. by rewrite bool_decide_eq_true. Qed.

Definition join_consumer (entry : ConsumerEntry) (ch : ChannelEntry) : ChannelEntry :=
  ch <| consumers ::= λ cs,
    filter (λ c, negb (str_empty (c_role_uid entry)) && (c_role_uid c =s c_role_uid entry) = false)
      cs ++ [entry] |>.

Lemma party_join_consumer entry ch u t :
  u ≠ "" →
  u ∈ party t (join_consumer entry ch) ↔
  u ∈ party t ch ∨ (u = c_role_uid entry ∧ t = "consumer").
Proof.
  intros Hu. unfold party, join_consumer. cbn.
  destruct (t =s "producer") eqn:Hp; bool_facts; [naive_solver|].
  destruct (t =s "consumer") eqn:Ht; bool_facts; [|set_solver].
  rewrite fmap_app, elem_of_app, !list_elem_of_fmap.
  setoid_rewrite list_elem_of_singleton. setoid_rewrite list_elem_of_filter.
  setoid_rewrite <- not_true_iff_false. setoid_rewrite dupe_spec.
  split; [naive_solver|]. intros [(c & -> & Hc)|[-> _]]; [|by right; exists entry].
  destruct (decide (c_role_uid c = c_role_uid entry)) as [He|He]; [right; by exists entry|left].
  exists c. naive_solver.
Qed.

Lemma wf_channel_join_consumer name entry ch :
  wf_channel name ch →
  (∃ c, c ∈ consumers ch ∧ c_role_uid entry ≠ "" ∧ c_role_uid c = c_role_uid entry) ∨
  topology ch = FanOut ∨ consumers ch = [] →
  wf_channel name (join_consumer entry ch).
Proof.
  intros Hwf Hcase. pose proof Hwf as [? ? ? Hd Hcard ?].
  set (P c := negb (str_empty (c_role_uid entry)) && (c_role_uid c =s c_role_uid entry) = false).
  assert (Hd' := nonempty_filter_consumers P _ Hd).
  constructor; try done; unfold join_consumer; cbn.
  - rewrite fmap_app. unfold nonempty_uids in *. rewrite filter_app.
    apply NoDup_app. split_and!; [done| |apply NoDup_filter, NoDup_singleton].
    intros u [Hu Hin]%list_elem_of_filter [_ Heq%list_elem_of_singleton]%list_elem_of_filter.
    cbn in Heq. subst u. apply list_elem_of_fmap in Hin as (c & Heq & [Hn _]%list_elem_of_filter).
    apply not_true_iff_false in Hn. by rewrite dupe_spec in Hn; naive_solver.
  - unfold cardinality_ok in *. cbn. rewrite length_app. cbn.
    assert (Hle : (length (filter P (consumers ch)) + 1 ≤ 1)%nat ∨ topology ch = FanOut).
    { destruct Hcase as [(c & Hc & Hne & Heq)|[Hf|Hnil]]; [|by right|left; by rewrite Hnil].
      destruct (topology ch) eqn:Ht; [left|by right|left].
      all: destruct (consumers ch) as [|c1 [|]]; cbn in Hcard; try lia; [set_solver|].
      all: apply list_elem_of_singleton in Hc as ->; rewrite filter_cons_False; [cbn; lia|].
      all: unfold P; rewrite <- not_true_iff_false, dupe_spec; tauto. }
    unfold P in Hle. destruct (topology ch), Hle as [?|?]; try done; lia.
Qed.

Lemma add_consumer_spec name c declared os ot env h :
  Inv h → valid_channel name = true →
  let m := _add_consumer name c declared os ot in
  (admitted (result m env h) = false ∧ exec m env h = h) ∨
  (admitted (result m env h) = true ∧
   ∃ ch, exec m env h = (h <| channels_ ::= <[name := ch]> |>) ∧ wf_channel name ch ∧
     (∀ u t, u ≠ "" → u ∈ party t ch ↔
                      member (channels_ h) u name t ∨ (u = c_role_uid c ∧ t = "consumer")) ∧
     ∀ n, shm_blocks_ h !! n = shm_of n (<[name := ch]> (channels_ h) !! n)).
Proof.
  intros HI Hv. cbv zeta. unfold _add_consumer, _open_channel_locked. run.
  destruct (channels_ h !! name) as [ch|] eqn:Hc.
  - pose proof (core_channels _ _ _ _ (inv_core _ HI) _ _ Hc) as Hwf.
    destruct (match declared with Some t => _ | None => _ end); [by left|].
    destruct (if existsb _ _ then None else _) eqn:Hcard; [by left|]. run. right.
    split; [done|]. exists (join_consumer c ch). split_and!; [done|..].
    + apply wf_channel_join_consumer; [done|].
      destruct (existsb _ _) eqn:Hex in Hcard.
      * left. apply existsb_exists in Hex as (c' & Hin & Hd%dupe_spec).
        exists c'. by rewrite list_elem_of_In.
      * right. apply cardinality_consumer; [done|apply Hwf].
    + intros u t Hu. by rewrite party_join_consumer, (member_at _ _ _ _ _ Hc) by done; tauto.
    + eapply shm_insert; [apply HI|done|done].
  - destruct declared as [[]|]; try by left. destruct os as [schema|]; [|by left].
    destruct ot as [transport|]; [|by left]. run.
    destruct (transport_compatible _ _) eqn:Htr; cbn [negb]; run; [right|by left].
    split; [done|]. eexists. split_and!; [by cbn; rewrite insert_insert_eq|..].
    + apply (wf_channel_join_consumer name c _
        (wf_channel_opened name schema transport _ (system_now env) Hv Htr)). by right; right.
    + intros u t Hu. unfold member. rewrite Hc. unfold party. cbn.
      destruct (t =s "producer") eqn:Hp; bool_facts; [set_solver|].
      destruct (t =s "consumer") eqn:Ht; bool_facts; set_solver.
    + intros n. rewrite (core_shm _ _ _ _ (inv_core _ HI)).
      destruct (decide (n = name)) as [->|]; [|by rewrite lookup_insert_ne].
      rewrite lookup_insert_eq, Hc. unfold shm_of, is_shm. cbn.
      unfold transport_compatible in Htr. cbn in Htr.
      by destruct (ti_data_transport transport =s "shm").
Qed.

Lemma Inv_on_consumer_joined name c declared os ot env h :
  Inv h → Inv (exec (_on_consumer_joined name c declared os ot) env h).
Proof.
  intros HI. unfold _on_consumer_joined.
  destruct (negb _ || _ || _) eqn:Hv; [run; by apply Inv_bump_invalid|].
  apply orb_false_iff in Hv as [[Hvc Hvr]%orb_false_iff _]. apply negb_false_iff in Hvc.
  rewrite exec_bind.
  destruct (add_consumer_spec name c declared os ot env h HI Hvc)
    as [[Ha ->]|[Ha (ch & -> & Hch & Hparty & Hshm)]]; rewrite Ha; cbn [negb]; [by run|]. run.
  destruct (str_empty (c_role_uid c)) eqn:Hu.
  - run. apply str_empty_true in Hu. eapply Inv_intro; [done| |done|apply HI|done]. cbn.
    eapply core_channel; [apply HI|done| |done]. intros u t Hne.
    rewrite Hparty by done. naive_solver.
  - assert (Huid := proj1 (str_empty_false _) Hu).
    cbn in Hvr. apply negb_false_iff in Hvr.
    destruct (valid_role_uid_parse _ Hvr) as [parts Hparts]. run.
    rewrite (exec_upsert_role _ _ _ _ _ _ _ Hparts).
    eapply Inv_intro; [done| |done|apply HI|done]. cbn.
    eapply core_join; eauto. apply HI.
Qed.

Lemma end_presence_absent name ty r :
  (∀ c, c ∈ channels r ↔ c ∈ (keys r).*1) → (name, ty) ∉ keys r → end_presence name ty r = r.
Proof.
  intros Hcache Hn. unfold end_presence, on_dereg.
  apply find_presence_None in Hn as ->. cbn. unfold drop_channel_if_orphaned.
  case_bool_decide as Hp; [done|]. rewrite bool_decide_eq_false_2; [done|].
  by rewrite Hcache, keys_channels.
Qed.

Lemma Inv_on_consumer_left name uid env h :
  Inv h → Inv (exec (_on_consumer_left name uid) env h).
Proof.
  intros HI. unfold _on_consumer_left.
  destruct (negb _ || _) eqn:Hv; [by apply Inv_bump_invalid|].
  rewrite exec_bind, exec_if. set (h1 := exec (_remove_consumer name uid) env h).
  assert (Hroles : roles_ h1 = roles_ h).
  { unfold h1, _remove_consumer. run. destruct (channels_ h !! name); [|done]. run.
    rewrite exec_if. by case_match. }
  destruct (str_empty uid) eqn:Hu.
  - apply str_empty_true in Hu as ->. rewrite exec_ret. unfold h1, _remove_consumer. run.
    destruct (channels_ h !! name) as [ch|] eqn:Hc; [|done].
    assert (Hwf := core_channels _ _ _ _ (inv_core _ HI) _ _ Hc). run. rewrite exec_if. run.
    assert (core (<[name := ch <| consumers ::= filter (λ c, c_role_uid c ≠ "") |>]> (channels_ h))
              (roles_ h) (bands_ h) (shm_blocks_ h)).
    { eapply core_channel; [apply HI|by apply wf_channel_filter_consumers| |].
      - intros u t Hne. rewrite party_filter_consumers, (member_at _ _ _ _ _ Hc). naive_solver.
      - eapply shm_insert; [apply HI|done|done]. }
    case_match; (eapply Inv_intro; [done|done|done|try apply access_ok_reset; apply HI|done]).
  - apply str_empty_false in Hu. run. rewrite Hroles.
    assert (Hend : Inv (h1 <| roles_ ::= alter (end_presence name "consumer") uid |>)).
    { unfold h1, _remove_consumer. run.
      destruct (channels_ h !! name) as [ch|] eqn:Hc.
      - assert (Hwf := core_channels _ _ _ _ (inv_core _ HI) _ _ Hc). run. rewrite exec_if. run.
        assert (core (<[name := ch <| consumers ::= filter (λ c, c_role_uid c ≠ uid) |>]> (channels_ h))
                  (alter (end_presence name "consumer") uid (roles_ h)) (bands_ h) (shm_blocks_ h)).
        { eapply core_leave; [apply HI|done|by apply wf_channel_filter_consumers|done|].
          intros. by apply party_filter_consumers. }
        case_match; (eapply Inv_intro; [done|done|done|try apply access_ok_reset; apply HI|done]).
      - run. eapply Inv_intro; [done| |done|apply HI|done]. cbn.
        rewrite alter_id; [apply HI|]. intros r Hr.
        destruct (core_roles _ _ _ _ (inv_core _ HI) _ _ Hr) as [_ _ _ _ _ Hcache].
        apply end_presence_absent; [done|]. intros Hk.
        assert (live (roles_ h) uid name "consumer") as Hl by (by exists r).
        apply (core_link _ _ _ _ (inv_core _ HI)) in Hl as (_ & ch & ? & _). congruence. }
    destruct (roles_ h !! uid) as [r|] eqn:Hr; run; [by apply Inv_dispatch|].
    assert ((h1 <| roles_ ::= alter (end_presence name "consumer") uid |>) = h1) as Heq.
    { rewrite <- Hroles in Hr. destruct h1. cbn in *. f_equal.
      apply alter_id. intros x Hx. congruence. }
    exact (eq_ind _ Inv Hend _ Heq).
Qed.

(** ** The presence state machine *)

Lemma wf_role_on_heartbeat uid channel ty when r :
  wf_role uid r →
  wf_role uid (on_heartbeat channel ty when r).2 ∧ keys (on_heartbeat channel ty when r).2 = keys r.
Proof.
  intros Hr. unfold on_heartbeat. destruct (find_presence channel ty r); [|done]. cbn [snd].
  split; [by apply wf_role_alter_row; [apply row_update_beat|]|].
  apply alter_row_keys, row_update_beat.
Qed.

Lemma wf_role_set_metrics uid metrics now channel ty r :
  wf_role uid r →
  wf_role uid (set_metrics metrics now channel ty r) ∧
  keys (set_metrics metrics now channel ty r) = keys r.
Proof.
  intros Hr. unfold set_metrics. destruct metrics as [m|]; [|done].
  split; [by apply wf_role_alter_row; [apply row_update_metrics|]|].
  apply alter_row_keys, row_update_metrics.
Qed.

Lemma Inv_on_heartbeat channel uid ty when metrics env h :
  Inv h → Inv (exec (_on_heartbeat channel uid ty when metrics) env h).
Proof.
  intros HI. unfold _on_heartbeat.
  destruct (negb _ || _); [run; by apply Inv_bump_invalid|].
  destruct (_ || _); [done|]. run. destruct (roles_ h !! uid) as [r|] eqn:Hr; [|done].
  assert (Hwf := core_roles _ _ _ _ (inv_core _ HI) _ _ Hr).
  destruct (wf_role_on_heartbeat uid channel ty when r Hwf) as [Hwf1 Hk1].
  destruct (on_heartbeat channel ty when r) as [eff r1]. cbn in Hwf1, Hk1.
  destruct (wf_role_set_metrics uid metrics (system_now env) channel ty r1 Hwf1) as [Hwf2 Hk2].
  rewrite exec_if. destruct (negb (presence_found eff)); [done|]. run. rewrite !exec_if. run.
  assert (Hcore := core_role _ _ _ _ _ _ _ (inv_core _ HI) Hr Hwf2 ltac:(congruence)).
  assert (Hdone : ∀ f, Inv (h <| counters_ ::= f |>
            <| roles_ ::= <[uid := set_metrics metrics (system_now env) channel ty r1]> |>)).
  { intros f. eapply Inv_intro; [done|done|done|apply HI|done]. }
  assert (Hid : Inv (h <| roles_ ::= <[uid := set_metrics metrics (system_now env) channel ty r1]> |>))
    by (eapply Inv_intro; [done|done|done|apply HI|done]).
  repeat case_match; run; done.
Qed.

Lemma Inv_on_heartbeat_timeout channel uid ty env h :
  Inv h → Inv (exec (_on_heartbeat_timeout channel uid ty) env h).
Proof.
  intros HI. unfold _on_heartbeat_timeout.
  destruct (negb _ || _); [by apply Inv_bump_invalid|].
  destruct (_ || _); [done|]. run. destruct (roles_ h !! uid) as [r|] eqn:Hr; [|done].
  assert (Hwf := core_roles _ _ _ _ (inv_core _ HI) _ _ Hr).
  assert (Ht : wf_role uid (on_heartbeat_timeout channel ty (steady_now env) r).2 ∧
               keys (on_heartbeat_timeout channel ty (steady_now env) r).2 = keys r).
  { unfold on_heartbeat_timeout. destruct (find_presence channel ty r); [|done].
    case_bool_decide; [done|]. cbn [snd].
    split; [by apply wf_role_alter_row; [apply row_update_pending|]|].
    apply alter_row_keys, row_update_pending. }
  destruct (on_heartbeat_timeout _ _ _ r) as [te r1]. destruct Ht as [Hwf1 Hk1].
  rewrite exec_if. case_match; [done|]. run. rewrite exec_if. run.
  case_match; (eapply Inv_intro; [done| |done|apply HI|done]);
    by apply (core_role _ _ _ _ _ r); [apply HI|..].
Qed.

Lemma alter_swap {A} (f g : A → A) (m : gmap string A) i j :
  i ≠ j → alter f i (alter g j m) = alter g j (alter f i m).
Proof.
  intros Hne. apply map_eq. intros k.
  destruct (decide (i = k)) as [<-|]; [|destruct (decide (j = k)) as [<-|]];
    by rewrite ?lookup_alter_eq, ?lookup_alter_ne, ?lookup_alter_eq, ?lookup_alter_ne by done.
Qed.

Lemma alter_insert_lookup {A} (f : A → A) (m : gmap string A) k x :
  m !! k = Some x → alter f k m = <[k := f x]> m.
Proof.
  intros Hx. apply map_eq. intros j. destruct (decide (k = j)) as [->|].
  - by rewrite lookup_alter_eq, lookup_insert_eq, Hx.
  - by rewrite lookup_alter_ne, lookup_insert_ne.
Qed.

Lemma Inv_pending_timeout_consumer channel uid env h :
  uid ≠ "" → Inv h → Inv (exec (pending_timeout_consumer channel uid) env h).
Proof.
  intros Hu HI. unfold pending_timeout_consumer. run.
  destruct (channels_ h !! channel) as [ch|] eqn:Hc; [|done].
  destruct (roles_ h !! uid) as [r|] eqn:Hr; [|done].
  assert (Hwf := core_channels _ _ _ _ (inv_core _ HI) _ _ Hc).
  destruct (on_pending_timeout channel "consumer" r) as [te r1] eqn:Hte.
  rewrite exec_if. case_bool_decide as Hdis; [done|].
  assert (te = ToDisconnected) as -> by (by destruct te).
  destruct (on_pending_timeout_dereg channel "consumer" r ltac:(by rewrite Hte)) as [Heq _].
  rewrite Hte in Heq. cbn in Heq. subst r1.
  destruct (remove_consumer uid ch) as [rm ch'] eqn:Hrm.
  assert (ch' = (remove_consumer uid ch).2) as -> by (by rewrite Hrm).
  rewrite remove_consumer_eq. unfold bump_pending_to_deregistered. run. apply Inv_dispatch.
  eapply Inv_intro; [done| |done|apply HI|done]. cbn -[drop_channel_if_orphaned on_dereg].
  fold (end_presence channel "consumer" r).
  rewrite <- (alter_insert_lookup (end_presence channel "consumer") _ _ _ Hr).
  eapply core_leave; [apply HI|done|by apply wf_channel_erase_consumer|done|].
  intros. by eapply party_erase_consumer.
Qed.

(** Ending a presence twice is ending it once, so the close of the last
    producer's channel does not see that its row is already gone. *)
Lemma end_all_insert name ty uids R uid r :
  R !! uid = Some r → NoDup (keys r) → uid ∈ uids →
  end_all name ty uids (<[uid := (on_dereg name ty r).2]> R) = end_all name ty uids R.
Proof.
  intros Hr Hk. rewrite <- (alter_insert_lookup (λ r, (on_dereg name ty r).2) _ _ _ Hr).
  unfold end_all. revert R Hr. induction uids as [|v uids IH]; intros R Hr Hin; [set_solver|].
  cbn. destruct (decide (v = uid)) as [->|Hne].
  - f_equal. apply map_eq. intros j.
    destruct (decide (uid = j)) as [<-|].
    + rewrite !lookup_alter_eq, Hr. cbn. by rewrite end_presence_idem.
    + by rewrite !lookup_alter_ne.
  - rewrite alter_swap by done. apply IH; [by rewrite lookup_alter_ne|set_solver].
Qed.

Lemma close_after_dereg channel uid r why env h :
  Inv h → roles_ h !! uid = Some r → uid ≠ "" → (channel, "producer") ∈ keys r →
  valid_channel channel = true →
  exec (_on_channel_closed channel why) env
    (h <| roles_ ::= <[uid := (on_dereg channel "producer" r).2]> |>) =
  exec (_on_channel_closed channel why) env h.
Proof.
  intros HI Hr Hu Hk Hv.
  assert (live (roles_ h) uid channel "producer") as Hl by (by exists r).
  apply (core_link _ _ _ _ (inv_core _ HI)) in Hl as (_ & ch & Hc & Hp).
  rewrite !(exec_on_channel_closed _ _ ch) by done. do 2 f_equal. unfold closed_state.
  cbn -[on_dereg]. rewrite end_all_insert; try done.
  - apply (wr_keys _ _ (core_roles _ _ _ _ (inv_core _ HI) _ _ Hr)).
  - by apply elem_of_nonempty_uids.
Qed.

Lemma Inv_pending_timeout_producer channel uid env h :
  valid_channel channel = true → uid ≠ "" → Inv h →
  Inv (exec (pending_timeout_producer channel uid) env h).
Proof.
  intros Hv Hu HI. unfold pending_timeout_producer. run.
  destruct (channels_ h !! channel) as [ch|] eqn:Hc; [|done]. cbn.
  destruct (find_producer uid ch) eqn:Hf; [|done]. cbn.
  destruct (roles_ h !! uid) as [r|] eqn:Hr; [|done].
  assert (Hwf := core_channels _ _ _ _ (inv_core _ HI) _ _ Hc).
  destruct (on_pending_timeout channel "producer" r) as [te r1] eqn:Hte.
  rewrite exec_if. case_bool_decide as Hdis; [done|].
  assert (te = ToDisconnected) as -> by (by destruct te).
  destruct (on_pending_timeout_dereg channel "producer" r ltac:(by rewrite Hte)) as [Heq Hk].
  rewrite Hte in Heq. cbn in Heq. subst r1.
  unfold bump_pending_to_deregistered. rewrite exec_bind, exec_modify, exec_if.
  assert (HI' := Inv_counters (λ c, c <| pending_to_deregistered_total ::= u64_succ |>) h HI).
  case_bool_decide.
  - rewrite exec_bind, exec_modify, exec_bind.
    pose proof (close_after_dereg channel uid r HeartbeatTimeout env _ HI' Hr Hu Hk Hv) as Hcl.
    exact (eq_ind_r Inv (Inv_on_channel_closed _ _ _ _ HI') Hcl).
  - destruct (remove_producer uid ch) as [rm ch'] eqn:Hrm.
    assert (ch' = (remove_producer uid ch).2) as -> by (by rewrite Hrm).
    rewrite remove_producer_eq. run. apply Inv_dispatch.
    eapply Inv_intro; [done| |done|by apply access_ok_reset, HI|done].
    cbn -[drop_channel_if_orphaned on_dereg]. fold (end_presence channel "producer" r).
    rewrite <- (alter_insert_lookup (end_presence channel "producer") _ _ _ Hr).
    eapply core_leave; [apply HI|done|by apply wf_channel_erase_producer|done|].
    intros. by eapply party_erase_producer.
Qed.

Lemma Inv_on_pending_timeout channel uid ty env h :
  Inv h → Inv (exec (_on_pending_timeout channel uid ty) env h).
Proof.
  intros HI. unfold _on_pending_timeout.
  destruct (negb _ || negb _) eqn:Hv; [run; by apply Inv_bump_invalid|]. bool_facts.
  assert (uid ≠ "") by (by apply valid_role_uid_nonempty).
  destruct (str_empty ty); [done|].
  case_match; [by apply Inv_pending_timeout_consumer|by apply Inv_pending_timeout_producer].
Qed.

(** ** Bands *)

Lemma core_band_role C R B S uid parts env :
  core C R B S → Naming.parse_role_uid uid = Some parts →
  core C (<[uid := upserted_role env uid (Naming.tag parts) (Naming.name parts) "" "" ""
                     (R !! uid)]> R) B S.
Proof.
  intros HI Hp. set (r := upserted_role _ _ _ _ _ _ _ _).
  assert (Hr : wf_role uid r).
  { apply wf_role_upserted; [done| |by left]. intros x Hx. by apply (core_roles _ _ _ _ HI). }
  assert (Hk : ∀ k, k ∈ keys r ↔ ∃ x, R !! uid = Some x ∧ k ∈ keys x).
  { intros k. unfold r. rewrite upserted_role_keys by (by left). naive_solver. }
  destruct HI as [HC HR HL HB HS]. constructor; try done.
  - intros u x. rewrite lookup_insert_Some. naive_solver.
  - intros u n t. rewrite <- HL, live_insert, Hk. unfold live.
    destruct (decide (u = uid)) as [->|]; naive_solver.
  - eapply bands_mono; [|done]. intros u Hu. destruct (decide (uid = u)) as [->|].
    + rewrite lookup_insert_eq. eauto.
    + by rewrite lookup_insert_ne.
Qed.

Lemma core_band_insert C R B S n b :
  core C R B S → wf_band R n b → core C R (<[n := b]> B) S.
Proof.
  intros [HC HR HL HB HS] Hb. constructor; try done.
  intros m x. rewrite lookup_insert_Some. intros [[<- <-]|[_ ?]]; auto.
Qed.

Lemma core_band_delete C R B S n : core C R B S → core C R (delete n B) S.
Proof.
  intros [HC HR HL HB HS]. constructor; try done. intros m x [_ ?]%lookup_delete_Some. auto.
Qed.

Lemma Inv_on_band_joined band member env h :
  Inv h → Inv (exec (_on_band_joined band member) env h).
Proof.
  intros HI. unfold _on_band_joined.
  destruct (negb _ || _) eqn:Hv; [by apply Inv_bump_invalid|].
  apply orb_false_iff in Hv as [Hvb Hvr]. apply negb_false_iff in Hvb.
  assert (Hwf : ∀ R b, (∀ m, m ∈ members b → bm_role_uid m ≠ "" → is_Some (R !! bm_role_uid m)) →
            band_name b = "" ∨ band_name b = band → NoDup (bm_role_uid <$> members b) →
            (bm_role_uid member = "" ∨ is_Some (R !! bm_role_uid member)) →
            wf_band R band
              ((if str_empty (band_name b) then b <| band_name := band |> else b)
                 <| members := filter (λ x, bm_role_uid x ≠ bm_role_uid member)
                     (members (if str_empty (band_name b) then b <| band_name := band |> else b))
                     ++ [member] |> <| last_activity := steady_now env |>)).
  { intros R b Hm Hn Hd Hr.
    assert (Hms : members (if str_empty (band_name b) then b <| band_name := band |> else b) =
                  members b) by (by destruct (str_empty (band_name b))).
    rewrite Hms. constructor; cbn; try done.
    - destruct (str_empty (band_name b)) eqn:He; [done|]. apply str_empty_false in He. tauto.
    - by destruct (filter _ _).
    - rewrite fmap_app. apply NoDup_app. split_and!; [by apply NoDup_fmap_filter| |apply NoDup_singleton].
      intros u (m & -> & [Hne _]%list_elem_of_filter)%list_elem_of_fmap Hu%list_elem_of_singleton.
      done.
    - intros m [[_ Hin]%list_elem_of_filter| ->%list_elem_of_singleton]%elem_of_app Hne; [auto|].
      destruct Hr; [done|done]. }
  assert (Hb : let b := default (default_band (steady_now env)) (bands_ h !! band) in
            (∀ m, m ∈ members b → bm_role_uid m ≠ "" → is_Some (roles_ h !! bm_role_uid m)) ∧
            (band_name b = "" ∨ band_name b = band) ∧ NoDup (bm_role_uid <$> members b)).
  { destruct (bands_ h !! band) as [b|] eqn:Hb; cbn.
    - destruct (core_bands _ _ _ _ (inv_core _ HI) _ _ Hb). auto.
    - split_and!; [set_solver|by left|apply NoDup_nil_2]. }
  destruct Hb as (Hb1 & Hb2 & Hb3).
  unfold _set_band_joined. run. rewrite exec_if. run.
  destruct (str_empty (bm_role_uid member)) eqn:Hu.
  - apply str_empty_true in Hu. eapply Inv_intro; [done| |done|apply HI|done]. cbn.
    apply core_band_insert; [apply HI|]. apply Hwf; auto.
  - cbn in Hvr. apply negb_false_iff in Hvr.
    destruct (valid_role_uid_parse _ Hvr) as [parts Hparts].
    rewrite (exec_upsert_role _ _ _ _ _ _ _ Hparts).
    eapply Inv_intro; [done| |done|apply HI|done]. cbn -[upserted_role].
    apply core_band_insert; [by apply core_band_role; [apply HI|]|].
    apply Hwf; try done; [|right; by rewrite lookup_insert_eq; eauto].
    intros m Hm Hne. destruct (decide (bm_role_uid member = bm_role_uid m)) as [->|].
    + rewrite lookup_insert_eq. eauto.
    + rewrite lookup_insert_ne by done. auto.
Qed.

Lemma Inv_on_band_left band uid env h :
  Inv h → Inv (exec (_on_band_left band uid) env h).
Proof.
  intros HI. unfold _on_band_left.
  destruct (negb _ || _) eqn:Hv; [by apply Inv_bump_invalid|].
  unfold _set_band_left. run. destruct (bands_ h !! band) as [b|] eqn:Hb; [|done].
  run. rewrite exec_if. run.
  assert (Hcore : core (channels_ h) (roles_ h)
    ((if bool_decide (filter (λ x, bm_role_uid x ≠ uid) (members b) = []) then delete band
      else <[band := b <| members := filter (λ x, bm_role_uid x ≠ uid) (members b) |>
                       <| last_activity := steady_now env |>]>) (bands_ h)) (shm_blocks_ h)).
  { case_bool_decide; [by apply core_band_delete, HI|]. apply core_band_insert; [apply HI|].
    destruct (core_bands _ _ _ _ (inv_core _ HI) _ _ Hb). constructor; try done; cbn.
    - by apply NoDup_fmap_filter.
    - intros m [_ Hm]%list_elem_of_filter. auto. }
  destruct (_ <? _)%nat; (eapply Inv_intro; [done|exact Hcore|done|apply HI|done]).
Qed.

(** ** Peers, access records, schemas *)

Lemma Inv_fields h h' :
  Inv h → channels_ h' = channels_ h → roles_ h' = roles_ h → bands_ h' = bands_ h →
  shm_blocks_ h' = shm_blocks_ h → peers_ok (peers_ h') → access_ok (channel_access_index h') →
  schemas_ok (schemas_ h') → Inv h'.
Proof. intros [? ? ? ?] HC HR HB HS ? ? ?. constructor; try done. by rewrite HC, HR, HB, HS. Qed.

Lemma Inv_on_peer_connected p env h : Inv h → Inv (exec (_on_peer_connected p) env h).
Proof.
  intros HI. unfold _on_peer_connected. destruct (negb _) eqn:Hv; [by apply Inv_bump_invalid|].
  bool_facts. unfold _set_peer_connected. run. eapply Inv_fields; try done; try apply HI.
  intros u x. cbn. rewrite lookup_insert_Some. intros [[<- <-]|[_ ?]]; [done|by apply HI].
Qed.

Lemma Inv_on_peer_disconnected u env h : Inv h → Inv (exec (_on_peer_disconnected u) env h).
Proof.
  intros HI. unfold _on_peer_disconnected. destruct (negb _) eqn:Hv; [by apply Inv_bump_invalid|].
  bool_facts. unfold _set_peer_disconnected. run. destruct (peers_ h !! u) as [p|] eqn:Hp; [|done].
  rewrite exec_if. case_match; [|done]. run. eapply Inv_fields; try done; try apply HI.
  intros v x. cbn. rewrite lookup_insert_Some. intros [[<- <-]|[_ ?]]; [|by apply HI].
  cbn. by destruct (inv_peers _ HI _ _ Hp) as (? & ? & ?).
Qed.

(** Versions have headroom on a channel: fewer than 2^64 - 1 admissions and
    revocations so far. *)
Definition headroom (n : string) h : Prop :=
  ∀ a, channel_access_index h !! n = Some a → Ledger.current_version_ (ledger a) < u64_max.

Lemma access_ok_alter_at f n I :
  (∀ a, I !! n = Some a → Ledger.wf (ledger a) → Ledger.wf (ledger (f a))) →
  access_ok I → access_ok (alter f n I).
Proof.
  intros Hf HI m a. rewrite lookup_alter_Some. intros [(-> & a0 & Ha & ->)|[_ Ha]]; [|by apply HI].
  destruct (HI _ _ Ha). auto.
Qed.

Lemma Inv_on_channel_access_opened n env h :
  Inv h → Inv (exec (_on_channel_access_opened n) env h).
Proof.
  intros HI. unfold _on_channel_access_opened.
  destruct (negb _) eqn:Hv; [by apply Inv_bump_invalid|]. bool_facts. run.
  destruct (channel_access_index h !! n); [done|]. run.
  eapply Inv_fields; try done; try apply HI. intros m a. cbn. rewrite lookup_insert_Some.
  intros [[<- <-]|[_ ?]]; [|by apply HI]. split; [done|apply Ledger.wf_empty].
Qed.

Lemma Inv_on_channel_access_closed n env h :
  Inv h → Inv (exec (_on_channel_access_closed n) env h).
Proof.
  intros HI. unfold _on_channel_access_closed.
  destruct (negb _) eqn:Hv; [by apply Inv_bump_invalid|]. run.
  eapply Inv_fields; try done; try apply HI. intros m a. cbn. intros [_ ?]%lookup_delete_Some. by apply HI.
Qed.

Lemma Inv_on_consumer_authorized n pk env h :
  headroom n h → Inv h → Inv (exec (_on_consumer_authorized n pk) env h).
Proof.
  intros Hroom HI. unfold _on_consumer_authorized.
  destruct (_ || _); [by apply Inv_bump_invalid|]. run.
  eapply Inv_fields; try done; try apply HI. apply access_ok_alter_at; [|apply HI].
  intros a Ha Hwf. apply Ledger.wf_admit; [done|by apply Hroom].
Qed.

Lemma Inv_on_consumer_revoked n pk env h :
  headroom n h → Inv h → Inv (exec (_on_consumer_revoked n pk) env h).
Proof.
  intros Hroom HI. unfold _on_consumer_revoked.
  destruct (_ || _); [by apply Inv_bump_invalid|]. run.
  eapply Inv_fields; try done; try apply HI. apply access_ok_alter_at; [|apply HI].
  intros a Ha Hwf. apply Ledger.wf_revoke; [done|by apply Hroom].
Qed.

Lemma Inv_on_role_confirmed n u v env h :
  Inv h → Inv (exec (_on_role_confirmed n u v) env h).
Proof.
  intros HI. unfold _on_role_confirmed.
  destruct (_ || _); [run; by apply Inv_bump_invalid|]. run.
  destruct (channel_access_index h !! n) as [a|] eqn:Ha; [|done].
  destruct (inv_access _ HI _ _ Ha) as [Hv Hwf].
  assert (Hwf' := Ledger.wf_confirm u v (ledger a) Hwf).
  destruct (Ledger.confirm u v (ledger a)) as [x l]. run.
  eapply Inv_fields; try done; try apply HI. intros m b. cbn. rewrite lookup_insert_Some.
  intros [[<- <-]|[_ ?]]; [done|by apply HI].
Qed.

Lemma Inv_on_schema_registered rec env h :
  Inv h → Inv (exec (_on_schema_registered rec) env h).
Proof.
  intros HI. unfold _on_schema_registered.
  destruct (str_empty (owner_uid rec) || str_empty (sr_schema_id rec)) eqn:E1; [done|].
  destruct (negb (has_datablock rec) && negb (has_flexzone rec)) eqn:E2; [done|].
  do 2 (case_match; [done|]). run.
  destruct (schemas_ h !! _); [done|]. run. eapply Inv_fields; try done; try apply HI.
  intros k s. cbn. rewrite lookup_insert_Some. intros [[<- <-]|[_ ?]]; [|by apply HI].
  apply orb_false_iff in E1 as [?%str_empty_false ?%str_empty_false]. cbn.
  split_and!; try done. unfold has_datablock, has_flexzone in *. cbn.
  by destruct (str_empty (blds rec)); [right; destruct (str_empty (sr_flexzone_blds rec))|left].
Qed.

Lemma Inv_validate_schema_citation cin env h :
  Inv h → Inv (exec (_validate_schema_citation cin) env h).
Proof.
  intros HI. unfold _validate_schema_citation. run. rewrite exec_if. case_match; [done|].
  run. by apply Inv_counters.
Qed.

Lemma Inv_set_channel (f : ChannelEntry → ChannelEntry) n h ch :
  channels_ h !! n = Some ch →
  (∀ ch, wf_channel n ch → wf_channel n (f ch)) → (∀ t ch, party t (f ch) = party t ch) →
  (∀ ch, ch_data_transport (f ch) = ch_data_transport ch) →
  Inv h → Inv (h <| channels_ ::= <[n := f ch]> |>).
Proof.
  intros Hc Hwf Hp Ht HI. eapply Inv_intro; [done| |done|apply HI|done]. cbn.
  eapply core_channel; [apply HI| | |].
  - by apply Hwf, (core_channels _ _ _ _ (inv_core _ HI)).
  - intros u t Hu. rewrite Hp, (member_at _ _ _ _ _ Hc). naive_solver.
  - by eapply shm_insert; [apply HI| |].
Qed.

Lemma Inv_set_channel_data_endpoint n e env h :
  Inv h → Inv (exec (_set_channel_data_endpoint n e) env h).
Proof.
  intros HI. unfold _set_channel_data_endpoint. destruct (_ || _); [done|]. run.
  destruct (channels_ h !! n) as [ch|] eqn:Hc; [|done]. run.
  apply (Inv_set_channel (set_data_endpoint e)); try done. by intros ? [].
Qed.

Lemma Inv_set_producer_zmq_node_endpoint n u e env h :
  Inv h → Inv (exec (_set_producer_zmq_node_endpoint n u e) env h).
Proof.
  intros HI. unfold _set_producer_zmq_node_endpoint. destruct (_ || _ || _); [done|]. run.
  destruct (channels_ h !! n) as [ch|] eqn:Hc; [|done].
  assert (Hkeys : ∀ ch, p_role_uid <$> producers (set_producer_zmq_node_endpoint u e ch).2 =
                        p_role_uid <$> producers ch) by (intros; by apply alter_by_keys).
  destruct (set_producer_zmq_node_endpoint u e ch) as [ok ch'] eqn:He. run.
  replace ch' with ((λ ch, (set_producer_zmq_node_endpoint u e ch).2) ch) by (by rewrite He).
  apply (Inv_set_channel (λ ch, (set_producer_zmq_node_endpoint u e ch).2)); try done.
  - intros c [? ? Hp ? Hcard ?]. constructor; try done; [by rewrite Hkeys|].
    eapply cardinality_fewer; [..|done]; try done.
    by rewrite <- (length_fmap p_role_uid), Hkeys, length_fmap.
  - intros t c. unfold party. by rewrite Hkeys.
Qed.
End HubPreserve.
