(* ===== verification/HubProps.v ===== *)
(** * What every reachable hub state promises

    The claims about the registries as a whole, stated with the hub state's
    own accessors.

    Module [HubReach] comes first: reachable hub states. *)

From S2P Require Import Prelude.
From S2P Require Import Json.
From S2P Require Import Naming.
From S2P Require Import Ledger.
From S2P Require Import ReplayGuard.
From S2P Require Import ConsoleBuffer.
From S2P Require Import Entries.
From S2P Require Import HubCore.
From S2P Require Import HubOps.
From S2P Require Import EntryFacts.
From S2P Require Import HubInv.
From S2P Require Import SchemaRegistry.
From S2P Require Import HubPreserve.
Import Json Entries HubCore HubOps EntryFacts HubInv SchemaRegistry HubPreserve.

(** * Reachable hub states

    Every operation the broker and the admin plane perform on [HubState], as
    one transition system, and what holds in every state it reaches.  The
    force-erase entry point [_set_role_disconnected] and the scaffolding path
    [_on_channel_registered] have no caller outside the tests and are not
    transitions. *)
Module HubReach.

Inductive op :=
  | SetHubUid (uid : string)
  | Snapshot
  | Subscribe (k : HandlerKind)
  | Unsubscribe (id : Z)
  | ProducerAdded (name : string) (schema : ChannelSchemaInvariants)
      (transport : ChannelTransportInvariants) (declared : option ChannelTopology)
      (p : ProducerEntry)
  | ProducerDropped (name uid : string) (why : ChannelCloseReason)
  | ChannelClose (name : string) (why : ChannelCloseReason)
  | ConsumerJoined (name : string) (c : ConsumerEntry) (declared : option ChannelTopology)
      (os : option ChannelSchemaInvariants) (ot : option ChannelTransportInvariants)
  | ConsumerLeft (name uid : string)
  | Heartbeat (name uid ty : string) (when : Z) (metrics : option json)
  | HeartbeatTimedOut (name uid ty : string)
  | PendingTimedOut (name uid ty : string)
  | JoinBand (band : string) (member : BandMember)
  | LeaveBand (band uid : string)
  | PeerUp (p : PeerEntry)
  | PeerDown (uid : string)
  | AccessOpened (name : string)
  | AccessClosed (name : string)
  | Authorize (name pubkey : string)
  | Revoke (name pubkey : string)
  | Confirm (name uid : string) (version : Z)
  | NonceSeen (uid nonce : string) (window now_ms : Z)
  | ConsoleAppend (dump_size : json → Z) (rid : string) (c : json) (now_ms : Z)
  | ConsoleDrain
  | ConsoleConnect
  | ConsoleDisconnect
  | ConsoleCaps (max_lines max_bytes max_line_bytes : Z)
  | MessageProcessed (ty : string) (bytes_in bytes_out : Z)
  | BumpError (ty : string) (n : Z)
  | BumpCounter (key : string) (n : Z)
  | RegisterSchema (rec : SchemaRecord)
  | EvictSchemas (owner : string)
  | ValidateCitation (cin : SchemaCitationInput)
  | SetDataEndpoint (name endpoint : string)
  | SetProducerEndpoint (name uid endpoint : string).

Definition run_op (o : op) : Env → HubImpl → HubImpl :=
  match o with
  | SetHubUid u => exec (set_hub_uid u)
  | Snapshot => exec snapshot
  | Subscribe k => exec (subscribe k)
  | Unsubscribe id => exec (unsubscribe id)
  | ProducerAdded n s t d p => exec (_on_producer_added n s t d p)
  | ProducerDropped n u w => exec (_on_producer_dropped n u w)
  | ChannelClose n w => exec (_on_channel_closed n w)
  | ConsumerJoined n c d os ot => exec (_on_consumer_joined n c d os ot)
  | ConsumerLeft n u => exec (_on_consumer_left n u)
  | Heartbeat n u t w m => exec (_on_heartbeat n u t w m)
  | HeartbeatTimedOut n u t => exec (_on_heartbeat_timeout n u t)
  | PendingTimedOut n u t => exec (_on_pending_timeout n u t)
  | JoinBand b m => exec (_on_band_joined b m)
  | LeaveBand b u => exec (_on_band_left b u)
  | PeerUp p => exec (_on_peer_connected p)
  | PeerDown u => exec (_on_peer_disconnected u)
  | AccessOpened n => exec (_on_channel_access_opened n)
  | AccessClosed n => exec (_on_channel_access_closed n)
  | Authorize n pk => exec (_on_consumer_authorized n pk)
  | Revoke n pk => exec (_on_consumer_revoked n pk)
  | Confirm n u v => exec (_on_role_confirmed n u v)
  | NonceSeen u n w t => exec (nonce_seen u n w t)
  | ConsoleAppend d r c t => exec (append_console_line d r c t)
  | ConsoleDrain => exec drain_console_output
  | ConsoleConnect => exec console_on_connect
  | ConsoleDisconnect => exec console_on_disconnect
  | ConsoleCaps a b c => exec (set_console_buffer_caps a b c)
  | MessageProcessed t i o => exec (_on_message_processed t i o)
  | BumpError t n => exec (_bump_msg_type_error t n)
  | BumpCounter k n => exec (_bump_counter k n)
  | RegisterSchema r => exec (_on_schema_registered r)
  | EvictSchemas u => exec (_on_schemas_evicted_for_owner u)
  | ValidateCitation c => exec (_validate_schema_citation c)
  | SetDataEndpoint n e => exec (_set_channel_data_endpoint n e)
  | SetProducerEndpoint n u e => exec (_set_producer_zmq_node_endpoint n u e)
  end.

(** The only restriction on a step: a ledger version has not reached 2^64-1. *)
Definition op_ok (o : op) (h : HubImpl) : Prop :=
  match o with Authorize n _ | Revoke n _ => headroom n h | _ => True end.

Inductive reachable : HubImpl → Prop :=
  | reach_init : reachable empty_hub
  | reach_step o env h : reachable h → op_ok o h → reachable (run_op o env h).

(** ** Every step preserves the invariant *)

Lemma Inv_empty : Inv empty_hub.
Proof.
  constructor; try by intros ? ? ?; simplify_map_eq.
  constructor; try by intros ? ? ?; simplify_map_eq.
  - intros u n t. unfold live, member. cbn. setoid_rewrite lookup_empty. naive_solver.
  - intros n. cbn. by rewrite !lookup_empty.
Qed.

(** The operations that leave the registries alone. *)
Lemma Inv_same_fields h h' :
  Inv h → channels_ h' = channels_ h → roles_ h' = roles_ h → bands_ h' = bands_ h →
  shm_blocks_ h' = shm_blocks_ h → peers_ h' = peers_ h →
  channel_access_index h' = channel_access_index h → schemas_ h' = schemas_ h → Inv h'.
Proof.
  intros HI ? ? ? ? Hp Ha Hs. eapply Inv_fields; try done; rewrite ?Hp, ?Ha, ?Hs; apply HI.
Qed.

#[local] Hint Resolve Inv_on_producer_added Inv_on_producer_dropped Inv_on_channel_closed
  Inv_on_consumer_joined Inv_on_consumer_left Inv_on_heartbeat Inv_on_heartbeat_timeout
  Inv_on_pending_timeout Inv_on_band_joined Inv_on_band_left Inv_on_peer_connected
  Inv_on_peer_disconnected Inv_on_channel_access_opened Inv_on_channel_access_closed
  Inv_on_consumer_authorized Inv_on_consumer_revoked Inv_on_role_confirmed
  Inv_on_schema_registered Inv_validate_schema_citation Inv_set_channel_data_endpoint
  Inv_set_producer_zmq_node_endpoint : hub.

Lemma Inv_step o env h : op_ok o h → Inv h → Inv (run_op o env h).
Proof.
  intros Hok HI. destruct o; cbn [run_op]; auto with hub.
  all: try by (eapply Inv_same_fields; [exact HI|..]).
  - unfold unsubscribe. case_bool_decide; [done|]. by eapply Inv_same_fields; [exact HI|..].
  - unfold nonce_seen. run. destruct (ReplayGuard.check_and_record _ _ _ _ _). run.
    by eapply Inv_same_fields; [exact HI|..].
  - unfold append_console_line. run. destruct (ConsoleBuffer.append _ _ _ _ _). run.
    by eapply Inv_same_fields; [exact HI|..].
  - unfold _on_schemas_evicted_for_owner. case_match; [done|]. case_match; [done|]. run.
    eapply Inv_fields; try done; try apply HI. apply schemas_ok_filter, HI.
Qed.

Lemma reachable_Inv h : reachable h → Inv h.
Proof. induction 1; [apply Inv_empty|by apply Inv_step]. Qed.
End HubReach.

Import Json Entries HubCore HubOps EntryFacts HubInv SchemaRegistry HubPreserve HubReach.

Module HubProps.

(** ** A small hub to evaluate on *)

Definition sample_producer (uid : string) : ProducerEntry :=
  mkProducerEntry 11 "hostA" "idA" "cam" uid "" "" "" "" "" "K" "" JNull 0.
Definition sample_consumer (uid : string) : ConsumerEntry :=
  mkConsumerEntry 12 "hostB" "idB" "Q" "view" uid "" "" "" "" 0.
Definition sample_schema : ChannelSchemaInvariants := mkSchemaInvariants "h" "" "" "" "".
Definition zmq : ChannelTransportInvariants := mkTransportInvariants "zmq".
Definition shm : ChannelTransportInvariants := mkTransportInvariants "shm".
Definition env0 : Env := mkEnv 1000 50.

Definition run_ops (os : list op) (h : HubImpl) : HubImpl :=
  foldl (λ h o, run_op o env0 h) h os.

Definition unrestricted (o : op) : bool :=
  match o with Authorize _ _ | Revoke _ _ => false | _ => true end.

Lemma reachable_run_ops os h :
  forallb unrestricted os = true → reachable h → reachable (run_ops os h).
Proof.
  revert h. induction os as [|o os IH]; intros h; [done|]. cbn.
  intros [Ho Hos]%andb_true_iff Hr. apply IH; [done|]. constructor; [done|]. by destruct o.
Qed.

(** A consumer-opened fan-in channel with two producers, one of which is also
    in a band; and an SHM channel of a processor. *)
Definition sample_ops : list op :=
  [ConsumerJoined "lab.temp" (sample_consumer "cons.view.u3") (Some FanIn)
     (Some sample_schema) (Some zmq);
   ProducerAdded "lab.temp" sample_schema zmq None (sample_producer "prod.cam.u1");
   ProducerAdded "lab.temp" sample_schema zmq None (sample_producer "prod.cam.u2");
   ProducerAdded "lab.shm" sample_schema shm None (sample_producer "prod.cam.u2");
   JoinBand "!main" (mkBandMember "prod.cam.u1" "cam" "idA" 0);
   Heartbeat "lab.temp" "prod.cam.u1" "producer" 60 None].

Definition sample_hub : HubImpl := run_ops sample_ops empty_hub.

Lemma sample_reachable : reachable sample_hub.
Proof. apply reachable_run_ops; [done|constructor]. Qed.

(** ** Membership *)

Lemma registered_party n u t h :
  is_role_registered_on_channel n u t h = true ↔
  valid_channel n = true ∧ u ≠ "" ∧ ∃ ch, channels_ h !! n = Some ch ∧ u ∈ party t ch.
Proof.
  unfold is_role_registered_on_channel.
  destruct (valid_channel n); cbn; [|naive_solver].
  destruct (str_empty u) eqn:Hu; cbn.
  { apply str_empty_true in Hu. naive_solver. }
  apply str_empty_false in Hu. destruct (channels_ h !! n) as [ch|]; [|naive_solver].
  assert (Hex : ∀ {A} (f : A → string) l, existsb (λ x, f x =s u) l = true ↔ u ∈ f <$> l).
  { intros A f l. rewrite existsb_exists, list_elem_of_fmap. setoid_rewrite list_elem_of_In.
    unfold str_eqb. setoid_rewrite bool_decide_eq_true. naive_solver. }
  unfold party. destruct (t =s "consumer") eqn:Hc; bool_facts.
  - cbn. rewrite Hex. naive_solver.
  - destruct (t =s "producer"); rewrite ?Hex; [naive_solver|].
    split; [done|]. intros (_ & _ & ch' & [= <-] & ?). set_solver.
Qed.

(** C1 The two registries agree in every reachable state: a role is listed on
    a channel as producer (consumer) if and only if its role entry has a
    presence row for that channel and type, and that row is live: terminal
    rows do not exist. *)
Theorem membership_agrees h n u t :
  reachable h →
  is_role_registered_on_channel n u t h = true ↔
  ∃ r p, role u h = Some r ∧ find_presence n t r = Some p ∧ rp_state p ≠ Disconnected.
Proof.
  intros HI%reachable_Inv. rewrite registered_party. destruct HI as [[HC HR HL HB HS] _ _ _].
  assert (Hmem : (valid_channel n = true ∧ u ≠ "" ∧
             ∃ ch, channels_ h !! n = Some ch ∧ u ∈ party t ch) ↔ member (channels_ h) u n t).
  { unfold member. split; [naive_solver|]. intros (? & ch & Hc & ?).
    split; [apply (HC _ _ Hc)|eauto]. }
  rewrite Hmem, <- HL. unfold live, role. split.
  - intros (r & Hr & [p Hp]%find_presence_keys). exists r, p. split_and!; [done..|].
    apply find_by_Some in Hp as [Hp _].
    destruct (HR _ _ Hr) as [_ _ Hrows _ _ _]. rewrite Forall_forall in Hrows.
    by apply Hrows.
  - intros (r & p & Hr & Hp & _). exists r. split; [done|]. apply find_presence_keys. eauto.
Qed.

Lemma membership_agrees_witness :
  is_role_registered_on_channel "lab.temp" "prod.cam.u1" "producer" sample_hub = true ∧
  ∃ r p, role "prod.cam.u1" sample_hub = Some r ∧
         find_presence "lab.temp" "producer" r = Some p ∧ rp_state p ≠ Disconnected.
Proof.
  split; [by vm_compute|].
  apply (membership_agrees sample_hub "lab.temp" "prod.cam.u1" "producer"); [|by vm_compute].
  apply sample_reachable.
Defined.

(** ** Channels *)

(** Every channel in a reachable state respects its topology: fan-in has at
    most one consumer and is never on SHM, fan-out at most one producer,
    one-to-one at most one of each; producer uids are unique; the entry is
    stored under its own, valid, name, and its SHM block exists exactly when
    the channel is on SHM. *)
Theorem channel_respects_topology h n ch :
  reachable h → channel n h = Some ch →
  ch_name ch = n ∧ valid_channel n = true ∧
  NoDup (p_role_uid <$> producers ch) ∧
  (topology ch = FanIn → (consumer_count ch ≤ 1)%nat ∧ is_shm ch = false) ∧
  (topology ch = FanOut → (producer_count ch ≤ 1)%nat) ∧
  (topology ch = OneToOne → (producer_count ch ≤ 1)%nat ∧ (consumer_count ch ≤ 1)%nat) ∧
  shm_block n h = (if is_shm ch then Some (mkShmBlockRef n n) else None).
Proof.
  intros HI%reachable_Inv Hc. unfold channel in Hc.
  destruct (core_channels _ _ _ _ (inv_core _ HI) _ _ Hc) as [Hn Hv Hp _ Hcard Htr].
  unfold cardinality_ok, producer_count, consumer_count, shm_block, is_shm in *.
  rewrite (core_shm _ _ _ _ (inv_core _ HI)), Hc. unfold shm_of, is_shm. cbn.
  split_and!; try done; intros Ht; rewrite Ht in *; try done.
  split; [done|]. unfold transport_compatible in Htr. cbn in Htr.
  by destruct (ch_data_transport ch =s "shm").
Qed.

Lemma channel_respects_topology_witness :
  ∃ ch, channel "lab.temp" sample_hub = Some ch ∧ length (producers ch) = 2%nat ∧
        (consumer_count ch ≤ 1)%nat ∧ is_shm ch = false.
Proof.
  destruct (channel "lab.temp" sample_hub) as [ch|] eqn:Hc; [|by vm_compute in Hc].
  exists ch. destruct (channel_respects_topology sample_hub "lab.temp" ch sample_reachable Hc)
    as (_ & _ & _ & Hfan & _). vm_compute in Hc. injection Hc as <-.
  split; [done|]. split; [done|]. by apply Hfan.
Defined.

(** ** Roles *)

(** A role entry in a reachable state is what its uid and its presence rows
    say: stored under its uid, with the tag and name parsed from it; no two
    rows for one (channel, type); and its channel list, free of duplicates,
    is exactly the set of channels its rows name. *)
Theorem role_entry_consistent h u r :
  reachable h → role u h = Some r →
  re_uid r = u ∧ Naming.extract_short_tag u = Some (re_short_tag r) ∧
  Naming.name <$> Naming.parse_role_uid u = Some (re_name r) ∧
  NoDup (presence_key <$> presences r) ∧ NoDup (channels r) ∧
  ∀ c, c ∈ channels r ↔ ∃ t p, find_presence c t r = Some p.
Proof.
  intros HI%reachable_Inv Hr.
  destruct (core_roles _ _ _ _ (inv_core _ HI) _ _ Hr) as [Hu (x & Hp) _ Hk Hc Hcache].
  split_and!; try done.
  - unfold Naming.extract_short_tag. by rewrite Hp.
  - by rewrite Hp.
  - intros c. rewrite Hcache, list_elem_of_fmap. split.
    + intros ([c' t] & -> & [p Hfp]%find_presence_keys). by exists t, p.
    + intros (t & p & Hfp). exists (c, t). split; [done|]. apply find_presence_keys. eauto.
Qed.

Lemma role_entry_consistent_witness :
  ∃ r, role "prod.cam.u2" sample_hub = Some r ∧ channels r = ["lab.temp"; "lab.shm"] ∧
       Naming.extract_short_tag "prod.cam.u2" = Some (re_short_tag r).
Proof.
  destruct (role "prod.cam.u2" sample_hub) as [r|] eqn:Hr; [|by vm_compute in Hr].
  exists r. destruct (role_entry_consistent sample_hub "prod.cam.u2" r sample_reachable Hr)
    as (_ & Ht & _). split; [done|]. split; [|exact Ht].
  vm_compute in Hr. by injection Hr as <-.
Defined.

(** ** Bands and access records *)

(** A band in a reachable state is never empty, lists a member once, and
    every member with a uid is a registered role: band membership ends with
    the role.  The access ledger of every channel is well formed: versions
    handed out are distinct and never ahead of the current one, and no role
    has confirmed beyond it. *)
Theorem bands_and_ledgers_consistent h :
  reachable h →
  (∀ n b, band n h = Some b →
     band_name b = n ∧ members b ≠ [] ∧ NoDup (bm_role_uid <$> members b) ∧
     ∀ m, m ∈ members b → bm_role_uid m ≠ "" → is_Some (role (bm_role_uid m) h)) ∧
  (∀ n a, channel_access n h = Some a → Ledger.wf (ledger a)).
Proof.
  intros HI%reachable_Inv. split.
  - intros n b Hb. destruct (core_bands _ _ _ _ (inv_core _ HI) _ _ Hb). auto.
  - intros n a Ha. by apply (inv_access _ HI) in Ha as [_ ?].
Qed.

Lemma bands_and_ledgers_consistent_witness :
  ∃ b, band "!main" sample_hub = Some b ∧ members b ≠ [] ∧
       is_Some (role "prod.cam.u1" sample_hub).
Proof.
  destruct (bands_and_ledgers_consistent sample_hub sample_reachable) as [Hb _].
  destruct (band "!main" sample_hub) as [b|] eqn:E; [|by vm_compute in E].
  exists b. destruct (Hb _ _ E) as (_ & Hne & _ & Hm). split_and!; [done..|].
  vm_compute in E. injection E as <-. apply (Hm (mkBandMember "prod.cam.u1" "cam" "idA" 0)).
  - by left.
  - done.
Defined.
End HubProps.
