(* ===== verification/PresenceFsm.v ===== *)
(** * The presence state machine as an abstract specification

    Per (role uid, channel, role type) the hub promises a small state machine:
    absent, connected (with or without a first heartbeat) or pending.  This
    file states that machine, the view of the hub state it abstracts, and that
    every operation of the hub moves every presence along at most one edge of
    it, so no operation can resurrect, skip or invent a state. *)

From S2P Require Import Prelude.
From S2P Require Import Json.
From S2P Require Import Naming.
From S2P Require Import Ledger.
From S2P Require Import ReplayGuard.
From S2P Require Import ConsoleBuffer.
From S2P Require Import Entries.
From S2P Require Import HubCore.
From S2P Require Import HubOps.
From S2P Require Import EntryFacts.
From S2P Require Import HubInv.
From S2P Require Import SchemaRegistry.
From S2P Require Import HubPreserve.
From S2P Require Import HubProps.
Import Json Entries HubCore HubOps EntryFacts HubInv SchemaRegistry HubPreserve HubReach HubProps.

Module PresenceFsm.

Implicit Types (R : gmap string RoleEntry) (h : HubImpl).

(** ** The abstract machine *)

(** [None]: no presence.  [Some (s, seen)]: state and whether a heartbeat has
    been received since registration. *)
Definition abs : Type := option (RoleState * bool).

(** The machine of one presence [(u, n, t)] (role uid, channel, type), by the
    operation that moves it.  [A] gives the state of every presence before the
    operation and [closed] the channels that the operation removes: a channel
    that closes takes all its presences with it, and it closes by request, by
    the departure of a producer, or by the pending timeout of a producer that
    really is pending. *)
Inductive edge (A : string → string → string → abs) (closed : string → Prop) :
    op → string → string → string → abs → abs → Prop :=
  | edge_producer n schema transport declared p :
      edge A closed (ProducerAdded n schema transport declared p) (p_role_uid p) n "producer"
        None (Some (Connected, false))
  | edge_consumer n c declared os ot :
      edge A closed (ConsumerJoined n c declared os ot) (c_role_uid c) n "consumer"
        None (Some (Connected, false))
  | edge_heartbeat u n t when metrics s b :
      edge A closed (Heartbeat n u t when metrics) u n t (Some (s, b)) (Some (Connected, true))
  | edge_timeout u n t b :
      edge A closed (HeartbeatTimedOut n u t) u n t (Some (Connected, b)) (Some (Pending, b))
  | edge_reap u n ty b :
      edge A closed (PendingTimedOut n u ty) u n
        (if ty =s "consumer" then "consumer" else "producer") (Some (Pending, b)) None
  | edge_drop u n why s b :
      edge A closed (ProducerDropped n u why) u n "producer" (Some (s, b)) None
  | edge_leave u n s b :
      edge A closed (ConsumerLeft n u) u n "consumer" (Some (s, b)) None
  | edge_close u n t why s b :
      closed n → edge A closed (ChannelClose n why) u n t (Some (s, b)) None
  | edge_last_drop u u' n t why s b :
      closed n → edge A closed (ProducerDropped n u' why) u n t (Some (s, b)) None
  | edge_last_reap u u' n t ty s b b' :
      closed n → A u' n "producer" = Some (Pending, b') →
      edge A closed (PendingTimedOut n u' ty) u n t (Some (s, b)) None.

(** ** The view *)

Definition presence_of R (u n t : string) : option RolePresence :=
  r ← R !! u; find_presence n t r.

Definition view (p : RolePresence) : RoleState * bool := (rp_state p, first_heartbeat_seen p).

Definition abs_of (h : HubImpl) (u n t : string) : abs := view <$> presence_of (roles_ h) u n t.

(** The channel is there before the operation and not after it. *)
Definition removed_channel (h h' : HubImpl) (n : string) : Prop :=
  is_Some (channel n h) ∧ channel n h' = None.

(** A change of the role registry that moves every presence along at most one
    edge of [E]. *)
Definition moves (E : string → string → string → abs → abs → Prop) R R' : Prop :=
  ∀ u n t, view <$> presence_of R' u n t = view <$> presence_of R u n t ∨
           E u n t (view <$> presence_of R u n t) (view <$> presence_of R' u n t).

Lemma moves_refl E R : moves E R R.
Proof. by left. Qed.

(** Composition when the second change leaves all presences alone. *)
Lemma moves_same E R R' R'' :
  moves E R R' → (∀ u n t, presence_of R'' u n t = presence_of R' u n t) → moves E R R''.
Proof. intros HM Hs u n t. rewrite Hs. apply HM. Qed.

(** ** Presences under the updates of the registry *)

Lemma presence_insert R uid r u n t :
  presence_of (<[uid := r]> R) u n t =
  if bool_decide (u = uid) then find_presence n t r else presence_of R u n t.
Proof.
  unfold presence_of. case_bool_decide as Hu; [subst; by rewrite lookup_insert_eq|].
  by rewrite lookup_insert_ne.
Qed.

Lemma presence_alter R f uid u n t :
  presence_of (alter f uid R) u n t =
  if bool_decide (u = uid) then (r ← R !! uid; find_presence n t (f r)) else presence_of R u n t.
Proof.
  unfold presence_of. case_bool_decide as Hu; [subst|by rewrite lookup_alter_ne].
  rewrite lookup_alter_eq. by destruct (R !! uid).
Qed.

Lemma find_presence_end c ty r n t :
  NoDup (keys r) →
  find_presence n t (end_presence c ty r) =
  if bool_decide ((n, t) = (c, ty)) then None else find_presence n t r.
Proof.
  intros Hk. unfold find_presence. rewrite end_presence_presences.
  case_bool_decide as He; [rewrite He; by apply find_by_erase_by_eq|].
  by apply find_by_erase_by_ne.
Qed.

Lemma presence_end R c ty uid u n t :
  wf_roles R →
  presence_of (alter (end_presence c ty) uid R) u n t =
  if bool_decide ((u, n, t) = (uid, c, ty)) then None else presence_of R u n t.
Proof.
  intros HR. rewrite presence_alter. unfold presence_of.
  destruct (decide (u = uid)) as [->|Hu].
  - rewrite bool_decide_eq_true_2 by done. destruct (R !! uid) as [r|] eqn:Hr; cbn.
    + rewrite find_presence_end by apply (HR _ _ Hr).
      destruct (decide ((n, t) = (c, ty))) as [[= -> ->]|Hne].
      * by rewrite !bool_decide_eq_true_2.
      * rewrite !bool_decide_eq_false_2 by congruence. done.
    + by case_bool_decide.
  - rewrite !bool_decide_eq_false_2 by congruence. done.
Qed.

Lemma presence_end_all R c ty uids u n t :
  wf_roles R →
  presence_of (end_all c ty uids R) u n t =
  if bool_decide (u ∈ uids ∧ (n, t) = (c, ty)) then None else presence_of R u n t.
Proof.
  unfold end_all. revert R. induction uids as [|v uids IH]; intros R HR; cbn [foldl].
  - rewrite bool_decide_eq_false_2 by set_solver. done.
  - rewrite IH by by apply wf_roles_end. rewrite presence_end by done.
    repeat case_bool_decide; set_solver.
Qed.

Lemma presence_upserted env uid tag name pubkey c ty found n t :
  find_presence n t (upserted_role env uid tag name pubkey c ty found) =
  match found ≫= find_presence n t with
  | Some p => Some p
  | None => if negb (str_empty c || str_empty ty) && bool_decide ((n, t) = (c, ty))
            then Some (new_presence c ty (steady_now env)) else None
  end.
Proof.
  assert (Hup : ∀ r, find_presence n t (upsert_presence_row_locked c ty (steady_now env) r) =
            match find_presence n t r with
            | Some p => Some p
            | None => if negb (str_empty c || str_empty ty) && bool_decide ((n, t) = (c, ty))
                      then Some (new_presence c ty (steady_now env)) else None
            end).
  { intros r. unfold upsert_presence_row_locked.
    destruct (str_empty c || str_empty ty); [by destruct (find_presence n t r)|]. cbn [negb andb].
    destruct (find_presence c ty r) eqn:E.
    - case_bool_decide as He; [injection He as -> ->; by rewrite E|].
      by destruct (find_presence n t r).
    - unfold find_presence at 1. cbn. rewrite find_by_app. fold (find_presence n t r).
      destruct (find_presence n t r) eqn:E'; [done|]. cbn. unfold presence_key. cbn.
      repeat case_bool_decide; congruence. }
  unfold upserted_role. destruct found as [ex|]; rewrite Hup; [|done].
  assert (Hfp : ∀ e : RoleEntry, presences e = presences ex →
            find_presence n t e = find_presence n t ex) by (unfold find_presence; congruence).
  rewrite Hfp; [done|]. by destruct (str_empty pubkey), (negb (str_empty c) && bool_decide _).
Qed.

Lemma moves_upsert E R env uid tag name pubkey c ty :
  (c ≠ "" → E uid c ty None (Some (Connected, false))) →
  moves E R (<[uid := upserted_role env uid tag name pubkey c ty (R !! uid)]> R).
Proof.
  intros HE u n t. rewrite presence_insert. case_bool_decide as Hu; [subst|by left].
  rewrite presence_upserted. unfold presence_of.
  destruct (R !! uid ≫= find_presence n t) as [p|]; [by left|].
  destruct (negb _ && _) eqn:Hc; [|by left]. right.
  apply andb_true_iff in Hc as [Hc [= -> ->]%bool_decide_eq_true]. apply HE.
  intros ->. by cbn in Hc.
Qed.

Lemma moves_end E R c ty uid :
  wf_roles R → (∀ p, presence_of R uid c ty = Some p → E uid c ty (Some (view p)) None) →
  moves E R (alter (end_presence c ty) uid R).
Proof.
  intros HR HE u n t. rewrite presence_end by done. case_bool_decide as He; [|by left].
  injection He as -> -> ->. destruct (presence_of R uid c ty); [right; by apply HE|by left].
Qed.

(** Rows changed in place. *)
Lemma find_presence_alter_row f k r n t :
  row_update f →
  find_presence n t (r <| presences ::= alter_by presence_key f k |>) =
  if bool_decide ((n, t) = k) then f <$> find_presence n t r else find_presence n t r.
Proof.
  intros Hf. unfold find_presence. cbn. rewrite find_by_alter_by by apply Hf.
  case_bool_decide as He; [by rewrite He|done].
Qed.

Lemma moves_row E R uid r f k :
  R !! uid = Some r → row_update f → (∀ p, find_presence k.1 k.2 r = Some p →
     view (f p) = view p ∨ E uid k.1 k.2 (Some (view p)) (Some (view (f p)))) →
  moves E R (<[uid := r <| presences ::= alter_by presence_key f k |>]> R).
Proof.
  intros Hr Hf Hview u n t. rewrite presence_insert. case_bool_decide as Hu; [subst|by left].
  rewrite find_presence_alter_row by done. unfold presence_of. rewrite Hr. cbn.
  case_bool_decide as Hk; [subst k|by left]. cbn in Hview.
  destruct (find_presence n t r) as [p|]; [|by left]. cbn.
  destruct (Hview p eq_refl) as [Hv|]; [left; by rewrite Hv|by right].
Qed.

(** ** The operations *)

Lemma Inv_wf_roles h : Inv h → wf_roles (roles_ h).
Proof. intros HI. exact (core_roles _ _ _ _ (inv_core _ HI)). Qed.

Lemma presence_dispatch uid env h u n t :
  presence_of (roles_ (exec (_dispatch_role_disconnected_if_dead uid) env h)) u n t =
  presence_of (roles_ h) u n t.
Proof.
  unfold _dispatch_role_disconnected_if_dead. run.
  destruct (roles_ h !! uid) as [r|] eqn:Hr; [|done].
  destruct (any_presence_alive r) eqn:Ha; [done|]. apply any_presence_alive_false in Ha.
  rewrite exec_erase_role. cbn. unfold presence_of. destruct (decide (u = uid)) as [->|].
  - rewrite lookup_delete_eq, Hr. cbn. unfold find_presence. by rewrite Ha.
  - by rewrite lookup_delete_ne.
Qed.

Lemma presence_dispatch_all uids env h u n t :
  presence_of (roles_ (exec (for_each _dispatch_role_disconnected_if_dead uids) env h)) u n t =
  presence_of (roles_ h) u n t.
Proof.
  revert h. induction uids as [|v uids IH]; intros h; [done|]. cbn [for_each].
  by rewrite exec_bind, IH, presence_dispatch.
Qed.

Lemma channels_dispatch_all uids env h :
  channels_ (exec (for_each _dispatch_role_disconnected_if_dead uids) env h) = channels_ h.
Proof.
  revert h. induction uids as [|v uids IH]; intros h; [done|]. cbn [for_each].
  rewrite exec_bind, IH. unfold _dispatch_role_disconnected_if_dead. run.
  destruct (roles_ h !! v) as [r|]; [|done]. rewrite exec_if.
  case_match; [done|by rewrite exec_erase_role].
Qed.

Lemma closed_channel_removed name why ch env h :
  valid_channel name = true → channels_ h !! name = Some ch →
  removed_channel h (exec (_on_channel_closed name why) env h) name.
Proof.
  intros Hv Hc. unfold removed_channel, channel. rewrite Hc. split; [by eexists|].
  rewrite (exec_on_channel_closed _ _ ch) by done. rewrite !channels_dispatch_all.
  cbn. apply lookup_delete_eq.
Qed.

Lemma moves_close E name why env h :
  Inv h →
  (removed_channel h (exec (_on_channel_closed name why) env h) name →
   ∀ u t v, E u name t (Some v) None) →
  moves E (roles_ h) (roles_ (exec (_on_channel_closed name why) env h)).
Proof.
  intros HI HE. destruct (valid_channel name) eqn:Hv.
  - destruct (channels_ h !! name) as [ch|] eqn:Hc.
    + specialize (HE (closed_channel_removed name why ch env h Hv Hc)).
      rewrite (exec_on_channel_closed _ _ ch) by done. intros u n t.
      rewrite !presence_dispatch_all. cbn.
      assert (HR := Inv_wf_roles h HI).
      rewrite !presence_end_all; [|done|by apply end_all_spec].
      destruct (presence_of (roles_ h) u n t) as [p|]; repeat case_bool_decide; cbn;
        try (by left); right; destruct_and!; simplify_eq; apply HE.
    + rewrite exec_on_channel_closed_absent by done. apply moves_refl.
  - unfold _on_channel_closed. rewrite Hv. apply moves_refl.
Qed.

(** What is proved of each operation. *)
Definition moved (o : op) (env : Env) (h : HubImpl) : Prop :=
  moves (edge (abs_of h) (removed_channel h (run_op o env h)) o)
    (roles_ h) (roles_ (run_op o env h)).

Lemma moved_channel_close name why env h : Inv h → moved (ChannelClose name why) env h.
Proof.
  intros HI. apply moves_close; [done|]. intros Hc u t [s b]. by constructor.
Qed.

Lemma roles_reset n u h : roles_ (reset_confirmation n u h) = roles_ h.
Proof. done. Qed.

Lemma moved_producer_added name schema transport declared p env h :
  Inv h → moved (ProducerAdded name schema transport declared p) env h.
Proof.
  intros HI. unfold moved. generalize (removed_channel h). intros cl. cbn [run_op].
  generalize (cl (exec (_on_producer_added name schema transport declared p) env h)). clear cl.
  intros cl. unfold _on_producer_added.
  destruct (negb _ || _ || _) eqn:Hv; [run; apply moves_refl|].
  apply orb_false_iff in Hv as [[Hvc Hvr]%orb_false_iff _]. apply negb_false_iff in Hvc.
  pose proof (admit_producer_locked_spec name schema transport declared p env h HI Hvc) as Hadm.
  cbv zeta in Hadm. rewrite exec_bind.
  destruct (result (admit_producer_locked _ _ _ _ _) env h) as [?|[res fired]].
  { run. rewrite Hadm. apply moves_refl. }
  destruct Hadm as (ch & -> & _). run.
  destruct (str_empty (p_role_uid p)) eqn:Hu.
  - run. destruct fired; run; [destruct (ti_data_transport transport =s "shm")|]; run; apply moves_refl.
  - cbn in Hvr. apply negb_false_iff in Hvr.
    destruct (valid_role_uid_parse _ Hvr) as [parts Hparts].
    run. destruct fired; run; rewrite !(exec_upsert_role _ _ _ _ _ _ _ Hparts);
      [destruct (ti_data_transport transport =s "shm")|]; run; apply moves_upsert; constructor.
Qed.

Lemma moves_dispatch_if E (b : bool) uid env h R :
  moves E R (roles_ h) →
  moves E R (roles_ (exec (if b then _dispatch_role_disconnected_if_dead uid else mret tt) env h)).
Proof.
  intros HM. destruct b; [|done]. eapply moves_same; [done|].
  intros. apply presence_dispatch.
Qed.

Lemma moved_producer_dropped name uid reason env h :
  Inv h → moved (ProducerDropped name uid reason) env h.
Proof.
  intros HI. unfold moved. cbn [run_op]. unfold _on_producer_dropped.
  destruct (negb _ || negb _) eqn:Hv; [run; apply moves_refl|]. run.
  destruct (channels_ h !! name) as [ch|] eqn:Hc; [|apply moves_refl].
  destruct (find_producer uid ch) eqn:Hf; [|apply moves_refl].
  rewrite exec_if. case_bool_decide.
  { run. apply moves_close; [done|]. intros Hcl u t [s b]. by constructor. }
  destruct (remove_producer uid ch) as [rm ch']. run.
  apply moves_dispatch_if. apply (moves_end _ (roles_ h)); [by apply Inv_wf_roles|].
  intros q _. constructor.
Qed.

Lemma moved_consumer_joined name c declared os ot env h :
  Inv h → moved (ConsumerJoined name c declared os ot) env h.
Proof.
  intros HI. unfold moved. cbn [run_op].
  generalize (removed_channel h (exec (_on_consumer_joined name c declared os ot) env h)).
  intros cl. unfold _on_consumer_joined.
  destruct (negb _ || _ || _) eqn:Hv; [run; apply moves_refl|].
  apply orb_false_iff in Hv as [[Hvc Hvr]%orb_false_iff _]. apply negb_false_iff in Hvc.
  rewrite exec_bind.
  destruct (add_consumer_spec name c declared os ot env h HI Hvc)
    as [[Ha ->]|[Ha (ch & -> & _)]]; rewrite Ha; cbn [negb]; [run; apply moves_refl|]. run.
  destruct (str_empty (c_role_uid c)) eqn:Hu; [run; apply moves_refl|].
  cbn in Hvr. apply negb_false_iff in Hvr.
  destruct (valid_role_uid_parse _ Hvr) as [parts Hparts]. run.
  rewrite (exec_upsert_role _ _ _ _ _ _ _ Hparts). apply moves_upsert. constructor.
Qed.

Lemma roles_remove_consumer name uid env h :
  roles_ (exec (_remove_consumer name uid) env h) = roles_ h.
Proof.
  unfold _remove_consumer. run. destruct (channels_ h !! name); [|done]. run.
  rewrite exec_if. by case_match.
Qed.

Lemma moved_consumer_left name uid env h : Inv h → moved (ConsumerLeft name uid) env h.
Proof.
  intros HI. unfold moved. cbn [run_op].
  generalize (removed_channel h (exec (_on_consumer_left name uid) env h)). intros cl.
  unfold _on_consumer_left.
  destruct (negb _ || _); [apply moves_refl|]. rewrite exec_bind, exec_if.
  case_match; [rewrite exec_ret, roles_remove_consumer; apply moves_refl|].
  run. rewrite roles_remove_consumer.
  destruct (roles_ h !! uid); run; [|rewrite roles_remove_consumer; apply moves_refl].
  eapply moves_same; [|intros; apply presence_dispatch]. cbn.
  rewrite roles_remove_consumer. apply (moves_end _ (roles_ h)); [by apply Inv_wf_roles|].
  intros q _. constructor.
Qed.

Lemma find_presence_set_metrics m now c ty r n t :
  view <$> find_presence n t (set_metrics m now c ty r) = view <$> find_presence n t r.
Proof.
  unfold set_metrics. destruct m as [m|]; [|done].
  rewrite find_presence_alter_row by apply row_update_metrics.
  case_bool_decide; [|done]. by destruct (find_presence n t r).
Qed.

Lemma moved_heartbeat channel uid ty when metrics env h :
  moved (Heartbeat channel uid ty when metrics) env h.
Proof.
  unfold moved. cbn [run_op].
  generalize (removed_channel h (exec (_on_heartbeat channel uid ty when metrics) env h)).
  intros cl. unfold _on_heartbeat. destruct (negb _ || _); [run; apply moves_refl|].
  destruct (_ || _); [apply moves_refl|]. run.
  destruct (roles_ h !! uid) as [r|] eqn:Hr; [|apply moves_refl].
  unfold on_heartbeat. destruct (find_presence channel ty r) as [p|] eqn:Hp; [|apply moves_refl].
  cbn [presence_found negb]. run. rewrite !exec_if. run.
  set (r1 := r <| presences ::= alter_by presence_key (beat when) (channel, ty) |>).
  set (E := edge (abs_of h) cl (Heartbeat channel uid ty when metrics)).
  assert (HM : moves E (roles_ h)
            (<[uid := set_metrics metrics (system_now env) channel ty r1]> (roles_ h))).
  { assert (HM1 : moves E (roles_ h) (<[uid := r1]> (roles_ h))).
    { apply moves_row; [done|apply row_update_beat|]. intros q Hq. right.
      unfold view, beat. case_bool_decide as Hs; cbn; [constructor|].
      cbn in Hs. rewrite Hs. constructor. }
    intros u n t. specialize (HM1 u n t). rewrite presence_insert in *.
    case_bool_decide; [|done]. by rewrite find_presence_set_metrics. }
  cbn [prev_state]. repeat case_match; run; exact HM.
Qed.

Lemma moved_heartbeat_timeout channel uid ty env h :
  moved (HeartbeatTimedOut channel uid ty) env h.
Proof.
  unfold moved. cbn [run_op].
  generalize (removed_channel h (exec (_on_heartbeat_timeout channel uid ty) env h)).
  intros cl. unfold _on_heartbeat_timeout. destruct (negb _ || _); [apply moves_refl|].
  destruct (_ || _); [apply moves_refl|]. run.
  destruct (roles_ h !! uid) as [r|] eqn:Hr; [|apply moves_refl].
  unfold on_heartbeat_timeout. destruct (find_presence channel ty r) as [p|] eqn:Hp; [|apply moves_refl].
  case_bool_decide as Hs; [apply moves_refl|].
  rewrite bool_decide_eq_false_2 by tauto. run.
  assert (HM : moves (edge (abs_of h) cl (HeartbeatTimedOut channel uid ty))
             (roles_ h) (<[uid := r <| presences ::= alter_by presence_key
             (λ p, p <| rp_state := Pending |> <| state_since := steady_now env |>)
             (channel, ty) |>]> (roles_ h))).
  { apply moves_row; [done|apply row_update_pending|]. cbn. intros q Hq. right.
    simplify_eq. unfold view. cbn. rewrite Hs. constructor. }
  rewrite exec_if. run. case_match; exact HM.
Qed.

Lemma moves_insert_end E R c ty uid r :
  wf_roles R → R !! uid = Some r →
  (∀ p, find_presence c ty r = Some p → E uid c ty (Some (view p)) None) →
  moves E R (<[uid := end_presence c ty r]> R).
Proof.
  intros HR Hr HE. rewrite <- (alter_insert_lookup (end_presence c ty) _ _ _ Hr).
  apply moves_end; [done|]. intros p Hp. apply HE. unfold presence_of in Hp. by rewrite Hr in Hp.
Qed.

(** A pending timeout that takes effect found the presence pending. *)
Lemma pending_timeout_pending c ty r :
  (on_pending_timeout c ty r).1 = ToDisconnected →
  ∃ p, find_presence c ty r = Some p ∧ rp_state p = Pending.
Proof.
  unfold on_pending_timeout. destruct (find_presence c ty r) as [p|]; [|done].
  case_bool_decide as Hs; [done|]. intros _. exists p. split; [done|].
  by destruct (decide (rp_state p = Pending)).
Qed.

Lemma moved_pending_consumer channel uid env h :
  Inv h →
  moved (PendingTimedOut channel uid "consumer") env h.
Proof.
  intros HI. unfold moved. cbn [run_op].
  generalize (removed_channel h (exec (_on_pending_timeout channel uid "consumer") env h)).
  intros cl. unfold _on_pending_timeout.
  destruct (negb _ || negb _) eqn:Hv; [run; apply moves_refl|].
  cbn [str_empty]. change ("consumer" =s "consumer") with true. cbn iota.
  unfold pending_timeout_consumer. run.
  destruct (channels_ h !! channel) as [ch|] eqn:Hc; [|apply moves_refl].
  destruct (roles_ h !! uid) as [r|] eqn:Hr; [|apply moves_refl].
  destruct (on_pending_timeout channel "consumer" r) as [te r1] eqn:Hte.
  rewrite exec_if. case_bool_decide as Hdis; [apply moves_refl|].
  assert (te = ToDisconnected) as -> by (by destruct te).
  destruct (on_pending_timeout_dereg channel "consumer" r ltac:(by rewrite Hte)) as [Heq _].
  destruct (pending_timeout_pending channel "consumer" r ltac:(by rewrite Hte)) as (q & Hq & Hpend).
  rewrite Hte in Heq. cbn in Heq. subst r1.
  destruct (remove_consumer uid ch) as [rm ch']. unfold bump_pending_to_deregistered. run.
  eapply moves_same; [|intros; apply presence_dispatch].
  apply (moves_insert_end _ _ channel "consumer"); [by apply Inv_wf_roles|done|].
  intros q' Hq'. simplify_eq. unfold view. rewrite Hpend. apply (edge_reap _ _ _ _ "consumer").
Qed.

Lemma moved_pending_producer channel uid ty env h :
  Inv h → ty ≠ "consumer" → moved (PendingTimedOut channel uid ty) env h.
Proof.
  intros HI Hne. unfold moved. cbn [run_op].
  remember (removed_channel h (exec (_on_pending_timeout channel uid ty) env h)) as cl eqn:Hcl.
  revert Hcl. unfold _on_pending_timeout.
  destruct (negb _ || negb _) eqn:Hv; intros Hcl; [run; apply moves_refl|]. bool_facts.
  assert (Hty : (ty =s "consumer") = false) by (by apply bool_decide_eq_false).
  destruct (str_empty ty); [apply moves_refl|]. rewrite Hty in Hcl |- *. revert Hcl.
  unfold pending_timeout_producer. run.
  destruct (channels_ h !! channel) as [ch|] eqn:Hc; intros Hcl; [|apply moves_refl].
  revert Hcl. cbn.
  destruct (find_producer uid ch) eqn:Hf; intros Hcl; [|apply moves_refl]. revert Hcl. cbn.
  destruct (roles_ h !! uid) as [r|] eqn:Hr; intros Hcl; [|apply moves_refl].
  destruct (on_pending_timeout channel "producer" r) as [te r1] eqn:Hte.
  rewrite exec_if in Hcl |- *. case_bool_decide as Hdis; [apply moves_refl|].
  assert (te = ToDisconnected) as -> by (by destruct te).
  destruct (on_pending_timeout_dereg channel "producer" r ltac:(by rewrite Hte)) as [Heq Hk].
  destruct (pending_timeout_pending channel "producer" r ltac:(by rewrite Hte)) as (q & Hq & Hpend).
  rewrite Hte in Heq. cbn in Heq. subst r1.
  unfold bump_pending_to_deregistered in *.
  rewrite exec_bind, exec_modify, exec_if in Hcl |- *.
  assert (HI' := Inv_counters (λ c, c <| pending_to_deregistered_total ::= u64_succ |>) h HI).
  case_bool_decide.
  - rewrite exec_bind, exec_modify, exec_bind, exec_ret in Hcl |- *.
    pose proof (close_after_dereg channel uid r HeartbeatTimeout env _ HI' Hr
      ltac:(by apply valid_role_uid_nonempty) Hk H) as Heq.
    subst cl. refine (eq_ind_r (λ h', moves (edge (abs_of h) (removed_channel h h')
      (PendingTimedOut channel uid ty)) (roles_ h) (roles_ h')) _ Heq).
    apply (moves_close _ channel HeartbeatTimeout env _ HI'). intros Hcl u t [s b].
    apply (edge_last_reap _ _ _ _ _ _ _ _ _ (first_heartbeat_seen q)); [exact Hcl|].
    unfold abs_of, presence_of. rewrite Hr. cbn. rewrite Hq. cbn. unfold view. by rewrite Hpend.
  - clear Hcl. destruct (remove_producer uid ch) as [rm ch']. run.
    eapply moves_same; [|intros; apply presence_dispatch].
    apply (moves_insert_end _ _ channel "producer"); [by apply Inv_wf_roles|done|].
    intros q' Hq'. simplify_eq. unfold view. rewrite Hpend.
    pose proof (edge_reap (abs_of h) cl uid channel ty (first_heartbeat_seen q)) as HE.
    by rewrite Hty in HE.
Qed.

Lemma moved_pending_timeout channel uid ty env h :
  Inv h → moved (PendingTimedOut channel uid ty) env h.
Proof.
  intros HI. destruct (decide (ty = "consumer")) as [->|Hne].
  - by apply moved_pending_consumer.
  - by apply moved_pending_producer.
Qed.

Lemma moved_band_joined band member env h : moved (JoinBand band member) env h.
Proof.
  unfold moved. cbn [run_op].
  generalize (removed_channel h (exec (_on_band_joined band member) env h)). intros cl. unfold _on_band_joined. destruct (negb _ || _) eqn:Hv; [apply moves_refl|].
  apply orb_false_iff in Hv as [Hvb Hvr].
  unfold _set_band_joined. run. rewrite exec_if. run.
  destruct (str_empty (bm_role_uid member)) eqn:Hu; [apply moves_refl|].
  cbn in Hvr. apply negb_false_iff in Hvr.
  destruct (valid_role_uid_parse _ Hvr) as [parts Hparts].
  rewrite (exec_upsert_role _ _ _ _ _ _ _ Hparts). by apply moves_upsert.
Qed.

#[local] Hint Resolve moved_channel_close moved_producer_added moved_producer_dropped
  moved_consumer_joined moved_consumer_left moved_heartbeat moved_heartbeat_timeout
  moved_pending_timeout moved_band_joined : hub.

Lemma moved_step o env h : Inv h → moved o env h.
Proof.
  intros HI. destruct o; auto with hub; unfold moved;
    match goal with |- context [removed_channel ?h ?h'] => generalize (removed_channel h h') end;
    intros cl; cbn [run_op]; try apply moves_refl.
  - unfold unsubscribe. case_bool_decide; apply moves_refl.
  - unfold _on_band_left, _set_band_left. case_match; [apply moves_refl|]. run.
    destruct (bands_ h !! _); [|apply moves_refl]. run. rewrite exec_if. run.
    destruct (_ <? _)%nat; apply moves_refl.
  - unfold _on_peer_connected. case_match; apply moves_refl.
  - unfold _on_peer_disconnected, _set_peer_disconnected. case_match; [apply moves_refl|]. run.
    destruct (peers_ h !! _); [|apply moves_refl]. rewrite exec_if. case_match; apply moves_refl.
  - unfold _on_channel_access_opened. case_match; [apply moves_refl|]. run.
    destruct (channel_access_index h !! _); apply moves_refl.
  - unfold _on_channel_access_closed. case_match; apply moves_refl.
  - unfold _on_consumer_authorized. case_match; apply moves_refl.
  - unfold _on_consumer_revoked. case_match; apply moves_refl.
  - unfold _on_role_confirmed. case_match; [apply moves_refl|]. run.
    destruct (channel_access_index h !! _); [|apply moves_refl].
    destruct (Ledger.confirm _ _ _). apply moves_refl.
  - unfold nonce_seen. run. destruct (ReplayGuard.check_and_record _ _ _ _ _). apply moves_refl.
  - unfold append_console_line. run. destruct (ConsoleBuffer.append _ _ _ _ _). apply moves_refl.
  - unfold _on_schema_registered. repeat (case_match; [apply moves_refl|]). run.
    destruct (schemas_ h !! _); apply moves_refl.
  - unfold _on_schemas_evicted_for_owner. repeat (case_match; [apply moves_refl|]). apply moves_refl.
  - unfold _validate_schema_citation. run. rewrite exec_if. case_match; apply moves_refl.
  - unfold _set_channel_data_endpoint. case_match; [apply moves_refl|]. run.
    destruct (channels_ h !! _); apply moves_refl.
  - unfold _set_producer_zmq_node_endpoint. case_match; [apply moves_refl|]. run.
    destruct (channels_ h !! _) as [c|]; [|apply moves_refl].
    destruct (Entries.set_producer_zmq_node_endpoint _ _ c). apply moves_refl.
Qed.

(** C5 Refinement of the presence state machine: from every reachable state,
    every operation of the hub takes every presence (role uid, channel, type)
    along at most one edge of the specified machine, whose edges say which
    operation causes them.  A presence is created, connected and unseen, only
    by its own registration; it becomes connected and seen only by its own
    heartbeat; it becomes pending only by its own heartbeat timeout and only
    from connected, keeping the seen flag; it ends only by its own
    deregistration, by its own pending timeout while it is pending, or with
    its channel, when that is closed by request, by a departing producer or by
    the pending timeout of a pending producer. *)
Theorem hub_refines_presence_machine h o env u n t :
  reachable h →
  let h' := run_op o env h in
  abs_of h' u n t = abs_of h u n t ∨
  edge (abs_of h) (removed_channel h h') o u n t (abs_of h u n t) (abs_of h' u n t).
Proof. intros HI%reachable_Inv. exact (moved_step o env h HI u n t). Qed.

Lemma hub_refines_presence_machine_witness :
  let o := HeartbeatTimedOut "lab.temp" "prod.cam.u1" "producer" in
  let h' := run_op o env0 sample_hub in
  abs_of sample_hub "prod.cam.u1" "lab.temp" "producer" = Some (Connected, true) ∧
  abs_of h' "prod.cam.u1" "lab.temp" "producer" = Some (Pending, true) ∧
  edge (abs_of sample_hub) (removed_channel sample_hub h') o "prod.cam.u1" "lab.temp" "producer"
    (Some (Connected, true)) (Some (Pending, true)).
Proof.
  split; [by vm_compute|]. split; [by vm_compute|].
  destruct (hub_refines_presence_machine sample_hub
    (HeartbeatTimedOut "lab.temp" "prod.cam.u1" "producer") env0
    "prod.cam.u1" "lab.temp" "producer" sample_reachable) as [H|H]; [by vm_compute in H|exact H].
Defined.

(** What a heartbeat leaves in its own row. *)
Definition refreshed (when now : Z) (metrics : option json) (p : RolePresence) : RolePresence :=
  let p := beat when p in
  match metrics with
  | Some m => p <| latest_metrics := m |> <| metrics_collected_at := now |>
  | None => p
  end.

Lemma find_presence_heartbeat n t when metrics now r n' t' :
  find_presence n' t' (set_metrics metrics now n t
     (r <| presences ::= alter_by presence_key (beat when) (n, t) |>)) =
  if bool_decide ((n', t') = (n, t)) then refreshed when now metrics <$> find_presence n' t' r
  else find_presence n' t' r.
Proof.
  assert (Hb := find_presence_alter_row (beat when) (n, t) r n' t' (row_update_beat when)).
  unfold set_metrics, refreshed. destruct metrics as [m|].
  - rewrite find_presence_alter_row by apply row_update_metrics. rewrite Hb.
    case_bool_decide; [|done]. by destruct (find_presence n' t' r).
  - exact Hb.
Qed.

(** A heartbeat for a registered presence refreshes that row and nothing
    else: the row becomes connected and seen, with the heartbeat time, one more
    heartbeat counted and the metrics if the message carried any; every other
    row of every role, and every channel, band, SHM block, access record,
    schema and peer, is as before; and recovery from pending is counted. *)
Theorem heartbeat_refreshes_only_its_row h n u t when metrics env p :
  valid_channel n = true → valid_role_uid u = true → t ≠ "" →
  presence_of (roles_ h) u n t = Some p →
  let h' := exec (_on_heartbeat n u t when metrics) env h in
  presence_of (roles_ h') u n t = Some (refreshed when (system_now env) metrics p) ∧
  (∀ u' n' t', (u', n', t') ≠ (u, n, t) →
     presence_of (roles_ h') u' n' t' = presence_of (roles_ h) u' n' t') ∧
  channels_ h' = channels_ h ∧ bands_ h' = bands_ h ∧ shm_blocks_ h' = shm_blocks_ h ∧
  channel_access_index h' = channel_access_index h ∧ schemas_ h' = schemas_ h ∧
  peers_ h' = peers_ h ∧
  pending_to_ready_total (counters_ h') =
    (if bool_decide (rp_state p = Pending) then u64_succ (pending_to_ready_total (counters_ h))
     else pending_to_ready_total (counters_ h)).
Proof.
  intros Hv Hu Ht%str_empty_false Hp. cbv zeta.
  assert (Hu' := proj2 (str_empty_false u) (valid_role_uid_nonempty _ Hu)).
  unfold _on_heartbeat. rewrite Hv, Hu, Hu', Ht. cbn [negb orb andb]. run.
  unfold presence_of in Hp. destruct (roles_ h !! u) as [r|] eqn:Hr; [|done]. cbn in Hp.
  unfold on_heartbeat. rewrite Hp. cbn [presence_found negb prev_state was_first_heartbeat_seen].
  run. rewrite exec_if. run.
  set (r' := set_metrics metrics (system_now env) n t
               (r <| presences ::= alter_by presence_key (beat when) (n, t) |>)).
  match goal with |- context [roles_ ?x] => assert (Hst : x =
    ((if bool_decide (rp_state p = Pending)
      then h <| counters_ ::= λ c, c <| pending_to_ready_total ::= u64_succ |> |> else h)
       <| roles_ ::= <[u := r']> |>)) end.
  { rewrite exec_if. run. fold r'. case_match; [|by case_bool_decide].
    repeat case_match; by run. }
  rewrite Hst. clear Hst.
  assert (Hro : ∀ b : bool, roles_ ((if b
     then h <| counters_ ::= λ c, c <| pending_to_ready_total ::= u64_succ |> |> else h)
       <| roles_ ::= <[u := r']> |>) = <[u := r']> (roles_ h)) by (by intros []).
  rewrite Hro. split_and!; try by case_bool_decide.
  - rewrite presence_insert, bool_decide_eq_true_2 by done. unfold r'.
    rewrite find_presence_heartbeat, bool_decide_eq_true_2 by done. by rewrite Hp.
  - intros u' n' t' Hne. rewrite presence_insert. case_bool_decide as Huu; [subst|done].
    unfold r', presence_of. rewrite find_presence_heartbeat, Hr.
    rewrite bool_decide_eq_false_2 by congruence. done.
Qed.

Lemma heartbeat_refreshes_only_its_row_witness :
  let h' := exec (_on_heartbeat "lab.shm" "prod.cam.u2" "producer" 77 (Some (JInt 3))) env0
              sample_hub in
  presence_of (roles_ h') "prod.cam.u2" "lab.shm" "producer" =
    Some (mkRolePresence "lab.shm" "producer" Connected true 77 50 1 (JInt 3) 1000) ∧
  presence_of (roles_ h') "prod.cam.u2" "lab.temp" "producer" =
    presence_of (roles_ sample_hub) "prod.cam.u2" "lab.temp" "producer".
Proof.
  destruct (heartbeat_refreshes_only_its_row sample_hub "lab.shm" "prod.cam.u2" "producer" 77
    (Some (JInt 3)) env0 (new_presence "lab.shm" "producer" 50)) as (H1 & H2 & _);
    [by vm_compute|by vm_compute|done|by vm_compute|].
  split; [exact H1|]. by apply H2.
Defined.
End PresenceFsm.
