(* ===== verification/AdmissionProps.v ===== *)
(** * Producer and consumer admission

    The decision of the two admission operations on every branch, that a
    rejected admission changes nothing, and the state an accepted one leaves:
    the new presence, the instance counter and the reset confirmation that the
    authorisation handshake relies on. *)

From S2P Require Import Prelude.
From S2P Require Import Json.
From S2P Require Import Naming.
From S2P Require Import Ledger.
From S2P Require Import ReplayGuard.
From S2P Require Import ConsoleBuffer.
From S2P Require Import Entries.
From S2P Require Import HubCore.
From S2P Require Import HubOps.
From S2P Require Import EntryFacts.
From S2P Require Import HubInv.
From S2P Require Import SchemaRegistry.
From S2P Require Import HubPreserve.
From S2P Require Import HubProps.
From S2P Require Import PresenceFsm.
Import Json Entries HubCore HubOps EntryFacts HubInv SchemaRegistry HubPreserve HubReach HubProps
  PresenceFsm.

Module AdmissionProps.

(** ** Producers *)

(** How the broker reads the result: first the identifier flag, then the
    topology code, the invariants and the uid conflict. *)
Definition accepted (r : ProducerAdmissionResult) : bool :=
  negb (pr_invalid_identifier r) &&
  (match pr_topology_error_code r with None => true | Some _ => false end) &&
  (match pr_invariant_result r with RejectedMismatch => false | _ => true end) &&
  (match producer_result r with ProducerCreated => true | _ => false end).

Definition producer_ids_ok (name : string) (schema : ChannelSchemaInvariants) (p : ProducerEntry) :
    Prop :=
  valid_channel name = true ∧ (p_role_uid p = "" ∨ valid_role_uid (p_role_uid p) = true) ∧
  (si_schema_id schema = "" ∨ valid_schema (si_schema_id schema) = true).

(** The producer fits the channel: a new channel whose topology allows the
    transport, or an existing one with the same transport and topology, room
    for one more producer, and no producer of that uid. *)
Definition producer_fits (name : string) (transport : ChannelTransportInvariants)
    (declared : option ChannelTopology) (uid : string) (h : HubImpl) : Prop :=
  match channel name h with
  | None => transport_compatible (default OneToOne declared) (ti_data_transport transport) = true
  | Some ch =>
      ch_data_transport ch = ti_data_transport transport ∧
      (declared = None ∨ declared = Some (topology ch)) ∧
      uid ∉ (p_role_uid <$> producers ch) ∧
      (topology ch = FanIn ∨ producers ch = [])
  end.

Lemma ids_ok_spec name schema p :
  (negb (valid_channel name) ||
   (negb (str_empty (p_role_uid p)) && negb (valid_role_uid (p_role_uid p))) ||
   (negb (str_empty (si_schema_id schema)) && negb (valid_schema (si_schema_id schema)))) = false ↔
  producer_ids_ok name schema p.
Proof.
  unfold producer_ids_ok.
  rewrite !orb_false_iff, !andb_false_iff, !negb_false_iff, !str_empty_true. tauto.
Qed.

Lemma check_cardinality_producer t np nc :
  check_cardinality t SideProducer np nc = None ↔ t = FanIn ∨ np = 0%nat.
Proof. destruct t, np; cbn; naive_solver. Qed.

Lemma declared_ok (declared : option ChannelTopology) t :
  match declared with Some d => bool_decide (d ≠ t) | None => false end = false ↔
  declared = None ∨ declared = Some t.
Proof.
  destruct declared as [d|]; [|naive_solver]. rewrite bool_decide_eq_false.
  destruct (decide (d = t)); naive_solver.
Qed.

Lemma admit_producer_locked_decision name schema transport declared p env h :
  let m := admit_producer_locked name schema transport declared p in
  match result m env h with
  | inl r => accepted r = false ∧ pr_invalid_identifier r = false ∧ exec m env h = h ∧
             ¬ producer_fits name transport declared (p_role_uid p) h
  | inr (r, _) => accepted r = true ∧ producer_fits name transport declared (p_role_uid p) h
  end.
Proof.
  cbv zeta. unfold admit_producer_locked, _open_channel_locked, producer_fits, channel. run.
  destruct (channels_ h !! name) as [ch|] eqn:Hc.
  - destruct (negb (_ =s _)) eqn:Htr; bool_facts.
    { run. split_and!; try done. by intros []. }
    destruct (match declared with Some t => _ | None => _ end) eqn:Hd.
    { run. split_and!; try done. intros (_ & Hd' & _). apply declared_ok in Hd'. congruence. }
    apply declared_ok in Hd. unfold add_producer, find_producer.
    assert (Hnone := find_by_None p_role_uid (p_role_uid p) (producers ch)).
    assert (Hcard := check_cardinality_producer (topology ch) (length (producers ch)) (length (consumers ch))).
    destruct (find_by p_role_uid (p_role_uid p) (producers ch)) as [q|] eqn:Hf.
    + assert (p_role_uid p ∈ p_role_uid <$> producers ch) as Hin
        by (apply find_by_is_Some; eauto).
      destruct (if _ && _ then None else _); run; split_and!; try done; by intros (_ & _ & ? & _).
    + destruct Hnone as [Hnew _]. specialize (Hnew eq_refl).
      rewrite (bool_decide_eq_false_2 (is_Some None)) by (by intros []).
      rewrite andb_false_r.
      destruct (check_cardinality _ _ _ _) eqn:Hcc; run.
      * split_and!; try done. intros (_ & _ & _ & Hroom).
        assert (Some s = None) as ?; [|done]. apply Hcard.
        destruct Hroom as [?|Hn]; [by left|right; by rewrite Hn].
      * split; [done|]. split_and!; try done. destruct (proj1 Hcard eq_refl) as [?|Hl]; [by left|].
        right. by apply length_zero_iff_nil.
  - destruct (transport_compatible _ _) eqn:Htr; cbn [negb]; run; [done|].
    split_and!; done.
Qed.

(** C11 The admission decision for a producer, on every branch: it is accepted
    exactly when the identifiers are well formed and the producer fits the
    channel (transport, declared topology, cardinality, uid not yet listed);
    and when it is not accepted no part of the hub state changes, apart from
    the invalid-identifier counter. *)
Theorem producer_admission_decision name schema transport declared p env h :
  let m := _on_producer_added name schema transport declared p in
  (accepted (result m env h) = true ↔
     producer_ids_ok name schema p ∧ producer_fits name transport declared (p_role_uid p) h) ∧
  (accepted (result m env h) = false →
     exec m env h = if pr_invalid_identifier (result m env h)
                    then exec bump_invalid_identifier env h else h).
Proof.
  cbv zeta. unfold _on_producer_added.
  destruct (negb _ || _ || _) eqn:Hv.
  { run. split; [|done]. split; [done|]. intros [Hids%ids_ok_spec _]. congruence. }
  apply ids_ok_spec in Hv. rewrite result_bind, exec_bind.
  pose proof (admit_producer_locked_decision name schema transport declared p env h) as Hd.
  cbv zeta in Hd.
  destruct (result (admit_producer_locked _ _ _ _ _) env h) as [r|[r fired]].
  - destruct Hd as (Ha & Hi & He & Hn). run. rewrite Ha, Hi, He. split; [|done].
    split; [done|]. by intros [].
  - destruct Hd as [Ha Hfit]. run. rewrite Ha. split; [done|done].
Qed.

(** A producer that is already on the channel is told so: when the
    transport and topology agree, re-registering a listed uid is answered with
    the uid conflict, never with a cardinality code, and changes nothing. *)
Theorem reregistration_is_uid_conflict name schema transport declared p env h ch :
  producer_ids_ok name schema p → p_role_uid p ≠ "" →
  channel name h = Some ch → p_role_uid p ∈ (p_role_uid <$> producers ch) →
  ch_data_transport ch = ti_data_transport transport →
  declared = None ∨ declared = Some (topology ch) →
  let m := _on_producer_added name schema transport declared p in
  producer_result (result m env h) = ProducerRejectedUidConflict ∧
  pr_topology_error_code (result m env h) = None ∧
  pr_invariant_result (result m env h) = IdempotentEqual ∧
  exec m env h = h.
Proof.
  intros Hids Hu%str_empty_false Hc Hin Htr Hd. cbv zeta. unfold _on_producer_added.
  rewrite (proj2 (ids_ok_spec _ _ _) Hids). unfold admit_producer_locked. run.
  unfold channel in Hc. rewrite Hc, Htr. unfold str_eqb. rewrite bool_decide_eq_true_2 by done.
  cbn [negb]. rewrite (proj2 (declared_ok _ _) Hd), Hu. cbn [negb andb].
  apply find_by_is_Some in Hin as [q Hq]. unfold add_producer, find_producer. rewrite Hq.
  rewrite bool_decide_eq_true_2 by eauto. run. done.
Qed.

(** The store an accepted admission of a named producer leaves. *)
Lemma producer_added_state name schema transport declared p env h :
  Inv h → p_role_uid p ≠ "" →
  let m := _on_producer_added name schema transport declared p in
  accepted (result m env h) = true →
  producer_fits name transport declared (p_role_uid p) h ∧
  ∃ ch parts shm', Naming.parse_role_uid (p_role_uid p) = Some parts ∧
    wf_channel name ch ∧
    (∀ u t, u ≠ "" → u ∈ party t ch ↔
                     member (channels_ h) u name t ∨ (u = p_role_uid p ∧ t = "producer")) ∧
    exec m env h =
      (reset_confirmation name (p_role_uid p)
         (h <| channels_ ::= <[name := ch]> |>
            <| producer_instance_ ::= bump (p_role_uid p) 1 |>)
       <| roles_ ::= <[p_role_uid p := upserted_role env (p_role_uid p) (Naming.tag parts)
            (Naming.name parts) (p_zmq_pubkey p) name "producer" (roles_ h !! p_role_uid p)]> |>
       <| shm_blocks_ := shm' |>).
Proof.
  intros HI Hne. cbv zeta. unfold _on_producer_added.
  destruct (negb _ || _ || _) eqn:Hv; [done|].
  apply orb_false_iff in Hv as [[Hvc Hvr]%orb_false_iff _]. apply negb_false_iff in Hvc.
  apply str_empty_false in Hne as Hu. rewrite Hu in Hvr. cbn in Hvr. apply negb_false_iff in Hvr.
  destruct (valid_role_uid_parse _ Hvr) as [parts Hparts].
  pose proof (admit_producer_locked_spec name schema transport declared p env h HI Hvc) as Hadm.
  pose proof (admit_producer_locked_decision name schema transport declared p env h) as Hdec.
  cbv zeta in Hadm, Hdec. rewrite result_bind, exec_bind.
  destruct (result (admit_producer_locked _ _ _ _ _) env h) as [r|[res fired]].
  { run. intros Hacc. destruct Hdec as [Ha _]. congruence. }
  intros _. split; [apply Hdec|].
  destruct Hadm as (ch & -> & Hch & Hparty & _ & _). rewrite Hu. run.
  destruct fired as [e|]; run; rewrite !(exec_upsert_role _ _ _ _ _ _ _ Hparts); run.
  - destruct (ti_data_transport transport =s "shm"); run;
      eexists ch, parts, _; (split_and!; [done..|]); reflexivity.
  - eexists ch, parts, _. split_and!; [done..|]. reflexivity.
Qed.

(** What an accepted producer admission leaves: the role is registered on
    the channel with a fresh presence row (connected, no heartbeat seen, stamped
    with the admission time); its instance number has moved on by one, so authorisation replies of an earlier life no
    longer match; and its confirmation on that channel is gone, so nothing is
    visible to it until it confirms again. *)
Theorem admitted_producer_state h name schema transport declared p env :
  reachable h → p_role_uid p ≠ "" →
  let m := _on_producer_added name schema transport declared p in
  let h' := exec m env h in
  let uid := p_role_uid p in
  accepted (result m env h) = true →
  is_role_registered_on_channel name uid "producer" h' = true ∧
  presence_of (roles_ h') uid name "producer" = Some (new_presence name "producer" (steady_now env)) ∧
  producer_instance uid h' = u64_succ (producer_instance uid h) ∧
  (∀ a, channel_access name h' = Some a → Ledger.confirmed_version_of uid (ledger a) = None) ∧
  (∀ pk, is_pubkey_visible_to name uid pk h' = None).
Proof.
  intros Hreach Hne m h' uid Hacc. pose proof (reachable_Inv _ Hreach) as HI.
  destruct (producer_added_state name schema transport declared p env h HI Hne Hacc)
    as (Hfit & ch & parts & shm' & Hparts & Hwf & Hparty & Hst). fold m h' in Hst.
  assert (Hvc : valid_channel name = true) by apply Hwf.
  assert (Hconf : ∀ a, channel_access name h' = Some a →
                       Ledger.confirmed_version_of uid (ledger a) = None).
  { intros a. rewrite Hst. unfold channel_access. cbn. rewrite lookup_alter_eq.
    intros (a0 & _ & ->)%fmap_Some. cbn. unfold Ledger.confirmed_version_of. cbn.
    apply lookup_delete_eq. }
  split_and!; [| | |done|].
  - apply registered_party. split_and!; [done..|]. exists ch. rewrite Hst. cbn.
    rewrite lookup_insert_eq. split; [done|]. apply Hparty; auto.
  - rewrite Hst. cbn -[upserted_role]. fold uid.
    rewrite presence_insert, bool_decide_eq_true_2, presence_upserted by done.
    assert (Hnone : presence_of (roles_ h) uid name "producer" = None).
    { destruct (presence_of (roles_ h) uid name "producer") as [q|] eqn:Hq; [|done]. exfalso.
      unfold presence_of in Hq. apply bind_Some in Hq as (r & Hr & Hq).
      assert (live (roles_ h) uid name "producer") as Hl.
      { exists r. split; [done|]. apply find_presence_keys. eauto. }
      apply (core_link _ _ _ _ (inv_core _ HI)) in Hl as (_ & c & Hc & Hin).
      unfold producer_fits, channel in Hfit. rewrite Hc in Hfit. by destruct Hfit as (_ & _ & ? & _). }
    change (roles_ h !! uid ≫= find_presence name "producer")
      with (presence_of (roles_ h) uid name "producer"). rewrite Hnone.
    rewrite (proj2 (str_empty_false name) (valid_channel_nonempty _ Hvc)). cbn.
    by rewrite bool_decide_eq_true_2.
  - rewrite Hst. unfold producer_instance. cbn. fold uid.
    rewrite (proj2 (str_empty_false uid) Hne). unfold bump. rewrite lookup_insert_eq. done.
  - intros pk. unfold is_pubkey_visible_to. case_match; [done|].
    destruct (channel_access_index h' !! name) as [a|] eqn:Ha; [|done]. cbn.
    unfold Ledger.is_visible_to. specialize (Hconf a Ha).
    unfold Ledger.confirmed_version_of in Hconf. by rewrite Hconf.
Qed.

Lemma admitted_producer_state_witness :
  let m := _on_producer_added "lab.shm2" sample_schema shm None (sample_producer "prod.cam.u2") in
  accepted (result m env0 sample_hub) = true ∧
  producer_instance "prod.cam.u2" sample_hub = 2 ∧
  producer_instance "prod.cam.u2" (exec m env0 sample_hub) = 3.
Proof.
  split; [by vm_compute|]. split; [by vm_compute|].
  destruct (admitted_producer_state sample_hub "lab.shm2" sample_schema shm None
    (sample_producer "prod.cam.u2") env0 sample_reachable) as (_ & _ & H & _);
    [done|by vm_compute|]. exact H.
Defined.

Lemma reregistration_is_uid_conflict_witness :
  let m := _on_producer_added "lab.shm" sample_schema shm None (sample_producer "prod.cam.u2") in
  producer_result (result m env0 sample_hub) = ProducerRejectedUidConflict.
Proof.
  destruct (channel "lab.shm" sample_hub) as [ch|] eqn:Hc; [|by vm_compute in Hc].
  pose proof Hc as Hc'. vm_compute in Hc'. injection Hc' as <-.
  eapply (reregistration_is_uid_conflict "lab.shm" sample_schema shm None
    (sample_producer "prod.cam.u2") env0 sample_hub); [|done|exact Hc|by left|done|by left].
  split; [by vm_compute|]. split; [right; by vm_compute|by left].
Defined.

(** ** Consumers *)

Definition consumer_ids_ok (name : string) (c : ConsumerEntry)
    (os : option ChannelSchemaInvariants) : Prop :=
  valid_channel name = true ∧ (c_role_uid c = "" ∨ valid_role_uid (c_role_uid c) = true) ∧
  ∀ s, os = Some s → si_schema_id s = "" ∨ valid_schema (si_schema_id s) = true.

(** The consumer fits: it opens a fan-in channel (topology and both sets of
    invariants supplied, transport allowed), or it joins an existing channel
    of the declared topology on which it is listed already or there is room. *)
Definition consumer_fits (name : string) (c : ConsumerEntry) (declared : option ChannelTopology)
    (os : option ChannelSchemaInvariants) (ot : option ChannelTransportInvariants) (h : HubImpl) :
    Prop :=
  match channel name h with
  | None => declared = Some FanIn ∧ is_Some os ∧
            ∃ t, ot = Some t ∧ transport_compatible FanIn (ti_data_transport t) = true
  | Some ch =>
      (declared = None ∨ declared = Some (topology ch)) ∧
      ((c_role_uid c ≠ "" ∧ c_role_uid c ∈ (c_role_uid <$> consumers ch)) ∨
       topology ch = FanOut ∨ consumers ch = [])
  end.

Lemma consumer_ids_ok_spec name c os :
  (negb (valid_channel name) ||
   (negb (str_empty (c_role_uid c)) && negb (valid_role_uid (c_role_uid c))) ||
   match os with
   | Some s => negb (str_empty (si_schema_id s)) && negb (valid_schema (si_schema_id s))
   | None => false
   end) = false ↔ consumer_ids_ok name c os.
Proof.
  unfold consumer_ids_ok. rewrite !orb_false_iff, !andb_false_iff, !negb_false_iff, str_empty_true.
  destruct os as [s|].
  - rewrite andb_false_iff, !negb_false_iff, str_empty_true. naive_solver.
  - naive_solver.
Qed.

Lemma check_cardinality_consumer t np nc :
  check_cardinality t SideConsumer np nc = None ↔ t = FanOut ∨ nc = 0%nat.
Proof. destruct t, nc; cbn; naive_solver. Qed.

Lemma add_consumer_decision name c declared os ot env h :
  let m := _add_consumer name c declared os ot in
  (admitted (result m env h) = true ↔ consumer_fits name c declared os ot h) ∧
  cr_invalid_identifier (result m env h) = false ∧
  (admitted (result m env h) = false → exec m env h = h).
Proof.
  cbv zeta. unfold _add_consumer, _open_channel_locked, consumer_fits, channel. run.
  destruct (channels_ h !! name) as [ch|] eqn:Hc.
  - destruct (match declared with Some t => _ | None => _ end) eqn:Hd.
    { run. split_and!; try done. split; [done|]. intros [Hd'%declared_ok _]. congruence. }
    apply declared_ok in Hd.
    assert (Hex : existsb (λ x, negb (str_empty (c_role_uid c)) && (c_role_uid x =s c_role_uid c))
                    (consumers ch) = true ↔
                  c_role_uid c ≠ "" ∧ c_role_uid c ∈ (c_role_uid <$> consumers ch)).
    { rewrite existsb_exists, list_elem_of_fmap. setoid_rewrite dupe_spec.
      setoid_rewrite list_elem_of_In. naive_solver. }
    assert (Hcard := check_cardinality_consumer (topology ch) (length (producers ch))
              (length (consumers ch))).
    rewrite length_zero_iff_nil in Hcard.
    destruct (existsb _ _); run; [naive_solver|].
    destruct (check_cardinality _ _ _ _); run; split_and!; try done.
    + split; [done|]. intros [_ [H%Hex|H%Hcard]]; done.
    + split; [|done]. intros _. split; [done|]. right. by apply Hcard.
  - destruct declared as [[]|]; run; try (split_and!; try done; naive_solver).
    destruct os as [s|]; run; [|split_and!; try done; split; [done|by intros (_ & [] & _)]].
    destruct ot as [t|]; run; [|split_and!; try done; split; [done|by intros (_ & _ & ? & ? & _)]].
    destruct (transport_compatible _ _) eqn:Htr; run; split_and!; try done.
    + split; [|done]. intros _. split_and!; [done|eauto|]. eauto.
    + split; [done|]. intros (_ & _ & x & [= <-] & ?). congruence.
Qed.

(** The admission decision for a consumer, on every branch: it is admitted
    exactly when the identifiers are well formed and it fits the channel, where
    only a fan-in consumer that supplies the invariants may open one and a
    consumer already listed may re-register whatever the count; and when it is
    not admitted nothing changes, apart from the invalid-identifier counter. *)
Theorem consumer_admission_decision name c declared os ot env h :
  let m := _on_consumer_joined name c declared os ot in
  (admitted (result m env h) = true ↔
     consumer_ids_ok name c os ∧ consumer_fits name c declared os ot h) ∧
  (admitted (result m env h) = false →
     exec m env h = if cr_invalid_identifier (result m env h)
                    then exec bump_invalid_identifier env h else h).
Proof.
  cbv zeta. unfold _on_consumer_joined.
  destruct (negb _ || _ || _) eqn:Hv.
  { run. split; [|done]. split; [done|]. intros [Hids%consumer_ids_ok_spec _]. congruence. }
  apply consumer_ids_ok_spec in Hv. rewrite result_bind, exec_bind.
  destruct (add_consumer_decision name c declared os ot env h) as (Hd & Hi & He).
  destruct (admitted (result (_add_consumer name c declared os ot) env h)) eqn:Ha; cbn [negb].
  - run. rewrite Ha. split; [|done]. tauto.
  - run. rewrite Ha, Hi. split; [|auto]. split; [done|]. intros [_ H%Hd]. done.
Qed.
End AdmissionProps.
