(* ===== verification/TeardownProps.v ===== *)
(** * Leaving: channel teardown, role cleanup, observability

    What is left after the last producer of a channel goes, that a dead role
    takes its schemas and band memberships with it, what a channel reports
    about its producers, and how the two ways a consumer can leave differ on
    the authorisation ledger. *)

From S2P Require Import Prelude.
From S2P Require Import Json.
From S2P Require Import Naming.
From S2P Require Import Ledger.
From S2P Require Import ReplayGuard.
From S2P Require Import ConsoleBuffer.
From S2P Require Import Entries.
From S2P Require Import HubCore.
From S2P Require Import HubOps.
From S2P Require Import EntryFacts.
From S2P Require Import HubInv.
From S2P Require Import SchemaRegistry.
From S2P Require Import HubPreserve.
From S2P Require Import HubProps.
From S2P Require Import PresenceFsm.
Import Json Entries HubCore HubOps EntryFacts HubInv SchemaRegistry HubPreserve HubReach HubProps
  PresenceFsm.

Module TeardownProps.

(** ** Reaping roles *)

(** Nothing of the role is left: no entry, no schema it owns, no band seat. *)
Definition gone (u : string) (h : HubImpl) : Prop :=
  role u h = None ∧ (∀ i, schema u i h = None) ∧
  ∀ n b, band n h = Some b → u ∉ (bm_role_uid <$> members b).

Lemma dispatch_frame uid env h :
  let h' := exec (_dispatch_role_disconnected_if_dead uid) env h in
  channels_ h' = channels_ h ∧ shm_blocks_ h' = shm_blocks_ h ∧
  ∀ u, u ≠ uid → role u h' = role u h.
Proof.
  cbv zeta. unfold _dispatch_role_disconnected_if_dead, role. run.
  destruct (roles_ h !! uid) as [r|]; [|done]. destruct (any_presence_alive r); [done|].
  rewrite exec_erase_role. cbn. split_and!; [done..|]. intros u Hu. by apply lookup_delete_ne.
Qed.

Lemma dispatch_gone uid env h r :
  role uid h = Some r → presences r = [] →
  gone uid (exec (_dispatch_role_disconnected_if_dead uid) env h).
Proof.
  intros Hr Hnil. unfold _dispatch_role_disconnected_if_dead. run.
  unfold role in Hr. rewrite Hr. apply any_presence_alive_false in Hnil as ->.
  rewrite exec_erase_role. unfold gone, role, schema, band. cbn. split_and!.
  - apply lookup_delete_eq.
  - intros i. apply map_lookup_filter_None. right. intros x _ Hne. by apply Hne.
  - intros n b (b0 & _ & -> & _)%bands_without_Some. rewrite leave_band_members.
    rewrite list_elem_of_fmap. intros (m & -> & [Hne _]%list_elem_of_filter). done.
Qed.

Lemma dispatch_keeps_gone uid u env h :
  gone u h → gone u (exec (_dispatch_role_disconnected_if_dead uid) env h).
Proof.
  intros (Hr & Hs & Hb). unfold _dispatch_role_disconnected_if_dead. run.
  destruct (roles_ h !! uid) as [r|] eqn:Hru; [|done]. destruct (any_presence_alive r); [done|].
  rewrite exec_erase_role. unfold gone, role, schema, band in *. cbn. split_and!.
  - apply lookup_delete_None. by right.
  - intros i. apply map_lookup_filter_None. by left.
  - intros n b (b0 & Hb0 & -> & _)%bands_without_Some. rewrite leave_band_members.
    intros Hin. apply (Hb _ _ Hb0). apply list_elem_of_fmap in Hin as (m & -> & Hm).
    apply list_elem_of_filter in Hm as [_ Hm]. by apply list_elem_of_fmap_2.
Qed.

Lemma dispatch_role uid env h u :
  role u (exec (_dispatch_role_disconnected_if_dead uid) env h) =
  r ← role u h; if bool_decide (u = uid) && negb (any_presence_alive r) then None else Some r.
Proof.
  destruct (decide (u = uid)) as [->|Hne].
  - rewrite bool_decide_eq_true_2 by done. unfold _dispatch_role_disconnected_if_dead, role. run.
    destruct (roles_ h !! uid) as [r|] eqn:Hr; [|by cbn; rewrite Hr]. cbn.
    destruct (any_presence_alive r); cbn; [done|]. rewrite exec_erase_role. apply lookup_delete_eq.
  - rewrite bool_decide_eq_false_2 by done. destruct (dispatch_frame uid env h) as (_ & _ & ->); [|done].
    by destruct (role u h).
Qed.

Lemma dispatch_all_spec uids env h :
  let h' := exec (for_each _dispatch_role_disconnected_if_dead uids) env h in
  channels_ h' = channels_ h ∧ shm_blocks_ h' = shm_blocks_ h ∧
  (∀ u, role u h' = r ← role u h;
          if bool_decide (u ∈ uids) && negb (any_presence_alive r) then None else Some r) ∧
  (∀ u, gone u h → gone u h') ∧
  (∀ u r, u ∈ uids → role u h = Some r → presences r = [] → gone u h').
Proof.
  revert h. induction uids as [|v uids IH]; intros h; cbv zeta.
  { split_and!; try done; [|set_solver]. intros u. cbn [for_each].
    rewrite exec_ret. destruct (role u h); [|done]. cbn.
    by rewrite bool_decide_eq_false_2 by set_solver. }
  cbn [for_each]. rewrite exec_bind. destruct (dispatch_frame v env h) as (Hc & Hs & Hr).
  assert (Hrole := dispatch_role v env h). assert (Hgone := λ u, dispatch_keeps_gone v u env h).
  assert (Hnew := dispatch_gone v env h).
  set (h1 := exec (_dispatch_role_disconnected_if_dead v) env h) in *.
  destruct (IH h1) as (Hc' & Hs' & Hr' & Hg & Hd). split_and!; [congruence..| | |].
  - intros u. rewrite Hr', Hrole. destruct (role u h) as [r|]; [|done].
    cbn [mbind option_bind]. clear.
    destruct (any_presence_alive r) eqn:Ha; cbn [negb]; rewrite ?andb_false_r, ?andb_true_r;
      cbn [mbind option_bind]; [by rewrite Ha, andb_false_r|].
    destruct (decide (u = v)) as [Hv|Hv].
    + rewrite (bool_decide_eq_true_2 _ Hv). cbn [mbind option_bind].
      by rewrite bool_decide_eq_true_2 by (subst; left).
    + rewrite (bool_decide_eq_false_2 _ Hv). cbn [mbind option_bind]. rewrite Ha, andb_true_r.
      by rewrite (bool_decide_ext (u ∈ v :: uids) (u ∈ uids)) by (rewrite elem_of_cons; tauto).
  - auto.
  - intros u r Hin Hu Hnil. destruct (decide (u = v)) as [->|Hne]; [by eapply Hg, Hnew|].
    apply (Hd u r); [set_solver|by rewrite Hr|done].
Qed.

(** Two rounds of reaping: a row-less role of either list goes, a role with a
    row stays. *)
Lemma reap_spec ps cs env h u r :
  let h' := exec (for_each _dispatch_role_disconnected_if_dead cs) env
              (exec (for_each _dispatch_role_disconnected_if_dead ps) env h) in
  role u h = Some r →
  (presences r = [] → u ∈ ps ∨ u ∈ cs → gone u h') ∧
  (presences r ≠ [] → role u h' = Some r).
Proof.
  intros h' Hr. destruct (dispatch_all_spec ps env h) as (_ & _ & Hr1 & Hg1 & Hd1).
  unfold h'. set (h1 := exec (for_each _ ps) env h) in *.
  destruct (dispatch_all_spec cs env h1) as (_ & _ & Hr2 & Hg2 & Hd2).
  specialize (Hr1 u). rewrite Hr in Hr1. cbn in Hr1. split.
  - intros Hnil Hin. pose proof Hnil as Ha%any_presence_alive_false. rewrite Ha in Hr1.
    case_bool_decide; [by eapply Hg2, Hd1|]. cbn in Hr1. apply (Hd2 u r); naive_solver.
  - intros Hne. destruct (any_presence_alive r) eqn:Ha; [|by apply any_presence_alive_false in Ha].
    rewrite andb_false_r in Hr1. by rewrite Hr2, Hr1; cbn; rewrite Ha, andb_false_r.
Qed.

(** ** Closing a channel *)

Lemma end_all_lookup c ty uids R u :
  end_all c ty uids R !! u = None ↔ R !! u = None.
Proof.
  unfold end_all. revert R. induction uids as [|v uids IH]; intros R; [done|]. cbn. rewrite IH.
  destruct (decide (v = u)) as [->|]; [|by rewrite lookup_alter_ne].
  rewrite lookup_alter_eq. by rewrite fmap_None.
Qed.

(** The presence rows once a channel is closed. *)
Lemma closed_presence n why ch h v k t :
  Inv h → channels_ h !! n = Some ch →
  presence_of (roles_ (closed_state n why ch h)) v k t =
  if bool_decide (k = n) then None else presence_of (roles_ h) v k t.
Proof.
  intros HI Hc. assert (HR := Inv_wf_roles h HI). cbn.
  rewrite !presence_end_all; [|done|by apply end_all_spec].
  destruct (presence_of (roles_ h) v k t) as [x|] eqn:Hx; [|by repeat case_bool_decide].
  destruct (decide (k = n)) as [->|Hk]; [|by rewrite !bool_decide_eq_false_2 by naive_solver].
  rewrite (bool_decide_eq_true_2 (n = n)) by done.
  unfold presence_of in Hx. apply bind_Some in Hx as (r & Hr & Hx).
  assert (live (roles_ h) v n t) as Hl
    by (exists r; split; [done|]; apply find_presence_keys; eauto).
  apply (core_link _ _ _ _ (inv_core _ HI)) in Hl.
  apply (member_at _ _ _ _ _ Hc) in Hl as [Hne Hp].
  destruct (party_types _ _ _ Hp) as [-> | ->]; cbn in Hp;
    assert (Hin := conj Hne Hp); apply elem_of_nonempty_uids in Hin; repeat case_bool_decide; naive_solver.
Qed.

(** The rows of one role once a channel is closed. *)
Lemma closed_role n why ch h v r :
  Inv h → channels_ h !! n = Some ch → role v h = Some r →
  ∃ r1, role v (closed_state n why ch h) = Some r1 ∧
    ∀ k t, find_presence k t r1 = if bool_decide (k = n) then None else find_presence k t r.
Proof.
  intros HI Hc Hr. destruct (role v (closed_state n why ch h)) as [r1|] eqn:Hr1.
  - exists r1. split; [done|]. intros k t. pose proof (closed_presence n why ch h v k t HI Hc) as Hp.
    unfold presence_of, role in *. by rewrite Hr, Hr1 in Hp.
  - unfold role in *. cbn in Hr1. apply end_all_lookup, end_all_lookup in Hr1. congruence.
Qed.

(** A role all of whose rows are on the channel has no row left, one with a
    row elsewhere keeps one. *)
Lemma rows_after_close n (r r1 : RoleEntry) :
  (∀ k t, find_presence k t r1 = if bool_decide (k = n) then None else find_presence k t r) →
  (Forall (λ p, rp_channel p = n) (presences r) → presences r1 = []) ∧
  (Exists (λ p, rp_channel p ≠ n) (presences r) → presences r1 ≠ []).
Proof.
  intros Hfp. split.
  - intros Hall. destruct (presences r1) as [|p rest] eqn:Hps; [done|]. exfalso.
    assert (is_Some (find_presence (rp_channel p) (rp_role_type p) r1)) as [x Hx].
    { apply find_presence_keys. unfold keys. rewrite Hps. by left. }
    rewrite Hfp in Hx. case_bool_decide as Hk; [done|]. apply find_by_Some in Hx as [Hin Hkey].
    rewrite Forall_forall in Hall. apply Hall in Hin. unfold presence_key in Hkey. congruence.
  - rewrite Exists_exists. intros (p & Hp & Hn) Hnil.
    assert (is_Some (find_presence (rp_channel p) (rp_role_type p) r)) as [x Hx].
    { apply find_presence_keys. by apply (list_elem_of_fmap_2 presence_key). }
    specialize (Hfp (rp_channel p) (rp_role_type p)).
    rewrite bool_decide_eq_false_2, Hx in Hfp by done.
    unfold find_presence in Hfp. by rewrite Hnil in Hfp.
Qed.

(** A role with a row on the channel is one of its parties. *)
Lemma row_is_party n ch h v r :
  Inv h → channels_ h !! n = Some ch → role v h = Some r →
  Forall (λ p, rp_channel p = n) (presences r) → presences r ≠ [] →
  v ∈ nonempty_uids (p_role_uid <$> producers ch) ∨ v ∈ nonempty_uids (c_role_uid <$> consumers ch).
Proof.
  intros HI Hc Hr Hall Hne. destruct (presences r) as [|p rest] eqn:Hps; [done|].
  apply Forall_cons in Hall as [Hpn _].
  assert (live (roles_ h) v n (rp_role_type p)) as Hl.
  { exists r. split; [done|]. unfold keys. rewrite Hps, <- Hpn. by left. }
  apply (core_link _ _ _ _ (inv_core _ HI)) in Hl.
  apply (member_at _ _ _ _ _ Hc) in Hl as [Hve Hp].
  rewrite !elem_of_nonempty_uids.
  destruct (party_types _ _ _ Hp) as [Ht|Ht]; rewrite Ht in Hp; cbn in Hp; auto.
Qed.

(** C12 Atomic teardown: dropping the only producer of a channel answers that
    the channel is now empty, and afterwards the channel and its SHM block are
    gone, no role has a presence on it, no other channel has changed, and every
    role whose presences were all on that channel is gone with its schemas and
    band seats, while a role present elsewhere keeps its entry. *)
Theorem last_producer_teardown h n u why env ch :
  reachable h → valid_role_uid u = true → channel n h = Some ch →
  is_Some (find_producer u ch) → producer_count ch = 1%nat →
  let m := _on_producer_dropped n u why in
  let h' := exec m env h in
  result m env h = mkRemoveProducerResult true true ∧
  channel n h' = None ∧ shm_block n h' = None ∧
  (∀ v t, presence_of (roles_ h') v n t = None) ∧
  (∀ k, k ≠ n → channel k h' = channel k h) ∧
  (∀ v r, role v h = Some r → presences r ≠ [] →
     (Forall (λ p, rp_channel p = n) (presences r) → gone v h') ∧
     (Exists (λ p, rp_channel p ≠ n) (presences r) → is_Some (role v h'))).
Proof.
  intros HI%reachable_Inv Hu Hc Hf Hone. cbv zeta.
  assert (Hv : valid_channel n = true) by apply (core_channels _ _ _ _ (inv_core _ HI) _ _ Hc).
  destruct Hf as [q Hq]. unfold channel in Hc.
  assert (Hex : exec (_on_producer_dropped n u why) env h = exec (_on_channel_closed n why) env h).
  { unfold _on_producer_dropped. rewrite Hv, Hu. cbn [negb orb]. run. rewrite Hc, Hq.
    rewrite bool_decide_eq_true_2 by done. by run. }
  split.
  { unfold _on_producer_dropped. rewrite Hv, Hu. cbn [negb orb]. run. rewrite Hc, Hq.
    rewrite bool_decide_eq_true_2 by done. by run. }
  rewrite Hex, (exec_on_channel_closed _ _ ch) by done.
  set (ps := nonempty_uids (p_role_uid <$> producers ch)).
  set (cs := nonempty_uids (c_role_uid <$> consumers ch)).
  destruct (dispatch_all_spec ps env (closed_state n why ch h)) as (Hc1 & Hs1 & _).
  destruct (dispatch_all_spec cs env (exec (for_each _dispatch_role_disconnected_if_dead ps) env
              (closed_state n why ch h))) as (Hc2 & Hs2 & _).
  unfold channel, shm_block. rewrite Hc2, Hc1, Hs2, Hs1. split_and!.
  - apply lookup_delete_eq.
  - apply lookup_delete_eq.
  - intros v t. rewrite !presence_dispatch_all, closed_presence by done.
    by rewrite bool_decide_eq_true_2.
  - intros k Hk. by apply lookup_delete_ne.
  - intros v r Hr Hne. destruct (closed_role n why ch h v r HI Hc Hr) as (r1 & Hr1 & Hfp).
    destruct (rows_after_close n r r1 Hfp) as [Hnone Hsome].
    destruct (reap_spec ps cs env _ v r1 Hr1) as [Hgone Hkeep]. split.
    + intros Hall. apply Hgone; [auto|]. by eapply row_is_party.
    + intros Hex'. rewrite Hkeep by auto. eauto.
Qed.

Definition teardown_hub : HubImpl :=
  run_ops [ProducerAdded "lab.a" sample_schema shm None (sample_producer "prod.cam.u1");
           JoinBand "!main" (mkBandMember "prod.cam.u1" "cam" "idA" 0);
           JoinBand "!main" (mkBandMember "prod.cam.u9" "cam" "idB" 0)] empty_hub.

Lemma teardown_hub_reachable : reachable teardown_hub.
Proof. apply reachable_run_ops; [done|constructor]. Qed.

Lemma last_producer_teardown_witness :
  let h' := exec (_on_producer_dropped "lab.a" "prod.cam.u1" VoluntaryDereg) env0 teardown_hub in
  channel "lab.a" h' = None ∧ gone "prod.cam.u1" h'.
Proof.
  destruct (channel "lab.a" teardown_hub) as [ch|] eqn:Hc; [|by vm_compute in Hc].
  pose proof Hc as Hc'. vm_compute in Hc'. injection Hc' as <-.
  destruct (last_producer_teardown teardown_hub "lab.a" "prod.cam.u1" VoluntaryDereg env0 _
    teardown_hub_reachable ltac:(by vm_compute) Hc ltac:(vm_compute; eauto) ltac:(done))
    as (_ & H1 & _ & _ & _ & H2). split; [exact H1|].
  destruct (role "prod.cam.u1" teardown_hub) as [r|] eqn:Hr; [|by vm_compute in Hr].
  destruct (H2 _ _ Hr) as [Hg _]; [vm_compute in Hr; by injection Hr as <-|].
  apply Hg. vm_compute in Hr. injection Hr as <-. by constructor.
Defined.

(** ** Observability *)

(** The presence rows of a channel's producers. *)
Definition producer_rows (n : string) (ch : ChannelEntry) (h : HubImpl) : list RolePresence :=
  omap (λ p, presence_of (roles_ h) (p_role_uid p) n "producer") (producers ch).

Lemma producer_observables_rows n ch h :
  ch_name ch = n →
  producer_observables ch (roles_ h) = (λ p, observe (Some p)) <$> producer_rows n ch h.
Proof.
  intros <-. unfold producer_observables, producer_rows, presence_of.
  induction (producers ch) as [|p ps IH]; [done|]. rewrite !omap_cons, IH.
  destruct (roles_ h !! p_role_uid p) as [r|]; cbn [mbind option_bind]; [|done].
  by destruct (find_presence (ch_name ch) "producer" r).
Qed.

(** A producer has a row exactly when it has a uid. *)
Lemma producer_rows_nil n ch h :
  Inv h → channel n h = Some ch →
  producer_rows n ch h = [] ↔ Forall (λ p, p_role_uid p = "") (producers ch).
Proof.
  intros HI Hc. unfold producer_rows.
  assert (Hrow : ∀ p, p ∈ producers ch →
            presence_of (roles_ h) (p_role_uid p) n "producer" = None ↔ p_role_uid p = "").
  { intros p Hp. split.
    - intros Hnone. destruct (decide (p_role_uid p = "")) as [|Hne]; [done|].
      assert (member (channels_ h) (p_role_uid p) n "producer") as Hm.
      { split; [done|]. exists ch. split; [done|]. by apply (list_elem_of_fmap_2 p_role_uid). }
      apply (core_link _ _ _ _ (inv_core _ HI)) in Hm as (r & Hr & [x Hx]%find_presence_keys).
      unfold presence_of in Hnone. rewrite Hr in Hnone. cbn in Hnone. congruence.
    - intros He. destruct (presence_of _ _ _ _) as [x|] eqn:Hx; [|done].
      unfold presence_of in Hx. apply bind_Some in Hx as (r & Hr & Hx).
      assert (live (roles_ h) (p_role_uid p) n "producer") as Hl
        by (exists r; split; [done|]; apply find_presence_keys; eauto).
      by apply (core_link _ _ _ _ (inv_core _ HI)) in Hl as [? _]. }
  clear Hc HI. induction (producers ch) as [|p ps IH]; [done|].
  rewrite omap_cons, Forall_cons, <- (Hrow p) by set_solver.
  destruct (presence_of _ _ _ _); [naive_solver|]. rewrite IH by set_solver. naive_solver.
Qed.

Lemma observe_live p : rp_state p ≠ Disconnected →
  (observe (Some p) = kLive ↔ rp_state p = Connected ∧ first_heartbeat_seen p = true) ∧
  (observe (Some p) = kRegistering ↔ first_heartbeat_seen p = false) ∧
  (observe (Some p) = kStalled ↔ rp_state p = Pending ∧ first_heartbeat_seen p = true) ∧
  observe (Some p) ≠ kAbsent.
Proof.
  intros Hne. unfold observe. rewrite bool_decide_eq_false_2 by done.
  destruct (first_heartbeat_seen p), (rp_state p) eqn:Hs; cbn; rewrite ?Hs; naive_solver.
Qed.

(** Every non-terminal row is live, unheard or stalled, and only one of them. *)
Lemma rows_partition rows :
  Forall (λ p, rp_state p ≠ Disconnected) rows →
  let live p := rp_state p = Connected ∧ first_heartbeat_seen p = true in
  let unheard p := first_heartbeat_seen p = false in
  let stalled p := rp_state p = Pending ∧ first_heartbeat_seen p = true in
  (rows = [] ↔ ¬ Exists live rows ∧ ¬ Exists unheard rows ∧ ¬ Exists stalled rows) ∧
  (rows ≠ [] ∧ Forall stalled rows ↔
   ¬ Exists live rows ∧ ¬ Exists unheard rows ∧ Exists stalled rows).
Proof.
  intros Hrows live0 unheard stalled. rewrite Forall_forall in Hrows.
  assert (Hone : ∀ p, p ∈ rows → live0 p ∨ unheard p ∨ stalled p).
  { intros p Hp%Hrows. unfold live0, unheard, stalled.
    destruct (first_heartbeat_seen p), (rp_state p); naive_solver. }
  rewrite !Exists_exists, !Forall_forall. split; split.
  - intros ->. set_solver.
  - intros (Hl & Hu & Hs). destruct rows as [|p rows]; [done|].
    destruct (Hone p) as [|[|]]; [by left|..]; exfalso; [apply Hl|apply Hu|apply Hs];
      exists p; (split; [by left|done]).
  - intros [Hne Hall]. split_and!.
    + intros (p & Hp & Hs & _). apply Hall in Hp as [Hp _]. congruence.
    + intros (p & Hp & Hu). unfold unheard in Hu. apply Hall in Hp as [_ Hp]. congruence.
    + destruct rows as [|p rows]; [done|]. exists p. split; [by left|]. apply Hall. by left.
  - intros (Hl & Hu & p & Hp & _). split; [by intros ->; set_solver|].
    intros q Hq. destruct (Hone q Hq) as [|[|]]; [exfalso; eauto..|done].
Qed.

(** What a channel reports in a reachable state, from the rows of its
    producers: live when some row is connected and has been heard; otherwise
    registering when some row has not been heard yet, whatever its state;
    otherwise stalled when there is a row (all are then pending and heard);
    absent only when no producer has a row, that is when every producer listed
    is anonymous or none is. *)
Theorem channel_observable_spec h n ch :
  reachable h → channel n h = Some ch →
  let rows := producer_rows n ch h in
  let live p := rp_state p = Connected ∧ first_heartbeat_seen p = true in
  (compute_channel_observable ch (roles_ h) = kLive ↔ Exists live rows) ∧
  (compute_channel_observable ch (roles_ h) = kRegistering ↔
     ¬ Exists live rows ∧ Exists (λ p, first_heartbeat_seen p = false) rows) ∧
  (compute_channel_observable ch (roles_ h) = kStalled ↔
     rows ≠ [] ∧ Forall (λ p, rp_state p = Pending ∧ first_heartbeat_seen p = true) rows) ∧
  (compute_channel_observable ch (roles_ h) = kAbsent ↔
     Forall (λ p, p_role_uid p = "") (producers ch)).
Proof.
  intros HI%reachable_Inv Hc rows live0.
  destruct (core_channels _ _ _ _ (inv_core _ HI) _ _ Hc) as [Hn _ _ _ _ _].
  assert (Hrows : Forall (λ p, rp_state p ≠ Disconnected) rows).
  { apply Forall_forall. intros p Hp. unfold rows, producer_rows in Hp.
    apply list_elem_of_omap in Hp as (q & _ & Hq). unfold presence_of in Hq.
    apply bind_Some in Hq as (r & Hr & Hq). apply find_by_Some in Hq as [Hq _].
    destruct (core_roles _ _ _ _ (inv_core _ HI) _ _ Hr) as [_ _ Hwf _ _ _].
    rewrite Forall_forall in Hwf. by apply Hwf. }
  assert (Hobs : ∀ o, o ∈ producer_observables ch (roles_ h) ↔
                      Exists (λ p, observe (Some p) = o) rows).
  { intros o. rewrite (producer_observables_rows n), list_elem_of_fmap, Exists_exists by done.
    naive_solver. }
  rewrite <- (producer_rows_nil n) by done. fold rows.
  unfold compute_channel_observable.
  assert (Hp : producers ch = [] → rows = []) by (unfold rows, producer_rows; by intros ->).
  destruct (bool_decide (producers ch = [])) eqn:Hpe; bool_facts.
  { rewrite (Hp Hpe), !Exists_nil. by split_and!; split; try done; intros []. }
  assert (Hext : ∀ o (P : RolePresence → Prop),
            (∀ p, rp_state p ≠ Disconnected → observe (Some p) = o ↔ P p) →
            o ∈ producer_observables ch (roles_ h) ↔ Exists P rows).
  { intros o P HP. rewrite Hobs, !Exists_exists. rewrite Forall_forall in Hrows.
    split; intros (p & Hin & Hx); exists p; (split; [done|]); by apply (HP p (Hrows p Hin)). }
  assert (HL := Hext kLive live0 (λ p H, proj1 (observe_live p H))).
  assert (HU := Hext kRegistering _ (λ p H, proj1 (proj2 (observe_live p H)))).
  assert (HS := Hext kStalled _ (λ p H, proj1 (proj2 (proj2 (observe_live p H))))).
  destruct (rows_partition rows Hrows) as [Hnil Hst]. fold live0 in Hnil, Hst.
  rewrite Hst, Hnil, <- HL, <- HU, <- HS.
  clear. repeat case_bool_decide; split_and!; split; try done; tauto.
Qed.

(** A producer that registered and was demoted before its first heartbeat: its
    only row is pending, the channel reports registering. *)
Lemma channel_observable_spec_witness :
  let h := run_ops [ProducerAdded "lab.a" sample_schema zmq None (sample_producer "prod.cam.u1");
                    HeartbeatTimedOut "lab.a" "prod.cam.u1" "producer"] empty_hub in
  ∃ ch, channel "lab.a" h = Some ch ∧
        Forall (λ p, rp_state p = Pending) (producer_rows "lab.a" ch h) ∧
        compute_channel_observable ch (roles_ h) = kRegistering.
Proof.
  set (ops := [ProducerAdded _ _ _ _ _; _]).
  assert (Hr : reachable (run_ops ops empty_hub))
    by (apply reachable_run_ops; [done|constructor]).
  cbv zeta. destruct (channel "lab.a" (run_ops ops empty_hub)) as [ch|] eqn:Hc; [|by vm_compute in Hc].
  pose proof Hc as Hc'. vm_compute in Hc'. injection Hc' as <-. eexists. split; [done|].
  split; [vm_compute; by constructor|].
  destruct (channel_observable_spec _ _ _ Hr Hc) as (_ & H & _). apply H. split.
  - intros He. vm_compute in He. by apply Exists_cons in He as [[? _]|He%Exists_nil].
  - vm_compute. by constructor.
Defined.

(** ** Consumers leaving *)

Lemma dispatch_access uid env h :
  channel_access_index (exec (_dispatch_role_disconnected_if_dead uid) env h) =
  channel_access_index h.
Proof.
  unfold _dispatch_role_disconnected_if_dead. run. destruct (roles_ h !! uid) as [r|]; [|done].
  destruct (any_presence_alive r); [done|]. by rewrite exec_erase_role.
Qed.

Lemma consumer_left_state n u env h ch :
  valid_channel n = true → valid_role_uid u = true → channels_ h !! n = Some ch →
  u ∈ (c_role_uid <$> consumers ch) →
  channels_ (exec (_on_consumer_left n u) env h) =
    <[n := ch <| consumers ::= filter (λ c, c_role_uid c ≠ u) |>]> (channels_ h) ∧
  channel_access_index (exec (_on_consumer_left n u) env h) =
    channel_access_index (reset_confirmation n u h).
Proof.
  intros Hv Hu Hc Hin.
  assert (Hlt : (length (filter (λ c, c_role_uid c ≠ u) (consumers ch)) <?
                 length (consumers ch))%nat = true).
  { apply Nat.ltb_lt. clear -Hin. apply list_elem_of_fmap in Hin as (c & -> & Hin).
    induction (consumers ch) as [|d l IH]; [set_solver|]. rewrite filter_cons.
    pose proof (length_filter (λ x, c_role_uid x ≠ c_role_uid c) l).
    apply elem_of_cons in Hin as [->|Hin].
    - rewrite decide_False by tauto. cbn. lia.
    - case_decide; cbn; [|lia]. specialize (IH Hin). lia. }
  assert (Hue := proj2 (str_empty_false u) (valid_role_uid_nonempty _ Hu)).
  unfold _on_consumer_left. rewrite Hv, Hu, Hue. cbn [negb andb orb]. rewrite exec_bind.
  assert (Hrm : exec (_remove_consumer n u) env h = reset_confirmation n u
            (h <| channels_ ::= <[n := ch <| consumers ::= filter (λ c, c_role_uid c ≠ u) |>]> |>)).
  { unfold _remove_consumer. run. rewrite Hc, Hlt. by run. }
  rewrite Hrm. run. destruct (roles_ _ !! u); run; [|done].
  match goal with |- context [exec _ env ?g] =>
    destruct (dispatch_frame u env g) as (-> & _) end.
  by rewrite dispatch_access.
Qed.

Lemma pending_timeout_consumer_access n u env h :
  channel_access_index (exec (_on_pending_timeout n u "consumer") env h) = channel_access_index h.
Proof.
  unfold _on_pending_timeout. case_match; [by run|].
  change (str_empty "consumer") with false. rewrite str_eqb_refl. cbn iota.
  unfold pending_timeout_consumer. run.
  destruct (channels_ h !! n) as [ch|]; [|done]. destruct (roles_ h !! u) as [r|]; [|done].
  destruct (on_pending_timeout n "consumer" r) as [te r']. rewrite exec_if. case_match; [done|].
  destruct (remove_consumer u ch). unfold bump_pending_to_deregistered. run.
  by rewrite dispatch_access.
Qed.

(** The two ways a consumer leaves do not treat the access ledger alike: a
    voluntary departure erases the consumer's confirmation on the channel, so
    nothing is visible to that uid until it confirms again; a departure by
    pending timeout leaves the whole ledger as it was, so whatever was visible
    to the uid stays visible after the row is gone, and after a later
    registration under the same uid. *)
Theorem consumer_departure_and_ledger h n u ch env :
  reachable h → valid_role_uid u = true → channel n h = Some ch →
  u ∈ (c_role_uid <$> consumers ch) →
  (∀ pk, is_pubkey_visible_to n u pk (exec (_on_consumer_left n u) env h) = None) ∧
  (∀ pk, is_pubkey_visible_to n u pk (exec (_on_pending_timeout n u "consumer") env h) =
         is_pubkey_visible_to n u pk h).
Proof.
  intros HI%reachable_Inv Hu Hc Hin.
  assert (Hv : valid_channel n = true) by apply (core_channels _ _ _ _ (inv_core _ HI) _ _ Hc).
  destruct (consumer_left_state n u env h ch Hv Hu Hc Hin) as [_ Hacc].
  split; intros pk; unfold is_pubkey_visible_to.
  - case_match; [done|]. rewrite Hacc. cbn. rewrite lookup_alter_eq.
    destruct (channel_access_index h !! n); [|done]. cbn.
    unfold Ledger.is_visible_to. cbn. by rewrite lookup_delete_eq.
  - by rewrite pending_timeout_consumer_access.
Qed.

(** A fan-in consumer that confirmed, timed out and registered again is told
    that the producer is ready although it has confirmed nothing since. *)
Definition stale_confirmation_ops : list op :=
  [ConsumerJoined "lab.temp" (sample_consumer "cons.view.u3") (Some FanIn)
     (Some sample_schema) (Some zmq);
   AccessOpened "lab.temp"].

Definition confirmed_hub : HubImpl :=
  run_op (Confirm "lab.temp" "cons.view.u3" 1) env0
    (run_op (Authorize "lab.temp" "PK") env0 (run_ops stale_confirmation_ops empty_hub)).

Lemma confirmed_hub_reachable : reachable confirmed_hub.
Proof.
  unfold confirmed_hub. constructor; [|done]. constructor.
  - apply reachable_run_ops; [done|constructor].
  - intros a Ha. vm_compute in Ha. by injection Ha as <-.
Qed.

Lemma consumer_departure_and_ledger_witness :
  let timed_out := run_ops [HeartbeatTimedOut "lab.temp" "cons.view.u3" "consumer";
                            PendingTimedOut "lab.temp" "cons.view.u3" "consumer"] confirmed_hub in
  is_pubkey_visible_to "lab.temp" "cons.view.u3" "PK" confirmed_hub = Some true ∧
  is_pubkey_visible_to "lab.temp" "cons.view.u3" "PK"
    (run_op (ConsumerLeft "lab.temp" "cons.view.u3") env0 confirmed_hub) = None ∧
  is_role_registered_on_channel "lab.temp" "cons.view.u3" "consumer" timed_out = false ∧
  is_pubkey_visible_to "lab.temp" "cons.view.u3" "PK" timed_out = Some true ∧
  is_pubkey_visible_to "lab.temp" "cons.view.u3" "PK"
    (run_op (ConsumerJoined "lab.temp" (sample_consumer "cons.view.u3") None None None) env0
       timed_out) = Some true.
Proof.
  destruct (channel "lab.temp" confirmed_hub) as [ch|] eqn:Hc; [|by vm_compute in Hc].
  destruct (consumer_departure_and_ledger confirmed_hub "lab.temp" "cons.view.u3" ch env0
    confirmed_hub_reachable) as [H1 _]; [by vm_compute|exact Hc|..].
  { vm_compute in Hc. injection Hc as <-. by left. }
  split; [by vm_compute|]. split; [exact (H1 "PK")|]. split_and!; by vm_compute.
Defined.

(** A consumer's departure never removes the channel entry: the channel
    keeps its producers and loses exactly the consumers of that uid.  In
    particular a fan-in channel a consumer opened before any producer joined
    stays registered with neither producers nor consumers. *)
Theorem channel_survives_consumer_departure h n u ch env :
  reachable h → valid_role_uid u = true → channel n h = Some ch →
  u ∈ (c_role_uid <$> consumers ch) →
  let h' := exec (_on_consumer_left n u) env h in
  (∀ k, k ≠ n → channel k h' = channel k h) ∧
  ∃ ch', channel n h' = Some ch' ∧ producers ch' = producers ch ∧
         consumers ch' = filter (λ c, c_role_uid c ≠ u) (consumers ch) ∧
         topology ch' = topology ch.
Proof.
  intros HI%reachable_Inv Hu Hc Hin. cbv zeta.
  assert (Hv : valid_channel n = true) by apply (core_channels _ _ _ _ (inv_core _ HI) _ _ Hc).
  destruct (consumer_left_state n u env h ch Hv Hu Hc Hin) as [Hch _].
  unfold channel. rewrite Hch. split; [intros k Hk; by apply lookup_insert_ne|].
  rewrite lookup_insert_eq. eauto.
Qed.

Lemma channel_survives_consumer_departure_witness :
  ∃ ch', channel "lab.temp" (run_op (ConsumerLeft "lab.temp" "cons.view.u3") env0 confirmed_hub) =
           Some ch' ∧ producers ch' = [] ∧ consumers ch' = [].
Proof.
  destruct (channel "lab.temp" confirmed_hub) as [ch|] eqn:Hc; [|by vm_compute in Hc].
  destruct (channel_survives_consumer_departure confirmed_hub "lab.temp" "cons.view.u3" ch env0
    confirmed_hub_reachable) as [_ (ch' & H1 & H2 & H3 & _)]; [by vm_compute|exact Hc|..].
  { vm_compute in Hc. injection Hc as <-. by left. }
  exists ch'. split; [exact H1|]. rewrite H2, H3. vm_compute in Hc. by injection Hc as <-.
Defined.
End TeardownProps.
