(* ===== verification/SlotRW.v ===== *)
(** * The slot of a shared-memory data block

    Models [src/utils/shm/data_block_slot_ops.cpp], the helpers of
    [data_block_internal.hpp] it uses, the slot part of [release_write_handle]
    and [release_consume_handle] in [data_block.cpp], and the slot functions of
    [data_block_c_api.cpp].

    Writers and readers run as threads over one [SlotRWState].  Every atomic
    access of the code is one step of a thread, the value of a loaded variable
    is kept in the thread's program counter, and the threads interleave
    freely.  A writer may die between any two steps; [write_lock] then still
    names it until another writer finds it dead and takes the lock over.  The
    order of the accesses is the program order of the code: the fences and the
    acquire/release orders of the code are there to give it, and weaker
    memory behaviour is outside the model. *)

From S2P Require Import Prelude.

Module SlotRW.

(** ** Shared memory *)

Inductive SlotState := FREE | WRITING | COMMITTED | DRAINING.

#[global] Instance SlotState_eq_dec : EqDecision SlotState.
Proof. solve_decision. Defined.

Record SlotRWState := mkSlotRWState {
  write_lock : Z;
  reader_count : Z;
  slot_state : SlotState;
  writer_waiting : Z;
  write_generation : Z;
}.
#[global] Instance eta_slot : Eta SlotRWState := λ r,
  mkSlotRWState (write_lock r) (reader_count r) (slot_state r) (writer_waiting r)
    (write_generation r).

(** The fields of [SharedMemoryHeader] the slot functions touch. *)
Record SharedMemoryHeader := mkHeader {
  commit_index : Z;
  writer_timeout_count : Z;
  writer_lock_timeout_count : Z;
  writer_reader_timeout_count : Z;
  writer_blocked_total_ns : Z;
  write_lock_contention : Z;
  reader_race_detected : Z;
  reader_validation_failed : Z;
  reader_peak_count : Z;
  total_slots_written : Z;
  producer_heartbeat_id : Z;
  producer_heartbeat_ns : Z;
}.
#[global] Instance eta_header : Eta SharedMemoryHeader := λ r,
  mkHeader (commit_index r) (writer_timeout_count r) (writer_lock_timeout_count r)
    (writer_reader_timeout_count r) (writer_blocked_total_ns r) (write_lock_contention r)
    (reader_race_detected r) (reader_validation_failed r) (reader_peak_count r)
    (total_slots_written r) (producer_heartbeat_id r) (producer_heartbeat_ns r).

(** One slot, the header pointer (null in the C API) and the slot's bytes. *)
Record Shared := mkShared {
  rw : SlotRWState;
  header : option SharedMemoryHeader;
  buffer : list Z;
}.
#[global] Instance eta_shared : Eta Shared := λ r, mkShared (rw r) (header r) (buffer r).

Inductive SlotAcquireResult :=
  | SLOT_ACQUIRE_OK | SLOT_ACQUIRE_TIMEOUT | SLOT_ACQUIRE_NOT_READY
  | SLOT_ACQUIRE_LOCKED | SLOT_ACQUIRE_ERROR | SLOT_ACQUIRE_INVALID_STATE.

#[global] Instance SlotAcquireResult_eq_dec : EqDecision SlotAcquireResult.
Proof. solve_decision. Defined.

(** What the operating system answers: the monotonic clock and
    [is_process_alive]. *)
Record Platform := mkPlatform {
  monotonic_time_ns : Z;
  is_process_alive : Z → bool;
}.

(** ** Atomic accesses *)

Definition u32 (x : Z) : Z := x mod 2 ^ 32.

Definition on_header (f : SharedMemoryHeader → SharedMemoryHeader) (s : Shared) : Shared :=
  s <| header ::= fmap f |>.

Definition increment_metric_writer_timeout : Shared → Shared :=
  on_header (λ h, h <| writer_timeout_count ::= u64_succ |>).
Definition increment_metric_writer_lock_timeout : Shared → Shared :=
  on_header (λ h, h <| writer_lock_timeout_count ::= u64_succ |>).
Definition increment_metric_writer_reader_timeout : Shared → Shared :=
  on_header (λ h, h <| writer_reader_timeout_count ::= u64_succ |>).
Definition add_metric_writer_blocked_ns (elapsed_ns : Z) : Shared → Shared :=
  on_header (λ h, h <| writer_blocked_total_ns ::= λ n, u64 (n + elapsed_ns) |>).
Definition increment_metric_write_lock_contention : Shared → Shared :=
  on_header (λ h, h <| write_lock_contention ::= u64_succ |>).
Definition increment_metric_reader_race_detected : Shared → Shared :=
  on_header (λ h, h <| reader_race_detected ::= u64_succ |>).
Definition increment_metric_reader_validation_failed : Shared → Shared :=
  on_header (λ h, h <| reader_validation_failed ::= u64_succ |>).
Definition increment_metric_total_commits : Shared → Shared :=
  on_header (λ h, h <| total_slots_written ::= u64_succ |>).
Definition update_reader_peak_count (current_count : Z) : Shared → Shared :=
  on_header (λ h, h <| reader_peak_count ::= Z.max current_count |>).
Definition update_commit_index (slot_id : Z) : Shared → Shared :=
  on_header (λ h, h <| commit_index := slot_id |>).
Definition update_producer_heartbeat_impl (now pid : Z) : Shared → Shared :=
  on_header (λ h, h <| producer_heartbeat_id := pid |> <| producer_heartbeat_ns := now |>).

Definition store_state (st : SlotState) (s : Shared) : Shared := s <| rw ::= λ r, r <| slot_state := st |> |>.
Definition store_lock (v : Z) (s : Shared) : Shared := s <| rw ::= λ r, r <| write_lock := v |> |>.
Definition store_waiting (v : Z) (s : Shared) : Shared := s <| rw ::= λ r, r <| writer_waiting := v |> |>.
Definition add_reader (s : Shared) : Shared :=
  s <| rw ::= λ r, r <| reader_count ::= λ n, u32 (n + 1) |> |>.
Definition sub_reader (s : Shared) : Shared :=
  s <| rw ::= λ r, r <| reader_count ::= λ n, u32 (n - 1) |> |>.
Definition add_generation (s : Shared) : Shared :=
  s <| rw ::= λ r, r <| write_generation ::= u64_succ |> |>.

Definition PRODUCER_HEARTBEAT_STALE_THRESHOLD_NS : Z := 5000000000.
Definition kNanosecondsPerMillisecond : Z := 1000000.

Definition is_producer_heartbeat_fresh (os : Platform) (h : option SharedMemoryHeader) (pid : Z) : bool :=
  match h with
  | None => false
  | Some h =>
      if bool_decide (pid = 0) then false
      else if bool_decide (producer_heartbeat_id h ≠ pid) then false
      else u64 (monotonic_time_ns os - producer_heartbeat_ns h)
             <=? PRODUCER_HEARTBEAT_STALE_THRESHOLD_NS
  end.

Definition is_writer_alive_impl (os : Platform) (h : option SharedMemoryHeader) (pid : Z) : bool :=
  if bool_decide (pid = 0) then false
  else if is_producer_heartbeat_fresh os h pid then true
  else is_process_alive os pid.

Definition elapsed_time_ns (os : Platform) (start_ns : Z) : Z :=
  if monotonic_time_ns os <? start_ns then 0 else monotonic_time_ns os - start_ns.

Definition spin_elapsed_ms_exceeded (os : Platform) (start_time_ns timeout_ms : Z) : bool :=
  if timeout_ms =? 0 then true
  else if timeout_ms <? 0 then false
  else u64 (timeout_ms * kNanosecondsPerMillisecond) <=? elapsed_time_ns os start_time_ns.

(** ** Writer threads

    The program counter names the access the thread is about to make.
    [entered] is the local [entered_draining]. *)
Inductive WPc :=
  | WIdle (res : option SlotAcquireResult)
  | WTryLock
  | WCheckHolder (expected_lock : Z)
  | WReclaim (zombie_pid : Z)
  | WSpinLock
  | WLoadState
  | WStoreDraining
  | WSetWaiting (entered : bool)
  | WLoadReaders (entered : bool)
  | WSpinDrain (entered : bool)
  | WClearWaiting (entered : bool)
  | WRestore (entered : bool)
  | WGiveUp
  | WDrained
  | WStoreWriting
  | WWriting
  | WBumpGeneration (slot_id : Z)
  | WStoreCommitted (slot_id : Z)
  | WPublish (slot_id : Z)
  | WHeartbeat
  | WStoreFree
  | WUnlock.

Record Writer := mkWriter {
  wpc : WPc;
  start_time : Z;
  timeout_ms : Z;
  drain_hold : bool;
}.
#[global] Instance eta_writer : Eta Writer := λ r,
  mkWriter (wpc r) (start_time r) (timeout_ms r) (drain_hold r).

(** What drives a writer: a call of [acquire_write], a byte stored through the
    handle, the release with or without commit, or the next access of the code
    that is running. *)
Inductive WAction :=
  | WAcquire (timeout_ms : Z) (drain_hold : bool)
  | WStoreByte (i : nat) (v : Z)
  | WCommit (slot_id : Z)
  | WAbort
  | WRun.

(** One access of [acquire_write]. *)
Definition acquire_write_step (os : Platform) (my_pid : Z) (w : Writer) (s : Shared) :
    option (Writer * Shared) :=
  let goto pc := w <| wpc := pc |> in
  match wpc w with
  | WTryLock =>
      if bool_decide (write_lock (rw s) = 0) then Some (goto WLoadState, store_lock my_pid s)
      else Some (goto (WCheckHolder (write_lock (rw s))), s)
  | WCheckHolder expected_lock =>
      if is_writer_alive_impl os (header s) expected_lock then Some (goto WSpinLock, s)
      else Some (goto (WReclaim expected_lock), s)
  | WReclaim zombie_pid =>
      if bool_decide (write_lock (rw s) = zombie_pid)
      then Some (goto WLoadState, increment_metric_write_lock_contention (store_lock my_pid s))
      else Some (goto WSpinLock, s)
  | WSpinLock =>
      if spin_elapsed_ms_exceeded os (start_time w) (timeout_ms w)
      then Some (goto (WIdle (Some SLOT_ACQUIRE_TIMEOUT)),
                 increment_metric_writer_lock_timeout (increment_metric_writer_timeout s))
      else Some (goto WTryLock, s)
  | WLoadState =>
      if bool_decide (slot_state (rw s) = COMMITTED) then Some (goto WStoreDraining, s)
      else Some (goto (WSetWaiting false), s)
  | WStoreDraining => Some (goto (WSetWaiting true), store_state DRAINING s)
  | WSetWaiting entered => Some (goto (WLoadReaders entered), store_waiting 1 s)
  | WLoadReaders entered =>
      if bool_decide (reader_count (rw s) = 0) then Some (goto WDrained, s)
      else Some (goto (WSpinDrain entered), s)
  | WSpinDrain entered =>
      if spin_elapsed_ms_exceeded os (start_time w) (timeout_ms w) then
        if drain_hold w then
          let now := monotonic_time_ns os in
          Some ((goto (WLoadReaders entered)) <| start_time := now |>,
                add_metric_writer_blocked_ns (u64 (now - start_time w))
                  (increment_metric_writer_reader_timeout (increment_metric_writer_timeout s)))
        else Some (goto (WClearWaiting entered), s)
      else Some (goto (WLoadReaders entered), s)
  | WClearWaiting entered => Some (goto (WRestore entered), store_waiting 0 s)
  | WRestore entered => Some (goto WGiveUp, if entered then store_state COMMITTED s else s)
  | WGiveUp =>
      Some (goto (WIdle (Some SLOT_ACQUIRE_TIMEOUT)),
            increment_metric_writer_reader_timeout
              (increment_metric_writer_timeout (store_lock 0 s)))
  | WDrained => Some (goto WStoreWriting, store_waiting 0 s)
  | WStoreWriting => Some (goto WWriting, store_state WRITING s)
  | _ => None
  end.

(** One access of [release_write_handle]: [commit_write], the heartbeat and the
    unlock, or the abort path. *)
Definition release_write_step (os : Platform) (my_pid : Z) (w : Writer) (s : Shared) :
    option (Writer * Shared) :=
  let goto pc := w <| wpc := pc |> in
  match wpc w with
  | WBumpGeneration slot_id => Some (goto (WStoreCommitted slot_id), add_generation s)
  | WStoreCommitted slot_id => Some (goto (WPublish slot_id), store_state COMMITTED s)
  | WPublish slot_id =>
      Some (goto WHeartbeat, increment_metric_total_commits (update_commit_index slot_id s))
  | WHeartbeat =>
      Some (goto WUnlock, update_producer_heartbeat_impl (monotonic_time_ns os) my_pid s)
  | WStoreFree => Some (goto WUnlock, store_state FREE s)
  | WUnlock => Some (goto (WIdle (Some SLOT_ACQUIRE_OK)), store_lock 0 s)
  | _ => None
  end.

Definition writer_step (os : Platform) (my_pid : Z) (a : WAction) (w : Writer) (s : Shared) :
    option (Writer * Shared) :=
  match a, wpc w with
  | WAcquire t d, WIdle _ => Some (mkWriter WTryLock (monotonic_time_ns os) t d, s)
  | WStoreByte i v, WWriting =>
      if bool_decide (i < length (buffer s))%nat then Some (w, s <| buffer ::= <[i := v]> |>)
      else None
  | WCommit slot_id, WWriting =>
      Some (w <| wpc := match header s with
                        | Some _ => WBumpGeneration slot_id
                        | None => WStoreFree
                        end |>, s)
  | WAbort, WWriting => Some (w <| wpc := WStoreFree |>, s)
  | WRun, _ =>
      match acquire_write_step os my_pid w s with
      | Some r => Some r
      | None => release_write_step os my_pid w s
      end
  | _, _ => None
  end.

(** ** Reader threads *)

Inductive RPc :=
  | RIdle
  | RCheck
  | RRegister
  | RRecheck
  | RBackOut
  | RCapture
  | RReading (captured_gen : Z) (copied : list (nat * Z))
  | RRelease (valid : bool) (captured_gen : Z) (copied : list (nat * Z))
  | RNotReady
  | RDone (valid : bool) (captured_gen : Z) (copied : list (nat * Z)).

Inductive RAction := RAcquire | RCopy (i : nat) | RFinish | RRun.

(** One access of [acquire_read]. *)
Definition acquire_read_step (pc : RPc) (s : Shared) : option (RPc * Shared) :=
  match pc with
  | RCheck =>
      if bool_decide (slot_state (rw s) ≠ COMMITTED) then Some (RNotReady, s)
      else Some (RRegister, s)
  | RRegister => Some (RRecheck, add_reader s)
  | RRecheck =>
      if bool_decide (slot_state (rw s) ≠ COMMITTED) then Some (RBackOut, s)
      else Some (RCapture, s)
  | RBackOut => Some (RNotReady, increment_metric_reader_race_detected (sub_reader s))
  | RCapture => Some (RReading (write_generation (rw s)) [], s)
  | _ => None
  end.

Definition validate_read_impl (captured_gen : Z) (s : Shared) : bool * Shared :=
  if bool_decide (write_generation (rw s) ≠ captured_gen)
  then (false, increment_metric_reader_validation_failed s)
  else (true, s).

Definition release_read (s : Shared) : Shared :=
  update_reader_peak_count (reader_count (rw s)) (sub_reader s).

Definition reader_step (a : RAction) (pc : RPc) (s : Shared) : option (RPc * Shared) :=
  match a, pc with
  | RAcquire, (RIdle | RNotReady | RDone _ _ _) => Some (RCheck, s)
  | RCopy i, RReading g cp =>
      v ← buffer s !! i; Some (RReading g (cp ++ [(i, v)]), s)
  | RFinish, RReading g cp =>
      let '(ok, s') := validate_read_impl g s in Some (RRelease ok g cp, s')
  | RRun, RRelease ok g cp => Some (RDone ok g cp, release_read s)
  | RRun, _ => acquire_read_step pc s
  | _, _ => None
  end.

(** ** The slot with its threads *)

(** [images] is the history of commits: the generation stored by each commit
    and the bytes of the slot at that moment. *)
Record Sys := mkSys {
  shared : Shared;
  writers : gmap Z Writer;
  readers : gmap nat RPc;
  dead : gset Z;
  images : list (Z * list Z);
}.
#[global] Instance eta_sys : Eta Sys := λ r,
  mkSys (shared r) (writers r) (readers r) (dead r) (images r).

Definition record_commit (w : Writer) (s : Shared) (l : list (Z * list Z)) : list (Z * list Z) :=
  match wpc w with
  | WStoreCommitted _ => l ++ [(write_generation (rw s), buffer s)]
  | _ => l
  end.

(** [is_process_alive] never reports a running writer dead. *)
Definition oracle_sound (os : Platform) (s : Sys) : Prop :=
  ∀ p, is_process_alive os p = false → is_Some (writers s !! p) → p ∈ dead s.

Inductive step : Sys → Sys → Prop :=
  | step_writer os p a w w' sh' s :
      writers s !! p = Some w → p ∉ dead s → oracle_sound os s →
      writer_step os p a w (shared s) = Some (w', sh') →
      step s (s <| shared := sh' |> <| writers ::= <[p := w']> |>
                <| images ::= record_commit w (shared s) |>)
  | step_reader r a pc pc' sh' s :
      readers s !! r = Some pc →
      reader_step a pc (shared s) = Some (pc', sh') →
      step s (s <| shared := sh' |> <| readers ::= <[r := pc']> |>)
  | step_die p s :
      is_Some (writers s !! p) → step s (s <| dead ::= union {[p]} |>)
  | step_new_writer p s :
      writers s !! p = None → 0 < p →
      step s (s <| writers ::= <[p := mkWriter (WIdle None) 0 0 false]> |>)
  | step_new_reader r s :
      readers s !! r = None → Z.of_nat (size (readers s)) + 1 < 2 ^ 32 →
      step s (s <| readers ::= <[r := RIdle]> |>).

(** The slot as the creator of the block leaves it. *)
Definition init (h : option SharedMemoryHeader) (bytes : list Z) : Sys :=
  mkSys (mkShared (mkSlotRWState 0 0 FREE 0 0) h bytes) ∅ ∅ ∅ [].

Inductive reachable : Sys → Prop :=
  | reach_init h bytes : reachable (init h bytes)
  | reach_step s s' : reachable s → step s s' → reachable s'.

(** A writer that runs [n] steps with no other thread in between. *)
Fixpoint run_alone (os : Platform) (p : Z) (n : nat) (w : Writer) (s : Shared) : Writer * Shared :=
  match n with
  | O => (w, s)
  | S n =>
      match writer_step os p WRun w s with
      | Some (w', s') => run_alone os p n w' s'
      | None => (w, s)
      end
  end.

(** ** The functions run by themselves, and the C API

    The C API works on a bare [SlotRWState], possibly null, with a null
    header. *)

Definition commit_write (slot_id : Z) (s : Shared) : Shared :=
  increment_metric_total_commits
    (update_commit_index slot_id (store_state COMMITTED (add_generation s))).

Definition release_write (s : Shared) : Shared := store_lock 0 (store_state FREE s).

Definition acquire_read (s : Shared) : SlotAcquireResult * option Z * Shared :=
  if bool_decide (slot_state (rw s) ≠ COMMITTED) then (SLOT_ACQUIRE_NOT_READY, None, s)
  else
    let s := add_reader s in
    if bool_decide (slot_state (rw s) ≠ COMMITTED)
    then (SLOT_ACQUIRE_NOT_READY, None, increment_metric_reader_race_detected (sub_reader s))
    else (SLOT_ACQUIRE_OK, Some (write_generation (rw s)), s).

Definition bare (r : SlotRWState) : Shared := mkShared r None [].

Definition slot_rw_commit (r : option SlotRWState) : option SlotRWState :=
  (λ r, rw (commit_write 0 (bare r))) <$> r.

Definition slot_rw_release_write (r : option SlotRWState) : option SlotRWState :=
  (λ r, rw (release_write (bare r))) <$> r.

Definition slot_rw_acquire_read (r : option SlotRWState) (out_generation : bool) :
    SlotAcquireResult * option Z * option SlotRWState :=
  match r, out_generation with
  | Some r, true => let '(res, g, s) := acquire_read (bare r) in (res, g, Some (rw s))
  | _, _ => (SLOT_ACQUIRE_ERROR, None, r)
  end.

Definition slot_rw_validate_read (r : option SlotRWState) (generation : Z) : bool :=
  match r with Some r => (validate_read_impl generation (bare r)).1 | None => false end.

Definition slot_rw_release_read (r : option SlotRWState) : option SlotRWState :=
  (λ r, rw (release_read (bare r))) <$> r.

(** [acquire_write] with timeout 0 makes at most twelve accesses. *)
Definition slot_rw_acquire_write_nowait (os : Platform) (my_pid : Z) (r : option SlotRWState) :
    option SlotAcquireResult * option SlotRWState :=
  match r with
  | None => (Some SLOT_ACQUIRE_ERROR, None)
  | Some r =>
      let '(w, s) := run_alone os my_pid 12 (mkWriter WTryLock (monotonic_time_ns os) 0 false) (bare r) in
      (match wpc w with WIdle res => res | WWriting => Some SLOT_ACQUIRE_OK | _ => None end,
       Some (rw s))
  end.

(** ** Access through a handle

    [std::memcpy] into the slot's bytes.  [None] is an access outside the
    buffer, which C++ leaves undefined. *)
Definition write (src : list Z) (offset : Z) (bytes : list Z) : option (bool * list Z) :=
  let len := Z.of_nat (length src) in
  let buffer_size := Z.of_nat (length bytes) in
  if len =? 0 then Some (false, bytes)
  else if buffer_size <? u64 (offset + len) then Some (false, bytes)
  else if offset + len <=? buffer_size then
    Some (true, take (Z.to_nat offset) bytes ++ src ++
                drop (Z.to_nat offset + length src) bytes)
  else None.

Definition read (len offset : Z) (bytes : list Z) : option (bool * list Z) :=
  let buffer_size := Z.of_nat (length bytes) in
  if len =? 0 then Some (false, [])
  else if buffer_size <? u64 (offset + len) then Some (false, [])
  else if offset + len <=? buffer_size
  then Some (true, take (Z.to_nat len) (drop (Z.to_nat offset) bytes))
  else None.

End SlotRW.
