(* ===== verification/SlotProps.v ===== *)
(** * Correctness of the slot protocol

    The invariant of the threads of [SlotRW] and what follows from it: writers
    exclude each other and the readers, a read is never torn, the reader count
    is exact, a draining writer lets nobody new in, and an uncontended writer
    gets its slot.  The last section is about the slot functions of the C
    API. *)

From S2P Require Import Prelude.
From S2P Require Import SlotRW.
Import SlotRW.

Module SlotProps.

Implicit Types (s : Sys) (sh : Shared) (w : Writer).

(** ** Phases of the threads *)

(** Between taking [write_lock] and giving it back. *)
Definition holds (pc : WPc) : bool :=
  match pc with
  | WIdle _ | WTryLock | WCheckHolder _ | WReclaim _ | WSpinLock => false
  | _ => true
  end.

(** From the load that saw no reader to the store of COMMITTED or FREE. *)
Definition exclusive (pc : WPc) : bool :=
  match pc with
  | WDrained | WStoreWriting | WWriting | WBumpGeneration _ | WStoreCommitted _ | WStoreFree => true
  | _ => false
  end.

(** The part of the drain loop that runs with the slot in DRAINING. *)
Definition draining (pc : WPc) : bool :=
  match pc with
  | WSetWaiting b | WLoadReaders b | WSpinDrain b | WClearWaiting b | WRestore b => b
  | _ => false
  end.

(** Counted in [reader_count]. *)
Definition registered (pc : RPc) : bool :=
  match pc with
  | RRecheck | RBackOut | RCapture | RReading _ _ | RRelease _ _ _ => true
  | _ => false
  end.

(** Past the second check of the slot state. *)
Definition validated (pc : RPc) : bool :=
  match pc with RCapture | RReading _ _ | RRelease _ _ _ => true | _ => false end.

Definition live s (p : Z) w : Prop := writers s !! p = Some w ∧ p ∉ dead s.

Definition no_validated s : Prop := ∀ r pc, readers s !! r = Some pc → validated pc = false.

(** The bytes of the slot are the ones of the last commit. *)
Definition intact s : Prop :=
  last (images s) = Some (write_generation (rw (shared s)), buffer (shared s)).

Definition registered_readers (m : gmap nat RPc) : nat :=
  size (filter (λ kv, registered kv.2 = true) m).

(** ** The invariant *)

Definition pc_ok s (pc : WPc) : Prop :=
  match pc with
  | WCheckHolder e => is_Some (writers s !! e)
  | WReclaim z => z ∈ dead s
  | WStoreDraining => slot_state (rw (shared s)) = COMMITTED
  | WSetWaiting b | WLoadReaders b | WSpinDrain b | WClearWaiting b | WRestore b =>
      if b then slot_state (rw (shared s)) = DRAINING ∧ intact s
      else slot_state (rw (shared s)) ≠ COMMITTED
  | WDrained | WStoreWriting => slot_state (rw (shared s)) ≠ COMMITTED ∧ no_validated s
  | WWriting | WBumpGeneration _ | WStoreCommitted _ | WStoreFree =>
      slot_state (rw (shared s)) = WRITING ∧ no_validated s
  | _ => True
  end.

Definition copies (cp : list (nat * Z)) (bytes : list Z) : Prop :=
  Forall (λ iv, bytes !! iv.1 = Some iv.2) cp.

Definition reader_ok s (pc : RPc) : Prop :=
  match pc with
  | RReading g cp => g = write_generation (rw (shared s)) ∧ copies cp (buffer (shared s))
  | RRelease ok g cp =>
      ok = true ∧ g = write_generation (rw (shared s)) ∧ copies cp (buffer (shared s))
  | RDone ok g cp => ok = true ∧ ∃ bytes, (g, bytes) ∈ images s ∧ copies cp bytes
  | _ => True
  end.

Record Inv s : Prop := mkInv {
  inv_pid : ∀ p, is_Some (writers s !! p) → 0 < p;
  inv_holder : write_lock (rw (shared s)) = 0 ∨
               is_Some (writers s !! write_lock (rw (shared s)));
  inv_lock : ∀ p w, live s p w → holds (wpc w) = true ↔ write_lock (rw (shared s)) = p;
  inv_pc : ∀ p w, live s p w → pc_ok s (wpc w);
  inv_count : reader_count (rw (shared s)) = Z.of_nat (registered_readers (readers s));
  inv_size : Z.of_nat (size (readers s)) < 2 ^ 32;
  inv_intact : slot_state (rw (shared s)) = COMMITTED ∨ ¬ no_validated s → intact s;
  inv_reader : ∀ r pc, readers s !! r = Some pc → reader_ok s pc;
}.

(** What a step of a thread that does not hold the lock can change: only the
    lock, from free or from a dead owner to itself. *)
Lemma outside_step os p a w sh w' sh' :
  writer_step os p a w sh = Some (w', sh') → holds (wpc w) = false →
  slot_state (rw sh') = slot_state (rw sh) ∧ reader_count (rw sh') = reader_count (rw sh) ∧
  write_generation (rw sh') = write_generation (rw sh) ∧ buffer sh' = buffer sh ∧
  ((write_lock (rw sh') = write_lock (rw sh) ∧ holds (wpc w') = false) ∨
   (write_lock (rw sh') = p ∧ wpc w' = WLoadState ∧
    (write_lock (rw sh) = 0 ∨ wpc w = WReclaim (write_lock (rw sh))))).
Proof.
  intros Hs Hh. unfold writer_step, acquire_write_step, release_write_step in Hs.
  destruct a, (wpc w) eqn:Hpc; try done; simplify_eq; cbn; try naive_solver.
  all: repeat case_match; simplify_eq; cbn; try naive_solver.
  all: bool_facts; naive_solver.
Qed.

(** ** Preservation: the readers' side *)

Lemma reader_ok_mono s s' pc :
  reader_ok s pc → (∃ l, images s' = images s ++ l) →
  (validated pc = true →
   write_generation (rw (shared s')) = write_generation (rw (shared s)) ∧
   buffer (shared s') = buffer (shared s)) →
  reader_ok s' pc.
Proof.
  intros Hok [l Hl] Hsame. destruct pc; cbn in *; try done.
  - destruct (Hsame eq_refl) as [-> ->]. done.
  - destruct (Hsame eq_refl) as [-> ->]. done.
  - destruct Hok as [? (b & Hb & Hc)]. split; [done|]. exists b. rewrite Hl. set_solver.
Qed.

Lemma registered_insert r pc pc' (m : gmap nat RPc) :
  m !! r = Some pc →
  (registered_readers (<[r := pc']> m) + (if registered pc then 1 else 0) =
   registered_readers m + (if registered pc' then 1 else 0))%nat.
Proof.
  intros Hr. unfold registered_readers. rewrite <- (insert_delete_id m r pc) at 2 by done.
  rewrite <- insert_delete_eq. assert (Hd : delete r m !! r = None) by apply lookup_delete_eq.
  assert (Hf : filter (λ kv : nat * RPc, registered kv.2 = true) (delete r m) !! r = None).
  { apply map_lookup_filter_None. by left. }
  rewrite !map_filter_insert. cbn.
  destruct (registered pc), (registered pc');
    repeat case_decide; try done; rewrite ?(delete_id (delete r m)) by done;
    rewrite ?map_size_insert_None by done; lia.
Qed.

Lemma registered_le (m : gmap nat RPc) : (registered_readers m <= size m)%nat.
Proof. apply size_filter_le. Qed.

Lemma registered_pos r pc (m : gmap nat RPc) :
  m !! r = Some pc → registered pc = true → (0 < registered_readers m)%nat.
Proof.
  intros Hr Hp. unfold registered_readers.
  destruct (size (filter _ m)) eqn:Hs; [|lia].
  apply map_size_empty_inv in Hs. apply (f_equal (λ x, x !! r)) in Hs.
  rewrite lookup_empty in Hs. apply map_lookup_filter_None in Hs as [Hs|Hs]; [congruence|].
  by destruct (Hs _ Hr).
Qed.

(** ** Preservation: generic steps *)

Lemma pc_ok_outside s s' pc :
  pc_ok s pc → holds pc = false →
  (∀ p, is_Some (writers s !! p) → is_Some (writers s' !! p)) → dead s ⊆ dead s' →
  pc_ok s' pc.
Proof. destruct pc; cbn; try done; set_solver. Qed.

(** A step of the lock's owner. *)
Lemma Inv_owner_step s p w w' sh' imgs :
  let s' := s <| shared := sh' |> <| writers ::= <[p := w']> |> <| images := imgs |> in
  Inv s → live s p w → holds (wpc w) = true →
  (write_lock (rw sh') = p ∧ holds (wpc w') = true) ∨
  (write_lock (rw sh') = 0 ∧ holds (wpc w') = false) →
  reader_count (rw sh') = reader_count (rw (shared s)) →
  (∃ l, imgs = images s ++ l) →
  no_validated s ∨
  (write_generation (rw sh') = write_generation (rw (shared s)) ∧
   buffer sh' = buffer (shared s) ∧ imgs = images s) →
  (slot_state (rw sh') = COMMITTED → intact s') →
  pc_ok s' (wpc w') →
  Inv s'.
Proof.
  intros s' HI [Hw Hp] Hh Hlock Hcount [l Hl] Hsame Hcom Hpc.
  assert (Howner : write_lock (rw (shared s)) = p) by (by apply (inv_lock s HI p w)).
  assert (Hpos : 0 < p) by (apply (inv_pid s HI); by rewrite Hw).
  assert (Hdom : ∀ q, is_Some (writers s !! q) ↔ is_Some (writers s' !! q)).
  { intros q. cbn. destruct (decide (q = p)) as [->|].
    - rewrite lookup_insert_eq, Hw. split; eauto.
    - by rewrite lookup_insert_ne. }
  assert (Hother : ∀ q v, q ≠ p → live s q v → holds (wpc v) = false).
  { intros q v Hq Hv. apply not_true_is_false. intros Ht. apply (inv_lock s HI q v Hv) in Ht. congruence. }
  assert (Hlive : ∀ q v, live s' q v → (q = p ∧ v = w') ∨ (q ≠ p ∧ live s q v)).
  { intros q v [Hq Hd]. cbn in Hq, Hd. destruct (decide (q = p)) as [->|].
    - rewrite lookup_insert_eq in Hq. left. by simplify_eq.
    - rewrite lookup_insert_ne in Hq by done. right. done. }
  constructor.
  - intros q Hq. apply (inv_pid s HI). by apply Hdom.
  - cbn. destruct Hlock as [[-> _]|[-> _]]; [|by left]. right. rewrite lookup_insert_eq. eauto.
  - intros q v Hv. cbn. destruct (Hlive q v Hv) as [[-> ->]|[Hq Hv']].
    + destruct Hlock as [[-> ->]|[-> ->]]; naive_solver lia.
    + rewrite (Hother q v Hq Hv'). assert (0 < q) by (apply (inv_pid s HI); by rewrite (proj1 Hv')).
      destruct Hlock as [[-> _]|[-> _]]; naive_solver lia.
  - intros q v Hv. destruct (Hlive q v Hv) as [[-> ->]|[Hq Hv']]; [done|].
    apply (pc_ok_outside s); [by apply (inv_pc s HI q)|by eapply Hother| |done].
    intros. by apply Hdom.
  - cbn. rewrite Hcount. apply (inv_count s HI).
  - apply (inv_size s HI).
  - intros [Hc|Hv]; [by apply Hcom|]. destruct Hsame as [Hn|(Hg & Hb & Hi)]; [by destruct Hv|].
    unfold intact. cbn. rewrite Hg, Hb, Hi. apply (inv_intact s HI). by right.
  - intros r pc Hr. apply (reader_ok_mono s); [by apply (inv_reader s HI r)|by exists l|].
    intros Hval. destruct Hsame as [Hn|(Hg & Hb & _)]; [|done].
    rewrite (Hn r pc Hr) in Hval. done.
Qed.

(** A step of a writer that does not own the lock. *)
Lemma Inv_outside_step os s p a w w' sh' :
  let s' := s <| shared := sh' |> <| writers ::= <[p := w']> |>
              <| images ::= record_commit w (shared s) |> in
  Inv s → live s p w → oracle_sound os s → holds (wpc w) = false →
  writer_step os p a w (shared s) = Some (w', sh') → Inv s'.
Proof.
  intros s' HI [Hw Hp] Hos Hh Hstep.
  destruct (outside_step _ _ _ _ _ _ _ Hstep Hh) as (Hst & Hrc & Hg & Hb & Hl).
  assert (Himg : record_commit w (shared s) (images s) = images s)
    by (unfold record_commit; destruct (wpc w); done).
  assert (Hpos : 0 < p) by (apply (inv_pid s HI); by rewrite Hw).
  assert (Hdom : ∀ q, is_Some (writers s !! q) ↔ is_Some (writers s' !! q)).
  { intros q. cbn. destruct (decide (q = p)) as [->|].
    - rewrite lookup_insert_eq, Hw. split; eauto.
    - by rewrite lookup_insert_ne. }
  assert (Hlive : ∀ q v, live s' q v → (q = p ∧ v = w') ∨ (q ≠ p ∧ live s q v)).
  { intros q v [Hq Hd]. cbn in Hq, Hd. destruct (decide (q = p)) as [->|].
    - rewrite lookup_insert_eq in Hq. left. by simplify_eq.
    - rewrite lookup_insert_ne in Hq by done. right. done. }
  assert (Hint : intact s ↔ intact s') by (unfold intact; cbn; by rewrite Himg, Hg, Hb).
  assert (Hpcs : ∀ pc, pc_ok s pc → pc_ok s' pc).
  { intros pc Hpc. assert (Hn : no_validated s → no_validated s') by done.
    destruct pc; cbn in Hpc |- *; repeat case_match; rewrite ?Hst; try done; try by apply Hdom.
    all: split; [apply Hpc|by apply Hint, Hpc]. }
  assert (Hown : write_lock (rw (shared s)) ≠ p).
  { intros He. apply (inv_lock s HI p w) in He; [congruence|done]. }
  constructor.
  - intros q Hq. apply (inv_pid s HI). by apply Hdom.
  - cbn [shared]. destruct Hl as [[Hl _]|[Hl _]]; cbn; rewrite Hl.
    + destruct (inv_holder s HI) as [|Hs]; [by left|right]. by apply Hdom.
    + right. rewrite lookup_insert_eq. eauto.
  - intros q v Hv. cbn. destruct (Hlive q v Hv) as [[-> ->]|[Hq Hv']].
    + destruct Hl as [[-> ->]|(-> & -> & _)]; cbn; naive_solver.
    + rewrite (inv_lock s HI q v Hv'). destruct Hl as [[-> _]|(-> & _ & Hold)]; [done|].
      assert (0 < q) by (apply (inv_pid s HI); by rewrite (proj1 Hv')).
      split; [|congruence]. intros He. exfalso.
      destruct Hold as [H0|Hz]; [lia|]. pose proof (inv_pc s HI p w (conj Hw Hp)) as Hok.
      rewrite Hz in Hok. cbn in Hok. rewrite He in Hok. by apply (proj2 Hv').
  - intros q v Hv. destruct (Hlive q v Hv) as [[-> ->]|[Hq Hv']];
      [|by apply Hpcs, (inv_pc s HI q)].
    unfold writer_step, acquire_write_step, release_write_step in Hstep.
    destruct a, (wpc w) eqn:Hpc; try done; repeat case_match; simplify_eq; cbn; try done.
    + apply Hdom. destruct (inv_holder s HI) as [Hz|]; [by bool_facts|done].
    + pose proof (inv_pc s HI p w (conj Hw Hp)) as Hok. rewrite Hpc in Hok. cbn in Hok.
      apply Hos; [|done]. unfold is_writer_alive_impl in *.
      assert (0 < expected_lock) by (by apply (inv_pid s HI)).
      destruct (is_producer_heartbeat_fresh _ _ _); repeat case_match; try done; bool_facts; lia.
  - cbn. rewrite Hrc. apply (inv_count s HI).
  - apply (inv_size s HI).
  - intros Hc. apply Hint, (inv_intact s HI). cbn in Hc. by rewrite Hst in Hc.
  - intros r pc Hr. apply (reader_ok_mono s); [by apply (inv_reader s HI r)| |by intros _].
    exists []. cbn. by rewrite Himg, app_nil_r.
Qed.

(** A step of the owner, by the access it makes. *)
Lemma Inv_inside_step os s p a w w' sh' :
  let s' := s <| shared := sh' |> <| writers ::= <[p := w']> |>
              <| images ::= record_commit w (shared s) |> in
  Inv s → live s p w → holds (wpc w) = true →
  writer_step os p a w (shared s) = Some (w', sh') → Inv s'.
Proof.
  intros s' HI Hlive Hh Hstep.
  assert (Hown : write_lock (rw (shared s)) = p) by (by apply (inv_lock s HI p w)).
  assert (Hok := inv_pc s HI p w Hlive).
  assert (Hint := inv_intact s HI).
  assert (Hzero : reader_count (rw (shared s)) = 0 → no_validated s).
  { intros H0 r pc Hr. destruct (validated pc) eqn:Hv; [|done].
    pose proof (registered_pos r pc _ Hr ltac:(by destruct pc)). pose proof (inv_count s HI). lia. }
  apply (Inv_owner_step s p w w' sh' (record_commit w (shared s) (images s))); try done.
  all: unfold writer_step, acquire_write_step, release_write_step in Hstep.
  all: destruct a, (wpc w) eqn:Hpc; try done; repeat case_match; simplify_eq; cbn in *;
    bool_facts; unfold record_commit; rewrite ?Hpc; try naive_solver.
  all: try by (exists []; by rewrite app_nil_r).
  all: try by eexists.
  all: try (intros; unfold intact; cbn; rewrite ?Hpc, ?last_snoc; tauto).
  - intros Hc. destruct Hok as [Hok _]. congruence.
  - intros Hc. destruct Hok as [Hok _]. congruence.
  - split; [|by apply Hzero]. destruct entered; [|done]. destruct Hok as [-> _]. done.
Qed.

(** A step of a reader: it leaves the lock, the state, the generation and the
    bytes alone, and passes the second check only in COMMITTED. *)
Lemma reader_step_effect a pc sh pc' sh' :
  reader_step a pc sh = Some (pc', sh') →
  write_lock (rw sh') = write_lock (rw sh) ∧ slot_state (rw sh') = slot_state (rw sh) ∧
  write_generation (rw sh') = write_generation (rw sh) ∧ buffer sh' = buffer sh ∧
  (validated pc' = true → validated pc = true ∨ slot_state (rw sh) = COMMITTED) ∧
  reader_count (rw sh') =
    match registered pc, registered pc' with
    | false, true => u32 (reader_count (rw sh) + 1)
    | true, false => u32 (reader_count (rw sh) - 1)
    | _, _ => reader_count (rw sh)
    end.
Proof.
  intros Hs. unfold reader_step, acquire_read_step, validate_read_impl in Hs.
  destruct a, pc; try done; try (apply bind_Some in Hs as (v & Hv & Hs));
    repeat (case_match; simplify_eq/=); simplify_eq/=; try done;
    bool_facts; split_and!; try done; intros _; try (by left).
  right. by destruct (decide (slot_state (rw sh') = COMMITTED)).
Qed.

Lemma reader_step_ok s a pc pc' sh' :
  Inv s → reader_ok s pc → (validated pc = true → intact s) →
  reader_step a pc (shared s) = Some (pc', sh') → reader_ok (s <| shared := sh' |>) pc'.
Proof.
  intros HI Hok Hint Hs. unfold reader_step, acquire_read_step, validate_read_impl in Hs.
  destruct a, pc; try done; try (apply bind_Some in Hs as (v & Hv & Hs));
    repeat (case_match; simplify_eq/=); simplify_eq/=; bool_facts; try done.
  - destruct Hok as [-> Hc]. split; [done|]. apply Forall_app. by repeat constructor.
  - by destruct Hok as [-> _].
  - split; [done|constructor].
  - destruct Hok as (-> & -> & Hc). split; [done|]. exists (buffer (shared s)).
    split; [|done]. by apply last_Some_elem_of, Hint.
Qed.

Lemma Inv_reader_step s r a pc pc' sh' :
  Inv s → readers s !! r = Some pc → reader_step a pc (shared s) = Some (pc', sh') →
  Inv (s <| shared := sh' |> <| readers ::= <[r := pc']> |>).
Proof.
  intros HI Hr Hs. destruct (reader_step_effect _ _ _ _ _ Hs) as (Hl & Hst & Hg & Hb & Hv & Hc).
  assert (Hok := inv_reader s HI r pc Hr).
  assert (Hint : ¬ no_validated s → intact s) by (intros; apply (inv_intact s HI); by right).
  assert (Hval : ∀ q qc, readers s !! q = Some qc → validated qc = true → ¬ no_validated s).
  { intros q qc Hq Hqv Hn. rewrite (Hn q qc Hq) in Hqv. done. }
  set (s' := s <| shared := sh' |> <| readers ::= <[r := pc']> |>).
  assert (Hsame : intact s → intact s') by (unfold intact; cbn; by rewrite Hg, Hb).
  assert (Hnv : slot_state (rw (shared s)) ≠ COMMITTED → no_validated s → no_validated s').
  { intros Hne Hn q qc Hq. cbn in Hq. apply lookup_insert_Some in Hq as [[<- <-]|[_ Hq]];
      [|by apply (Hn q)]. destruct (validated pc') eqn:E; [|done].
    destruct (Hv eq_refl) as [Hv'|]; [|done]. rewrite (Hn r pc Hr) in Hv'. done. }
  constructor; cbn; rewrite ?Hl, ?Hst.
  - apply (inv_pid s HI).
  - apply (inv_holder s HI).
  - intros p w Hw. apply (inv_lock s HI p w Hw).
  - intros p w Hw. assert (Hpc := inv_pc s HI p w Hw). clear -Hpc Hst Hsame Hnv.
    destruct (wpc w); cbn in *; repeat case_match; rewrite ?Hst; try done; naive_solver congruence.
  - rewrite Hc. pose proof (registered_insert r pc pc' _ Hr) as Hcnt.
    pose proof (inv_count s HI) as HN. pose proof (inv_size s HI).
    pose proof (registered_le (<[r := pc']> (readers s))) as Hle.
    rewrite map_size_insert_Some in Hle by (by rewrite Hr).
    destruct (registered pc) eqn:E1, (registered pc') eqn:E2; try lia;
      unfold u32; rewrite Z.mod_small; try lia.
  - rewrite map_size_insert_Some by (by rewrite Hr). apply (inv_size s HI).
  - intros Hc'. apply Hsame. destruct (decide (slot_state (rw (shared s)) = COMMITTED)) as [He|Hne].
    + apply (inv_intact s HI). by left.
    + destruct Hc' as [|Hc']; [done|]. apply Hint. intros Hn. by apply Hc', Hnv.
  - intros q qc Hq. apply lookup_insert_Some in Hq as [[<- <-]|[_ Hq]].
    + apply (reader_step_ok s a pc); [done..| |done]. intros Hpv. by eapply Hint, Hval.
    + apply (reader_ok_mono s); [by apply (inv_reader s HI q)|exists []; by rewrite app_nil_r|].
      done.
Qed.

Lemma Inv_init h bytes : Inv (init h bytes).
Proof.
  constructor; cbn; try (by left); try done.
  - intros p [w Hw]. by rewrite lookup_empty in Hw.
  - intros p w [Hw _]. cbn in Hw. by rewrite lookup_empty in Hw.
  - intros p w [Hw _]. cbn in Hw. by rewrite lookup_empty in Hw.
  - intros [|Hn]; [done|]. destruct Hn. intros r pc Hr. cbn in Hr. by rewrite lookup_empty in Hr.
Qed.

Lemma Inv_die s p : Inv s → Inv (s <| dead ::= union {[p]} |>).
Proof.
  intros HI. constructor; try apply HI.
  - intros q w [Hq Hd]. apply (inv_lock s HI q w). split; [done|set_solver].
  - intros q w [Hq Hd]. cbn in Hd. assert (Hok : pc_ok s (wpc w)).
    { apply (inv_pc s HI q w). split; [done|set_solver]. }
    destruct (wpc w); cbn in *; try done. set_solver.
Qed.

Lemma Inv_new_writer s p :
  Inv s → writers s !! p = None → 0 < p →
  Inv (s <| writers ::= <[p := mkWriter (WIdle None) 0 0 false]> |>).
Proof.
  intros HI Hp Hpos. constructor; cbn; try apply HI.
  - intros q Hq. destruct (decide (q = p)) as [->|]; [done|].
    rewrite lookup_insert_ne in Hq by done. by apply (inv_pid s HI).
  - destruct (inv_holder s HI) as [|Hs]; [by left|right].
    rewrite lookup_insert_ne; [done|]. intros ->. rewrite Hp in Hs. by destruct Hs.
  - intros q w [Hq Hd]. cbn in Hq. apply lookup_insert_Some in Hq as [[<- <-]|[Hne Hq]].
    + cbn. split; [done|]. intros He. destruct (inv_holder s HI) as [|Hs]; [lia|].
      rewrite He, Hp in Hs. by destruct Hs.
    + by apply (inv_lock s HI q w).
  - intros q w [Hq Hd]. cbn in Hq. apply lookup_insert_Some in Hq as [[<- <-]|[Hne Hq]]; [done|].
    assert (Hok := inv_pc s HI q w (conj Hq Hd)).
    destruct (wpc w) as [| |e| | | | | | | | | | | | | | | | | | |]; cbn in *; try done.
    destruct (decide (p = e)) as [->|]; [rewrite lookup_insert_eq; eauto|by rewrite lookup_insert_ne].
Qed.

Lemma Inv_new_reader s r :
  Inv s → readers s !! r = None → Z.of_nat (size (readers s)) + 1 < 2 ^ 32 →
  Inv (s <| readers ::= <[r := RIdle]> |>).
Proof.
  intros HI Hr Hsz.
  assert (Hnv : no_validated (s <| readers ::= <[r := RIdle]> |>) ↔ no_validated s).
  { unfold no_validated. cbn. split; intros Hn q qc Hq.
    - destruct (decide (q = r)) as [->|]; [congruence|]. apply (Hn q). by rewrite lookup_insert_ne.
    - apply lookup_insert_Some in Hq as [[<- <-]|[_ Hq]]; [done|]. by apply (Hn q). }
  constructor; cbn; try apply HI.
  - intros p w Hw. assert (Hok := inv_pc s HI p w Hw).
    destruct (wpc w); cbn in *; repeat case_match; try done; rewrite ?Hnv; done.
  - rewrite (inv_count s HI). unfold registered_readers. rewrite map_filter_insert_False by done.
    by rewrite delete_id.
  - rewrite map_size_insert_None by done. lia.
  - rewrite Hnv. apply (inv_intact s HI).
  - intros q qc Hq. apply lookup_insert_Some in Hq as [[<- <-]|[_ Hq]]; [done|].
    by apply (inv_reader s HI q).
Qed.

Lemma Inv_slot_step s s' : step s s' → Inv s → Inv s'.
Proof.
  intros [os p a w w' sh' s0 Hw Hd Hos Hs|r a pc pc' sh' s0 Hr Hs|p s0 _|p s0 Hp Hpos|r s0 Hr Hsz] HI.
  - destruct (holds (wpc w)) eqn:Hh.
    + by apply (Inv_inside_step os _ _ a).
    + by apply (Inv_outside_step os _ _ a).
  - by apply (Inv_reader_step _ _ a pc).
  - by apply Inv_die.
  - by apply Inv_new_writer.
  - by apply Inv_new_reader.
Qed.

Lemma slot_reachable_Inv s : reachable s → Inv s.
Proof. induction 1; [apply Inv_init|eauto using Inv_slot_step]. Qed.

(** ** Safety of the protocol *)

(** C9 Exclusion: in every reachable state a live writer that has been given
    the slot owns [write_lock], the slot is in WRITING, no reader is past its
    second check, and no other live writer holds the lock. *)
Theorem slot_write_exclusive s p w :
  reachable s → live s p w → wpc w = WWriting →
  write_lock (rw (shared s)) = p ∧ slot_state (rw (shared s)) = WRITING ∧ no_validated s ∧
  ∀ q v, live s q v → holds (wpc v) = true → q = p.
Proof.
  intros HI%slot_reachable_Inv Hw Hpc. pose proof (inv_pc s HI p w Hw) as Hok.
  rewrite Hpc in Hok. cbn in Hok.
  assert (Hl : write_lock (rw (shared s)) = p) by (apply (inv_lock s HI p w Hw); by rewrite Hpc).
  destruct Hok. split_and!; try done. intros q v Hv Hh.
  apply (inv_lock s HI q v Hv) in Hh. congruence.
Qed.

(** C3 No torn reads: whatever the interleaving of writers, readers and
    writer deaths, a read that has been acquired passes its validation when it
    is released, and every byte it copied is the byte that one and the same
    commit, the one of the generation it captured, left in the slot. *)
Theorem slot_read_consistent s r ok g cp :
  reachable s → readers s !! r = Some (RDone ok g cp) →
  ok = true ∧ ∃ bytes, (g, bytes) ∈ images s ∧ copies cp bytes.
Proof. intros HI%slot_reachable_Inv Hr. exact (inv_reader s HI r _ Hr). Qed.

(** The reader count is the number of readers between their registration
    and their release, and a draining writer lets nobody new in: while a live
    writer is draining or has the slot, no step of any thread takes a reader
    past its second check. *)
Theorem drain_admits_nobody s s' p w r pc :
  reachable s → step s s' →
  reader_count (rw (shared s)) = Z.of_nat (registered_readers (readers s)) ∧
  (live s p w → draining (wpc w) = true ∨ exclusive (wpc w) = true →
   readers s' !! r = Some pc → validated pc = true →
   ∃ pc0, readers s !! r = Some pc0 ∧ validated pc0 = true).
Proof.
  intros HI%slot_reachable_Inv Hstep. split; [apply (inv_count s HI)|].
  intros Hw Hph Hr Hv.
  assert (Hne : slot_state (rw (shared s)) ≠ COMMITTED).
  { pose proof (inv_pc s HI p w Hw) as Hok.
    destruct (wpc w) as [| | | | | | |e|e|e|e|e| | | | | | | | | |]; cbn in *;
      try (destruct Hph; done); try (destruct e; naive_solver congruence); naive_solver congruence. }
  destruct Hstep as [os q a v v' sh' s0 Hq Hd Hos Hs|q a qc qc' sh' s0 Hq Hs|q s0 _|q s0 Hq Hpos|q s0 Hq Hsz];
    cbn in Hr; try by eauto.
  - apply lookup_insert_Some in Hr as [[<- <-]|[_ Hr]]; [|by eauto]. exists qc. split; [done|].
    destruct (reader_step_effect _ _ _ _ _ Hs) as (_ & _ & _ & _ & Hval & _).
    by destruct (Hval Hv).
  - apply lookup_insert_Some in Hr as [[<- <-]|[_ Hr]]; by eauto.
Qed.

(** ** Schedules

    A schedule is run by asking each thread in turn for its next step; the
    platform reports exactly the dead writers as dead. *)
Inductive event :=
  | NewWriter (p : Z) | NewReader (r : nat) | Die (p : Z)
  | W (p : Z) (a : WAction) | R (r : nat) (a : RAction).

Definition os_of s : Platform := mkPlatform 0 (λ p, bool_decide (p ∉ dead s)).

Definition fire_event (e : event) s : option Sys :=
  match e with
  | NewWriter p =>
      if bool_decide (writers s !! p = None ∧ 0 < p)
      then Some (s <| writers ::= <[p := mkWriter (WIdle None) 0 0 false]> |>) else None
  | NewReader r =>
      if bool_decide (readers s !! r = None ∧ Z.of_nat (size (readers s)) + 1 < 2 ^ 32)
      then Some (s <| readers ::= <[r := RIdle]> |>) else None
  | Die p => _ ← writers s !! p; Some (s <| dead ::= union {[p]} |>)
  | W p a =>
      w ← writers s !! p;
      if bool_decide (p ∈ dead s) then None else
      '(w', sh') ← writer_step (os_of s) p a w (shared s);
      Some (s <| shared := sh' |> <| writers ::= <[p := w']> |>
              <| images ::= record_commit w (shared s) |>)
  | R r a =>
      pc ← readers s !! r;
      '(pc', sh') ← reader_step a pc (shared s);
      Some (s <| shared := sh' |> <| readers ::= <[r := pc']> |>)
  end.

Fixpoint run_schedule (l : list event) s : option Sys :=
  match l with [] => Some s | e :: l => fire_event e s ≫= run_schedule l end.

Lemma fire_event_step e s s' : fire_event e s = Some s' → step s s'.
Proof.
  destruct e; cbn; intros Hs.
  - case_bool_decide as Hc; [|done]. destruct Hc. simplify_eq. by constructor.
  - case_bool_decide as Hc; [|done]. destruct Hc. simplify_eq. by constructor.
  - apply bind_Some in Hs as (w & Hw & Hs). simplify_eq. constructor. by rewrite Hw.
  - apply bind_Some in Hs as (w & Hw & Hs). case_bool_decide as Hd; [done|].
    apply bind_Some in Hs as ([w' sh'] & Hst & Hs). simplify_eq.
    eapply step_writer; [done..| |done]. intros q Hq _. cbn in Hq.
    apply bool_decide_eq_false in Hq. destruct (decide (q ∈ dead s)); tauto.
  - apply bind_Some in Hs as (pc & Hpc & Hs). apply bind_Some in Hs as ([pc' sh'] & Hst & Hs).
    simplify_eq. by eapply step_reader.
Qed.

Lemma run_schedule_reachable l s s' :
  reachable s → run_schedule l s = Some s' → reachable s'.
Proof.
  revert s. induction l as [|e l IH]; intros s Hs Hr; cbn in Hr; [by simplify_eq|].
  apply bind_Some in Hr as (s1 & He & Hr). apply (IH s1); [|done].
  eapply reach_step; [done|]. by eapply fire_event_step.
Qed.

(** A writer commits two bytes; reader 1 copies one byte; the next writer waits
    for it, and reader 2 is turned away. *)
Definition blank_header : SharedMemoryHeader := mkHeader (2 ^ 64 - 1) 0 0 0 0 0 0 0 0 0 0 0.

Definition acquire_events (p : Z) : list event :=
  W p (WAcquire (-1) true) :: replicate 6 (W p WRun).

Definition commit_events (p id : Z) : list event := W p (WCommit id) :: replicate 5 (W p WRun).

Definition first_writer : list event :=
  [NewWriter 7; NewReader 1; NewReader 2] ++ acquire_events 7 ++
  [W 7 (WStoreByte 0 11); W 7 (WStoreByte 1 22)].

Definition drain_schedule : list event :=
  first_writer ++ commit_events 7 0 ++
  [R 1 RAcquire; R 2 RAcquire; R 2 RRun; R 1 RRun; R 1 RRun; R 1 RRun; R 1 RRun; R 1 (RCopy 1)] ++
  W 7 (WAcquire (-1) true) :: replicate 4 (W 7 WRun) ++ [R 2 RRun].

Definition sys_after (l : list event) : Sys :=
  default (init None []) (run_schedule l (init (Some blank_header) [0; 0])).

Lemma sys_after_reachable l :
  is_Some (run_schedule l (init (Some blank_header) [0; 0])) → reachable (sys_after l).
Proof.
  intros [s' Hs]. unfold sys_after. rewrite Hs. eapply run_schedule_reachable; [constructor|done].
Qed.

Lemma slot_write_exclusive_witness :
  (∃ w, live (sys_after first_writer) 7 w ∧ wpc w = WWriting) ∧
  write_lock (rw (shared (sys_after first_writer))) = 7 ∧ no_validated (sys_after first_writer).
Proof.
  assert (Hr : reachable (sys_after first_writer))
    by (apply sys_after_reachable; vm_compute; by eexists).
  assert (Hl : live (sys_after first_writer) 7 (mkWriter WWriting 0 (-1) true)).
  { split; [by vm_compute|]. apply (bool_decide_unpack _). by vm_compute. }
  split; [by exists (mkWriter WWriting 0 (-1) true)|].
  destruct (slot_write_exclusive _ _ _ Hr Hl eq_refl) as (? & _ & ? & _). done.
Defined.

Lemma slot_read_consistent_witness :
  let s := sys_after (drain_schedule ++ [R 1 (RCopy 0); R 1 RFinish; R 1 RRun]) in
  readers s !! 1%nat = Some (RDone true 1 [(1%nat, 22); (0%nat, 11)]) ∧
  ∃ bytes, (1, bytes) ∈ images s ∧ copies [(1%nat, 22); (0%nat, 11)] bytes.
Proof.
  set (l := drain_schedule ++ [R 1 (RCopy 0); R 1 RFinish; R 1 RRun]).
  assert (Hr : reachable (sys_after l)) by (apply sys_after_reachable; vm_compute; by eexists).
  assert (Hd : readers (sys_after l) !! 1%nat = Some (RDone true 1 [(1%nat, 22); (0%nat, 11)]))
    by (by vm_compute).
  split; [exact Hd|]. exact (proj2 (slot_read_consistent _ _ _ _ _ Hr Hd)).
Defined.

Lemma drain_admits_nobody_witness :
  let s := sys_after drain_schedule in
  reader_count (rw (shared s)) = 2 ∧
  reader_count (rw (shared s)) = Z.of_nat (registered_readers (readers s)) ∧
  ∃ pc0, readers s !! 1%nat = Some pc0 ∧ validated pc0 = true.
Proof.
  set (s := sys_after drain_schedule). set (w := mkWriter (WLoadReaders true) 0 (-1) true).
  assert (Hr : reachable s) by (apply sys_after_reachable; vm_compute; by eexists).
  assert (Hst : step s (sys_after (drain_schedule ++ [R 2 RRun])))
    by (apply (fire_event_step (R 2 RRun)); by vm_compute).
  assert (Hl : live s 7 w)
    by (split; [by vm_compute|]; apply (bool_decide_unpack _); by vm_compute).
  destruct (drain_admits_nobody s _ 7 w 1%nat (RReading 1 [(1%nat, 22)]) Hr Hst) as [Hc Hv].
  split; [by vm_compute|]. split; [exact Hc|]. apply Hv; [done|by left|by vm_compute|done].
Defined.

(** ** What a call returns when nobody interferes *)

Definition slot_after (p : Z) (st : SlotState) (r : SlotRWState) : SlotRWState :=
  r <| write_lock := p |> <| slot_state := st |> <| writer_waiting := 0 |>.

Lemma run_alone_step os p n w sh w' sh' :
  writer_step os p WRun w sh = Some (w', sh') →
  run_alone os p (S n) w sh = run_alone os p n w' sh'.
Proof. intros Hs. cbn [run_alone]. by rewrite Hs. Qed.

(** Run the next access, its tests decided by the hypotheses. *)
Ltac advance :=
  erewrite run_alone_step;
  [|cbn -[is_writer_alive_impl bool_decide];
    repeat match goal with
    | H : bool_decide ?P = _ |- context [bool_decide ?P] => rewrite H
    | H : is_writer_alive_impl _ _ _ = _ |- _ => rewrite H
    end; reflexivity].

Lemma run_alone_stop os p n w sh :
  match wpc w with WIdle _ | WWriting => True | _ => False end →
  run_alone os p n w sh = (w, sh).
Proof. intros Hpc. destruct n; [done|]. cbn. unfold writer_step, acquire_write_step, release_write_step. by destruct (wpc w). Qed.

(** The second phase of [acquire_write], entered with the lock. *)
Lemma drain_nowait os p k t sh :
  let r := rw sh in
  let '(w, sh') := run_alone os p (8 + k) (mkWriter WLoadState t 0 false) sh in
  buffer sh' = buffer sh ∧
  if reader_count r =? 0
  then wpc w = WWriting ∧ rw sh' = slot_after (write_lock r) WRITING r
  else wpc w = WIdle (Some SLOT_ACQUIRE_TIMEOUT) ∧ rw sh' = slot_after 0 (slot_state r) r.
Proof.
  cbv zeta. destruct sh as [[lock cnt st wt gen] h bytes].
  cbn [rw write_lock reader_count slot_state header buffer Nat.add].
  assert (Hz : (cnt =? 0) = bool_decide (cnt = 0)) by (case_bool_decide; lia). rewrite Hz.
  destruct (bool_decide (cnt = 0)) eqn:Hc; destruct (bool_decide (st = COMMITTED)) eqn:Hst;
    repeat advance; rewrite run_alone_stop by done; try done.
  apply bool_decide_eq_true in Hst as ->. done.
Qed.

Lemma acquire_write_nowait_aux os p sh :
  let r := rw sh in
  let '(w, sh') := run_alone os p 12 (mkWriter WTryLock (monotonic_time_ns os) 0 false) sh in
  buffer sh' = buffer sh ∧
  if negb (write_lock r =? 0) && is_writer_alive_impl os (header sh) (write_lock r)
  then wpc w = WIdle (Some SLOT_ACQUIRE_TIMEOUT) ∧ rw sh' = r
  else if reader_count r =? 0
       then wpc w = WWriting ∧ rw sh' = slot_after p WRITING r
       else wpc w = WIdle (Some SLOT_ACQUIRE_TIMEOUT) ∧ rw sh' = slot_after 0 (slot_state r) r.
Proof.
  cbv zeta. destruct sh as [[lock cnt st wt gen] h bytes].
  cbn [rw write_lock reader_count slot_state header buffer].
  assert (Hz : (lock =? 0) = bool_decide (lock = 0)) by (case_bool_decide; lia). rewrite Hz.
  assert (Hself : bool_decide (lock = lock) = true) by (by apply bool_decide_eq_true).
  destruct (bool_decide (lock = 0)) eqn:Hl; cbn [negb andb].
  - advance. exact (drain_nowait os p 3 (monotonic_time_ns os)
      (store_lock p (mkShared (mkSlotRWState lock cnt st wt gen) h bytes))).
  - destruct (is_writer_alive_impl os h lock) eqn:Ha; do 3 advance.
    + by rewrite run_alone_stop.
    + exact (drain_nowait os p 1 (monotonic_time_ns os) (increment_metric_write_lock_contention
        (store_lock p (mkShared (mkSlotRWState lock cnt st wt gen) h bytes)))).
Qed.

(** A call of [acquire_write] with timeout 0 and no interference comes to
    an end and answers by the state it finds: a lock with a live owner times
    out and leaves the slot as it was; otherwise, with no reader registered
    the caller owns the slot in WRITING, and with readers registered the call
    gives up and leaves the slot unlocked in the state it had. *)
Theorem acquire_write_nowait_outcome os p sh :
  let r := rw sh in
  let '(w, sh') := run_alone os p 12 (mkWriter WTryLock (monotonic_time_ns os) 0 false) sh in
  buffer sh' = buffer sh ∧
  if negb (write_lock r =? 0) && is_writer_alive_impl os (header sh) (write_lock r)
  then wpc w = WIdle (Some SLOT_ACQUIRE_TIMEOUT) ∧ rw sh' = r
  else if reader_count r =? 0
       then wpc w = WWriting ∧ rw sh' = slot_after p WRITING r
       else wpc w = WIdle (Some SLOT_ACQUIRE_TIMEOUT) ∧ rw sh' = slot_after 0 (slot_state r) r.
Proof. apply acquire_write_nowait_aux. Qed.

(** ** The C API *)

(** Through the C API a commit cannot be published: the only call that
    gives the lock back, [slot_rw_release_write], sets the slot to FREE, so
    after commit and release every reader is told NOT_READY; and without the
    release the owner's pid stays in the lock, so that while the owner lives
    the next acquisition times out. *)
Theorem c_api_commit_never_published os p r :
  slot_rw_acquire_read (slot_rw_release_write (slot_rw_commit (Some r))) true =
    (SLOT_ACQUIRE_NOT_READY, None, slot_rw_release_write (slot_rw_commit (Some r))) ∧
  (0 < write_lock r → is_process_alive os (write_lock r) = true →
   slot_rw_acquire_write_nowait os p (slot_rw_commit (Some r)) =
     (Some SLOT_ACQUIRE_TIMEOUT, slot_rw_commit (Some r))).
Proof.
  split; [done|]. intros Hp Ha. unfold slot_rw_acquire_write_nowait, slot_rw_commit. cbn [fmap option_fmap option_map].
  set (r' := rw (commit_write 0 (bare r))).
  pose proof (acquire_write_nowait_aux os p (bare r')) as H1. cbv zeta in H1.
  destruct (run_alone _ _ _ _ _) as [w sh']. destruct H1 as [_ H1].
  assert (Hl : write_lock (rw (bare r')) = write_lock r) by done.
  unfold is_writer_alive_impl in H1. rewrite Hl in H1. cbn [header bare is_producer_heartbeat_fresh] in H1.
  rewrite bool_decide_eq_false_2, Ha, (proj2 (Z.eqb_neq (write_lock r) 0)) in H1 by lia.
  cbn in H1. destruct H1 as [-> ->]. done.
Qed.

(** ** Access through a handle *)

(** The bounds check of [SlotWriteHandle::write] (and [read]) adds offset
    and length in [size_t]: it refuses an empty or out-of-range access and
    performs an in-range one, except that the sum may wrap, and then an access
    outside the buffer is let through.  It is safe exactly when the sum does
    not reach 2^64. *)
Theorem slot_write_bounds src offset bytes :
  let len := Z.of_nat (length src) in
  let size := Z.of_nat (length bytes) in
  0 <= offset < 2 ^ 64 → len < 2 ^ 64 → size < 2 ^ 64 →
  (write src offset bytes = None ↔ 0 < len ∧ 2 ^ 64 <= offset + len <= 2 ^ 64 + size) ∧
  (offset + len < 2 ^ 64 →
   write src offset bytes =
   if (0 <? len) && (offset + len <=? size)
   then Some (true, take (Z.to_nat offset) bytes ++ src ++ drop (Z.to_nat offset + length src) bytes)
   else Some (false, bytes)).
Proof.
  cbv zeta. intros Ho Hl Hs. unfold write, u64, u64_modulus.
  set (len := Z.of_nat (length src)) in *. set (size := Z.of_nat (length bytes)) in *.
  assert (Hn : 0 <= len) by lia.
  assert (Hmod : offset + len < 2 ^ 64 → (offset + len) mod 2 ^ 64 = offset + len)
    by (intros; apply Z.mod_small; lia).
  assert (Hwrap : 2 ^ 64 <= offset + len → (offset + len) mod 2 ^ 64 = offset + len - 2 ^ 64).
  { intros. symmetry. apply (Z.mod_unique _ _ 1); lia. }
  split.
  - destruct (Z.eqb_spec len 0) as [|Hz]; [split; [done|lia]|].
    destruct (decide (offset + len < 2 ^ 64)) as [Hlt|Hge].
    + rewrite Hmod by done. destruct (Z.ltb_spec size (offset + len)); [split; [done|lia]|].
      destruct (Z.leb_spec (offset + len) size); [split; [done|lia]|lia].
    + rewrite Hwrap by lia. destruct (Z.ltb_spec size (offset + len - 2 ^ 64)); [split; [done|lia]|].
      destruct (Z.leb_spec (offset + len) size); [lia|]. split; [lia|done].
  - intros Hlt. rewrite Hmod by done. destruct (Z.eqb_spec len 0) as [->|Hz]; [done|].
    rewrite (proj2 (Z.ltb_lt 0 len)) by lia. cbn [andb].
    destruct (Z.ltb_spec size (offset + len)), (Z.leb_spec (offset + len) size); try lia; done.
Qed.

Lemma slot_write_bounds_witness :
  write [9] (2 ^ 64 - 1) [1; 2] = None ∧ write [9] 1 [1; 2] = Some (true, [1; 9]).
Proof.
  split.
  - apply (slot_write_bounds [9] (2 ^ 64 - 1) [1; 2]); cbn; lia.
  - exact (proj2 (slot_write_bounds [9] 1 [1; 2] ltac:(cbn; lia) ltac:(cbn; lia) ltac:(cbn; lia))
             ltac:(cbn; lia)).
Defined.

End SlotProps.
