(* ===== verification/Ring.v ===== *)
(** * The ring of a shared-memory data block

    Models the producer and consumer calls of [src/utils/shm/data_block.cpp]
    ([acquire_write_slot], [release_write_handle], [acquire_consume_slot],
    [release_consume_handle], [register_heartbeat], [unregister_heartbeat]) and
    [get_next_slot_to_read] of [data_block_internal.hpp], for the three
    consumer policies.

    One producer drives the ring (the broker admits one per channel) and holds
    at most one write handle.  The calls interleave at the points where the
    code can be overtaken for long: between claiming a slot and the end of its
    drain, between a consumer's choice of a slot id and its [acquire_read] on the
    slot, between acquiring and releasing a handle, and, in the release of a
    [Sequential_sync] consumer, between the store of its own position, each
    step of the scan over the other positions, and the store of [read_index].
    The interleavings inside one slot function are the subject of [SlotRW]. *)

From S2P Require Import Prelude.
From S2P Require Import SlotRW.
Import SlotRW.

Module Ring.

Inductive ConsumerSyncPolicy := Latest_only | Sequential | Sequential_sync.

#[global] Instance ConsumerSyncPolicy_eq_dec : EqDecision ConsumerSyncPolicy.
Proof. solve_decision. Defined.

Definition INVALID_SLOT_ID : Z := u64_max.
Definition MAX_CONSUMER_HEARTBEATS : nat := 8.

(** A slot: its coordination state and its bytes. *)
Record Slot := mkSlot { srw : SlotRWState; bytes : list Z }.
#[global] Instance eta_ringslot : Eta Slot := λ r, mkSlot (srw r) (bytes r).

(** The header of the block, as far as the ring uses it; the next-read
    positions live in [reserved_header]. *)
Record Header := mkRingHeader {
  consumer_sync_policy : ConsumerSyncPolicy;
  write_index : Z;
  commit_index : Z;
  read_index : Z;
  active_consumer_count : Z;
  consumer_pid : list Z;
  consumer_next_read_slot : list Z;
  writer_timeout_count : Z;
  reader_timeout_count : Z;
  reader_validation_failed : Z;
  slot_acquire_errors : Z;
  total_slots_written : Z;
}.
#[global] Instance eta_ringheader : Eta Header := λ r,
  mkRingHeader (consumer_sync_policy r) (write_index r) (commit_index r) (read_index r)
    (active_consumer_count r) (consumer_pid r) (consumer_next_read_slot r)
    (writer_timeout_count r) (reader_timeout_count r) (reader_validation_failed r)
    (slot_acquire_errors r) (total_slots_written r).

Record DataBlock := mkDataBlock { hdr : Header; slots : list Slot }.
#[global] Instance eta_block : Eta DataBlock := λ r, mkDataBlock (hdr r) (slots r).

Definition slot_count (b : DataBlock) : Z := Z.of_nat (length (slots b)).

(** [slot_id % slot_count]. *)
Definition slot_index (b : DataBlock) (slot_id : Z) : nat := Z.to_nat (slot_id mod slot_count b).

Definition on_slot (f : Slot → Slot) (slot_id : Z) (b : DataBlock) : DataBlock :=
  b <| slots ::= alter f (slot_index b slot_id) |>.
Definition on_srw (f : SlotRWState → SlotRWState) (slot_id : Z) : DataBlock → DataBlock :=
  on_slot (λ s, s <| srw ::= f |>) slot_id.
Definition slot_at (b : DataBlock) (slot_id : Z) : option Slot := slots b !! slot_index b slot_id.

(** The block as its creator leaves it. *)
Definition create (policy : ConsumerSyncPolicy) (images : list (list Z)) : DataBlock :=
  mkDataBlock
    (mkRingHeader policy 0 INVALID_SLOT_ID 0 0 (replicate MAX_CONSUMER_HEARTBEATS 0)
       (replicate MAX_CONSUMER_HEARTBEATS 0) 0 0 0 0 0)
    ((λ bs, mkSlot (mkSlotRWState 0 0 FREE 0 0) bs) <$> images).

(** ** Producer *)

Inductive ProducerPc :=
  | PIdle
  | PDraining (slot_id : Z)
  | PWriting (slot_id : Z).

Definition blocks_writer (p : ConsumerSyncPolicy) : bool :=
  match p with Latest_only => false | Sequential | Sequential_sync => true end.

(** [acquire_write_slot] up to the drain loop of [acquire_write].  [None] is a
    null handle: the ring stayed full until the timeout, or the slot's lock was
    not free, in which case the claimed slot id is lost. *)
Definition acquire_write_slot (my_pid : Z) (b : DataBlock) : option Z * DataBlock :=
  let h := hdr b in
  if blocks_writer (consumer_sync_policy h) &&
     negb (u64 (write_index h - read_index h) <? slot_count b)
  then (None, b <| hdr ::= λ h, h <| writer_timeout_count ::= u64_succ |> |>)
  else
    let slot_id := write_index h in
    let b := b <| hdr ::= λ h, h <| write_index ::= u64_succ |> |> in
    match slot_at b slot_id with
    | None => (None, b)
    | Some s =>
        if bool_decide (write_lock (srw s) ≠ 0)
        then (None, b <| hdr ::= λ h, h <| writer_timeout_count ::= u64_succ |> |>)
        else
          (Some slot_id,
           on_srw (λ r, r <| write_lock := my_pid |> <| writer_waiting := 1 |>
                          <| slot_state := if bool_decide (slot_state r = COMMITTED)
                                           then DRAINING else slot_state r |>) slot_id b)
    end.

(** The end of the drain: with no reader left the slot goes to WRITING. *)
Definition finish_drain (slot_id : Z) (b : DataBlock) : option DataBlock :=
  s ← slot_at b slot_id;
  if bool_decide (reader_count (srw s) = 0)
  then Some (on_srw (λ r, r <| writer_waiting := 0 |> <| slot_state := WRITING |>) slot_id b)
  else None.

Definition store_bytes (slot_id : Z) (bs : list Z) : DataBlock → DataBlock :=
  on_slot (λ s, s <| bytes := bs |>) slot_id.

Definition release_write_handle (slot_id : Z) (committed : bool) (b : DataBlock) : DataBlock :=
  if committed then
    on_srw (λ r, r <| write_generation ::= u64_succ |> <| slot_state := COMMITTED |>
                   <| write_lock := 0 |>) slot_id b
      <| hdr ::= λ h, h <| commit_index := slot_id |> <| total_slots_written ::= u64_succ |> |>
  else
    on_srw (λ r, r <| slot_state := FREE |> <| write_lock := 0 |>) slot_id b
      <| hdr ::= λ h, h <| write_index ::= λ n, u64 (n - 1) |> |>.

(** ** Consumers *)

(** The slot id an acquisition has picked, a handle and, while a release is under
    way, the scan of the positions.  Between the passes of its loop an
    acquisition is back at [CIdle]. *)
Inductive ConsumerPc :=
  | CIdle
  | CChosen (slot_id : Z)
  | CHolding (slot_id captured_generation : Z)
  | CScan (i : nat) (min_pos : Z).

Record Consumer := mkConsumer {
  heartbeat_slot : option nat;
  last_consumed_slot_id : Z;
  cpc : ConsumerPc;
}.
#[global] Instance eta_consumer : Eta Consumer := λ r,
  mkConsumer (heartbeat_slot r) (last_consumed_slot_id r) (cpc r).

Definition get_next_slot_to_read (h : Header) (last_seen : Z) (heartbeat : option nat) : Z :=
  match consumer_sync_policy h with
  | Latest_only =>
      let next := commit_index h in
      if bool_decide (next = INVALID_SLOT_ID) || bool_decide (next = last_seen)
      then INVALID_SLOT_ID else next
  | Sequential =>
      let commit := commit_index h in
      if bool_decide (commit = INVALID_SLOT_ID) then INVALID_SLOT_ID
      else if commit <? read_index h then INVALID_SLOT_ID else read_index h
  | Sequential_sync =>
      match heartbeat ≫= (consumer_next_read_slot h !!.) with
      | None => INVALID_SLOT_ID
      | Some next => if commit_index h <? next then INVALID_SLOT_ID else next
      end
  end.

(** A pass of the loop of [acquire_consume_slot] is two steps, between which the
    producer may move.  The first picks the slot id to read; with none to read,
    the pass ends the call and counts a timeout when the deadline has [elapsed],
    or the loop goes round. *)
Definition pass_over (elapsed : bool) (b : DataBlock) : DataBlock :=
  if elapsed then b <| hdr ::= λ h, h <| reader_timeout_count ::= u64_succ |> |> else b.

Definition acquire_consume_slot_choose (c : Consumer) (elapsed : bool) (b : DataBlock)
    : option Z * DataBlock :=
  let h := hdr b in
  if bool_decide (consumer_sync_policy h = Sequential_sync) && bool_decide (heartbeat_slot c = None)
  then (None, b <| hdr ::= λ h, h <| slot_acquire_errors ::= u64_succ |> |>)
  else
    let next_to_read := get_next_slot_to_read h (last_consumed_slot_id c) (heartbeat_slot c) in
    if bool_decide (next_to_read = INVALID_SLOT_ID) then (None, pass_over elapsed b)
    else (Some next_to_read, b).

(** The second step calls [acquire_read] on the slot of that id, whatever the
    slot holds by now: the generation of a handle, or nothing. *)
Definition acquire_consume_slot_read (next_to_read : Z) (elapsed : bool) (b : DataBlock)
    : option Z * DataBlock :=
  match slot_at b next_to_read with
  | None => (None, b)
  | Some s =>
      match acquire_read (bare (srw s)) with
      | (SLOT_ACQUIRE_OK, Some captured_generation, s') =>
          (Some captured_generation, on_srw (λ _, rw s') next_to_read b)
      | (SLOT_ACQUIRE_NOT_READY, _, _) => (None, pass_over elapsed b)
      | _ => (None, b)
      end
  end.

(** [release_consume_handle] up to the scan: validation, checksum
    ([checksum_ok] is the verdict of the checksum functions), release of the
    reader count and advance of the position. *)
Definition release_consume_handle (c : Consumer) (slot_id captured_generation : Z)
    (checksum_ok mark_as_consumed : bool) (b : DataBlock) : Consumer * DataBlock :=
  let valid := match slot_at b slot_id with
    | Some s => bool_decide (write_generation (srw s) = captured_generation) | None => false end in
  let b := if valid then b
           else b <| hdr ::= λ h, h <| reader_validation_failed ::= u64_succ |> |> in
  let success := valid && checksum_ok in
  let b := on_srw (λ r, rw (release_read (bare r))) slot_id b in
  let next := u64_succ slot_id in
  let c := if mark_as_consumed then c <| last_consumed_slot_id := slot_id |> else c in
  if negb success then (c <| cpc := CIdle |>, b)
  else
    match consumer_sync_policy (hdr b), heartbeat_slot c with
    | Sequential, _ => (c <| cpc := CIdle |>, b <| hdr ::= λ h, h <| read_index := next |> |>)
    | Sequential_sync, Some i =>
        (c <| cpc := CScan 0 next |>,
         b <| hdr ::= λ h, h <| consumer_next_read_slot ::= <[i := next]> |> |>)
    | _, _ => (c <| cpc := CIdle |>, b)
    end.

(** One pass of the loop over the positions, or the store that follows it. *)
Definition scan_step (c : Consumer) (i : nat) (min_pos : Z) (b : DataBlock) : Consumer * DataBlock :=
  if bool_decide (i < MAX_CONSUMER_HEARTBEATS)%nat then
    let h := hdr b in
    let registered := bool_decide (default 0 (consumer_pid h !! i) ≠ 0) in
    let pos := default 0 (consumer_next_read_slot h !! i) in
    (c <| cpc := CScan (S i) (if registered && (pos <? min_pos) then pos else min_pos) |>, b)
  else (c <| cpc := CIdle |>, b <| hdr ::= λ h, h <| read_index := min_pos |> |>).

(** [register_heartbeat] takes the first free entry; the factory function then
    sets the position of a [Sequential_sync] consumer. *)
Definition find_free (h : Header) : option nat :=
  fst <$> list_find (λ p, p = 0) (take MAX_CONSUMER_HEARTBEATS (consumer_pid h)).

Definition register_heartbeat (pid : Z) (b : DataBlock) : Consumer * DataBlock :=
  match find_free (hdr b) with
  | None => (mkConsumer None INVALID_SLOT_ID CIdle, b)
  | Some i =>
      (mkConsumer (Some i) INVALID_SLOT_ID CIdle,
       b <| hdr ::= λ h,
              let h := h <| consumer_pid ::= <[i := pid]> |>
                         <| active_consumer_count ::= λ n, u32 (n + 1) |> in
              if bool_decide (consumer_sync_policy h = Sequential_sync)
              then h <| consumer_next_read_slot ::=
                          <[i := if bool_decide (commit_index h = INVALID_SLOT_ID) then 0
                                 else commit_index h]> |>
              else h |>)
  end.

Definition unregister_heartbeat (pid : Z) (c : Consumer) (b : DataBlock) : Consumer * DataBlock :=
  match heartbeat_slot c with
  | None => (c, b)
  | Some i =>
      if bool_decide (consumer_pid (hdr b) !! i = Some pid)
      then (c <| heartbeat_slot := None |>,
            b <| hdr ::= λ h, h <| consumer_pid ::= <[i := 0]> |>
                                <| active_consumer_count ::= λ n, u32 (n - 1) |> |>)
      else (c, b)
  end.

(** ** The block with its users *)

(** [committed] is the history of commits, the bytes of each, and [released]
    the slot ids each consumer has successfully released. *)
Record World := mkWorld {
  block : DataBlock;
  producer : ProducerPc;
  consumers : gmap Z Consumer;
  committed : list (list Z);
  released : gmap Z (list Z);
}.
#[global] Instance eta_world : Eta World := λ r,
  mkWorld (block r) (producer r) (consumers r) (committed r) (released r).

Definition ids_released (w : World) (k : Z) : list Z := default [] (released w !! k).

(** Consumers are named by their process ids. *)
Inductive event :=
  | Claim (my_pid : Z)
  | FinishDrain
  | Store (bs : list Z)
  | Release (commit : bool)
  | Join (pid : Z)
  | Leave (pid : Z)
  | Choose (pid : Z) (elapsed : bool)
  | Take (pid : Z) (elapsed : bool)
  | Give (pid : Z) (checksum_ok mark_as_consumed : bool)
  | Scan (pid : Z).

Definition run_event (e : event) (w : World) : option World :=
  match e with
  | Claim my_pid =>
      match producer w with
      | PIdle =>
          if bool_decide (my_pid = 0) then None else
          let '(o, b) := acquire_write_slot my_pid (block w) in
          Some (w <| block := b |>
                  <| producer := match o with Some id => PDraining id | None => PIdle end |>)
      | _ => None
      end
  | FinishDrain =>
      match producer w with
      | PDraining id => b ← finish_drain id (block w);
                        Some (w <| block := b |> <| producer := PWriting id |>)
      | _ => None
      end
  | Store bs =>
      match producer w with
      | PWriting id => Some (w <| block ::= store_bytes id bs |>)
      | _ => None
      end
  | Release commit =>
      match producer w with
      | PWriting id =>
          Some (w <| block ::= release_write_handle id commit |> <| producer := PIdle |>
                  <| committed ::= λ l,
                       if commit then l ++ [default [] (bytes <$> slot_at (block w) id)] else l |>)
      | _ => None
      end
  | Join pid =>
      if bool_decide (pid = 0 ∨ is_Some (consumers w !! pid)) then None else
      let '(c, b) := register_heartbeat pid (block w) in
      Some (w <| block := b |> <| consumers ::= <[pid := c]> |>)
  | Leave pid =>
      c ← consumers w !! pid;
      match cpc c with
      | CIdle => let '(c', b) := unregister_heartbeat pid c (block w) in
                 Some (w <| block := b |> <| consumers ::= <[pid := c']> |>)
      | _ => None
      end
  | Choose pid elapsed =>
      c ← consumers w !! pid;
      match cpc c with
      | CIdle =>
          let '(o, b) := acquire_consume_slot_choose c elapsed (block w) in
          Some (w <| block := b |>
                  <| consumers ::= <[pid := c <| cpc := from_option CChosen CIdle o |>]> |>)
      | _ => None
      end
  | Take pid elapsed =>
      c ← consumers w !! pid;
      match cpc c with
      | CChosen id =>
          let '(o, b) := acquire_consume_slot_read id elapsed (block w) in
          Some (w <| block := b |>
                  <| consumers ::= <[pid := c <| cpc := from_option (CHolding id) CIdle o |>]> |>)
      | _ => None
      end
  | Give pid checksum_ok mark =>
      c ← consumers w !! pid;
      match cpc c with
      | CHolding id g =>
          let '(c', b) := release_consume_handle c id g checksum_ok mark (block w) in
          let valid := match slot_at (block w) id with
            | Some s => bool_decide (write_generation (srw s) = g) | None => false end in
          Some (w <| block := b |> <| consumers ::= <[pid := c']> |>
                  <| released ::= λ m, if valid && checksum_ok
                       then <[pid := default [] (m !! pid) ++ [id]]> m else m |>)
      | _ => None
      end
  | Scan pid =>
      c ← consumers w !! pid;
      match cpc c with
      | CScan i m => let '(c', b) := scan_step c i m (block w) in
                     Some (w <| block := b |> <| consumers ::= <[pid := c']> |>)
      | _ => None
      end
  end.

Definition start (policy : ConsumerSyncPolicy) (images : list (list Z)) : World :=
  mkWorld (create policy images) PIdle ∅ [] ∅.

Fixpoint run_events (l : list event) (w : World) : option World :=
  match l with [] => Some w | e :: l => run_event e w ≫= run_events l end.

(** The states a block with at least one slot can reach with the events that
    [ok] allows, before slot ids or reader counts run out. *)
Inductive reaches (ok : event → World → Prop) (policy : ConsumerSyncPolicy) : World → Prop :=
  | reaches_start images : images ≠ [] → Z.of_nat (length images) < 2 ^ 32 →
      reaches ok policy (start policy images)
  | reaches_event e w w' :
      reaches ok policy w → ok e w → Z.of_nat (length (committed w)) < 2 ^ 64 - 2 →
      Z.of_nat (size (consumers w)) + 1 < 2 ^ 32 →
      run_event e w = Some w' → reaches ok policy w'.

End Ring.
