(* ===== verification/RingInv.v ===== *)
(** * The invariant of the ring

    What holds of a data block under every consumer policy: slot ids are
    committed without gaps, the slots of the last claimed window carry the
    bytes of their commits, and a slot in a consumer's hands is not touched.
    [RingProps] adds the positions of the consumers, policy by policy. *)

From S2P Require Import Prelude.
From S2P Require Import SlotRW.
From S2P Require Import Ring.
Import SlotRW Ring.

Module RingInv.

Implicit Types (w : World) (b : DataBlock) (c : Consumer).

(** ** Slot arithmetic *)

Lemma index_window n x y :
  0 < n → x mod n = y mod n → y - n < x < y + n → x = y.
Proof.
  intros Hn Hm Hr. pose proof (Z.div_mod x n ltac:(lia)). pose proof (Z.div_mod y n ltac:(lia)).
  assert (x `div` n = y `div` n) by nia. lia.
Qed.

Lemma slot_index_eq b x y :
  0 < slot_count b → slot_index b x = slot_index b y ↔ x mod slot_count b = y mod slot_count b.
Proof.
  intros Hn. unfold slot_index.
  pose proof (Z.mod_pos_bound x _ Hn). pose proof (Z.mod_pos_bound y _ Hn). lia.
Qed.

Lemma slot_at_on_slot f x y b :
  slot_at (on_slot f x b) y =
  if bool_decide (slot_index b x = slot_index b y) then f <$> slot_at b y else slot_at b y.
Proof.
  unfold slot_at. assert (Hl : slot_count (on_slot f x b) = slot_count b)
    by (unfold slot_count, on_slot; cbn; by rewrite length_alter).
  unfold slot_index at 1. rewrite Hl. fold (slot_index b y). cbn.
  case_bool_decide as He; [by rewrite He, list_lookup_alter_eq|by rewrite list_lookup_alter_ne].
Qed.

Lemma slot_count_on_slot f x b : slot_count (on_slot f x b) = slot_count b.
Proof. unfold slot_count, on_slot. cbn. by rewrite length_alter. Qed.

Lemma slot_at_Some b x : 0 < slot_count b → is_Some (slot_at b x).
Proof.
  intros Hn. apply lookup_lt_is_Some. unfold slot_index.
  pose proof (Z.mod_pos_bound x _ Hn). unfold slot_count in *. lia.
Qed.

(** ** Holders *)

Definition holds_slot (b : DataBlock) (i : nat) (c : Consumer) : bool :=
  match cpc c with
  | CHolding id _ => bool_decide (slot_index b id = i)
  | _ => false
  end.

Definition holders (b : DataBlock) (m : gmap Z Consumer) (i : nat) : nat :=
  size (filter (λ kc, holds_slot b i kc.2 = true) m).

Lemma holders_insert b k c c' m i :
  m !! k = Some c →
  (holders b (<[k := c']> m) i + (if holds_slot b i c then 1 else 0) =
   holders b m i + (if holds_slot b i c' then 1 else 0))%nat.
Proof.
  intros Hk. unfold holders. rewrite <- (insert_delete_id m k c) at 2 by done.
  rewrite <- insert_delete_eq. assert (Hd : delete k m !! k = None) by apply lookup_delete_eq.
  assert (Hf : filter (λ kc : Z * Consumer, holds_slot b i kc.2 = true) (delete k m) !! k = None).
  { apply map_lookup_filter_None. by left. }
  rewrite !map_filter_insert. cbn.
  destruct (holds_slot b i c), (holds_slot b i c');
    repeat case_decide; try done; rewrite ?(delete_id (delete k m)) by done;
    rewrite ?map_size_insert_None by done; lia.
Qed.

Lemma holders_pos b k c m i :
  m !! k = Some c → holds_slot b i c = true → (0 < holders b m i)%nat.
Proof.
  intros Hk Hh. unfold holders. destruct (size (filter _ m)) eqn:Hs; [|lia].
  apply map_size_empty_inv in Hs. apply (f_equal (λ x, x !! k)) in Hs.
  rewrite lookup_empty in Hs. apply map_lookup_filter_None in Hs as [Hs|Hs]; [congruence|].
  by destruct (Hs _ Hk).
Qed.

(** ** The invariant *)

Definition C w : Z := Z.of_nat (length (committed w)).

(** The slot of [id] is in a reader's hands: it carries the bytes of commit [id]
    or of a later commit that went to the same slot, under generation [g]. *)
Definition carries w (id : Z) (s : Slot) : Prop :=
  ∃ id', id <= id' < C w ∧ id' mod slot_count (block w) = id mod slot_count (block w) ∧
         committed w !! Z.to_nat id' = Some (bytes s).

Definition pinned w (id g : Z) : Prop :=
  0 <= id < C w ∧
  ∃ s, slot_at (block w) id = Some s ∧ slot_state (srw s) ∈ [COMMITTED; DRAINING] ∧
       write_generation (srw s) = g ∧ carries w id s.

(** [top] is one more than the highest slot id claimed so far: an aborted
    claim gives its id back but has already emptied the slot. *)
Record RingInv (top : Z) w : Prop := mkRingInv {
  ri_count : 0 < slot_count (block w) < 2 ^ 32;
  ri_bound : C w < 2 ^ 64 - 1;
  ri_size : Z.of_nat (size (consumers w)) < 2 ^ 32;
  ri_commit : commit_index (hdr (block w)) = if bool_decide (C w = 0) then INVALID_SLOT_ID else C w - 1;
  ri_top : C w <= top <= C w + 1;
  ri_producer :
    match producer w with
    | PIdle => write_index (hdr (block w)) = C w ∧
        ∀ s, slot_at (block w) (C w) = Some s → top = C w + 1 → slot_state (srw s) = FREE
    | PDraining id | PWriting id => id = C w ∧ write_index (hdr (block w)) = C w + 1 ∧ top = C w + 1
    end;
  ri_lock : ∀ id s, slot_at (block w) id = Some s → write_lock (srw s) ≠ 0 →
    match producer w with
    | PIdle => False
    | PDraining _ | PWriting _ => slot_index (block w) id = slot_index (block w) (C w)
    end;
  ri_busy : ∀ s, slot_at (block w) (C w) = Some s →
    match producer w with
    | PIdle => True
    | PDraining _ => slot_state (srw s) ≠ COMMITTED
    | PWriting _ => slot_state (srw s) = WRITING
    end;
  ri_window : ∀ id, 0 <= id < C w → top <= id + slot_count (block w) →
    ∃ s, slot_at (block w) id = Some s ∧ slot_state (srw s) = COMMITTED ∧
         committed w !! Z.to_nat id = Some (bytes s);
  ri_readers : ∀ id s, slot_at (block w) id = Some s →
    reader_count (srw s) = Z.of_nat (holders (block w) (consumers w) (slot_index (block w) id));
  ri_chosen : ∀ k c id, consumers w !! k = Some c → cpc c = CChosen id →
    0 <= id ∧ (id < C w ∨ id = 0);
  ri_pin : ∀ k c id g, consumers w !! k = Some c → cpc c = CHolding id g → pinned w id g;
  ri_fresh : C w = 0 → ∀ id s, slot_at (block w) id = Some s → slot_state (srw s) ≠ COMMITTED;
}.

(** ** Steps that leave the slots alone *)

Lemma slots_same b b' : slots b' = slots b →
  slot_count b' = slot_count b ∧ (∀ id, slot_index b' id = slot_index b id) ∧
  (∀ id, slot_at b' id = slot_at b id) ∧ (∀ m i, holders b' m i = holders b m i).
Proof.
  intros Hs. unfold slot_at, holders, holds_slot, slot_index, slot_count. rewrite Hs. done.
Qed.

Lemma ri_frame top w w' :
  RingInv top w → slots (block w') = slots (block w) →
  write_index (hdr (block w')) = write_index (hdr (block w)) →
  commit_index (hdr (block w')) = commit_index (hdr (block w)) →
  producer w' = producer w → committed w' = committed w →
  Z.of_nat (size (consumers w')) < 2 ^ 32 →
  (∀ i, holders (block w) (consumers w') i = holders (block w) (consumers w) i) →
  (∀ k c id g, consumers w' !! k = Some c → cpc c = CHolding id g →
     ∃ k0 c0, consumers w !! k0 = Some c0 ∧ cpc c0 = CHolding id g) →
  (∀ k c id, consumers w' !! k = Some c → cpc c = CChosen id → 0 <= id ∧ (id < C w ∨ id = 0)) →
  RingInv top w'.
Proof.
  intros HI Hs Hw Hc Hp Hcom Hsz Hh Hcons Hch. destruct (slots_same _ _ Hs) as (Hn & Hi & Ha & Hho).
  assert (HC : C w' = C w) by (unfold C; by rewrite Hcom).
  constructor; rewrite ?HC, ?Hn, ?Hp, ?Hw, ?Hc; try apply HI; try done.
  - destruct (producer w) eqn:E; pose proof (ri_producer _ _ HI) as HP; rewrite E in HP; try done.
    setoid_rewrite Ha. done.
  - intros id s Hid Hl. rewrite Ha in Hid. rewrite !Hi. exact (ri_lock _ _ HI id s Hid Hl).
  - intros s Hid. rewrite Ha in Hid. exact (ri_busy _ _ HI s Hid).
  - intros id Hid Ht. rewrite Hcom. setoid_rewrite Ha. exact (ri_window _ _ HI id Hid Ht).
  - intros id s Hid. rewrite Ha in Hid. rewrite Hho, Hi, Hh. exact (ri_readers _ _ HI id s Hid).
  - intros k c id g Hk Hpc. destruct (Hcons k c id g Hk Hpc) as (k0 & c0 & Hk0 & Hpc0).
    destruct (ri_pin _ _ HI k0 c0 id g Hk0 Hpc0) as (Hr & s & Hid & Hst & Hg & id' & Hr' & Hm & Hb).
    split; [by rewrite HC|]. exists s. rewrite Ha. split_and!; try done.
    exists id'. by rewrite HC, Hn, Hcom.
  - intros H0 id s Hid. rewrite Ha in Hid. exact (ri_fresh _ _ HI H0 id s Hid).
Qed.

(** A consumer that holds nothing before and after. *)
Lemma ri_consumer top w b' k c' :
  RingInv top w → slots b' = slots (block w) →
  write_index (hdr b') = write_index (hdr (block w)) →
  commit_index (hdr b') = commit_index (hdr (block w)) →
  (∀ c, consumers w !! k = Some c → ∀ id g, cpc c ≠ CHolding id g) →
  (∀ id g, cpc c' ≠ CHolding id g) →
  (∀ id, cpc c' = CChosen id → 0 <= id ∧ (id < C w ∨ id = 0)) →
  Z.of_nat (size (consumers w)) + 1 < 2 ^ 32 →
  RingInv top (w <| block := b' |> <| consumers ::= <[k := c']> |>).
Proof.
  intros HI Hs Hw Hc Hold Hnew Hch Hsz. eapply ri_frame; try done; cbn.
  - rewrite map_size_insert. destruct (consumers w !! k); unfold id; lia.
  - intros i. destruct (consumers w !! k) as [c|] eqn:Hk.
    + pose proof (holders_insert (block w) k c c' _ i Hk) as Hins.
      assert (holds_slot (block w) i c = false) as Hf
        by (unfold holds_slot; specialize (Hold c eq_refl); destruct (cpc c); naive_solver).
      assert (holds_slot (block w) i c' = false) as Hf'
        by (unfold holds_slot; destruct (cpc c'); naive_solver).
      rewrite Hf, Hf' in Hins. lia.
    + unfold holders. rewrite map_filter_insert_False; [by rewrite delete_id|].
      cbn. unfold holds_slot. destruct (cpc c'); naive_solver.
  - intros k0 c0 id g Hk0 Hpc. apply lookup_insert_Some in Hk0 as [[<- <-]|[_ Hk0]]; [|eauto].
    by destruct (Hnew id g).
  - intros k0 c0 id Hk0 Hpc. apply lookup_insert_Some in Hk0 as [[<- <-]|[_ Hk0]]; [auto|].
    by apply (ri_chosen _ _ HI k0 c0).
Qed.

(** ** Producer steps *)

Lemma W_bound top w : RingInv top w → producer w = PIdle →
  write_index (hdr (block w)) = C w ∧ u64_succ (C w) = C w + 1.
Proof.
  intros HI Hp. pose proof (ri_producer _ _ HI) as HP. rewrite Hp in HP. split; [apply HP|].
  unfold u64_succ. apply Z.mod_small. pose proof (ri_bound _ _ HI). unfold C, u64_modulus in *. lia.
Qed.

(** A claim that finds the ring full changes only a counter; any other claim
    gets the slot id [C w]. *)
Lemma claim_cases top w pid :
  RingInv top w → producer w = PIdle → pid ≠ 0 →
  acquire_write_slot pid (block w) =
  if blocks_writer (consumer_sync_policy (hdr (block w))) &&
     negb (u64 (C w - read_index (hdr (block w))) <? slot_count (block w))
  then (None, (block w) <| hdr ::= λ h, h <| writer_timeout_count ::= u64_succ |> |>)
  else
    (Some (C w),
     on_srw (λ r, r <| write_lock := pid |> <| writer_waiting := 1 |>
                    <| slot_state := if bool_decide (slot_state r = COMMITTED)
                                     then DRAINING else slot_state r |>) (C w)
       ((block w) <| hdr ::= λ h, h <| write_index := C w + 1 |> |>)).
Proof.
  intros HI Hp Hpid. destruct (W_bound _ _ HI Hp) as [HW Hu].
  unfold acquire_write_slot. rewrite HW. destruct (_ && _); [done|].
  assert (Hsame : ((block w) <| hdr ::= λ h, h <| write_index ::= u64_succ |> |>) =
                  ((block w) <| hdr ::= λ h, h <| write_index := C w + 1 |> |>)).
  { destruct (block w) as [h ss]. cbn in HW |- *. by rewrite HW, Hu. }
  rewrite Hsame. set (b1 := (block w) <| hdr ::= _ |>). assert (Ha : slot_at b1 (C w) = slot_at (block w) (C w)) by done.
  destruct (slot_at_Some (block w) (C w) (proj1 (ri_count _ _ HI))) as [s Hs]. rewrite Ha, Hs.
  rewrite bool_decide_eq_false_2; [done|]. intros Hl.
  pose proof (ri_lock _ _ HI _ _ Hs Hl) as Hf. by rewrite Hp in Hf.
Qed.

(** The slot of the claimed id is not in the window of committed slots. *)
Lemma window_index top w id :
  RingInv top w → C w + 1 <= id + slot_count (block w) → 0 <= id < C w →
  slot_index (block w) (C w) ≠ slot_index (block w) id.
Proof.
  intros HI Hid Hr He. pose proof (ri_count _ _ HI) as Hn.
  apply slot_index_eq in He; [|lia]. pose proof (index_window _ _ _ (proj1 Hn) He). lia.
Qed.

Lemma holders_on_slot f x b m i : holders (on_slot f x b) m i = holders b m i.
Proof.
  unfold holders. f_equal. apply map_filter_ext. intros k c _. cbn. unfold holds_slot.
  destruct (cpc c); try done. unfold slot_index. by rewrite slot_count_on_slot.
Qed.

Lemma slot_index_on_slot f x b id : slot_index (on_slot f x b) id = slot_index b id.
Proof. unfold slot_index. by rewrite slot_count_on_slot. Qed.

(** A change of the producer's slot that keeps reader count, generation and
    bytes, seen from the other slots and from the consumers. *)
Lemma ri_producer_slot top top' w h' f p' :
  let b' := on_slot f (C w) (mkDataBlock h' (slots (block w))) in
  let w' := w <| block := b' |> <| producer := p' |> in
  RingInv top w →
  commit_index h' = commit_index (hdr (block w)) →
  C w <= top' <= C w + 1 → top <= top' →
  (∀ s, reader_count (srw (f s)) = reader_count (srw s)) →
  (∀ s, slot_state (srw (f s)) = COMMITTED → slot_state (srw s) = COMMITTED) →
  match p' with
  | PIdle => write_index h' = C w ∧ top' = C w + 1 ∧
      ∀ s, slot_at (block w) (C w) = Some s →
           write_lock (srw (f s)) = 0 ∧ slot_state (srw (f s)) = FREE
  | PDraining id | PWriting id => id = C w ∧ write_index h' = C w + 1 ∧ top' = C w + 1
  end →
  (∀ s, slot_at (block w) (C w) = Some s →
    match p' with
    | PIdle => True
    | PDraining _ => slot_state (srw (f s)) ≠ COMMITTED
    | PWriting _ => slot_state (srw (f s)) = WRITING
    end) →
  (∀ k c id g s, consumers w !! k = Some c → cpc c = CHolding id g →
     slot_index (block w) id = slot_index (block w) (C w) →
     slot_at (block w) (C w) = Some s →
     bytes (f s) = bytes s ∧ write_generation (srw (f s)) = write_generation (srw s) ∧
     (slot_state (srw s) ∈ [COMMITTED; DRAINING] → slot_state (srw (f s)) ∈ [COMMITTED; DRAINING])) →
  RingInv top' w'.
Proof.
  intros b' w' HI Hci Htop Hle Hrc Hcm Hp Hbusy Hpin.
  assert (Hn := ri_count _ _ HI).
  set (b0 := mkDataBlock h' (slots (block w))) in *.
  destruct (slots_same (block w) b0 eq_refl) as (Hn0 & Hi0 & Ha0 & Hh0).
  assert (HN : slot_count b' = slot_count (block w)) by (unfold b'; by rewrite slot_count_on_slot).
  assert (HI0 : ∀ id, slot_index b' id = slot_index (block w) id)
    by (intros; unfold b'; by rewrite slot_index_on_slot, Hi0).
  assert (HA : ∀ id, slot_at b' id =
            if bool_decide (slot_index (block w) (C w) = slot_index (block w) id)
            then f <$> slot_at (block w) id else slot_at (block w) id).
  { intros id. unfold b'. by rewrite slot_at_on_slot, !Hi0, Ha0. }
  assert (Hsame : ∀ id, slot_index (block w) (C w) = slot_index (block w) id →
            slot_at (block w) id = slot_at (block w) (C w)).
  { intros id He. unfold slot_at. by rewrite He. }
  constructor; try apply HI; change (C w') with (C w); change (block w') with b';
    change (consumers w') with (consumers w); change (committed w') with (committed w);
    change (producer w') with p'; rewrite ?HN; try done.
  - unfold b', b0. cbn. rewrite Hci. apply HI.
  - destruct p'; [|done..]. destruct Hp as (HW & Ht & Hf). split; [exact HW|].
    intros s Hs _. rewrite HA, bool_decide_eq_true_2 in Hs by done.
    apply fmap_Some in Hs as (s0 & Hs0 & ->). by apply Hf.
  - intros id s Hs Hl. rewrite HA in Hs. rewrite !HI0.
    case_bool_decide as He.
    + destruct p'; [|done..]. rewrite (Hsame id He) in Hs.
      apply fmap_Some in Hs as (s0 & Hs0 & ->). destruct Hp as (_ & _ & Hf). by destruct (Hf s0 Hs0).
    + pose proof (ri_lock _ _ HI _ _ Hs Hl) as Hlk. destruct (producer w); [done|congruence|congruence].
  - intros s Hs. rewrite HA, bool_decide_eq_true_2 in Hs by done.
    apply fmap_Some in Hs as (s0 & Hs0 & ->). by apply Hbusy.
  - intros id Hid Ht. assert (Ht' : top <= id + slot_count (block w)) by lia.
    destruct (ri_window _ _ HI id Hid Ht') as (s & Hs & Hst & Hb).
    exists s. rewrite HA, bool_decide_eq_false_2; [done|].
    apply (window_index top); [done| |done]. destruct p'; lia.
  - intros id s Hs. rewrite HI0. unfold b'. rewrite holders_on_slot, Hh0. rewrite HA in Hs.
    case_bool_decide; [apply fmap_Some in Hs as (s0 & Hs0 & ->); rewrite Hrc|];
      by apply (ri_readers _ _ HI).
  - intros k c id g Hk Hpc.
    destruct (ri_pin _ _ HI k c id g Hk Hpc) as (Hr & s & Hs & Hst & Hg & id' & Hr' & Hm & Hb).
    split; [done|]. unfold carries. change (block w') with b'. change (C w') with (C w).
    rewrite HN, HA. change (committed w') with (committed w).
    case_bool_decide as He; [|exists s; eauto 8].
    rewrite (Hsame id He) in *. exists (f s). rewrite Hs.
    destruct (Hpin k c id g s Hk Hpc (eq_sym He) Hs) as (-> & -> & Hst'). split_and!; eauto.
  - intros H0 id s Hs Hst. rewrite HA in Hs.
    case_bool_decide; [apply fmap_Some in Hs as (s0 & Hs0 & ->); apply Hcm in Hst|];
      by eapply (ri_fresh _ _ HI H0).
Qed.

Lemma ri_claim top w pid b' :
  RingInv top w → producer w = PIdle → pid ≠ 0 →
  acquire_write_slot pid (block w) = (Some (C w), b') →
  RingInv (C w + 1) (w <| block := b' |> <| producer := PDraining (C w) |>).
Proof.
  intros HI Hp Hpid. rewrite (claim_cases top) by done. case_match; [done|]. intros Heq.
  assert (Hb : b' = on_slot (λ s, s <| srw ::= λ r, r <| write_lock := pid |> <| writer_waiting := 1 |>
               <| slot_state := if bool_decide (slot_state r = COMMITTED)
                                then DRAINING else slot_state r |> |>) (C w)
               (mkDataBlock ((hdr (block w)) <| write_index := C w + 1 |>) (slots (block w)))) by (by injection Heq as <-).
  rewrite Hb. apply (ri_producer_slot top (C w + 1) w
           ((hdr (block w)) <| write_index := C w + 1 |>)
           (λ s, s <| srw ::= λ r, r <| write_lock := pid |> <| writer_waiting := 1 |>
               <| slot_state := if bool_decide (slot_state r = COMMITTED)
                                then DRAINING else slot_state r |> |>) (PDraining (C w)));
    try done; try (pose proof (ri_top _ _ HI); lia).
  - cbn. intros s. case_bool_decide; congruence.
  - cbn. intros s _. case_bool_decide; congruence.
  - cbn. intros k c id g s _ _ _ _. split; [done|]. split; [done|].
    case_bool_decide; set_solver.
Qed.

Lemma producer_at top w id :
  RingInv top w → producer w = PDraining id ∨ producer w = PWriting id →
  id = C w ∧ write_index (hdr (block w)) = C w + 1 ∧ top = C w + 1.
Proof.
  intros HI Hp. pose proof (ri_producer _ _ HI) as H. by destruct Hp as [Hp|Hp]; rewrite Hp in H.
Qed.

(** No consumer holds the slot once the producer may write it. *)
Lemma writing_not_held top w id k c i g :
  RingInv top w → producer w = PWriting id → consumers w !! k = Some c → cpc c = CHolding i g →
  slot_index (block w) i ≠ slot_index (block w) (C w).
Proof.
  intros HI Hp Hk Hpc He. destruct (ri_pin _ _ HI k c i g Hk Hpc) as (_ & s & Hs & Hst & _).
  assert (Hs' : slot_at (block w) (C w) = Some s) by (unfold slot_at in *; by rewrite <- He).
  pose proof (ri_busy _ _ HI s Hs') as Hb. rewrite Hp in Hb. rewrite Hb in Hst. set_solver.
Qed.

Lemma ri_finish_drain top w id b' :
  RingInv top w → producer w = PDraining id → finish_drain id (block w) = Some b' →
  RingInv top (w <| block := b' |> <| producer := PWriting id |>).
Proof.
  intros HI Hp Hf. destruct (producer_at top w id HI (or_introl Hp)) as (-> & HW & Ht).
  unfold finish_drain in Hf. apply bind_Some in Hf as (s & Hs & Hf).
  case_bool_decide as Hrc; [|done].
  assert (Hb : b' = on_slot (λ s, s <| srw ::= λ r, r <| writer_waiting := 0 |> <| slot_state := WRITING |> |>)
                 (C w) (mkDataBlock (hdr (block w)) (slots (block w)))).
  { destruct (block w). by injection Hf as <-. }
  rewrite Hb. apply (ri_producer_slot top top w (hdr (block w)) (λ s, s <| srw ::= λ r, r <| writer_waiting := 0 |> <| slot_state := WRITING |> |>)
           (PWriting (C w))); try done; try (pose proof (ri_top _ _ HI); lia).
  intros k c i g s0 Hk Hpc He _. exfalso.
  assert (0 < holders (block w) (consumers w) (slot_index (block w) (C w)))%nat.
  { eapply holders_pos; [done|]. unfold holds_slot. rewrite Hpc. by apply bool_decide_eq_true. }
  pose proof (ri_readers _ _ HI _ _ Hs). lia.
Qed.

Lemma ri_store top w id bs :
  RingInv top w → producer w = PWriting id →
  RingInv top (w <| block ::= store_bytes id bs |>).
Proof.
  intros HI Hp. destruct (producer_at top w id HI (or_intror Hp)) as (-> & HW & Ht).
  assert (Hw : w <| block ::= store_bytes (C w) bs |> =
               w <| block := on_slot (λ s, s <| bytes := bs |>) (C w)
                               (mkDataBlock (hdr (block w)) (slots (block w))) |>
                 <| producer := PWriting (C w) |>).
  { clear -Hp. revert Hp. generalize (C w). intros id Hp.
    destruct w as [[h ss] p ? ? ?]. cbn in Hp |- *. by subst. }
  rewrite Hw. apply (ri_producer_slot top top w (hdr (block w)) (λ s, s <| bytes := bs |>) (PWriting (C w)));
    try done; try (pose proof (ri_top _ _ HI); lia).
  - intros s Hs. pose proof (ri_busy _ _ HI s Hs) as Hb. by rewrite Hp in Hb.
  - intros k c i g s0 Hk Hpc He _. by destruct (writing_not_held top w (C w) k c i g HI Hp Hk Hpc).
Qed.

Lemma ri_abort top w id :
  RingInv top w → producer w = PWriting id →
  RingInv top (w <| block ::= release_write_handle id false |> <| producer := PIdle |>).
Proof.
  intros HI Hp. destruct (producer_at top w id HI (or_intror Hp)) as (-> & HW & Ht).
  assert (Hu : u64 (write_index (hdr (block w)) - 1) = C w).
  { rewrite HW. replace (C w + 1 - 1) with (C w) by lia. apply Z.mod_small.
    pose proof (ri_bound _ _ HI). unfold C, u64_modulus in *. lia. }
  assert (Hw : w <| block ::= release_write_handle (C w) false |> <| producer := PIdle |> =
               w <| block := on_slot (λ s, s <| srw ::= λ r, r <| slot_state := FREE |> <| write_lock := 0 |> |>) (C w)
                  (mkDataBlock ((hdr (block w)) <| write_index := C w |>) (slots (block w))) |>
                 <| producer := PIdle |>).
  { destruct w as [[h ss] p ? ? ?]. cbn in Hu |- *. unfold on_srw. by rewrite Hu. }
  rewrite Hw. apply (ri_producer_slot top top w _ (λ s, s <| srw ::= λ r, r <| slot_state := FREE |> <| write_lock := 0 |> |>) PIdle);
    try done; try (pose proof (ri_top _ _ HI); lia).
  intros k c i g s0 Hk Hpc He _. by destruct (writing_not_held top w (C w) k c i g HI Hp Hk Hpc).
Qed.

Lemma ri_commit_step top w id s :
  RingInv top w → producer w = PWriting id → slot_at (block w) id = Some s →
  C w < 2 ^ 64 - 2 →
  RingInv top (w <| block ::= release_write_handle id true |> <| producer := PIdle |>
                 <| committed ::= λ l, l ++ [bytes s] |>).
Proof.
  intros HI Hp Hs Hbound. destruct (producer_at top w id HI (or_intror Hp)) as (-> & HW & Ht).
  set (w' := w <| block ::= _ |> <| producer := PIdle |> <| committed ::= _ |>).
  set (f := λ s : Slot, s <| srw ::= λ r, r <| write_generation ::= u64_succ |>
                 <| slot_state := COMMITTED |> <| write_lock := 0 |> |>).
  set (b0 := (block w) <| hdr ::= λ h, h <| Ring.commit_index := C w |>
                                       <| Ring.total_slots_written ::= u64_succ |> |>).
  assert (Hb' : block w' = on_slot f (C w) b0) by done.
  assert (Hn := ri_count _ _ HI). assert (HC : C w' = C w + 1) by (unfold C; cbn; rewrite length_app; cbn; lia).
  destruct (slots_same (block w) b0 eq_refl) as (Hn0 & Hi0 & Ha0 & Hh0).
  assert (HN : slot_count (block w') = slot_count (block w)) by (rewrite Hb'; by rewrite slot_count_on_slot).
  assert (HI0 : ∀ id, slot_index (block w') id = slot_index (block w) id)
    by (intros; rewrite Hb'; by rewrite slot_index_on_slot, Hi0).
  assert (HA : ∀ id, slot_at (block w') id =
            if bool_decide (slot_index (block w) (C w) = slot_index (block w) id)
            then f <$> slot_at (block w) id else slot_at (block w) id).
  { intros id. rewrite Hb'. by rewrite slot_at_on_slot, !Hi0, Ha0. }
  assert (Hlast : (committed w ++ [bytes s]) !! Z.to_nat (C w) = Some (bytes s)).
  { unfold C. rewrite Nat2Z.id. by apply list_lookup_middle. }
  assert (Hmono : ∀ id x, committed w !! Z.to_nat id = Some x →
            (committed w ++ [bytes s]) !! Z.to_nat id = Some x) by (intros; by apply lookup_app_l_Some).
  constructor; rewrite ?HC, ?HN; change (consumers w') with (consumers w);
    change (producer w') with PIdle; change (committed w') with (committed w ++ [bytes s]).
  - done.
  - lia.
  - apply (ri_size _ _ HI).
  - rewrite bool_decide_eq_false_2 by (unfold C; lia). cbn. lia.
  - lia.
  - split; [exact HW|]. intros; lia.
  - intros id x Hx Hl. rewrite HA in Hx. case_bool_decide as He.
    + apply fmap_Some in Hx as (x0 & _ & ->). by cbn in Hl.
    + pose proof (ri_lock _ _ HI _ _ Hx Hl) as Hlk. rewrite Hp in Hlk. congruence.
  - done.
  - intros id Hid Htop. rewrite HA. destruct (decide (id = C w)) as [->|Hne].
    + rewrite bool_decide_eq_true_2, Hs by done. exists (f s). done.
    + assert (Hid' : 0 <= id < C w) by lia.
      destruct (ri_window _ _ HI id Hid' ltac:(lia)) as (x & Hx & Hst & Hb).
      exists x. rewrite bool_decide_eq_false_2; [by eauto|].
      apply (window_index top); [done|lia|done].
  - intros id x Hx. rewrite HI0, Hb', holders_on_slot, Hh0. rewrite HA in Hx.
    case_bool_decide; [|by apply (ri_readers _ _ HI)].
    apply fmap_Some in Hx as (x0 & Hx0 & ->). exact (ri_readers _ _ HI id x0 Hx0).
  - intros k c id Hk Hpc. destruct (ri_chosen _ _ HI k c id Hk Hpc). lia.
  - intros k c id g Hk Hpc.
    pose proof (writing_not_held top w (C w) k c id g HI Hp Hk Hpc) as Hne.
    destruct (ri_pin _ _ HI k c id g Hk Hpc) as (Hr & x & Hx & Hst & Hg & id' & Hr' & Hm & Hb).
    split; [lia|]. exists x. rewrite HA, bool_decide_eq_false_2 by congruence.
    split_and!; try done. exists id'. rewrite HC, HN. split_and!; [lia|lia|done|by apply Hmono].
  - unfold C. lia.
Qed.

(** ** Consumer steps *)

(** A consumer's step that changes only reader counts. *)
Lemma ri_reader_counts top w k c' b' R' :
  RingInv top w → Z.of_nat (size (consumers w)) + 1 < 2 ^ 32 →
  write_index (hdr b') = write_index (hdr (block w)) →
  commit_index (hdr b') = commit_index (hdr (block w)) →
  slot_count b' = slot_count (block w) →
  (∀ y, slot_at b' y = (λ s, s <| srw ::= λ r,
          r <| reader_count := Z.of_nat (holders (block w) (<[k := c']> (consumers w))
                                          (slot_index (block w) y)) |> |>) <$> slot_at (block w) y) →
  (∀ id, cpc c' ≠ CChosen id) →
  (∀ id g, cpc c' = CHolding id g → pinned w id g) →
  RingInv top (w <| block := b' |> <| consumers ::= <[k := c']> |> <| released := R' |>).
Proof.
  intros HI Hsz HW Hci HN HA Hnc Hpin.
  assert (Hidx : ∀ y, slot_index b' y = slot_index (block w) y) by (intros; unfold slot_index; by rewrite HN).
  assert (Hh : ∀ m i, holders b' m i = holders (block w) m i).
  { intros m i. unfold holders, holds_slot. f_equal. apply map_filter_ext. intros ? c _. cbn.
    destruct (cpc c); try done. by rewrite Hidx. }
  assert (Hback : ∀ y s', slot_at b' y = Some s' → ∃ s, slot_at (block w) y = Some s ∧
            bytes s' = bytes s ∧ slot_state (srw s') = slot_state (srw s) ∧
            write_lock (srw s') = write_lock (srw s)).
  { intros y s' Hs. rewrite HA in Hs. apply fmap_Some in Hs as (s & Hs & ->). by exists s. }
  constructor; cbn; rewrite ?HN, ?HW, ?Hci; try apply HI.
  - rewrite map_size_insert. destruct (consumers w !! k); unfold id; lia.
  - pose proof (ri_producer _ _ HI) as HP. change (C _) with (C w). destruct (producer w); [|done..].
    split; [apply HP|]. intros s' Hs Ht. destruct (Hback _ _ Hs) as (s & Hs0 & _ & -> & _).
    by apply (proj2 HP).
  - intros id s' Hs Hl. change (C _) with (C w). rewrite !Hidx.
    destruct (Hback _ _ Hs) as (s & Hs0 & _ & _ & Hl0). rewrite Hl0 in Hl. by apply (ri_lock _ _ HI id s).
  - intros s' Hs. destruct (Hback _ _ Hs) as (s & Hs0 & _ & -> & _). by apply (ri_busy _ _ HI).
  - intros id Hid Ht. change (C _) with (C w) in *.
    destruct (ri_window _ _ HI id Hid Ht) as (s & Hs & Hst & Hb). rewrite HA, Hs. eexists. done.
  - intros id s' Hs. rewrite Hh, Hidx. rewrite HA in Hs. by apply fmap_Some in Hs as (s & Hs & ->).
  - intros q c id Hq Hpc. change (C _) with (C w).
    apply lookup_insert_Some in Hq as [[<- <-]|[_ Hq]]; [by destruct (Hnc id)|by apply (ri_chosen _ _ HI q c)].
  - intros q c id g Hq Hpc.
    assert (Hx : pinned w id g).
    { apply lookup_insert_Some in Hq as [[<- <-]|[_ Hq]]; [by apply Hpin|by apply (ri_pin _ _ HI q c)]. }
    destruct Hx as (Hr & s & Hs & Hst & Hg & id' & Hr' & Hm & Hb). split; [done|]. cbn. rewrite HA, Hs.
    eexists. split_and!; try done. exists id'. cbn. by rewrite HN.
  - intros H0 id s' Hs. destruct (Hback _ _ Hs) as (s & Hs0 & _ & -> & _).
    by apply (ri_fresh _ _ HI H0 id).
Qed.

(** The outcomes of the two steps of [acquire_consume_slot]. *)
Lemma choose_cases c elapsed b :
  let '(o, b') := acquire_consume_slot_choose c elapsed b in
  slots b' = slots b ∧ write_index (hdr b') = write_index (hdr b) ∧
  commit_index (hdr b') = commit_index (hdr b) ∧ read_index (hdr b') = read_index (hdr b) ∧
  consumer_sync_policy (hdr b') = consumer_sync_policy (hdr b) ∧
  consumer_pid (hdr b') = consumer_pid (hdr b) ∧
  consumer_next_read_slot (hdr b') = consumer_next_read_slot (hdr b) ∧
  ∀ id, o = Some id →
    id = get_next_slot_to_read (hdr b) (last_consumed_slot_id c) (heartbeat_slot c) ∧
    id ≠ INVALID_SLOT_ID.
Proof.
  unfold acquire_consume_slot_choose, pass_over. destruct (_ && _); [done|].
  case_bool_decide as Hid; [by destruct elapsed|]. split_and!; try done. by intros id [= <-].
Qed.

Lemma read_cases id elapsed b :
  match acquire_consume_slot_read id elapsed b with
  | (None, b') => slots b' = slots b ∧ write_index (hdr b') = write_index (hdr b) ∧
                  commit_index (hdr b') = commit_index (hdr b) ∧
                  read_index (hdr b') = read_index (hdr b) ∧
                  consumer_sync_policy (hdr b') = consumer_sync_policy (hdr b) ∧
                  consumer_pid (hdr b') = consumer_pid (hdr b) ∧
                  consumer_next_read_slot (hdr b') = consumer_next_read_slot (hdr b)
  | (Some g, b') =>
      ∃ s, slot_at b id = Some s ∧ slot_state (srw s) = COMMITTED ∧
           write_generation (srw s) = g ∧
           b' = on_srw (λ _, (srw s) <| reader_count ::= λ n, u32 (n + 1) |>) id b
  end.
Proof.
  unfold acquire_consume_slot_read, pass_over. destruct (slot_at b _) as [s|] eqn:Hs; [|done].
  unfold acquire_read. case_bool_decide as Hst; [by destruct elapsed|].
  case_bool_decide as Hst'; [by destruct Hst|]. cbn in Hst |- *. exists s.
  destruct (decide (slot_state (srw s) = COMMITTED)); [done|tauto].
Qed.

(** The last commit that went to the slot of [id]. *)
Definition last_commit_at w (id : Z) : Z := C w - 1 - (C w - 1 - id) mod slot_count (block w).

Lemma last_commit_at_spec top w id :
  RingInv top w → 0 <= id < C w →
  id <= last_commit_at w id < C w ∧ C w <= last_commit_at w id + slot_count (block w) ∧
  last_commit_at w id mod slot_count (block w) = id mod slot_count (block w).
Proof.
  intros HI Hid. pose proof (ri_count _ _ HI) as [Hn _]. unfold last_commit_at.
  set (n := slot_count (block w)) in *. pose proof (Z.div_mod (C w - 1 - id) n ltac:(lia)) as Hd.
  pose proof (Z.mod_pos_bound (C w - 1 - id) n Hn).
  pose proof (Z.div_pos (C w - 1 - id) n ltac:(lia) Hn).
  split_and!; try nia. replace (C w - 1 - _) with (id + ((C w - 1 - id) / n) * n) by lia.
  apply Z.mod_add. lia.
Qed.

(** A committed slot carries the last commit that went to it. *)
Lemma committed_carries top w id s :
  RingInv top w → 0 <= id < C w → slot_at (block w) id = Some s → slot_state (srw s) = COMMITTED →
  carries w id s.
Proof.
  intros HI Hid Hs Hst. destruct (last_commit_at_spec top w id HI Hid) as (Hr & Hlast & Hm).
  pose proof (ri_count _ _ HI) as [Hn _]. set (id' := last_commit_at w id) in *.
  assert (Hs' : slot_at (block w) id' = Some s).
  { rewrite <- Hs. unfold slot_at. by rewrite (proj2 (slot_index_eq _ _ _ Hn) Hm). }
  exists id'. split; [lia|]. split; [done|]. pose proof (ri_top _ _ HI).
  destruct (decide (top <= id' + slot_count (block w))) as [Hw|Hw].
  { destruct (ri_window _ _ HI id' ltac:(lia) Hw) as (x & Hx & _ & Hb). congruence. }
  exfalso. assert (HC : slot_at (block w) (C w) = Some s).
  { rewrite <- Hs'. unfold slot_at. rewrite (proj2 (slot_index_eq _ (C w) id' Hn)); [done|].
    replace (C w) with (id' + 1 * slot_count (block w)) by lia. apply Z.mod_add. lia. }
  pose proof (ri_busy _ _ HI s HC) as Hb. pose proof (ri_producer _ _ HI) as HP.
  destruct (producer w); [|congruence..]. destruct HP as [_ HP]. specialize (HP s HC ltac:(lia)).
  congruence.
Qed.

Lemma ri_take top w k c id g elapsed b' :
  RingInv top w → Z.of_nat (size (consumers w)) + 1 < 2 ^ 32 →
  consumers w !! k = Some c → cpc c = CChosen id →
  acquire_consume_slot_read id elapsed (block w) = (Some g, b') →
  RingInv top (w <| block := b' |> <| consumers ::= <[k := c <| cpc := CHolding id g |>]> |>).
Proof.
  intros HI Hsz Hk Hpc Ht. pose proof (read_cases id elapsed (block w)) as Hc. rewrite Ht in Hc.
  destruct Hc as (s & Hs & Hst & Hg & Hb').
  assert (Hr : 0 <= id < C w).
  { destruct (ri_chosen _ _ HI k c id Hk Hpc) as [H0 [|Hz]]; [lia|].
    destruct (decide (C w = 0)) as [HC|]; [|unfold C in *; lia]. by destruct (ri_fresh _ _ HI HC id s). }
  pose proof (committed_carries top w id s HI Hr Hs Hst) as Hcar.
  set (c' := c <| cpc := CHolding id g |>).
  assert (Hcnt : ∀ i, Z.of_nat (holders (block w) (<[k := c']> (consumers w)) i) =
            Z.of_nat (holders (block w) (consumers w) i) +
            (if bool_decide (slot_index (block w) id = i) then 1 else 0)).
  { intros i. pose proof (holders_insert (block w) k c c' _ i Hk) as H.
    unfold holds_slot at 1 2 in H. rewrite Hpc in H. cbn in H. case_bool_decide; lia. }
  assert (HN := slot_count_on_slot (λ x, x <| srw := (srw s) <| reader_count ::= λ n, u32 (n + 1) |> |>) id (block w)).
  apply (ri_reader_counts top w k c' b' (released w)); try done; try (by rewrite Hb').
  - intros y. rewrite Hb'. unfold on_srw. rewrite slot_at_on_slot, Hcnt.
    destruct (slot_at (block w) y) as [sy|] eqn:Hy; [|by case_bool_decide]. cbn.
    pose proof (ri_readers _ _ HI y sy Hy) as Hrc.
    case_bool_decide as He.
    + assert (sy = s) as -> by (unfold slot_at in *; congruence).
      rewrite <- He in *. do 3 f_equal. unfold u32. rewrite Hrc. apply Z.mod_small.
      assert (holders (block w) (consumers w) (slot_index (block w) id) <= size (consumers w))%nat
        by apply size_filter_le. lia.
    + rewrite Z.add_0_r, <- Hrc. by destruct sy as [[] ?].
  - cbn. intros i g' [= <- <-]. split; [done|]. exists s. rewrite Hst. split_and!; [done|set_solver|done..].
Qed.

(** The generation a holder captured is still there: its release is valid. *)
Lemma give_valid top w k c id g :
  RingInv top w → consumers w !! k = Some c → cpc c = CHolding id g →
  match slot_at (block w) id with
  | Some s => bool_decide (write_generation (srw s) = g) | None => false end = true.
Proof.
  intros HI Hk Hpc. destruct (ri_pin _ _ HI k c id g Hk Hpc) as (_ & s & -> & _ & Hg & _).
  by apply bool_decide_eq_true.
Qed.

Lemma ri_give top w k c id g ok mark c' b' R' :
  RingInv top w → Z.of_nat (size (consumers w)) + 1 < 2 ^ 32 →
  consumers w !! k = Some c → cpc c = CHolding id g →
  release_consume_handle c id g ok mark (block w) = (c', b') →
  RingInv top (w <| block := b' |> <| consumers ::= <[k := c']> |> <| released := R' |>) ∧
  (∀ i g', cpc c' ≠ CHolding i g') ∧ (∀ i, cpc c' ≠ CChosen i).
Proof.
  intros HI Hsz Hk Hpc Hgive. unfold release_consume_handle in Hgive.
  rewrite (give_valid top w k c id g HI Hk Hpc) in Hgive. cbn [andb] in Hgive.
  set (b1 := on_srw (λ r, rw (release_read (bare r))) id (block w)) in *.
  assert (Hb : slots b' = slots b1 ∧ write_index (hdr b') = write_index (hdr (block w)) ∧
               commit_index (hdr b') = commit_index (hdr (block w)) ∧
               (∀ i g', cpc c' ≠ CHolding i g') ∧ ∀ i, cpc c' ≠ CChosen i).
  { repeat case_match; simplify_eq; cbn; done. }
  destruct Hb as (Hsl & HW & Hci & Hno & Hnc). split; [|done].
  destruct (slots_same b1 b' Hsl) as (HN & _ & HA & _).
  assert (Hcnt : ∀ i, Z.of_nat (holders (block w) (<[k := c']> (consumers w)) i) =
            Z.of_nat (holders (block w) (consumers w) i) -
            (if bool_decide (slot_index (block w) id = i) then 1 else 0)).
  { intros i. pose proof (holders_insert (block w) k c c' _ i Hk) as H.
    assert (Hn : holds_slot (block w) i c' = false)
      by (unfold holds_slot; destruct (cpc c') as [| |x y|]; [done|done|by destruct (Hno x y)|done]).
    rewrite Hn in H. unfold holds_slot in H. rewrite Hpc in H. case_bool_decide; lia. }
  apply (ri_reader_counts top w k c' b' R'); try done.
  - rewrite HN. unfold b1, on_srw. by rewrite slot_count_on_slot.
  - intros y. rewrite HA. unfold b1, on_srw. rewrite slot_at_on_slot, Hcnt.
    destruct (slot_at (block w) y) as [sy|] eqn:Hy; [|by case_bool_decide]. cbn.
    pose proof (ri_readers _ _ HI y sy Hy) as Hrc.
    case_bool_decide as He.
    + do 3 f_equal. unfold u32. rewrite Hrc. apply Z.mod_small.
      assert (holders (block w) (consumers w) (slot_index (block w) y) <= size (consumers w))%nat
        by apply size_filter_le.
      assert (0 < holders (block w) (consumers w) (slot_index (block w) y))%nat; [|lia].
      eapply holders_pos; [done|]. unfold holds_slot. rewrite Hpc. by apply bool_decide_eq_true.
    + rewrite Z.sub_0_r, <- Hrc. by destruct sy as [[] ?].
  - intros i g' Hx. by destruct (Hno i g').
Qed.

(** ** Every event *)

Lemma ri_start policy images :
  images ≠ [] → Z.of_nat (length images) < 2 ^ 32 → RingInv 0 (start policy images).
Proof.
  intros Hne Hlen. assert (Hn : slot_count (block (start policy images)) = Z.of_nat (length images))
    by (unfold slot_count; cbn; by rewrite length_fmap).
  assert (Hs : ∀ id s, slot_at (block (start policy images)) id = Some s →
            srw s = mkSlotRWState 0 0 FREE 0 0).
  { intros id s Hs. unfold slot_at in Hs. cbn in Hs.
    apply list_lookup_fmap_Some in Hs as (x & -> & _). done. }
  constructor; rewrite ?Hn; cbn; try done.
  - destruct images; [done|]. cbn in *. lia.
  - intros id s Hid. by rewrite (Hs _ _ Hid).
  - intros id Hr. unfold C in Hr. cbn in Hr. lia.
  - intros id s Hid. rewrite (Hs _ _ Hid). done.
  - intros _ id s Hid. rewrite (Hs _ _ Hid). done.
Qed.

(** The only event that needs to know the policy is choosing a slot id. *)
Definition choose_ok w (k : Z) : Prop :=
  ∀ c, consumers w !! k = Some c →
    let id := get_next_slot_to_read (hdr (block w)) (last_consumed_slot_id c) (heartbeat_slot c) in
    id ≠ INVALID_SLOT_ID → 0 <= id ∧ (id < C w ∨ id = 0).

Lemma ri_event top w e w' :
  RingInv top w → C w < 2 ^ 64 - 2 → Z.of_nat (size (consumers w)) + 1 < 2 ^ 32 →
  (∀ k elapsed, e = Choose k elapsed → choose_ok w k) →
  run_event e w = Some w' →
  ∃ top', RingInv top' w' ∧
    (top' = top ∨ ∃ pid, e = Claim pid ∧ producer w' = PDraining (C w) ∧ top' = C w + 1).
Proof.
  intros HI HC Hsz Hok Hrun. destruct e as [pid| |bs|commit|pid|pid|pid elapsed|pid elapsed|pid ok mark|pid];
    unfold run_event in Hrun.
  - destruct (producer w) eqn:Hp; try done. case_bool_decide as Hpid; [done|].
    pose proof (claim_cases top w pid HI Hp Hpid) as Hc. 
    destruct (acquire_write_slot pid (block w)) as [o b'] eqn:Hacq. apply (inj Some) in Hrun as <-.
    destruct (_ && _) in Hc; injection Hc as -> Hb'.
    + exists top. split; [|by left]. eapply ri_frame; try done; subst b'; try done;
        [apply (ri_size _ _ HI)|by eauto|apply (ri_chosen _ _ HI)].
    + exists (C w + 1). split; [|by eauto]. by apply (ri_claim top w pid).
  - destruct (producer w) eqn:Hp; try done. apply bind_Some in Hrun as (b' & Hb & Hrun).
    apply (inj Some) in Hrun as <-. exists top. split; [by apply ri_finish_drain|by left].
  - destruct (producer w) eqn:Hp; try done. apply (inj Some) in Hrun as <-.
    exists top. split; [by apply ri_store|by left].
  - destruct (producer w) eqn:Hp; try done. apply (inj Some) in Hrun as <-. exists top. split; [|by left].
    destruct commit; [|by apply ri_abort].
    destruct (producer_at top w _ HI (or_intror Hp)) as (-> & _).
    destruct (slot_at_Some (block w) (C w) (proj1 (ri_count _ _ HI))) as [s Hs]. rewrite Hs.
    by apply ri_commit_step.
  - case_bool_decide as Hg; [done|].
    assert (Hnew : ¬ is_Some (consumers w !! pid)) by tauto.
    destruct (register_heartbeat pid (block w)) as [c b'] eqn:Hr. apply (inj Some) in Hrun as <-.
    exists top. split; [|by left].
    unfold register_heartbeat in Hr. assert (cpc c = CIdle ∧ slots b' = slots (block w) ∧
      write_index (hdr b') = write_index (hdr (block w)) ∧
      commit_index (hdr b') = commit_index (hdr (block w))) as (Hcp & ? & ? & ?).
    { repeat case_match; simplify_eq; cbn; try case_bool_decide; done. }
    apply ri_consumer; try done; [|by rewrite Hcp..].
    intros c0 Hc0. destruct Hnew. by eexists.
  - apply bind_Some in Hrun as (c & Hk & Hrun). destruct (cpc c) eqn:Hpc; try done.
    destruct (unregister_heartbeat pid c (block w)) as [c' b'] eqn:Hu. apply (inj Some) in Hrun as <-.
    exists top. split; [|by left].
    unfold unregister_heartbeat in Hu. assert (cpc c' = CIdle ∧ slots b' = slots (block w) ∧
      write_index (hdr b') = write_index (hdr (block w)) ∧
      commit_index (hdr b') = commit_index (hdr (block w))) as (Hcp & ? & ? & ?).
    { repeat case_match; simplify_eq; cbn; done. }
    apply ri_consumer; try done; [|by rewrite Hcp..]. intros c0 Hc0. simplify_eq. by rewrite Hpc.
  - apply bind_Some in Hrun as (c & Hk & Hrun). destruct (cpc c) eqn:Hpc; try done.
    pose proof (choose_cases c elapsed (block w)) as Hc.
    destruct (acquire_consume_slot_choose c elapsed (block w)) as [o b'] eqn:Ht. apply (inj Some) in Hrun as <-.
    exists top. split; [|by left]. destruct Hc as (? & ? & ? & _ & _ & _ & _ & Hid).
    apply ri_consumer; try done; try (by destruct o).
    + intros c0 Hc0. simplify_eq. by rewrite Hpc.
    + destruct o as [id|]; [|done]. cbn. intros i [= <-]. destruct (Hid id eq_refl) as [-> Hne].
      by eapply Hok.
  - apply bind_Some in Hrun as (c & Hk & Hrun). destruct (cpc c) as [|id| |] eqn:Hpc; try done.
    destruct (acquire_consume_slot_read id elapsed (block w)) as [[g|] b'] eqn:Ht; apply (inj Some) in Hrun as <-.
    + exists top. split; [|by left]. by eapply ri_take.
    + exists top. split; [|by left]. pose proof (read_cases id elapsed (block w)) as Hc. rewrite Ht in Hc.
      destruct Hc as (? & ? & ? & _). apply ri_consumer; try done.
      intros c0 Hc0. simplify_eq. by rewrite Hpc.
  - apply bind_Some in Hrun as (c & Hk & Hrun). destruct (cpc c) as [| |id g|] eqn:Hpc; try done.
    destruct (release_consume_handle c id g ok mark (block w)) as [c' b'] eqn:Hg.
    apply (inj Some) in Hrun as <-. exists top. split; [|by left].
    destruct (ri_give top w pid c id g ok mark c' b' (released w) HI Hsz Hk Hpc Hg) as [HI' _].
    eapply ri_frame; try done; [apply (ri_size _ _ HI')|by eauto|apply (ri_chosen _ _ HI')].
  - apply bind_Some in Hrun as (c & Hk & Hrun). destruct (cpc c) as [| | |i m] eqn:Hpc; try done.
    destruct (scan_step c i m (block w)) as [c' b'] eqn:Hs. apply (inj Some) in Hrun as <-.
    exists top. split; [|by left]. unfold scan_step in Hs.
    assert ((∀ id g, cpc c' ≠ CHolding id g) ∧ (∀ id, cpc c' ≠ CChosen id) ∧ slots b' = slots (block w) ∧
      write_index (hdr b') = write_index (hdr (block w)) ∧
      commit_index (hdr b') = commit_index (hdr (block w))) as (Hcp & Hcc & ? & ? & ?).
    { repeat case_match; simplify_eq; cbn; done. }
    apply ri_consumer; try done; [|by intros id Hid; destruct (Hcc id)].
    intros c0 Hc0. simplify_eq. by rewrite Hpc.
Qed.

End RingInv.
