(* ===== verification/RingProps.v ===== *)
(** * Correctness of the ring

    Order and content of what consumers read, for each policy, on top of
    [RingInv], and progress of the single-consumer ring. *)

From S2P Require Import Prelude.
From S2P Require Import SlotRW.
From S2P Require Import Ring.
From S2P Require Import RingInv.
Import SlotRW Ring RingInv.

Module RingProps.

Implicit Types (w : World) (b : DataBlock) (c : Consumer).

(** ** Who may join

    The code lets any consumer in at any time.  The theorems on order and loss
    are about rings with these two restrictions: a [Sequential] ring is for one
    consumer, so at most one joins it, and every [Sequential_sync] consumer
    joins before the first commit ([RingStall.late_joiner_reads_another_commit]
    shows what happens to one that joins later). *)
Definition allowed (policy : ConsumerSyncPolicy) (e : event) w : Prop :=
  match policy, e with
  | Sequential, Join _ => consumers w = ∅
  | Sequential_sync, Join _ => committed w = []
  | _, _ => True
  end.

Abbreviation R w := (read_index (hdr (block w))).

Lemma seqZ_snoc n : 0 <= n → seqZ 0 (n + 1) = seqZ 0 n ++ [n].
Proof. intros Hn. rewrite seqZ_app by lia. done. Qed.

(** ** Latest_only *)

Lemma latest_choose_ok top w k :
  RingInv top w → consumer_sync_policy (hdr (block w)) = Latest_only → choose_ok w k.
Proof.
  intros HI Hpol c Hk. cbv zeta. unfold get_next_slot_to_read. rewrite Hpol, (ri_commit _ _ HI).
  destruct (bool_decide (C w = 0)) eqn:H0; [by rewrite bool_decide_eq_true_2|].
  apply bool_decide_eq_false in H0. destruct (_ || _); [done|]. unfold C in *. lia.
Qed.

(** ** Sequential *)

Record SeqInv top w : Prop := mkSeqInv {
  sq_ring : RingInv top w;
  sq_policy : consumer_sync_policy (hdr (block w)) = Sequential;
  sq_read : 0 <= R w <= C w;
  sq_top : top <= R w + slot_count (block w);
  sq_one : ∀ k c, consumers w !! k = Some c →
    consumers w = {[k := c]} ∧ ids_released w k = seqZ 0 (R w) ∧
    (cpc c = CIdle ∨ cpc c = CChosen (R w) ∨ ∃ g, cpc c = CHolding (R w) g);
  sq_none : consumers w = ∅ → R w = 0 ∧ released w = ∅;
}.

Lemma seq_choose_ok top w k : SeqInv top w → choose_ok w k.
Proof.
  intros HS c Hk. pose proof (sq_ring _ _ HS) as HI. cbv zeta. unfold get_next_slot_to_read.
  rewrite (sq_policy _ _ HS), (ri_commit _ _ HI).
  destruct (bool_decide (C w = 0)) eqn:H0; [by rewrite bool_decide_eq_true_2|].
  destruct (bool_decide (C w - 1 = INVALID_SLOT_ID)); [done|]. pose proof (sq_read _ _ HS).
  destruct (Z.ltb_spec (C w - 1) (R w)); [done|]. lia.
Qed.

(** What a claim in a ring that blocks its writer guarantees. *)
Lemma claim_room w pid id b' top :
  RingInv top w → producer w = PIdle → pid ≠ 0 →
  blocks_writer (consumer_sync_policy (hdr (block w))) = true → 0 <= R w <= C w →
  acquire_write_slot pid (block w) = (Some id, b') →
  C w + 1 <= R w + slot_count (block w) ∧ hdr b' = (hdr (block w)) <| write_index := C w + 1 |>.
Proof.
  intros HI Hp Hpid Hpol Hr. rewrite (claim_cases top) by done. rewrite Hpol. cbn [andb].
  unfold u64, u64_modulus. pose proof (ri_bound _ _ HI). rewrite Z.mod_small by lia.
  destruct (Z.ltb_spec (C w - R w) (slot_count (block w))); cbn [negb]; [|done].
  intros [= <- <-]. split; [lia|done].
Qed.

(** The number of slots and the policy never change. *)
Lemma event_const e w w' :
  run_event e w = Some w' →
  slot_count (block w') = slot_count (block w) ∧
  consumer_sync_policy (hdr (block w')) = consumer_sync_policy (hdr (block w)).
Proof.
  intros Hrun. destruct e; cbn in Hrun; repeat (case_match; try done);
    try (apply bind_Some in Hrun as (c & Hk & Hrun); repeat (case_match; try done));
    apply (inj Some) in Hrun as <-; cbn;
    unfold acquire_write_slot, finish_drain, register_heartbeat, unregister_heartbeat,
      acquire_consume_slot_choose, acquire_consume_slot_read, pass_over, release_consume_handle, scan_step, release_write_handle, store_bytes in *;
    repeat (case_match; simplify_eq/=; try done).
  all: try (apply bind_Some in Hk as (s & _ & Hk); case_match; simplify_eq/=).
  all: split; [|done]; unfold slot_count, on_srw, on_slot; cbn; by rewrite ?length_alter.
Qed.

(** The events that leave the positions and the consumers alone. *)
Lemma producer_event e w w' :
  run_event e w = Some w' →
  match e with Claim _ | FinishDrain | Store _ | Release _ => True | _ => False end →
  consumers w' = consumers w ∧ released w' = released w ∧ R w' = R w ∧
  consumer_pid (hdr (block w')) = consumer_pid (hdr (block w)) ∧
  consumer_next_read_slot (hdr (block w')) = consumer_next_read_slot (hdr (block w)) ∧
  C w <= C w'.
Proof.
  intros Hrun He. destruct e; try done; cbn in Hrun; repeat (case_match; try done);
    try (apply bind_Some in Hrun as (c & Hk & Hrun); repeat (case_match; try done));
    apply (inj Some) in Hrun as <-; cbn;
    unfold acquire_write_slot, finish_drain, release_write_handle, store_bytes in *;
    repeat (case_match; simplify_eq/=; try done).
  all: try (apply bind_Some in Hk as (s & _ & Hk); case_match; simplify_eq/=).
  all: split_and!; try done; unfold C; cbn; rewrite ?length_app; lia.
Qed.

Lemma claim_top w w' e top top' :
  RingInv top w → blocks_writer (consumer_sync_policy (hdr (block w))) = true → 0 <= R w <= C w →
  run_event e w = Some w' →
  (top' = top ∨ ∃ pid, e = Claim pid ∧ producer w' = PDraining (C w) ∧ top' = C w + 1) →
  top' = top ∨ top' <= R w + slot_count (block w).
Proof.
  intros HI Hpol Hr Hrun [->|(pid & -> & Hp' & ->)]; [by left|right]. cbn in Hrun.
  destruct (producer w) eqn:Hp; try done. case_bool_decide as Hpid; [done|].
  destruct (acquire_write_slot pid (block w)) as [[id|] b'] eqn:Ha;
    apply (inj Some) in Hrun as <-; [|done].
  by destruct (claim_room w pid id b' top HI Hp Hpid Hpol Hr Ha).
Qed.

(** A step of the only consumer. *)
Lemma seq_consumer_step top top' w w' k c c' :
  SeqInv top w → consumers w !! k = Some c → RingInv top' w' →
  slot_count (block w') = slot_count (block w) →
  consumer_sync_policy (hdr (block w')) = consumer_sync_policy (hdr (block w)) →
  consumers w' = <[k := c']> (consumers w) →
  top' <= R w' + slot_count (block w) → 0 <= R w' <= C w' →
  ids_released w' k = seqZ 0 (R w') →
  (cpc c' = CIdle ∨ cpc c' = CChosen (R w') ∨ ∃ g, cpc c' = CHolding (R w') g) →
  SeqInv top' w'.
Proof.
  intros HS Hk HI' HN Hpol Hc Ht Hr Hids Hpc. destruct (sq_one _ _ HS k c Hk) as (Hone & _).
  rewrite Hone, insert_singleton_eq in Hc.
  constructor; rewrite ?HN, ?Hpol; try done; [apply HS| |].
  - intros k0 c0 Hk0. rewrite Hc in Hk0. apply lookup_singleton_Some in Hk0 as [<- <-]. done.
  - intros He. rewrite Hc in He. by apply map_non_empty_singleton in He.
Qed.

Lemma seq_event top w e w' :
  SeqInv top w → allowed Sequential e w → C w < 2 ^ 64 - 2 →
  Z.of_nat (size (consumers w)) + 1 < 2 ^ 32 → run_event e w = Some w' →
  ∃ top', SeqInv top' w'.
Proof.
  intros HS Hal HC Hsz Hrun. pose proof (sq_ring _ _ HS) as HI.
  destruct (ri_event top w e w' HI HC Hsz) as (top' & HI' & Htop); [|done|].
  { intros k elapsed _. by apply (seq_choose_ok top). }
  destruct (event_const e w w' Hrun) as [HN Hpol].
  assert (Hbl : blocks_writer (consumer_sync_policy (hdr (block w))) = true)
    by (by rewrite (sq_policy _ _ HS)).
  pose proof (sq_read _ _ HS) as Hr. pose proof (sq_top _ _ HS) as Ht.
  assert (Htop' : top' <= R w + slot_count (block w))
    by (destruct (claim_top w w' e top top' HI Hbl Hr Hrun Htop); lia).
  exists top'. destruct (match e with Claim _ | FinishDrain | Store _ | Release _ => true | _ => false end) eqn:He.
  { destruct (producer_event e w w' Hrun) as (Hc & Hrel & HR & _ & _ & HCC); [by destruct e|].
    constructor; rewrite ?HN, ?Hpol, ?HR, ?Hc, ?Hrel; try done; try apply HS; [lia|].
    intros k c Hk. unfold ids_released. rewrite Hrel. by apply (sq_one _ _ HS). }
  destruct e as [| | | |pid|pid|pid elapsed|pid elapsed|pid ok mark|pid]; try done; clear He; unfold run_event in Hrun.
  - cbn in Hal. case_bool_decide as Hg; [done|]. destruct (sq_none _ _ HS Hal) as [HR Hrel].
    destruct (register_heartbeat pid (block w)) as [c b'] eqn:Hreg.
    assert (R w' = R w ∧ cpc c = CIdle ∧ consumers w' = {[pid := c]} ∧ released w' = ∅ ∧ C w' = C w)
      as (HR' & Hcp & Hc' & Hrel' & HC').
    { unfold register_heartbeat in Hreg. apply (inj Some) in Hrun as <-. cbn. rewrite Hal.
      repeat case_match; simplify_eq; cbn; try case_bool_decide; done. }
    constructor; rewrite ?HN, ?Hpol, ?HR', ?HC'; try done; try apply HS.
    + intros k c0 Hk0. rewrite Hc' in Hk0. apply lookup_singleton_Some in Hk0 as [<- <-].
      unfold ids_released. rewrite Hrel', HR. split_and!; [done|done|by left].
  - apply bind_Some in Hrun as (c & Hk & Hrun). destruct (cpc c) eqn:Hpc; try done.
    destruct (unregister_heartbeat pid c (block w)) as [c' b'] eqn:Hu.
    destruct (sq_one _ _ HS pid c Hk) as (_ & Hids & _). apply (inj Some) in Hrun as <-.
    assert (read_index (hdr b') = R w ∧ cpc c' = CIdle) as [HR' Hcp].
    { unfold unregister_heartbeat in Hu. repeat case_match; simplify_eq; cbn; done. }
    eapply (seq_consumer_step top top' w _ pid c c'); try done; cbn; rewrite ?HR'; try done. by left.
  - apply bind_Some in Hrun as (c & Hk & Hrun). destruct (cpc c) eqn:Hpc; try done.
    pose proof (choose_cases c elapsed (block w)) as Hc.
    destruct (acquire_consume_slot_choose c elapsed (block w)) as [o b'] eqn:Ha.
    destruct (sq_one _ _ HS pid c Hk) as (_ & Hids & _). apply (inj Some) in Hrun as <-.
    destruct Hc as (_ & _ & _ & HR' & _ & _ & _ & Hid).
    eapply (seq_consumer_step top top' w _ pid c); try done; cbn; rewrite ?HR'; try done.
    destruct o as [id|]; [right; left|by left]. cbn. destruct (Hid id eq_refl) as [-> Hne].
    unfold get_next_slot_to_read in *. rewrite (sq_policy _ _ HS) in *. repeat case_match; done.
  - apply bind_Some in Hrun as (c & Hk & Hrun). destruct (cpc c) as [|id| |] eqn:Hpc; try done.
    pose proof (read_cases id elapsed (block w)) as Hc.
    destruct (acquire_consume_slot_read id elapsed (block w)) as [o b'] eqn:Ha.
    destruct (sq_one _ _ HS pid c Hk) as (_ & Hids & Hcp). apply (inj Some) in Hrun as <-.
    assert (id = R w) as -> by (destruct Hcp as [|[|[]]]; congruence).
    assert (HR' : read_index (hdr b') = R w).
    { destruct o as [g|]; [by destruct Hc as (s & _ & _ & _ & ->)|by destruct Hc as (_ & _ & _ & HR' & _)]. }
    eapply (seq_consumer_step top top' w _ pid c); try done; cbn; rewrite ?HR'; try done.
    destruct o as [g|]; [right; right; by exists g|by left].
  - apply bind_Some in Hrun as (c & Hk & Hrun). destruct (cpc c) as [| |id g|] eqn:Hpc; try done.
    destruct (release_consume_handle c id g ok mark (block w)) as [c' b'] eqn:Hg.
    destruct (sq_one _ _ HS pid c Hk) as (_ & Hids & Hcp). apply (inj Some) in Hrun as <-.
    assert (id = R w) as -> by (destruct Hcp as [|[|[]]]; congruence).
    destruct (ri_pin _ _ HI pid c (R w) g Hk Hpc) as [HRC _].
    pose proof (give_valid top w pid c (R w) g HI Hk Hpc) as Hval.
    assert (cpc c' = CIdle ∧ read_index (hdr b') = if ok then R w + 1 else R w) as [Hc' HR'].
    { unfold release_consume_handle in Hg. rewrite Hval in Hg. cbn [andb] in Hg.
      destruct ok; cbn in Hg; rewrite ?(sq_policy _ _ HS) in Hg; simplify_eq/=; split; try done.
      unfold u64_succ. apply Z.mod_small. pose proof (ri_bound _ _ HI). unfold u64_modulus. lia. }
    eapply (seq_consumer_step top top' w _ pid c c'); try done; cbn; rewrite ?HR'.
    + destruct ok; lia.
    + change (C _) with (C w). destruct ok; lia.
    + unfold ids_released. cbn. rewrite Hval. cbn [andb]. destruct ok; [|done].
      rewrite lookup_insert_eq. cbn. rewrite seqZ_snoc by lia. by rewrite <- Hids.
    + by left.
  - apply bind_Some in Hrun as (c & Hk & Hrun). destruct (sq_one _ _ HS pid c Hk) as (_ & _ & Hcp).
    by destruct Hcp as [Hcp|[Hcp|[g Hcp]]]; rewrite Hcp in Hrun.
Qed.

Lemma seq_reaches w : reaches (allowed Sequential) Sequential w → ∃ top, SeqInv top w.
Proof.
  induction 1 as [images Hne Hlen|e w w' _ [top HS] Hal HC Hsz Hrun].
  - exists 0. pose proof (ri_start Sequential images Hne Hlen) as HI.
    constructor; try done. cbn. unfold C. cbn. pose proof (ri_count _ _ HI). cbn in *. lia.
  - by eapply seq_event.
Qed.

(** ** Sequential_sync *)

Definition entry w (i : nat) (k pos : Z) : Prop :=
  consumer_pid (hdr (block w)) !! i = Some k ∧ k ≠ 0 ∧
  consumer_next_read_slot (hdr (block w)) !! i = Some pos.

Definition sync_pc w (k : Z) c : Prop :=
  match cpc c with
  | CIdle => True
  | CChosen id | CHolding id _ => ∃ i, heartbeat_slot c = Some i ∧ entry w i k id
  | CScan j m => ∃ i, heartbeat_slot c = Some i ∧ 0 <= m <= C w ∧
      ∀ i' k' pos, entry w i' k' pos → (i' < j)%nat ∨ i' = i → m <= pos
  end.

Record SyncInv top w : Prop := mkSyncInv {
  sy_ring : RingInv top w;
  sy_policy : consumer_sync_policy (hdr (block w)) = Sequential_sync;
  sy_read : 0 <= R w <= C w;
  sy_pids : length (consumer_pid (hdr (block w))) = MAX_CONSUMER_HEARTBEATS;
  sy_positions : length (consumer_next_read_slot (hdr (block w))) = MAX_CONSUMER_HEARTBEATS;
  sy_entry : ∀ i k pos, entry w i k pos →
    (∃ c, consumers w !! k = Some c ∧ heartbeat_slot c = Some i) ∧
    0 <= pos <= C w ∧ top <= pos + slot_count (block w) ∧ R w <= pos ∧
    ids_released w k = seqZ 0 pos;
  sy_consumer : ∀ k c i, consumers w !! k = Some c → heartbeat_slot c = Some i →
    ∃ pos, entry w i k pos;
  sy_ids : ∀ k, ∃ n, 0 <= n ∧ ids_released w k = seqZ 0 n;
  sy_new : ∀ k, consumers w !! k = None → ids_released w k = [];
  sy_pc : ∀ k c, consumers w !! k = Some c → sync_pc w k c;
}.

Lemma entry_fun w i k pos k' pos' : entry w i k pos → entry w i k' pos' → k = k' ∧ pos = pos'.
Proof. unfold entry. naive_solver. Qed.

Lemma sync_choose_ok top w k : SyncInv top w → choose_ok w k.
Proof.
  intros HS c Hk. pose proof (sy_ring _ _ HS) as HI. cbv zeta. unfold get_next_slot_to_read.
  rewrite (sy_policy _ _ HS), (ri_commit _ _ HI).
  destruct (heartbeat_slot c) as [i|] eqn:Hh; [|done]. cbn.
  destruct (sy_consumer _ _ HS k c i Hk Hh) as [pos He].
  destruct (sy_entry _ _ HS i k pos He) as (_ & Hp & _).
  destruct He as (_ & _ & Hpos). rewrite Hpos. cbn.
  destruct (bool_decide (C w = 0)) eqn:H0; bool_facts; case_match; try done; lia.
Qed.

(** A step that keeps pids, positions and history. *)
Lemma sync_frame top top' w w' :
  SyncInv top w → RingInv top' w' →
  slot_count (block w') = slot_count (block w) →
  consumer_sync_policy (hdr (block w')) = consumer_sync_policy (hdr (block w)) →
  consumer_pid (hdr (block w')) = consumer_pid (hdr (block w)) →
  consumer_next_read_slot (hdr (block w')) = consumer_next_read_slot (hdr (block w)) →
  R w' = R w ∨ (0 <= R w' <= C w ∧ ∀ i k pos, entry w i k pos → R w' <= pos) →
  C w <= C w' → released w' = released w →
  (top' = top ∨ top' <= R w + slot_count (block w)) →
  (∀ k c', consumers w' !! k = Some c' →
     ∃ c, consumers w !! k = Some c ∧ heartbeat_slot c' = heartbeat_slot c ∧
          (cpc c' = cpc c ∨ sync_pc w k c')) →
  (∀ k, is_Some (consumers w !! k) → is_Some (consumers w' !! k)) →
  SyncInv top' w'.
Proof.
  intros HS HI' HN Hpol Hpids Hpos HR HC Hrel Htop Hcons Hdom.
  assert (He : ∀ i k pos, entry w' i k pos ↔ entry w i k pos) by (intros; unfold entry; by rewrite Hpids, Hpos).
  assert (Hids : ∀ k, ids_released w' k = ids_released w k) by (intros; unfold ids_released; by rewrite Hrel).
  assert (Hpcs : ∀ k c, sync_pc w k c → sync_pc w' k c).
  { intros k c Hp. unfold sync_pc in *. destruct (cpc c) as [|x|x y|j m]; [done| | |].
    - destruct Hp as (i & Hh & Hen). exists i. by rewrite He.
    - destruct Hp as (i & Hh & Hen). exists i. by rewrite He.
    - destruct Hp as (i & Hh & Hm & Hall). exists i. split; [done|]. split; [lia|].
      intros i' k' pos Hen. apply He in Hen. by apply (Hall i' k'). }
  pose proof (sy_read _ _ HS).
  constructor; rewrite ?HN, ?Hpol, ?Hpids, ?Hpos; try apply HS; try done.
  - destruct HR as [->|[? _]]; lia.
  - intros i k pos Hen. apply He in Hen. rewrite Hids.
    destruct (sy_entry _ _ HS i k pos Hen) as ((c & Hk & Hh) & Hp & Ht & Hle & Hseq).
    assert (R w' <= pos) by (destruct HR as [->|[_ Hall]]; [done|by eapply Hall]).
    split_and!; try lia; try done. destruct (Hdom k ltac:(by eexists)) as [c' Hc'].
    destruct (Hcons k c' Hc') as (c0 & Hc0 & Hh' & _). exists c'. split; [done|]. congruence.
  - intros k c' i Hk Hh. destruct (Hcons k c' Hk) as (c & Hc & Hh' & _). rewrite Hh' in Hh.
    destruct (sy_consumer _ _ HS k c i Hc Hh) as [pos Hen]. exists pos. by apply He.
  - intros k. rewrite Hids. apply (sy_ids _ _ HS).
  - intros k Hk. rewrite Hids. apply (sy_new _ _ HS).
    destruct (consumers w !! k) eqn:E; [|done]. destruct (Hdom k ltac:(by eexists)); congruence.
  - intros k c' Hk. destruct (Hcons k c' Hk) as (c & Hc & Hh' & Hpc).
    destruct Hpc as [Hpc|Hpc]; [|by apply Hpcs]. pose proof (Hpcs k c (sy_pc _ _ HS k c Hc)) as Hp.
    unfold sync_pc in *. by rewrite Hpc, Hh'.
Qed.

(** One consumer's step of that kind. *)
Lemma sync_consumer_frame top top' w b' k c c' :
  SyncInv top w → consumers w !! k = Some c → heartbeat_slot c' = heartbeat_slot c →
  RingInv top' (w <| block := b' |> <| consumers ::= <[k := c']> |>) →
  slot_count b' = slot_count (block w) →
  consumer_sync_policy (hdr b') = consumer_sync_policy (hdr (block w)) →
  consumer_pid (hdr b') = consumer_pid (hdr (block w)) →
  consumer_next_read_slot (hdr b') = consumer_next_read_slot (hdr (block w)) →
  read_index (hdr b') = R w ∨
    (0 <= read_index (hdr b') <= C w ∧ ∀ i k pos, entry w i k pos → read_index (hdr b') <= pos) →
  (top' = top ∨ top' <= R w + slot_count (block w)) →
  cpc c' = cpc c ∨ sync_pc w k c' →
  SyncInv top' (w <| block := b' |> <| consumers ::= <[k := c']> |>).
Proof.
  intros HS Hk Hh HI' HN Hpol Hpids Hpos HR Htop Hpc. eapply sync_frame; try done.
  - intros q c0 Hq. cbn in Hq. apply lookup_insert_Some in Hq as [[<- <-]|[_ Hq]]; eauto.
  - intros q Hq. cbn. apply lookup_insert_is_Some'. by right.
Qed.

(** Joining before the first commit. *)
Lemma sync_join top w pid c b' :
  let w' := w <| block := b' |> <| consumers ::= <[pid := c]> |> in
  SyncInv top w → committed w = [] → pid ≠ 0 → consumers w !! pid = None →
  register_heartbeat pid (block w) = (c, b') → RingInv top w' → SyncInv top w'.
Proof.
  intros w' HS Hcom Hpid Hnew Hreg HI'. pose proof (sy_ring _ _ HS) as HI.
  assert (HC : C w = 0) by (unfold C; by rewrite Hcom). pose proof (sy_read _ _ HS) as HR.
  pose proof (ri_count _ _ HI). pose proof (ri_top _ _ HI).
  unfold register_heartbeat in Hreg. pose proof (sy_policy _ _ HS) as Hsync.
  assert (Hcommit : commit_index (hdr (block w)) = INVALID_SLOT_ID)
    by (rewrite (ri_commit _ _ HI), HC; done).
  assert (Hone : ∀ k c0, consumers w' !! k = Some c0 → (k = pid ∧ c0 = c) ∨ (k ≠ pid ∧ consumers w !! k = Some c0)).
  { intros k c0 Hk. cbn in Hk. apply lookup_insert_Some in Hk as [[-> ->]|[? ?]]; auto. }
  assert (Hold : ∀ k c0, consumers w !! k = Some c0 → k ≠ pid ∧ consumers w' !! k = Some c0).
  { intros k c0 Hk. assert (k ≠ pid) by congruence. split; [done|]. cbn. by rewrite lookup_insert_ne. }
  destruct (find_free (hdr (block w))) as [i|] eqn:Hf; injection Hreg as <- Hb'.
  - assert (consumer_pid (hdr b') = <[i := pid]> (consumer_pid (hdr (block w))) ∧
      consumer_next_read_slot (hdr b') = <[i := 0]> (consumer_next_read_slot (hdr (block w))) ∧
      read_index (hdr b') = R w ∧ slot_count b' = slot_count (block w) ∧
      consumer_sync_policy (hdr b') = Sequential_sync) as (Hbp & Hbq & Hbr & Hbn & Hbs).
    { subst b'. cbn. rewrite (bool_decide_eq_true_2 _ Hsync). cbn. rewrite Hcommit. done. }
    clear Hb'. unfold find_free in Hf. apply fmap_Some in Hf as ([i' z] & Hfind & ->). cbn [fst] in *.
    apply list_find_Some in Hfind as (Hi & -> & _).
    assert (Hi8 : (i' < MAX_CONSUMER_HEARTBEATS)%nat) by (apply lookup_lt_Some in Hi; rewrite length_take in Hi; lia).
    rewrite lookup_take_lt in Hi by done.
    assert (He : ∀ j k pos, entry w' j k pos ↔
              (j = i' ∧ k = pid ∧ pos = 0) ∨ (j ≠ i' ∧ entry w j k pos)).
    { intros j k pos. unfold entry, w'. cbn [block update]. rewrite Hbp, Hbq.
      destruct (decide (j = i')) as [->|Hj].
      - rewrite !list_lookup_insert_eq by (rewrite ?(sy_pids _ _ HS), ?(sy_positions _ _ HS); done).
        naive_solver.
      - rewrite !list_lookup_insert_ne by done. naive_solver. }
    constructor; unfold w'; cbn [block update]; rewrite ?Hbp, ?Hbq, ?Hbr, ?Hbn, ?length_insert;
      try done; try apply HS; fold w'.
    + intros j k pos Hen. apply He in Hen as [(-> & -> & ->)|[Hj Hen]].
      * split; [eexists; cbn; by rewrite lookup_insert_eq|].
        split_and!; try (unfold C in *; cbn in *; lia).
        by apply (sy_new _ _ HS).
      * destruct (sy_entry _ _ HS j k pos Hen) as ((c0 & Hk & Hh) & Hrest).
        split; [|done]. exists c0. split; [by apply Hold|done].
    + intros k c0 j Hk Hh. destruct (Hone k c0 Hk) as [[-> ->]|[Hne Hk']].
      * cbn in Hh. simplify_eq. exists 0. apply He. by left.
      * destruct (sy_consumer _ _ HS k c0 j Hk' Hh) as [pos Hen]. exists pos. apply He. right.
        split; [|done]. intros ->. destruct Hen as (Hz & Hnz & _). congruence.
    + intros k Hk. apply (sy_new _ _ HS). cbn in Hk. by apply lookup_insert_None in Hk as [? _].
    + intros k c0 Hk. destruct (Hone k c0 Hk) as [[-> ->]|[Hne Hk']]; [done|].
      pose proof (sy_pc _ _ HS k c0 Hk') as Hp. unfold sync_pc in *.
      destruct (cpc c0) as [|x|x y|j m]; [done| | |].
      1, 2: destruct Hp as (j & Hh & Hen); exists j; split; [done|]; apply He; right; split; [|done];
        intros ->; destruct Hen as (Hz & Hnz & _); congruence.
      * destruct Hp as (i0 & Hh & Hm & Hall). exists i0. split; [done|]. split; [done|].
        intros j' k' pos Hen Hj. apply He in Hen as [(-> & -> & ->)|[Hne' Hen]]; [lia|by eapply Hall].
  - subst b'. constructor; try done; try apply HS.
    + intros j k pos Hen. destruct (sy_entry _ _ HS j k pos Hen) as ((c0 & Hk & Hh) & Hrest).
      split; [|done]. exists c0. split; [by apply Hold|done].
    + intros k c0 j Hk Hh. destruct (Hone k c0 Hk) as [[-> ->]|[Hne Hk']]; [done|].
      exact (sy_consumer _ _ HS k c0 j Hk' Hh).
    + intros k Hk. apply (sy_new _ _ HS). cbn in Hk. by apply lookup_insert_None in Hk as [? _].
    + intros k c0 Hk. destruct (Hone k c0 Hk) as [[-> ->]|[Hne Hk']]; [done|].
      exact (sy_pc _ _ HS k c0 Hk').
Qed.

Lemma sync_leave top w pid c c' b' :
  let w' := w <| block := b' |> <| consumers ::= <[pid := c']> |> in
  SyncInv top w → consumers w !! pid = Some c → cpc c = CIdle →
  unregister_heartbeat pid c (block w) = (c', b') → RingInv top w' → SyncInv top w'.
Proof.
  intros w' HS Hk Hpc Hun HI'. unfold unregister_heartbeat in Hun.
  destruct (heartbeat_slot c) as [i|] eqn:Hh.
  2: { simplify_eq. eapply (sync_consumer_frame top top w _ pid c'); try done; by left. }
  case_bool_decide as Hpid.
  2: { simplify_eq. eapply (sync_consumer_frame top top w _ pid c'); try done; by left. }
  simplify_eq.
  assert (He : ∀ j k pos, entry w' j k pos ↔ j ≠ i ∧ entry w j k pos).
  { intros j k pos. unfold entry. cbn. destruct (decide (j = i)) as [->|Hj].
    - rewrite list_lookup_insert_eq by (by eapply lookup_lt_Some). naive_solver.
    - rewrite !list_lookup_insert_ne by done. naive_solver. }
  assert (Hother : ∀ k c0 j, k ≠ pid → consumers w !! k = Some c0 → heartbeat_slot c0 = Some j → j ≠ i).
  { intros k c0 j Hne Hk0 Hj ->. destruct (sy_consumer _ _ HS k c0 i Hk0 Hj) as [pos (Hz & _)]. congruence. }
  constructor; try done; try apply HS.
  - cbn. rewrite length_insert. apply (sy_pids _ _ HS).
  - intros j k pos [Hj Hen]%He. destruct (sy_entry _ _ HS j k pos Hen) as ((c0 & Hk0 & Hh0) & Hrest).
    split; [|done]. exists c0. split; [|done]. cbn. rewrite lookup_insert_ne; [done|].
    intros ->. simplify_eq.
  - intros k c0 j Hk0 Hj. cbn in Hk0. apply lookup_insert_Some in Hk0 as [[<- <-]|[Hne Hk0]]; [done|].
    destruct (sy_consumer _ _ HS k c0 j Hk0 Hj) as [pos Hen]. exists pos. apply He.
    split; [by eapply (Hother k)|done].
  - intros k Hk0. apply (sy_new _ _ HS). cbn in Hk0. by apply lookup_insert_None in Hk0 as [? _].
  - intros k c0 Hk0. cbn in Hk0. apply lookup_insert_Some in Hk0 as [[<- <-]|[Hne Hk0]].
    { unfold sync_pc. cbn. by rewrite Hpc. }
    pose proof (sy_pc _ _ HS k c0 Hk0) as Hp. unfold sync_pc in *. destruct (cpc c0) as [|x|x y|j m]; [done| | |].
    1, 2: destruct Hp as (j & Hj & Hen); exists j; split; [done|]; apply He;
      split; [by eapply (Hother k)|done].
    + destruct Hp as (i0 & Hj & Hm & Hall). exists i0. split; [done|]. split; [done|].
      intros j' k' pos [_ Hen]%He. by eapply Hall.
Qed.

(** A successful release: the consumer's own position moves on by one. *)
Lemma sync_give top w w' k c c' i id g :
  SyncInv top w → consumers w !! k = Some c → cpc c = CHolding id g →
  heartbeat_slot c = Some i → RingInv top w' →
  slot_count (block w') = slot_count (block w) →
  consumer_sync_policy (hdr (block w')) = consumer_sync_policy (hdr (block w)) →
  consumer_pid (hdr (block w')) = consumer_pid (hdr (block w)) →
  consumer_next_read_slot (hdr (block w')) =
    <[i := id + 1]> (consumer_next_read_slot (hdr (block w))) →
  R w' = R w → committed w' = committed w →
  consumers w' = <[k := c']> (consumers w) →
  heartbeat_slot c' = heartbeat_slot c → cpc c' = CScan 0 (id + 1) →
  released w' = <[k := ids_released w k ++ [id]]> (released w) →
  SyncInv top w'.
Proof.
  intros HS Hk Hpc Hh HI' HN Hpol Hpids Hpos HR Hcom Hcons Hh' Hpc' Hrel.
  pose proof (sy_ring _ _ HS) as HI. destruct (ri_pin _ _ HI k c id g Hk Hpc) as [Hid _].
  assert (HC : C w' = C w) by (unfold C; by rewrite Hcom).
  pose proof (sy_pc _ _ HS k c Hk) as Hown. unfold sync_pc in Hown. rewrite Hpc in Hown.
  destruct Hown as (i0 & Hi0 & Hen0). assert (i0 = i) as -> by congruence.
  destruct (sy_entry _ _ HS i k id Hen0) as (_ & Hp0 & Ht0 & HR0 & Hseq0).
  assert (He : ∀ j q pos, entry w' j q pos ↔
            (j = i ∧ q = k ∧ pos = id + 1) ∨ (j ≠ i ∧ entry w j q pos)).
  { intros j q pos. unfold entry. rewrite Hpids, Hpos. destruct Hen0 as (Ha & Hb & Hc).
    destruct (decide (j = i)) as [->|Hj].
    - rewrite list_lookup_insert_eq by (by eapply lookup_lt_Some). naive_solver.
    - rewrite list_lookup_insert_ne by done. naive_solver. }
  assert (Hmono : ∀ j q pos, entry w' j q pos → ∃ pos0, entry w j q pos0 ∧ pos0 <= pos).
  { intros j q pos [(-> & -> & ->)|[_ Hen]]%He; [exists id|exists pos]; split; try done; lia. }
  assert (Hids : ids_released w' k = seqZ 0 (id + 1)).
  { unfold ids_released at 1. rewrite Hrel, lookup_insert_eq. cbn. by rewrite Hseq0, seqZ_snoc by lia. }
  assert (Hidso : ∀ q, q ≠ k → ids_released w' q = ids_released w q).
  { intros q Hq. unfold ids_released. by rewrite Hrel, lookup_insert_ne. }
  constructor; rewrite ?HN, ?Hpol, ?Hpids, ?Hpos, ?HR, ?HC, ?length_insert; try done; try apply HS.
  - intros j q pos Hen. apply He in Hen as [(-> & -> & ->)|[Hj Hen]].
    + split_and!; try lia; [|done]. exists c'. rewrite Hcons, lookup_insert_eq. split; [done|congruence].
    + destruct (sy_entry _ _ HS j q pos Hen) as ((c0 & Hq & Hh0) & Ha & Hb & Hc & Hd).
      assert (q ≠ k) by (intros ->; simplify_eq).
      split_and!; try lia; try done; [|by rewrite Hidso]. exists c0. by rewrite Hcons, lookup_insert_ne.
  - intros q c0 j Hq Hj. rewrite Hcons in Hq. apply lookup_insert_Some in Hq as [[<- <-]|[Hne Hq]].
    + exists (id + 1). apply He. left. split_and!; try done. congruence.
    + destruct (sy_consumer _ _ HS q c0 j Hq Hj) as [pos Hen]. exists pos. apply He. right.
      split; [|done]. intros ->. destruct (entry_fun _ _ _ _ _ _ Hen0 Hen). congruence.
  - intros q. destruct (decide (q = k)) as [->|Hq]; [exists (id + 1); split; [lia|done]|].
    rewrite Hidso by done. apply (sy_ids _ _ HS).
  - intros q Hq. rewrite Hcons in Hq. apply lookup_insert_None in Hq as [Hq Hne].
    rewrite Hidso by done. by apply (sy_new _ _ HS).
  - intros q c0 Hq. rewrite Hcons in Hq. apply lookup_insert_Some in Hq as [[<- <-]|[Hne Hq]].
    + unfold sync_pc. rewrite Hpc', HC. exists i. split; [congruence|]. split; [lia|].
      intros j q pos Hen [Hj| ->]; [lia|]. apply He in Hen as [(_ & _ & ->)|[? _]]; [lia|done].
    + pose proof (sy_pc _ _ HS q c0 Hq) as Hp. unfold sync_pc in *. rewrite HC.
      destruct (cpc c0) as [|x|x y|j m]; [done| | |].
      1, 2: destruct Hp as (j & Hj & Hen); exists j; split; [done|]; apply He; right;
        split; [|done]; intros ->; destruct (entry_fun _ _ _ _ _ _ Hen0 Hen); congruence.
      * destruct Hp as (i0 & Hi1 & Hm & Hall). exists i0. split; [done|]. split; [done|].
        intros j' q' pos Hen Hj'. destruct (Hmono _ _ _ Hen) as (pos0 & Hen' & Hle).
        pose proof (Hall _ _ _ Hen' Hj'). lia.
Qed.

(** One pass of the scan keeps the minimum below every position seen. *)
Lemma sync_scan top w k c c' j m b' :
  let w' := w <| block := b' |> <| consumers ::= <[k := c']> |> in
  SyncInv top w → consumers w !! k = Some c → cpc c = CScan j m →
  scan_step c j m (block w) = (c', b') → RingInv top w' → SyncInv top w'.
Proof.
  intros w' HS Hk Hpc Hs HI'. pose proof (sy_pc _ _ HS k c Hk) as Hp. unfold sync_pc in Hp.
  rewrite Hpc in Hp. destruct Hp as (i & Hh & Hm & Hall). unfold scan_step in Hs.
  case_bool_decide as Hj; simplify_eq.
  - eapply (sync_consumer_frame top top w _ k c); try done; try by left. right.
    unfold sync_pc. cbn [cpc update heartbeat_slot]. exists i. split; [done|].
    assert (Hpj : ∀ q pos, entry w j q pos →
              default 0 (consumer_pid (hdr (block w)) !! j) ≠ 0 ∧
              default 0 (consumer_next_read_slot (hdr (block w)) !! j) = pos ∧ 0 <= pos <= C w).
    { intros q pos Hen. destruct (sy_entry _ _ HS j q pos Hen) as (_ & Hr & _).
      destruct Hen as (-> & Hnz & ->). done. }
    split.
    + destruct (_ && _) eqn:Hb; [|done]. bool_facts.
      destruct (consumer_pid (hdr (block w)) !! j) as [q|] eqn:Hq; [|done]. cbn in *.
      destruct (lookup_lt_is_Some_2 (consumer_next_read_slot (hdr (block w))) j) as [pos Hpos].
      { by rewrite (sy_positions _ _ HS). }
      destruct (Hpj q pos) as (_ & -> & Hr); [done|lia].
    + intros i' k' pos Hen [Hlt| ->].
      * destruct (decide (i' = j)) as [->|Hne].
        -- destruct (Hpj k' pos Hen) as (Hnz & -> & _). rewrite bool_decide_eq_true_2 by done. cbn.
           destruct (Z.ltb_spec pos m); lia.
        -- pose proof (Hall i' k' pos Hen ltac:(left; lia)). destruct (_ && _) eqn:Hb; [|lia].
           bool_facts. lia.
      * pose proof (Hall i k' pos Hen ltac:(by right)). destruct (_ && _) eqn:Hb; [|lia].
        bool_facts. lia.
  - eapply (sync_consumer_frame top top w _ k c); try done; [|by left|by right].
    right. cbn. split; [lia|]. intros j' q pos Hen. eapply Hall; [done|]. left.
    destruct Hen as (Hq & _). apply lookup_lt_Some in Hq. rewrite (sy_pids _ _ HS) in Hq. lia.
Qed.

Lemma sync_event top w e w' :
  SyncInv top w → allowed Sequential_sync e w → C w < 2 ^ 64 - 2 →
  Z.of_nat (size (consumers w)) + 1 < 2 ^ 32 → run_event e w = Some w' →
  ∃ top', SyncInv top' w'.
Proof.
  intros HS Hal HC Hsz Hrun. pose proof (sy_ring _ _ HS) as HI.
  destruct (ri_event top w e w' HI HC Hsz) as (top' & HI' & Htop); [|done|].
  { intros k elapsed _. by apply (sync_choose_ok top). }
  destruct (event_const e w w' Hrun) as [HN Hpol].
  assert (Hbl : blocks_writer (consumer_sync_policy (hdr (block w))) = true)
    by (by rewrite (sy_policy _ _ HS)).
  pose proof (claim_top w w' e top top' HI Hbl (sy_read _ _ HS) Hrun Htop) as Htop'.
  exists top'. destruct (match e with Claim _ | FinishDrain | Store _ | Release _ => true | _ => false end) eqn:He.
  { destruct (producer_event e w w' Hrun) as (Hc & Hrel & HR & Hpi & Hpo & HCC); [by destruct e|].
    eapply sync_frame; try done; try (by left); rewrite Hc; eauto. }
  assert (top' = top) as -> by (destruct Htop as [|(? & -> & _)]; done).
  destruct e as [| | | |pid|pid|pid elapsed|pid elapsed|pid ok mark|pid]; try done; clear He; unfold run_event in Hrun.
  - case_bool_decide as Hg; [done|]. destruct (register_heartbeat pid (block w)) as [c b'] eqn:Hreg.
    apply (inj Some) in Hrun as <-. apply sync_join; try done; [tauto|].
    destruct (consumers w !! pid) eqn:E; [|done]. destruct Hg. right. by eexists.
  - apply bind_Some in Hrun as (c & Hk & Hrun). destruct (cpc c) eqn:Hpc; try done.
    destruct (unregister_heartbeat pid c (block w)) as [c' b'] eqn:Hu.
    apply (inj Some) in Hrun as <-. by apply (sync_leave top w pid c c' b').
  - apply bind_Some in Hrun as (c & Hk & Hrun). destruct (cpc c) eqn:Hpc; try done.
    pose proof (choose_cases c elapsed (block w)) as Hc.
    destruct (acquire_consume_slot_choose c elapsed (block w)) as [o b'] eqn:Ha.
    apply (inj Some) in Hrun as <-. destruct Hc as (Hsl & _ & _ & HR' & Hpo' & Hpi & Hpo & Hid).
    eapply (sync_consumer_frame top top w _ pid c); try done; try by left.
    right. destruct o as [id|]; [|done]. destruct (Hid id eq_refl) as [-> Hne]. cbn.
    unfold sync_pc, get_next_slot_to_read in *. cbn. rewrite (sy_policy _ _ HS) in *.
    destruct (heartbeat_slot c) as [i|] eqn:Hh; [|done]. exists i. split; [done|]. cbn in Hne |- *.
    destruct (sy_consumer _ _ HS pid c i Hk Hh) as [pos (Hp1 & Hp2 & Hp3)]. rewrite Hp3 in *.
    by case_match.
  - apply bind_Some in Hrun as (c & Hk & Hrun). destruct (cpc c) as [|id| |] eqn:Hpc; try done.
    pose proof (read_cases id elapsed (block w)) as Hc.
    pose proof (sy_pc _ _ HS pid c Hk) as Hp. unfold sync_pc in Hp. rewrite Hpc in Hp.
    destruct (acquire_consume_slot_read id elapsed (block w)) as [o b'] eqn:Ha.
    apply (inj Some) in Hrun as <-.
    assert (Hb : read_index (hdr b') = R w ∧ consumer_pid (hdr b') = consumer_pid (hdr (block w)) ∧
      consumer_next_read_slot (hdr b') = consumer_next_read_slot (hdr (block w))).
    { destruct o as [g|]; [by destruct Hc as (s & _ & _ & _ & ->)|tauto]. }
    destruct Hb as (HR' & Hpi & Hpo).
    eapply (sync_consumer_frame top top w b' pid c); try done; try by left.
    right. by destruct o.
  - apply bind_Some in Hrun as (c & Hk & Hrun). destruct (cpc c) as [| |id g|] eqn:Hpc; try done.
    destruct (release_consume_handle c id g ok mark (block w)) as [c' b'] eqn:Hg.
    apply (inj Some) in Hrun as <-. pose proof (sy_pc _ _ HS pid c Hk) as Hp. unfold sync_pc in Hp.
    rewrite Hpc in Hp. destruct Hp as (i & Hh & Hen).
    destruct (ri_pin _ _ HI pid c id g Hk Hpc) as [HRC _].
    pose proof (give_valid top w pid c id g HI Hk Hpc) as Hval.
    assert (Hnext : u64_succ id = id + 1).
    { unfold u64_succ. apply Z.mod_small. pose proof (ri_bound _ _ HI). unfold u64_modulus. lia. }
    unfold release_consume_handle in Hg. rewrite Hval, Hnext in Hg. cbn [andb] in Hg.
    destruct ok; cbn [negb andb] in Hg.
    + destruct mark; cbn in Hg; rewrite (sy_policy _ _ HS), Hh in Hg; simplify_eq;
        eapply (sync_give top w _ pid c _ i id g); try done; cbn; by rewrite ?Hval.
    + injection Hg as <- <-. eapply sync_frame; try done; try by left.
      * cbn. by rewrite Hval.
      * intros q c0 Hq. cbn in Hq. apply lookup_insert_Some in Hq as [[<- <-]|[_ Hq]]; [|by eauto].
        exists c. split; [done|]. split; [by destruct mark|by right].
      * intros q Hq. cbn. apply lookup_insert_is_Some'. by right.
  - apply bind_Some in Hrun as (c & Hk & Hrun). destruct (cpc c) as [| | |j m] eqn:Hpc; try done.
    destruct (scan_step c j m (block w)) as [c' b'] eqn:Hs.
    apply (inj Some) in Hrun as <-. by apply (sync_scan top w pid c c' j m b').
Qed.

Lemma sync_reaches w : reaches (allowed Sequential_sync) Sequential_sync w → ∃ top, SyncInv top w.
Proof.
  induction 1 as [images Hne Hlen|e w w' _ [top HS] Hal HC Hsz Hrun].
  - exists 0. pose proof (ri_start Sequential_sync images Hne Hlen) as HI.
    constructor; try done.
    + intros i k pos (Hk & Hnz & _).
      change (replicate MAX_CONSUMER_HEARTBEATS 0 !! i = Some k) in Hk.
      apply lookup_replicate in Hk as [-> _]. done.
    + intros k. exists 0. done.
  - by eapply sync_event.
Qed.

Lemma latest_reaches w : reaches (allowed Latest_only) Latest_only w →
  (∃ top, RingInv top w) ∧ consumer_sync_policy (hdr (block w)) = Latest_only.
Proof.
  induction 1 as [images Hne Hlen|e w w' _ [[top HI] Hpol] Hal HC Hsz Hrun].
  - split; [|done]. exists 0. by apply ri_start.
  - destruct (event_const e w w' Hrun) as [_ ->]. split; [|done].
    destruct (ri_event top w e w' HI HC Hsz) as (top' & HI' & _); [|done|by exists top'].
    intros k elapsed _. by apply (latest_choose_ok top).
Qed.

(** ** Concrete runs *)

#[global] Instance ConsumerPc_eq_dec : EqDecision ConsumerPc.
Proof. solve_decision. Defined.
#[global] Instance Consumer_eq_dec : EqDecision Consumer.
Proof. solve_decision. Defined.
#[global] Instance allowed_dec policy e w : Decision (allowed policy e w).
Proof. destruct policy, e; cbn; apply _. Defined.

(** A run of events that checks the side conditions of [reaches]. *)
Fixpoint run_allowed (policy : ConsumerSyncPolicy) (l : list event) w : option World :=
  match l with
  | [] => Some w
  | e :: l =>
      if bool_decide (allowed policy e w) && (C w <? 2 ^ 64 - 2)
         && (Z.of_nat (size (consumers w)) + 1 <? 2 ^ 32)
      then run_event e w ≫= run_allowed policy l else None
  end.

Lemma run_allowed_reaches policy l w w' :
  reaches (allowed policy) policy w → run_allowed policy l w = Some w' →
  reaches (allowed policy) policy w'.
Proof.
  revert w. induction l as [|e l IH]; intros w HR Hl; [by injection Hl as <-|].
  cbn in Hl. destruct (_ && _) eqn:Hg; [|done]. bool_facts.
  apply bind_Some in Hl as (w1 & Hrun & Hl). apply (IH w1); [|done].
  apply (reaches_event _ _ e w); try done; unfold C in *; lia.
Qed.

Definition world_after (policy : ConsumerSyncPolicy) (images : list (list Z)) (l : list event) : World :=
  default (start policy images) (run_allowed policy l (start policy images)).

Lemma world_after_reaches policy images l :
  images ≠ [] → Z.of_nat (length images) < 2 ^ 32 →
  reaches (allowed policy) policy (world_after policy images l).
Proof.
  intros Hne Hlen. pose proof (reaches_start (allowed policy) policy images Hne Hlen) as H0.
  unfold world_after. destruct (run_allowed _ _ _) as [w|] eqn:Hl; [|done].
  by apply (run_allowed_reaches policy l (start policy images)).
Qed.

(** A commit by the producer, the two steps of an acquisition, and one read by a
    consumer; in a
    [Sequential_sync] ring the scan of the eight positions and the store of
    [read_index] follow it. *)
Definition put (bs : list Z) : list event := [Claim 5; FinishDrain; Store bs; Release true].
Definition take (k : Z) : list event := [Choose k true; Take k true].
Definition get (k : Z) : list event := take k ++ [Give k true true].
Definition get_sync (k : Z) : list event := get k ++ replicate 9 (Scan k).

(** ** What consumers read *)

Lemma reaches_ring policy w : reaches (allowed policy) policy w → ∃ top, RingInv top w.
Proof.
  destruct policy; intros H.
  - by apply latest_reaches.
  - apply seq_reaches in H as [top HS]. exists top. apply HS.
  - apply sync_reaches in H as [top HS]. exists top. apply HS.
Qed.

(** In a ring that blocks its writer a held slot has not been claimed again. *)
Lemma held_in_window policy w k c id g :
  reaches (allowed policy) policy w → blocks_writer policy = true → consumers w !! k = Some c →
  cpc c = CHolding id g → ∃ top, RingInv top w ∧ top <= id + slot_count (block w).
Proof.
  intros HR Hpol Hk Hpc. destruct policy; [done| |].
  - apply seq_reaches in HR as [top HS]. destruct (sq_one _ _ HS k c Hk) as (_ & _ & Hcp).
    exists top. split; [apply HS|]. assert (id = R w) as -> by (destruct Hcp as [|[|[]]]; congruence).
    apply (sq_top _ _ HS).
  - apply sync_reaches in HR as [top HS]. pose proof (sy_pc _ _ HS k c Hk) as Hp.
    unfold sync_pc in Hp. rewrite Hpc in Hp. destruct Hp as (i & _ & Hen).
    exists top. split; [apply HS|]. by destruct (sy_entry _ _ HS i k id Hen) as (_ & _ & Ht & _).
Qed.







(** The single-consumer ring never gets stuck: with producer and consumer
    idle, either the producer is given a slot, and no reader has to drain from
    it, or the consumer is given the next commit. *)
Theorem sequential_ring_progress w pid k c :
  reaches (allowed Sequential) Sequential w → pid ≠ 0 → producer w = PIdle →
  consumers w !! k = Some c → cpc c = CIdle →
  (∃ b b', acquire_write_slot pid (block w) = (Some (C w), b) ∧ finish_drain (C w) b = Some b') ∨
  (∃ g b, acquire_consume_slot_choose c true (block w) = (Some (R w), block w) ∧
     acquire_consume_slot_read (R w) true (block w) = (Some g, b) ∧ R w < C w).
Proof.
  intros [top HS]%seq_reaches Hpid Hp Hk Hpc. pose proof (sq_ring _ _ HS) as HI.
  pose proof (sq_read _ _ HS) as HR. pose proof (sq_top _ _ HS) as Ht.
  pose proof (ri_count _ _ HI) as Hn. pose proof (ri_bound _ _ HI) as Hb.
  destruct (sq_one _ _ HS k c Hk) as (Hone & _).
  destruct (decide (C w - R w < slot_count (block w))) as [Hroom|Hfull].
  - left. rewrite (claim_cases top) by done. rewrite (sq_policy _ _ HS). cbn [blocks_writer andb].
    unfold u64, u64_modulus. rewrite Z.mod_small by lia.
    rewrite (proj2 (Z.ltb_lt _ _)) by done. cbn [negb]. eexists _, _. split; [done|].
    destruct (slot_at_Some (block w) (C w) (proj1 Hn)) as [s Hs].
    unfold finish_drain, on_srw. rewrite slot_at_on_slot, bool_decide_eq_true_2 by done.
    change (slot_at ((block w) <| hdr ::= λ h, h <| write_index := C w + 1 |> |>) (C w))
      with (slot_at (block w) (C w)). rewrite Hs. cbn [fmap option_fmap option_map mbind option_bind].
    rewrite bool_decide_eq_true_2; [done|]. cbn. rewrite (ri_readers _ _ HI _ _ Hs), Hone.
    unfold holders. rewrite map_filter_singleton. cbn. unfold holds_slot. rewrite Hpc.
    by case_decide.
  - right. assert (HRC : R w < C w) by lia.
    destruct (ri_window _ _ HI (R w) ltac:(lia) ltac:(lia)) as (s & Hs & Hst & _).
    unfold acquire_consume_slot_choose, acquire_consume_slot_read, get_next_slot_to_read.
    rewrite (sq_policy _ _ HS), (ri_commit _ _ HI).
    rewrite (bool_decide_eq_false_2 (Sequential = Sequential_sync)) by done. cbn [andb].
    rewrite (bool_decide_eq_false_2 (C w = 0)) by lia.
    assert (INVALID_SLOT_ID = 2 ^ 64 - 1) as Hinv by done.
    rewrite (bool_decide_eq_false_2 (C w - 1 = _)) by (rewrite Hinv; lia).
    destruct (Z.ltb_spec (C w - 1) (R w)); [lia|].
    rewrite (bool_decide_eq_false_2 (R w = _)) by (rewrite Hinv; lia). rewrite Hs.
    unfold acquire_read. rewrite (bool_decide_eq_false_2 (slot_state _ ≠ _)) by (cbn; naive_solver).
    rewrite (bool_decide_eq_false_2 (slot_state _ ≠ _)) by (cbn; naive_solver). eauto.
Qed.

Lemma sequential_ring_progress_witness :
  let w := world_after Sequential [[0]] ([Join 11] ++ put [7]) in
  (∃ b b', acquire_write_slot 5 (block w) = (Some (C w), b) ∧ finish_drain (C w) b = Some b') ∨
  (∃ g b, acquire_consume_slot_choose (mkConsumer (Some 0%nat) INVALID_SLOT_ID CIdle) true (block w)
          = (Some (R w), block w) ∧
     acquire_consume_slot_read (R w) true (block w) = (Some g, b) ∧ R w < C w).
Proof.
  intros w. apply (sequential_ring_progress w 5 11).
  - by apply world_after_reaches.
  - lia.
  - by vm_compute.
  - by vm_compute.
  - done.
Defined.

End RingProps.
