(* ===== verification/RingStall.v ===== *)
(** * Where the ring stops short of its contract

    [RingProps] shows what the ring guarantees.  Four runs show its limits.
    [read_index] is only recomputed by a [Sequential_sync] consumer that
    releases a slot, by a scan that another release can overtake, so that a
    departure or a race can leave it behind for good; a consumer that joins at
    the commit index while the producer is a full ring ahead is not waited for;
    and a [Latest_only] consumer that is overtaken between picking a slot id and
    reading its slot holds another commit under that id. *)

From S2P Require Import Prelude.
From S2P Require Import SlotRW.
From S2P Require Import Ring.
From S2P Require Import RingInv.
From S2P Require Import RingProps.
Import SlotRW Ring RingInv RingProps.

Module RingStall.

Implicit Types (w : World) (b : DataBlock) (c : Consumer).

(** Nobody can move: the ring is full for the producer, and no consumer is
    given a slot. *)
Definition stalled w : Prop :=
  producer w = PIdle ∧
  blocks_writer (consumer_sync_policy (hdr (block w))) = true ∧
  slot_count (block w) <= u64 (write_index (hdr (block w)) - read_index (hdr (block w))) ∧
  map_Forall (λ _ c, cpc c = CIdle ∧ (acquire_consume_slot_choose c true (block w)).1 = None) (consumers w).

#[global] Instance ProducerPc_eq_dec : EqDecision ProducerPc.
Proof. solve_decision. Defined.

(** What the ring decisions read of the block. *)
Definition same_ring b b' : Prop :=
  slots b' = slots b ∧
  consumer_sync_policy (hdr b') = consumer_sync_policy (hdr b) ∧
  write_index (hdr b') = write_index (hdr b) ∧ commit_index (hdr b') = commit_index (hdr b) ∧
  read_index (hdr b') = read_index (hdr b) ∧
  consumer_next_read_slot (hdr b') = consumer_next_read_slot (hdr b).

Lemma choose_same_ring c elapsed b b' :
  same_ring b b' →
  (acquire_consume_slot_choose c elapsed b').1 = (acquire_consume_slot_choose c true b).1.
Proof.
  intros (Hs & Hp & _ & Hc & Hr & Hn). unfold acquire_consume_slot_choose, get_next_slot_to_read.
  rewrite Hp, Hc, Hr, Hn. repeat case_match; simplify_eq; done.
Qed.

(** A consumer that has left is given no slot it was not given before. *)
Lemma choose_unregistered c b :
  (acquire_consume_slot_choose c true b).1 = None → consumer_sync_policy (hdr b) ≠ Latest_only →
  (acquire_consume_slot_choose (c <| heartbeat_slot := None |>) true b).1 = None.
Proof.
  unfold acquire_consume_slot_choose, get_next_slot_to_read. cbn.
  destruct (consumer_sync_policy (hdr b)); try done.
Qed.

Lemma choose_none_same c elapsed b :
  (acquire_consume_slot_choose c elapsed b).1 = None →
  same_ring b (acquire_consume_slot_choose c elapsed b).2.
Proof.
  unfold acquire_consume_slot_choose, pass_over. repeat case_match; done.
Qed.

(** A stalled world stays stalled when only counters, registrations and the
    idle consumers' registrations change. *)
Lemma stalled_frame w b' m' :
  stalled w → same_ring (block w) b' →
  map_Forall (λ _ c, cpc c = CIdle ∧ (acquire_consume_slot_choose c true (block w)).1 = None) m' →
  stalled (w <| block := b' |> <| consumers := m' |>).
Proof.
  intros (Hp & Hb & Hf & _) Hsame Hm. pose proof Hsame as (Hs & Hpol & HW & _ & HR & _).
  unfold stalled, slot_count. cbn. rewrite Hs, Hpol, HW, HR. split_and!; try done.
  intros k c Hk. destruct (Hm k c Hk) as [Hpc Ha]. by rewrite (choose_same_ring c true _ _ Hsame).
Qed.

Lemma stalled_event w e w' :
  stalled w → run_event e w = Some w' → (∀ pid, e ≠ Join pid) →
  stalled w' ∧ committed w' = committed w ∧ released w' = released w.
Proof.
  intros Hst Hrun Hj. pose proof Hst as (Hp & Hb & Hf & Hall).
  destruct e as [pid| | | |pid|pid|pid elapsed|pid elapsed|pid ok mark|pid]; unfold run_event in Hrun;
    rewrite ?Hp in Hrun; try done.
  - case_bool_decide; [done|]. unfold acquire_write_slot in Hrun.
    rewrite Hb, (proj2 (Z.ltb_ge _ _)) in Hrun by done. apply (inj Some) in Hrun as <-.
    split; [|done]. rewrite <- Hp.
    apply (stalled_frame w _ (consumers w)); [done| |done]. done.
  - by destruct (Hj pid).
  - apply bind_Some in Hrun as (c & Hk & Hrun). destruct (Hall pid c Hk) as [Hpc Ha].
    rewrite Hpc in Hrun. destruct (unregister_heartbeat pid c (block w)) as [c' b'] eqn:Hu.
    apply (inj Some) in Hrun as <-. split; [|done].
    apply (stalled_frame w b' (<[pid := c']> (consumers w))); [done| |].
    + unfold unregister_heartbeat in Hu. repeat case_match; simplify_eq; done.
    + apply map_Forall_insert_2; [|done]. unfold unregister_heartbeat in Hu.
      repeat case_match; simplify_eq; try done. split; [done|].
      apply choose_unregistered; [done|]. by intros Hl; rewrite Hl in Hb.
  - apply bind_Some in Hrun as (c & Hk & Hrun). destruct (Hall pid c Hk) as [Hpc Ha].
    rewrite Hpc in Hrun. pose proof (choose_same_ring c elapsed (block w) (block w) ltac:(done)) as He.
    rewrite Ha in He. pose proof (choose_none_same c elapsed (block w) He) as Hsame.
    destruct (acquire_consume_slot_choose c elapsed (block w)) as [o b'] eqn:Hu. cbn in He, Hsame. subst o.
    apply (inj Some) in Hrun as <-. split; [|done].
    apply (stalled_frame w b' (<[pid := c <| cpc := CIdle |>]> (consumers w))); [done|done|].
    apply map_Forall_insert_2; [|done]. destruct c as [hs lc pc]. cbn in Hpc. by subst pc.
  - apply bind_Some in Hrun as (c & Hk & Hrun). destruct (Hall pid c Hk) as [Hpc Ha].
    by rewrite Hpc in Hrun.
  - apply bind_Some in Hrun as (c & Hk & Hrun). destruct (Hall pid c Hk) as [Hpc Ha].
    by rewrite Hpc in Hrun.
  - apply bind_Some in Hrun as (c & Hk & Hrun). destruct (Hall pid c Hk) as [Hpc Ha].
    by rewrite Hpc in Hrun.
Qed.

Lemma stalled_forever w l w' :
  stalled w → run_events l w = Some w' → (∀ pid, Join pid ∉ l) →
  stalled w' ∧ committed w' = committed w ∧ released w' = released w.
Proof.
  revert w. induction l as [|e l IH]; intros w Hst Hrun Hj; [by injection Hrun as <-|].
  apply bind_Some in Hrun as (w1 & He & Hrun).
  destruct (stalled_event w e w1 Hst He) as (Hst1 & Hc & Hr).
  { intros pid ->. apply (Hj pid). by left. }
  destruct (IH w1 Hst1 Hrun) as (Hst' & -> & ->); [|done].
  intros pid Hin. apply (Hj pid). by right.
Qed.

(** The two runs, on a ring of two slots with two consumers from the start. *)
Definition two_commits : list event := [Join 11; Join 12] ++ put [100] ++ put [101].

(** Consumer 11 reads both commits; consumer 12, which was behind, leaves. *)
Definition slow_consumer_leaves : list event :=
  two_commits ++ get_sync 11 ++ get_sync 11 ++ [Leave 12].

(** Consumer 11 has finished its scan but not stored the result when consumer
    12 reads both commits and stores its own, newer result. *)
Definition scans_overtake : list event :=
  two_commits ++ get_sync 11 ++ get 11 ++ replicate 8 (Scan 11) ++
  get_sync 12 ++ get_sync 12 ++ [Scan 11].

Definition after (l : list event) : World := world_after Sequential_sync [[0]; [0]] l.

(** Consumer [k] is registered and has read every commit. *)
Definition up_to_date (k : Z) w : Prop :=
  match consumers w !! k with
  | Some c => is_Some (heartbeat_slot c) ∧ ids_released w k = seqZ 0 (C w)
  | None => False
  end.

(** A [Sequential_sync] ring can lock up for good although every registered
    consumer has read every commit: once because the consumer that was behind
    left, and once with nobody leaving, because the store of an older scan
    overwrote a newer [read_index].  From there on no sequence of calls (short
    of a new consumer) commits or reads anything again. *)
Theorem sync_ring_can_stall :
  ∀ run, run = slow_consumer_leaves ∨ run = scans_overtake →
  let w := after run in
  reaches (allowed Sequential_sync) Sequential_sync w ∧
  up_to_date 11 w ∧ (run = scans_overtake → up_to_date 12 w) ∧
  ∀ l w', run_events l w = Some w' → (∀ pid, Join pid ∉ l) →
    committed w' = [[100]; [101]] ∧ released w' = released w.
Proof.
  intros run Hrun w.
  assert (Hst : stalled w ∧ committed w = [[100]; [101]]).
  { destruct Hrun as [-> | ->]; (split; [|by vm_compute]);
      (split_and!; [by vm_compute|by vm_compute|by vm_compute|]);
      apply (bool_decide_unpack _); by vm_compute. }
  destruct Hst as [Hst Hc]. split_and!.
  - by apply world_after_reaches.
  - destruct Hrun as [-> | ->]; (vm_compute; split; [by eexists|done]).
  - intros ->. vm_compute. split; [by eexists|done].
  - intros l w' Hl Hj. rewrite <- Hc. by eapply stalled_forever.
Qed.

Lemma sync_ring_can_stall_witness :
  let w := after scans_overtake in
  reaches (allowed Sequential_sync) Sequential_sync w ∧ up_to_date 11 w.
Proof.
  intros w. destruct (sync_ring_can_stall scans_overtake) as (H1 & H2 & _);
    [by right|by split].
Defined.

(** ** Joining late *)

(** Consumer 12 joins after the first commit was read by everybody; the
    producer, for which that slot is free, goes once around the ring. *)
Definition late_join : list event :=
  [Join 11] ++ put [100] ++ get_sync 11 ++ [Join 12] ++ put [101] ++ put [102] ++ take 12.

Definition unrestricted (policy : ConsumerSyncPolicy) (l : list event) : World :=
  let w0 := start policy [[0]; [0]] in default w0 (run_events l w0).

Definition after_late_join : World := unrestricted Sequential_sync late_join.

Fixpoint run_within_bounds (l : list event) w : option World :=
  match l with
  | [] => Some w
  | e :: l =>
      if (C w <? 2 ^ 64 - 2) && (Z.of_nat (size (consumers w)) + 1 <? 2 ^ 32)
      then run_event e w ≫= run_within_bounds l else None
  end.

Lemma run_within_bounds_reaches policy l w w' :
  reaches (λ _ _, True) policy w → run_within_bounds l w = Some w' →
  reaches (λ _ _, True) policy w'.
Proof.
  revert w. induction l as [|e l IH]; intros w HR Hl; [by injection Hl as <-|].
  cbn in Hl. destruct (_ && _) eqn:Hg; [|done]. bool_facts.
  apply bind_Some in Hl as (w1 & Hrun & Hl). apply (IH w1); [|done].
  apply (reaches_event _ _ e w); try done; unfold C in *; lia.
Qed.

(** A consumer that joins a running [Sequential_sync] ring is given the
    position of the newest commit, but the slot of that commit may be free for
    the producer already: the consumer then takes its first slot under an id
    whose bytes are another commit's, and the generation check at the release
    accepts them. *)
Theorem late_joiner_reads_another_commit :
  let w := after_late_join in
  reaches (λ _ _, True) Sequential_sync w ∧
  ∃ c g s, consumers w !! 12 = Some c ∧ cpc c = CHolding 0 g ∧
    slot_at (block w) 0 = Some s ∧ write_generation (srw s) = g ∧
    committed w = [[100]; [101]; [102]] ∧ bytes s = [102] ∧
    ∃ w', run_event (Give 12 true true) w = Some w' ∧ ids_released w' 12 = [0].
Proof.
  intros w. split.
  - apply (run_within_bounds_reaches Sequential_sync late_join (start Sequential_sync [[0]; [0]]));
      [by apply reaches_start|by vm_compute].
  - exists (mkConsumer (Some 1%nat) INVALID_SLOT_ID (CHolding 0 2)), 2,
      (mkSlot (mkSlotRWState 0 1 COMMITTED 0 2) [102]).
    do 6 (split; [by vm_compute|]).
    exists (default w (run_event (Give 12 true true) w)). split; by vm_compute.
Qed.

(** ** Choosing and reading are two steps *)

(** A [Latest_only] consumer picks commit 0; the producer, which this policy
    does not hold back, goes once around the ring before the [acquire_read]. *)
Definition overtaken_choice : list event :=
  [Join 11] ++ put [100] ++ [Choose 11 true] ++ put [101] ++ put [102] ++ [Take 11 true].

Definition after_overtaken_choice : World := world_after Latest_only [[0]; [0]] overtaken_choice.

(** The handle it gets says slot id 0 and carries the bytes of commit 2: the
    generation is captured after the choice, so the release accepts it.  What
    the consumer remembers as its last slot id is 0, and its next call is given
    commit 2 once more. *)
Theorem latest_reader_takes_a_newer_commit :
  let w := after_overtaken_choice in
  reaches (allowed Latest_only) Latest_only w ∧
  ∃ c g s, consumers w !! 11 = Some c ∧ cpc c = CHolding 0 g ∧
    slot_at (block w) 0 = Some s ∧ write_generation (srw s) = g ∧
    committed w = [[100]; [101]; [102]] ∧ bytes s = [102] ∧
    ∃ w' c' g', run_events ([Give 11 true true] ++ take 11) w = Some w' ∧
      ids_released w' 11 = [0] ∧ consumers w' !! 11 = Some c' ∧ cpc c' = CHolding 2 g'.
Proof.
  intros w. split; [by apply world_after_reaches|].
  exists (mkConsumer (Some 0%nat) INVALID_SLOT_ID (CHolding 0 2)), 2,
    (mkSlot (mkSlotRWState 0 1 COMMITTED 0 2) [102]).
  do 6 (split; [by vm_compute|]).
  exists (default w (run_events ([Give 11 true true] ++ take 11) w)),
    (mkConsumer (Some 0%nat) 0 (CHolding 2 2)), 2.
  split_and!; by vm_compute.
Qed.

End RingStall.
