(* ===== verification/Topology.v ===== *)
(** * Topological sorting of the module graph

    Models [LifecycleManagerImpl::topologicalSort] of
    [src/utils/service/lifecycle_topology.cpp]: Kahn's algorithm over the nodes
    it is given, with a degree map, a queue that is never shortened but read
    through a moving head, and the comparison of sizes that detects a cycle.
    A node is named by its module name; [dependents] is the edge list the graph
    keeps in each node. *)

From S2P Require Import Prelude.

Module Topology.

Section sort.
Context (dependents : string → list string).
Implicit Types (nodes queue sorted : list string) (deg : gmap string Z).

(** [in_degrees[node] = 0] for every node given. *)
Definition zero_degrees nodes : gmap string Z := foldl (λ d n, <[n := 0]> d) ∅ nodes.

(** [if (in_degrees.contains(dep)) in_degrees[dep]++]. *)
Definition count_dependent deg (dep : string) : gmap string Z :=
  match deg !! dep with Some x => <[dep := u64_succ x]> deg | None => deg end.

Definition in_degrees nodes : gmap string Z :=
  foldl (λ d n, foldl count_dependent d (dependents n)) (zero_degrees nodes) nodes.

Definition zero_degree_queue nodes deg : list string :=
  filter (λ n, deg !! n = Some 0) nodes.

(** [if (in_degrees.contains(dep) && --in_degrees[dep] == 0) queue.push_back(dep)]. *)
Definition release_dependent (acc : gmap string Z * list string) (dep : string) :
    gmap string Z * list string :=
  match acc.1 !! dep with
  | Some x =>
      let x' := u64 (x - 1) in
      (<[dep := x']> acc.1, if bool_decide (x' = 0) then acc.2 ++ [dep] else acc.2)
  | None => acc
  end.

(** The loop over the queue; the part behind the head is [sorted]. *)
Fixpoint drain (fuel : nat) deg queue sorted : option (gmap string Z * list string) :=
  match queue, fuel with
  | [], _ => Some (deg, sorted)
  | _ :: _, O => None
  | current :: queue, S fuel =>
      let '(deg, queue) := foldl release_dependent (deg, queue) (dependents current) in
      drain fuel deg queue (sorted ++ [current])
  end.

(** The order, or the nodes named in the exception. *)
Definition topologicalSort nodes : option (list string + list string) :=
  let deg := in_degrees nodes in
  r ← drain (length nodes) deg (zero_degree_queue nodes deg) [];
  let '(deg, sorted_order) := r in
  Some (if bool_decide (length sorted_order = length nodes) then inl sorted_order
        else inr (filter (λ n, 0 < default 0 (deg !! n)) nodes)).

(** ** Counting edges *)

Definition occ (n : string) (l : list string) : nat := length (filter (λ x, x = n) l).

Definition edges_from (l : list string) : list string := mjoin (dependents <$> l).

Lemma occ_nil n : occ n [] = 0%nat.
Proof. done. Qed.

Lemma occ_app n l1 l2 : occ n (l1 ++ l2) = (occ n l1 + occ n l2)%nat.
Proof. unfold occ. by rewrite filter_app, length_app. Qed.

Lemma occ_cons n x l : occ n (x :: l) = ((if decide (x = n) then 1 else 0) + occ n l)%nat.
Proof. unfold occ. rewrite filter_cons. by case_decide. Qed.

Lemma occ_pos n l : n ∈ l ↔ (0 < occ n l)%nat.
Proof.
  induction l as [|x l IH]; [rewrite occ_nil, elem_of_nil; lia|].
  rewrite occ_cons, elem_of_cons, IH. case_decide as Hx.
  - split; [lia|by left].
  - split; [intros [->|?]; [done|lia]|right; lia].
Qed.

Lemma occ_le n l : (occ n l ≤ length l)%nat.
Proof. apply length_filter. Qed.

#[global] Instance occ_perm n : Proper ((≡ₚ) ==> eq) (occ n).
Proof. intros l1 l2 Hp. unfold occ. by rewrite Hp. Qed.

#[global] Instance edges_from_perm : Proper ((≡ₚ) ==> (≡ₚ)) edges_from.
Proof. intros l1 l2 Hp. unfold edges_from. by rewrite Hp. Qed.

Lemma edges_from_cons m l : edges_from (m :: l) = dependents m ++ edges_from l.
Proof. done. Qed.

Lemma edges_from_snoc m l : edges_from (l ++ [m]) = edges_from l ++ dependents m.
Proof. unfold edges_from. rewrite fmap_app, join_app. cbn. by rewrite app_nil_r. Qed.

Lemma elem_of_edges_from n l : n ∈ edges_from l ↔ ∃ m, m ∈ l ∧ n ∈ dependents m.
Proof.
  unfold edges_from. rewrite list_elem_of_join. split.
  - intros (d & Hn & (m & -> & Hm)%list_elem_of_fmap). eauto.
  - intros (m & Hm & Hn). exists (dependents m). split; [done|]. by apply list_elem_of_fmap_2.
Qed.

(** The nodes not yet sorted, and the edges from them. *)
Definition rest nodes sorted : list string := filter (λ n, n ∉ sorted) nodes.
Definition need nodes sorted (n : string) : nat := occ n (edges_from (rest nodes sorted)).

Lemma rest_cons nodes sorted n :
  NoDup nodes → n ∈ nodes → n ∉ sorted →
  rest nodes sorted ≡ₚ n :: rest nodes (sorted ++ [n]).
Proof.
  intros Hd Hn Hs. apply NoDup_Permutation.
  - by apply NoDup_filter.
  - apply NoDup_cons. split; [|by apply NoDup_filter].
    unfold rest. rewrite list_elem_of_filter. set_solver.
  - intros x. unfold rest. rewrite elem_of_cons, !list_elem_of_filter.
    destruct (decide (x = n)) as [->|Hx]; [naive_solver|]. set_solver.
Qed.

Lemma need_step nodes sorted n x :
  NoDup nodes → n ∈ nodes → n ∉ sorted →
  need nodes sorted x = (occ x (dependents n) + need nodes (sorted ++ [n]) x)%nat.
Proof.
  intros Hd Hn Hs. unfold need. rewrite (rest_cons _ _ n) by done.
  by rewrite edges_from_cons, occ_app.
Qed.

Lemma need_le nodes sorted x : (need nodes sorted x ≤ length (edges_from nodes))%nat.
Proof.
  unfold need. etrans; [apply occ_le|]. unfold rest.
  induction nodes as [|n nodes IH]; [done|].
  rewrite filter_cons. case_decide; rewrite !edges_from_cons, ?length_app; lia.
Qed.

Lemma need_zero nodes sorted n m :
  need nodes sorted n = 0%nat → m ∈ nodes → n ∈ dependents m → m ∈ sorted.
Proof.
  intros Hz Hm He. destruct (decide (m ∈ sorted)); [done|exfalso].
  assert (n ∈ edges_from (rest nodes sorted)) as Hin.
  { apply elem_of_edges_from. exists m. split; [|done]. by apply list_elem_of_filter. }
  apply occ_pos in Hin. unfold need in Hz. lia.
Qed.

(** ** The degree map *)

Lemma zero_degrees_lookup nodes n :
  zero_degrees nodes !! n = if decide (n ∈ nodes) then Some 0 else None.
Proof.
  unfold zero_degrees. induction nodes as [|x nodes IH] using rev_ind; [done|].
  rewrite foldl_app. cbn. destruct (decide (n = x)) as [->|Hn].
  - rewrite lookup_insert_eq, decide_True; [done|set_solver].
  - rewrite lookup_insert_ne, IH by done.
    destruct (decide (n ∈ nodes)); [rewrite decide_True|rewrite decide_False]; set_solver.
Qed.

Lemma count_dependents_lookup l deg n x :
  deg !! n = Some (Z.of_nat x) → Z.of_nat x + Z.of_nat (length l) <= u64_max →
  foldl count_dependent deg l !! n = Some (Z.of_nat (x + occ n l)).
Proof.
  revert deg x. induction l as [|y l IH]; intros deg x Hn Hb; [by rewrite occ_nil, Nat.add_0_r|].
  cbn [foldl length] in *. rewrite occ_cons. destruct (decide (y = n)) as [->|Hy].
  - rewrite (IH _ (S x)); [f_equal; lia| |lia].
    unfold count_dependent. rewrite Hn, lookup_insert_eq, u64_succ_id by lia. f_equal. lia.
  - rewrite (IH _ x); [f_equal; lia| |lia].
    unfold count_dependent. destruct (deg !! y); [by rewrite lookup_insert_ne|done].
Qed.

Lemma count_dependents_absent l deg n : deg !! n = None → foldl count_dependent deg l !! n = None.
Proof.
  revert deg. induction l as [|y l IH]; intros deg Hn; [done|]. cbn. apply IH.
  unfold count_dependent. destruct (deg !! y) eqn:Hy; [|done].
  rewrite lookup_insert_ne; [done|congruence].
Qed.

Lemma in_degrees_lookup nodes n :
  Z.of_nat (length (edges_from nodes)) <= u64_max →
  in_degrees nodes !! n =
    if decide (n ∈ nodes) then Some (Z.of_nat (occ n (edges_from nodes))) else None.
Proof.
  intros Hb. unfold in_degrees.
  assert (∀ l, Z.of_nat (length (edges_from l)) <= u64_max →
    foldl (λ d m, foldl count_dependent d (dependents m)) (zero_degrees nodes) l !! n =
    if decide (n ∈ nodes) then Some (Z.of_nat (occ n (edges_from l))) else None) as H; [|by apply H].
  induction l as [|m l IH] using rev_ind; intros Hl.
  - cbn. rewrite zero_degrees_lookup. by case_decide.
  - rewrite edges_from_snoc, length_app in Hl. rewrite edges_from_snoc, occ_app.
    rewrite foldl_app. cbn. pose proof (occ_le n (edges_from l)) as Ho.
    specialize (IH ltac:(lia)). destruct (decide (n ∈ nodes)).
    + erewrite count_dependents_lookup; [done|exact IH|lia].
    + by apply count_dependents_absent.
Qed.

(** ** The loop *)

Record DrainInv nodes deg queue sorted : Prop := mkDrainInv {
  di_nodup : NoDup (sorted ++ queue);
  di_sub : ∀ n, n ∈ sorted ++ queue → n ∈ nodes;
  di_deg : ∀ n, deg !! n =
    if decide (n ∈ nodes) then Some (Z.of_nat (need nodes sorted n)) else None;
  di_zero : ∀ n, n ∈ nodes → n ∈ sorted ++ queue ↔ need nodes sorted n = 0%nat;
  di_order : ∀ l1 n l2 m, sorted = l1 ++ n :: l2 → m ∈ nodes → n ∈ dependents m → m ∈ l1;
}.

(** Releasing the dependents of [n], a prefix [l1] of them being done. *)
Record ReleaseInv nodes n (l1 : list string) deg queue sorted : Prop := mkReleaseInv {
  re_nodup : NoDup (sorted ++ n :: queue);
  re_sub : ∀ x, x ∈ queue → x ∈ nodes;
  re_deg : ∀ x, deg !! x =
    if decide (x ∈ nodes) then Some (Z.of_nat (need nodes sorted x - occ x l1)) else None;
  re_zero : ∀ x, x ∈ nodes → x ∈ sorted ++ n :: queue ↔ need nodes sorted x = occ x l1;
}.

Lemma release_all nodes n deg queue sorted :
  NoDup nodes → n ∈ nodes → n ∉ sorted → Z.of_nat (length (edges_from nodes)) <= u64_max →
  ∀ l2 l1, dependents n = l1 ++ l2 → ReleaseInv nodes n l1 deg queue sorted →
  ∃ deg' queue', foldl release_dependent (deg, queue) l2 = (deg', queue') ∧
    ReleaseInv nodes n (dependents n) deg' queue' sorted.
Proof.
  intros Hd Hn Hs Hb l2. revert deg queue.
  induction l2 as [|y l2 IH]; intros deg queue l1 Hl HI.
  { rewrite app_nil_r in Hl. subst l1. by exists deg, queue. }
  assert (Hl' : dependents n = (l1 ++ [y]) ++ l2) by (by rewrite <- app_assoc).
  assert (Hneed : ∀ x, (occ x l1 + (if decide (y = x) then 1 else 0) ≤ need nodes sorted x)%nat).
  { intros x. rewrite (need_step _ _ n) by done. rewrite Hl, occ_app, occ_cons. lia. }
  assert (Hocc : ∀ x, occ x (l1 ++ [y]) = (occ x l1 + (if decide (y = x) then 1 else 0))%nat).
  { intros x. rewrite occ_app, occ_cons, occ_nil. lia. }
  cbn [foldl]. unfold release_dependent at 2. cbn [fst snd].
  rewrite (re_deg _ _ _ _ _ _ HI y). destruct (decide (y ∈ nodes)) as [Hy|Hy].
  - pose proof (need_le nodes sorted y) as Hle. pose proof (Hneed y) as Hny.
    rewrite decide_True in Hny by done.
    rewrite u64_id by (unfold u64_max in *; lia).
    assert (Hynew : y ∉ sorted ++ n :: queue).
    { intros Hin. apply (re_zero _ _ _ _ _ _ HI) in Hin; [lia|done]. }
    apply (IH _ _ (l1 ++ [y])); [done|]. case_bool_decide as Hz; constructor.
    + rewrite app_comm_cons, app_assoc. apply NoDup_app. split_and!.
      * apply (re_nodup _ _ _ _ _ _ HI).
      * set_solver.
      * by apply NoDup_singleton.
    + intros x [Hx|Hx]%elem_of_app; [by apply (re_sub _ _ _ _ _ _ HI)|set_solver].
    + intros x. rewrite Hocc. destruct (decide (y = x)) as [<-|Hx].
      * rewrite lookup_insert_eq, decide_True by done. f_equal. lia.
      * rewrite lookup_insert_ne, (re_deg _ _ _ _ _ _ HI) by done. by rewrite Nat.add_0_r.
    + intros x Hx. rewrite Hocc. destruct (decide (y = x)) as [<-|Hne].
      * split; [lia|]. intros _. set_solver.
      * rewrite Nat.add_0_r, <- (re_zero _ _ _ _ _ _ HI x Hx). set_solver.
    + apply (re_nodup _ _ _ _ _ _ HI).
    + apply (re_sub _ _ _ _ _ _ HI).
    + intros x. rewrite Hocc. destruct (decide (y = x)) as [<-|Hx].
      * rewrite lookup_insert_eq, decide_True by done. f_equal. lia.
      * rewrite lookup_insert_ne, (re_deg _ _ _ _ _ _ HI) by done. by rewrite Nat.add_0_r.
    + intros x Hx. rewrite Hocc. destruct (decide (y = x)) as [<-|Hne].
      * split; [done|lia].
      * rewrite Nat.add_0_r. by apply (re_zero _ _ _ _ _ _ HI).
  - apply (IH _ _ (l1 ++ [y])); [done|].
    assert (Hsame : ∀ x, x ∈ nodes → occ x (l1 ++ [y]) = occ x l1).
    { intros x Hx. rewrite Hocc. destruct (decide (y = x)) as [<-|]; [done|lia]. }
    constructor.
    + apply (re_nodup _ _ _ _ _ _ HI).
    + apply (re_sub _ _ _ _ _ _ HI).
    + intros x. rewrite (re_deg _ _ _ _ _ _ HI). case_decide; [|done]. by rewrite Hsame.
    + intros x Hx. rewrite Hsame by done. by apply (re_zero _ _ _ _ _ _ HI).
Qed.

Lemma drain_step nodes deg n queue sorted :
  NoDup nodes → Z.of_nat (length (edges_from nodes)) <= u64_max →
  DrainInv nodes deg (n :: queue) sorted →
  ∃ deg' queue', foldl release_dependent (deg, queue) (dependents n) = (deg', queue') ∧
    DrainInv nodes deg' queue' (sorted ++ [n]).
Proof.
  intros Hd Hb HI. pose proof (di_nodup _ _ _ _ HI) as Hnd.
  assert (Hn : n ∈ nodes) by (apply (di_sub _ _ _ _ HI); set_solver).
  assert (Hs : n ∉ sorted).
  { apply NoDup_app in Hnd as (_ & Hx & _). intros Hin. apply (Hx n Hin). by left. }
  destruct (release_all nodes n deg queue sorted Hd Hn Hs Hb (dependents n) [] eq_refl)
    as (deg' & queue' & Hf & HR).
  { constructor; [done| | |].
    - intros x Hx. apply (di_sub _ _ _ _ HI). set_solver.
    - intros x. rewrite (di_deg _ _ _ _ HI), occ_nil. by rewrite Nat.sub_0_r.
    - intros x Hx. rewrite occ_nil. by apply (di_zero _ _ _ _ HI). }
  exists deg', queue'. split; [done|].
  assert (Hneed : ∀ x, need nodes (sorted ++ [n]) x
                       = (need nodes sorted x - occ x (dependents n))%nat).
  { intros x. rewrite (need_step nodes sorted n x) by done. lia. }
  assert (Hge : ∀ x, (occ x (dependents n) ≤ need nodes sorted x)%nat).
  { intros x. rewrite (need_step nodes sorted n x) by done. lia. }
  constructor.
  - rewrite <- app_assoc. apply (re_nodup _ _ _ _ _ _ HR).
  - intros x. rewrite <- app_assoc. cbn. rewrite elem_of_app, elem_of_cons.
    intros [Hx|[->|Hx]]; [apply (di_sub _ _ _ _ HI); set_solver|done|].
    by apply (re_sub _ _ _ _ _ _ HR).
  - intros x. rewrite Hneed. apply (re_deg _ _ _ _ _ _ HR).
  - intros x Hx. rewrite <- app_assoc. cbn. rewrite (re_zero _ _ _ _ _ _ HR x Hx), Hneed.
    pose proof (Hge x). lia.
  - intros l1 x l2 m Hl Hm He. destruct l2 as [|y l2] using rev_ind.
    + apply app_inj_tail in Hl as [<- <-]. eapply need_zero; [|done|done].
      apply (di_zero _ _ _ _ HI); [done|]. set_solver.
    + rewrite app_comm_cons, app_assoc in Hl. apply app_inj_tail in Hl as [-> _].
      by eapply (di_order _ _ _ _ HI).
Qed.

Lemma drain_total nodes fuel : ∀ deg queue sorted,
  NoDup nodes → Z.of_nat (length (edges_from nodes)) <= u64_max →
  DrainInv nodes deg queue sorted → (length nodes ≤ length sorted + fuel)%nat →
  ∃ deg' sorted', drain fuel deg queue sorted = Some (deg', sorted') ∧
    DrainInv nodes deg' [] sorted'.
Proof.
  induction fuel as [|fuel IH]; intros deg [|n queue] sorted Hd Hb HI Hf; try by exists deg, sorted.
  - exfalso. assert (length (sorted ++ n :: queue) ≤ length nodes)%nat as Hlen.
    { apply submseteq_length, NoDup_submseteq; [apply (di_nodup _ _ _ _ HI)|].
      apply (di_sub _ _ _ _ HI). }
    rewrite length_app in Hlen. cbn in Hlen. lia.
  - destruct (drain_step nodes deg n queue sorted Hd Hb HI) as (deg' & queue' & Hs & HI').
    cbn [drain]. rewrite Hs. apply IH; try done. rewrite length_app. cbn. lia.
Qed.

(** ** Cycles *)

Definition edge nodes (m n : string) : Prop := m ∈ nodes ∧ n ∈ nodes ∧ n ∈ dependents m.
Definition cyclic nodes : Prop := ∃ n, tc (edge nodes) n n.

(** [order] lists every node after the nodes it depends on. *)
Definition respects nodes (order : list string) : Prop :=
  ∀ l1 n l2 m, order = l1 ++ n :: l2 → edge nodes m n → m ∈ l1.

Lemma respects_acyclic nodes order :
  order ≡ₚ nodes → NoDup nodes → respects nodes order → ¬ cyclic nodes.
Proof.
  intros Hp Hd Hr [n Hc].
  assert (∀ x y, tc (edge nodes) x y → ∀ l1 l2, order = l1 ++ y :: l2 → x ∈ l1) as H.
  { induction 1 as [x y He|x y z He Ht IH]; intros l1 l2 Hl.
    - by eapply Hr.
    - pose proof (IH _ _ Hl) as Hy. apply list_elem_of_split in Hy as (k1 & k2 & ->).
      rewrite <- app_assoc in Hl. cbn in Hl. apply elem_of_app. left. by eapply Hr. }
  assert (n ∈ order) as Hn.
  { rewrite Hp. by inversion Hc as [? ? He|? ? ? He]; destruct He. }
  apply list_elem_of_split in Hn as (l1 & l2 & Hl).
  pose proof (H n n Hc l1 l2 Hl) as Hin. rewrite <- Hp, Hl in Hd.
  apply NoDup_app in Hd as (_ & Hx & _). apply (Hx n Hin). by left.
Qed.

(** A set of nodes each of which has a predecessor in the set has a cycle. *)
Lemma backward_chain nodes (S : list string) n :
  (∀ x, x ∈ S → ∃ m, m ∈ S ∧ edge nodes m x) → n ∈ S →
  ∀ k, ∃ l, length l = k ∧ (∀ x, x ∈ l → x ∈ S) ∧
            (∀ x, x ∈ l → ∀ l1 l2, l = l1 ++ x :: l2 → ∀ y, y ∈ l1 → tc (edge nodes) y x) ∧
            ∃ h, h ∈ S ∧ ∀ x, x ∈ l → tc (edge nodes) h x.
Proof.
  intros HS Hn k. induction k as [|k (l & Hlen & Hsub & Hpath & h & Hh & Hhead)].
  - exists []. split_and!; [done|set_solver|set_solver|]. exists n. split; [done|set_solver].
  - exists (h :: l). split_and!; [by cbn; f_equal|set_solver| |].
    + intros x Hx l1 l2 Hl y Hy. destruct l1 as [|z l1]; [set_solver|].
      injection Hl as <- Hl. apply elem_of_cons in Hy as [->|Hy].
      * apply Hhead. set_solver.
      * eapply Hpath; [|done|done]. set_solver.
    + destruct (HS h Hh) as (m & Hm & He). exists m. split; [done|].
      intros x [->|Hx]%elem_of_cons; [by apply tc_once|]. eapply tc_l; [done|]. by apply Hhead.
Qed.

Lemma not_NoDup_split {A} `{EqDecision A} (l : list A) :
  ¬ NoDup l → ∃ l1 x l2, l = l1 ++ x :: l2 ∧ x ∈ l1.
Proof.
  induction l as [|y l IH] using rev_ind; intros Hd; [by destruct Hd; constructor|].
  destruct (decide (NoDup l)) as [Hl|Hl].
  - exists l, y, []. split; [done|]. destruct (decide (y ∈ l)); [done|]. destruct Hd.
    apply NoDup_app. split_and!; [done|set_solver|apply NoDup_singleton].
  - destruct (IH Hl) as (l1 & x & l2 & -> & Hx). exists l1, x, (l2 ++ [y]).
    by rewrite <- app_assoc.
Qed.

Lemma predecessors_cyclic nodes (S : list string) n :
  n ∈ S → (∀ x, x ∈ S → ∃ m, m ∈ S ∧ edge nodes m x) → cyclic nodes.
Proof.
  intros Hn HS.
  destruct (backward_chain nodes S n HS Hn (length S + 1)) as (l & Hlen & Hsub & Hpath & _).
  destruct (not_NoDup_split l) as (l1 & x & l2 & -> & Hx).
  { intros Hd. pose proof (submseteq_length _ _ (NoDup_submseteq _ _ Hd Hsub)). lia. }
  exists x. eapply (Hpath x); [set_solver|done|done].
Qed.

(** ** Correctness *)

Lemma topologicalSort_spec nodes :
  NoDup nodes → Z.of_nat (length (edges_from nodes)) <= u64_max →
  (∃ order, topologicalSort nodes = Some (inl order) ∧ order ≡ₚ nodes ∧ respects nodes order ∧
            ¬ cyclic nodes) ∨
  (∃ bad, topologicalSort nodes = Some (inr bad) ∧ cyclic nodes ∧ bad ≠ [] ∧
          ∀ n, n ∈ bad → ∃ m, m ∈ bad ∧ edge nodes m n).
Proof.
  intros Hd Hb. unfold topologicalSort.
  assert (Hrest : rest nodes [] = nodes) by (apply filter_all; set_solver).
  destruct (drain_total nodes (length nodes) (in_degrees nodes)
              (zero_degree_queue nodes (in_degrees nodes)) []) as (deg & sorted & -> & HI); try done.
  { unfold zero_degree_queue. constructor.
    - by apply NoDup_filter.
    - intros n. cbn. rewrite list_elem_of_filter. tauto.
    - intros n. rewrite in_degrees_lookup by done. unfold need. by rewrite Hrest.
    - intros n Hn. cbn. rewrite list_elem_of_filter, in_degrees_lookup, decide_True by done.
      unfold need. rewrite Hrest. split; [intros [Heq _]; apply (inj Some) in Heq; lia|].
      intros ->. done.
    - intros l1 n l2 m Hl. by destruct l1. }
  cbn. pose proof (di_nodup _ _ _ _ HI) as Hnd. rewrite app_nil_r in Hnd.
  assert (Hsub : ∀ n, n ∈ sorted → n ∈ nodes).
  { intros n Hn. apply (di_sub _ _ _ _ HI). by rewrite app_nil_r. }
  case_bool_decide as Hlen.
  - left. exists sorted. split; [done|].
    assert (Hp : sorted ≡ₚ nodes).
    { apply submseteq_length_Permutation; [by apply NoDup_submseteq|lia]. }
    assert (Hr : respects nodes sorted).
    { intros l1 n l2 m Hl (Hm & _ & He). by eapply (di_order _ _ _ _ HI). }
    split_and!; try done. by eapply respects_acyclic.
  - right. eexists. split; [done|].
    assert (Hbad : ∀ n, n ∈ filter (λ n, 0 < default 0 (deg !! n)) nodes
                        ↔ n ∈ rest nodes sorted).
    { intros n. unfold rest. rewrite !list_elem_of_filter, (di_deg _ _ _ _ HI).
      split; intros [Hn1 Hn2]; (split; [|done]); rewrite decide_True in * by done; cbn in *.
      - intros Hin. assert (n ∈ sorted ++ []) as Hin' by (by rewrite app_nil_r).
        apply (di_zero _ _ _ _ HI) in Hin'; [lia|done].
      - destruct (decide (need nodes sorted n = 0%nat)) as [Hz|]; [|lia].
        apply (di_zero _ _ _ _ HI) in Hz; [|done]. by rewrite app_nil_r in Hz. }
    assert (Hne : rest nodes sorted ≠ []).
    { intros He. apply Hlen. apply Permutation_length. apply submseteq_length_Permutation.
      - by apply NoDup_submseteq.
      - apply submseteq_length, NoDup_submseteq; [done|]. intros n Hn.
        destruct (decide (n ∈ sorted)); [done|]. exfalso.
        assert (n ∈ rest nodes sorted) as Hin by (by apply list_elem_of_filter).
        rewrite He in Hin. set_solver. }
    assert (Hpred : ∀ n, n ∈ rest nodes sorted → ∃ m, m ∈ rest nodes sorted ∧ edge nodes m n).
    { intros n Hn. assert (Hn' := Hn). apply list_elem_of_filter in Hn' as [Hns Hnn].
      assert (0 < need nodes sorted n)%nat as Hpos.
      { destruct (decide (need nodes sorted n = 0%nat)) as [Hz|]; [|lia].
        apply (di_zero _ _ _ _ HI) in Hz; [|done]. by rewrite app_nil_r in Hz. }
      apply occ_pos, elem_of_edges_from in Hpos as (m & Hm & He). exists m. split; [done|].
      apply list_elem_of_filter in Hm as [_ Hm]. done. }
    assert (∃ n, n ∈ rest nodes sorted) as [n0 Hn0].
    { destruct (rest nodes sorted) as [|n l]; [done|]. exists n. by left. }
    split_and!.
    + by eapply predecessors_cyclic.
    + apply Hbad in Hn0. intros He. rewrite He in Hn0. by apply elem_of_nil in Hn0.
    + intros n Hn. apply Hbad in Hn. destruct (Hpred n Hn) as (m & Hm & He). exists m.
      split; [by apply Hbad|done].
Qed.

End sort.

End Topology.
