(* ===== verification/Lifecycle.v ===== *)
(** * The lifecycle manager

    Models [LifecycleManagerImpl] of [src/utils/service/]: [lifecycle.cpp]
    (registration, initialisation, finalisation), [lifecycle_topology.cpp]
    (construction of the graph; the sort is in [Topology]),
    [lifecycle_dynamic.cpp] (loading, unloading, the shutdown thread,
    reference counts) and the helpers of [lifecycle_helpers.cpp].

    Every operation that the code runs under [m_graph_mutation_mutex] is one
    atomic event.  The shutdown thread takes the mutex twice per module, before
    and after the shutdown callback, and these are two events, so that other
    calls come in between.  [std::map] is a [gmap] traversed in the order of
    the names.  What a callback does is data of the module: it returns, throws
    a [std::exception] or throws something else, after some time or never. *)

From stdpp Require Import sorting.
From S2P Require Import Prelude.
From S2P Require Import Topology.
Import Topology.

Module Lifecycle.

(** ** Data *)

Inductive ModuleStatus :=
  | Registered | Initializing | Started | Failed | Shutdown | FailedShutdown | ShutdownTimeout.

Inductive DynamicModuleStatus :=
  | UNLOADED | LOADING | LOADED | FAILED | UNLOADING | SHUTDOWN_TIMEOUT | FAILED_SHUTDOWN.

#[global] Instance ModuleStatus_eq_dec : EqDecision ModuleStatus.
Proof. solve_decision. Defined.
#[global] Instance DynamicModuleStatus_eq_dec : EqDecision DynamicModuleStatus.
Proof. solve_decision. Defined.

Module DynModuleState.
Inductive t :=
  | NotRegistered | Unloaded | Loading | Loaded | Unloading | ShutdownTimeout | ShutdownFailed.
End DynModuleState.

Inductive Outcome := Returns | ThrowsStd | ThrowsOther.

(** A callback ends as [result] says after [lasts_ms], or never ends. *)
Record Callback := mkCallback { result : Outcome; lasts_ms : option Z }.

(** When a user-data validator is asked. *)
Inductive Phase := AtLoad | AtUnload.

Definition MAX_MODULE_NAME_LEN : nat := 256.

Record InternalModuleDef := mkDef {
  name : string;
  dependencies : list string;
  startup : option Outcome;
  shutdown_func : option Callback;
  shutdown_timeout : Z;
  is_persistent : bool;
  owner_managed_teardown : bool;
  synchronous_shutdown : bool;
  userdata_key : Z;
  userdata_validate : option (Phase → bool);
}.

(** A node holds the fields of its definition. *)
Record InternalGraphNode := mkNode {
  def : InternalModuleDef;
  dependents : list string;
  status : ModuleStatus;
  is_dynamic : bool;
  dynamic_status : DynamicModuleStatus;
  ref_count : Z;
}.
#[global] Instance eta_node : Eta InternalGraphNode := λ r,
  mkNode (def r) (dependents r) (status r) (is_dynamic r) (dynamic_status r) (ref_count r).

Abbreviation Graph := (gmap string InternalGraphNode).

(** The calls into the modules, in order: what the program observes.  A module
    without a callback is entered as well. *)
Inductive Call :=
  | CallStartup (name : string)
  | CallShutdown (name : string).

#[global] Instance Call_eq_dec : EqDecision Call.
Proof. solve_decision. Defined.

(** The shutdown thread: the recursion of [processOneUnloadInThread] as a
    stack of names, and the copy of the node whose callback is running. *)
Record Manager := mkManager {
  m_is_initialized : bool;
  m_is_finalized : bool;
  m_registered_modules : list InternalModuleDef;
  m_module_graph : Graph;
  m_startup_order : list string;
  m_marked_for_unload : gset string;
  m_contaminated_modules : gset string;
  m_dyn_shutdown_thread_started : bool;
  m_shutdown_queue : list string;
  m_dyn_shutdown_thread_stop : bool;
  m_pending_unload_closures : gmap string (gset string);
  thread_stack : list string;
  thread_running : option InternalGraphNode;
  calls : list Call;
}.
#[global] Instance eta_manager : Eta Manager := λ r,
  mkManager (m_is_initialized r) (m_is_finalized r) (m_registered_modules r) (m_module_graph r)
    (m_startup_order r) (m_marked_for_unload r) (m_contaminated_modules r)
    (m_dyn_shutdown_thread_started r) (m_shutdown_queue r) (m_dyn_shutdown_thread_stop r)
    (m_pending_unload_closures r) (thread_stack r) (thread_running r) (calls r).

Definition initial : Manager :=
  mkManager false false [] ∅ [] ∅ ∅ false [] false ∅ [] None [].

(** ** Helpers *)

(** [std::map] is traversed in the order of its keys. *)
Definition in_name_order {A} (m : gmap string A) : list (string * A) :=
  merge_sort (λ x y, Is_true (String.leb x.1 y.1)) (map_to_list m).

Definition validate_module_name (n : string) : bool :=
  negb (str_empty n) && bool_decide (String.length n ≤ MAX_MODULE_NAME_LEN)%nat.

Inductive ShutdownOutcome := Success | TimedOut | Threw.

Definition timedShutdown (func : option Callback) (timeout : Z) : ShutdownOutcome :=
  match func with
  | None => Success
  | Some c =>
      if match lasts_ms c with Some d => timeout <? d | None => true end then TimedOut
      else match result c with Returns => Success | _ => Threw end
  end.

(** [node.userdata_key != 0 && node.userdata_validate && !node.userdata_validate(...)]. *)
Definition validation_fails (d : InternalModuleDef) (p : Phase) : bool :=
  negb (userdata_key d =? 0) &&
  match userdata_validate d with Some v => negb (v p) | None => false end.

Definition dependents_in (g : Graph) (n : string) : list string :=
  match g !! n with Some node => dependents node | None => [] end.

Definition set_dynamic_status (st : DynamicModuleStatus) (n : string) (g : Graph) : Graph :=
  alter (λ node, node <| dynamic_status := st |>) n g.

Definition set_status (st : ModuleStatus) (n : string) (g : Graph) : Graph :=
  alter (λ node, node <| status := st |>) n g.

Definition add_dependent (n dep_name : string) (g : Graph) : Graph :=
  alter (λ node, node <| dependents ::= λ l, l ++ [n] |>) dep_name g.

(** [dynamic_status == LOADED] of a dynamic node. *)
Definition loaded (node : InternalGraphNode) : bool :=
  is_dynamic node && bool_decide (dynamic_status node = LOADED).

Definition node_dependencies (node : InternalGraphNode) : list string := dependencies (def node).

(** ** Initialisation *)

Inductive InitFailure :=
  | DuplicateModule (n : string)
  | UndefinedDependency (n : string)
  | CircularDependency (involving : list string)
  | StartupFailed (n : string).

(** The fields [buildStaticGraph] copies; the others keep their defaults. *)
Definition static_def (d : InternalModuleDef) : InternalModuleDef :=
  mkDef (name d) (dependencies d) (startup d) (shutdown_func d) (shutdown_timeout d)
    (is_persistent d) false false 0 None.

Fixpoint emplace_static (defs : list InternalModuleDef) (g : Graph) : InitFailure + Graph :=
  match defs with
  | [] => inr g
  | d :: defs =>
      if bool_decide (is_Some (g !! name d)) then inl (DuplicateModule (name d))
      else emplace_static defs
             (<[name d := mkNode (static_def d) [] Registered false UNLOADED 0]> g)
  end.

Fixpoint link_dependencies (n : string) (deps : list string) (g : Graph) : InitFailure + Graph :=
  match deps with
  | [] => inr g
  | dep_name :: deps =>
      if bool_decide (is_Some (g !! dep_name)) then link_dependencies n deps (add_dependent n dep_name g)
      else inl (UndefinedDependency dep_name)
  end.

Fixpoint link_all (entries : list (string * InternalGraphNode)) (g : Graph) : InitFailure + Graph :=
  match entries with
  | [] => inr g
  | (n, node) :: entries =>
      match link_dependencies n (node_dependencies node) g with
      | inl e => inl e
      | inr g => link_all entries g
      end
  end.

Definition buildStaticGraph (defs : list InternalModuleDef) (g : Graph) : InitFailure + Graph :=
  match emplace_static defs g with
  | inl e => inl e
  | inr g => link_all (in_name_order g) g
  end.

(** The start of the static modules in order; [inl] is the abort. *)
Fixpoint start_static (order : list string) (s : Manager) : (InitFailure * Manager) + Manager :=
  match order with
  | [] => inr s
  | n :: order =>
      let s := s <| m_module_graph ::= set_status Initializing n |> <| calls ::= λ l, l ++ [CallStartup n] |> in
      match m_module_graph s !! n ≫= (λ node, startup (def node)) with
      | None | Some Returns => start_static order (s <| m_module_graph ::= set_status Started n |>)
      | Some _ => inl (StartupFailed n, s <| m_module_graph ::= set_status Failed n |>)
      end
  end.

(** [inl] is [printStatusAndAbort]; [None] never happens, by the totality of
    the sort. *)
Definition initialize (s : Manager) : option ((InitFailure * Manager) + Manager) :=
  if m_is_initialized s then Some (inr s)
  else
    let s := s <| m_is_initialized := true |> in
    match buildStaticGraph (m_registered_modules s) (m_module_graph s) with
    | inl e => Some (inl (e, s))
    | inr g =>
        let s := s <| m_module_graph := g |> <| m_registered_modules := [] |> in
        let static_nodes :=
          (filter (λ x, is_dynamic x.2 = false) (in_name_order g)).*1 in
        r ← topologicalSort (dependents_in g) static_nodes;
        Some match r with
             | inr cycle_nodes => inl (CircularDependency cycle_nodes, s)
             | inl order => start_static order (s <| m_startup_order := order |>)
             end
    end.

(** [None] is the panic of a registration after initialisation. *)
Definition registerStaticModule (d : InternalModuleDef) (s : Manager) : option Manager :=
  if m_is_initialized s then None
  else Some (s <| m_registered_modules ::= λ l, l ++ [d] |>).

Definition registerDynamicModule (d : InternalModuleDef) (s : Manager) : bool * Manager :=
  let g := m_module_graph s in
  if negb (m_is_initialized s) || m_is_finalized s then (false, s)
  else if bool_decide (is_Some (g !! name d)) then (false, s)
  else if bool_decide (Exists (λ dep, g !! dep = None) (dependencies d)) then (false, s)
  else if bool_decide (Exists (λ dep, dep ∈ m_contaminated_modules s) (dependencies d)) then (false, s)
  else
    let g := <[name d := mkNode d [] Registered true UNLOADED 0]> g in
    (true, s <| m_module_graph := foldl (λ g dep, add_dependent (name d) dep g) g (dependencies d) |>).

(** ** Reference counts *)

Definition count_reference (g : Graph) (dep_name : string) : Graph :=
  alter (λ dep, if is_dynamic dep && negb (is_persistent (def dep))
                then dep <| ref_count ::= λ n, n + 1 |> else dep) dep_name g.

Definition recalculateReferenceCounts (g : Graph) : Graph :=
  let g := (λ node, if is_dynamic node then node <| ref_count := 0 |> else node) <$> g in
  foldl (λ g '(_, source_node),
           if loaded source_node then foldl count_reference g (node_dependencies source_node) else g)
    g (in_name_order g).

(** ** Loading *)

(** The result of a load, or an exception that is not a [std::exception]. *)
Inductive LoadResult := LoadReturns (ok : bool) | LoadThrows.

(** The loop over the dependencies, given the recursive call. *)
Fixpoint load_dependencies (load : string → Manager → option (LoadResult * Manager))
    (deps : list string) (s : Manager) : option (LoadResult * Manager) :=
  match deps with
  | [] => Some (LoadReturns true, s)
  | dep_name :: deps =>
      match m_module_graph s !! dep_name with
      | None => Some (LoadReturns false, s)
      | Some dep_node =>
          if is_dynamic dep_node then
            r ← load dep_name s;
            match r with
            | (LoadReturns true, s) => load_dependencies load deps s
            | r => Some r
            end
          else if bool_decide (status dep_node ≠ Started) then Some (LoadReturns false, s)
          else load_dependencies load deps s
      end
  end.

(** [None] is exhaustion of the fuel. *)
Fixpoint loadModuleInternal (fuel : nat) (n : string) (s : Manager) : option (LoadResult * Manager) :=
  match fuel with
  | O => None
  | S fuel =>
      match m_module_graph s !! n with
      | None => Some (LoadReturns false, s)
      | Some node =>
          let mark st s := s <| m_module_graph ::= set_dynamic_status st n |> in
          match dynamic_status node with
          | LOADED => Some (LoadReturns true, s)
          | LOADING | FAILED | UNLOADING | SHUTDOWN_TIMEOUT | FAILED_SHUTDOWN =>
              Some (LoadReturns false, s)
          | UNLOADED =>
              if bool_decide (n ∈ m_contaminated_modules s)
              then Some (LoadReturns false, mark FAILED s)
              else
                let s := mark LOADING s in
                r ← load_dependencies (loadModuleInternal fuel) (node_dependencies node) s;
                match r with
                | (LoadReturns true, s) =>
                    if validation_fails (def node) AtLoad
                    then Some (LoadReturns false, mark FAILED s)
                    else
                      let s := s <| calls ::= λ l, l ++ [CallStartup n] |> in
                      match startup (def node) with
                      | None | Some Returns => Some (LoadReturns true, mark LOADED s)
                      | Some ThrowsStd => Some (LoadReturns false, mark FAILED s)
                      | Some ThrowsOther => Some (LoadThrows, s)
                      end
                | (LoadReturns false, s) => Some (LoadReturns false, mark FAILED s)
                | (LoadThrows, s) => Some (LoadThrows, s)
                end
          end
      end
  end.

(** [None] as the first component is the panic before initialisation. *)
Definition loadModule (n : string) (s : Manager) : option (option bool * Manager) :=
  if negb (m_is_initialized s) then Some (None, s)
  else if negb (validate_module_name n) || m_is_finalized s then Some (Some false, s)
  else
    match m_module_graph s !! n with
    | Some node =>
        if negb (is_dynamic node) then Some (Some false, s)
        else
          r ← loadModuleInternal (S (size (m_module_graph s))) n s;
          Some match r with
               | (LoadReturns ok, s) =>
                   (Some ok, s <| m_module_graph ::= recalculateReferenceCounts |>)
               | (LoadThrows, s) => (Some false, s)
               end
    | None => Some (Some false, s)
    end.

(** ** Unloading *)

(** The references to [dep_name] from loaded modules outside the closure. *)
Definition remaining_refs (g : Graph) (closure : gset string) (dep_name : string) : nat :=
  foldl (λ c '(n, node),
           if loaded node && negb (bool_decide (n ∈ closure))
           then (c + occ dep_name (node_dependencies node))%nat else c)
    0%nat (in_name_order g).

(** The body of the loop over the dependencies of the visited module. *)
Definition visit_dependency (g : Graph) (acc : gset string * list string) (dep_name : string) :
    gset string * list string :=
  let '(closure, to_visit) := acc in
  if bool_decide (dep_name ∈ closure) then acc
  else
    match g !! dep_name with
    | None => acc
    | Some dep =>
        if negb (is_dynamic dep) || is_persistent (def dep) then acc
        else if bool_decide (dynamic_status dep ≠ LOADED) then acc
        else if bool_decide (remaining_refs g closure dep_name = 0%nat)
        then ({[dep_name]} ∪ closure, to_visit ++ [dep_name])
        else acc
    end.

Fixpoint expand_closure (fuel : nat) (g : Graph) (closure : gset string) (to_visit : list string) :
    option (gset string) :=
  match to_visit, fuel with
  | [], _ => Some closure
  | _ :: _, O => None
  | current :: to_visit, S fuel =>
      let '(closure, to_visit) :=
        match g !! current with
        | None => (closure, to_visit)
        | Some node => foldl (visit_dependency g) (closure, to_visit) (node_dependencies node)
        end in
      expand_closure fuel g closure to_visit
  end.

Definition computeUnloadClosure (g : Graph) (root_name : string) : option (gset string) :=
  expand_closure (S (size g)) g {[root_name]} [root_name].

Definition mark_closure (closure : gset string) (g : Graph) : Graph :=
  map_imap (λ n node, Some (if bool_decide (n ∈ closure)
                            then node <| dynamic_status := UNLOADING |> else node)) g.

Definition unloadModule (n : string) (s : Manager) : option (option bool * Manager) :=
  let g := m_module_graph s in
  if negb (m_is_initialized s) then Some (None, s)
  else if negb (validate_module_name n) || m_is_finalized s then Some (Some false, s)
  else
    match g !! n with
    | None => Some (Some false, s)
    | Some node =>
        if negb (is_dynamic node) then Some (Some false, s)
        else if bool_decide (dynamic_status node ≠ LOADED) then Some (Some true, s)
        else if is_persistent (def node) then Some (Some true, s)
        else if 0 <? ref_count node then Some (Some false, s)
        else
          closure ← computeUnloadClosure g n;
          if bool_decide (closure ∩ m_contaminated_modules s ≠ ∅) then Some (Some false, s)
          else
            Some (Some true,
                  s <| m_marked_for_unload ::= union closure |>
                    <| m_module_graph := mark_closure closure g |>
                    <| m_pending_unload_closures ::= <[n := closure]> |>
                    <| m_dyn_shutdown_thread_started := true |>
                    <| m_shutdown_queue ::= λ q, q ++ [n] |>)
    end.

(** ** The shutdown thread *)

Definition remove_dependent (n dep_name : string) (g : Graph) : Graph :=
  alter (λ node, node <| dependents ::= filter (λ x, x ≠ n) |>) dep_name g.

(** The dependencies to process next: in the closure and not referenced. *)
Definition ready_to_unload (g : Graph) (dep_name : string) : bool :=
  match g !! dep_name with
  | None => false
  | Some dep =>
      is_dynamic dep && negb (is_persistent (def dep)) &&
      bool_decide (dynamic_status dep = UNLOADING) && negb (0 <? ref_count dep)
  end.

Definition cleanupAfterUnload_ (n : string) (deps_copy : list string) (s : Manager) :
    list string * Manager :=
  let g := m_module_graph s in
  let g := if bool_decide (is_Some (g !! n))
           then delete n (foldl (λ g dep, remove_dependent n dep g) g deps_copy) else g in
  let g := recalculateReferenceCounts g in
  (filter (λ dep, Is_true (ready_to_unload g dep)) deps_copy,
   s <| m_marked_for_unload ::= λ m, m ∖ {[n]} |> <| m_module_graph := g |>).

(** [n] has been processed: it leaves every pending closure, and a closure
    with nobody left goes. *)
Definition leave_closures (n : string) (m : gmap string (gset string)) : gmap string (gset string) :=
  filter (λ x, x.2 ≠ ∅) ((λ c, c ∖ {[n]}) <$> m).

(** The first part of [processOneUnloadInThread], for the name on top of the
    stack: read the node; its callback, if the validator lets it run, starts. *)
Definition thread_begin (s : Manager) : option Manager :=
  match thread_running s, thread_stack s with
  | None, n :: stack =>
      let s := s <| thread_stack := stack |> in
      match m_module_graph s !! n with
      | None => Some s
      | Some node =>
          if bool_decide (dynamic_status node ≠ UNLOADING) then Some s
          else
            Some (s <| thread_running := Some node |>
                    <| calls ::= λ l,
                         if validation_fails (def node) AtUnload then l
                         else l ++ [CallShutdown n] |>)
      end
  | _, _ => None
  end.

(** The rest of it, once the callback has ended or timed out. *)
Definition thread_end (s : Manager) : option Manager :=
  match thread_running s with
  | None => None
  | Some node =>
      let n := name (def node) in
      let deps_copy := node_dependencies node in
      let s := s <| thread_running := None |> in
      let finish s :=
        let '(deps_to_process, s) := cleanupAfterUnload_ n deps_copy s in
        s <| thread_stack ::= λ st, deps_to_process ++ st |> in
      if validation_fails (def node) AtUnload then
        if owner_managed_teardown (def node)
        then Some (finish (s <| m_pending_unload_closures ::= leave_closures n |>))
        else Some (s <| m_contaminated_modules ::= union {[n]} |>
                     <| m_module_graph ::= set_dynamic_status FAILED_SHUTDOWN n |>)
      else
        let s := s <| m_pending_unload_closures ::= leave_closures n |> in
        match timedShutdown (shutdown_func (def node)) (shutdown_timeout (def node)) with
        | Success => Some (finish s)
        | o =>
            Some (s <| m_contaminated_modules ::= union {[n]} |>
                    <| m_marked_for_unload ::= λ m, m ∖ {[n]} |>
                    <| m_module_graph ::= set_dynamic_status
                         (match o with TimedOut => SHUTDOWN_TIMEOUT | _ => FAILED_SHUTDOWN end) n |>)
        end
  end.

(** [dynShutdownThreadMain]: the next name of the queue. *)
Definition thread_pop (s : Manager) : option Manager :=
  match thread_running s, thread_stack s, m_shutdown_queue s with
  | None, [], n :: q => Some (s <| m_shutdown_queue := q |> <| thread_stack := [n] |>)
  | _, _, _ => None
  end.

(** ** Queries *)

Definition read_state (g : Graph) (n : string) : DynModuleState.t :=
  match g !! n with
  | None => DynModuleState.NotRegistered
  | Some node =>
      if negb (is_dynamic node) then DynModuleState.NotRegistered
      else
        match dynamic_status node with
        | UNLOADED => DynModuleState.Unloaded
        | LOADING => DynModuleState.Loading
        | LOADED => DynModuleState.Loaded
        | UNLOADING => DynModuleState.Unloading
        | SHUTDOWN_TIMEOUT => DynModuleState.ShutdownTimeout
        | FAILED_SHUTDOWN => DynModuleState.ShutdownFailed
        | FAILED => DynModuleState.Unloaded
        end
  end.

Definition getDynamicModuleState (n : string) (s : Manager) : DynModuleState.t :=
  if str_empty n || bool_decide (MAX_MODULE_NAME_LEN < String.length n)%nat
  then DynModuleState.NotRegistered else read_state (m_module_graph s) n.

(** Does the wait's predicate hold; while it does not, an unbounded wait
    blocks, and a bounded one ends with [Unloading]. *)
Definition waitForUnload (n : string) (s : Manager) : option DynModuleState.t :=
  if str_empty n then Some DynModuleState.NotRegistered
  else if bool_decide (is_Some (m_pending_unload_closures s !! n)) then None
  else Some (read_state (m_module_graph s) n).

(** ** Finalisation *)

(** Phase 1, up to the join of the shutdown thread. *)
Definition finalize_begin (s : Manager) : Manager :=
  if negb (m_is_initialized s) || m_is_finalized s then s
  else s <| m_is_finalized := true |> <| m_dyn_shutdown_thread_stop := true |>.

Definition thread_done (s : Manager) : bool :=
  bool_decide (m_shutdown_queue s = []) && bool_decide (thread_stack s = []) &&
  match thread_running s with None => true | Some _ => false end.

(** [run_inline]; [None] when the callback never returns. *)
Definition run_inline (d : InternalModuleDef) : option ModuleStatus :=
  match shutdown_func d with
  | None => Some Shutdown
  | Some c =>
      match lasts_ms c with
      | None => None
      | Some _ => Some (match result c with Returns => Shutdown | _ => FailedShutdown end)
      end
  end.

Definition shutdownModuleWithTimeout (d : InternalModuleDef) : ModuleStatus :=
  match timedShutdown (shutdown_func d) (shutdown_timeout d) with
  | Success => Shutdown | TimedOut => ShutdownTimeout | Threw => FailedShutdown
  end.

Definition dispatch_shutdown (n : string) (s : Manager) : option Manager :=
  match m_module_graph s !! n with
  | None => Some s
  | Some node =>
      let s := s <| calls ::= λ l, l ++ [CallShutdown n] |> in
      st ← if synchronous_shutdown (def node) then run_inline (def node)
           else Some (shutdownModuleWithTimeout (def node));
      Some (s <| m_module_graph ::= set_status st n |>)
  end.

Fixpoint dispatch_all (order : list string) (s : Manager) : option Manager :=
  match order with
  | [] => Some s
  | n :: order => s ← dispatch_shutdown n s; dispatch_all order s
  end.

Fixpoint shutdown_static (order : list string) (s : Manager) : option Manager :=
  match order with
  | [] => Some s
  | n :: order =>
      s ← match m_module_graph s !! n with
          | Some node =>
              if bool_decide (status node = Started) then dispatch_shutdown n s
              else Some (s <| m_module_graph ::= set_status Shutdown n |>)
          | None => Some s
          end;
      shutdown_static order s
  end.

(** Phases 2 and 3; [inl] is the exception of the sort, [None] a callback that
    never returns. *)
Definition finalize_end (s : Manager) : option (list string + Manager) :=
  let g := m_module_graph s in
  let loaded_dyn_nodes := (filter (λ x, Is_true (loaded x.2)) (in_name_order g)).*1 in
  r ← topologicalSort (dependents_in g) loaded_dyn_nodes;
  match r with
  | inr cycle_nodes => Some (inl cycle_nodes)
  | inl order =>
      s ← dispatch_all (reverse order) s;
      s ← shutdown_static (reverse (m_startup_order s)) s;
      Some (inr s)
  end.

(** ** Events *)

Inductive event :=
  | RegisterStatic (d : InternalModuleDef)
  | Initialize
  | RegisterDynamic (d : InternalModuleDef)
  | Load (n : string)
  | Unload (n : string)
  | ThreadPop
  | ThreadBegin
  | ThreadEnd
  | FinalizeBegin.

(** [None] where the code panics, aborts or does not run this step. *)
Definition run_event (e : event) (s : Manager) : option Manager :=
  match e with
  | RegisterStatic d => registerStaticModule d s
  | Initialize => r ← initialize s; match r with inl _ => None | inr s => Some s end
  | RegisterDynamic d => Some (registerDynamicModule d s).2
  | Load n => r ← loadModule n s; match r with (Some _, s) => Some s | (None, _) => None end
  | Unload n => r ← unloadModule n s; match r with (Some _, s) => Some s | (None, _) => None end
  | ThreadPop => thread_pop s
  | ThreadBegin => thread_begin s
  | ThreadEnd => thread_end s
  | FinalizeBegin => Some (finalize_begin s)
  end.

Fixpoint run_events (l : list event) (s : Manager) : option Manager :=
  match l with [] => Some s | e :: l => run_event e s ≫= run_events l end.

Inductive reachable (ok : event → Prop) : Manager → Prop :=
  | reach_initial : reachable ok initial
  | reach_event e s s' : reachable ok s → ok e → run_event e s = Some s' → reachable ok s'.

End Lifecycle.
