(* ===== verification/LifecycleLoad.v ===== *)
(** * Loading a dynamic module

    The recursion of [loadModuleInternal] terminates, because every level
    marks one more module LOADING; it changes no module that was not UNLOADED;
    and it starts modules in the order of their dependencies. *)

From stdpp Require Import sorting.
From S2P Require Import Prelude.
From S2P Require Import Topology.
From S2P Require Import Lifecycle.
Import Topology Lifecycle.

Module LifecycleLoad.

Implicit Types (g : Graph) (s : Manager) (n d : string) (node : InternalGraphNode).

(** ** Traversal in name order *)

Lemma in_name_order_perm {A} (m : gmap string A) : in_name_order m ≡ₚ map_to_list m.
Proof. apply merge_sort_Permutation. Qed.

Lemma elem_of_in_name_order {A} (m : gmap string A) k x : (k, x) ∈ in_name_order m ↔ m !! k = Some x.
Proof. by rewrite in_name_order_perm, elem_of_map_to_list. Qed.

Lemma NoDup_fst_in_name_order {A} (m : gmap string A) : NoDup (in_name_order m).*1.
Proof. rewrite in_name_order_perm. apply NoDup_fst_map_to_list. Qed.

(** ** Dependencies that are up *)

(** [d] can be used by a module: started, or loaded. *)
Definition up g (d : string) : Prop :=
  match g !! d with
  | Some node => if is_dynamic node then dynamic_status node = LOADED else status node = Started
  | None => False
  end.

Definition deps_up g (deps : list string) : Prop := ∀ d, d ∈ deps → up g d.

Definition deps_loaded g : Prop :=
  ∀ n node, g !! n = Some node → loaded node = true → deps_up g (node_dependencies node).

(** What a load may do to the graph: statuses of UNLOADED modules change. *)
Definition may_become node (b : DynamicModuleStatus) : Prop :=
  dynamic_status node = b ∨
  (dynamic_status node = UNLOADED ∧ is_dynamic node = true ∧ b ≠ UNLOADING).

Definition node_frame node node' : Prop :=
  may_become node (dynamic_status node') ∧
  node' = node <| dynamic_status := dynamic_status node' |>.

Definition load_frame g g' : Prop := ∀ n,
  match g !! n, g' !! n with
  | Some node, Some node' => node_frame node node'
  | None, None => True
  | _, _ => False
  end.

Lemma node_frame_refl node : node_frame node node.
Proof. split; [by left|by destruct node]. Qed.

Lemma load_frame_refl g : load_frame g g.
Proof. intros n. destruct (g !! n); [apply node_frame_refl|done]. Qed.

Lemma node_frame_trans a b c : node_frame a b → node_frame b c → node_frame a c.
Proof.
  intros [Hab Eb] [Hbc Ec]. split; [|rewrite Ec, Eb; by destruct a].
  destruct Hab as [Hab|Hab].
  2:{ right. destruct Hab as (? & ? & ?). split_and!; try done. destruct Hbc as [Hbc|(_ & _ & ?)]; [congruence|done]. }
  destruct Hbc as [Hbc|(Hu & Hd & Hb)]; [left; congruence|right].
  rewrite Eb in Hd. split_and!; [congruence|by destruct a|done].
Qed.

Lemma load_frame_trans g1 g2 g3 : load_frame g1 g2 → load_frame g2 g3 → load_frame g1 g3.
Proof.
  intros H12 H23 n. specialize (H12 n). specialize (H23 n).
  destruct (g1 !! n), (g2 !! n), (g3 !! n); try done. by eapply node_frame_trans.
Qed.

#[global] Instance load_frame_preorder : PreOrder load_frame.
Proof. split; [intros g; apply load_frame_refl|intros ???; apply load_frame_trans]. Qed.

Lemma load_frame_lookup g g' n node :
  load_frame g g' → g !! n = Some node → ∃ node', g' !! n = Some node' ∧ node_frame node node'.
Proof. intros H Hn. specialize (H n). rewrite Hn in H. destruct (g' !! n); [eauto|done]. Qed.

Lemma load_frame_lookup_back g g' n node' :
  load_frame g g' → g' !! n = Some node' → ∃ node, g !! n = Some node ∧ node_frame node node'.
Proof. intros H Hn. specialize (H n). rewrite Hn in H. destruct (g !! n); [eauto|done]. Qed.

Lemma node_frame_fields node node' : node_frame node node' →
  def node' = def node ∧ is_dynamic node' = is_dynamic node ∧ status node' = status node ∧
  dependents node' = dependents node ∧ ref_count node' = ref_count node.
Proof. intros [_ ->]. by destruct node. Qed.

Lemma node_frame_loaded node node' : node_frame node node' → loaded node = true → loaded node' = true.
Proof.
  intros Hf Hl. pose proof (node_frame_fields _ _ Hf) as (_ & Hd & _).
  unfold loaded in *. rewrite Hd. destruct Hf as [[He|[He _]] _]; [by rewrite <- He|].
  rewrite He in Hl. by destruct (is_dynamic node).
Qed.

Lemma up_mono g g' d : load_frame g g' → up g d → up g' d.
Proof.
  unfold up. intros Hf. specialize (Hf d). destruct (g !! d) as [a|], (g' !! d) as [b|]; try done.
  pose proof (node_frame_fields _ _ Hf) as (_ & -> & -> & _).
  destruct (is_dynamic a); [|done]. intros Hl. destruct Hf as [[He|[He _]] _]; congruence.
Qed.

Lemma deps_up_mono g g' l : load_frame g g' → deps_up g l → deps_up g' l.
Proof. intros Hf Hd d Hin. eapply up_mono; eauto. Qed.

Lemma load_frame_dependents g g' n : load_frame g g' → dependents_in g' n = dependents_in g n.
Proof.
  intros Hf. specialize (Hf n). unfold dependents_in.
  destruct (g !! n), (g' !! n); try done. apply node_frame_fields in Hf. by destruct Hf as (_&_&_&->&_).
Qed.

(** ** What was started *)

(** The modules started between [g] and [g'], in order: each was UNLOADED and
    no longer is, nothing is started twice, everything that got loaded was
    started, and a dependency was up before or was started earlier. *)
Record started_spec g g' (l : list string) : Prop := mkStarted {
  st_nodup : NoDup l;
  st_from : ∀ m, m ∈ l → ∃ node node', g !! m = Some node ∧ dynamic_status node = UNLOADED ∧
                          g' !! m = Some node' ∧ dynamic_status node' ≠ UNLOADED;
  st_all : ∀ m node node', g !! m = Some node → g' !! m = Some node' →
             dynamic_status node = UNLOADED → dynamic_status node' = LOADED → m ∈ l;
  st_order : ∀ l1 m l2 node d, l = l1 ++ m :: l2 → g !! m = Some node →
             d ∈ node_dependencies node → up g d ∨ d ∈ l1;
}.

Lemma started_nil g g' :
  (∀ m node node', g !! m = Some node → g' !! m = Some node' →
     dynamic_status node = UNLOADED → dynamic_status node' ≠ LOADED) →
  started_spec g g' [].
Proof.
  intros H. constructor.
  - constructor.
  - set_solver.
  - intros m node node' H1 H2 H3 H4. by destruct (H m node node').
  - intros [|? ?] m l2 node d Hl; done.
Qed.

Lemma started_refl g : started_spec g g [].
Proof. apply started_nil. intros. simplify_eq. congruence. Qed.

(** An up dependency was up before, or was started. *)
Lemma up_back g g' l d : load_frame g g' → started_spec g g' l → up g' d → up g d ∨ d ∈ l.
Proof.
  intros Hf Hs Hu. assert (Hfd := Hf d). unfold up in Hu |- *.
  destruct (g' !! d) as [b|] eqn:Hb; [|done]. destruct (g !! d) as [a|] eqn:Ha; [|done].
  pose proof (node_frame_fields _ _ Hfd) as (_ & Hdyn & Hst & _). rewrite Hdyn, Hst in Hu.
  destruct (is_dynamic a); [|by left]. destruct Hfd as [[He|[He _]] _]; [left; congruence|].
  right. by eapply (st_all _ _ _ Hs).
Qed.

Lemma started_trans g1 g2 g3 l l' :
  load_frame g1 g2 → load_frame g2 g3 →
  started_spec g1 g2 l → started_spec g2 g3 l' → started_spec g1 g3 (l ++ l').
Proof.
  intros H12 H23 S1 S2. constructor.
  - apply NoDup_app. split_and!; [apply S1| |apply S2]. intros m H1 H2.
    apply (st_from _ _ _ S1) in H1 as (? & b & _ & _ & Hb & Hnb).
    apply (st_from _ _ _ S2) in H2 as (b' & ? & Hb' & Hu & _). congruence.
  - intros m [Hm|Hm]%elem_of_app.
    + apply (st_from _ _ _ S1) in Hm as (a & b & Ha & Hua & Hb & Hnb).
      destruct (load_frame_lookup _ _ _ _ H23 Hb) as (c & Hc & [[He|[He _]] _]); [|congruence].
      exists a, c. split_and!; try done. congruence.
    + apply (st_from _ _ _ S2) in Hm as (b & c & Hb & Hub & Hc & Hnc).
      destruct (load_frame_lookup_back _ _ _ _ H12 Hb) as (a & Ha & Hab).
      exists a, c. split_and!; try done. destruct Hab as [[He|[He _]] _]; congruence.
  - intros m a c Ha Hc Hua Hlc.
    destruct (load_frame_lookup _ _ _ _ H12 Ha) as (b & Hb & Hab).
    destruct (load_frame_lookup _ _ _ _ H23 Hb) as (c' & Hc' & [[He|[He _]] _]); simplify_eq.
    + apply elem_of_app. left. eapply (st_all _ _ _ S1); eauto. congruence.
    + apply elem_of_app. right. eapply (st_all _ _ _ S2); eauto.
  - intros l1 m l2 node d Hl Hm Hd. destruct (app_cons_split l l' l1 l2 m Hl) as
      [(k & Hk1 & Hk2)|(k & Hk1 & Hk2)].
    + by eapply (st_order _ _ _ S1).
    + subst l1. destruct (load_frame_lookup _ _ _ _ H12 Hm) as (b & Hb & Hfb).
      pose proof (node_frame_fields _ _ Hfb) as (Hdef & _).
      destruct (st_order _ _ _ S2 k m l2 b d Hk2 Hb) as [Hu|Hin].
      * unfold node_dependencies in *. by rewrite Hdef.
      * destruct (up_back g1 g2 l d H12 S1 Hu) as [|]; [by left|right; set_solver].
      * right. set_solver.
Qed.

(** Around the recursive calls, the module itself is marked LOADING and then
    gets its final status. *)
Section bracket.
Context (n : string) (node : InternalGraphNode) (g g2 : Graph) (l : list string).
Context (Hn : g !! n = Some node) (Hu : dynamic_status node = UNLOADED).
Context (Hf : load_frame (set_dynamic_status LOADING n g) g2).
Context (Hs : started_spec (set_dynamic_status LOADING n g) g2 l).

Lemma bracket_lookup : g2 !! n = Some (node <| dynamic_status := LOADING |>).
Proof.
  assert (Hl : set_dynamic_status LOADING n g !! n = Some (node <| dynamic_status := LOADING |>)).
  { unfold set_dynamic_status. by rewrite lookup_alter_eq, Hn. }
  destruct (load_frame_lookup _ _ _ _ Hf Hl) as (node' & Hn' & [[He|[He _]] Hd]); [|done].
  rewrite Hn', Hd, <- He. done.
Qed.

Lemma bracket_other m : m ≠ n → set_dynamic_status LOADING n g !! m = g !! m.
Proof. intros Hm. unfold set_dynamic_status. by rewrite lookup_alter_ne. Qed.

Lemma bracket_after st m : set_dynamic_status st n g2 !! m =
  if decide (m = n) then Some (node <| dynamic_status := st |>) else g2 !! m.
Proof.
  unfold set_dynamic_status. case_decide as Hm; [subst m|by rewrite lookup_alter_ne].
  by rewrite lookup_alter_eq, bracket_lookup.
Qed.

Lemma bracket_frame st : is_dynamic node = true → st ≠ UNLOADING → load_frame g (set_dynamic_status st n g2).
Proof.
  intros Hdyn Hsu m. rewrite bracket_after. case_decide as Hm.
  - subst m. rewrite Hn. split; [by right|done].
  - pose proof (Hf m) as H. by rewrite bracket_other in H.
Qed.

Lemma bracket_up d : d ≠ n → up (set_dynamic_status LOADING n g) d ↔ up g d.
Proof. intros Hd. unfold up. by rewrite bracket_other. Qed.

(** A module that depends on the one being loaded is not up with it. *)
Lemma bracket_up_self : is_dynamic node = true → ¬ up (set_dynamic_status LOADING n g) n.
Proof.
  intros Hd. unfold up, set_dynamic_status. rewrite lookup_alter_eq, Hn. cbn.
  by destruct (is_dynamic node).
Qed.

Lemma bracket_not_started : n ∉ l.
Proof.
  intros Hin. apply (st_from _ _ _ Hs) in Hin as (a & b & Ha & Hua & _).
  unfold set_dynamic_status in Ha. rewrite lookup_alter_eq, Hn in Ha. by injection Ha as <-.
Qed.

Lemma bracket_started st (called : bool) :
  is_dynamic node = true → st ≠ UNLOADED → (called = false → st ≠ LOADED) →
  (called = true → deps_up g2 (node_dependencies node)) →
  started_spec g (set_dynamic_status st n g2) (l ++ if called then [n] else []).
Proof.
  intros Hdyn Hst Hnl Hup. pose proof bracket_not_started as Hnin. constructor.
  - apply NoDup_app. split_and!; [apply Hs| |destruct called; [apply NoDup_singleton|constructor]].
    intros m Hm. destruct called; set_solver.
  - intros m [Hm|Hm]%elem_of_app.
    + assert (m ≠ n) by (intros ->; done).
      apply (st_from _ _ _ Hs) in Hm as (a & b & Ha & Hua & Hb & Hnb).
      rewrite bracket_other in Ha by done. exists a, b. rewrite bracket_after.
      by rewrite decide_False.
    + assert (m = n) as -> by (destruct called; set_solver).
      exists node, (node <| dynamic_status := st |>). rewrite bracket_after. by rewrite decide_True.
  - intros m a b Ha Hb Hua Hlb. rewrite bracket_after in Hb. destruct (decide (m = n)) as [->|Hm].
    + destruct called; [set_solver|]. injection Hb as <-. by destruct Hnl.
    + apply elem_of_app. left. eapply (st_all _ _ _ Hs); eauto. by rewrite bracket_other.
  - intros l1 m l2 a d Hl Ha Hd. apply app_cons_split in Hl as [(k & Hl & _)|(k & -> & Hl)].
    + assert (m ≠ n) by (intros ->; apply Hnin; rewrite Hl; set_solver).
      assert (Ha' : set_dynamic_status LOADING n g !! m = Some a) by (by rewrite bracket_other).
      destruct (st_order _ _ _ Hs l1 m k a d Hl Ha' Hd) as [Hupd|]; [|by right].
      left. apply bracket_up; [|done]. intros ->. by apply bracket_up_self in Hupd.
    + destruct called; [|by destruct k]. destruct k as [|? [|? ?]]; [|done..].
      injection Hl as <- _. rewrite Hn in Ha. injection Ha as <-. specialize (Hup eq_refl d Hd). rewrite app_nil_r.
      destruct (up_back _ _ _ _ Hf Hs Hup) as [Hupd|]; [|by right]. left.
      apply bracket_up; [|done]. intros ->. by apply bracket_up_self in Hupd.
Qed.

Lemma bracket_deps_loaded st :
  (deps_loaded (set_dynamic_status LOADING n g) → deps_loaded g2) → deps_loaded g →
  (st = LOADED → deps_up g2 (node_dependencies node)) →
  deps_loaded (set_dynamic_status st n g2).
Proof.
  intros Hpres HD Hup. assert (HD2 : deps_loaded g2).
  { apply Hpres. intros m a Ha Hla d Hd. destruct (decide (m = n)) as [->|Hm].
    - unfold set_dynamic_status in Ha. rewrite lookup_alter_eq, Hn in Ha. injection Ha as <-.
      unfold loaded in Hla. cbn in Hla. by destruct (is_dynamic node).
    - rewrite bracket_other in Ha by done. pose proof (HD m a Ha Hla d Hd) as Hu'.
      destruct (decide (d = n)) as [->|Hdn]; [|by apply bracket_up].
      unfold up in *. unfold set_dynamic_status. rewrite lookup_alter_eq. rewrite Hn in *. cbn.
      destruct (is_dynamic node); [congruence|done]. }
  assert (Hmono : load_frame g2 (set_dynamic_status st n g2) ∨ True) by (by right).
  assert (Hkeep : ∀ d, up g2 d → up (set_dynamic_status st n g2) d).
  { intros d Hd. unfold up in *. rewrite bracket_after. destruct (decide (d = n)) as [->|]; [|done].
    rewrite bracket_lookup in Hd. cbn in *. by destruct (is_dynamic node). }
  intros m a Ha Hla d Hd. apply Hkeep. rewrite bracket_after in Ha.
  destruct (decide (m = n)) as [->|Hm]; [|by eapply HD2].
  injection Ha as <-. apply Hup; [|done]. unfold loaded in Hla. cbn in Hla.
  bool_facts. by bool_facts.
Qed.
End bracket.

(** ** The load *)

Definition load_rel s s' (l : list string) : Prop :=
  calls s' = calls s ++ (CallStartup <$> l) ∧
  load_frame (m_module_graph s) (m_module_graph s') ∧
  started_spec (m_module_graph s) (m_module_graph s') l ∧
  s' = s <| m_module_graph := m_module_graph s' |> <| calls := calls s' |>.

Lemma load_rel_refl s : load_rel s s [].
Proof.
  split_and!; [by rewrite app_nil_r|done|apply started_refl|by destruct s].
Qed.

Lemma load_rel_trans s1 s2 s3 l l' : load_rel s1 s2 l → load_rel s2 s3 l' → load_rel s1 s3 (l ++ l').
Proof.
  intros (C1 & F1 & S1 & E1) (C2 & F2 & S2 & E2). split_and!.
  - by rewrite C2, C1, fmap_app, app_assoc.
  - by etrans.
  - by eapply started_trans.
  - rewrite E2, E1. by destruct s1.
Qed.

Definition keeps_deps s s' : Prop :=
  deps_loaded (m_module_graph s) → deps_loaded (m_module_graph s').

Definition is_loaded g n : Prop :=
  ∃ node, g !! n = Some node ∧ dynamic_status node = LOADED.

Definition load_ok (load : string → Manager → option (LoadResult * Manager)) : Prop :=
  ∀ n s r s' node, m_module_graph s !! n = Some node → is_dynamic node = true →
    load n s = Some (r, s') →
    ∃ l, load_rel s s' l ∧ keeps_deps s s' ∧
      (r = LoadReturns true → is_loaded (m_module_graph s') n ∧ Forall (is_loaded (m_module_graph s')) l).

Lemma is_loaded_mono g g' m : load_frame g g' → is_loaded g m → is_loaded g' m.
Proof.
  intros F (a & Ha & Hl). destruct (load_frame_lookup _ _ _ _ F Ha) as (b & Hb & [[He|[He _]] _]); [|congruence].
  exists b. split; [done|congruence].
Qed.

Lemma load_dependencies_spec load deps : load_ok load → ∀ s r s',
  load_dependencies load deps s = Some (r, s') →
  ∃ l, load_rel s s' l ∧ keeps_deps s s' ∧
    (r = LoadReturns true → deps_up (m_module_graph s') deps ∧ Forall (is_loaded (m_module_graph s')) l).
Proof.
  intros Hok. induction deps as [|d deps IH]; intros s r s' Hl.
  - injection Hl as <- <-. exists []. split_and!; [apply load_rel_refl|by intros ?|].
    intros _. split; [|constructor]. intros d Hd. by apply elem_of_nil in Hd.
  - cbn in Hl. destruct (m_module_graph s !! d) as [dn|] eqn:Hd.
    2:{ injection Hl as <- <-. exists []. split_and!; [apply load_rel_refl|by intros ?|done]. }
    destruct (is_dynamic dn) eqn:Hdyn.
    + apply bind_Some in Hl as ([r1 s1] & Hld & Hl).
      destruct (Hok d s r1 s1 dn Hd Hdyn Hld) as (l1 & R1 & K1 & L1).
      destruct r1 as [[|]|]; [|injection Hl as <- <-; exists l1; by split_and!..].
      destruct (IH s1 r s' Hl) as (l2 & R2 & K2 & U2). exists (l1 ++ l2). split_and!.
      * by eapply load_rel_trans.
      * intros HD. by apply K2, K1.
      * intros Hr. destruct (U2 Hr) as [U2' A2]. destruct (L1 eq_refl) as [L1' A1].
        pose proof R2 as (_ & F2 & _). split.
        -- intros x [->|Hx]%elem_of_cons; [|by apply U2'].
           destruct L1' as (nd & Hnd & Hst).
           eapply up_mono; [done|]. unfold up. rewrite Hnd.
           destruct R1 as (_ & F1 & _). destruct (load_frame_lookup _ _ _ _ F1 Hd) as (nd' & Hnd' & Hfr).
           simplify_eq. apply node_frame_fields in Hfr as (_ & -> & _). by rewrite Hdyn.
        -- apply Forall_app. split; [|done]. eapply Forall_impl; [exact A1|]. intros m. by apply is_loaded_mono.
    + case_bool_decide as Hst.
      * injection Hl as <- <-. exists []. split_and!; [apply load_rel_refl|by intros ?|done].
      * destruct (IH s r s' Hl) as (l2 & R2 & K2 & U2). exists l2. split_and!; [done..|].
        intros Hr. destruct (U2 Hr) as [U2' A2]. split; [|done].
        intros x [->|Hx]%elem_of_cons; [|by apply U2']. destruct R2 as (_ & F2 & _).
        eapply up_mono; [done|]. unfold up. rewrite Hd, Hdyn. by destruct (decide (status dn = Started)).
Qed.

(** What [loadModuleInternal] makes of the graph the dependencies left: the
    module's final status, and whether its startup was called. *)
Lemma load_finish n s node s2 l called st s3 :
  let s1 := s <| m_module_graph ::= set_dynamic_status LOADING n |> in
  m_module_graph s !! n = Some node → is_dynamic node = true → dynamic_status node = UNLOADED →
  load_rel s1 s2 l → keeps_deps s1 s2 → st ≠ UNLOADED ∧ st ≠ UNLOADING → (called = false → st ≠ LOADED) →
  (called = true → deps_up (m_module_graph s2) (node_dependencies node)) →
  (st = LOADED → Forall (is_loaded (m_module_graph s2)) l) →
  calls s3 = calls s2 ++ (CallStartup <$> if called then [n] else []) →
  m_module_graph s3 = set_dynamic_status st n (m_module_graph s2) →
  s3 = s <| m_module_graph := m_module_graph s3 |> <| calls := calls s3 |> →
  ∃ l, load_rel s s3 l ∧ keeps_deps s s3 ∧
    (st = LOADED → is_loaded (m_module_graph s3) n ∧ Forall (is_loaded (m_module_graph s3)) l).
Proof.
  intros s1 Hn Hdyn Hst (C & F & S & E) K [Hs1 Hs1'] Hs2 Hs3 A C3 G3 E3.
  exists (l ++ if called then [n] else []).
  assert (Hafter : ∀ m, m_module_graph s3 !! m =
    if decide (m = n) then Some (node <| dynamic_status := st |>) else m_module_graph s2 !! m).
  { intros m. rewrite G3. by eapply bracket_after. }
  split_and!; [split_and!; [| | |done]| |].
  - rewrite C3, C, fmap_app, app_assoc. done.
  - rewrite G3. by eapply bracket_frame.
  - rewrite G3. by eapply bracket_started.
  - intros HD. rewrite G3. eapply bracket_deps_loaded; try done.
    intros ->. apply Hs3. destruct called; [reflexivity|]. by destruct (Hs2 eq_refl).
  - intros ->. assert (is_loaded (m_module_graph s3) n) as Hln.
    { exists (node <| dynamic_status := LOADED |>). split; [|done]. by rewrite Hafter, decide_True. }
    split; [done|]. apply Forall_app. split; [|destruct called; by repeat constructor].
    eapply Forall_impl; [exact (A eq_refl)|]. intros m (a & Ha & Hla).
    destruct (decide (m = n)) as [->|Hm]; [done|]. exists a. by rewrite Hafter, decide_False.
Qed.

Lemma load_spec fuel : load_ok (loadModuleInternal fuel).
Proof.
  induction fuel as [|fuel IH]; intros n s r s' node Hn Hdyn Hl; [done|].
  cbn in Hl. rewrite Hn in Hl.
  assert (Hsame : r = LoadReturns false ∧ s' = s → ∃ l, load_rel s s' l ∧ keeps_deps s s' ∧
            (r = LoadReturns true → is_loaded (m_module_graph s') n ∧ Forall (is_loaded (m_module_graph s')) l)).
  { intros [-> ->]. exists []. split_and!; [apply load_rel_refl|by intros ?|done]. }
  destruct (dynamic_status node) eqn:Hst; try (apply Hsame; by injection Hl as <- <-).
  2:{ injection Hl as <- <-. exists []. split_and!; [apply load_rel_refl|by intros ?|].
      intros _. split; [by exists node|constructor]. }
  set (s1 := s <| m_module_graph ::= set_dynamic_status LOADING n |>) in *.
  pose proof (λ s2 l called st s3, load_finish n s node s2 l called st s3 Hn Hdyn Hst) as Hfin.
  case_bool_decide as Hc.
  { injection Hl as <- <-.
    destruct (Hfin s1 [] false FAILED (s <| m_module_graph ::= set_dynamic_status FAILED n |>))
      as (l & H1 & H2 & _); try done; [apply load_rel_refl|by intros ?| | |by exists l].
    - by rewrite app_nil_r.
    - subst s1. cbn. apply map_eq. intros m. unfold set_dynamic_status.
      destruct (decide (m = n)) as [->|]; [|by rewrite !lookup_alter_ne].
      rewrite !lookup_alter_eq, Hn. done. }
  apply bind_Some in Hl as ([r2 s2] & Hdeps & Hl).
  destruct (load_dependencies_spec _ _ IH s1 r2 s2 Hdeps) as (l & R & K & U).
  assert (E2 : s2 = s <| m_module_graph := m_module_graph s2 |> <| calls := calls s2 |>).
  { destruct R as (_ & _ & _ & E). rewrite E. by destruct s. }
  assert (Hlast : m_module_graph s2 = set_dynamic_status LOADING n (m_module_graph s2)).
  { apply map_eq. intros m. destruct R as (_ & F & _ & _).
    rewrite (bracket_after n node (m_module_graph s) _ Hn F). case_decide as Hm; [subst m|done].
    by rewrite (bracket_lookup n node (m_module_graph s) _ Hn F). }
  destruct r2 as [[|]|].
  - destruct (U eq_refl) as [U' A]. destruct (validation_fails _ _).
    { injection Hl as <- <-.
      destruct (Hfin s2 l false FAILED (s2 <| m_module_graph ::= set_dynamic_status FAILED n |>))
        as (k & H1 & H2 & _); try done; [by rewrite app_nil_r|by rewrite E2; destruct s|by exists k]. }
    assert (Hcall : ∀ st s3, st ≠ UNLOADED ∧ st ≠ UNLOADING →
      s3 = s2 <| calls ::= λ l, l ++ [CallStartup n] |> <| m_module_graph ::= set_dynamic_status st n |> →
      ∃ l, load_rel s s3 l ∧ keeps_deps s s3 ∧
        (st = LOADED → is_loaded (m_module_graph s3) n ∧ Forall (is_loaded (m_module_graph s3)) l)).
    { intros st s3 Hs3 ->. apply (Hfin s2 l true); try done. rewrite E2. by destruct s. }
    destruct (startup (def node)) as [[| |]|]; injection Hl as <- <-.
    + destruct (Hcall LOADED _ ltac:(done) eq_refl) as (k & H1 & H2 & H3). exists k. by split_and!; auto.
    + destruct (Hcall FAILED _ ltac:(done) eq_refl) as (k & H1 & H2 & H3). exists k. by split_and!.
    + destruct (Hfin s2 l true LOADING (s2 <| calls ::= λ l, l ++ [CallStartup n] |>))
        as (k & H1 & H2 & _); try done; [by rewrite E2; destruct s|by exists k].
    + destruct (Hcall LOADED _ ltac:(done) eq_refl) as (k & H1 & H2 & H3). exists k. by split_and!; auto.
  - injection Hl as <- <-.
    destruct (Hfin s2 l false FAILED (s2 <| m_module_graph ::= set_dynamic_status FAILED n |>))
      as (k & H1 & H2 & _); try done; [by rewrite app_nil_r|by rewrite E2; destruct s|by exists k].
  - injection Hl as <- <-.
    destruct (Hfin s2 l false LOADING s2) as (k & H1 & H2 & _); try done; [by rewrite app_nil_r|by exists k].
Qed.

(** ** Termination *)

Definition unloaded_count g : nat :=
  size (filter (λ x, dynamic_status x.2 = UNLOADED) g).

Lemma unloaded_count_frame g g' : load_frame g g' → (unloaded_count g' ≤ unloaded_count g)%nat.
Proof.
  intros Hf. unfold unloaded_count. rewrite <- !size_dom. apply subseteq_size. intros n.
  rewrite !elem_of_dom. intros (b & [Hb Hu]%map_lookup_filter_Some).
  destruct (load_frame_lookup_back _ _ _ _ Hf Hb) as (a & Ha & [[He|[He _]] _]);
    exists a; apply map_lookup_filter_Some; (split; [done|cbn in *; congruence]).
Qed.

Lemma unloaded_count_mark g n node st :
  g !! n = Some node → dynamic_status node = UNLOADED → st ≠ UNLOADED →
  (unloaded_count (set_dynamic_status st n g) < unloaded_count g)%nat.
Proof.
  intros Hn Hu Hst. unfold unloaded_count. rewrite <- !size_dom. apply subset_size.
  assert (n ∈ dom (filter (λ x, dynamic_status x.2 = UNLOADED) g)) as Hin.
  { apply elem_of_dom. exists node. by apply map_lookup_filter_Some. }
  assert (n ∉ dom (filter (λ x, dynamic_status x.2 = UNLOADED) (set_dynamic_status st n g))) as Hni.
  { intros (b & [Hb Hub]%map_lookup_filter_Some)%elem_of_dom. unfold set_dynamic_status in Hb.
    rewrite lookup_alter_eq, Hn in Hb. by injection Hb as <-. }
  split; [|set_solver]. intros m (b & [Hb Hub]%map_lookup_filter_Some)%elem_of_dom.
  apply elem_of_dom. destruct (decide (m = n)) as [->|Hm]; [by apply elem_of_dom|].
  unfold set_dynamic_status in Hb. rewrite lookup_alter_ne in Hb by done.
  exists b. by apply map_lookup_filter_Some.
Qed.

Lemma load_dependencies_total load deps k : load_ok load →
  (∀ n s, (unloaded_count (m_module_graph s) ≤ k)%nat → is_Some (load n s)) →
  ∀ s, (unloaded_count (m_module_graph s) ≤ k)%nat → is_Some (load_dependencies load deps s).
Proof.
  intros Hok Htot. induction deps as [|d deps IH]; intros s Hk; [by eexists|]. cbn.
  destruct (m_module_graph s !! d) as [dn|] eqn:Hd; [|by eexists].
  destruct (is_dynamic dn) eqn:Hdyn.
  - destruct (Htot d s Hk) as [[r s'] Hl]. rewrite Hl. cbn.
    destruct r as [[|]|]; [|by eexists..]. apply IH.
    destruct (Hok d s _ s' dn Hd Hdyn Hl) as (l & (_ & F & _) & _).
    apply unloaded_count_frame in F. lia.
  - case_bool_decide; [by eexists|by apply IH].
Qed.

Lemma load_total fuel : ∀ n s,
  (unloaded_count (m_module_graph s) < fuel)%nat → is_Some (loadModuleInternal fuel n s).
Proof.
  induction fuel as [|fuel IH]; intros n s Hf; [lia|]. cbn [loadModuleInternal].
  destruct (m_module_graph s !! n) as [node|] eqn:Hn; [|by eexists].
  destruct (dynamic_status node) eqn:Hst; try by eexists.
  case_bool_decide; [by eexists|].
  edestruct (load_dependencies_total (loadModuleInternal fuel) (node_dependencies node) (pred fuel))
    as [[r s2] Hd].
  - apply load_spec.
  - intros m s1 Hm. apply IH.
    assert (0 < fuel)%nat; [|lia]. destruct fuel; [|lia].
    pose proof (unloaded_count_mark _ _ _ LOADING Hn Hst ltac:(done)). lia.
  - pose proof (unloaded_count_mark _ _ _ LOADING Hn Hst ltac:(done)).
    instantiate (1 := s <| m_module_graph ::= set_dynamic_status LOADING n |>). cbn. lia.
  - rewrite Hd. cbn. destruct r as [[|]|]; [|by eexists..].
    destruct (validation_fails _ _); [by eexists|].
    destruct (startup (def node)) as [[]|]; by eexists.
Qed.

Lemma unloaded_count_size g : (unloaded_count g ≤ size g)%nat.
Proof. apply size_filter_le. Qed.

(** Without foreign exceptions a load returns. *)
Definition no_foreign_exception g : Prop :=
  ∀ n node, g !! n = Some node → startup (def node) ≠ Some ThrowsOther.

Lemma no_foreign_frame g g' : load_frame g g' → no_foreign_exception g → no_foreign_exception g'.
Proof.
  intros Hf H n b Hb. destruct (load_frame_lookup_back _ _ _ _ Hf Hb) as (a & Ha & Hab).
  apply node_frame_fields in Hab as (-> & _). by eapply H.
Qed.

Lemma no_foreign_mark g n st : no_foreign_exception g → no_foreign_exception (set_dynamic_status st n g).
Proof.
  intros H m b Hb. unfold set_dynamic_status in Hb. apply lookup_alter_Some in Hb as
    [(-> & a & Ha & ->)|(_ & Hb)]; [exact (H _ _ Ha)|exact (H _ _ Hb)].
Qed.

Lemma load_returns fuel : ∀ n s r s',
  no_foreign_exception (m_module_graph s) → loadModuleInternal fuel n s = Some (r, s') →
  r ≠ LoadThrows.
Proof.
  induction fuel as [|fuel IH]; intros n s r s' Hnf Hl; [done|]. cbn [loadModuleInternal] in Hl.
  destruct (m_module_graph s !! n) as [node|] eqn:Hn; [|by injection Hl as <- <-].
  destruct (dynamic_status node) eqn:Hst; try by injection Hl as <- <-.
  case_bool_decide; [by injection Hl as <- <-|].
  apply bind_Some in Hl as ([r2 s2] & Hd & Hl).
  assert (r2 ≠ LoadThrows).
  { assert (∀ deps s1, no_foreign_exception (m_module_graph s1) →
      load_dependencies (loadModuleInternal fuel) deps s1 = Some (r2, s2) → r2 ≠ LoadThrows) as Hdeps.
    { clear - IH. induction deps as [|d deps IHd]; intros s1 Hnf Hl; [by injection Hl as <- <-|].
      cbn in Hl. destruct (m_module_graph s1 !! d) as [dn|] eqn:Hdn; [|by injection Hl as <- <-].
      destruct (is_dynamic dn) eqn:Hdyn.
      - apply bind_Some in Hl as ([r1 s3] & H1 & Hl). pose proof (IH _ _ _ _ Hnf H1).
        destruct r1 as [[|]|]; [|by injection Hl as <- <-|done]. apply (IHd s3); [|done].
        destruct (load_spec fuel d s1 _ s3 dn Hdn Hdyn H1) as (l & (_ & F & _) & _).
        by eapply no_foreign_frame.
      - case_bool_decide; [by injection Hl as <- <-|by apply (IHd s1)]. }
    eapply (Hdeps _ _ _ Hd). }
  destruct r2 as [[|]|]; [|by injection Hl as <- <-|done].
  destruct (validation_fails _ _); [by injection Hl as <- <-|].
  pose proof (Hnf n node Hn). destruct (startup (def node)) as [[]|]; try done; by injection Hl as <- <-.
  Unshelve. cbn. by apply no_foreign_mark.
Qed.

End LifecycleLoad.
