(* ===== verification/LifecycleInv.v ===== *)
(** * Invariants of the lifecycle manager

    In every reachable state a loaded module has all its dependencies up, and a
    reference count of zero means that no loaded module refers to the module;
    the closure of an unload is closed under the loaded modules that depend on
    its members. *)

From stdpp Require Import sorting.
From S2P Require Import Prelude.
From S2P Require Import Topology.
From S2P Require Import Lifecycle.
From S2P Require Import LifecycleLoad.
Import Topology Lifecycle LifecycleLoad.

Module LifecycleInv.

Implicit Types (g : Graph) (s : Manager) (n d m : string) (node : InternalGraphNode).

(** [m] is loaded and lists [d] among its dependencies. *)
Definition loaded_dependent g m d : Prop :=
  ∃ node, g !! m = Some node ∧ loaded node = true ∧ d ∈ node_dependencies node.

(** ** Reference counts *)

Definition refs_in (l : list (string * InternalGraphNode)) d : nat :=
  sum_list_with (λ x, if loaded x.2 then occ d (node_dependencies x.2) else 0%nat) l.

Lemma refs_in_zero l d :
  refs_in l d = 0%nat ↔ ∀ m node, (m, node) ∈ l → loaded node = true → d ∉ node_dependencies node.
Proof.
  induction l as [|[m node] l IH]; [split; [intros _ ?? H; by apply elem_of_nil in H|done]|].
  cbn. unfold refs_in in IH. split.
  - intros Hz m' node' [[= -> ->]|Hin]%elem_of_cons Hl.
    + rewrite Hl in Hz. rewrite occ_pos. lia.
    + apply (proj1 IH) with m'; [lia|done|done].
  - intros H. rewrite (proj2 IH); [|intros m' node' Hin; apply (H m'); by right].
    destruct (loaded node) eqn:Hl; [|done].
    pose proof (H m node ltac:(by left) Hl) as Hd. rewrite occ_pos in Hd. lia.
Qed.

Definition counted node : bool := is_dynamic node && negb (is_persistent (def node)).

Definition bump (k : nat) node : InternalGraphNode :=
  if counted node then node <| ref_count ::= λ c, c + Z.of_nat k |> else node.

Lemma bump_bump j k node : bump j (bump k node) = bump (k + j) node.
Proof.
  unfold bump. destruct (counted node) eqn:Hc; [|by rewrite Hc].
  assert (counted (node <| ref_count ::= λ c, c + Z.of_nat k |>) = true) as -> by done.
  destruct node. unfold update. cbn. f_equal. lia.
Qed.

Lemma bump_zero node : bump 0 node = node.
Proof. unfold bump. destruct (counted node); [|done]. destruct node. unfold update. cbn. f_equal. lia. Qed.

Lemma count_references_lookup deps g d :
  foldl count_reference g deps !! d = bump (occ d deps) <$> g !! d.
Proof.
  revert g. induction deps as [|x deps IH]; intros g.
  - rewrite occ_nil. cbn [foldl]. destruct (g !! d); [|done]. cbn. by rewrite bump_zero.
  - cbn [foldl]. rewrite IH, occ_cons. unfold count_reference. destruct (decide (x = d)) as [->|Hx].
    + rewrite lookup_alter_eq. destruct (g !! d) as [node|]; [|done].
      cbn [fmap option_fmap option_map]. f_equal. by rewrite <- bump_bump.
    + by rewrite lookup_alter_ne.
Qed.

Lemma recalc_loop l g d :
  foldl (λ g '(_, source_node),
    if loaded source_node then foldl count_reference g (node_dependencies source_node) else g) g l !! d
  = bump (refs_in l d) <$> g !! d.
Proof.
  revert g. induction l as [|[m node] l IH]; intros g; cbn.
  - destruct (g !! d); [|done]. cbn. by rewrite bump_zero.
  - rewrite IH. destruct (loaded node).
    + rewrite count_references_lookup. destruct (g !! d); [|done]. cbn. by rewrite bump_bump.
    + done.
Qed.

Definition reset_count node : InternalGraphNode :=
  if is_dynamic node then node <| ref_count := 0 |> else node.

Lemma recalc_lookup g d :
  recalculateReferenceCounts g !! d =
  (λ node, bump (refs_in (in_name_order (reset_count <$> g)) d) (reset_count node)) <$> g !! d.
Proof.
  unfold recalculateReferenceCounts. rewrite recalc_loop, lookup_fmap.
  by destruct (g !! d).
Qed.

(** Everything but the count. *)
Definition same_but_count node node' : Prop :=
  def node' = def node ∧ dependents node' = dependents node ∧ status node' = status node ∧
  is_dynamic node' = is_dynamic node ∧ dynamic_status node' = dynamic_status node.

Lemma same_but_count_loaded node node' : same_but_count node node' → loaded node' = loaded node.
Proof. intros (_ & _ & _ & Hd & Hs). unfold loaded. by rewrite Hd, Hs. Qed.

Lemma reset_count_same node : same_but_count node (reset_count node).
Proof. unfold reset_count. by destruct (is_dynamic node) eqn:H. Qed.

Lemma bump_same k node : same_but_count node (bump k node).
Proof. unfold bump. by destruct (counted node). Qed.

Lemma recalc_spec g d node' :
  recalculateReferenceCounts g !! d = Some node' →
  ∃ node, g !! d = Some node ∧ same_but_count node node' ∧
    (counted node = true → ref_count node' <= 0 ↔ ∀ m, ¬ loaded_dependent g m d).
Proof.
  rewrite recalc_lookup. intros (node & Hn' & Hn)%fmap_Some. exists node. split; [done|].
  subst node'. set (k := refs_in _ d). split.
  { pose proof (reset_count_same node) as (A1 & A2 & A3 & A4 & A5).
    pose proof (bump_same k (reset_count node)) as (B1 & B2 & B3 & B4 & B5).
    unfold same_but_count. by rewrite B1, B2, B3, B4, B5. }
  intros Hc. assert (Hk : k = 0%nat ↔ ∀ m, ¬ loaded_dependent g m d).
  { subst k. rewrite refs_in_zero. split.
    - intros H m (a & Ha & Hla & Hd). apply (H m (reset_count a)).
      + apply elem_of_in_name_order. by rewrite lookup_fmap, Ha.
      + by rewrite (same_but_count_loaded a) by apply reset_count_same.
      + unfold node_dependencies. by destruct (reset_count_same a) as (-> & _).
    - intros H m b Hb Hlb Hd. apply elem_of_in_name_order in Hb. rewrite lookup_fmap in Hb.
      apply fmap_Some in Hb as (a & Ha & ->). apply (H m). exists a. split; [done|].
      rewrite (same_but_count_loaded a) in Hlb by apply reset_count_same.
      split; [done|]. unfold node_dependencies in *. by destruct (reset_count_same a) as (<- & _). }
  rewrite <- Hk. unfold counted in Hc. apply andb_true_iff in Hc as [Hd Hp].
  unfold bump, counted, reset_count. rewrite Hd. cbn. rewrite Hd, Hp. cbn. lia.
Qed.

Lemma recalc_lookup_some g d node :
  g !! d = Some node → ∃ node', recalculateReferenceCounts g !! d = Some node' ∧ same_but_count node node'.
Proof.
  intros Hn. destruct (recalculateReferenceCounts g !! d) as [node'|] eqn:H.
  - exists node'. split; [done|]. apply recalc_spec in H as (a & Ha & Hs & _). by simplify_eq.
  - rewrite recalc_lookup, Hn in H. done.
Qed.

(** ** The closure of an unload *)

Lemma remaining_refs_zero g (C : gset string) d :
  remaining_refs g C d = 0%nat → ∀ m, loaded_dependent g m d → m ∈ C.
Proof.
  intros Hz m (node & Hn & Hl & Hd). apply elem_of_in_name_order in Hn. revert Hz Hn.
  unfold remaining_refs. generalize (in_name_order g) as l.
  assert (∀ l k, (k ≤ foldl (λ (c : nat) '(n, node),
           if loaded node && negb (bool_decide (n ∈ C))
           then (c + occ d (node_dependencies node))%nat else c) k l)%nat) as Hmono.
  { induction l as [|[x a] l IH]; intros k; cbn; [lia|]. etrans; [|apply IH]. case_match; lia. }
  intros l. generalize 0%nat at 1. induction l as [|[x a] l IH]; intros k Hz Hin.
  - by apply elem_of_nil in Hin.
  - cbn in Hz. apply elem_of_cons in Hin as [[= <- <-]|Hin]; [|by eapply IH].
    destruct (decide (m ∈ C)) as [|Hm]; [done|exfalso]. rewrite Hl in Hz.
    rewrite bool_decide_eq_false_2 in Hz by done. cbn in Hz.
    pose proof (Hmono l (k + occ d (node_dependencies node))%nat). apply occ_pos in Hd. lia.
Qed.

(** One dependency edge between members. *)
Definition member_edge g (C : gset string) (a b : string) : Prop :=
  b ∈ C ∧ ∃ node, g !! a = Some node ∧ b ∈ node_dependencies node.

Definition unloadable g d : Prop :=
  ∃ node, g !! d = Some node ∧ loaded node = true ∧ is_persistent (def node) = false.

Record ClosureInv g root (C : gset string) (to_visit : list string) : Prop := mkClosureInv {
  ci_root : root ∈ C;
  ci_member : ∀ d, d ∈ C → d = root ∨ (unloadable g d ∧ ∀ m, loaded_dependent g m d → m ∈ C);
  ci_visit : ∀ d, d ∈ to_visit → d ∈ C;
  ci_path : ∀ d, d ∈ C → rtc (member_edge g C) root d;
}.

Lemma member_edge_mono g (C C' : gset string) a b : C ⊆ C' → member_edge g C a b → member_edge g C' a b.
Proof. intros Hs [Hb He]. split; [set_solver|done]. Qed.

Lemma visit_spec g root C q d c node :
  ClosureInv g root C q → g !! c = Some node → c ∈ C → d ∈ node_dependencies node →
  ∃ C' k, visit_dependency g (C, q) d = (C', q ++ k) ∧ ClosureInv g root C' (q ++ k) ∧ C ⊆ C' ∧
          (size C' = size C + length k)%nat.
Proof.
  intros HI Hc HcC Hd. unfold visit_dependency.
  assert (Hsame : ∃ C' k, (C, q) = (C', q ++ k) ∧ ClosureInv g root C' (q ++ k) ∧ C ⊆ C' ∧
          (size C' = size C + length k)%nat).
  { exists C, []. rewrite app_nil_r. by split_and!. }
  case_bool_decide as Hin; [done|]. destruct (g !! d) as [dep|] eqn:Hdep; [|done].
  destruct (negb (is_dynamic dep) || _) eqn:Hp; [done|]. case_bool_decide as Hst; [done|].
  case_bool_decide as Hr; [|done]. bool_facts.
  exists ({[d]} ∪ C), [d]. split; [done|]. split_and!; [|set_solver|].
  - constructor.
    + pose proof (ci_root _ _ _ _ HI). set_solver.
    + intros x [->%elem_of_singleton|Hx]%elem_of_union.
      * right. split.
        -- exists dep. unfold loaded. rewrite H, Hst. by rewrite bool_decide_eq_true_2.
        -- intros m Hm. apply elem_of_union. right. by apply (remaining_refs_zero g C d).
      * destruct (ci_member _ _ _ _ HI x Hx) as [|[Hu Hm]]; [by left|right]. split; [done|]. set_solver.
    + intros x [Hx| ->%list_elem_of_singleton]%elem_of_app; [|set_solver].
      pose proof (ci_visit _ _ _ _ HI x Hx). set_solver.
    + assert (Hmono : ∀ x, rtc (member_edge g C) root x → rtc (member_edge g ({[d]} ∪ C)) root x).
      { intros x. apply (rtc_congruence id). intros a b. apply member_edge_mono. set_solver. }
      intros x [->%elem_of_singleton|Hx]%elem_of_union; [|by apply Hmono, (ci_path _ _ _ _ HI)].
      eapply rtc_r; [by apply Hmono, (ci_path _ _ _ _ HI c)|]. split; [set_solver|]. eauto.
  - rewrite size_union by set_solver. rewrite size_singleton. cbn. lia.
Qed.

Lemma visit_all g root c node deps : ∀ C q,
  ClosureInv g root C q → g !! c = Some node → c ∈ C → (∀ d, d ∈ deps → d ∈ node_dependencies node) →
  ∃ C' k, foldl (visit_dependency g) (C, q) deps = (C', q ++ k) ∧ ClosureInv g root C' (q ++ k) ∧
          C ⊆ C' ∧ (size C' = size C + length k)%nat.
Proof.
  induction deps as [|d deps IH]; intros C q HI Hc HcC Hsub.
  - exists C, []. rewrite app_nil_r. by split_and!.
  - destruct (visit_spec g root C q d c node HI Hc HcC) as (C1 & k1 & Hv & HI1 & Hs1 & Hz1).
    { apply Hsub. by left. }
    cbn [foldl]. rewrite Hv.
    destruct (IH C1 (q ++ k1) HI1 Hc) as (C2 & k2 & -> & HI2 & Hs2 & Hz2); [set_solver| |].
    { intros x Hx. apply Hsub. by right. }
    exists C2, (k1 ++ k2). rewrite app_assoc. split_and!; try done; [set_solver|].
    rewrite length_app. lia.
Qed.

Lemma expand_spec g root fuel : ∀ C q,
  root ∈ dom g → ClosureInv g root C q → (length q + size g ≤ fuel + size C)%nat →
  ∃ C', expand_closure fuel g C q = Some C' ∧ ClosureInv g root C' [].
Proof.
  induction fuel as [|fuel IH]; intros C [|c q] Hroot HI Hf.
  - by exists C.
  - exfalso. assert (size C ≤ size g)%nat; [|cbn in Hf; lia].
    rewrite <- size_dom. apply subseteq_size. intros d Hd.
    destruct (ci_member _ _ _ _ HI d Hd) as [->|((a & Ha & _) & _)]; [done|by apply elem_of_dom].
  - by exists C.
  - cbn [expand_closure]. assert (HI' : ClosureInv g root C q).
    { constructor; try apply HI. intros d Hd. apply (ci_visit _ _ _ _ HI). by right. }
    destruct (g !! c) as [node|] eqn:Hc.
    + destruct (visit_all g root c node (node_dependencies node) C q HI' Hc) as
        (C' & k & -> & HI2 & _ & Hz); [|done|].
      { apply (ci_visit _ _ _ _ HI). by left. }
      apply IH; [done|done|]. rewrite length_app. cbn in Hf. lia.
    + apply IH; [done|done|]. cbn in Hf. lia.
Qed.

Lemma closure_spec g root node : g !! root = Some node →
  ∃ C, computeUnloadClosure g root = Some C ∧ ClosureInv g root C [].
Proof.
  intros Hr. apply expand_spec.
  - by apply elem_of_dom.
  - constructor.
    + set_solver.
    + intros d Hd. left. set_solver.
    + intros d Hd. set_solver.
    + intros d Hd. assert (d = root) as -> by set_solver. done.
  - rewrite size_singleton. cbn. lia.
Qed.

Lemma mark_closure_lookup C g n :
  mark_closure C g !! n =
  (λ node, if bool_decide (n ∈ C) then node <| dynamic_status := UNLOADING |> else node) <$> g !! n.
Proof. unfold mark_closure. rewrite map_lookup_imap. by destruct (g !! n). Qed.

End LifecycleInv.
