(* ===== verification/LifecycleReach.v ===== *)
(** * The invariant of the lifecycle manager, event by event *)

From stdpp Require Import sorting.
From S2P Require Import Prelude.
From S2P Require Import Topology.
From S2P Require Import Lifecycle.
From S2P Require Import LifecycleLoad.
From S2P Require Import LifecycleInv.
Import Topology Lifecycle LifecycleLoad LifecycleInv.

Module LifecycleReach.

Implicit Types (g : Graph) (s : Manager) (n d m : string) (node : InternalGraphNode).

Record GraphInv g : Prop := mkGraphInv {
  gi_name : ∀ n node, g !! n = Some node → name (def node) = n;
  gi_deps : deps_loaded g;
  gi_refs : ∀ d node, g !! d = Some node → counted node = true → ref_count node <= 0 →
              ∀ m, ¬ loaded_dependent g m d;
  gi_std : no_foreign_exception g;
  gi_static : ∀ n node, g !! n = Some node → is_dynamic node = false → dynamic_status node = UNLOADED;
}.

Lemma graph_inv_empty : GraphInv ∅.
Proof. constructor; intros ??; by rewrite lookup_empty. Qed.

(** A dependency of a loaded module is up, so it is not being unloaded. *)
Lemma loaded_dependent_up g m d : deps_loaded g → loaded_dependent g m d → up g d.
Proof. intros HD (node & Hn & Hl & Hd). by eapply HD. Qed.

Lemma not_up_no_dependents g d node :
  deps_loaded g → g !! d = Some node → is_dynamic node = true → dynamic_status node ≠ LOADED →
  ∀ m, ¬ loaded_dependent g m d.
Proof.
  intros HD Hd Hdyn Hst m Hm. apply loaded_dependent_up in Hm; [|done].
  unfold up in Hm. by rewrite Hd, Hdyn in Hm.
Qed.

(** *** Changes of the graph *)

(** Nodes keep what the invariant reads, and no module gets loaded. *)
Lemma graph_inv_weaken g g' :
  GraphInv g →
  (∀ n node', g' !! n = Some node' → ∃ node, g !! n = Some node ∧
     def node' = def node ∧ is_dynamic node' = is_dynamic node ∧ ref_count node' = ref_count node ∧
     (loaded node' = true → loaded node = true) ∧
     (is_dynamic node = false → dynamic_status node' = dynamic_status node)) →
  (∀ m d, loaded_dependent g' m d → up g d → up g' d) →
  GraphInv g'.
Proof.
  intros HI Hback Hup.
  assert (Hld : ∀ m d, loaded_dependent g' m d → loaded_dependent g m d).
  { intros m d (b & Hb & Hl & Hd). destruct (Hback m b Hb) as (a & Ha & Hdef & _ & _ & Hla & _).
    exists a. split_and!; [done|by apply Hla|]. unfold node_dependencies in *. by rewrite <- Hdef. }
  constructor.
  - intros n b Hb. destruct (Hback n b Hb) as (a & Ha & -> & _). by apply (gi_name _ HI).
  - intros n b Hb Hl d Hd. assert (loaded_dependent g' n d) as Hm by (by exists b).
    apply (Hup n d Hm). eapply loaded_dependent_up; [apply HI|by apply Hld].
  - intros d b Hb Hc Hr m Hm. destruct (Hback d b Hb) as (a & Ha & Hdef & Hdyn & Href & _).
    apply (gi_refs _ HI d a Ha) with m; [|by rewrite <- Href|by apply Hld].
    unfold counted in *. by rewrite <- Hdyn, <- Hdef.
  - intros n b Hb. destruct (Hback n b Hb) as (a & Ha & -> & _). by apply (gi_std _ HI n).
  - intros n b Hb. destruct (Hback n b Hb) as (a & Ha & _ & -> & _ & _ & Hs). intros Hd.
    rewrite Hs by done. by apply (gi_static _ HI n).
Qed.

Lemma up_recalc g d : up (recalculateReferenceCounts g) d ↔ up g d.
Proof.
  unfold up. destruct (g !! d) as [a|] eqn:Ha.
  - destruct (recalc_lookup_some g d a Ha) as (b & -> & (_ & _ & -> & -> & ->)). done.
  - by rewrite recalc_lookup, Ha.
Qed.

Lemma loaded_dependent_recalc g m d :
  loaded_dependent (recalculateReferenceCounts g) m d ↔ loaded_dependent g m d.
Proof.
  split; intros (a & Ha & Hl & Hd).
  - apply recalc_spec in Ha as (b & Hb & Hs & _). exists b. split; [done|].
    rewrite <- (same_but_count_loaded b a Hs). split; [done|]. unfold node_dependencies in *.
    by destruct Hs as (<- & _).
  - destruct (recalc_lookup_some g m a Ha) as (b & Hb & Hs). exists b. split; [done|].
    rewrite (same_but_count_loaded a b Hs). split; [done|]. unfold node_dependencies in *.
    by destruct Hs as (-> & _).
Qed.

(** The invariant but for the counts, which the recount restores. *)
Lemma graph_inv_recalc g :
  (∀ n node, g !! n = Some node → name (def node) = n) → deps_loaded g → no_foreign_exception g →
  (∀ n node, g !! n = Some node → is_dynamic node = false → dynamic_status node = UNLOADED) →
  GraphInv (recalculateReferenceCounts g).
Proof.
  intros Hnm HD Hnf Hsta. constructor.
  - intros n b Hb. apply recalc_spec in Hb as (a & Ha & (-> & _) & _). by apply Hnm.
  - intros n b Hb Hl d Hd. apply up_recalc.
    assert (loaded_dependent (recalculateReferenceCounts g) n d) as Hm by (by exists b).
    by eapply loaded_dependent_up, loaded_dependent_recalc.
  - intros d b Hb Hc Hr m Hm. apply (proj1 (loaded_dependent_recalc _ _ _)) in Hm.
    apply recalc_spec in Hb as (a & Ha & Hs & Href). assert (Hca : counted a = true).
    { unfold counted in *. by destruct Hs as (<- & _ & _ & <- & _). }
    exact (proj1 (Href Hca) Hr m Hm).
  - intros n b Hb. apply recalc_spec in Hb as (a & Ha & (-> & _) & _). by eapply Hnf.
  - intros n b Hb. apply recalc_spec in Hb as (a & Ha & (_ & _ & _ & -> & ->) & _). by eapply Hsta.
Qed.

Lemma add_dependents_lookup n deps g m : 
  ∃ f, (∀ node, def (f node) = def node ∧ status (f node) = status node ∧
                is_dynamic (f node) = is_dynamic node ∧ ref_count (f node) = ref_count node ∧
                dynamic_status (f node) = dynamic_status node) ∧
       foldl (λ g dep, add_dependent n dep g) g deps !! m = f <$> g !! m.
Proof.
  revert g. induction deps as [|d deps IH]; intros g.
  - exists id. split; [done|]. cbn. by destruct (g !! m).
  - destruct (IH (add_dependent n d g)) as (f & Hf & Hl). cbn [foldl].
    rewrite Hl. unfold add_dependent. destruct (decide (d = m)) as [->|Hd].
    + rewrite lookup_alter_eq.
      exists (λ node, f (node <| dependents ::= λ l, l ++ [n] |>)). split.
      * intros node. destruct (Hf (node <| dependents ::= λ l, l ++ [n] |>)) as (-> & -> & -> & -> & ->).
        done.
      * by destruct (g !! m).
    + rewrite lookup_alter_ne by done. by exists f.
Qed.

Lemma remove_dependents_lookup n deps g m :
  ∃ f, (∀ node, def (f node) = def node ∧ status (f node) = status node ∧
                is_dynamic (f node) = is_dynamic node ∧ ref_count (f node) = ref_count node ∧
                dynamic_status (f node) = dynamic_status node) ∧
       foldl (λ g dep, remove_dependent n dep g) g deps !! m = f <$> g !! m.
Proof.
  revert g. induction deps as [|d deps IH]; intros g.
  - exists id. split; [done|]. cbn. by destruct (g !! m).
  - destruct (IH (remove_dependent n d g)) as (f & Hf & Hl). cbn [foldl].
    rewrite Hl. unfold remove_dependent. destruct (decide (d = m)) as [->|Hd].
    + rewrite lookup_alter_eq.
      exists (λ node, f (node <| dependents ::= filter (λ x, x ≠ n) |>)). split.
      * intros node. destruct (Hf (node <| dependents ::= filter (λ x, x ≠ n) |>))
          as (-> & -> & -> & -> & ->). done.
      * by destruct (g !! m).
    + rewrite lookup_alter_ne by done. by exists f.
Qed.

(** *** Initialisation *)

(** Nodes of static modules under their names. *)
Definition static_graph g : Prop :=
  ∀ n node, g !! n = Some node →
    name (def node) = n ∧ is_dynamic node = false ∧ startup (def node) ≠ Some ThrowsOther ∧
    dynamic_status node = UNLOADED.

Lemma static_graph_alter f n g :
  (∀ node, def (f node) = def node ∧ is_dynamic (f node) = is_dynamic node ∧
           dynamic_status (f node) = dynamic_status node) →
  static_graph g → static_graph (alter f n g).
Proof.
  intros Hf Hg m b [(-> & a & Ha & ->)|(_ & Hb)]%lookup_alter_Some; [|by apply Hg].
  destruct (Hf a) as (-> & -> & ->). by apply Hg.
Qed.

Lemma emplace_static_inv defs : ∀ g g',
  Forall (λ df, startup df ≠ Some ThrowsOther) defs →
  static_graph g → emplace_static defs g = inr g' → static_graph g'.
Proof.
  induction defs as [|d defs IH]; intros g g' Hd Hg Hr; cbn in Hr; [by simplify_eq|].
  apply Forall_cons in Hd as [Hd1 Hd2]. case_bool_decide; [done|]. eapply IH; [done| |done].
  intros n b [(<- & <-)|(_ & Hb)]%lookup_insert_Some; [done|by apply Hg].
Qed.

Lemma link_dependencies_inv n deps : ∀ g g',
  static_graph g → link_dependencies n deps g = inr g' → static_graph g'.
Proof.
  induction deps as [|d deps IH]; intros g g' Hg Hr; cbn in Hr; [by simplify_eq|].
  case_bool_decide; [|done]. eapply IH; [|done]. by apply static_graph_alter.
Qed.

Lemma link_all_inv entries : ∀ g g',
  static_graph g → link_all entries g = inr g' → static_graph g'.
Proof.
  induction entries as [|[n node] entries IH]; intros g g' Hg Hr; cbn in Hr; [by simplify_eq|].
  destruct (link_dependencies _ _ g) as [|g1] eqn:Hl; [done|]. eapply IH; [|done].
  by eapply link_dependencies_inv.
Qed.

Lemma start_static_inv order : ∀ s s',
  static_graph (m_module_graph s) → start_static order s = inr s' →
  static_graph (m_module_graph s') ∧
  s' = s <| m_module_graph := m_module_graph s' |> <| calls := calls s' |>.
Proof.
  induction order as [|n order IH]; intros s s' Hg Hr; cbn [start_static] in Hr.
  - simplify_eq. split; [done|by destruct s'].
  - set (s1 := s <| m_module_graph ::= _ |> <| calls ::= _ |>) in *.
    assert (Hs1 : ∀ st, static_graph (set_status st n (m_module_graph s1))).
    { intros st. apply static_graph_alter; [done|]. by apply static_graph_alter. }
    assert (Hgo : start_static order (s1 <| m_module_graph ::= set_status Started n |>) = inr s' →
      static_graph (m_module_graph s') ∧
      s' = s <| m_module_graph := m_module_graph s' |> <| calls := calls s' |>).
    { intros Hr'. pose proof (IH (s1 <| m_module_graph ::= set_status Started n |>) s') as Hih. destruct (Hih (Hs1 Started) Hr') as [H1 H2]. split; [done|].
      rewrite H2. by destruct s. }
    destruct (_ ≫= _) as [[]|]; try done; by apply Hgo.
Qed.

Lemma initialize_inv s s' :
  m_module_graph s = ∅ → m_is_initialized s = false →
  Forall (λ df, startup df ≠ Some ThrowsOther) (m_registered_modules s) →
  initialize s = Some (inr s') →
  static_graph (m_module_graph s') ∧
  s' = s <| m_is_initialized := true |> <| m_registered_modules := [] |>
         <| m_module_graph := m_module_graph s' |> <| m_startup_order := m_startup_order s' |>
         <| calls := calls s' |>.
Proof.
  intros Hg Hi Hreg Hr. unfold initialize, buildStaticGraph in Hr. rewrite Hi in Hr. cbn in Hr.
  destruct (emplace_static _ _) as [|g1] eqn:He; [done|].
  destruct (link_all _ _) as [|g2] eqn:Hl; [done|].
  apply bind_Some in Hr as ([order|bad] & _ & Hr); [|done]. apply (inj Some) in Hr.
  apply start_static_inv in Hr as [H1 H2].
  - split; [done|]. rewrite H2. by destruct s.
  - cbn. eapply link_all_inv, Hl. eapply emplace_static_inv, He; [done|].
    rewrite Hg. intros n node. by rewrite lookup_empty.
Qed.

Lemma static_graph_inv g : static_graph g → GraphInv g.
Proof.
  intros Hg. assert (Hnl : ∀ n node, g !! n = Some node → loaded node = false).
  { intros n node Hn. unfold loaded. by destruct (Hg n node Hn) as (_ & -> & _). }
  constructor.
  - intros n node Hn. by apply (Hg n node).
  - intros n node Hn Hl. by rewrite (Hnl n node Hn) in Hl.
  - intros d node _ _ _ m (a & Ha & Hl & _). by rewrite (Hnl m a Ha) in Hl.
  - intros n node Hn. by apply (Hg n node).
  - intros n node Hn _. by apply (Hg n node).
Qed.

(** ** The state *)

Record LInv s : Prop := mkLInv {
  li_graph : GraphInv (m_module_graph s);
  li_fresh : m_is_initialized s = false →
    m_module_graph s = ∅ ∧ m_shutdown_queue s = [] ∧ thread_stack s = [] ∧
    thread_running s = None ∧ m_pending_unload_closures s = ∅;
  li_registered : Forall (λ df, startup df ≠ Some ThrowsOther) (m_registered_modules s);
  li_running : ∀ copy, thread_running s = Some copy →
    ∃ node, m_module_graph s !! name (def copy) = Some node ∧ def node = def copy ∧
            is_dynamic node = true ∧ dynamic_status node = UNLOADING;
}.

(** No callback throws anything but a [std::exception]. *)
Definition std_exceptions_only (e : event) : Prop :=
  match e with
  | RegisterStatic d | RegisterDynamic d => startup d ≠ Some ThrowsOther
  | _ => True
  end.

Lemma linv_initial : LInv initial.
Proof. constructor; [apply graph_inv_empty|done|constructor|done]. Qed.

Lemma linv_register_dynamic (d : InternalModuleDef) s :
  LInv s → startup d ≠ Some ThrowsOther → LInv (registerDynamicModule d s).2.
Proof.
  intros HI Hd. unfold registerDynamicModule. destruct (negb _ || _) eqn:Hi; [done|].
  case_bool_decide as Hn; [done|]. case_bool_decide as Hdep; [done|].
  case_bool_decide as Hc; [done|]. cbn. bool_facts.
  assert (Hnone : m_module_graph s !! name d = None) by (by apply eq_None_not_Some).
  set (new := mkNode d [] Registered true UNLOADED 0).
  assert (Hlook : ∀ m b, foldl (λ g dep, add_dependent (name d) dep g)
      (<[name d := new]> (m_module_graph s)) (dependencies d) !! m = Some b →
    ∃ a, <[name d := new]> (m_module_graph s) !! m = Some a ∧ def b = def a ∧ status b = status a ∧
         is_dynamic b = is_dynamic a ∧ ref_count b = ref_count a ∧ dynamic_status b = dynamic_status a).
  { intros m b Hb. destruct (add_dependents_lookup (name d) (dependencies d)
      (<[name d := new]> (m_module_graph s)) m) as (f & Hf & Hl).
    rewrite Hl in Hb. apply fmap_Some in Hb as (a & Ha & ->). exists a. split; [done|apply Hf]. }
  assert (Hld : ∀ m x, loaded_dependent (foldl (λ g dep, add_dependent (name d) dep g)
      (<[name d := new]> (m_module_graph s)) (dependencies d)) m x → loaded_dependent (m_module_graph s) m x).
  { intros m x (b & Hb & Hl & Hx). destruct (Hlook m b Hb) as (a & Ha & Hdef & Hst & Hdyn & _ & Hds).
    unfold loaded in Hl. rewrite Hdyn, Hds in Hl.
    apply lookup_insert_Some in Ha as [(<- & <-)|(Hm & Ha)]; [done|].
    exists a. split_and!; [done|done|]. unfold node_dependencies in *. by rewrite <- Hdef. }
  assert (Hup : ∀ x, up (m_module_graph s) x → up (foldl (λ g dep, add_dependent (name d) dep g)
      (<[name d := new]> (m_module_graph s)) (dependencies d)) x).
  { intros x Hx. unfold up in *. destruct (add_dependents_lookup (name d) (dependencies d)
      (<[name d := new]> (m_module_graph s)) x) as (f & Hf & ->).
    assert (x ≠ name d) by (intros ->; by rewrite Hnone in Hx).
    rewrite lookup_insert_ne by done. destruct (m_module_graph s !! x) as [a|]; [|done]. cbn.
    by destruct (Hf a) as (_ & -> & -> & _ & ->). }
  pose proof (li_graph _ HI) as HG. constructor; cbn.
  - constructor.
    + intros m b Hb. destruct (Hlook m b Hb) as (a & Ha & -> & _).
      apply lookup_insert_Some in Ha as [(<- & <-)|(_ & Ha)]; [done|by apply (gi_name _ HG)].
    + intros m b Hb Hl x Hx. apply Hup. eapply loaded_dependent_up; [apply HG|]. apply (Hld m). by exists b.
    + intros x b Hb Hcnt Hr m Hm. apply Hld in Hm.
      destruct (Hlook x b Hb) as (a & Ha & Hdef & _ & Hdyn & Href & _).
      apply lookup_insert_Some in Ha as [(<- & <-)|(_ & Ha)].
      * apply loaded_dependent_up in Hm; [|apply HG]. unfold up in Hm. by rewrite Hnone in Hm.
      * apply (gi_refs _ HG x a Ha) with m; [|by rewrite <- Href|done].
        unfold counted in *. by rewrite <- Hdyn, <- Hdef.
    + intros m b Hb. destruct (Hlook m b Hb) as (a & Ha & -> & _).
      apply lookup_insert_Some in Ha as [(<- & <-)|(_ & Ha)]; [done|by apply (gi_std _ HG m)].
    + intros m b Hb. destruct (Hlook m b Hb) as (a & Ha & _ & _ & -> & _ & ->).
      apply lookup_insert_Some in Ha as [(<- & <-)|(_ & Ha)]; [done|by apply (gi_static _ HG m)].
  - congruence.
  - apply HI.
  - intros copy Hr. destruct (li_running _ HI copy Hr) as (a & Ha & Hdef & Hdyn & Hst).
    destruct (add_dependents_lookup (name d) (dependencies d)
      (<[name d := new]> (m_module_graph s)) (name (def copy))) as (f & Hf & Hl).
    assert (name (def copy) ≠ name d) by congruence.
    rewrite lookup_insert_ne, Ha in Hl by done. exists (f a).
    split; [done|]. destruct (Hf a) as (-> & _ & -> & _ & ->). done.
Qed.

Lemma load_cases n s r s' :
  loadModule n s = Some (r, s') →
  s' = s ∨
  (m_is_initialized s = true ∧ ∃ node ok s1, m_module_graph s !! n = Some node ∧ is_dynamic node = true ∧
     loadModuleInternal (S (size (m_module_graph s))) n s = Some (LoadReturns ok, s1) ∧
     s' = s1 <| m_module_graph ::= recalculateReferenceCounts |> ∧ r = Some ok) ∨
  (∃ node, m_module_graph s !! n = Some node ∧ is_dynamic node = true ∧
     loadModuleInternal (S (size (m_module_graph s))) n s = Some (LoadThrows, s')).
Proof.
  unfold loadModule. intros Hl. destruct (m_is_initialized s) eqn:Hi; cbn [negb] in Hl; [|simplify_eq; by left].
  destruct (_ || _); [simplify_eq; by left|].
  destruct (m_module_graph s !! n) as [node|] eqn:Hn; [|simplify_eq; by left].
  destruct (is_dynamic node) eqn:Hd; cbn [negb] in Hl; [|simplify_eq; by left].
  apply bind_Some in Hl as ([[ok|] s1] & Hl & Hr); apply (inj Some) in Hr; simplify_eq.
  - right. left. split; [done|]. exists node, ok, s1. by split_and!.
  - right. right. by exists node.
Qed.

Lemma linv_load n s r s' : LInv s → loadModule n s = Some (r, s') → LInv s'.
Proof.
  intros HI Hl. pose proof (li_graph _ HI) as HG.
  apply load_cases in Hl as [->|[(Hi & node & ok & s1 & Hn & Hd & Hl & -> & _)|(node & Hn & Hd & Hl)]];
    [done| |].
  - destruct (load_spec _ n s _ s1 node Hn Hd Hl) as (l & (Hc & Hf & Hst & E) & Hk & _).
    assert (Hnm : ∀ m b, m_module_graph s1 !! m = Some b → name (def b) = m).
    { intros m b Hb. destruct (load_frame_lookup_back _ _ _ _ Hf Hb) as (a & Ha & Hab).
      apply node_frame_fields in Hab as (-> & _). by apply (gi_name _ HG). }
    constructor; cbn.
    + apply graph_inv_recalc; [done|apply Hk, HG| |]; [by eapply no_foreign_frame, HG|].
      intros m b Hb Hdb. destruct (load_frame_lookup_back _ _ _ _ Hf Hb) as (a & Ha & Hab).
      assert (Hda : is_dynamic a = false) by (apply node_frame_fields in Hab; naive_solver).
      pose proof (gi_static _ HG m a Ha Hda). destruct Hab as [[He|(_ & He & _)] _]; congruence.
    + rewrite E. cbn. congruence.
    + rewrite E. apply HI.
    + rewrite E. cbn. intros copy Hr. destruct (li_running _ HI copy Hr) as (a & Ha & Hdef & Hdyn & Hs).
      destruct (load_frame_lookup _ _ _ _ Hf Ha) as (b & Hb & Hab).
      destruct (recalc_lookup_some _ _ _ Hb) as (c & Hcc & (Hc1 & _ & _ & Hc4 & Hc5)).
      exists c. split; [done|]. rewrite Hc1, Hc4, Hc5.
      pose proof (node_frame_fields _ _ Hab) as (-> & -> & _). split_and!; try done.
      destruct Hab as [[He|[He _]] _]; congruence.
  - exfalso. eapply load_returns; [|done|done]. apply HG.
Qed.

Lemma unload_cases n s r s' :
  unloadModule n s = Some (r, s') →
  s' = s ∨
  (m_is_initialized s = true ∧ r = Some true ∧ ∃ node C, m_module_graph s !! n = Some node ∧
     loaded node = true ∧ is_persistent (def node) = false ∧ ref_count node <= 0 ∧
     computeUnloadClosure (m_module_graph s) n = Some C ∧
     s' = s <| m_marked_for_unload ::= union C |>
            <| m_module_graph := mark_closure C (m_module_graph s) |>
            <| m_pending_unload_closures ::= <[n := C]> |>
            <| m_dyn_shutdown_thread_started := true |>
            <| m_shutdown_queue ::= λ q, q ++ [n] |>).
Proof.
  unfold unloadModule. intros Hl. destruct (m_is_initialized s) eqn:Hi; cbn [negb] in Hl; [|simplify_eq; by left].
  destruct (_ || _); [simplify_eq; by left|].
  destruct (m_module_graph s !! n) as [node|] eqn:Hn; [|simplify_eq; by left].
  destruct (is_dynamic node) eqn:Hd; cbn [negb] in Hl; [|simplify_eq; by left].
  case_bool_decide as Hst; [simplify_eq; by left|].
  destruct (is_persistent (def node)) eqn:Hp; [simplify_eq; by left|].
  destruct (Z.ltb_spec 0 (ref_count node)); [simplify_eq; by left|].
  apply bind_Some in Hl as (C & HC & Hl). case_bool_decide; apply (inj Some) in Hl;
    apply pair_equal_spec in Hl as [<- <-]; [by left|].
  right. split_and!; try done. exists node, C. split_and!; try done.
  unfold loaded. rewrite Hd. by rewrite bool_decide_eq_true_2.
Qed.

(** No loaded module outside the closure depends on a member. *)
Lemma closure_dependents g n node C :
  GraphInv g → g !! n = Some node → loaded node = true → is_persistent (def node) = false →
  ref_count node <= 0 → computeUnloadClosure g n = Some C →
  ClosureInv g n C [] ∧ ∀ d, d ∈ C → ∀ m, loaded_dependent g m d → m ∈ C.
Proof.
  intros HG Hn Hl Hp Hr HC. destruct (closure_spec g n node Hn) as (C' & HC' & HI). simplify_eq.
  split; [done|]. intros d Hd m Hm.
  destruct (ci_member _ _ _ _ HI d Hd) as [->|[_ H]]; [|by apply H].
  exfalso. eapply (gi_refs _ HG n node Hn); [|done|done]. unfold counted. rewrite Hp.
  unfold loaded in Hl. by apply andb_true_iff in Hl as [-> _].
Qed.

(** The members were loaded. *)
Lemma closure_loaded g n node C d :
  g !! n = Some node → loaded node = true → ClosureInv g n C [] → d ∈ C →
  ∃ a, g !! d = Some a ∧ loaded a = true.
Proof.
  intros Hn Hl HI Hd. destruct (ci_member _ _ _ _ HI d Hd) as [->|[(a & Ha & Hla & _) _]]; eauto.
Qed.

Lemma linv_unload n s r s' : LInv s → unloadModule n s = Some (r, s') → LInv s'.
Proof.
  intros HI Hu. pose proof (li_graph _ HI) as HG.
  apply unload_cases in Hu as [->|(Hi & -> & node & C & Hn & Hl & Hp & Hr & HC & ->)]; [done|].
  destruct (closure_dependents _ n node C HG Hn Hl Hp Hr HC) as [HCI Hcl].
  constructor; cbn.
  - eapply graph_inv_weaken; [exact HG| |].
    + intros m b Hb. rewrite mark_closure_lookup in Hb. apply fmap_Some in Hb as (a & Ha & ->).
      exists a. split; [done|]. case_bool_decide as Hin; [|done]. split_and!; try done.
      * unfold loaded. cbn. by rewrite andb_false_r.
      * destruct (closure_loaded _ n node C m Hn Hl HCI Hin) as (a' & Ha' & Hla).
        assert (a' = a) as -> by congruence. unfold loaded in Hla. by destruct (is_dynamic a).
    + intros m d (b & Hb & Hlb & Hd) Hup. unfold up in *. rewrite mark_closure_lookup.
      destruct (m_module_graph s !! d) as [a|] eqn:Ha; [|done]. cbn.
      case_bool_decide as Hin; [|done]. exfalso.
      rewrite mark_closure_lookup in Hb. apply fmap_Some in Hb as (x & Hx & ->).
      case_bool_decide as Hm; [unfold loaded in Hlb; cbn in Hlb; by rewrite andb_false_r in Hlb|].
      apply Hm, (Hcl d Hin). by exists x.
  - congruence.
  - apply HI.
  - intros copy Hrun. destruct (li_running _ HI copy Hrun) as (a & Ha & Hdef & Hdyn & Hs).
    rewrite mark_closure_lookup, Ha. cbn. eexists. split; [done|]. by case_bool_decide.
Qed.

Lemma linv_thread_begin s s' : LInv s → thread_begin s = Some s' → LInv s'.
Proof.
  intros HI Ht. unfold thread_begin in Ht. destruct (thread_running s) eqn:Hr; [done|].
  destruct (thread_stack s) as [|n stack] eqn:Hst; [done|].
  assert (Hin : m_is_initialized s = true).
  { destruct (m_is_initialized s) eqn:Hi; [done|]. destruct (li_fresh _ HI Hi) as (_ & _ & ? & _).
    congruence. }
  cbn in Ht. destruct (m_module_graph s !! n) as [node|] eqn:Hn.
  - pose proof (gi_name _ (li_graph _ HI) n node Hn) as Hnm.
    case_bool_decide as Hs; apply (inj Some) in Ht as <-;
      (constructor; cbn; [apply HI|congruence|apply HI|]); intros copy Hc; [congruence|].
    injection Hc as <-. exists node. rewrite Hnm. split_and!; try done.
    + destruct (is_dynamic node) eqn:Hd; [done|].
      pose proof (gi_static _ (li_graph _ HI) n node Hn Hd). congruence.
  - apply (inj Some) in Ht as <-. constructor; cbn; [apply HI|congruence|apply HI|congruence].
Qed.

(** A module that is not loaded, and that no loaded module depends on, is
    removed. *)
Definition remove_node n deps g : Graph :=
  delete n (foldl (λ g dep, remove_dependent n dep g) g deps).

Lemma remove_node_lookup n deps g m :
  ∃ f, (∀ node, def (f node) = def node ∧ status (f node) = status node ∧
                is_dynamic (f node) = is_dynamic node ∧ ref_count (f node) = ref_count node ∧
                dynamic_status (f node) = dynamic_status node) ∧
       remove_node n deps g !! m = if decide (m = n) then None else f <$> g !! m.
Proof.
  destruct (remove_dependents_lookup n deps g m) as (f & Hf & Hl). exists f. split; [done|].
  unfold remove_node. case_decide as Hm; [subst m; by rewrite lookup_delete_eq|].
  by rewrite lookup_delete_ne.
Qed.

Lemma graph_inv_remove n node deps g :
  GraphInv g → g !! n = Some node → is_dynamic node = true → dynamic_status node ≠ LOADED →
  GraphInv (recalculateReferenceCounts (remove_node n deps g)).
Proof.
  intros HG Hn Hd Hs. assert (Hnd := not_up_no_dependents g n node (gi_deps _ HG) Hn Hd Hs).
  assert (Hback : ∀ m b, remove_node n deps g !! m = Some b → ∃ a, g !! m = Some a ∧
    def b = def a ∧ is_dynamic b = is_dynamic a ∧ dynamic_status b = dynamic_status a).
  { intros m b Hb. destruct (remove_node_lookup n deps g m) as (f & Hf & Hl). rewrite Hl in Hb.
    case_decide; [done|]. apply fmap_Some in Hb as (a & Ha & ->). exists a. split; [done|].
    by destruct (Hf a) as (-> & _ & -> & _ & ->). }
  apply graph_inv_recalc.
  - intros m b Hb. destruct (Hback m b Hb) as (a & Ha & -> & _). by apply (gi_name _ HG).
  - intros m b Hb Hl d Hdd. destruct (Hback m b Hb) as (a & Ha & Hdef & Hdyn & Hst).
    assert (Hm : loaded_dependent g m d).
    { exists a. split_and!; [done| |].
      - unfold loaded in *. by rewrite <- Hdyn, <- Hst.
      - unfold node_dependencies in *. by rewrite <- Hdef. }
    assert (d ≠ n) by (intros ->; by apply (Hnd m)).
    apply loaded_dependent_up in Hm; [|apply HG]. unfold up in *.
    destruct (remove_node_lookup n deps g d) as (f & Hf & ->). rewrite decide_False by done.
    destruct (g !! d) as [x|]; [|done]. cbn. by destruct (Hf x) as (_ & -> & -> & _ & ->).
  - intros m b Hb. destruct (Hback m b Hb) as (a & Ha & -> & _). by apply (gi_std _ HG m).
  - intros m b Hb. destruct (Hback m b Hb) as (a & Ha & _ & -> & ->). by apply (gi_static _ HG m).
Qed.

(** A module that is not loaded gets another status than LOADED. *)
Lemma graph_inv_status n node st g :
  GraphInv g → g !! n = Some node → is_dynamic node = true → dynamic_status node ≠ LOADED →
  st ≠ LOADED → GraphInv (set_dynamic_status st n g).
Proof.
  intros HG Hn Hd Hs Hst. assert (Hnd := not_up_no_dependents g n node (gi_deps _ HG) Hn Hd Hs).
  assert (Hld : ∀ m d, loaded_dependent (set_dynamic_status st n g) m d → loaded_dependent g m d).
  { intros m d (b & Hb & Hl & Hdd). unfold set_dynamic_status in Hb.
    apply lookup_alter_Some in Hb as [(<- & a & Ha & ->)|(_ & Hb)]; [|by exists b].
    unfold loaded in Hl. cbn in Hl. bool_facts. by bool_facts. }
  eapply graph_inv_weaken; [done| |].
  - intros m b Hb. unfold set_dynamic_status in Hb.
    apply lookup_alter_Some in Hb as [(<- & a & Ha & ->)|(_ & Hb)]; [|by exists b].
    exists a. split; [done|]. split_and!; try done; simplify_eq.
    + unfold loaded. cbn. intros Hl. bool_facts. by bool_facts.
    + cbn. congruence.
  - intros m d Hm Hu. unfold up, set_dynamic_status in *. destruct (decide (d = n)) as [->|Hdn].
    + by apply Hld, Hnd in Hm.
    + by rewrite lookup_alter_ne.
Qed.

Lemma linv_thread_end s s' : LInv s → thread_end s = Some s' → LInv s'.
Proof.
  intros HI Ht. unfold thread_end in Ht. destruct (thread_running s) as [copy|] eqn:Hr; [|done].
  destruct (li_running _ HI copy Hr) as (node & Hn & Hdef & Hd & Hs).
  assert (Hin : m_is_initialized s = true).
  { destruct (m_is_initialized s) eqn:Hi; [done|]. destruct (li_fresh _ HI Hi) as (_ & _ & _ & ? & _).
    congruence. }
  assert (Hfin : ∀ cl s1, LInv s1 ∨ True →
    s1 = s <| thread_running := None |> <| m_pending_unload_closures := cl |> →
    LInv (let '(deps_to_process, s2) := cleanupAfterUnload_ (name (def copy)) (node_dependencies copy) s1 in
          s2 <| thread_stack ::= λ st, deps_to_process ++ st |>)).
  { intros cl s1 _ ->. unfold cleanupAfterUnload_. cbn.
    rewrite bool_decide_eq_true_2 by (by rewrite Hn; eexists).
    constructor; cbn; [|congruence|apply HI|done].
    eapply graph_inv_remove; [apply HI|done|done|congruence]. }
  assert (Hfail : ∀ st s1, st ≠ LOADED →
    m_module_graph s1 = set_dynamic_status st (name (def copy)) (m_module_graph s) →
    m_is_initialized s1 = true → m_registered_modules s1 = m_registered_modules s →
    thread_running s1 = None → LInv s1).
  { intros st s1 Hst Hg Hi Hreg Hrun. constructor; [|congruence|rewrite Hreg; apply HI|congruence].
    rewrite Hg. eapply graph_inv_status; [apply HI|done|done|congruence|done]. }
  destruct (validation_fails (def copy) AtUnload).
  - destruct (owner_managed_teardown (def copy)); apply (inj Some) in Ht as <-.
    + eapply Hfin; [by right|done].
    + by eapply (Hfail FAILED_SHUTDOWN).
  - destruct (timedShutdown _ _); apply (inj Some) in Ht as <-.
    + eapply Hfin; [by right|done].
    + by eapply (Hfail SHUTDOWN_TIMEOUT).
    + by eapply (Hfail FAILED_SHUTDOWN).
Qed.

Lemma linv_event e s s' : LInv s → std_exceptions_only e → run_event e s = Some s' → LInv s'.
Proof.
  intros HI He Hrun. destruct e as [d| |d|n|n| | | |]; cbn [run_event] in Hrun.
  - unfold registerStaticModule in Hrun. destruct (m_is_initialized s) eqn:Hi; [done|].
    apply (inj Some) in Hrun as <-. constructor; cbn; try apply HI; try done.
    apply Forall_app. split; [apply HI|by constructor].
  - apply bind_Some in Hrun as ([|s1] & Hini & Hrun); [done|]. simplify_eq.
    destruct (m_is_initialized s) eqn:Hi.
    + unfold initialize in Hini. rewrite Hi in Hini. by simplify_eq.
    + destruct (li_fresh _ HI Hi) as (Hg & Hq & Hst & Hr & Hp).
      destruct (initialize_inv s s' Hg Hi (li_registered _ HI) Hini) as [Hsg E].
      constructor; [by apply static_graph_inv|rewrite E; done|rewrite E; constructor|].
      rewrite E. cbn. congruence.
  - apply (inj Some) in Hrun as <-. by apply linv_register_dynamic.
  - apply bind_Some in Hrun as ([[r|] s1] & Hl & Hrun); [|done]. simplify_eq. by eapply linv_load.
  - apply bind_Some in Hrun as ([[r|] s1] & Hl & Hrun); [|done]. simplify_eq. by eapply linv_unload.
  - unfold thread_pop in Hrun. destruct (thread_running s) eqn:Hr; [done|].
    destruct (thread_stack s); [|done]. destruct (m_shutdown_queue s) eqn:Hq; [done|].
    apply (inj Some) in Hrun as <-. constructor; cbn; [apply HI| |apply HI|congruence].
    intros Hi. destruct (li_fresh _ HI Hi) as (_ & ? & _). congruence.
  - by eapply linv_thread_begin.
  - by eapply linv_thread_end.
  - apply (inj Some) in Hrun as <-. unfold finalize_begin. destruct (_ || _); [done|].
    constructor; try apply HI.
Qed.

Lemma linv_reachable s : reachable std_exceptions_only s → LInv s.
Proof. induction 1; [apply linv_initial|by eapply linv_event]. Qed.

End LifecycleReach.
