(* ===== verification/LifecycleProps.v ===== *)
(** * What the lifecycle manager guarantees

    Initialisation, loading and the invariant of loaded modules.

    Module [LifecycleInit] comes first: initialisation of the static modules. *)

From stdpp Require Import sorting.
From S2P Require Import Prelude.
From S2P Require Import Topology.
From S2P Require Import Lifecycle.
From S2P Require Import LifecycleLoad.
From S2P Require Import LifecycleInv.
From S2P Require Import LifecycleReach.
Import Topology Lifecycle LifecycleLoad.

(** * Initialisation of the static modules

    [initialize] on every branch: the two errors of the graph construction,
    the cycle, the module that fails to start, and the start of all modules
    after their dependencies. *)
Module LifecycleInit.

Implicit Types (g : Graph) (s : Manager) (n m x : string) (node : InternalGraphNode)
  (d : InternalModuleDef) (ds : list InternalModuleDef).

Definition new_node d : InternalGraphNode := mkNode (static_def d) [] Registered false UNLOADED 0.

(** ** The graph *)

Lemma emplace_static_spec ds : ∀ g,
  match emplace_static ds g with
  | inl (DuplicateModule n) => n ∈ name <$> ds ∧ (n ∈ dom g ∨ ¬ NoDup (name <$> ds))
  | inl _ => False
  | inr g' => NoDup (name <$> ds) ∧ (∀ n, n ∈ name <$> ds → n ∉ dom g) ∧
      (∀ n node, g' !! n = Some node ↔
         g !! n = Some node ∨ ∃ d, d ∈ ds ∧ name d = n ∧ node = new_node d)
  end.
Proof.
  induction ds as [|d ds IH]; intros g; cbn [emplace_static].
  - split_and!; [constructor|intros n Hn; by apply elem_of_nil in Hn|].
    intros n node. split; [by left|]. intros [|(d & Hd & _)]; [done|by apply elem_of_nil in Hd].
  - rewrite fmap_cons. case_bool_decide as Hin.
    { split; [by left|]. left. by apply elem_of_dom. }
    specialize (IH (<[name d := new_node d]> g)).
    unfold new_node in IH at 1. destruct (emplace_static _ _) as [[]|g'] eqn:E; try done.
    + destruct IH as [Hn Hc]. split; [by right|]. destruct Hc as [Hc|Hc].
      * rewrite dom_insert in Hc. apply elem_of_union in Hc as [->%elem_of_singleton|Hc]; [|by left].
        right. rewrite NoDup_cons. tauto.
      * right. rewrite NoDup_cons. tauto.
    + destruct IH as (Hnd & Hdis & Hl). split_and!.
      * apply NoDup_cons. split; [|done]. intros Hn. apply (Hdis _ Hn). set_solver.
      * intros n [->|Hn]%elem_of_cons; [by rewrite elem_of_dom|]. specialize (Hdis _ Hn). set_solver.
      * intros n node. rewrite Hl, lookup_insert_Some. split.
        -- intros [[[<- <-]|[_ ?]]|(d' & ? & ? & ?)]; [right|by left|right].
           ++ exists d. split; [by left|done].
           ++ exists d'. split; [by right|done].
        -- intros [Hn|(d' & [->|Hd']%elem_of_cons & Hn & ->)].
           ++ left. right. split; [|done]. intros <-. destruct Hin. by eexists.
           ++ left. by left.
           ++ right. by exists d'.
Qed.

Definition same_but_dependents node node' : Prop :=
  node' = node <| dependents := dependents node' |>.

(** [g'] is [g] with more dependents. *)
Definition linked g g' : Prop := ∀ n,
  match g !! n, g' !! n with
  | Some a, Some b => same_but_dependents a b
  | None, None => True
  | _, _ => False
  end.

Lemma linked_refl g : linked g g.
Proof. intros n. destruct (g !! n) as [a|]; [by destruct a|done]. Qed.

Lemma linked_trans g1 g2 g3 : linked g1 g2 → linked g2 g3 → linked g1 g3.
Proof.
  intros H1 H2 n. specialize (H1 n). specialize (H2 n).
  destruct (g1 !! n), (g2 !! n), (g3 !! n); try done.
  unfold same_but_dependents in *. rewrite H2, H1. by destruct i.
Qed.

Lemma linked_add n x g : linked g (add_dependent n x g).
Proof.
  intros m. unfold add_dependent. destruct (decide (x = m)) as [->|Hm].
  - rewrite lookup_alter_eq. by destruct (g !! m) as [a|].
  - rewrite lookup_alter_ne by done. apply linked_refl.
Qed.

Lemma linked_is_Some g g' n : linked g g' → is_Some (g' !! n) ↔ is_Some (g !! n).
Proof.
  intros H. specialize (H n). destruct (g !! n), (g' !! n); try done; by split; intros [].
Qed.

Lemma dependents_add n x g m y : is_Some (g !! x) →
  y ∈ dependents_in (add_dependent n x g) m ↔ y ∈ dependents_in g m ∨ (y = n ∧ m = x).
Proof.
  intros [a Ha]. unfold dependents_in, add_dependent. destruct (decide (x = m)) as [->|Hm].
  - rewrite lookup_alter_eq, Ha. cbn. rewrite elem_of_app, list_elem_of_singleton. tauto.
  - rewrite lookup_alter_ne by done. split; [tauto|]. intros [|[_ ->]]; done.
Qed.

(** The number of edges, which the degree counts must not exceed. *)
Definition total_dependents g : nat := sum_list_with (λ y, length (dependents y.2)) (map_to_list g).

Lemma total_insert g n node : g !! n = None →
  total_dependents (<[n := node]> g) = (length (dependents node) + total_dependents g)%nat.
Proof. intros Hn. unfold total_dependents. by rewrite map_to_list_insert. Qed.

Lemma total_add n x g : is_Some (g !! x) →
  total_dependents (add_dependent n x g) = S (total_dependents g).
Proof.
  intros [a Ha]. unfold add_dependent.
  assert (alter (λ node, node <| dependents ::= λ l, l ++ [n] |>) x g =
          <[x := a <| dependents ::= λ l, l ++ [n] |>]> (delete x g)) as ->.
  { apply map_eq. intros m. destruct (decide (x = m)) as [->|Hm].
    - by rewrite lookup_alter_eq, lookup_insert_eq, Ha.
    - by rewrite lookup_alter_ne, lookup_insert_ne, lookup_delete_ne. }
  rewrite <- (insert_delete_id g x a) at 2 by done.
  rewrite !total_insert by apply lookup_delete_eq. cbn. rewrite length_app. cbn. lia.
Qed.

Lemma link_dependencies_spec n deps : ∀ g,
  match link_dependencies n deps g with
  | inl (UndefinedDependency x) => x ∈ deps ∧ g !! x = None
  | inl _ => False
  | inr g' => linked g g' ∧ (∀ x, x ∈ deps → is_Some (g !! x)) ∧
      (∀ m y, y ∈ dependents_in g' m ↔ y ∈ dependents_in g m ∨ (y = n ∧ m ∈ deps)) ∧
      total_dependents g' = (length deps + total_dependents g)%nat
  end.
Proof.
  induction deps as [|x deps IH]; intros g; cbn [link_dependencies].
  - split_and!; [apply linked_refl| |intros m y; set_solver|done].
    intros x Hx. by apply elem_of_nil in Hx.
  - case_bool_decide as Hx; [|split; [by left|by apply eq_None_not_Some]].
    specialize (IH (add_dependent n x g)).
    destruct (link_dependencies _ _ _) as [[]|g'] eqn:E; try done.
    + destruct IH as [Hd Hn]. split; [by right|].
      apply eq_None_not_Some in Hn. apply eq_None_not_Some.
      by rewrite (linked_is_Some g _ _ (linked_add n x g)) in Hn.
    + destruct IH as (Hl & Hs & Hdep & Ht). split_and!.
      * eapply linked_trans; [apply linked_add|done].
      * intros y [->|Hy]%elem_of_cons; [done|].
        rewrite <- (linked_is_Some g _ _ (linked_add n x g)). by apply Hs.
      * intros m y. rewrite Hdep, dependents_add by done. set_solver.
      * rewrite Ht, total_add by done. cbn. lia.
Qed.

Lemma link_all_spec entries : ∀ g,
  (∀ n node, (n, node) ∈ entries → is_Some (g !! n)) →
  match link_all entries g with
  | inl (UndefinedDependency x) =>
      g !! x = None ∧ ∃ n node, (n, node) ∈ entries ∧ x ∈ node_dependencies node
  | inl _ => False
  | inr g' => linked g g' ∧
      (∀ n node x, (n, node) ∈ entries → x ∈ node_dependencies node → is_Some (g !! x)) ∧
      (∀ m y, y ∈ dependents_in g' m ↔ y ∈ dependents_in g m ∨
         ∃ node, (y, node) ∈ entries ∧ m ∈ node_dependencies node) ∧
      total_dependents g' =
        (sum_list_with (λ y, length (node_dependencies y.2)) entries + total_dependents g)%nat
  end.
Proof.
  induction entries as [|[n node] entries IH]; intros g He; cbn [link_all].
  - split_and!; [apply linked_refl|intros ??? H; by apply elem_of_nil in H| |done].
    intros m y. split; [by left|]. intros [|(? & H & _)]; [done|by apply elem_of_nil in H].
  - pose proof (link_dependencies_spec n (node_dependencies node) g) as H1.
    destruct (link_dependencies _ _ _) as [[]|g1] eqn:E1; try done.
    + destruct H1 as [Hd Hn]. split; [done|]. exists n, node. split; [by left|done].
    + destruct H1 as (Hl & Hs & Hdep & Ht).
      specialize (IH g1). destruct (link_all entries g1) as [[]|g'] eqn:E2; try done.
      * by apply IH; intros a b Hab; rewrite (linked_is_Some g) by done; eapply He; right.
      * destruct IH as (Hx & a & b & Hab & Hin).
        { intros a b Hab. rewrite (linked_is_Some g) by done. eapply He. by right. }
        split; [|exists a, b; split; [by right|done]].
        apply eq_None_not_Some in Hx. apply eq_None_not_Some. by rewrite (linked_is_Some g) in Hx.
      * by apply IH; intros a b Hab; rewrite (linked_is_Some g) by done; eapply He; right.
      * by apply IH; intros a b Hab; rewrite (linked_is_Some g) by done; eapply He; right.
      * destruct IH as (Hl2 & Hs2 & Hdep2 & Ht2).
        { intros a b Hab. rewrite (linked_is_Some g) by done. eapply He. by right. }
        split_and!.
        -- by eapply linked_trans.
        -- intros a b x [[= -> ->]|Hab]%elem_of_cons Hx; [by apply Hs|].
           rewrite <- (linked_is_Some g g1) by done. by eapply Hs2.
        -- intros m y. rewrite Hdep2, Hdep. split.
           ++ intros [[Hy|[-> Hm]]|(b & Hb & Hm)]; [by left|right; exists node; split; [by left|done]|].
              right. exists b. split; [by right|done].
           ++ intros [Hy|(b & [[= -> ->]|Hb]%elem_of_cons & Hm)]; [by left; left|by left; right|].
              right. by exists b.
        -- rewrite Ht2, Ht. cbn. lia.
Qed.

(** The edge list of the sort is the dependents of all nodes. *)
Lemma edges_from_entries g : 
  length (edges_from (dependents_in g) (in_name_order g).*1) = total_dependents g.
Proof.
  unfold total_dependents.
  assert (∀ l, (∀ n node, (n, node) ∈ l → g !! n = Some node) →
    length (edges_from (dependents_in g) l.*1) = sum_list_with (λ y, length (dependents y.2)) l) as H.
  { induction l as [|[n node] l IH]; intros Hl; [done|].
    rewrite fmap_cons, edges_from_cons, length_app. cbn. f_equal.
    - unfold dependents_in. by rewrite (Hl n node ltac:(by left)).
    - apply IH. intros a b Hab. apply Hl. by right. }
  rewrite H by (intros n node; apply elem_of_in_name_order).
  by rewrite (in_name_order_perm g).
Qed.

(** ** The starts *)

Definition starts_well (o : option Outcome) : Prop := o = None ∨ o = Some Returns.

Lemma set_status_lookup st n g m :
  set_status st n g !! m =
  (λ node, if decide (m = n) then node <| status := st |> else node) <$> g !! m.
Proof.
  unfold set_status. destruct (decide (m = n)) as [->|Hm].
  - rewrite lookup_alter_eq. by destruct (g !! n); cbn; rewrite ?decide_True.
  - rewrite lookup_alter_ne by done. destruct (g !! m); cbn; by rewrite ?decide_False.
Qed.

Lemma start_static_spec order : ∀ s,
  NoDup order → (∀ n, n ∈ order → is_Some (m_module_graph s !! n)) →
  match start_static order s with
  | inr s' =>
      calls s' = calls s ++ (CallStartup <$> order) ∧ m_startup_order s' = m_startup_order s ∧
      ∀ n node, m_module_graph s !! n = Some node →
        (n ∈ order → starts_well (startup (def node))) ∧
        m_module_graph s' !! n =
          Some (if decide (n ∈ order) then node <| status := Started |> else node)
  | inl (StartupFailed n, s') =>
      ∃ l1 l2 node, order = l1 ++ n :: l2 ∧ m_module_graph s !! n = Some node ∧
        ¬ starts_well (startup (def node)) ∧ calls s' = calls s ++ (CallStartup <$> (l1 ++ [n])) ∧
        ∀ m, m ∈ l1 → ∃ a, m_module_graph s !! m = Some a ∧ starts_well (startup (def a))
  | inl _ => False
  end.
Proof.
  induction order as [|n order IH]; intros s Hnd Hin; cbn [start_static].
  - split_and!; [by rewrite app_nil_r|done|]. intros n node Hn. split; [intros H; by apply elem_of_nil in H|done].
  - apply NoDup_cons in Hnd as [Hn Hnd].
    destruct (Hin n ltac:(by left)) as [node Hnode].
    set (s1 := s <| m_module_graph ::= _ |> <| calls ::= _ |>).
    assert (H1 : m_module_graph s1 !! n = Some (node <| status := Initializing |>)).
    { cbn. rewrite set_status_lookup, Hnode. cbn. by rewrite decide_True. }
    rewrite H1. cbn [mbind option_bind update def].
    assert (Hgo : starts_well (startup (def node)) →
      match start_static order (s1 <| m_module_graph ::= set_status Started n |>) with
      | inr s' =>
          calls s' = calls s ++ (CallStartup <$> (n :: order)) ∧ m_startup_order s' = m_startup_order s ∧
          ∀ m a, m_module_graph s !! m = Some a →
            (m ∈ n :: order → starts_well (startup (def a))) ∧
            m_module_graph s' !! m = Some (if decide (m ∈ n :: order) then a <| status := Started |> else a)
      | inl (StartupFailed m, s') =>
          ∃ l1 l2 a, n :: order = l1 ++ m :: l2 ∧ m_module_graph s !! m = Some a ∧
            ¬ starts_well (startup (def a)) ∧ calls s' = calls s ++ (CallStartup <$> (l1 ++ [m])) ∧
            ∀ y, y ∈ l1 → ∃ a, m_module_graph s !! y = Some a ∧ starts_well (startup (def a))
      | inl _ => False
      end).
    { intros Hw. specialize (IH (s1 <| m_module_graph ::= set_status Started n |>) Hnd).
      assert (Hlook : ∀ m a, m_module_graph s !! m = Some a →
        m_module_graph (s1 <| m_module_graph ::= set_status Started n |>) !! m =
        Some (if decide (m = n) then a <| status := Started |> else a)).
      { intros m a Ha. cbn. rewrite !set_status_lookup, Ha. cbn. by destruct (decide (m = n)). }
      destruct (start_static order _) as [[[] s']|s'] eqn:E; try (apply IH; intros m Hm;
        destruct (Hin m ltac:(by right)) as [a Ha]; rewrite (Hlook m a Ha); by eexists).
      - destruct IH as (l1 & l2 & a & -> & Ha & Hf & Hc & Hall).
        { intros m Hm. destruct (Hin m ltac:(by right)) as [a Ha]. rewrite (Hlook m a Ha). by eexists. }
        destruct (Hin n0) as [b Hb]; [set_solver|]. pose proof (eq_trans (eq_sym Ha) (Hlook n0 b Hb)) as Hlb.
        apply (inj Some) in Hlb.
        rewrite decide_False in Hlb by (intros ->; set_solver). subst b.
        exists (n :: l1), l2, a. split_and!; try done.
        + rewrite Hc. cbn. by rewrite <- app_assoc.
        + intros y [->|Hy]%elem_of_cons; [by exists node|].
          destruct (Hall y Hy) as (c & Hc1 & Hc2). destruct (Hin y) as [b Hb']; [set_solver|].
          pose proof (eq_trans (eq_sym Hc1) (Hlook y b Hb')) as Hlb'.
          apply (inj Some) in Hlb'. subst c. exists b. split; [done|]. by destruct (decide (y = n)).
      - destruct IH as (Hc & Ho & Hall).
        { intros m Hm. destruct (Hin m ltac:(by right)) as [a Ha]. rewrite (Hlook m a Ha). by eexists. }
        split_and!.
        + rewrite Hc. cbn. by rewrite <- app_assoc.
        + by rewrite Ho.
        + intros m a Ha. destruct (Hall m _ (Hlook m a Ha)) as [Hw' Hl]. split.
          * intros [->|Hm]%elem_of_cons; [congruence|]. specialize (Hw' Hm). by destruct (decide (m = n)).
          * rewrite Hl. destruct (decide (m = n)) as [->|Hmn].
            -- rewrite decide_False, decide_True by set_solver. done.
            -- destruct (decide (m ∈ order)); [rewrite decide_True by set_solver|rewrite decide_False by set_solver]; done. }
    assert (Hbad : ¬ starts_well (startup (def node)) →
      ∃ l1 l2 a, n :: order = l1 ++ n :: l2 ∧ m_module_graph s !! n = Some a ∧
        ¬ starts_well (startup (def a)) ∧ 
        calls (s1 <| m_module_graph ::= set_status Failed n |>) = calls s ++ (CallStartup <$> (l1 ++ [n])) ∧
        ∀ y, y ∈ l1 → ∃ a, m_module_graph s !! y = Some a ∧ starts_well (startup (def a))).
    { intros Hw. exists [], order, node. split_and!; try done. intros y Hy. by apply elem_of_nil in Hy. }
    destruct (startup (def node)) as [[]|] eqn:Hs.
    + apply Hgo. by right.
    + apply Hbad. intros [|]; congruence.
    + apply Hbad. intros [|]; congruence.
    + apply Hgo. by left.
Qed.

End LifecycleInit.

Import Topology Lifecycle LifecycleLoad LifecycleInv LifecycleReach LifecycleInit.

Module LifecycleProps.

Implicit Types (g : Graph) (s : Manager) (n m x : string) (node : InternalGraphNode)
  (d : InternalModuleDef) (ds : list InternalModuleDef).

(** C38 Topological sort: on a list of nodes without duplicates the algorithm
    ends, with an order of exactly these nodes in which every node comes after
    the nodes that have it as a dependent, or with the names of nodes that
    depend on each other; the first happens exactly when there is no cycle. *)
Theorem topological_sort_correct (dependents : string → list string) nodes :
  NoDup nodes → Z.of_nat (length (edges_from dependents nodes)) <= u64_max →
  match topologicalSort dependents nodes with
  | Some (inl order) => order ≡ₚ nodes ∧ respects dependents nodes order ∧ ¬ cyclic dependents nodes
  | Some (inr bad) =>
      cyclic dependents nodes ∧ bad ≠ [] ∧
      ∀ n, n ∈ bad → ∃ m, m ∈ bad ∧ edge dependents nodes m n
  | None => False
  end.
Proof.
  intros Hd Hb. by destruct (topologicalSort_spec dependents nodes Hd Hb) as
    [(order & -> & ?)|(bad & -> & ?)].
Qed.

Definition diamond (n : string) : list string :=
  if n =s "a" then ["b"; "c"] else if n =s "b" then ["d"] else if n =s "c" then ["d"] else [].

Lemma topological_sort_correct_witness :
  topologicalSort diamond ["d"; "c"; "b"; "a"] = Some (inl ["a"; "b"; "c"; "d"]) ∧
  ["a"; "b"; "c"; "d"] ≡ₚ ["d"; "c"; "b"; "a"].
Proof.
  split; [by vm_compute|].
  pose proof (topological_sort_correct diamond ["d"; "c"; "b"; "a"]) as H.
  assert (E : topologicalSort diamond ["d"; "c"; "b"; "a"] = Some (inl ["a"; "b"; "c"; "d"]))
    by (by vm_compute).
  rewrite E in H. apply H; [apply (bool_decide_unpack _); by vm_compute|by vm_compute].
Defined.

(** ** Initialisation *)

Definition dependency_count ds : nat := sum_list_with (λ d, length (dependencies d)) ds.

Lemma fresh_graph ds g :
  emplace_static ds ∅ = inr g →
  NoDup (name <$> ds) ∧ map_to_list g ≡ₚ (λ d, (name d, new_node d)) <$> ds.
Proof.
  intros E. pose proof (emplace_static_spec ds ∅) as H. rewrite E in H.
  destruct H as (Hnd & _ & Hl). split; [done|]. apply NoDup_Permutation.
  - apply NoDup_map_to_list.
  - apply (NoDup_fmap_1 fst). by rewrite <- list_fmap_compose.
  - intros [n node]. rewrite elem_of_map_to_list, Hl, lookup_empty, list_elem_of_fmap. split.
    + intros [|(d & Hd & <- & ->)]; [done|]. by exists d.
    + intros (d & [= -> ->] & Hd). right. by exists d.
Qed.

Lemma fresh_graph_entries ds g n node :
  emplace_static ds ∅ = inr g →
  (n, node) ∈ in_name_order g ↔ ∃ d, d ∈ ds ∧ name d = n ∧ node = new_node d.
Proof.
  intros E. destruct (fresh_graph ds g E) as [_ Hp].
  rewrite in_name_order_perm, Hp, list_elem_of_fmap. split.
  - intros (d & [= -> ->] & Hd). by exists d.
  - intros (d & Hd & <- & ->). by exists d.
Qed.

Lemma fresh_graph_totals ds g :
  emplace_static ds ∅ = inr g →
  sum_list_with (λ y, length (node_dependencies y.2)) (in_name_order g) = dependency_count ds ∧
  total_dependents g = 0%nat.
Proof.
  intros E. destruct (fresh_graph ds g E) as [_ Hp]. unfold total_dependents.
  rewrite (in_name_order_perm g), Hp. clear. unfold dependency_count.
  induction ds as [|d ds [IH1 IH2]]; [done|]. cbn in *. by rewrite IH1, IH2.
Qed.

(** The sort of the static graph sees exactly the declared dependencies. *)
Lemma static_sort ds g g' :
  emplace_static ds ∅ = inr g → link_all (in_name_order g) g = inr g' →
  Z.of_nat (dependency_count ds) <= u64_max →
  let nodes := (filter (λ y, is_dynamic y.2 = false) (in_name_order g')).*1 in
  nodes ≡ₚ name <$> ds ∧ NoDup nodes ∧
  Z.of_nat (length (edges_from (dependents_in g') nodes)) <= u64_max ∧
  (∀ m n, edge (dependents_in g') nodes m n ↔
          m ∈ name <$> ds ∧ ∃ d, d ∈ ds ∧ name d = n ∧ m ∈ dependencies d) ∧
  (∀ d, d ∈ ds → ∃ node, g' !! name d = Some node ∧ def node = static_def d ∧ status node = Registered).
Proof.
  intros E Hl Hb nodes. destruct (fresh_graph ds g E) as [Hnd Hp].
  pose proof (link_all_spec (in_name_order g) g) as HL. rewrite Hl in HL.
  destruct HL as (Hlink & Hdef & Hdep & Ht).
  { intros n node Hin. apply elem_of_in_name_order in Hin. by eexists. }
  assert (Hnew : ∀ n node, g' !! n = Some node → ∃ d, d ∈ ds ∧ name d = n ∧ same_but_dependents (new_node d) node).
  { intros n node Hn. specialize (Hlink n). rewrite Hn in Hlink. destruct (g !! n) as [a|] eqn:Ha; [|done].
    apply elem_of_in_name_order, (fresh_graph_entries ds g n a E) in Ha as (d & Hd & Hn' & ->). eauto. }
  assert (Hfil : filter (λ y, is_dynamic y.2 = false) (in_name_order g') = in_name_order g').
  { apply filter_all. intros [n node] Hin. apply elem_of_in_name_order, Hnew in Hin as (d & _ & _ & Hs).
    cbn. by rewrite Hs. }
  assert (Hkeys : nodes ≡ₚ name <$> ds).
  { subst nodes. rewrite Hfil. apply NoDup_Permutation; [apply NoDup_fst_in_name_order|done|].
    intros n. split.
    - intros ([n' node] & -> & Hin)%list_elem_of_fmap. apply elem_of_in_name_order, Hnew in Hin as (d & Hd & Hn & _).
      cbn. rewrite <- Hn. by apply list_elem_of_fmap_2.
    - intros (d & -> & Hd)%list_elem_of_fmap. assert (is_Some (g' !! name d)) as [node Hn].
      { rewrite (linked_is_Some g g') by done. exists (new_node d).
        apply elem_of_in_name_order, (fresh_graph_entries ds g _ _ E). by exists d. }
      apply list_elem_of_fmap. exists (name d, node). split; [done|]. by apply elem_of_in_name_order. }
  assert (Hdepin : ∀ m n, n ∈ dependents_in g' m ↔ ∃ d, d ∈ ds ∧ name d = n ∧ m ∈ dependencies d).
  { intros m n. rewrite Hdep. split.
    - intros [Hn|(node & Hin & Hm)].
      + unfold dependents_in in Hn. destruct (g !! m) as [a|] eqn:Ha; [|by apply elem_of_nil in Hn].
        apply elem_of_in_name_order, (fresh_graph_entries ds g m a E) in Ha as (d & _ & _ & ->).
        by apply elem_of_nil in Hn.
      + apply (fresh_graph_entries ds g n node E) in Hin as (d & Hd & Hn & ->). by exists d.
    - intros (d & Hd & Hn & Hm). right. exists (new_node d). split; [|done].
      apply (fresh_graph_entries ds g _ _ E). by exists d. }
  destruct (fresh_graph_totals ds g E) as [Ht1 Ht2].
  split_and!; [done|by rewrite Hkeys| | |].
  - subst nodes. rewrite Hfil, edges_from_entries, Ht, Ht1, Ht2. lia.
  - intros m n. unfold edge. rewrite Hdepin, !Hkeys. split; [naive_solver|].
    intros (Hm & d & Hd & Hn & Hmd). split_and!; try done; [|by exists d].
    rewrite <- Hn. by apply list_elem_of_fmap_2.
  - intros d Hd. assert (g !! name d = Some (new_node d)) as Hg.
    { apply elem_of_in_name_order, (fresh_graph_entries ds g _ _ E). by exists d. }
    specialize (Hlink (name d)). rewrite Hg in Hlink. destruct (g' !! name d) as [node|]; [|done].
    exists node. split; [done|]. by rewrite Hlink.
Qed.

Lemma fresh_graph_names ds g n :
  emplace_static ds ∅ = inr g → g !! n = None ↔ n ∉ name <$> ds.
Proof.
  intros E. rewrite eq_None_not_Some. f_equiv. split.
  - intros [node Hn]. apply elem_of_in_name_order, (fresh_graph_entries ds g n node E) in Hn as (d & Hd & <- & _).
    by apply list_elem_of_fmap_2.
  - intros (d & -> & Hd)%list_elem_of_fmap. exists (new_node d).
    apply elem_of_in_name_order, (fresh_graph_entries ds g _ _ E). by exists d.
Qed.

Lemma in_name_order_is_Some g n node : (n, node) ∈ in_name_order g → is_Some (g !! n).
Proof. intros Hin%elem_of_in_name_order. by eexists. Qed.

(** The building of the static graph: a name given twice, a dependency that is
    not there, or a graph with every dependency in it. *)
Lemma build_static_spec ds :
  match buildStaticGraph ds ∅ with
  | inr g' => ∃ g, emplace_static ds ∅ = inr g ∧ link_all (in_name_order g) g = inr g' ∧
                ∀ d x, d ∈ ds → x ∈ dependencies d → x ∈ name <$> ds
  | inl (DuplicateModule n) => n ∈ name <$> ds ∧ ¬ NoDup (name <$> ds)
  | inl (UndefinedDependency x) => x ∉ name <$> ds ∧ ∃ d, d ∈ ds ∧ x ∈ dependencies d
  | inl _ => False
  end.
Proof.
  unfold buildStaticGraph. pose proof (emplace_static_spec ds ∅) as HE.
  destruct (emplace_static ds ∅) as [[]|g] eqn:E; try done.
  { destruct HE as [Hn [Hd|Hd]]; [by rewrite dom_empty in Hd|done]. }
  pose proof (link_all_spec (in_name_order g) g) as HL.
  destruct (link_all (in_name_order g) g) as [[]|g'] eqn:Hl.
  1, 3, 4: exfalso; apply HL; intros n0 node Hin; by eapply in_name_order_is_Some.
  - destruct HL as (Hx & n' & node & Hin & Hx'); [by intros ?? ?%in_name_order_is_Some|].
    apply elem_of_in_name_order in Hin. split; [by apply (fresh_graph_names ds g)|].
    apply elem_of_in_name_order, (fresh_graph_entries ds g n' node E) in Hin as (d & Hd & _ & ->). by exists d.
  - exists g. split_and!; try done. intros d x Hd Hx.
    destruct (decide (x ∈ name <$> ds)) as [|Hnx%(fresh_graph_names ds g _ E)]; [done|exfalso].
    destruct HL as (_ & Hdef & _); [by intros ?? ?%in_name_order_is_Some|].
    destruct (Hdef (name d) (new_node d) x) as [? Hsome]; [|done|congruence].
    apply (fresh_graph_entries ds g _ _ E). by exists d.
Qed.

Lemma start_static_initialized l s s' :
  start_static l s = inr s' → m_is_initialized s' = m_is_initialized s.
Proof.
  revert s. induction l as [|y l IH]; intros s H; cbn [start_static] in H; [by simplify_eq|].
  destruct (_ ≫= _) as [[]|]; try done; by apply IH in H.
Qed.

(** C8 Initialisation of the registered static modules, in a process that has
    not been initialised, on every branch: a duplicate name, a dependency nobody
    registered, or modules that depend on each other abort before any module is
    started; a module whose startup throws aborts after the modules before it
    were started, its dependencies among them; otherwise every module has been
    started, once, after all its dependencies, and the recorded startup order is
    the order of the calls. *)
Theorem initialize_outcome ds s :
  m_is_initialized s = false → m_module_graph s = ∅ → m_registered_modules s = ds →
  Z.of_nat (dependency_count ds) <= u64_max →
  match initialize s with
  | Some (inr s') =>
      m_is_initialized s' = true ∧ NoDup (name <$> ds) ∧
      calls s' = calls s ++ (CallStartup <$> m_startup_order s') ∧
      m_startup_order s' ≡ₚ name <$> ds ∧
      (∀ l1 d l2 x, m_startup_order s' = l1 ++ name d :: l2 → d ∈ ds → x ∈ dependencies d → x ∈ l1) ∧
      (∀ d, d ∈ ds → starts_well (startup d) ∧
         ∃ node, m_module_graph s' !! name d = Some node ∧ def node = static_def d ∧ status node = Started)
  | Some (inl (DuplicateModule n, s')) => n ∈ name <$> ds ∧ ¬ NoDup (name <$> ds) ∧ calls s' = calls s
  | Some (inl (UndefinedDependency x, s')) =>
      x ∉ (name <$> ds) ∧ (∃ d, d ∈ ds ∧ x ∈ dependencies d) ∧ calls s' = calls s
  | Some (inl (CircularDependency bad, s')) =>
      bad ≠ [] ∧ (∀ n, n ∈ bad → ∃ d m, d ∈ ds ∧ name d = n ∧ m ∈ bad ∧ m ∈ dependencies d) ∧
      calls s' = calls s
  | Some (inl (StartupFailed n, s')) =>
      ∃ d l, d ∈ ds ∧ name d = n ∧ ¬ starts_well (startup d) ∧
             calls s' = calls s ++ (CallStartup <$> (l ++ [n])) ∧
             ∀ x, x ∈ dependencies d → x ∈ l
  | None => False
  end.
Proof.
  intros Hi Hg <- Hb. set (ds := m_registered_modules s) in *.
  unfold initialize. rewrite Hi. cbn [update m_registered_modules m_module_graph].
  rewrite Hg. fold ds. pose proof (build_static_spec ds) as HB.
  destruct (buildStaticGraph ds ∅) as [[]|g']; cbn [calls update]; try done; [naive_solver..|].
  destruct HB as (g & E & Hl & Hdeps).
  destruct (static_sort ds g g' E Hl Hb) as (Hk & Hnd & Hedges & Hedge & Hnode).
  set (nodes := (filter _ _).*1) in *. destruct (fresh_graph ds g E) as [Hnames _].
  destruct (topologicalSort_spec (dependents_in g') nodes Hnd Hedges) as
    [(order & -> & Hp & Hr & _)|(bad & -> & _ & Hne & Hbad)]; cbn [mbind option_bind].
  2:{ split_and!; try done. intros n Hn. destruct (Hbad n Hn) as (m & Hm & He).
      apply Hedge in He as (_ & d & Hd & Hnm & Hmd). by exists d, m. }
  assert (Hbefore : ∀ l1 d l2 x, order = l1 ++ name d :: l2 → d ∈ ds → x ∈ dependencies d → x ∈ l1).
  { intros l1 d l2 x Ho Hd Hx. apply (Hr l1 (name d) l2 x Ho). apply Hedge. split; [|by exists d].
    by eapply Hdeps. }
  match goal with |- context [start_static order ?s0] => set (s1 := s0) end.
  assert (Hin : ∀ m, m ∈ order → is_Some (m_module_graph s1 !! m)).
  { intros m Hm. rewrite Hp, Hk in Hm. apply list_elem_of_fmap in Hm as (d & -> & Hd).
    destruct (Hnode d Hd) as (a & Ha & _). by exists a. }
  pose proof (start_static_spec order s1 ltac:(by rewrite Hp) Hin) as HS.
  destruct (start_static order s1) as [[[] s']|s'] eqn:Hst; try done.
  - destruct HS as (l1 & l2 & node & Ho & Hn & Hbadst & Hc & _).
    assert (n ∈ name <$> ds) as Hn' by (rewrite <- Hk, <- Hp, Ho; set_solver).
    apply list_elem_of_fmap in Hn' as (d & -> & Hd). exists d, l1. split_and!; try done.
    + destruct (Hnode d Hd) as (a & Ha & Hdef & _).
      change (g' !! name d = Some node) in Hn. assert (a = node) as -> by congruence.
      by rewrite Hdef in Hbadst.
    + intros x Hx. by eapply (Hbefore l1 d l2).
  - destruct HS as (Hc & Hso & Hall). assert (m_startup_order s' = order) as -> by done.
    split_and!; [by rewrite (start_static_initialized _ _ _ Hst)|done|done|by rewrite Hp|done|].
    intros d Hd. destruct (Hnode d Hd) as (a & Ha & Hdef & _).
    destruct (Hall (name d) a Ha) as [Hw Hl'].
    assert (name d ∈ order) as Ho by (rewrite Hp, Hk; by apply list_elem_of_fmap_2).
    rewrite decide_True in Hl' by done. split; [specialize (Hw Ho); by rewrite Hdef in Hw|].
    eexists. split; [done|]. by rewrite <- Hdef.
Qed.

Definition module (n : string) (deps : list string) : InternalModuleDef :=
  mkDef n deps (Some Returns) (Some (mkCallback Returns (Some 1))) 100 false false false 0 None.

Lemma initialize_outcome_witness :
  let s := initial <| m_registered_modules := [module "app" ["log"; "net"]; module "net" ["log"]; module "log" []] |> in
  ∃ s', initialize s = Some (inr s') ∧ m_startup_order s' = ["log"; "net"; "app"] ∧
        calls s' = CallStartup <$> m_startup_order s'.
Proof.
  intros s. pose proof (initialize_outcome (m_registered_modules s) s eq_refl eq_refl eq_refl) as H.
  destruct (initialize s) as [[|s']|] eqn:E; [by vm_compute in E| |by vm_compute in E].
  exists s'. split; [done|]. destruct H as (_ & _ & Hc & _); [by vm_compute|]. split; [|done].
  assert (Some (inr s') = initialize s) as E' by done. vm_compute in E'. apply (inj Some), (inj inr) in E'.
  by rewrite E'.
Defined.

(** ** Loading *)

(** The dependencies of a dynamic module. *)
Definition depends_on g (a b : string) : Prop :=
  ∃ node, g !! a = Some node ∧ is_dynamic node = true ∧ b ∈ node_dependencies node.

Lemma up_closure g n m : deps_loaded g → up g n → rtc (depends_on g) n m → up g m.
Proof.
  intros HD Hu Hr. induction Hr as [|a b c (node & Ha & Hdyn & Hb) _ IH]; [done|]. apply IH.
  eapply (HD a node Ha); [|done]. unfold up in Hu. rewrite Ha, Hdyn in Hu. unfold loaded.
  by rewrite Hdyn, bool_decide_eq_true_2.
Qed.

(** The modules a load has loaded. *)
Definition newly_loaded g g' (m : string) : Prop :=
  ∃ a b, g !! m = Some a ∧ dynamic_status a = UNLOADED ∧ g' !! m = Some b ∧ dynamic_status b = LOADED.

(** C33 Loading a dynamic module ends with an answer, in the states reached by
    callbacks that throw nothing but [std::exception]s.  It starts modules that
    were UNLOADED, each once, and each after its dependencies; every module that
    gets loaded was started; nothing that was up goes down, and a module with
    another status than UNLOADED is left alone.  If the answer is true, the
    modules started are exactly those that got loaded, and the module and all
    its direct and indirect dependencies are up. *)
Theorem load_outcome s n node :
  reachable std_exceptions_only s → m_is_initialized s = true → m_is_finalized s = false →
  validate_module_name n = true → m_module_graph s !! n = Some node → is_dynamic node = true →
  let g := m_module_graph s in
  ∃ ok s' l, loadModule n s = Some (Some ok, s') ∧ let g' := m_module_graph s' in
    calls s' = calls s ++ (CallStartup <$> l) ∧ NoDup l ∧
    (∀ m, m ∈ l → ∃ a, g !! m = Some a ∧ dynamic_status a = UNLOADED) ∧
    (∀ l1 m l2 a x, l = l1 ++ m :: l2 → g !! m = Some a → x ∈ node_dependencies a →
       up g x ∨ x ∈ l1) ∧
    (∀ x, up g x → up g' x) ∧
    (∀ m a, g !! m = Some a → dynamic_status a ≠ UNLOADED →
       ∃ b, g' !! m = Some b ∧ dynamic_status b = dynamic_status a) ∧
    (∀ m, newly_loaded g g' m → m ∈ l) ∧
    (ok = true → (∀ m, m ∈ l ↔ newly_loaded g g' m) ∧ ∀ x, rtc (depends_on g') n x → up g' x).
Proof.
  intros Hreach Hi Hf Hv Hn Hd g. subst g. pose proof (linv_reachable s Hreach) as HI.
  destruct (load_total (S (size (m_module_graph s))) n s) as [[r s1] Hl].
  { pose proof (unloaded_count_size (m_module_graph s)). lia. }
  destruct (load_spec _ n s r s1 node Hn Hd Hl) as (l & (Hc & Hfr & Hst & E) & Hk & Hok).
  destruct r as [ok|]; [|by destruct (load_returns _ _ _ _ _ (gi_std _ (li_graph _ HI)) Hl)].
  exists ok, (s1 <| m_module_graph ::= recalculateReferenceCounts |>), l.
  split; [unfold loadModule; by rewrite Hi, Hv, Hf, Hn, Hd, Hl|].
  cbn [m_module_graph update calls]. split_and!.
  - done.
  - apply Hst.
  - intros m Hm. destruct (st_from _ _ _ Hst m Hm) as (a & b & Ha & Hu & _). by exists a.
  - apply (st_order _ _ _ Hst).
  - intros x Hx. apply up_recalc. by eapply up_mono.
  - intros m a Ha Hna. destruct (load_frame_lookup _ _ _ _ Hfr Ha) as (b & Hb & [[He|[He _]] _]); [|done].
    destruct (recalc_lookup_some _ _ _ Hb) as (c & Hcc & (_ & _ & _ & _ & Hds)).
    exists c. split; [done|]. congruence.
  - intros m (a & b & Ha & Hu & Hb & Hlb). apply recalc_spec in Hb as (c & Hcc & (_ & _ & _ & _ & Hds) & _).
    eapply (st_all _ _ _ Hst); [done..|congruence].
  - intros ->. destruct (Hok eq_refl) as [Hok' Hall]. rewrite Forall_forall in Hall. split.
    { intros m. split.
      - intros Hm. destruct (st_from _ _ _ Hst m Hm) as (a & _ & Ha & Hu & _).
        destruct (Hall m Hm) as (b & Hb & Hlb). destruct (recalc_lookup_some _ _ _ Hb) as (c & Hcc & (_ & _ & _ & _ & Hds)).
        exists a, c. split_and!; try done. congruence.
      - intros (a & b & Ha & Hu & Hb & Hlb). apply recalc_spec in Hb as (c & Hcc & (_ & _ & _ & _ & Hds) & _).
        eapply (st_all _ _ _ Hst); [done..|congruence]. }
    intros x Hx. assert (HD' : deps_loaded (recalculateReferenceCounts (m_module_graph s1))).
    { intros m b Hb Hlb y Hy. apply up_recalc.
      eapply loaded_dependent_up; [apply Hk, HI|]. apply loaded_dependent_recalc. by exists b. }
    eapply up_closure; [done| |done]. apply up_recalc. destruct Hok' as (b & Hb & Hlb).
    unfold up. rewrite Hb. destruct (load_frame_lookup_back _ _ _ _ Hfr Hb) as (a & Ha & Hab).
    assert (a = node) as -> by congruence. apply node_frame_fields in Hab as (_ & -> & _).
    by rewrite Hd.
Qed.

Definition after (l : list event) : Manager := default initial (run_events l initial).

#[global] Instance Outcome_eq_dec : EqDecision Outcome.
Proof. solve_decision. Defined.
#[global] Instance std_exceptions_only_dec e : Decision (std_exceptions_only e).
Proof. destruct e; apply _. Defined.

Lemma run_events_reachable ok l : ∀ s s',
  reachable ok s → Forall ok l → run_events l s = Some s' → reachable ok s'.
Proof.
  induction l as [|e l IH]; intros s s' Hs Hl Hr; [by injection Hr as <-|].
  apply Forall_cons in Hl as [He Hl]. apply bind_Some in Hr as (s1 & He1 & Hr).
  eapply IH; [|done|done]. by eapply reach_event.
Qed.

(** The second premise is a boolean, for [vm_compute]. *)
Lemma after_reachable ok l :
  Forall ok l → match run_events l initial with Some _ => true | None => false end = true →
  reachable ok (after l).
Proof.
  intros Hl. unfold after. destruct (run_events l initial) as [s|] eqn:Hs; [intros _|done].
  eapply run_events_reachable; [apply reach_initial|done|done].
Qed.

Definition registered_chain : list event :=
  [RegisterStatic (module "log" []); Initialize; RegisterDynamic (module "shm" ["log"]);
   RegisterDynamic (module "queue" ["shm"]); RegisterDynamic (module "script" ["queue"; "shm"])].

Lemma load_outcome_witness :
  ∃ ok s' l, loadModule "script" (after registered_chain) = Some (Some ok, s') ∧
    calls s' = calls (after registered_chain) ++ (CallStartup <$> l) ∧ NoDup l.
Proof.
  destruct (load_outcome (after registered_chain) "script"
    (mkNode (module "script" ["queue"; "shm"]) [] Registered true UNLOADED 0)) as
    (ok & s' & l & H1 & H2 & H3 & _).
  - apply after_reachable; [apply (bool_decide_unpack _); by vm_compute|by vm_compute].
  - by vm_compute.
  - by vm_compute.
  - by vm_compute.
  - by vm_compute.
  - done.
  - exists ok, s', l. split; [exact H1|]. split; [exact H2|exact H3].
Defined.

(** C4 Whatever the order of registrations, loads, unloads and steps of the
    shutdown thread, a loaded module has all its direct and indirect
    dependencies up; so the module whose shutdown callback is running is one
    that no loaded module depends on.  Startups and shutdowns may fail, but a
    startup may throw nothing but a [std::exception]: the load lets another
    exception through ([LifecycleRuns] has the run in which it then fails). *)
Theorem loaded_modules_have_their_dependencies s :
  reachable std_exceptions_only s →
  let g := m_module_graph s in
  (∀ n node x, g !! n = Some node → loaded node = true → rtc (depends_on g) n x → up g x) ∧
  (∀ copy, thread_running s = Some copy → ∀ m, ¬ loaded_dependent g m (name (def copy))).
Proof.
  intros Hr g. pose proof (linv_reachable s Hr) as HI. pose proof (gi_deps _ (li_graph _ HI)) as HD. split.
  - intros n node x Hn Hl Hx. eapply up_closure; [done| |done]. unfold up. subst g. rewrite Hn.
    unfold loaded in Hl. destruct (is_dynamic node); [|done]. by bool_facts.
  - intros copy Hc. destruct (li_running _ HI copy Hc) as (node & Hn & _ & Hd & Hs).
    eapply not_up_no_dependents; [done|done|done|congruence].
Qed.

(** The test of [depends_on]. *)
Definition depends_on_b g (a b : string) : bool :=
  match g !! a with
  | Some node => is_dynamic node && bool_decide (b ∈ node_dependencies node)
  | None => false
  end.

Lemma depends_on_b_sound g a b : depends_on_b g a b = true → depends_on g a b.
Proof.
  unfold depends_on_b. destruct (g !! a) as [node|] eqn:Ha; [|done]. intros H. bool_facts. by exists node.
Qed.

Lemma loaded_lookup g a : loaded <$> g !! a = Some true → ∃ node, g !! a = Some node ∧ loaded node = true.
Proof. intros (node & Hn & Hl)%fmap_Some. by exists node. Qed.

Lemma loaded_modules_have_their_dependencies_witness :
  up (m_module_graph (after (registered_chain ++ [Load "script"]))) "log".
Proof.
  destruct (loaded_lookup (m_module_graph (after (registered_chain ++ [Load "script"]))) "script")
    as (node & Hn & Hl); [by vm_compute|].
  assert (Hr : reachable std_exceptions_only (after (registered_chain ++ [Load "script"]))).
  { apply after_reachable; [apply (bool_decide_unpack _); by vm_compute|by vm_compute]. }
  refine (proj1 (loaded_modules_have_their_dependencies _ Hr) "script" node "log" Hn Hl _).
  apply (rtc_l _ _ "shm"); [|apply rtc_once]; apply depends_on_b_sound; by vm_compute.
Defined.

End LifecycleProps.
