(* ===== verification/LifecycleUnload.v ===== *)
(** * Unloading: what completes and what does not *)

From stdpp Require Import sorting.
From S2P Require Import Prelude.
From S2P Require Import Topology.
From S2P Require Import Lifecycle.
From S2P Require Import LifecycleLoad.
From S2P Require Import LifecycleInv.
From S2P Require Import LifecycleReach.
From S2P Require Import LifecycleProps.
Import Topology Lifecycle LifecycleLoad LifecycleInv LifecycleReach LifecycleProps.

Module LifecycleUnload.

Implicit Types (g : Graph) (s : Manager) (n m x : string) (node : InternalGraphNode)
  (d : InternalModuleDef).

(** ** The shutdown thread runs dry *)

Definition thread_event (e : event) : Prop := e = ThreadPop ∨ e = ThreadBegin ∨ e = ThreadEnd.

Definition unloading_count g : nat := size (filter (λ y, dynamic_status y.2 = UNLOADING) g).

Lemma unloading_count_lt g g' n node :
  g !! n = Some node → dynamic_status node = UNLOADING →
  (∀ m b, g' !! m = Some b → dynamic_status b = UNLOADING →
     m ≠ n ∧ ∃ a, g !! m = Some a ∧ dynamic_status a = UNLOADING) →
  (unloading_count g' < unloading_count g)%nat.
Proof.
  intros Hn Hs Hback. unfold unloading_count. rewrite <- !size_dom. apply subset_size.
  assert (Hin : n ∈ dom (filter (λ y, dynamic_status y.2 = UNLOADING) g)).
  { apply elem_of_dom. exists node. by apply map_lookup_filter_Some. }
  assert (Hni : n ∉ dom (filter (λ y, dynamic_status y.2 = UNLOADING) g')).
  { intros (b & [Hb Hub]%map_lookup_filter_Some)%elem_of_dom. by apply (Hback n b Hb) in Hub as [? _]. }
  split; [|set_solver]. intros m (b & [Hb Hub]%map_lookup_filter_Some)%elem_of_dom.
  destruct (Hback m b Hb Hub) as (_ & a & Ha & Hua). apply elem_of_dom. exists a.
  by apply map_lookup_filter_Some.
Qed.

(** The graph after the second half of a module's unload. *)
Lemma thread_end_cases s s' copy :
  thread_running s = Some copy → thread_end s = Some s' →
  let n := name (def copy) in let g := m_module_graph s in
  thread_running s' = None ∧ m_shutdown_queue s' = m_shutdown_queue s ∧
  m_is_initialized s' = m_is_initialized s ∧
  ((∃ st, (st = SHUTDOWN_TIMEOUT ∨ st = FAILED_SHUTDOWN) ∧
     m_module_graph s' = set_dynamic_status st n g ∧ thread_stack s' = thread_stack s ∧
     (m_pending_unload_closures s' = m_pending_unload_closures s ∨
      m_pending_unload_closures s' = leave_closures n (m_pending_unload_closures s))) ∨
   (is_Some (g !! n) → let g' := recalculateReferenceCounts (remove_node n (node_dependencies copy) g) in
     m_module_graph s' = g' ∧
     thread_stack s' = filter (λ x, Is_true (ready_to_unload g' x)) (node_dependencies copy) ++ thread_stack s ∧
     m_pending_unload_closures s' = leave_closures n (m_pending_unload_closures s))).
Proof.
  intros Hr He n g. unfold thread_end in He. rewrite Hr in He.
  assert (Hfin : ∀ s1, s1 = s <| thread_running := None |>
        <| m_pending_unload_closures ::= leave_closures (name (def copy)) |> →
      s' = (let '(deps_to_process, s2) := cleanupAfterUnload_ (name (def copy)) (node_dependencies copy) s1 in
            s2 <| thread_stack ::= λ st, deps_to_process ++ st |>) →
      thread_running s' = None ∧ m_shutdown_queue s' = m_shutdown_queue s ∧
      m_is_initialized s' = m_is_initialized s ∧
      (is_Some (g !! n) → let g' := recalculateReferenceCounts (remove_node n (node_dependencies copy) g) in
        m_module_graph s' = g' ∧
        thread_stack s' = filter (λ x, Is_true (ready_to_unload g' x)) (node_dependencies copy) ++ thread_stack s ∧
        m_pending_unload_closures s' = leave_closures n (m_pending_unload_closures s))).
  { intros s1 -> ->. unfold cleanupAfterUnload_. cbn. split_and!; try done. intros Hs.
    subst n g. rewrite bool_decide_eq_true_2 by done. done. }
  destruct (validation_fails (def copy) AtUnload).
  - destruct (owner_managed_teardown (def copy)); apply (inj Some) in He.
    + destruct (Hfin _ eq_refl (eq_sym He)) as (H1 & H2 & H3 & H4). split_and!; try done. by right.
    + subst s'. split_and!; try done. left. exists FAILED_SHUTDOWN. split_and!; try done; [by right|by left].
  - destruct (timedShutdown _ _); apply (inj Some) in He.
    + destruct (Hfin _ eq_refl (eq_sym He)) as (H1 & H2 & H3 & H4). split_and!; try done. by right.
    + subst s'. split_and!; try done. left. exists SHUTDOWN_TIMEOUT. split_and!; try done; [by left|by right].
    + subst s'. split_and!; try done. left. exists FAILED_SHUTDOWN. split_and!; try done; [by right|by right].
Qed.

(** The statuses after it. *)
Lemma removed_lookup n deps g m b :
  recalculateReferenceCounts (remove_node n deps g) !! m = Some b →
  m ≠ n ∧ ∃ a, g !! m = Some a ∧ def b = def a ∧ is_dynamic b = is_dynamic a ∧
    dynamic_status b = dynamic_status a ∧ status b = status a.
Proof.
  intros Hb. apply recalc_spec in Hb as (c & Hc & (Hs1 & _ & Hs3 & Hs4 & Hs5) & _).
  destruct (remove_node_lookup n deps g m) as (f & Hf & Hl). rewrite Hl in Hc.
  case_decide; [done|]. split; [done|]. apply fmap_Some in Hc as (a & Ha & ->). exists a.
  destruct (Hf a) as (H1 & H2 & H3 & _ & H5). split_and!; congruence.
Qed.

Lemma removed_lookup_some n deps g m a :
  g !! m = Some a → m ≠ n →
  ∃ b, recalculateReferenceCounts (remove_node n deps g) !! m = Some b ∧ def b = def a ∧
    is_dynamic b = is_dynamic a ∧ dynamic_status b = dynamic_status a ∧ status b = status a.
Proof.
  intros Ha Hm. destruct (remove_node_lookup n deps g m) as (f & Hf & Hl).
  rewrite decide_False, Ha in Hl by done. cbn in Hl.
  destruct (recalc_lookup_some _ _ _ Hl) as (b & Hb & Hs). exists b. split; [done|].
  apply removed_lookup in Hb as (_ & a' & Ha' & ?). assert (a' = a) as -> by congruence. done.
Qed.

Lemma thread_end_unloading s s' copy node :
  thread_running s = Some copy → m_module_graph s !! name (def copy) = Some node →
  dynamic_status node = UNLOADING → thread_end s = Some s' →
  (unloading_count (m_module_graph s') < unloading_count (m_module_graph s))%nat.
Proof.
  intros Hr Hn Hs He. destruct (thread_end_cases s s' copy Hr He) as (_ & _ & _ & Hc).
  eapply unloading_count_lt; [done|done|]. intros m b Hb Hu. destruct Hc as [(st & Hst & Hg & _)|Hc].
  - rewrite Hg in Hb. unfold set_dynamic_status in Hb.
    apply lookup_alter_Some in Hb as [(-> & a & Ha & ->)|(Hm & Hb)]; [|split; [done|by exists b]].
    cbn in Hu. destruct Hst; congruence.
  - destruct Hc as (Hg & _); [by eexists|]. rewrite Hg in Hb.
    apply removed_lookup in Hb as (Hm & a & Ha & _ & _ & Hds & _). split; [done|].
    exists a. split; [done|congruence].
Qed.

Definition thread_work s : nat :=
  3 * length (m_shutdown_queue s) + 2 * length (thread_stack s) +
  match thread_running s with Some _ => 1 | None => 0 end.

(** One step of the thread, if it has anything to do. *)
Lemma thread_progress s : LInv s → thread_done s = false →
  ∃ e s', thread_event e ∧ run_event e s = Some s' ∧
    ((unloading_count (m_module_graph s') < unloading_count (m_module_graph s))%nat ∨
     (m_module_graph s' = m_module_graph s ∧ (thread_work s' < thread_work s)%nat)).
Proof.
  intros HI Hd. destruct (thread_running s) as [copy|] eqn:Hr.
  - destruct (li_running _ HI copy Hr) as (node & Hn & _ & _ & Hs).
    assert (is_Some (thread_end s)) as [s' He].
    { unfold thread_end. rewrite Hr. destruct (validation_fails _ _); [by destruct (owner_managed_teardown _); eexists|].
      by destruct (timedShutdown _ _); eexists. }
    exists ThreadEnd, s'. split_and!; [by right; right|done|]. left. by eapply thread_end_unloading.
  - destruct (thread_stack s) as [|n stack] eqn:Hst.
    + destruct (m_shutdown_queue s) as [|n q] eqn:Hq.
      { unfold thread_done in Hd. by rewrite Hq, Hst, Hr in Hd. }
      exists ThreadPop, (s <| m_shutdown_queue := q |> <| thread_stack := [n] |>).
      split_and!; [by left| |right; split; [done|]].
      * cbn [run_event]. unfold thread_pop. by rewrite Hr, Hst, Hq.
      * unfold thread_work. cbn. rewrite Hr, Hst, Hq. cbn. lia.
    + assert (∃ s', thread_begin s = Some s' ∧ m_module_graph s' = m_module_graph s ∧
                    (thread_work s' < thread_work s)%nat) as (s' & Hb & Hg & Hw).
      { unfold thread_begin. rewrite Hr, Hst. cbn. destruct (m_module_graph s !! n) as [node|].
        - case_bool_decide; (eexists; split_and!; [done|done|]); unfold thread_work; cbn;
            rewrite ?Hr, Hst; cbn; lia.
        - eexists. split_and!; [done|done|]. unfold thread_work. cbn. rewrite Hr, Hst. cbn. lia. }
      exists ThreadBegin, s'. split_and!; [by right; left|done|]. by right.
Qed.

Lemma thread_runs_dry s : LInv s →
  ∃ l s', Forall thread_event l ∧ run_events l s = Some s' ∧ thread_done s' = true.
Proof.
  remember (unloading_count (m_module_graph s)) as k eqn:Hk. revert s Hk.
  induction (lt_wf k) as [k _ IHk]. intros s Hk.
  remember (thread_work s) as w eqn:Hw. revert s Hk Hw.
  induction (lt_wf w) as [w _ IHw]. intros s Hk Hw HI.
  destruct (thread_done s) eqn:Hd; [by exists [], s|].
  destruct (thread_progress s HI Hd) as (e & s1 & He & Hrun & Hdec).
  assert (HI1 : LInv s1).
  { eapply linv_event; [done| |done]. by destruct He as [-> |[-> | ->]]. }
  assert (∃ l s', Forall thread_event l ∧ run_events l s1 = Some s' ∧ thread_done s' = true)
    as (l & s' & Hl & Hr & Hdone).
  { destruct Hdec as [Hlt|[Hg Hlt]].
    - eapply (IHk _ ltac:(rewrite Hk; exact Hlt) s1); done.
    - eapply (IHw _ ltac:(rewrite Hw; exact Hlt) s1); [by rewrite Hg|done|done]. }
  exists (e :: l), s'. split_and!; [by constructor|cbn; by rewrite Hrun|done].
Qed.

(** ** Unloads complete *)

(** The shutdown of the module goes through, or its owner has taken it over. *)
Definition clean_shutdown d : Prop :=
  if validation_fails d AtUnload then owner_managed_teardown d = true
  else timedShutdown (shutdown_func d) (shutdown_timeout d) = Success.

Definition clean (e : event) : Prop :=
  std_exceptions_only e ∧ match e with RegisterDynamic d => clean_shutdown d | _ => True end.

(** Names the thread has still to look at. *)
Definition work s : list string :=
  m_shutdown_queue s ++ thread_stack s ++
  match thread_running s with Some copy => [name (def copy)] | None => [] end.

Definition is_unloading g n : Prop :=
  ∃ node, g !! n = Some node ∧ dynamic_status node = UNLOADING.

Definition unload_edge g (a b : string) : Prop :=
  ∃ node, g !! a = Some node ∧ dynamic_status node = UNLOADING ∧ b ∈ node_dependencies node.

Definition covered s n : Prop := ∃ r, r ∈ work s ∧ rtc (unload_edge (m_module_graph s)) r n.

Record UInv s : Prop := mkUInv {
  u_clean : ∀ n node, m_module_graph s !! n = Some node → is_dynamic node = true →
              clean_shutdown (def node);
  u_kind : ∀ n node, m_module_graph s !! n = Some node → dynamic_status node = UNLOADING →
             is_persistent (def node) = false;
  u_cover : ∀ n, is_unloading (m_module_graph s) n → covered s n;
  u_pending : ∀ r (C : gset string), m_pending_unload_closures s !! r = Some C →
                C ≠ ∅ ∧ ∀ n, n ∈ C → is_unloading (m_module_graph s) n;
}.

(** The source of a path to an unloading module is unloading. *)
Lemma path_unloading g a n : rtc (unload_edge g) a n → is_unloading g n → is_unloading g a.
Proof. intros Hp Hn. inversion Hp as [|? b ? (node & Ha & Hs & _)]; [by subst|by exists node]. Qed.

(** Modules keep their definitions, and those that are unloading stay so. *)
Lemma uinv_frame s s' :
  UInv s →
  (∀ n b, m_module_graph s' !! n = Some b →
     (∃ a, m_module_graph s !! n = Some a ∧ def b = def a ∧ is_dynamic b = is_dynamic a ∧
           (dynamic_status b = UNLOADING ↔ dynamic_status a = UNLOADING)) ∨
     (clean_shutdown (def b) ∧ dynamic_status b ≠ UNLOADING)) →
  (∀ n a, m_module_graph s !! n = Some a → dynamic_status a = UNLOADING →
     ∃ b, m_module_graph s' !! n = Some b ∧ def b = def a ∧ dynamic_status b = UNLOADING) →
  (∀ n, n ∈ work s → is_unloading (m_module_graph s) n → n ∈ work s') →
  m_pending_unload_closures s' = m_pending_unload_closures s →
  UInv s'.
Proof.
  intros HU Hback Hfwd Hwork Hpend.
  assert (Hun : ∀ n, is_unloading (m_module_graph s') n → is_unloading (m_module_graph s) n).
  { intros n (b & Hb & Hu). destruct (Hback n b Hb) as [(a & Ha & _ & _ & Hs)|[_ ?]]; [|done].
    exists a. split; [done|by apply Hs]. }
  constructor.
  - intros n b Hb Hd. destruct (Hback n b Hb) as [(a & Ha & -> & Hdd & _)|[? _]]; [|done].
    eapply (u_clean _ HU n a); [done|congruence].
  - intros n b Hb Hu. destruct (Hback n b Hb) as [(a & Ha & -> & _ & Hs)|[_ ?]]; [|done].
    eapply (u_kind _ HU n a); [done|by apply Hs].
  - intros n Hn. destruct (u_cover _ HU n (Hun n Hn)) as (r & Hr & Hp). exists r. split.
    + apply Hwork; [done|]. eapply path_unloading; [done|by apply Hun].
    + revert Hp. apply (rtc_congruence id). intros a b (node & Ha & Hs & Hb).
      destruct (Hfwd a node Ha Hs) as (node' & Hn' & Hdef & Hs'). exists node'. split_and!; try done.
      unfold node_dependencies in *. by rewrite Hdef.
  - intros r C HC. rewrite Hpend in HC. destruct (u_pending _ HU r C HC) as [Hne Hall]. split; [done|].
    intros n Hn. destruct (Hall n Hn) as (a & Ha & Hu).
    destruct (Hfwd n a Ha Hu) as (b & Hb & _ & Hs). by exists b.
Qed.

Lemma uinv_static s : static_graph (m_module_graph s) → m_pending_unload_closures s = ∅ → UInv s.
Proof.
  intros Hg Hp. constructor.
  - intros n node Hn Hd. destruct (Hg n node Hn) as (_ & ? & _). congruence.
  - intros n node Hn Hu. destruct (Hg n node Hn) as (_ & _ & _ & ?). congruence.
  - intros n (node & Hn & Hu). destruct (Hg n node Hn) as (_ & _ & _ & ?). congruence.
  - intros r C. by rewrite Hp, lookup_empty.
Qed.

Lemma uinv_register_dynamic d s :
  LInv s → UInv s → clean_shutdown d → UInv (registerDynamicModule d s).2.
Proof.
  intros HI HU Hd. unfold registerDynamicModule. destruct (negb _ || _) eqn:Hi; [done|].
  case_bool_decide as Hn; [done|]. case_bool_decide as Hdep; [done|].
  case_bool_decide as Hc; [done|]. cbn. eapply uinv_frame; [exact HU| | |done|done]; cbn.
  - intros m b Hb. destruct (add_dependents_lookup (name d) (dependencies d)
      (<[name d := mkNode d [] Registered true UNLOADED 0]> (m_module_graph s)) m) as (f & Hf & Hl).
    rewrite Hl in Hb. apply fmap_Some in Hb as (a & Ha & ->). destruct (Hf a) as (H1 & _ & H3 & _ & H5).
    rewrite H1, H3, H5. apply lookup_insert_Some in Ha as [(<- & <-)|(_ & Ha)]; [right|left].
    + by split.
    + by exists a.
  - intros m a Ha Hu. destruct (add_dependents_lookup (name d) (dependencies d)
      (<[name d := mkNode d [] Registered true UNLOADED 0]> (m_module_graph s)) m) as (f & Hf & ->).
    assert (name d ≠ m) by (intros <-; apply Hn; by eexists).
    rewrite lookup_insert_ne, Ha by done. exists (f a). split; [done|].
    by destruct (Hf a) as (-> & _ & _ & _ & ->).
Qed.

Lemma uinv_load n s r s' : LInv s → UInv s → loadModule n s = Some (r, s') → UInv s'.
Proof.
  intros HI HU Hl.
  apply load_cases in Hl as [->|[(Hi & node & ok & s1 & Hn & Hd & Hl & -> & _)|(node & Hn & Hd & Hl)]];
    [done| |by destruct (load_returns _ _ _ _ _ (gi_std _ (li_graph _ HI)) Hl)].
  destruct (load_spec _ n s _ s1 node Hn Hd Hl) as (l & (Hc & Hf & Hst & E) & _).
  eapply uinv_frame; [exact HU| | | |by rewrite E]; cbn.
  - intros m c Hcc. left. apply recalc_spec in Hcc as (b & Hb & (H1 & _ & _ & H4 & H5) & _).
    destruct (load_frame_lookup_back _ _ _ _ Hf Hb) as (a & Ha & Hab). exists a. split; [done|].
    pose proof (node_frame_fields _ _ Hab) as (E1 & E2 & _).
    rewrite H1, H4, H5, E1, E2. split_and!; try done.
    destruct Hab as [[He|(He & _ & Hnu)] _]; [by rewrite He|]. split; congruence.
  - intros m a Ha Hu. destruct (load_frame_lookup _ _ _ _ Hf Ha) as (b & Hb & Hab).
    destruct (recalc_lookup_some _ _ _ Hb) as (c & Hcc & (H1 & _ & _ & _ & H5)). exists c.
    split; [done|]. pose proof (node_frame_fields _ _ Hab) as (E1 & _).
    split; [congruence|]. destruct Hab as [[He|(He & _)] _]; congruence.
  - intros m Hm _. rewrite E. done.
Qed.

Lemma uinv_unload n s r s' : LInv s → UInv s → unloadModule n s = Some (r, s') → UInv s'.
Proof.
  intros HI HU Hu. pose proof (li_graph _ HI) as HG.
  apply unload_cases in Hu as [->|(Hi & -> & node & C & Hn & Hl & Hp & Hr & HC & ->)]; [done|].
  destruct (closure_dependents _ n node C HG Hn Hl Hp Hr HC) as [HCI _].
  set (g := m_module_graph s) in *.
  assert (Hkeep : ∀ m, is_unloading g m → is_unloading (mark_closure C g) m).
  { intros m (a & Ha & Hua). unfold is_unloading. rewrite mark_closure_lookup, Ha. cbn.
    eexists. split; [done|]. by case_bool_decide. }
  assert (HinC : ∀ m, m ∈ C → is_unloading (mark_closure C g) m).
  { intros m Hm. destruct (closure_loaded g n node C m Hn Hl HCI Hm) as (a & Ha & _).
    unfold is_unloading. rewrite mark_closure_lookup, Ha. cbn. rewrite bool_decide_eq_true_2 by done.
    by eexists. }
  assert (Hedge : ∀ a b, unload_edge g a b → unload_edge (mark_closure C g) a b).
  { intros a b (x & Hx & Hs & Hb). destruct (Hkeep a) as (y & Hy & Hsy); [by exists x|].
    exists y. split_and!; try done. rewrite mark_closure_lookup, Hx in Hy. apply (inj Some) in Hy.
    subst y. by case_bool_decide. }
  constructor; cbn.
  - intros m b Hb Hd. rewrite mark_closure_lookup in Hb. apply fmap_Some in Hb as (a & Ha & ->).
    eapply u_clean in HU; [|exact Ha|by case_bool_decide]. by case_bool_decide.
  - intros m b Hb Hub. rewrite mark_closure_lookup in Hb. apply fmap_Some in Hb as (a & Ha & ->).
    case_bool_decide as Hm; [|by eapply (u_kind _ HU)].
    destruct (ci_member _ _ _ _ HCI m Hm) as [->|[(a' & Ha' & _ & Hpa) _]]; cbn; fold g in Ha; congruence.
  - intros m (b & Hb & Hub). rewrite mark_closure_lookup in Hb. apply fmap_Some in Hb as (a & Ha & ->).
    unfold covered. cbn. case_bool_decide as Hm.
    + exists n. split; [unfold work; cbn; set_solver|].
      pose proof (ci_path _ _ _ _ HCI m Hm) as Hpath. pose proof (ci_root _ _ _ _ HCI) as Hroot.
      clear - Hpath Hroot HinC. induction Hpath as [|x y z (Hy & nd & Hx & Hdy) Hpath IH]; [done|].
      eapply rtc_l; [|by apply IH]. destruct (HinC x Hroot) as (b & Hb & Hub). exists b. split_and!; try done.
      rewrite mark_closure_lookup, Hx in Hb. apply (inj Some) in Hb. subst b. by case_bool_decide.
    + destruct (u_cover _ HU m) as (r & Hrw & Hpath); [by exists a|]. exists r. split.
      * unfold work in *. cbn. set_solver.
      * revert Hpath. apply (rtc_congruence id). apply Hedge.
  - intros r D HD. apply lookup_insert_Some in HD as [(<- & <-)|(_ & HD)].
    + split; [|done]. pose proof (ci_root _ _ _ _ HCI). set_solver.
    + destruct (u_pending _ HU r D HD) as [Hne Hall]. split; [done|]. intros m Hm. by apply Hkeep, Hall.
Qed.

Lemma uinv_thread_pop s s' : UInv s → thread_pop s = Some s' → UInv s'.
Proof.
  intros HU Ht. unfold thread_pop in Ht. destruct (thread_running s) eqn:Hr; [done|].
  destruct (thread_stack s) eqn:Hst; [|done]. destruct (m_shutdown_queue s) as [|n q] eqn:Hq; [done|].
  apply (inj Some) in Ht as <-. eapply uinv_frame; [exact HU| | | |done]; cbn.
  - intros m b Hb. left. by exists b.
  - intros m a Ha Hu. by exists a.
  - intros m Hm _. unfold work in *. rewrite Hq, Hst, Hr in Hm. cbn in *. rewrite Hr. set_solver.
Qed.

Lemma uinv_thread_begin s s' : LInv s → UInv s → thread_begin s = Some s' → UInv s'.
Proof.
  intros HI HU Ht. unfold thread_begin in Ht. destruct (thread_running s) eqn:Hr; [done|].
  destruct (thread_stack s) as [|n stack] eqn:Hst; [done|]. cbn in Ht.
  assert (Hdrop : ∀ s1, m_module_graph s1 = m_module_graph s →
    m_pending_unload_closures s1 = m_pending_unload_closures s →
    (∀ m, m ∈ work s → is_unloading (m_module_graph s) m → m ∈ work s1) → UInv s1).
  { intros s1 Hg Hp Hw. eapply uinv_frame; [exact HU| | |exact Hw|exact Hp]; rewrite Hg.
    - intros m b Hb. left. by exists b.
    - intros m a Ha Hu. by exists a. }
  assert (Hwork : ∀ m, m ∈ work s ↔ m ∈ m_shutdown_queue s ∨ m = n ∨ m ∈ stack).
  { intros m. unfold work. rewrite Hst, Hr. cbn. set_solver. }
  destruct (m_module_graph s !! n) as [node|] eqn:Hn.
  - case_bool_decide as Hs; apply (inj Some) in Ht as <-; apply Hdrop; try done;
      intros m Hm%Hwork (a & Ha & Hu); unfold work; cbn.
    + rewrite Hr. destruct Hm as [|[->|]]; [set_solver| |set_solver]. congruence.
    + rewrite (gi_name _ (li_graph _ HI) n node Hn). set_solver.
  - apply (inj Some) in Ht as <-. apply Hdrop; try done. intros m Hm%Hwork (a & Ha & _).
    unfold work. cbn. rewrite Hr. destruct Hm as [|[->|]]; [set_solver| |set_solver]. congruence.
Qed.

(** A path that reaches another module after [n] is gone: it avoids [n], or
    starts anew at one of [n]'s dependencies. *)
Lemma path_after_removal g n node r m :
  g !! n = Some node → rtc (unload_edge g) r m → m ≠ n → is_unloading g m →
  let g' := recalculateReferenceCounts (remove_node n (node_dependencies node) g) in
  (r ≠ n ∧ rtc (unload_edge g') r m) ∨
  ∃ x, x ∈ node_dependencies node ∧ x ≠ n ∧ is_unloading g x ∧ rtc (unload_edge g') x m.
Proof.
  intros Hn Hp Hm Hum g'. induction Hp as [m|a b m (nd & Ha & Hs & Hb) Hp IH]; [by left|].
  destruct (IH Hm Hum) as [[Hbn Hp']|?]; [|by right]. destruct (decide (a = n)) as [->|Han].
  - right. exists b. assert (nd = node) as -> by congruence. split_and!; try done. by eapply path_unloading.
  - left. split; [done|]. eapply rtc_l; [|done].
    destruct (removed_lookup_some n (node_dependencies node) g a nd Ha Han) as (c & Hc & Hdef & _ & Hsc & _).
    exists c. split_and!; [done|congruence|]. unfold node_dependencies in *. by rewrite Hdef.
Qed.

(** With clean shutdowns the second half of an unload always removes the
    module. *)
Lemma clean_thread_end s s' copy :
  LInv s → UInv s → thread_running s = Some copy → thread_end s = Some s' →
  let n := name (def copy) in let g := m_module_graph s in
  let g' := recalculateReferenceCounts (remove_node n (node_dependencies copy) g) in
  (∃ node, g !! n = Some node ∧ def node = def copy ∧ dynamic_status node = UNLOADING) ∧
  m_module_graph s' = g' ∧ m_shutdown_queue s' = m_shutdown_queue s ∧ thread_running s' = None ∧
  thread_stack s' = filter (λ x, Is_true (ready_to_unload g' x)) (node_dependencies copy) ++ thread_stack s ∧
  m_pending_unload_closures s' = leave_closures n (m_pending_unload_closures s).
Proof.
  intros HI HU Hr Ht n g g'. destruct (li_running _ HI copy Hr) as (node & Hn & Hdef & Hd & Hs).
  fold n g in Hn. split; [by exists node|].
  destruct (thread_end_cases s s' copy Hr Ht) as (H1 & H2 & _ & [(st & _ & Hg & _)|H4]).
  - exfalso. pose proof (u_clean _ HU n node Hn Hd) as Hcl. rewrite Hdef in Hcl.
    unfold clean_shutdown in Hcl. unfold thread_end in Ht. rewrite Hr in Ht.
    assert (Hsome : m_module_graph s' !! n ≠ None).
    { rewrite Hg. unfold set_dynamic_status. fold g n. by rewrite lookup_alter_eq, Hn. }
    apply Hsome. clear Hg Hsome.
    assert (Hgone : ∀ deps, recalculateReferenceCounts (remove_node n deps g) !! n = None).
    { intros deps. destruct (recalculateReferenceCounts (remove_node n deps g) !! n) as [b|] eqn:Hb; [|done].
      by apply removed_lookup in Hb as [? _]. }
    destruct (validation_fails (def copy) AtUnload); rewrite Hcl in Ht; apply (inj Some) in Ht as <-;
      unfold cleanupAfterUnload_; cbn; fold n g;
      rewrite bool_decide_eq_true_2 by (by rewrite Hn; eexists); apply Hgone.
  - destruct H4 as (H4 & H5 & H6); [by eexists|]. by split_and!.
Qed.

Lemma uinv_thread_end s s' : LInv s → UInv s → thread_end s = Some s' → UInv s'.
Proof.
  intros HI HU Ht. destruct (thread_running s) as [copy|] eqn:Hr; [|unfold thread_end in Ht; by rewrite Hr in Ht].
  destruct (clean_thread_end s s' copy HI HU Hr Ht) as ((node & Hn & Hdef & Hs) & Hg & Hq & Hrun & Hstk & Hpend).
  assert (HI' : LInv s') by (by eapply linv_thread_end).
  assert (Hnd : node_dependencies node = node_dependencies copy) by (unfold node_dependencies; by rewrite Hdef).
  set (n := name (def copy)) in *. set (g := m_module_graph s) in *.
  set (g' := recalculateReferenceCounts (remove_node n (node_dependencies copy) g)) in *.
  assert (Hkeep : ∀ m, m ≠ n → is_unloading g m → is_unloading g' m).
  { intros m Hm (a & Ha & Hua).
    destruct (removed_lookup_some n (node_dependencies copy) g m a Ha Hm) as (b & Hb & _ & _ & Hsb & _).
    exists b. split; [done|congruence]. }
  assert (Hready : ∀ x, x ≠ n → is_unloading g x → Is_true (ready_to_unload g' x)).
  { intros x Hx Hux. destruct (Hux) as (a & Ha & Hua).
    destruct (removed_lookup_some n (node_dependencies copy) g x a Ha Hx) as (b & Hb & Hdb & Hdyn & Hsb & _).
    unfold ready_to_unload. fold g' in Hb. rewrite Hb.
    assert (Hda : is_dynamic a = true).
    { destruct (is_dynamic a) eqn:Hda; [done|].
      pose proof (gi_static _ (li_graph _ HI) x a Ha Hda). congruence. }
    rewrite Hdyn, Hda, Hdb, (u_kind _ HU x a Ha Hua). rewrite bool_decide_eq_true_2 by congruence.
    cbn. destruct (Z.ltb_spec 0 (ref_count b)) as [Hpos|]; [|done]. exfalso.
    pose proof (Hb) as Hb'. apply recalc_spec in Hb' as (c & Hc & Hsame & Href).
    assert (Hcnt : counted c = true).
    { destruct Hsame as (E1 & _ & _ & E4 & _). unfold counted. rewrite <- E4, <- E1, Hdyn, Hda, Hdb.
      by rewrite (u_kind _ HU x a Ha Hua). }
    assert (Hno : ∀ m, ¬ loaded_dependent (remove_node n (node_dependencies copy) g) m x).
    { intros m Hm. apply loaded_dependent_recalc in Hm. fold g' in Hm. rewrite <- Hg in Hm.
      eapply (not_up_no_dependents _ x b (gi_deps _ (li_graph _ HI'))); [by rewrite Hg| | |exact Hm]; congruence. }
    apply (Href Hcnt) in Hno. lia. }
  constructor; rewrite Hg.
  - intros m b Hb Hdb. apply removed_lookup in Hb as (_ & a & Ha & -> & Hdyn & _).
    eapply (u_clean _ HU); [done|congruence].
  - intros m b Hb Hub. apply removed_lookup in Hb as (_ & a & Ha & -> & _ & Hsa & _).
    eapply (u_kind _ HU); [done|congruence].
  - intros m (b & Hb & Hub). apply removed_lookup in Hb as (Hm & a & Ha & _ & _ & Hsa & _).
    assert (Hum : is_unloading g m) by (exists a; split; [done|congruence]).
    destruct (u_cover _ HU m Hum) as (r & Hrw & Hp). unfold covered. rewrite Hg.
    destruct (path_after_removal g n node r m Hn Hp Hm Hum) as [[Hrn Hp']|(x & Hx & Hxn & Hux & Hp')];
      rewrite Hnd in *.
    + exists r. split; [|done]. unfold work in *. rewrite Hq, Hstk, Hrun, Hr in *. set_solver.
    + exists x. split; [|done]. unfold work. rewrite Hq, Hstk, Hrun.
      apply elem_of_app. right. apply elem_of_app. left. apply elem_of_app. left.
      apply list_elem_of_filter. split; [by apply Hready|done].
  - intros r C HC. rewrite Hpend in HC. unfold leave_closures in HC.
    apply map_lookup_filter_Some in HC as [HC Hne]. split; [done|].
    rewrite lookup_fmap in HC. apply fmap_Some in HC as (D & HD & ->).
    intros m Hm. apply Hkeep; [set_solver|]. apply (u_pending _ HU r D HD). set_solver.
Qed.

Lemma uinv_event e s s' : LInv s → UInv s → clean e → run_event e s = Some s' → UInv s'.
Proof.
  intros HI HU [Hstd Hcl] Hrun. destruct e as [d| |d|n|n| | | |]; cbn [run_event] in Hrun.
  - unfold registerStaticModule in Hrun. destruct (m_is_initialized s) eqn:Hi; [done|].
    apply (inj Some) in Hrun as <-. destruct (li_fresh _ HI Hi) as (Hg & _ & _ & _ & Hp).
    apply uinv_static; [|done]. cbn. rewrite Hg. intros n node. by rewrite lookup_empty.
  - apply bind_Some in Hrun as ([|s1] & Hini & Hrun); [done|]. simplify_eq.
    destruct (m_is_initialized s) eqn:Hi.
    + unfold initialize in Hini. rewrite Hi in Hini. by simplify_eq.
    + destruct (li_fresh _ HI Hi) as (Hg & _ & _ & _ & Hp).
      destruct (initialize_inv s s' Hg Hi (li_registered _ HI) Hini) as [Hsg E].
      apply uinv_static; [done|by rewrite E].
  - apply (inj Some) in Hrun as <-. by apply uinv_register_dynamic.
  - apply bind_Some in Hrun as ([[r|] s1] & Hl & Hrun); [|done]. simplify_eq. by eapply uinv_load.
  - apply bind_Some in Hrun as ([[r|] s1] & Hl & Hrun); [|done]. simplify_eq. by eapply uinv_unload.
  - by eapply uinv_thread_pop.
  - by eapply uinv_thread_begin.
  - by eapply uinv_thread_end.
  - apply (inj Some) in Hrun as <-. unfold finalize_begin. destruct (_ || _); [done|].
    eapply uinv_frame; [exact HU| | |done|done].
    + intros m b Hb. left. by exists b.
    + intros m a Ha Hu. by exists a.
Qed.

Lemma clean_reachable s : reachable clean s → LInv s ∧ UInv s.
Proof.
  induction 1 as [|e s s' _ [HI HU] Hok Hrun].
  - split; [apply linv_initial|]. apply uinv_static; [|done]. intros n node Hn. cbn in Hn. by rewrite lookup_empty in Hn.
  - split; [eapply linv_event; [done|apply Hok|done]|by eapply uinv_event].
Qed.

(** What the thread makes of the graph: modules that were unloading stay so or
    are gone, the others keep their status, and nobody comes. *)
Definition unloaded_between g g' : Prop := ∀ n,
  match g !! n, g' !! n with
  | Some a, Some b => dynamic_status b = dynamic_status a
  | Some a, None => dynamic_status a = UNLOADING
  | None, o => o = None
  end.

Lemma unloaded_between_refl g : unloaded_between g g.
Proof. intros n. by destruct (g !! n). Qed.

Lemma unloaded_between_trans g1 g2 g3 :
  unloaded_between g1 g2 → unloaded_between g2 g3 → unloaded_between g1 g3.
Proof.
  intros H12 H23 n. specialize (H12 n). specialize (H23 n).
  destruct (g1 !! n), (g2 !! n), (g3 !! n); simplify_eq; congruence.
Qed.

Lemma thread_event_between e s s' :
  LInv s → UInv s → thread_event e → run_event e s = Some s' →
  unloaded_between (m_module_graph s) (m_module_graph s').
Proof.
  intros HI HU [->|[->| ->]] Hrun; cbn [run_event] in Hrun.
  - unfold thread_pop in Hrun. repeat case_match; simplify_eq. apply unloaded_between_refl.
  - unfold thread_begin in Hrun. repeat (case_match; simplify_eq/=); try done; apply unloaded_between_refl.
  - destruct (thread_running s) as [copy|] eqn:Hr; [|unfold thread_end in Hrun; by rewrite Hr in Hrun].
    destruct (clean_thread_end s s' copy HI HU Hr Hrun) as ((node & Hn & _ & Hs) & -> & _).
    set (n := name (def copy)) in *. intros m.
    destruct (recalculateReferenceCounts (remove_node n (node_dependencies copy) (m_module_graph s)) !! m)
      as [b|] eqn:Hb.
    + apply removed_lookup in Hb as (_ & a & -> & _ & _ & Hst & _). done.
    + destruct (m_module_graph s !! m) as [a|] eqn:Ha; [|done]. destruct (decide (m = n)) as [->|Hm]; [congruence|].
      destruct (removed_lookup_some n (node_dependencies copy) _ m a Ha Hm) as (c & Hc & _). congruence.
Qed.

Lemma thread_run_between l s s' :
  reachable clean s → Forall thread_event l → run_events l s = Some s' →
  reachable clean s' ∧ unloaded_between (m_module_graph s) (m_module_graph s').
Proof.
  revert s. induction l as [|e l IH]; intros s Hr Hl Hrun.
  { injection Hrun as <-. split; [done|apply unloaded_between_refl]. }
  apply Forall_cons in Hl as [He Hl]. apply bind_Some in Hrun as (s1 & Hrun1 & Hrun).
  destruct (clean_reachable s Hr) as [HI HU].
  assert (reachable clean s1) as Hr1.
  { eapply reach_event; [done| |done]. by destruct He as [->|[->| ->]]; split. }
  destruct (IH s1 Hr1 Hl Hrun) as [Hr' Hb]. split; [done|].
  eapply unloaded_between_trans; [by eapply thread_event_between|done].
Qed.


End LifecycleUnload.
