(* ===== verification/LifecycleRuns.v ===== *)
(** * Where the lifecycle manager stops short of its contract

    A wait that never ends, and three runs in which a module is shut down
    before a module that depends on it. *)

From stdpp Require Import sorting.
From S2P Require Import Prelude.
From S2P Require Import Topology.
From S2P Require Import Lifecycle.
From S2P Require Import LifecycleLoad.
From S2P Require Import LifecycleInv.
From S2P Require Import LifecycleReach.
From S2P Require Import LifecycleProps.
From S2P Require Import LifecycleUnload.
Import Topology Lifecycle LifecycleLoad LifecycleInv LifecycleReach LifecycleProps LifecycleUnload.

Module LifecycleRuns.

Implicit Types (g : Graph) (s : Manager) (n m x root : string) (node : InternalGraphNode)
  (d : InternalModuleDef).

(** ** Waits that never end *)

Definition has_failed g n : Prop :=
  ∃ node, g !! n = Some node ∧
    (dynamic_status node = FAILED_SHUTDOWN ∨ dynamic_status node = SHUTDOWN_TIMEOUT).

(** The unload of [root] has failed, and [n], a member of its closure, will
    not be visited: it is [root] itself, or nothing leads to it any more. *)
Record Stuck s root n : Prop := mkStuck {
  sk_failed : has_failed (m_module_graph s) root;
  sk_pending : ∃ C : gset string, m_pending_unload_closures s !! root = Some C ∧ n ∈ C;
  sk_member : n = root ∨
    (is_unloading (m_module_graph s) n ∧ n ∉ work s ∧
     ∀ m a, m_module_graph s !! m = Some a → dynamic_status a = UNLOADING → n ∉ node_dependencies a);
}.

Lemma stuck_frame s s' root n :
  LInv s → Stuck s root n →
  (∀ m a, m_module_graph s !! m = Some a → m = n ∨ m = root →
     ∃ b, m_module_graph s' !! m = Some b ∧
          (dynamic_status a ≠ UNLOADED → dynamic_status a ≠ LOADED → dynamic_status b = dynamic_status a)) →
  (∀ m b, m_module_graph s' !! m = Some b → dynamic_status b = UNLOADING →
     ∃ a, m_module_graph s !! m = Some a ∧ node_dependencies b = node_dependencies a ∧
          (dynamic_status a = UNLOADING ∨ loaded a = true)) →
  (is_unloading (m_module_graph s) n → n ∉ work s → n ∉ work s') →
  (∃ C : gset string, m_pending_unload_closures s' !! root = Some C ∧ n ∈ C) →
  Stuck s' root n.
Proof.
  intros HI [Hf _ Hm] Hkeep Hback Hwork Hp. constructor; [|done|].
  - destruct Hf as (a & Ha & Hs). destruct (Hkeep root a Ha) as (b & Hb & Hsb); [by right|].
    exists b. split; [done|]. rewrite Hsb; [done|by destruct Hs as [-> | ->]..].
  - destruct Hm as [|((a & Ha & Hu) & Hw & Hno)]; [by left|right]. split_and!.
    + destruct (Hkeep n a Ha) as (b & Hb & Hsb); [by left|]. exists b. split; [done|].
      rewrite Hsb; [done|congruence..].
    + apply Hwork; [by exists a|done].
    + intros m b Hb Hub. destruct (Hback m b Hb Hub) as (c & Hc & -> & [Huc|Hlc]); [by eapply Hno|].
      intros Hd. eapply (not_up_no_dependents _ n a (gi_deps _ (li_graph _ HI)) Ha) with m; [|congruence|by exists c].
      destruct (is_dynamic a) eqn:Hda; [done|].
      pose proof (gi_static _ (li_graph _ HI) n a Ha Hda). congruence.
Qed.

(** Neither of the two is loaded. *)
Lemma stuck_not_loaded s root n m node : Stuck s root n → m = n ∨ m = root →
  m_module_graph s !! m = Some node → loaded node = false.
Proof.
  intros [(a & Ha & Hs) _ Hm] Hmn Hn. unfold loaded. apply andb_false_iff. right.
  apply bool_decide_eq_false_2. intros Hl.
  assert (m = root → False) as Hroot.
  { intros ->. assert (a = node) as -> by congruence. destruct Hs; congruence. }
  destruct Hmn as [->| ->]; [|done]. destruct Hm as [->|((b & Hb & Hu) & _)]; [done|].
  assert (b = node) as -> by congruence. congruence.
Qed.

(** The thread is not at either of them. *)
Lemma stuck_not_running s root n copy : LInv s → Stuck s root n → thread_running s = Some copy →
  name (def copy) ≠ n ∧ name (def copy) ≠ root.
Proof.
  intros HI HS Hr. destruct (li_running _ HI copy Hr) as (node & Hn & _ & _ & Hs).
  assert (Hroot : name (def copy) ≠ root).
  { intros E. rewrite E in Hn. destruct (sk_failed _ _ _ HS) as (a & Ha & Hf).
    assert (a = node) as -> by congruence. destruct Hf; congruence. }
  split; [|done]. intros E. destruct (sk_member _ _ _ HS) as [->|(_ & Hw & _)]; [done|].
  apply Hw. unfold work. rewrite Hr, E. set_solver.
Qed.

Lemma stuck_register d s root n : LInv s → Stuck s root n → Stuck (registerDynamicModule d s).2 root n.
Proof.
  intros HI HS. unfold registerDynamicModule. destruct (negb _ || _) eqn:Hi; [done|].
  case_bool_decide as Hn; [done|]. case_bool_decide as Hdep; [done|].
  case_bool_decide as Hc; [done|]. cbn.
  eapply stuck_frame; [exact HI|exact HS| | |done|apply HS]; cbn.
  - intros m a Ha _. destruct (add_dependents_lookup (name d) (dependencies d)
      (<[name d := mkNode d [] Registered true UNLOADED 0]> (m_module_graph s)) m) as (f & Hf & ->).
    assert (name d ≠ m) by (intros <-; apply Hn; by eexists).
    rewrite lookup_insert_ne, Ha by done. exists (f a). split; [done|].
    by destruct (Hf a) as (_ & _ & _ & _ & ->).
  - intros m b Hb Hu. destruct (add_dependents_lookup (name d) (dependencies d)
      (<[name d := mkNode d [] Registered true UNLOADED 0]> (m_module_graph s)) m) as (f & Hf & Hl).
    rewrite Hl in Hb. apply fmap_Some in Hb as (a & Ha & ->). destruct (Hf a) as (H1 & _ & _ & _ & H5).
    unfold node_dependencies. rewrite H1. rewrite H5 in Hu.
    apply lookup_insert_Some in Ha as [(<- & <-)|(_ & Ha)]; [done|]. exists a. by split_and!; [| |left].
Qed.

Lemma stuck_load k s r s' root n : LInv s → Stuck s root n → loadModule k s = Some (r, s') → Stuck s' root n.
Proof.
  intros HI HS Hl.
  apply load_cases in Hl as [->|[(Hi & node & ok & s1 & Hn & Hd & Hl & -> & _)|(node & Hn & Hd & Hl)]];
    [done| |by destruct (load_returns _ _ _ _ _ (gi_std _ (li_graph _ HI)) Hl)].
  destruct (load_spec _ k s _ s1 node Hn Hd Hl) as (l & (Hc & Hf & Hst & E) & _).
  eapply stuck_frame; [exact HI|exact HS| | | |rewrite E; apply HS]; cbn.
  - intros m a Ha _. destruct (load_frame_lookup _ _ _ _ Hf Ha) as (b & Hb & Hab).
    destruct (recalc_lookup_some _ _ _ Hb) as (c & Hcc & (_ & _ & _ & _ & H5)). exists c.
    split; [done|]. intros Hu _. destruct Hab as [[He|(He & _)] _]; congruence.
  - intros m c Hcc Hu. apply recalc_spec in Hcc as (b & Hb & (H1 & _ & _ & _ & H5) & _).
    destruct (load_frame_lookup_back _ _ _ _ Hf Hb) as (a & Ha & Hab). exists a. split; [done|].
    pose proof (node_frame_fields _ _ Hab) as (E1 & _). unfold node_dependencies. rewrite H1, E1.
    split; [done|]. left. destruct Hab as [[He|(_ & _ & Hnu)] _]; congruence.
  - intros _ Hw. rewrite E. done.
Qed.

Lemma stuck_unload k s r s' root n : LInv s → Stuck s root n → unloadModule k s = Some (r, s') → Stuck s' root n.
Proof.
  intros HI HS Hu. pose proof (li_graph _ HI) as HG.
  apply unload_cases in Hu as [->|(Hi & -> & node & C & Hk & Hl & Hp & Hr & HC & ->)]; [done|].
  destruct (closure_dependents _ k node C HG Hk Hl Hp Hr HC) as [HCI _].
  assert (Hkn : k ≠ n ∧ k ≠ root).
  { split; intros E; [pose proof (stuck_not_loaded s root n k node HS (or_introl E) Hk)
      |pose proof (stuck_not_loaded s root n k node HS (or_intror E) Hk)]; congruence. }
  eapply stuck_frame; [exact HI|exact HS| | | |]; cbn.
  - intros m a Ha Hm. rewrite mark_closure_lookup, Ha. cbn. eexists. split; [done|]. intros _ _.
    case_bool_decide as HmC; [|done]. exfalso.
    destruct (closure_loaded _ k node C m Hk Hl HCI HmC) as (b & Hb & Hlb).
    assert (b = a) as -> by congruence. by rewrite (stuck_not_loaded s root n m a HS Hm Ha) in Hlb.
  - intros m b Hb Hub. rewrite mark_closure_lookup in Hb. apply fmap_Some in Hb as (a & Ha & ->).
    exists a. case_bool_decide as HmC; [|by split_and!; [| |left]].
    split_and!; try done. right. destruct (closure_loaded _ k node C m Hk Hl HCI HmC) as (b & Hb & Hlb).
    by assert (b = a) as -> by congruence.
  - intros _ Hw Hin. unfold work in *. cbn in Hin. set_solver.
  - rewrite lookup_insert_ne by tauto. apply HS.
Qed.

Lemma stuck_thread_end s s' root n : LInv s → Stuck s root n → thread_end s = Some s' → Stuck s' root n.
Proof.
  intros HI HS Ht. destruct (thread_running s) as [copy|] eqn:Hr; [|unfold thread_end in Ht; by rewrite Hr in Ht].
  destruct (stuck_not_running s root n copy HI HS Hr) as [Hcn Hcr].
  destruct (li_running _ HI copy Hr) as (node & Hn & Hdef & Hd & Hs).
  destruct (thread_end_cases s s' copy Hr Ht) as (Hrun & Hq & _ & Hc).
  assert (Hpend : (m_pending_unload_closures s' = m_pending_unload_closures s ∨
    m_pending_unload_closures s' = leave_closures (name (def copy)) (m_pending_unload_closures s)) →
    ∃ C : gset string, m_pending_unload_closures s' !! root = Some C ∧ n ∈ C).
  { destruct (sk_pending _ _ _ HS) as (C & HC & HnC). intros [->| ->]; [by exists C|].
    exists (C ∖ {[name (def copy)]}). split; [|set_solver]. unfold leave_closures.
    apply map_lookup_filter_Some. split; [by rewrite lookup_fmap, HC|]. cbn. set_solver. }
  destruct Hc as [(st & Hst & Hg & Hstk & Hp)|Hc].
  - eapply stuck_frame; [exact HI|exact HS| | | |by apply Hpend]; rewrite ?Hg.
    + intros m a Ha Hm. exists a. split; [|done]. unfold set_dynamic_status.
      rewrite lookup_alter_ne; [done|]. destruct Hm; congruence.
    + intros m b Hb Hu. unfold set_dynamic_status in Hb.
      apply lookup_alter_Some in Hb as [(_ & a & Ha & ->)|(Hm & Hb)].
      * cbn in Hu. destruct Hst; congruence.
      * exists b. by split_and!; [| |left].
    + intros _ Hw Hin. apply Hw. unfold work in *. rewrite Hq, Hstk, Hrun in Hin. set_solver.
  - destruct Hc as (Hg & Hstk & Hp); [by eexists|].
    eapply stuck_frame; [exact HI|exact HS| | | |by apply Hpend; right]; rewrite ?Hg.
    + intros m a Ha Hm. assert (Hmn : m ≠ name (def copy)) by (destruct Hm; congruence).
      destruct (removed_lookup_some _ (node_dependencies copy) _ m a Ha Hmn) as (b & Hb & _ & _ & Hsb & _).
      by exists b.
    + intros m b Hb Hu. apply removed_lookup in Hb as (_ & a & Ha & Hda & _ & Hsa & _). exists a.
      split_and!; [done|unfold node_dependencies; by rewrite Hda|left; congruence].
    + intros Hun Hw Hin. unfold work in Hin. rewrite Hq, Hstk, Hrun in Hin.
      destruct (sk_member _ _ _ HS) as [->|(_ & _ & Hno)].
      * destruct (sk_failed _ _ _ HS) as (a & Ha & Hf), Hun as (b & Hb & Hub).
        assert (a = b) as -> by congruence. destruct Hf; congruence.
      * apply Hw. unfold work. rewrite !elem_of_app in *.
        destruct Hin as [|[[Hin|]|]]; [by left| |by right; left|by apply elem_of_nil in H].
        apply list_elem_of_filter in Hin as [_ Hin]. exfalso. eapply Hno; [exact Hn|done|].
        unfold node_dependencies in *. by rewrite Hdef.
Qed.

Lemma stuck_event e s s' root n :
  LInv s → Stuck s root n → run_event e s = Some s' → Stuck s' root n.
Proof.
  intros HI HS Hrun.
  assert (Hi : m_is_initialized s = true).
  { destruct (m_is_initialized s) eqn:Hi; [done|]. destruct (li_fresh _ HI Hi) as (Hg & _).
    destruct (sk_failed _ _ _ HS) as (a & Ha & _). by rewrite Hg, lookup_empty in Ha. }
  destruct e as [d| |d|k|k| | | |]; cbn [run_event] in Hrun.
  - unfold registerStaticModule in Hrun. by rewrite Hi in Hrun.
  - unfold initialize in Hrun. rewrite Hi in Hrun. by injection Hrun as <-.
  - apply (inj Some) in Hrun as <-. by apply stuck_register.
  - apply bind_Some in Hrun as ([[r|] s1] & Hl & Hrun); [|done]. simplify_eq. by eapply stuck_load.
  - apply bind_Some in Hrun as ([[r|] s1] & Hl & Hrun); [|done]. simplify_eq. by eapply stuck_unload.
  - unfold thread_pop in Hrun. destruct (thread_running s) eqn:Hr; [done|].
    destruct (thread_stack s) eqn:Hst; [|done]. destruct (m_shutdown_queue s) as [|y q] eqn:Hq; [done|].
    apply (inj Some) in Hrun as <-. eapply stuck_frame; [exact HI|exact HS| | | |apply HS]; cbn.
    + intros m a Ha _. by exists a.
    + intros m b Hb Hu. exists b. by split_and!; [| |left].
    + intros _ Hw Hin. apply Hw. unfold work in *. cbn in Hin. rewrite Hq, Hst, Hr in *. set_solver.
  - assert (∃ stack, thread_stack s = stack ∧ thread_running s = None) as (stack & Hst & Hr).
    { unfold thread_begin in Hrun. destruct (thread_running s); [done|]. eauto. }
    assert (m_module_graph s' = m_module_graph s ∧
            m_pending_unload_closures s' = m_pending_unload_closures s ∧
            (∀ m, m ∈ work s' → m ∈ work s)) as (Hg & Hp & Hw).
    { unfold thread_begin in Hrun. rewrite Hr in Hrun. rewrite Hst in Hrun. destruct stack as [|y stack]; [done|].
      cbn in Hrun. destruct (m_module_graph s !! y) as [node|] eqn:Hy.
      - pose proof (gi_name _ (li_graph _ HI) y node Hy) as Hny.
        case_bool_decide; apply (inj Some) in Hrun as <-; (split_and!; [done|done|]); unfold work; cbn;
          rewrite Hst, Hr; intros m; rewrite ?Hny; set_solver.
      - apply (inj Some) in Hrun as <-. split_and!; [done|done|]. unfold work. cbn. rewrite Hst, Hr. set_solver. }
    eapply stuck_frame; [exact HI|exact HS| | | |rewrite Hp; apply HS]; rewrite ?Hg.
    + intros m a Ha _. by exists a.
    + intros m b Hb Hu. exists b. by split_and!; [| |left].
    + intros _ Hn Hin. by apply Hn, Hw.
  - by eapply stuck_thread_end.
  - apply (inj Some) in Hrun as <-. unfold finalize_begin. destruct (_ || _); [done|].
    eapply stuck_frame; [exact HI|exact HS| | |done|apply HS]; cbn.
    + intros m a Ha _. by exists a.
    + intros m b Hb Hu. exists b. by split_and!; [| |left].
Qed.

Lemma stuck_forever l : ∀ s s' root n,
  LInv s → Stuck s root n → Forall std_exceptions_only l → run_events l s = Some s' → Stuck s' root n.
Proof.
  induction l as [|e l IH]; intros s s' root n HI HS Hl Hrun; [by injection Hrun as <-|].
  apply Forall_cons in Hl as [He Hl]. apply bind_Some in Hrun as (s1 & He1 & Hrun).
  eapply (IH s1); [by eapply linv_event|by eapply stuck_event|done|done].
Qed.

(** "app" uses "db"; the shutdown of "app" throws. *)
Definition failing (n : string) (deps : list string) : InternalModuleDef :=
  mkDef n deps (Some Returns) (Some (mkCallback ThrowsStd (Some 1))) 100 false false false 0 None.

(** The validator of "app" rejects its user data at the unload. *)
Definition invalidated (n : string) (deps : list string) : InternalModuleDef :=
  mkDef n deps (Some Returns) (Some (mkCallback Returns (Some 1))) 100 false false false 1
    (Some (λ p, match p with AtLoad => true | AtUnload => false end)).

Definition failed_unload (app : string → list string → InternalModuleDef) : list event :=
  [Initialize; RegisterDynamic (module "db" []); RegisterDynamic (app "app" ["db"]);
   Load "app"; Unload "app"; ThreadPop; ThreadBegin; ThreadEnd].

(** Tests of the clauses of [Stuck]. *)
Definition stuck_b s root n : bool :=
  match m_module_graph s !! root, m_pending_unload_closures s !! root with
  | Some a, Some C =>
      (bool_decide (dynamic_status a = FAILED_SHUTDOWN) || bool_decide (dynamic_status a = SHUTDOWN_TIMEOUT)) &&
      bool_decide (n ∈ C) &&
      (bool_decide (n = root) ||
       (match m_module_graph s !! n with Some b => bool_decide (dynamic_status b = UNLOADING) | None => false end &&
        bool_decide (n ∉ work s) &&
        bool_decide (map_Forall (λ _ a, dynamic_status a = UNLOADING → n ∉ node_dependencies a) (m_module_graph s))))
  | _, _ => false
  end.

Lemma stuck_b_sound s root n : stuck_b s root n = true → Stuck s root n.
Proof.
  unfold stuck_b. destruct (m_module_graph s !! root) as [a|] eqn:Ha; [|done].
  destruct (m_pending_unload_closures s !! root) as [C|] eqn:HC; [|done]. intros H.
  apply andb_true_iff in H as [H H3]. apply andb_true_iff in H as [H1 H2]. constructor.
  - exists a. split; [done|]. apply orb_true_iff in H1 as [H1|H1]; bool_facts; [by left|by right].
  - exists C. split; [done|]. by bool_facts.
  - apply orb_true_iff in H3 as [H3|H3]; [left; by bool_facts|right].
    apply andb_true_iff in H3 as [H3 H5]. apply andb_true_iff in H3 as [H3 H4].
    destruct (m_module_graph s !! n) as [b|] eqn:Hb; [|done]. bool_facts. split_and!.
    + by exists b.
    + done.
    + intros m c Hc. by apply (H5 m c).
Qed.

(** An unload that fails is never reported: after the shutdown of a module
    has thrown, its dependencies that were to go with it stay unloading for
    ever, and an unbounded [wait_for_unload] on the module blocks for ever,
    with the thread at rest and whatever is called afterwards; the same when
    the module's validator rejects the unload. *)
Theorem failed_unload_never_completes app :
  app = failing ∨ app = invalidated →
  let s := after (failed_unload app) in
  reachable std_exceptions_only s ∧ thread_done s = true ∧
  getDynamicModuleState "app" s = DynModuleState.ShutdownFailed ∧
  getDynamicModuleState "db" s = DynModuleState.Unloading ∧
  ∀ l s', Forall std_exceptions_only l → run_events l s = Some s' → waitForUnload "app" s' = None.
Proof.
  intros Happ s.
  assert (Hr : reachable std_exceptions_only s).
  { subst s. apply after_reachable; destruct Happ as [->| ->];
      [apply (bool_decide_unpack _); by vm_compute..|by vm_compute|by vm_compute]. }
  split_and!; [done|by destruct Happ as [->| ->]; vm_compute..|].
  assert (∃ n, Stuck s "app" n) as [n HS].
  { subst s. destruct Happ as [->| ->]; [exists "db"|exists "app"]; apply stuck_b_sound; by vm_compute. }
  intros l s' Hl Hrun. pose proof (stuck_forever l s s' "app" n (linv_reachable s Hr) HS Hl Hrun) as HS'.
  unfold waitForUnload. cbn [str_empty]. rewrite bool_decide_eq_true_2; [done|].
  destruct (sk_pending _ _ _ HS') as (C & HC & _). by exists C.
Qed.

Lemma failed_unload_never_completes_witness :
  getDynamicModuleState "db" (after (failed_unload failing)) = DynModuleState.Unloading.
Proof. apply (failed_unload_never_completes failing). by left. Defined.

(** ** Shutdowns in the wrong order *)

(** "app" lists "db" before "cache", and "cache" uses "db". *)
Definition diamond_unload : list event :=
  [Initialize; RegisterDynamic (module "db" []); RegisterDynamic (module "cache" ["db"]);
   RegisterDynamic (module "app" ["db"; "cache"]); Load "app"; Unload "app";
   ThreadPop; ThreadBegin; ThreadEnd; ThreadBegin].

(** "first" and "second" use "db" and are unloaded one after the other. *)
Definition overlapping_unloads : list event :=
  [Initialize; RegisterDynamic (module "db" []); RegisterDynamic (module "first" ["db"]);
   RegisterDynamic (module "second" ["db"]); Load "first"; Load "second"; Unload "first";
   Unload "second"; ThreadPop; ThreadBegin; ThreadEnd; ThreadBegin].

(** [n] was started, is still there, and has not been shut down. *)
Definition still_running s n : Prop :=
  CallStartup n ∈ calls s ∧ CallShutdown n ∉ calls s ∧ is_Some (m_module_graph s !! n).

Definition running_with_dependency s n x : bool :=
  bool_decide (CallStartup n ∈ calls s) && bool_decide (CallShutdown n ∉ calls s) &&
  match m_module_graph s !! n with Some a => bool_decide (x ∈ node_dependencies a) | None => false end.

(** The shutdown thread can shut down a module that a running module still
    uses: reference counts leave out modules that wait for their own shutdown,
    so a dependency shared within one closure, or by the closures of two
    unloads, goes as soon as the first of its users is gone.  No callback
    fails in these runs. *)
Theorem shutdown_overtakes_dependents :
  ∀ run user, (run = diamond_unload ∧ user = "cache") ∨ (run = overlapping_unloads ∧ user = "second") →
  let s := after run in
  reachable clean s ∧
  (∃ copy, thread_running s = Some copy ∧ name (def copy) = "db" ∧ CallShutdown "db" ∈ calls s) ∧
  still_running s user ∧
  ∃ node, m_module_graph s !! user = Some node ∧ "db" ∈ node_dependencies node.
Proof.
  intros run user Hrun s.
  assert (Hr : reachable clean s).
  { subst s. destruct Hrun as [[-> _]|[-> _]];
      (apply after_reachable; [|by vm_compute]); repeat (constructor; [by split|]); constructor. }
  assert (Hb : running_with_dependency s user "db" = true).
  { subst s. destruct Hrun as [[-> ->]|[-> ->]]; by vm_compute. }
  assert (Hc : (name ∘ def) <$> thread_running s = Some "db" ∧ bool_decide (CallShutdown "db" ∈ calls s) = true).
  { subst s. destruct Hrun as [[-> ->]|[-> ->]]; split; by vm_compute. }
  clearbody s. unfold running_with_dependency in Hb. destruct Hc as [Hc1 Hc2].
  apply andb_true_iff in Hb as [Hb Hb3]. apply andb_true_iff in Hb as [Hb1 Hb2]. bool_facts.
  destruct (m_module_graph s !! user) as [node|] eqn:Hn; [|done]. bool_facts.
  apply fmap_Some in Hc1 as (copy & Hcp & Hnm). split_and!.
  - done.
  - exists copy. by split_and!.
  - split_and!; [done|done|by eexists].
  - by exists node.
Qed.

Lemma shutdown_overtakes_dependents_witness : still_running (after diamond_unload) "cache".
Proof. apply (shutdown_overtakes_dependents diamond_unload "cache"). by left. Defined.

(** "user" was registered with the first "driver"; the second one does not
    know it. *)
Definition reregistration : list event :=
  [Initialize; RegisterDynamic (module "driver" []); RegisterDynamic (module "app" ["driver"]);
   Load "driver"; Unload "driver"; ThreadPop; ThreadBegin; ThreadEnd;
   RegisterDynamic (module "driver" []); Load "app"; FinalizeBegin].

(** A dependency that was unloaded and registered again has lost its list of
    dependents: finalisation, which sorts by these lists, then shuts it down
    before the loaded module that uses it. *)
Theorem reregistration_reverses_shutdown :
  let s := after reregistration in
  reachable clean s ∧ thread_done s = true ∧
  (loaded <$> m_module_graph s !! "app" = Some true) ∧
  (node_dependencies <$> m_module_graph s !! "app" = Some ["driver"]) ∧
  ∃ s', finalize_end s = Some (inr s') ∧
        calls s' = calls s ++ [CallShutdown "driver"; CallShutdown "app"].
Proof.
  intros s. split_and!; try by vm_compute.
  - subst s. apply after_reachable; [repeat (constructor; [by split|]); constructor|by vm_compute].
  - assert (H : ((λ r, match r with inr s' => calls s' | inl _ => [] end) <$> finalize_end s)
                = Some (calls s ++ [CallShutdown "driver"; CallShutdown "app"])) by (by vm_compute).
    destruct (finalize_end s) as [[|s']|]; [by vm_compute in H| |done]. exists s'. split; [done|].
    by apply (inj Some) in H.
Qed.

(** "app" uses "net", which uses "sock"; the startup of "app" throws something
    that is not a [std::exception]. *)
Definition foreign_exception : list event :=
  [Initialize; RegisterDynamic (module "sock" []); RegisterDynamic (module "net" ["sock"]);
   RegisterDynamic (mkDef "app" ["net"] (Some ThrowsOther) None 100 false false false 0 None);
   Load "app"; Unload "sock"; ThreadPop; ThreadBegin].

(** The invariant of loaded modules needs its hypothesis: an exception that
    is not a [std::exception] skips the recount, so a module that a loaded one
    depends on is unloaded, and the module that failed to start is left
    loading for ever. *)
Theorem foreign_exception_breaks_dependencies :
  let s := after foreign_exception in
  reachable (λ _, True) s ∧
  loaded_dependent (m_module_graph s) "net" "sock" ∧
  (∃ copy, thread_running s = Some copy ∧ name (def copy) = "sock") ∧
  getDynamicModuleState "app" s = DynModuleState.Loading.
Proof.
  intros s.
  assert (Hl : (λ node, loaded node && bool_decide ("sock" ∈ node_dependencies node)) <$>
               m_module_graph s !! "net" = Some true) by (by vm_compute).
  assert (Hc : (name ∘ def) <$> thread_running s = Some "sock") by (by vm_compute).
  assert (Ha : getDynamicModuleState "app" s = DynModuleState.Loading) by (by vm_compute).
  assert (Hr : reachable (λ _, True) s).
  { subst s. apply after_reachable; [by apply Forall_true|by vm_compute]. }
  clearbody s. split_and!; [done| | |done].
  - apply fmap_Some in Hl as (node & Hn & Hl). symmetry in Hl. bool_facts. by exists node.
  - apply fmap_Some in Hc as (copy & Hcp & Hnm). by exists copy.
Qed.


End LifecycleRuns.
