(* ===== verification/Wire.v ===== *)
(** * The wire envelope

    Models [src/utils/network_comm/wire_envelope.cpp] and the encoder of
    [wire_adapter.cpp].  A message is a list of frames, a frame a byte string.
    BLAKE2b (libsodium) and the printer and parser of JSON (nlohmann) are
    parameters; a building function that throws is [None].

    Module [WireProps] follows: what the wire envelope guarantees. *)

From S2P Require Import Prelude.
From S2P Require Import Json.
Import Json.

Module Wire.

Definition kEnvelopeHashKey : string := "envelope_hash".
Definition kMaxMsgTypeLen : nat := 64.
Definition kMaxCorrelationIdLen : nat := 64.
Definition kFrameTypeControl : string := "C".

Inductive ParseError :=
  | frame_count | frame_type_marker | msg_type_empty | msg_type_too_long | correlation_too_long
  | correlation_missing | body_not_json | body_not_object | envelope_hash_missing
  | envelope_hash_mismatch.

Record WireEnvelope := mkEnvelope {
  identity : string;
  msg_type : string;
  correlation_id : string;
  body : json;
}.

(** [s] ends with [suffix]. *)
Definition ends_with (suffix s : string) : bool :=
  bool_decide (String.length suffix < String.length s)%nat &&
  (String.substring (String.length s - String.length suffix) (String.length suffix) s =s suffix).

Definition is_notify_msg_type (m : string) : bool := ends_with "_NOTIFY" m.

Section wire.
Context (blake2b : string → string) (dump : json → string) (parse : string → option json).

Definition compute_envelope_hash (id m c : string) : string :=
  Hex.bytes_to_hex (blake2b (id +:+ m +:+ c)).

(** ** Building *)

Definition stamp (id m c : string) (b : json) : json :=
  put kEnvelopeHashKey (JStr (compute_envelope_hash id m c)) b.

Definition stamp_and_append_body_frames (id m c : string) (b : json) : list string :=
  [kFrameTypeControl; m; c; dump (stamp id m c b)].

Definition build_dealer_send (id m c : string) (b : json) : option (list string) :=
  if str_empty id then None
  else if str_empty m || bool_decide (kMaxMsgTypeLen < String.length m)%nat then None
  else if bool_decide (kMaxCorrelationIdLen < String.length c)%nat then None
  else if str_empty c && negb (is_notify_msg_type m) then None
  else if negb (is_object b) then None
  else Some (stamp_and_append_body_frames id m c b).

Definition build_router_send (target_identity m c : string) (b : json) : option (list string) :=
  if str_empty target_identity then None
  else cons target_identity <$> build_dealer_send target_identity m c b.

(** ** Parsing *)

Definition parse_common (id m c body_str : string) : ParseError + WireEnvelope :=
  if str_empty m then inl msg_type_empty
  else if bool_decide (kMaxMsgTypeLen < String.length m)%nat then inl msg_type_too_long
  else if bool_decide (kMaxCorrelationIdLen < String.length c)%nat then inl correlation_too_long
  else if str_empty c && negb (is_notify_msg_type m) then inl correlation_missing
  else match parse body_str with
       | None => inl body_not_json
       | Some b =>
           if negb (is_object b) then inl body_not_object
           else match json_get kEnvelopeHashKey b with
                | Some (JStr received_hash) =>
                    if received_hash =s compute_envelope_hash id m c
                    then inr (mkEnvelope id m c b) else inl envelope_hash_mismatch
                | _ => inl envelope_hash_missing
                end
       end.

Definition parse_router_recv (msg : list string) : ParseError + WireEnvelope :=
  match msg with
  | [id; marker; m; c; b] =>
      if marker =s kFrameTypeControl then parse_common id m c b else inl frame_type_marker
  | _ => inl frame_count
  end.

Definition parse_dealer_recv (msg : list string) (dealer_own_routing_id : string) :
    ParseError + WireEnvelope :=
  match msg with
  | [marker; m; c; b] =>
      if marker =s kFrameTypeControl then parse_common dealer_own_routing_id m c b
      else inl frame_type_marker
  | _ => inl frame_count
  end.

(** ** The encoder of a role *)

Record EncodeContext := mkEncodeContext {
  dealer_role_uid : string;
  ctx_correlation_id : string;
  ctx_client_nonce : string;
  ctx_client_wall_ts : Z;
}.

Definition kRegFamilyMsgTypes : list string :=
  ["REG_REQ"; "CONSUMER_REG_REQ"; "ENDPOINT_UPDATE_REQ"; "CHANNEL_AUTH_APPLIED_REQ"; "DEREG_REQ";
   "CONSUMER_DEREG_REQ"].

Definition msg_type_carries_security_triple (m : string) : bool :=
  existsb (λ s, s =s m) kRegFamilyMsgTypes.

Definition fill (k : string) (v : json) (b : json) : json :=
  match json_get k b with Some _ => b | None => put k v b end.

Definition encode_dealer_send (m : string) (ctx : EncodeContext) (payload : json) :
    option (list string) :=
  if str_empty m then None
  else if str_empty (dealer_role_uid ctx) then None
  else if str_empty (ctx_correlation_id ctx) && negb (is_notify_msg_type m) then None
  else
    let send b := build_dealer_send (dealer_role_uid ctx) m (ctx_correlation_id ctx) b in
    if msg_type_carries_security_triple m then
      if str_empty (ctx_client_nonce ctx) then None
      else if ctx_client_wall_ts ctx =? 0 then None
      else send (fill "client_wall_ts" (JInt (ctx_client_wall_ts ctx))
                   (fill "client_nonce" (JStr (ctx_client_nonce ctx)) payload))
    else send payload.

(** ** What a message is built from, and what it is parsed into *)

Definition well_formed (m c : string) : Prop :=
  m ≠ "" ∧ (String.length m ≤ kMaxMsgTypeLen)%nat ∧ (String.length c ≤ kMaxCorrelationIdLen)%nat ∧
  (c = "" → is_notify_msg_type m = true).

End wire.

Section spec.
Context (blake2b : string → string).

Lemma build_dealer_send_Some (dump : json → string) id m c b fs :
  build_dealer_send blake2b dump id m c b = Some fs ↔
  id ≠ "" ∧ well_formed m c ∧ is_object b = true ∧
  fs = stamp_and_append_body_frames blake2b dump id m c b.
Proof.
  unfold build_dealer_send, well_formed. rewrite <-!str_empty_false.
  destruct (str_empty id); [naive_solver|]. destruct (str_empty m); [naive_solver|]. cbn [orb].
  destruct (bool_decide (kMaxMsgTypeLen < String.length m)%nat) eqn:H1; bool_facts; [naive_solver lia|].
  destruct (bool_decide (kMaxCorrelationIdLen < String.length c)%nat) eqn:H2; bool_facts; [naive_solver lia|].
  destruct (str_empty c) eqn:Hc, (is_notify_msg_type m) eqn:Hn; cbn [negb andb];
    destruct (is_object b); cbn [negb]; rewrite ?str_empty_true, ?str_empty_false in Hc;
    naive_solver lia.
Qed.

Lemma parse_common_spec (parse : string → option json) id m c s env :
  parse_common blake2b parse id m c s = inr env ↔
  well_formed m c ∧ ∃ ms, parse s = Some (JObj ms) ∧
    members_get kEnvelopeHashKey ms = Some (JStr (compute_envelope_hash blake2b id m c)) ∧
    env = mkEnvelope id m c (JObj ms).
Proof.
  unfold parse_common, well_formed. rewrite <-!str_empty_false.
  destruct (str_empty m); [naive_solver|].
  destruct (bool_decide (kMaxMsgTypeLen < String.length m)%nat) eqn:H1; bool_facts; [naive_solver lia|].
  destruct (bool_decide (kMaxCorrelationIdLen < String.length c)%nat) eqn:H2; bool_facts; [naive_solver lia|].
  destruct (str_empty c && negb (is_notify_msg_type m)) eqn:Hc.
  { apply andb_true_iff in Hc as [Hc Hn]. apply str_empty_true in Hc.
    destruct (is_notify_msg_type m); naive_solver. }
  assert (Hw : c = "" → is_notify_msg_type m = true).
  { intros ->. by destruct (is_notify_msg_type m). }
  destruct (parse s) as [b|]; [|naive_solver]. destruct b; cbn; try naive_solver.
  destruct (members_get kEnvelopeHashKey members) as [[]|] eqn:Hg; try naive_solver.
  destruct (s0 =s compute_envelope_hash blake2b id m c) eqn:Hh; bool_facts; [subst|].
  - split; [|naive_solver]. intros [= <-]. split_and!; try done; [lia..|]. by eexists.
  - naive_solver.
Qed.

Lemma stamp_object id m c b : is_object b = true →
  ∃ ms, stamp blake2b id m c b = JObj ms ∧
    members_get kEnvelopeHashKey ms = Some (JStr (compute_envelope_hash blake2b id m c)).
Proof.
  destruct b; try done. intros _. eexists. split; [reflexivity|].
  rewrite members_get_set. by rewrite str_eqb_refl.
Qed.

End spec.

End Wire.

Import Json Wire.

(** * What the wire envelope guarantees

    A message that one side builds is the message the other side reads, and
    what the envelope hash does and does not separate. *)
Module WireProps.

Section props.
Context (blake2b : string → string) (dump : json → string) (parse : string → option json).
Local Abbreviation stamp := (stamp blake2b).
Local Abbreviation build_dealer_send := (build_dealer_send blake2b dump).
Local Abbreviation build_router_send := (build_router_send blake2b dump).
Local Abbreviation parse_router_recv := (parse_router_recv blake2b parse).
Local Abbreviation parse_dealer_recv := (parse_dealer_recv blake2b parse).

(** C40 A message reaches the other side as it was built.  ZeroMQ puts the
    sender's routing id in front of what a role sends, and takes the target's
    off what the hub sends; the parser on the other side then returns identity,
    message type, correlation id and the body with its hash, every other field
    of the body unchanged.  The printer is assumed to be inverted by the parser
    on this body. *)
Theorem envelope_roundtrip id m c b fs :
  parse (dump (stamp id m c b)) = Some (stamp id m c b) →
  build_dealer_send id m c b = Some fs →
  parse_router_recv (id :: fs) = inr (mkEnvelope id m c (stamp id m c b)) ∧
  build_router_send id m c b = Some (id :: fs) ∧
  parse_dealer_recv fs id = inr (mkEnvelope id m c (stamp id m c b)) ∧
  ∀ k, k ≠ kEnvelopeHashKey → json_get k (stamp id m c b) = json_get k b.
Proof.
  intros Hp Hb. pose proof (proj1 (build_dealer_send_Some _ _ _ _ _ _ _) Hb) as (Hid & Hw & Ho & ->).
  destruct (stamp_object blake2b id m c b Ho) as (ms & Hs & Hg).
  assert (Hc : parse_common blake2b parse id m c (dump (stamp id m c b)) =
               inr (mkEnvelope id m c (stamp id m c b))).
  { apply parse_common_spec. split; [done|]. exists ms. by rewrite Hp, Hs. }
  split_and!.
  - exact Hc.
  - unfold Wire.build_router_send. rewrite (proj2 (str_empty_false id) Hid), Hb. done.
  - exact Hc.
  - intros k Hk. destruct b as [| | | | | |bms]; try done. unfold stamp. rewrite json_get_put.
    unfold str_eqb. by rewrite bool_decide_eq_false_2.
Qed.

(** The hash binds the concatenation of identity, message type and
    correlation id, not the three of them: a body accepted under one triple is
    accepted under every other triple that concatenates to the same bytes. *)
Theorem envelope_hash_splice id m c id' m' c' s env :
  parse_router_recv [id; kFrameTypeControl; m; c; s] = inr env →
  id +:+ m +:+ c = id' +:+ m' +:+ c' → well_formed m' c' →
  parse_router_recv [id'; kFrameTypeControl; m'; c'; s] = inr (mkEnvelope id' m' c' (body env)).
Proof.
  intros Hp E Hw. cbn in *. apply parse_common_spec in Hp as (_ & ms & Hs & Hg & ->).
  apply parse_common_spec. split; [done|]. exists ms. split_and!; [done| |done].
  unfold compute_envelope_hash in *. by rewrite <-E.
Qed.
End props.

(** A heartbeat of "prod.a", and a request to leave that is also a request to
    register. *)
Lemma envelope_roundtrip_witness :
  let b := obj [("channel_name", JStr "lab")] in
  let full := Wire.stamp (λ s, s) "prod.a" "HEARTBEAT_NOTIFY" "" b in
  Wire.parse_router_recv (λ s, s) (λ _, Some full)
    ("prod.a" :: Wire.stamp_and_append_body_frames (λ s, s) (λ _, "{..}") "prod.a" "HEARTBEAT_NOTIFY" "" b)
  = inr (mkEnvelope "prod.a" "HEARTBEAT_NOTIFY" "" full).
Proof.
  intros b full.
  apply (envelope_roundtrip (λ s, s) (λ _, "{..}") (λ _, Some full) "prod.a" "HEARTBEAT_NOTIFY" "" b);
    by vm_compute.
Defined.

Lemma envelope_hash_splice_witness :
  let full := Wire.stamp (λ s, s) "prod.x" "DEREG_REQ" "c1" (obj []) in
  Wire.parse_router_recv (λ s, s) (λ _, Some full) ["prod.xDE"; "C"; "REG_REQ"; "c1"; "{..}"]
  = inr (mkEnvelope "prod.xDE" "REG_REQ" "c1" full).
Proof.
  intros full.
  refine (envelope_hash_splice (λ s, s) (λ _, Some full) "prod.x" "DEREG_REQ" "c1" "prod.xDE" "REG_REQ" "c1"
    "{..}" (mkEnvelope "prod.x" "DEREG_REQ" "c1" full) _ _ _); [by vm_compute..|].
  split_and!; [done|by vm_compute; lia..|done].
Defined.

End WireProps.
