(* ===== verification/AdmissionGates.v ===== *)
(** * The admission gates

    Models [src/utils/ipc/admission_gates.cpp]: the checks that every request
    passes before a handler sees it.  A gate that lets the request through is
    [None].  The gates reach the broker through callbacks, each of which may
    be unbound; [bind_admission_context] is how [broker_service.cpp] binds
    them.

    Module [GateProps] follows: what passing the gates means. *)

From stdpp Require Import pretty.
From Stdlib Require Import Ascii.
From S2P Require Import Prelude.
From S2P Require Import Json.
From S2P Require Import Naming.
From S2P Require Import ReplayGuard.
From S2P Require Import Entries.
From S2P Require Import HubCore.
From S2P Require Import HubOps.
From S2P Require Import Wire.
Import HubCore HubOps.

Module AdmissionGates.

(** ** Identifiers at the wire *)

Definition is_id_char (c : Ascii.ascii) : bool :=
  let z := Z.of_N (Ascii.N_of_ascii c) in
  let between lo hi :=
    (Z.of_N (Ascii.N_of_ascii lo) <=? z) && (z <=? Z.of_N (Ascii.N_of_ascii hi)) in
  between "a"%char "z"%char || between "A"%char "Z"%char || between "0"%char "9"%char ||
  bool_decide (c = "."%char) || bool_decide (c = "_"%char) || bool_decide (c = "-"%char).

Fixpoint all_chars (P : Ascii.ascii → bool) (s : string) : bool :=
  match s with EmptyString => true | String c s => P c && all_chars P s end.

Definition grammar_ok (s : string) : bool :=
  negb (str_empty s || bool_decide (128 < String.length s)%nat) && all_chars is_id_char s.

(** ** Rejections *)

Inductive RejectCode :=
  | envelope_tampered | body_schema_violation | identity_mismatch | invalid_request | unknown_role
  | pubkey_mismatch | uid_conflict | replay_or_skew | invalid_role_tag | broker_internal_error.

#[export] Instance RejectCode_eq_dec : EqDecision RejectCode.
Proof. solve_decision. Defined.

Definition to_wire_string (code : RejectCode) : string :=
  match code with
  | envelope_tampered => "ENVELOPE_TAMPERED"
  | body_schema_violation => "BODY_SCHEMA_VIOLATION"
  | identity_mismatch => "IDENTITY_MISMATCH"
  | invalid_request => "INVALID_REQUEST"
  | unknown_role => "UNKNOWN_ROLE"
  | pubkey_mismatch => "PUBKEY_MISMATCH"
  | uid_conflict => "UID_CONFLICT"
  | replay_or_skew => "REPLAY_OR_SKEW"
  | invalid_role_tag => "INVALID_ROLE_TAG"
  | broker_internal_error => "BROKER_INTERNAL_ERROR"
  end.

Record RejectDetail := mkReject { code : RejectCode; field : string; message : string }.

Inductive KnownRoleLookup := binding_matches | uid_unknown | key_differs.

(** ** Context *)

Record AdmissionCallbacks := mkCallbacks {
  lookup_known_role : option (string → string → KnownRoleLookup);
  record_and_check_nonce : option (string → string → M bool);
  wall_now_ms : option (M Z);
}.

Record AdmissionContext := mkContext {
  cb : option AdmissionCallbacks;
  skew_tolerance_ms : Z;
  nonce_window_ms : Z;
}.

(** ** Gates *)

Record RegFamilyBodyView := mkRegView {
  rv_role_uid : string; rv_channel_name : string; rv_zmq_pubkey : string;
  rv_client_nonce : string; rv_client_wall_ts : Z;
}.
Record AuthenticatedRegFamilyView := mkAuthView {
  av_role_uid : string; av_channel_name : string; av_client_nonce : string; av_client_wall_ts : Z;
}.
Record ControlBodyView := mkControlView {
  cv_role_uid : string; cv_channel_name : string; cv_role_type : string;
}.

Abbreviation Gate := (option RejectDetail).

(** The next gate runs when this one has let the request through. *)
Definition and_then (a : Gate) (b : Gate) : Gate := match a with Some d => Some d | None => b end.

Definition role_uid_grammar_reject : RejectDetail :=
  mkReject invalid_request "role_uid" "role_uid fails identifier grammar (HEP-CORE-0033 §G2.2.0b)".
Definition channel_grammar_reject : RejectDetail :=
  mkReject invalid_request "channel_name"
    "channel_name fails identifier grammar (HEP-CORE-0033 §G2.2.0b)".
Definition identity_reject : RejectDetail :=
  mkReject identity_mismatch "role_uid"
    "ROUTER identity does not equal payload role_uid (I-DEALER-IDENTITY)".

Definition gate_identity_match (env : Wire.WireEnvelope) (body : RegFamilyBodyView) : Gate :=
  if Wire.identity env =s rv_role_uid body then None else Some identity_reject.

Definition gate_grammar (body : RegFamilyBodyView) : Gate :=
  if negb (grammar_ok (rv_role_uid body)) then Some role_uid_grammar_reject
  else if negb (grammar_ok (rv_channel_name body)) then Some channel_grammar_reject
  else if bool_decide (String.length (rv_zmq_pubkey body) ≠ 40%nat) then
    Some (mkReject invalid_request "zmq_pubkey"
      ("zmq_pubkey length is " +:+ pretty (String.length (rv_zmq_pubkey body)) +:+
       ", expected 40 (Z85-encoded CURVE25519)"))
  else None.

Definition gate_known_role_binding (body : RegFamilyBodyView) (ctx : AdmissionContext) : Gate :=
  match cb ctx ≫= lookup_known_role with
  | None => Some (mkReject broker_internal_error "" "internal: known_roles callback not bound")
  | Some lookup =>
      match lookup (rv_role_uid body) (rv_zmq_pubkey body) with
      | binding_matches => None
      | uid_unknown =>
          Some (mkReject unknown_role "role_uid" "role_uid not present in known_roles")
      | key_differs =>
          Some (mkReject pubkey_mismatch "zmq_pubkey"
            "zmq_pubkey does not match known_roles entry for this role_uid")
      end
  end.

Definition check_replay_bound (role_uid client_nonce : string) (client_wall_ts : Z)
    (ctx : AdmissionContext) : M Gate :=
  match cb ctx ≫= record_and_check_nonce, cb ctx ≫= wall_now_ms with
  | Some record, Some wall =>
      broker_now ← wall;
      let delta_ms :=
        if client_wall_ts <? broker_now then u64 (broker_now - client_wall_ts)
        else u64 (client_wall_ts - broker_now) in
      if skew_tolerance_ms ctx <? delta_ms then
        mret (Some (mkReject replay_or_skew "client_wall_ts"
          ("wall-clock skew " +:+ pretty delta_ms +:+ " ms exceeds tolerance " +:+
           pretty (skew_tolerance_ms ctx) +:+ " ms")))
      else
        fresh ← record role_uid client_nonce;
        mret (if (fresh : bool) then None
              else Some (mkReject replay_or_skew "client_nonce"
                     "client_nonce reused within replay window (I-REPLAY-BOUND)"))
  | _, _ => mret (Some (mkReject invalid_request "" "internal: replay-check callback not bound"))
  end.

Definition gate_replay_bound (body : RegFamilyBodyView) (ctx : AdmissionContext) : M Gate :=
  check_replay_bound (rv_role_uid body) (rv_client_nonce body) (rv_client_wall_ts body) ctx.

(** ** Which tags may send which message *)

Definition kRoleTagTable : list (string * list string) :=
  [("REG_REQ", ["prod"; "proc"]); ("DEREG_REQ", ["prod"; "proc"]);
   ("CONSUMER_REG_REQ", ["cons"; "proc"]); ("CONSUMER_DEREG_REQ", ["cons"; "proc"])].

Definition tag_in (tag : string) (allowed : list string) : bool :=
  existsb (λ a, negb (str_empty a) && (a =s tag)) allowed.

Fixpoint format_allowed (allowed : list string) : string :=
  match allowed with
  | [] => ""
  | [a] => a
  | a :: rest => a +:+ ", " +:+ format_allowed rest
  end.

Definition gate_role_tag_policy (msg_type role_uid role_type_field : string) : Gate :=
  match Naming.extract_short_tag role_uid with
  | None => Some (mkReject broker_internal_error "role_uid"
              "internal: role_uid passed grammar but tag extraction failed")
  | Some tag =>
      if msg_type =s "HEARTBEAT_NOTIFY" then
        let required (required_tag : string) :=
          if tag =s required_tag then None
          else Some (mkReject invalid_role_tag "role_uid"
                 ("role_uid tag '" +:+ tag +:+ "' does not match declared role_type '" +:+
                  role_type_field +:+ "' (expected '" +:+ required_tag +:+ "')")) in
        if role_type_field =s "producer" then required "prod"
        else if role_type_field =s "consumer" then required "cons"
        else if role_type_field =s "processor" then required "proc"
        else Some (mkReject invalid_request "role_type"
               "HEARTBEAT_NOTIFY role_type must be one of producer|consumer|processor (HEP-CORE-0033 §G2.2.0b.8)")
      else
        match find (λ row, row.1 =s msg_type) kRoleTagTable with
        | Some (_, allowed) =>
            if tag_in tag allowed then None
            else Some (mkReject invalid_role_tag "role_uid"
                   ("role_uid tag '" +:+ tag +:+ "' not allowed on " +:+ msg_type +:+
                    " (allowed: " +:+ format_allowed allowed +:+ ") per HEP-CORE-0033 §G2.2.0b.8"))
        | None =>
            if tag_in tag ["prod"; "cons"; "proc"] then None
            else Some (mkReject invalid_request "role_uid"
                   ("role_uid tag '" +:+ tag +:+ "' unrecognized (expected prod|cons|proc)"))
        end
  end.

(** ** Runners *)

Definition run_reg_family_gates (env : Wire.WireEnvelope) (body : RegFamilyBodyView)
    (ctx : AdmissionContext) : M Gate :=
  match and_then (gate_identity_match env body)
          (and_then (gate_grammar body)
            (and_then (gate_role_tag_policy (Wire.msg_type env) (rv_role_uid body) "")
              (gate_known_role_binding body ctx))) with
  | Some d => mret (Some d)
  | None => gate_replay_bound body ctx
  end.

Definition run_authenticated_reg_family_gates (env : Wire.WireEnvelope)
    (body : AuthenticatedRegFamilyView) (ctx : AdmissionContext) : M Gate :=
  if negb (Wire.identity env =s av_role_uid body) then mret (Some identity_reject)
  else if negb (grammar_ok (av_role_uid body)) then mret (Some role_uid_grammar_reject)
  else if negb (grammar_ok (av_channel_name body)) then mret (Some channel_grammar_reject)
  else match gate_role_tag_policy (Wire.msg_type env) (av_role_uid body) "" with
       | Some d => mret (Some d)
       | None => check_replay_bound (av_role_uid body) (av_client_nonce body)
                   (av_client_wall_ts body) ctx
       end.

Definition run_control_gates (env : Wire.WireEnvelope) (body : ControlBodyView) : Gate :=
  and_then
    (if str_empty (cv_role_uid body) then None
     else if negb (Wire.identity env =s cv_role_uid body) then
       Some (mkReject identity_mismatch "role_uid"
         ("ROUTER identity '" +:+ Wire.identity env +:+ "' does not equal payload role_uid '" +:+
          cv_role_uid body +:+ "' (I-DEALER-IDENTITY)"))
     else if negb (grammar_ok (cv_role_uid body)) then Some role_uid_grammar_reject
     else gate_role_tag_policy (Wire.msg_type env) (cv_role_uid body) (cv_role_type body))
    (if negb (str_empty (cv_channel_name body)) && negb (grammar_ok (cv_channel_name body))
     then Some channel_grammar_reject else None).

(** ** The broker's bindings

    [BrokerService::BrokerService] binds the callbacks to the configured
    roles, the hub's replay guard and the clocks; both clocks are read in
    milliseconds. *)

Record KnownRole := mkKnownRole { kr_uid : string; kr_pubkey_z85 : string }.

Definition lookup_in (known_roles : list KnownRole) (uid pubkey : string) : KnownRoleLookup :=
  match find (λ kr, kr_uid kr =s uid) known_roles with
  | Some kr => if kr_pubkey_z85 kr =s pubkey then binding_matches else key_differs
  | None => uid_unknown
  end.

Definition ns_per_ms : Z := 1000000.
Definition wall_ms (env : Env) : Z := system_now env `div` ns_per_ms.
Definition mono_ms (env : Env) : Z := steady_now env `div` ns_per_ms.

Definition bind_admission_context (known_roles : list KnownRole) : AdmissionContext :=
  mkContext
    (Some (mkCallbacks (Some (lookup_in known_roles))
             (Some (λ uid nonce, env ← ask; nonce_seen uid nonce 60000 (mono_ms env)))
             (Some (env ← ask; mret (wall_ms env)))))
    30000 60000.

End AdmissionGates.

Import HubCore HubOps AdmissionGates.

(** * What passing the gates means *)
Module GateProps.

Implicit Types (known : list KnownRole) (uid nonce key : string) (ts : Z) (e : Env) (h : HubImpl).

(** ** The replay gate *)

Definition skew e ts : Z :=
  if ts <? wall_ms e then u64 (wall_ms e - ts) else u64 (ts - wall_ms e).

Definition guard_says uid nonce e h := ReplayGuard.check_and_record uid nonce 60000 (mono_ms e) (replay_guard h).

Lemma replay_gate_run known uid nonce ts e h :
  let r := check_replay_bound uid nonce ts (bind_admission_context known) in
  (result r e h = None ↔ skew e ts ≤ 30000 ∧ (guard_says uid nonce e h).1 = true) ∧
  (∀ d, result r e h = Some d → code d = replay_or_skew) ∧
  exec r e h = (if 30000 <? skew e ts then h else h <| replay_guard := (guard_says uid nonce e h).2 |>) ∧
  trace r e h = [].
Proof.
  unfold result, exec, trace, check_replay_bound, bind_admission_context. cbn.
  unfold mbind, M_bind, mret, M_ret, ask. cbn. fold (skew e ts).
  destruct (30000 <? skew e ts) eqn:Hs; cbn.
  - apply Z.ltb_lt in Hs. split_and!; [split; [done|lia]|by intros d [= <-]|done..].
  - apply Z.ltb_ge in Hs. unfold nonce_seen, guard_says. cbn.
    destruct (ReplayGuard.check_and_record uid nonce 60000 (mono_ms e) (replay_guard h)) as [f g] eqn:Hc.
    unfold mbind, M_bind, gets, modify, mret, M_ret. cbn. rewrite Hc.
    destruct f; cbn; (split_and!; [naive_solver|naive_solver|done..]).
Qed.

Lemma skew_le e ts b : 0 ≤ ts ≤ u64_max → 0 ≤ wall_ms e ≤ u64_max →
  skew e ts ≤ b ↔ Z.abs (wall_ms e - ts) ≤ b.
Proof. intros Ht He. unfold skew. case_match eqn:E; rewrite u64_id; lia. Qed.

(** ** The gates of a registration *)

Definition tag_allowed (m tag : string) : Prop :=
  match find (λ row, row.1 =s m) kRoleTagTable with
  | Some (_, allowed) => tag ∈ allowed
  | None => True
  end.

Lemma tag_in_spec tag allowed : "" ∉ allowed → tag_in tag allowed = true ↔ tag ∈ allowed.
Proof.
  intros He. unfold tag_in. rewrite existsb_exists. split.
  - intros (a & Ha%list_elem_of_In & [_ Ht%bool_decide_eq_true]%andb_true_iff). by subst.
  - intros Ht. exists tag. split; [by apply list_elem_of_In|]. rewrite str_eqb_refl, andb_true_r.
    apply negb_true_iff, str_empty_false. intros ->. done.
Qed.

(** The tag table only has rows with non-empty tags. *)
Lemma tag_row m row : find (λ row, row.1 =s m) kRoleTagTable = Some row → "" ∉ row.2.
Proof.
  intros Hf. apply find_some in Hf as [Hin _]. apply list_elem_of_In in Hin.
  unfold kRoleTagTable in Hin.
  repeat (apply elem_of_cons in Hin as [->|Hin]; [by apply (bool_decide_unpack _)|]).
  by apply elem_of_nil in Hin.
Qed.

#[local] Opaque kRoleTagTable tag_in.

Lemma role_tag_gate m uid : m ≠ "HEARTBEAT_NOTIFY" →
  gate_role_tag_policy m uid "" = None ↔
  ∃ parts, Naming.parse_role_uid uid = Some parts ∧ tag_allowed m (Naming.tag parts).
Proof.
  intros Hm. unfold gate_role_tag_policy, Naming.extract_short_tag.
  destruct (Naming.parse_role_uid uid) as [p|] eqn:Hp; cbn; [|naive_solver].
  assert ((m =s "HEARTBEAT_NOTIFY") = false) as -> by (apply bool_decide_eq_false_2; done).
  unfold tag_allowed. destruct (find (λ row, row.1 =s m) kRoleTagTable) as [[m' allowed]|] eqn:Hf.
  - pose proof (tag_in_spec (Naming.tag p) allowed (tag_row _ _ Hf)) as Ht.
    destruct (tag_in (Naming.tag p) allowed).
    + split; [intros _; exists p; split; [done|by apply Ht]|done].
    + split; [done|]. intros (q & [= <-] & Hq). by apply Ht in Hq.
  - apply NamingProps.parse_role_uid_tag in Hp as Hin.
    assert (tag_in (Naming.tag p) ["prod"; "cons"; "proc"] = true) as ->.
    { apply tag_in_spec; [by apply (bool_decide_unpack _)|exact Hin]. }
    split; [intros _; by exists p|done].
Qed.
#[local] Transparent kRoleTagTable tag_in.

(** The checks that precede the replay gate, as one condition. *)
Definition reg_admissible known (env : Wire.WireEnvelope) (b : RegFamilyBodyView) : Prop :=
  Wire.identity env = rv_role_uid b ∧
  grammar_ok (rv_role_uid b) = true ∧ grammar_ok (rv_channel_name b) = true ∧
  String.length (rv_zmq_pubkey b) = 40%nat ∧
  (∃ parts, Naming.parse_role_uid (rv_role_uid b) = Some parts ∧
            tag_allowed (Wire.msg_type env) (Naming.tag parts)) ∧
  lookup_in known (rv_role_uid b) (rv_zmq_pubkey b) = binding_matches.

Definition auth_admissible (env : Wire.WireEnvelope) (b : AuthenticatedRegFamilyView) : Prop :=
  Wire.identity env = av_role_uid b ∧
  grammar_ok (av_role_uid b) = true ∧ grammar_ok (av_channel_name b) = true ∧
  ∃ parts, Naming.parse_role_uid (av_role_uid b) = Some parts ∧
           tag_allowed (Wire.msg_type env) (Naming.tag parts).

Lemma and_then_None a b : and_then a b = None ↔ a = None ∧ b = None.
Proof. destruct a; cbn; naive_solver. Qed.

Lemma str_eqb_spec s1 s2 : (s1 =s s2) = true ↔ s1 = s2.
Proof. apply bool_decide_eq_true. Qed.

Lemma gate_grammar_spec b :
  gate_grammar b = None ↔
  grammar_ok (rv_role_uid b) = true ∧ grammar_ok (rv_channel_name b) = true ∧
  String.length (rv_zmq_pubkey b) = 40%nat.
Proof.
  unfold gate_grammar.
  destruct (grammar_ok (rv_role_uid b)), (grammar_ok (rv_channel_name b)); cbn [negb]; [|naive_solver..].
  case_bool_decide as Hl; [naive_solver|]. by split.
Qed.

Lemma gate_binding_spec known b :
  gate_known_role_binding b (bind_admission_context known) = None ↔
  lookup_in known (rv_role_uid b) (rv_zmq_pubkey b) = binding_matches.
Proof.
  unfold gate_known_role_binding.
  change (cb (bind_admission_context known) ≫= lookup_known_role) with (Some (lookup_in known)).
  cbv beta iota. by destruct (lookup_in known (rv_role_uid b) (rv_zmq_pubkey b)); split.
Qed.

Lemma reg_gates_shape known env b : Wire.msg_type env ≠ "HEARTBEAT_NOTIFY" →
  (reg_admissible known env b ∧
   run_reg_family_gates env b (bind_admission_context known) =
   check_replay_bound (rv_role_uid b) (rv_client_nonce b) (rv_client_wall_ts b) (bind_admission_context known)) ∨
  (¬ reg_admissible known env b ∧
   ∃ d, run_reg_family_gates env b (bind_admission_context known) = mret (Some d)).
Proof.
  intros Hm. unfold run_reg_family_gates, reg_admissible.
  assert (Hi : gate_identity_match env b = None ↔ Wire.identity env = rv_role_uid b).
  { unfold gate_identity_match. rewrite <-str_eqb_spec. by case_match. }
  rewrite <-Hi, <-(gate_binding_spec known), <-(role_tag_gate _ _ Hm).
  pose proof (gate_grammar_spec b) as Hg.
  case_match eqn:E.
  - right. split; [|eauto]. intros (H1 & H2 & H3 & H4 & H5 & H6).
    assert (gate_grammar b = None) as H7 by (by apply Hg).
    by rewrite H1, H7, H5, H6 in E.
  - left. split; [|done]. rewrite !and_then_None in E. tauto.
Qed.

Lemma auth_gates_shape known env b : Wire.msg_type env ≠ "HEARTBEAT_NOTIFY" →
  (auth_admissible env b ∧
   run_authenticated_reg_family_gates env b (bind_admission_context known) =
   check_replay_bound (av_role_uid b) (av_client_nonce b) (av_client_wall_ts b) (bind_admission_context known)) ∨
  (¬ auth_admissible env b ∧
   ∃ d, run_authenticated_reg_family_gates env b (bind_admission_context known) = mret (Some d)).
Proof.
  intros Hm. unfold run_authenticated_reg_family_gates, auth_admissible.
  rewrite <-(role_tag_gate _ _ Hm).
  rewrite <-str_eqb_spec.
  destruct (Wire.identity env =s av_role_uid b); cbn [negb]; [|right; split; [naive_solver|by eexists]].
  destruct (grammar_ok (av_role_uid b)); cbn [negb]; [|right; split; [naive_solver|by eexists]].
  destruct (grammar_ok (av_channel_name b)); cbn [negb]; [|right; split; [naive_solver|by eexists]].
  destruct (gate_role_tag_policy _ _ _) eqn:Ht; [right; split; [naive_solver|by eexists]|by left].
Qed.
(** ** Histories of requests at the gates *)

Inductive Attempt :=
  | RegAttempt (env : Wire.WireEnvelope) (body : RegFamilyBodyView)
  | AuthAttempt (env : Wire.WireEnvelope) (body : AuthenticatedRegFamilyView).

Definition run_attempt known (a : Attempt) : M (option RejectDetail) :=
  match a with
  | RegAttempt env b => run_reg_family_gates env b (bind_admission_context known)
  | AuthAttempt env b => run_authenticated_reg_family_gates env b (bind_admission_context known)
  end.

Definition at_type (a : Attempt) : string :=
  match a with RegAttempt env _ | AuthAttempt env _ => Wire.msg_type env end.
Definition at_uid (a : Attempt) : string :=
  match a with RegAttempt _ b => rv_role_uid b | AuthAttempt _ b => av_role_uid b end.
Definition at_nonce (a : Attempt) : string :=
  match a with RegAttempt _ b => rv_client_nonce b | AuthAttempt _ b => av_client_nonce b end.
Definition at_ts (a : Attempt) : Z :=
  match a with RegAttempt _ b => rv_client_wall_ts b | AuthAttempt _ b => av_client_wall_ts b end.

Definition admissible known (a : Attempt) : Prop :=
  match a with RegAttempt env b => reg_admissible known env b | AuthAttempt env b => auth_admissible env b end.

Lemma attempt_shape known a : at_type a ≠ "HEARTBEAT_NOTIFY" →
  (admissible known a ∧ run_attempt known a =
     check_replay_bound (at_uid a) (at_nonce a) (at_ts a) (bind_admission_context known)) ∨
  (¬ admissible known a ∧ ∃ d, run_attempt known a = mret (Some d)).
Proof. destruct a; cbn; [apply reg_gates_shape|apply auth_gates_shape]. Qed.

(** What an attempt does, on both sides. *)
Lemma attempt_outcome known a e h : at_type a ≠ "HEARTBEAT_NOTIFY" →
  let r := run_attempt known a in
  let says := guard_says (at_uid a) (at_nonce a) e h in
  (result r e h = None ↔ admissible known a ∧ skew e (at_ts a) ≤ 30000 ∧ says.1 = true) ∧
  trace r e h = [] ∧
  (exec r e h = h ∧ result r e h ≠ None ∨ exec r e h = h <| replay_guard := says.2 |>).
Proof.
  intros Ht. cbn zeta. destruct (attempt_shape known a Ht) as [[Ha ->]|(Ha & d & ->)].
  - destruct (replay_gate_run known (at_uid a) (at_nonce a) (at_ts a) e h) as (Hr & _ & He & Htr).
    rewrite Hr. split_and!; [naive_solver|done|].
    rewrite He. case_match eqn:Hs; [left|by right].
    split; [done|]. apply Z.ltb_lt in Hs. lia.
  - split_and!; [naive_solver|done|by left].
Qed.

(** The hub after the gates have seen [hist], starting with an empty guard. *)
Definition after known h (hist : list (Env * Attempt)) : HubImpl :=
  foldl (λ h p, exec (run_attempt known p.2) p.1 h) (h <| replay_guard := ∅ |>) hist.

(** The reading of both clocks at each attempt are [uint64_t] milliseconds;
    the monotonic clock does not go back. *)
Definition times_ok (hist : list (Env * Attempt)) : Prop :=
  ReplayGuard.clock_ok 0 (map (λ p, ReplayGuard.mkCall (at_uid p.2) (at_nonce p.2) (mono_ms p.1)) hist) ∧
  Forall (λ p, 0 ≤ wall_ms p.1 ≤ u64_max ∧ 0 ≤ at_ts p.2 ≤ u64_max ∧
               at_type p.2 ≠ "HEARTBEAT_NOTIFY") hist.
Definition calls (hist : list (Env * Attempt)) : list ReplayGuard.call :=
  map (λ p, ReplayGuard.mkCall (at_uid p.2) (at_nonce p.2) (mono_ms p.1)) hist.

Lemma after_snoc known h hist p :
  after known h (hist ++ [p]) = exec (run_attempt known p.2) p.1 (after known h hist).
Proof. unfold after. by rewrite foldl_app. Qed.

Lemma times_ok_app hist1 hist2 : times_ok (hist1 ++ hist2) → times_ok hist1.
Proof.
  intros [Hc Hf]. rewrite map_app in Hc. apply ReplayGuard.clock_ok_app in Hc as [Hc _].
  apply Forall_app in Hf as [Hf _]. by split.
Qed.

Lemma clock_reaches pre e a post :
  ReplayGuard.clock_ok 0 (calls (pre ++ (e, a) :: post)) →
  0 ≤ mono_ms e ≤ ReplayGuard.last_reading 0 (calls (pre ++ (e, a) :: post)).
Proof.
  unfold calls. rewrite map_app. intros [Hpre [Hc Hpost]]%ReplayGuard.clock_ok_app. cbn in *.
  apply ReplayGuard.last_reading_ge in Hpre, Hpost.
  unfold ReplayGuard.last_reading in *. rewrite foldl_app. cbn. lia.
Qed.

(** The guard remembers every admission for a minute. *)
Lemma admission_remembered known h pre e a post :
  times_ok (pre ++ (e, a) :: post) →
  result (run_attempt known a) e (after known h pre) = None →
  ReplayGuard.last_reading 0 (calls (pre ++ (e, a) :: post)) - mono_ms e ≤ 60000 →
  ReplayGuard.mkEntry (at_nonce a) (mono_ms e)
    ∈ ReplayGuard.entries_of (at_uid a) (replay_guard (after known h (pre ++ (e, a) :: post))).
Proof.
  induction post as [|[e' a'] post IH] using rev_ind; intros Hok Hres Hd.
  - rewrite after_snoc. cbn [fst snd].
    destruct Hok as [_ Hf]. apply Forall_app in Hf as [_ Hf]. inv Hf as [|? ? (_ & _ & Hm) _].
    destruct (attempt_outcome known a e (after known h pre) Hm) as (Hr & _ & [[_ He]|He]); [done|].
    apply Hr in Hres as (_ & _ & Hs). rewrite He. cbn.
    apply (ReplayGuard.accepted_is_recorded 60000 _ (ReplayGuard.mkCall (at_uid a) (at_nonce a) (mono_ms e)) Hs).
  - rewrite app_comm_cons, app_assoc in Hok, Hd |- *. rewrite after_snoc. cbn [fst snd].
    unfold calls in Hd. rewrite map_app in Hd. cbn in Hd. rewrite ReplayGuard.last_reading_snoc in Hd. cbn in Hd.
    pose proof Hok as Hok'%times_ok_app. destruct Hok as [Hc Hf].
    rewrite map_app in Hc. apply ReplayGuard.clock_ok_app in Hc as [Hc [Hc' _]]. cbn in Hc'.
    apply Forall_app in Hf as [_ Hf]. inv Hf as [|? ? (_ & _ & Hm) _].
    pose proof (clock_reaches _ _ _ _ Hc) as Hreach. unfold calls in Hreach.
    assert (IH' := IH Hok' Hres). unfold calls in IH'. cbn in Hm, Hd.
    destruct (attempt_outcome known a' e' (after known h (pre ++ (e, a) :: post)) Hm)
      as (_ & _ & [[Hx _]|Hx]); rewrite Hx; clear Hx; cbn [replay_guard]; [apply IH'; lia|].
    apply (ReplayGuard.entry_kept 60000 _
      (ReplayGuard.mkCall (at_uid a') (at_nonce a') (mono_ms e'))); cbn; [lia..|apply IH'; lia].
Qed.

(** ** Claims *)

(** The gates of a registration, as the broker binds them, let a request
    through exactly when the ROUTER identity is the role uid of the body, uid
    and channel pass the identifier grammar, the uid parses as a role uid with
    a tag the message type allows, the role is configured with the key the
    body carries, the client's clock is within 30 s of the broker's and the
    nonce is one the replay guard accepts; whatever the outcome, the gates
    change nothing of the hub but the replay guard and call no handler. *)
Theorem registration_gates_outcome known env b e h :
  Wire.msg_type env ≠ "HEARTBEAT_NOTIFY" →
  0 ≤ rv_client_wall_ts b ≤ u64_max → 0 ≤ wall_ms e ≤ u64_max →
  let r := run_reg_family_gates env b (bind_admission_context known) in
  let says := ReplayGuard.check_and_record (rv_role_uid b) (rv_client_nonce b) 60000 (mono_ms e) (replay_guard h) in
  (result r e h = None ↔
     Wire.identity env = rv_role_uid b ∧
     grammar_ok (rv_role_uid b) = true ∧ grammar_ok (rv_channel_name b) = true ∧
     String.length (rv_zmq_pubkey b) = 40%nat ∧
     (∃ parts, Naming.parse_role_uid (rv_role_uid b) = Some parts ∧
               tag_allowed (Wire.msg_type env) (Naming.tag parts)) ∧
     lookup_in known (rv_role_uid b) (rv_zmq_pubkey b) = binding_matches ∧
     Z.abs (wall_ms e - rv_client_wall_ts b) ≤ 30000 ∧ says.1 = true) ∧
  trace r e h = [] ∧
  (exec r e h = h ∨ exec r e h = h <| replay_guard := says.2 |>).
Proof.
  intros Hm Hts Hw. cbn zeta.
  destruct (attempt_outcome known (RegAttempt env b) e h Hm) as (Hr & Ht & He).
  cbn [run_attempt at_uid at_nonce at_ts admissible] in *. unfold reg_admissible in Hr.
  rewrite (skew_le _ _ _ Hts Hw) in Hr. split_and!; [|done|naive_solver].
  rewrite Hr. unfold guard_says. tauto.
Qed.

(** A request that the gates admitted is never admitted again: over any
    history of registration and authenticated requests on clocks whose
    monotonic side does not go back, a later request with the same role uid,
    nonce and client timestamp is rejected, however much later it arrives, as
    long as the wall clock was not set back between the two.  The minute of
    memory suffices because it is twice the tolerated clock skew: once the
    guard has forgotten the nonce, the timestamp is out of tolerance. *)
Theorem admitted_request_never_again known h pre e1 a1 post e2 a2 :
  times_ok (pre ++ (e1, a1) :: post ++ [(e2, a2)]) →
  result (run_attempt known a1) e1 (after known h pre) = None →
  at_uid a2 = at_uid a1 → at_nonce a2 = at_nonce a1 → at_ts a2 = at_ts a1 →
  mono_ms e2 - mono_ms e1 ≤ wall_ms e2 - wall_ms e1 →
  result (run_attempt known a2) e2 (after known h (pre ++ (e1, a1) :: post)) ≠ None.
Proof.
  rewrite app_comm_cons, app_assoc. intros Hok Hr1 Hu Hn Hts Hw Hr2.
  pose proof Hok as Hok'%times_ok_app. destruct Hok as [Hc Hf].
  rewrite map_app in Hc. apply ReplayGuard.clock_ok_app in Hc as [Hc [Hc2 _]].
  pose proof (clock_reaches _ _ _ _ Hc) as Hreach. cbn in Hc2. fold (calls (pre ++ (e1, a1) :: post)) in Hc2.
  apply Forall_app in Hf as [Hf Hf2]. inv Hf2 as [|? ? (Hw2 & Ht2 & Hm2) _].
  apply Forall_app in Hf as [_ Hf1]. inv Hf1 as [|? ? (Hw1 & Ht1 & Hm1) _]. cbn in *.
  pose proof Hr1 as Hacc.
  apply attempt_outcome in Hr1 as (_ & Hs1 & _), Hr2 as (_ & Hs2 & Hg2); [|done..].
  apply skew_le in Hs1, Hs2; [|done..].
  unfold guard_says in Hg2. apply ReplayGuard.check_accepts in Hg2 as (_ & _ & Hall).
  assert (Hin : _ ∈ _) by (apply (admission_remembered known h pre e1 a1 post Hok'); [done|lia]).
  rewrite Hu in Hall. apply Hall in Hin; [|by rewrite Hn]. cbn in Hin.
  assert (Hb : mono_ms e2 - mono_ms e1 ≤ 60000) by lia.
  apply ReplayGuard.cutoff_bound in Hb; lia.
Qed.

(** ** Witnesses *)

Definition w_key : string := "0123456789012345678901234567890123456789".
Definition w_known := [mkKnownRole "prod.cam.u1" w_key].
Definition w_env := Wire.mkEnvelope "prod.cam.u1" "REG_REQ" "1" Json.JNull.
Definition w_body ts := mkRegView "prod.cam.u1" "lab.ch" w_key "n1" ts.
(** Both clocks, in milliseconds. *)
Definition w_at wall mono := mkEnv (wall * 1000000) (mono * 1000000).

Lemma registration_gates_outcome_witness :
  let r := run_reg_family_gates w_env (w_body 5000) (bind_admission_context w_known) in
  result r (w_at 20000 100) empty_hub = None ∧ result r (w_at 40000 100) empty_hub ≠ None.
Proof.
  pose proof (registration_gates_outcome w_known w_env (w_body 5000) (w_at 20000 100) empty_hub
    ltac:(done) ltac:(by vm_compute) ltac:(by vm_compute)) as [[_ Hr] _].
  pose proof (registration_gates_outcome w_known w_env (w_body 5000) (w_at 40000 100) empty_hub
    ltac:(done) ltac:(by vm_compute) ltac:(by vm_compute)) as [[Hr' _] _].
  split.
  - apply Hr. split_and!; try by vm_compute.
    eexists. split; [by vm_compute|]. change ("prod" ∈ ["prod"; "proc"]). set_solver.
  - intros (_ & _ & _ & _ & _ & _ & Hs & _)%Hr'. by vm_compute in Hs.
Defined.

Lemma admitted_request_never_again_witness :
  let a := RegAttempt w_env (w_body 5000) in
  result (run_attempt w_known a) (w_at 36000 31100) (after w_known empty_hub [(w_at 5000 100, a)]) ≠ None.
Proof.
  set (a := RegAttempt w_env (w_body 5000)).
  refine (admitted_request_never_again w_known empty_hub [] (w_at 5000 100) a [] (w_at 36000 31100) a
            _ _ eq_refl eq_refl eq_refl _).
  - split; [by vm_compute|]. repeat (apply Forall_cons; split; [by vm_compute|]). constructor.
  - by vm_compute.
  - by vm_compute.
Defined.

(** The wall clock has to be one that is not set back: after an adjustment of
    a minute the same request passes a second time. *)
Example set_back_clock_readmits :
  let a := RegAttempt w_env (w_body 5000) in
  result (run_attempt w_known a) (w_at 5000 100) (after w_known empty_hub []) = None ∧
  result (run_attempt w_known a) (w_at 5000 60101) (after w_known empty_hub [(w_at 5000 100, a)]) = None.
Proof. split; by vm_compute. Qed.

(** A role uid that the wire grammar lets through and the naming grammar does
    not is answered with the code reserved for a fault of the broker. *)
Example untagged_uid_is_an_internal_error :
  let uid := "alice" in
  grammar_ok uid = true ∧
  code <$> run_control_gates (Wire.mkEnvelope uid "GET_CHANNEL_AUTH_REQ" "1" Json.JNull)
    (mkControlView uid "" "") = Some broker_internal_error.
Proof. split; by vm_compute. Qed.
End GateProps.
