(* ===== verification/WireDispatch.v ===== *)
(** * From frames to a validated message

    Models [src/utils/network_comm/wire_dispatch.cpp]: parse the envelope,
    look the message type up in the dispatch table, check the body and run the
    gates of its tier.  What a handler gets is a [ReceivedMessage].

    Module [WireBodies] comes first: the bodies of control messages. *)

From S2P Require Import Prelude.
From S2P Require Import Json.
From S2P Require Import Naming.
From S2P Require Import HubCore.
From S2P Require Import Wire.
From S2P Require Import AdmissionGates.
Import Json.

(** * The bodies of control messages

    Models [src/utils/network_comm/wire_bodies.cpp] and the accessors of
    [wire_bodies.hpp] that the gates use.  A body class is its constructor: a
    check of the JSON object that throws [WireBodyError] or succeeds, the body
    itself staying the JSON value.  A computation that may throw is a [res]. *)
Module WireBodies.

(** ** [WireBodyError] as a value *)

Definition WireBodyError := string.
Definition res (A : Type) : Type := (WireBodyError + A)%type.

#[export] Instance res_ret : MRet res := λ A a, inr a.
#[export] Instance res_bind : MBind res := λ A B f m,
  match m with inl e => inl e | inr a => f a end.

Definition mkerr (field want : string) : WireBodyError :=
  "wire body: field '" +:+ field +:+ "' " +:+ want.

(** ** Readers *)

Definition read_string (body : json) (field : string) : res string :=
  match json_get field body with
  | Some (JStr s) => inr s
  | _ => inl (mkerr field "missing or not string")
  end.

Definition read_string_or_empty (body : json) (field : string) : res string :=
  match json_get field body with
  | None => inr ""
  | Some (JStr s) => inr s
  | Some _ => inl (mkerr field "present but not string")
  end.

(** [get<std::uint32_t>] keeps the low half. *)
Definition read_u32 (body : json) (field : string) : res Z :=
  match json_get field body with
  | Some (JInt z) => if 0 <=? z then inr (z mod 2 ^ 32) else inl (mkerr field "missing or not unsigned number")
  | _ => inl (mkerr field "missing or not unsigned number")
  end.

Definition read_u64 (body : json) (field : string) : res Z :=
  match json_get field body with
  | Some (JInt z) => if 0 <=? z then inr (u64 z) else inl (mkerr field "missing or not unsigned number")
  | _ => inl (mkerr field "missing or not unsigned number")
  end.

Definition read_u64_or_zero (body : json) (field : string) : res Z :=
  match json_get field body with
  | None => inr 0
  | Some (JInt z) => if 0 <=? z then inr (u64 z) else inl (mkerr field "present but not unsigned number")
  | Some _ => inl (mkerr field "present but not unsigned number")
  end.

Definition read_object (body : json) (field : string) : res json :=
  match json_get field body with
  | Some (JObj ms) => inr (JObj ms)
  | _ => inl (mkerr field "missing or not object")
  end.

(** ** Checks *)

Inductive JsonKind := String_ | U32 | U64 | Object_ | Array_.

Definition kind_ok (kind : JsonKind) (v : json) : bool :=
  match kind with
  | String_ => is_string v
  | U32 | U64 => is_number_unsigned v
  | Object_ => is_object v
  | Array_ => is_array v
  end.

Definition require (body : json) (field : string) (kind : JsonKind) : res unit :=
  match json_get field body with
  | None => inl (mkerr field "missing")
  | Some v => if kind_ok kind v then inr tt else inl (mkerr field "wrong JSON kind")
  end.

Definition validate_if_present (body : json) (field : string) (kind : JsonKind) : res unit :=
  match json_get field body with
  | None => inr tt
  | Some v => if kind_ok kind v then inr tt else inl (mkerr field "present but wrong JSON kind")
  end.

Definition require_envelope_hash (body : json) : res unit := require body "envelope_hash" String_.

Definition require_security_triple (body : json) : res unit :=
  _ ← require_envelope_hash body;
  _ ← require body "client_nonce" String_;
  require body "client_wall_ts" U64.

(** Several fields of one kind. *)
Fixpoint require_all (body : json) (fields : list string) (kind : JsonKind) : res unit :=
  match fields with
  | [] => inr tt
  | f :: rest => _ ← require body f kind; require_all body rest kind
  end.

(** ** Bodies a role sends *)

Definition ProducerRegReqBody (body : json) : res unit :=
  _ ← require_all body ["channel_name"; "role_uid"; "role_type"; "data_transport"; "zmq_pubkey"] String_;
  _ ← require body "abi_fingerprint" Object_;
  _ ← validate_if_present body "role_name" String_;
  require_security_triple body.

Definition ConsumerRegReqBody (body : json) : res unit :=
  _ ← require_all body ["channel_name"; "role_uid"; "role_type"; "data_transport"; "zmq_pubkey"] String_;
  _ ← require body "abi_fingerprint" Object_;
  _ ← validate_if_present body "role_name" String_;
  require_security_triple body.

Definition EndpointUpdateReqBody (body : json) : res unit :=
  _ ← require_all body ["channel_name"; "endpoint_type"; "endpoint"] String_;
  require_security_triple body.

Definition ChannelAuthAppliedReqBody (body : json) : res unit :=
  _ ← require_all body ["channel_name"; "role_uid"] String_;
  _ ← require_all body ["applied_version"; "instance_id"] U64;
  require_security_triple body.

Definition DeregReqBody (body : json) : res unit :=
  _ ← require_all body ["channel_name"; "role_uid"] String_;
  require_security_triple body.

Definition GetChannelAuthReqBody (body : json) : res unit :=
  _ ← require_all body ["channel_name"; "role_uid"] String_;
  require_envelope_hash body.

Definition HeartbeatNotifyBody (body : json) : res unit :=
  _ ← require_all body ["channel_name"; "role_uid"; "role_type"] String_;
  require_envelope_hash body.

Definition DiscReqBody (body : json) : res unit :=
  _ ← require body "channel_name" String_;
  require_envelope_hash body.

(** ** Bodies the broker sends *)

Definition RegAckBody (body : json) : res unit :=
  _ ← require_all body ["status"; "channel_name"] String_;
  _ ← require body "heartbeat" Object_;
  _ ← require body "initial_allowlist" Array_;
  _ ← require body "broker_abi_fingerprint" Object_;
  require_envelope_hash body.

Definition ConsumerRegAckBody (body : json) : res unit :=
  _ ← require_all body ["status"; "channel_name"; "data_transport"] String_;
  _ ← require body "heartbeat" Object_;
  _ ← require body "producers" Array_;
  _ ← require body "broker_abi_fingerprint" Object_;
  require_envelope_hash body.

Definition EndpointUpdateAckBody (body : json) : res unit :=
  _ ← require body "status" String_; require_envelope_hash body.

Definition GetChannelAuthAckBody (body : json) : res unit :=
  _ ← require body "status" String_;
  _ ← require body "allowlist" Array_;
  require_envelope_hash body.

Definition ChannelAuthAppliedAckBody (body : json) : res unit :=
  _ ← require body "status" String_; require_envelope_hash body.

Definition DeregAckBody (body : json) : res unit :=
  _ ← require body "status" String_; require_envelope_hash body.

Definition DiscAckBody (body : json) : res unit :=
  _ ← require body "status" String_; require_envelope_hash body.

Definition ChannelAuthChangedNotifyBody (body : json) : res unit :=
  _ ← require_all body ["channel_name"; "role_uid"; "role_type"; "phase"] String_;
  require_envelope_hash body.

Definition ChannelClosingNotifyBody (body : json) : res unit :=
  _ ← require body "channel_name" String_; require_envelope_hash body.

Definition ConsumerDiedNotifyBody (body : json) : res unit :=
  _ ← require_all body ["channel_name"; "role_uid"] String_; require_envelope_hash body.

Definition BandJoinNotifyBody (body : json) : res unit :=
  _ ← require_all body ["band"; "role_uid"; "role_name"] String_; require_envelope_hash body.

Definition BandLeaveNotifyBody (body : json) : res unit :=
  _ ← require_all body ["band"; "role_uid"; "role_name"] String_; require_envelope_hash body.

(** ** Bodies of the admin console *)

Definition AdminHelloReqBody (body : json) : res unit :=
  _ ← require_all body ["token"; "label"] String_; require_envelope_hash body.

Definition AdminHelloAckBody (body : json) : res unit :=
  _ ← require body "session_id" String_; require_envelope_hash body.

Definition AdminPingReqBody (body : json) : res unit :=
  _ ← require body "session_id" String_; require_security_triple body.

Definition AdminPingAckBody (body : json) : res unit :=
  _ ← require body "status" String_; require_envelope_hash body.

Definition AdminCloseChannelReqBody (body : json) : res unit :=
  _ ← require_all body ["session_id"; "channel"] String_; require_security_triple body.

Definition AdminCloseChannelAckBody (body : json) : res unit :=
  _ ← require body "status" String_; require_envelope_hash body.

Definition AdminSessionReqBody (body : json) : res unit :=
  _ ← require body "session_id" String_; require_security_triple body.

Definition AdminNamedReqBody (body : json) : res unit :=
  _ ← require_all body ["session_id"; "name"] String_; require_security_triple body.

Definition AdminBroadcastChannelReqBody (body : json) : res unit :=
  _ ← require_all body ["session_id"; "channel"; "message"] String_;
  _ ← validate_if_present body "data" String_;
  require_security_triple body.

Definition AdminQueryMetricsReqBody (body : json) : res unit :=
  _ ← require body "session_id" String_;
  _ ← require body "filter" Object_;
  require_security_triple body.

Definition AdminResultAckBody (body : json) : res unit :=
  _ ← require body "result" Object_; require_envelope_hash body.

Definition AdminStatusAckBody (body : json) : res unit :=
  _ ← require body "status" String_; require_envelope_hash body.

Definition AdminErrorBody (body : json) : res unit :=
  _ ← require_all body ["code"; "message"] String_; require_envelope_hash body.

(** ** What a check that passed tells *)

Lemma res_bind_inr {A B} (m : res A) (f : A → res B) b :
  (m ≫= f) = inr b ↔ ∃ a, m = inr a ∧ f a = inr b.
Proof. unfold mbind, res_bind. destruct m; naive_solver. Qed.

Lemma require_inr body field kind u :
  require body field kind = inr u ↔ ∃ v, json_get field body = Some v ∧ kind_ok kind v = true.
Proof.
  destruct u. unfold require. split; [repeat case_match; try done; eauto|].
  by intros (v & -> & ->).
Qed.

Lemma require_all_inr body fields kind u :
  require_all body fields kind = inr u ↔
  ∀ f, f ∈ fields → ∃ v, json_get f body = Some v ∧ kind_ok kind v = true.
Proof.
  destruct u. induction fields as [|f rest IH]; cbn; [split; [set_solver|done]|].
  rewrite res_bind_inr. setoid_rewrite require_inr. setoid_rewrite elem_of_cons. split.
  - intros ([] & Hf & Hr) f' [->|Hin]; [done|]. by apply IH.
  - intros H. exists tt. split; [apply H; by left|]. apply IH. intros f' Hin. apply H. by right.
Qed.

Lemma read_string_inr body field s : read_string body field = inr s ↔ json_get field body = Some (JStr s).
Proof. unfold read_string. split; [repeat case_match; naive_solver|]. by intros ->. Qed.

Lemma string_field body field v :
  json_get field body = Some v → kind_ok String_ v = true → ∃ s, read_string body field = inr s.
Proof. intros Hg Hk. destruct v; try done. exists s. by apply read_string_inr. Qed.

Lemma u64_field body field v :
  json_get field body = Some v → kind_ok U64 v = true → ∃ z, read_u64 body field = inr z.
Proof. intros Hg Hk. destruct v; try done. unfold read_u64. rewrite Hg. cbn in Hk. rewrite Hk. eauto. Qed.

Lemma security_triple_inr body u :
  require_security_triple body = inr u →
  (∃ s, read_string body "client_nonce" = inr s) ∧ (∃ z, read_u64 body "client_wall_ts" = inr z).
Proof.
  unfold require_security_triple. rewrite !res_bind_inr.
  intros (? & _ & [? [(v & Hv & Hk)%require_inr (v' & Hv' & Hk')%require_inr]]%res_bind_inr).
  split; [by eapply string_field|by eapply u64_field].
Qed.

End WireBodies.

Import Json HubCore WireBodies AdmissionGates.

Module WireDispatch.

Record RejectedMessage := mkRejected {
  rej_identity : string;
  rej_correlation_id : string;
  rej_msg_type : string;
  rej_code : RejectCode;
  rej_field : string;
  rej_message : string;
}.

(** A validated message carries the envelope and the body that was checked. *)
Inductive ReceivedMessage :=
  | ValidatedRegReq (env : Wire.WireEnvelope) (body : json)
  | ValidatedConsumerRegReq (env : Wire.WireEnvelope) (body : json)
  | ValidatedDeregReq (env : Wire.WireEnvelope) (body : json)
  | ValidatedConsumerDeregReq (env : Wire.WireEnvelope) (body : json)
  | ValidatedEndpointUpdateReq (env : Wire.WireEnvelope) (body : json)
  | ValidatedChannelAuthAppliedReq (env : Wire.WireEnvelope) (body : json)
  | ValidatedHeartbeatNotify (env : Wire.WireEnvelope) (body : json)
  | ValidatedGetChannelAuthReq (env : Wire.WireEnvelope) (body : json)
  | ValidatedDiscReq (env : Wire.WireEnvelope) (body : json)
  | ValidatedRawControl (env : Wire.WireEnvelope) (body : json)
  | Rejected (r : RejectedMessage).

Definition parse_failure (err : Wire.ParseError) : RejectedMessage :=
  let r := mkRejected "" "" "" in
  match err with
  | Wire.frame_count => r invalid_request "" "envelope frame count != 5"
  | Wire.frame_type_marker => r invalid_request "" "Frame 1 marker byte != 'C'"
  | Wire.msg_type_empty => r invalid_request "" "Frame 2 msg_type is empty"
  | Wire.msg_type_too_long => r invalid_request "" "Frame 2 msg_type exceeds 64 bytes"
  | Wire.correlation_too_long => r invalid_request "" "Frame 3 correlation_id exceeds 64 bytes"
  | Wire.correlation_missing =>
      r invalid_request "" "Frame 3 correlation_id empty on non-NOTIFY (I-CORRELATION-STABLE)"
  | Wire.body_not_json => r invalid_request "" "Frame 4 body is not valid JSON"
  | Wire.body_not_object => r invalid_request "" "Frame 4 body is not a JSON object"
  | Wire.envelope_hash_missing =>
      r envelope_tampered "" "body missing envelope_hash (I-ENVELOPE-BODY-BINDING)"
  | Wire.envelope_hash_mismatch =>
      r envelope_tampered "" "envelope_hash mismatch (I-ENVELOPE-BODY-BINDING)"
  end.

Definition rejection_with_envelope (env : Wire.WireEnvelope) (detail : RejectDetail) : ReceivedMessage :=
  Rejected (mkRejected (Wire.identity env) (Wire.correlation_id env) (Wire.msg_type env)
              (code detail) (field detail) (message detail)).

(** The [catch (const WireBodyError &)] of every validation routine. *)
Definition body_error (env : Wire.WireEnvelope) (e : WireBodyError) : ReceivedMessage :=
  rejection_with_envelope env (mkReject body_schema_violation "" e).

(** ** Views *)

Definition view_of_reg (body : json) : res RegFamilyBodyView :=
  role_uid ← read_string body "role_uid";
  channel_name ← read_string body "channel_name";
  zmq_pubkey ← read_string body "zmq_pubkey";
  client_nonce ← read_string body "client_nonce";
  client_wall_ts ← read_u64 body "client_wall_ts";
  mret (mkRegView role_uid channel_name zmq_pubkey client_nonce client_wall_ts).

Definition auth_view_of (body : json) : res AuthenticatedRegFamilyView :=
  role_uid ← read_string body "role_uid";
  channel_name ← read_string body "channel_name";
  client_nonce ← read_string body "client_nonce";
  client_wall_ts ← read_u64 body "client_wall_ts";
  mret (mkAuthView role_uid channel_name client_nonce client_wall_ts).

Definition auth_view_of_endpoint_update (env : Wire.WireEnvelope) (body : json) :
    res AuthenticatedRegFamilyView :=
  channel_name ← read_string body "channel_name";
  client_nonce ← read_string body "client_nonce";
  client_wall_ts ← read_u64 body "client_wall_ts";
  mret (mkAuthView (Wire.identity env) channel_name client_nonce client_wall_ts).

(** ** Validation routines *)

(** Build the view or answer with the body error, run the gates, hand the
    message over. *)
Definition validate_with {V} (view : res V) (gates : V → M (option RejectDetail))
    (env : Wire.WireEnvelope) (accept : ReceivedMessage) : M ReceivedMessage :=
  match view with
  | inl e => mret (body_error env e)
  | inr v =>
      r ← gates v;
      mret (match r with Some d => rejection_with_envelope env d | None => accept end)
  end.

Definition validate_producer_reg_req (env : Wire.WireEnvelope) (body : json) (ctx : AdmissionContext) :
    M ReceivedMessage :=
  validate_with (_ ← ProducerRegReqBody body; view_of_reg body)
    (λ view, run_reg_family_gates env view ctx) env (ValidatedRegReq env body).

Definition validate_consumer_reg_req (env : Wire.WireEnvelope) (body : json) (ctx : AdmissionContext) :
    M ReceivedMessage :=
  validate_with (_ ← ConsumerRegReqBody body; view_of_reg body)
    (λ view, run_reg_family_gates env view ctx) env (ValidatedConsumerRegReq env body).

Definition validate_auth_reg_family (BodyClass : json → res unit)
    (ValidatedT : Wire.WireEnvelope → json → ReceivedMessage)
    (env : Wire.WireEnvelope) (body : json) (ctx : AdmissionContext) : M ReceivedMessage :=
  validate_with (_ ← BodyClass body; auth_view_of body)
    (λ view, run_authenticated_reg_family_gates env view ctx) env (ValidatedT env body).

Definition validate_endpoint_update (env : Wire.WireEnvelope) (body : json) (ctx : AdmissionContext) :
    M ReceivedMessage :=
  validate_with (_ ← EndpointUpdateReqBody body; auth_view_of_endpoint_update env body)
    (λ view, run_authenticated_reg_family_gates env view ctx) env (ValidatedEndpointUpdateReq env body).

(** [has_role_type] tells whether the body class has a [role_type] accessor. *)
Definition validate_control_with_role_uid (BodyClass : json → res unit) (has_role_type : bool)
    (ValidatedT : Wire.WireEnvelope → json → ReceivedMessage)
    (env : Wire.WireEnvelope) (body : json) (ctx : AdmissionContext) : M ReceivedMessage :=
  validate_with
    (_ ← BodyClass body;
     role_uid ← read_string body "role_uid";
     channel_name ← read_string body "channel_name";
     role_type ← (if has_role_type then read_string body "role_type" else mret "");
     mret (mkControlView role_uid channel_name role_type))
    (λ view, mret (run_control_gates env view)) env (ValidatedT env body).

Definition validate_disc_req (env : Wire.WireEnvelope) (body : json) : M ReceivedMessage :=
  validate_with (DiscReqBody body) (λ _, mret None) env (ValidatedDiscReq env body).

Definition envelope_only (env : Wire.WireEnvelope) (body : json) : ReceivedMessage :=
  ValidatedRawControl env body.

(** The member of that name when it is a string, [""] otherwise. *)
Definition string_member (body : json) (field : string) : string :=
  match json_get field body with Some (JStr s) => s | _ => "" end.

Definition envelope_with_role_uid (env : Wire.WireEnvelope) (body : json) : ReceivedMessage :=
  let v := mkControlView (string_member body "role_uid") (string_member body "channel_name") "" in
  match run_control_gates env v with
  | Some r => rejection_with_envelope env r
  | None => ValidatedRawControl env body
  end.

Definition envelope_with_query_role_uid (env : Wire.WireEnvelope) (body : json) : ReceivedMessage :=
  let role_uid := string_member body "role_uid" in
  if str_empty role_uid then ValidatedRawControl env body
  else if negb (Naming.is_valid_identifier role_uid Naming.RoleUid) then
    rejection_with_envelope env role_uid_grammar_reject
  else match gate_role_tag_policy (Wire.msg_type env) role_uid "" with
       | Some r => rejection_with_envelope env r
       | None => ValidatedRawControl env body
       end.

(** ** The dispatch table *)

Inductive Tier :=
  | RegReq | ConsumerRegReq | AuthReg_Dereg | AuthReg_ConsumerDereg | AuthReg_EndpointUpdate
  | AuthReg_ChanAuthApplied | Control_HeartbeatNotify | Control_GetChannelAuth | Control_Disc
  | Control_EnvelopeWithRoleUid | Control_EnvelopeWithQueryRoleUid | EnvelopeOnly.

Definition kDispatchTable : list (string * Tier) :=
  [("REG_REQ", RegReq); ("CONSUMER_REG_REQ", ConsumerRegReq);
   ("DEREG_REQ", AuthReg_Dereg); ("CONSUMER_DEREG_REQ", AuthReg_ConsumerDereg);
   ("ENDPOINT_UPDATE_REQ", AuthReg_EndpointUpdate);
   ("CHANNEL_AUTH_APPLIED_REQ", AuthReg_ChanAuthApplied);
   ("HEARTBEAT_NOTIFY", Control_HeartbeatNotify);
   ("GET_CHANNEL_AUTH_REQ", Control_GetChannelAuth); ("DISC_REQ", Control_Disc);
   ("CHECK_PEER_READY_REQ", Control_EnvelopeWithRoleUid);
   ("BAND_JOIN_REQ", Control_EnvelopeWithRoleUid); ("BAND_LEAVE_REQ", Control_EnvelopeWithRoleUid);
   ("BAND_BROADCAST_SEND_NOTIFY", Control_EnvelopeWithRoleUid);
   ("ROLE_PRESENCE_REQ", Control_EnvelopeWithQueryRoleUid);
   ("ROLE_INFO_REQ", Control_EnvelopeWithQueryRoleUid);
   ("SCHEMA_REQ", EnvelopeOnly); ("CHANNEL_LIST_REQ", EnvelopeOnly); ("METRICS_REQ", EnvelopeOnly);
   ("SHM_BLOCK_QUERY_REQ", EnvelopeOnly); ("BAND_MEMBERS_REQ", EnvelopeOnly);
   ("CHANNEL_BROADCAST_SEND_NOTIFY", EnvelopeOnly)].

Definition lookup_tier (m : string) : option Tier :=
  snd <$> find (λ row, row.1 =s m) kDispatchTable.

Definition tier_name (t : Tier) : string :=
  match t with
  | RegReq => "RegReq"
  | ConsumerRegReq => "ConsumerRegReq"
  | AuthReg_Dereg => "AuthReg_Dereg"
  | AuthReg_ConsumerDereg => "AuthReg_ConsumerDereg"
  | AuthReg_EndpointUpdate => "AuthReg_EndpointUpdate"
  | AuthReg_ChanAuthApplied => "AuthReg_ChanAuthApplied"
  | Control_HeartbeatNotify => "Control_HeartbeatNotify"
  | Control_GetChannelAuth => "Control_GetChannelAuth"
  | Control_Disc => "Control_Disc"
  | Control_EnvelopeWithRoleUid => "Control_EnvelopeWithRoleUid"
  | Control_EnvelopeWithQueryRoleUid => "Control_EnvelopeWithQueryRoleUid"
  | EnvelopeOnly => "EnvelopeOnly"
  end.

Definition tier_for_msg_type (m : string) : option string := tier_name <$> lookup_tier m.
Definition dispatch_table_size : nat := length kDispatchTable.

Definition validate_tier (tier : Tier) (env : Wire.WireEnvelope) (body : json) (ctx : AdmissionContext) :
    M ReceivedMessage :=
  match tier with
  | RegReq => validate_producer_reg_req env body ctx
  | ConsumerRegReq => validate_consumer_reg_req env body ctx
  | AuthReg_Dereg => validate_auth_reg_family DeregReqBody ValidatedDeregReq env body ctx
  | AuthReg_ConsumerDereg =>
      validate_auth_reg_family DeregReqBody ValidatedConsumerDeregReq env body ctx
  | AuthReg_EndpointUpdate => validate_endpoint_update env body ctx
  | AuthReg_ChanAuthApplied =>
      validate_auth_reg_family ChannelAuthAppliedReqBody ValidatedChannelAuthAppliedReq env body ctx
  | Control_HeartbeatNotify =>
      validate_control_with_role_uid HeartbeatNotifyBody true ValidatedHeartbeatNotify env body ctx
  | Control_GetChannelAuth =>
      validate_control_with_role_uid GetChannelAuthReqBody false ValidatedGetChannelAuthReq env body ctx
  | Control_Disc => validate_disc_req env body
  | Control_EnvelopeWithRoleUid => mret (envelope_with_role_uid env body)
  | Control_EnvelopeWithQueryRoleUid => mret (envelope_with_query_role_uid env body)
  | EnvelopeOnly => mret (envelope_only env body)
  end.

Section dispatch.
Context (blake2b : string → string) (dump : json → string) (parse : string → option json).

Definition receive_and_validate (raw : list string) (ctx : AdmissionContext) : M ReceivedMessage :=
  match Wire.parse_router_recv blake2b parse raw with
  | inl err => mret (Rejected (parse_failure err))
  | inr env =>
      match lookup_tier (Wire.msg_type env) with
      | None => mret (envelope_only env (Wire.body env))
      | Some tier => validate_tier tier env (Wire.body env) ctx
      end
  end.

Definition build_error_reply (rej : RejectedMessage) : option (list string) :=
  let body := obj [("status", JStr "error"); ("error_code", JStr (to_wire_string (rej_code rej)));
                   ("message", JStr (rej_message rej))] in
  let body := if str_empty (rej_field rej) then body else put "field" (JStr (rej_field rej)) body in
  let body := if str_empty (rej_correlation_id rej) then body
              else put "correlation_id" (JStr (rej_correlation_id rej)) body in
  Wire.build_router_send blake2b dump (rej_identity rej) "ERROR" (rej_correlation_id rej) body.
End dispatch.

End WireDispatch.
