(* ===== verification/VersionRegistry.v ===== *)
(** * Component versions

    Models [src/utils/core/version_registry.cpp] and the constants of
    [plh_version_registry.hpp]: the envelope of version numbers two processes
    exchange, its comparison and its verdict.  The library's own version and
    the build id come from the build system and are parameters. *)

From stdpp Require Import pretty.
From Stdlib Require Import Ascii.
From S2P Require Import Prelude.
From S2P Require Import Json.
Import Json.

Module VersionRegistry.

Definition kShmMajor : Z := 1.
Definition kShmMinor : Z := 0.
Definition kBrokerProtoMajor : Z := 7.
Definition kBrokerProtoMinor : Z := 0.
Definition kZmqFrameMajor : Z := 1.
Definition kZmqFrameMinor : Z := 0.
Definition kScriptApiMajor : Z := 1.
Definition kScriptApiMinor : Z := 0.
Definition kScriptEngineMajor : Z := 1.
Definition kScriptEngineMinor : Z := 2.
Definition kConfigMajor : Z := 1.
Definition kConfigMinor : Z := 1.

Record ComponentVersions := mkVersions {
  library_major : Z; library_minor : Z; library_rolling : Z;
  shm_major : Z; shm_minor : Z;
  broker_proto_major : Z; broker_proto_minor : Z;
  zmq_frame_major : Z; zmq_frame_minor : Z;
  script_api_major : Z; script_api_minor : Z;
  script_engine_major : Z; script_engine_minor : Z;
  config_major : Z; config_minor : Z;
}.

(** One flag per axis; [build_id_] has a meaning for major mismatches only. *)
Record MismatchFlags := mkFlags {
  library : bool; shm : bool; broker_proto : bool; zmq_frame : bool; script_api : bool;
  script_engine : bool; config : bool; build_id_ : bool;
}.

Record AbiCheckResult := mkCheck {
  compatible : bool;
  message : string;
  major_mismatch : MismatchFlags;
  minor_mismatch : MismatchFlags;
}.

Inductive AbiPeerVerdictKind := Ok | BuildOnly | MinorMismatch | MajorMismatch.

Record AbiPeerVerdict := mkVerdict {
  kind : AbiPeerVerdictKind;
  major_axes : string;
  minor_axes : string;
}.

Section local.
(** [platform::get_version_*] and [PYLABHUB_BUILD_ID]. *)
Context (lib_version : Z * Z * Z) (build_id : option string).

Definition current : ComponentVersions :=
  mkVersions (lib_version.1.1 mod 2 ^ 16) (lib_version.1.2 mod 2 ^ 16) (lib_version.2 mod 2 ^ 16)
    kShmMajor kShmMinor kBrokerProtoMajor kBrokerProtoMinor kZmqFrameMajor kZmqFrameMinor
    kScriptApiMajor kScriptApiMinor kScriptEngineMajor kScriptEngineMinor kConfigMajor kConfigMinor.

(** [remote_build_id != nullptr] and it is not this library's. *)
Definition build_id_differs (remote_build_id : option string) : bool :=
  match remote_build_id with
  | None => false
  | Some b => match build_id with None => true | Some cur => negb (b =s cur) end
  end.

Definition major_note (name : string) (rem loc : Z) : string :=
  if rem =? loc then "" else name +:+ " major " +:+ pretty rem +:+ " != " +:+ pretty loc +:+ "; ".

(** [pop_back] when the last character is a space. *)
Fixpoint trim_trailing_space (s : string) : string :=
  match s with
  | EmptyString => EmptyString
  | String c EmptyString => if bool_decide (c = " "%char) then EmptyString else s
  | String c rest => String c (trim_trailing_space rest)
  end.

Definition compute_verdict (remote : ComponentVersions) (remote_build_id : option string) :
    AbiCheckResult :=
  let cur := current in
  let ne (f : ComponentVersions → Z) := negb (f remote =? f cur) in
  let majors := mkFlags (ne library_major) (ne shm_major) (ne broker_proto_major)
    (ne zmq_frame_major) (ne script_api_major) (ne script_engine_major) (ne config_major)
    (build_id_differs remote_build_id) in
  let minors := mkFlags (ne library_minor) (ne shm_minor) (ne broker_proto_minor)
    (ne zmq_frame_minor) (ne script_api_minor) (ne script_engine_minor) (ne config_minor) false in
  let ok := negb (library majors || shm majors || broker_proto majors || zmq_frame majors ||
                  script_api majors || script_engine majors || config majors || build_id_ majors) in
  let note name f := major_note name (f remote) (f cur) in
  let notes := note "library" library_major +:+ note "shm" shm_major +:+
    note "broker_proto" broker_proto_major +:+ note "zmq_frame" zmq_frame_major +:+
    note "script_api" script_api_major +:+ note "script_engine" script_engine_major +:+
    note "config" config_major +:+
    (if build_id_differs remote_build_id
     then "build_id " +:+ default "" remote_build_id +:+ " != " +:+
          default "(library has no build_id)" build_id +:+ "; "
     else "") in
  mkCheck ok (if ok && str_empty notes then "ABI OK" else trim_trailing_space notes) majors minors.

Definition verify_peer_versions (peer : ComponentVersions) (peer_build_id : option string) :
    AbiCheckResult := compute_verdict peer peer_build_id.
End local.

(** Comma-separated names of the flags that are set, in order. *)
Definition append (dst : string) (flag : bool) (name : string) : string :=
  if flag then (if str_empty dst then "" else dst +:+ ",") +:+ name else dst.

Definition axes_of (f : MismatchFlags) : string :=
  append (append (append (append (append (append (append (append ""
    (library f) "library") (shm f) "shm") (broker_proto f) "broker_proto")
    (zmq_frame f) "zmq_frame") (script_api f) "script_api") (script_engine f) "script_engine")
    (config f) "config") (build_id_ f) "build_id".

Definition only_build_id (f : MismatchFlags) : bool :=
  build_id_ f && negb (library f) && negb (shm f) && negb (broker_proto f) && negb (zmq_frame f) &&
  negb (script_api f) && negb (script_engine f) && negb (config f).

Definition classify_peer_verdict (v : AbiCheckResult) : AbiPeerVerdict :=
  let majors := axes_of (major_mismatch v) in
  let m := minor_mismatch v in
  let minors := axes_of (mkFlags (library m) (shm m) (broker_proto m) (zmq_frame m) (script_api m)
                           (script_engine m) (config m) false) in
  let k :=
    if negb (compatible v) then
      if only_build_id (major_mismatch v)
      then if str_empty minors then BuildOnly else MinorMismatch
      else MajorMismatch
    else if negb (str_empty minors) then MinorMismatch else Ok in
  mkVerdict k majors minors.

(** ** On the wire *)

Definition to_json_object (v : ComponentVersions) : json :=
  obj [("library_major", JInt (library_major v)); ("library_minor", JInt (library_minor v));
       ("library_rolling", JInt (library_rolling v)); ("shm_major", JInt (shm_major v));
       ("shm_minor", JInt (shm_minor v)); ("broker_proto_major", JInt (broker_proto_major v));
       ("broker_proto_minor", JInt (broker_proto_minor v));
       ("zmq_frame_major", JInt (zmq_frame_major v)); ("zmq_frame_minor", JInt (zmq_frame_minor v));
       ("script_api_major", JInt (script_api_major v));
       ("script_api_minor", JInt (script_api_minor v));
       ("script_engine_major", JInt (script_engine_major v));
       ("script_engine_minor", JInt (script_engine_minor v));
       ("config_major", JInt (config_major v)); ("config_minor", JInt (config_minor v))].

(** A required unsigned axis no larger than [max]; [None] is the
    [invalid_argument] it throws. *)
Definition req_axis (max : Z) (j : json) (key : string) : option Z :=
  match json_get key j with
  | Some (JInt raw) => if (0 <=? raw) && (raw <=? max) then Some raw else None
  | _ => None
  end.

Definition req_axis_u8 : json → string → option Z := req_axis 255.
Definition req_axis_u16 : json → string → option Z := req_axis 65535.

Definition from_json_object (j : json) : option ComponentVersions :=
  if negb (is_object j) then None else
  a ← req_axis_u16 j "library_major"; b ← req_axis_u16 j "library_minor";
  c ← req_axis_u16 j "library_rolling";
  d ← req_axis_u8 j "shm_major"; e ← req_axis_u8 j "shm_minor";
  f ← req_axis_u8 j "broker_proto_major"; g ← req_axis_u8 j "broker_proto_minor";
  h ← req_axis_u8 j "zmq_frame_major"; i ← req_axis_u8 j "zmq_frame_minor";
  k ← req_axis_u8 j "script_api_major"; l ← req_axis_u8 j "script_api_minor";
  m ← req_axis_u8 j "script_engine_major"; n ← req_axis_u8 j "script_engine_minor";
  o ← req_axis_u8 j "config_major"; p ← req_axis_u8 j "config_minor";
  Some (mkVersions a b c d e f g h i k l m n o p).

(** ** Facts *)

Definition same_majors (a b : ComponentVersions) : Prop :=
  library_major a = library_major b ∧ shm_major a = shm_major b ∧
  broker_proto_major a = broker_proto_major b ∧ zmq_frame_major a = zmq_frame_major b ∧
  script_api_major a = script_api_major b ∧ script_engine_major a = script_engine_major b ∧
  config_major a = config_major b.

Definition any_axis (f : MismatchFlags) : bool :=
  library f || shm f || broker_proto f || zmq_frame f || script_api f || script_engine f || config f.

Lemma kind_major v : compatible v = negb (any_axis (major_mismatch v) || build_id_ (major_mismatch v)) →
  kind (classify_peer_verdict v) = MajorMismatch ↔ any_axis (major_mismatch v) = true.
Proof.
  destruct v as [ok msg [[] [] [] [] [] [] [] []] minors]; unfold any_axis, only_build_id; cbn;
    intros ->; cbn; unfold only_build_id; cbn; try (split; done); case_match; by split.
Qed.

(** Only a major axis makes the verdict a major mismatch: neither minor
    numbers nor the build id do. *)
Lemma major_verdict lib bid peer peer_bid :
  kind (classify_peer_verdict (verify_peer_versions lib bid peer peer_bid)) = MajorMismatch ↔
  ¬ same_majors peer (current lib).
Proof.
  rewrite kind_major; [|by unfold any_axis]. unfold any_axis, same_majors. cbn -[current].
  rewrite !orb_true_iff, !negb_true_iff, !Z.eqb_neq. destruct (current lib). cbn. lia.
Qed.

Lemma req_axis_ok max j key x : json_get key j = Some (JInt x) → 0 ≤ x ≤ max → req_axis max j key = Some x.
Proof.
  intros Hg Hx. unfold req_axis. rewrite Hg.
  by replace ((0 <=? x) && (x <=? max)) with true by (symmetry; apply andb_true_iff; split; apply Z.leb_le; lia).
Qed.

(** The envelope a process sends is read back unchanged. *)
Lemma from_to_json v :
  Forall (λ x, 0 ≤ x ≤ 65535) [library_major v; library_minor v; library_rolling v] →
  Forall (λ x, 0 ≤ x ≤ 255) [shm_major v; shm_minor v; broker_proto_major v; broker_proto_minor v;
    zmq_frame_major v; zmq_frame_minor v; script_api_major v; script_api_minor v;
    script_engine_major v; script_engine_minor v; config_major v; config_minor v] →
  from_json_object (to_json_object v) = Some v.
Proof.
  rewrite !Forall_cons. intros. destruct v. cbn in *. unfold from_json_object.
  change (negb (is_object (to_json_object _))) with false. cbv iota. unfold req_axis_u16, req_axis_u8.
  repeat (erewrite req_axis_ok by (reflexivity || (cbn; lia)); cbn [mbind option_bind]).
  done.
Qed.

End VersionRegistry.
