(* ===== verification/NetAddress.v ===== *)
(** * TCP endpoints

    Models [src/include/utils/net_address.hpp].  [inet_pton] belongs to the
    operating system and is a parameter, for IPv4 and for IPv6. *)

From stdpp Require Import pretty.
From Stdlib Require Import Ascii.
From S2P Require Import Prelude.

Module NetAddress.

Inductive AddressType := IPv4 | IPv6 | Hostname | Invalid.

#[export] Instance AddressType_eq_dec : EqDecision AddressType.
Proof. solve_decision. Defined.

Record EndpointValidation := mkEndpoint {
  type_ : AddressType; host : string; port : Z; error : string;
}.

Definition ok (v : EndpointValidation) : bool := bool_decide (type_ v ≠ Invalid).
Definition is_network_exposed (v : EndpointValidation) : bool :=
  (host v =s "0.0.0.0") || (host v =s "::") || (host v =s "0:0:0:0:0:0:0:0").

(** ** Searching *)

(** [s.find(c)] and [s.rfind(c)]. *)
Fixpoint find_char (c : ascii) (s : string) : option nat :=
  match s with
  | EmptyString => None
  | String a rest => if bool_decide (a = c) then Some 0%nat else S <$> find_char c rest
  end.

Fixpoint rfind_char (c : ascii) (s : string) : option nat :=
  match s with
  | EmptyString => None
  | String a rest =>
      match rfind_char c rest with
      | Some n => Some (S n)
      | None => if bool_decide (a = c) then Some 0%nat else None
      end
  end.

Fixpoint drop_chars (n : nat) (s : string) : string :=
  match n, s with
  | O, _ => s
  | S n, String _ rest => drop_chars n rest
  | S _, EmptyString => EmptyString
  end.

Fixpoint take_chars (n : nat) (s : string) : string :=
  match n, s with
  | S n, String a rest => String a (take_chars n rest)
  | _, _ => EmptyString
  end.

Definition starts_with (prefix s : string) : bool :=
  take_chars (String.length prefix) s =s prefix.

(** What [c_str()] shows of a [std::string]: up to the first NUL. *)
Fixpoint c_str (s : string) : string :=
  match s with
  | EmptyString => EmptyString
  | String a rest => if bool_decide (a = "000"%char) then EmptyString else String a (c_str rest)
  end.

(** ** [std::strtol] in base 10 *)

Definition chr_code (c : ascii) : Z := Z.of_N (N_of_ascii c).
Definition is_space (c : ascii) : bool := (chr_code c =? 32) || ((9 <=? chr_code c) && (chr_code c <=? 13)).
Definition is_digit (c : ascii) : bool := (48 <=? chr_code c) && (chr_code c <=? 57).

Fixpoint skip_spaces (s : string) : string :=
  match s with
  | String c rest => if is_space c then skip_spaces rest else s
  | EmptyString => EmptyString
  end.

(** The digits at the front, their value, and what follows; [None] without a
    digit. *)
Fixpoint read_digits (acc : option Z) (s : string) : option Z * string :=
  match s with
  | String c rest =>
      if is_digit c then read_digits (Some (default 0 acc * 10 + (chr_code c - 48))) rest else (acc, s)
  | EmptyString => (acc, s)
  end.

Definition LONG_MAX : Z := 2 ^ 63 - 1.

(** [Some (value, end)], or [None] when nothing was converted
    ([end == str]). *)
Definition strtol (str : string) : option (Z * string) :=
  let s := skip_spaces str in
  let '(neg, s) := match s with
    | String "-" rest => (true, rest)
    | String "+" rest => (false, rest)
    | _ => (false, s)
    end in
  match read_digits None s with
  | (None, _) => None
  | (Some v, rest) => Some (if neg then Z.max (- v) (- LONG_MAX - 1) else Z.min v LONG_MAX, rest)
  end.

(** ** Host names (RFC 1123) *)

Definition label_char (c : ascii) : bool :=
  is_digit c || ((97 <=? chr_code c) && (chr_code c <=? 122)) ||
  ((65 <=? chr_code c) && (chr_code c <=? 90)) || (chr_code c =? 45).

Definition is_hyphen (c : option ascii) : bool := bool_decide (c = Some "-"%char).

Fixpoint first_bad (s : string) : option ascii :=
  match s with
  | EmptyString => None
  | String c rest => if label_char c then first_bad rest else Some c
  end.

(** The error of one label; [""] when it is fine. *)
Definition check_label (label : string) : string :=
  let n := String.length label in
  if bool_decide (n = 0 ∨ 63 < n)%nat then "label length must be 1-63 chars"
  else if is_hyphen (String.get 0 label) || is_hyphen (String.get (n - 1) label)
  then "label must not start or end with hyphen"
  else match first_bad label with
       | Some c => "invalid character '" +:+ String c EmptyString +:+ "' in hostname"
       | None => ""
       end.

Fixpoint labels (s : string) : list string :=
  match s with
  | EmptyString => [""]
  | String c rest =>
      if bool_decide (c = "."%char) then "" :: labels rest
      else match labels rest with
           | l :: ls => String c l :: ls
           | [] => [String c EmptyString]
           end
  end.

(** The labels in order, up to the first that is not fine. *)
Fixpoint check_labels (ls : list string) : string :=
  match ls with
  | [] => ""
  | l :: rest => if str_empty (check_label l) then check_labels rest else check_label l
  end.

Section validate.
Context (inet_pton4 inet_pton6 : string → bool).

Definition fail (error : string) : EndpointValidation := mkEndpoint Invalid "" 0 error.

(** Host and port of what follows [tcp://]. *)
Definition split_hostport (endpoint hostport : string) : string + (string * string) :=
  match hostport with
  | String "[" _ =>
      match find_char "]" hostport with
      | None => inl ("IPv6 address missing closing ']' — got '" +:+ endpoint +:+ "'")
      | Some e =>
          match drop_chars (e + 1) hostport with
          | String ":" port_str => inr (take_chars (e - 1) (drop_chars 1 hostport), port_str)
          | _ => inl ("expected ':port' after ']' — got '" +:+ endpoint +:+ "'")
          end
      end
  | _ =>
      let bad := inl ("must be 'tcp://<host>:<port>' — got '" +:+ endpoint +:+ "'") in
      match rfind_char ":" hostport with
      | None => bad
      | Some colon =>
          if bool_decide (colon = 0 ∨ colon = String.length hostport - 1)%nat then bad
          else inr (take_chars colon hostport, drop_chars (colon + 1) hostport)
      end
  end.

Definition validate_port (port_str : string) : option Z :=
  match strtol (c_str port_str) with
  | Some (v, EmptyString) => if (0 <=? v) && (v <=? 65535) then Some v else None
  | _ => None
  end.

Definition validate_host (host_str : string) (port_val : Z) : EndpointValidation :=
  if inet_pton4 (c_str host_str) then mkEndpoint IPv4 host_str port_val ""
  else if inet_pton6 (c_str host_str) then mkEndpoint IPv6 host_str port_val ""
  else if bool_decide (253 < String.length host_str)%nat
  then fail ("hostname exceeds 253 characters — got '" +:+ host_str +:+ "'")
  else let e := check_labels (labels host_str) in
       if str_empty e then mkEndpoint Hostname host_str port_val ""
       else fail ("invalid host '" +:+ host_str +:+ "': " +:+ e).

Definition validate_tcp_endpoint (endpoint : string) : EndpointValidation :=
  if negb (starts_with "tcp://" endpoint)
  then fail ("endpoint must start with 'tcp://' — got '" +:+ endpoint +:+ "'")
  else match split_hostport endpoint (drop_chars 6 endpoint) with
       | inl e => fail e
       | inr (host_str, port_str) =>
           if str_empty host_str then fail ("host is empty — got '" +:+ endpoint +:+ "'")
           else match validate_port port_str with
                | None => fail ("port must be 0-65535 — got '" +:+ port_str +:+ "'")
                | Some port_val => validate_host host_str port_val
                end
       end.
End validate.

(** ** What an accepted endpoint is *)

Lemma validate_port_range s v : validate_port s = Some v → 0 ≤ v ≤ 65535.
Proof. unfold validate_port. repeat case_match; naive_solver lia. Qed.

(** An accepted endpoint has the prefix, a host that is not empty and a port
    of 16 bits. *)
Lemma accepted_endpoint v4 v6 s :
  ok (validate_tcp_endpoint v4 v6 s) = true →
  starts_with "tcp://" s = true ∧ host (validate_tcp_endpoint v4 v6 s) ≠ "" ∧
  0 ≤ port (validate_tcp_endpoint v4 v6 s) ≤ 65535.
Proof.
  unfold validate_tcp_endpoint. destruct (starts_with "tcp://" s); [|done]. cbn [negb].
  destruct (split_hostport s (drop_chars 6 s)) as [|[h p]]; [done|].
  destruct (str_empty h) eqn:Hh; [done|]. apply str_empty_false in Hh.
  destruct (validate_port p) as [v|] eqn:Hp; [|done]. apply validate_port_range in Hp.
  unfold validate_host. repeat case_match; try done; intros _; (split_and!; [done|done|cbn; lia..]).
Qed.

End NetAddress.
