(* ===== verification/Broker.v ===== *)
(** * The broker: state, effects and helpers

    Models the parts of [src/utils/ipc/broker_service.cpp] that its handlers
    share: the deferred attach queue and its drains, the notifications, the
    replies.  A handler is a computation [B A]: it reads the clocks, may throw,
    transforms the broker's state and appends to the list of outputs, in
    order.  What has been done before an exception stays done.

    An output [Send] is a call of [send_reply] or [send_to_identity] with its
    arguments; [frames] is what that call puts on the socket, nothing when the
    envelope cannot be built (the source logs and drops it). *)

From stdpp Require Import pretty.
From Stdlib Require Import Ascii.
From S2P Require Import Prelude.
From S2P Require Import Json.
From S2P Require Import Ledger.
From S2P Require Import Entries.
From S2P Require Import HubCore.
From S2P Require Import HubOps.
From S2P Require Import Wire.
From S2P Require Import AdmissionGates.
Import Json Entries HubCore HubOps.

Module Broker.

(** ** What the source takes from outside *)

(** An exception that reaches a handler's caller, as its [std::exception].
    The text of [what()] is the library's. *)
Inductive exn :=
  | type_error (wanted : string) (got : json)
  | std_exception (what : string).

Class External := mkExternal {
  blake2b : string → string;
  dump : json → string;
  parse : string → option json;
  (** The reason of a [json::parse_error]. *)
  parse_error_what : string → string;
  type_error_what : string → json → string;
  inet_pton4 : string → bool;
  inet_pton6 : string → bool;
  (** The integer a [double] with these bits is cast to. *)
  double_to_u64 : Z → Z;
  formatted_time : Z → string;
  (** The members [collect_shm_info] takes from the channel's shared memory
      block; [None] when the block cannot be opened. *)
  datablock_get_metrics : string → option (list (string * json));
  (** [platform::get_version_*] and [PYLABHUB_BUILD_ID]. *)
  lib_version : Z * Z * Z;
  build_id : option string;
}.

Definition what `{External} (e : exn) : string :=
  match e with type_error wanted got => type_error_what wanted got | std_exception w => w end.

Inductive ChecksumRepairPolicy := RepairNone | NotifyOnly.

Record FederationPeer := mkFederationPeer {
  fp_hub_uid : string; fp_broker_endpoint : string; fp_pubkey_z85 : string; fp_channels : list string;
}.

(** [BrokerService::Config]; durations in milliseconds. *)
Class Config := mkConfig {
  strict_abi_mismatch : bool;
  heartbeat_interval : Z;
  ready_miss_heartbeats : Z;
  pending_miss_heartbeats : Z;
  ready_timeout_override : option Z;
  pending_timeout_override : option Z;
  producer_apply_wait_ms : Z;
  checksum_repair_policy : ChecksumRepairPolicy;
  known_roles : list AdmissionGates.KnownRole;
  self_hub_uid : string;
  (** Generated when the broker starts; empty when that failed. *)
  broker_observer_pubkey_z85 : string;
  peers : list FederationPeer;
  (** Which callbacks are configured. *)
  on_processing_error : bool;
  on_hub_connected : bool;
  on_hub_disconnected : bool;
  on_hub_message : bool;
}.

Definition effective_ready_timeout `{Config} : Z :=
  let v := default (heartbeat_interval * ready_miss_heartbeats) ready_timeout_override in
  if v <? heartbeat_interval then heartbeat_interval else v.

Definition effective_pending_timeout `{Config} : Z :=
  let v := default (heartbeat_interval * pending_miss_heartbeats) pending_timeout_override in
  if v <? heartbeat_interval then heartbeat_interval else v.

Definition effective_producer_apply_wait `{Config} : Z :=
  if producer_apply_wait_ms <? heartbeat_interval then heartbeat_interval else producer_apply_wait_ms.

(** ** State and outputs *)

Record PendingAttachEntry := mkPending {
  router_identity : string;
  pa_correlation_id : string;
  consumer_pubkey : string;
  consumer_role_uid : string;
  target_version : Z;
  enqueued_at : Z;
}.

Record BrokerState := mkBroker {
  hub : HubImpl;
  pending_attach_queue_ : gmap string (gmap string (list PendingAttachEntry));
  hub_connected_notified_ : gset string;
  (** Message ids with their expiry, oldest first; and the same ids. *)
  relay_dedup_queue_ : list (string * Z);
  relay_dedup_set_ : gset string;
  relay_seq_ : Z;
  (** The states the hub has been in, latest first: what readers of the hub on
      other threads may have seen.  No handler reads it. *)
  seen : list HubImpl;
}.

#[export] Instance eta_BrokerState : Eta BrokerState := λ b,
  mkBroker (hub b) (pending_attach_queue_ b) (hub_connected_notified_ b) (relay_dedup_queue_ b)
    (relay_dedup_set_ b) (relay_seq_ b) (seen b).

Definition initial_broker (h : HubImpl) : BrokerState := mkBroker h ∅ ∅ [] ∅ 0 [h].

(** The hub is now in state [h]. *)
Definition enter (h : HubImpl) (b : BrokerState) : BrokerState :=
  b <| hub := h |> <| seen ::= cons h |>.

Record ProcessingError := mkProcessingError {
  err_msg_type : string; error_kind : string; err_detail : string; peer_identity : option string;
}.

Inductive Output :=
  | Send (identity msg_type : string) (body : json)
  | SendFrames (frames : list string)
  | Deliver (d : delivery)
  | OnProcessingError (e : ProcessingError)
  | OnHubConnected (hub_uid : string)
  | OnHubDisconnected (hub_uid : string)
  | OnHubMessage (channel payload sender_uid : string).

(** ** The effect of a handler *)

Definition B (A : Type) : Type := Env → BrokerState → (exn + A) * BrokerState * list Output.

#[export] Instance B_ret : MRet B := λ A a _ b, (inr a, b, []).
#[export] Instance B_bind : MBind B := λ A A' f m env b,
  match m env b with
  | (inl e, b1, o1) => (inl e, b1, o1)
  | (inr a, b1, o1) => let '(r, b2, o2) := f a env b1 in (r, b2, o1 ++ o2)
  end.

Definition throw {A} (e : exn) : B A := λ _ b, (inl e, b, []).
(** The computation never throws: what it would have thrown is a value. *)
Definition try_ {A} (m : B A) : B (exn + A) := λ env b, let '(r, b1, o) := m env b in (inr r, b1, o).
Definition emit (o : Output) : B unit := λ _ b, (inr tt, b, [o]).
Definition asks : B Env := λ env b, (inr env, b, []).
Definition hubs {A} (f : HubImpl → A) : B A := λ _ b, (inr (f (hub b)), b, []).
Definition brokers {A} (f : BrokerState → A) : B A := λ _ b, (inr (f b), b, []).
Definition modify_broker (f : BrokerState → BrokerState) : B unit := λ _ b, (inr tt, f b, []).
Definition queues : B (gmap string (gmap string (list PendingAttachEntry))) :=
  λ _ b, (inr (pending_attach_queue_ b), b, []).
Definition set_queues (q : gmap string (gmap string (list PendingAttachEntry))) : B unit :=
  λ _ b, (inr tt, b <| pending_attach_queue_ := q |>, []).

(** A call into the hub state. *)
Definition lift {A} (m : M A) : B A := λ env b,
  let '(a, h, t) := m env (hub b) in (inr a, enter h b, Deliver <$> t).

Fixpoint each {A} (f : A → B unit) (l : list A) : B unit :=
  match l with
  | [] => mret tt
  | x :: l => _ ← f x; each f l
  end.

Definition result {A} (m : B A) env b : exn + A := (m env b).1.1.
Definition exec {A} (m : B A) env b : BrokerState := (m env b).1.2.
Definition outputs {A} (m : B A) env b : list Output := (m env b).2.

(** A handler that answers early: [inl] is its answer. *)
Definition H (A : Type) : Type := B (json + A).

#[export] Instance H_ret : MRet H := λ A a, (mret (inr a) : B _).
#[export] Instance H_bind : MBind H := λ A A' f m,
  ((m : B _) ≫= λ r, match r with inl resp => mret (inl resp) | inr a => f a end : B _).

Definition reply {A} (resp : json) : H A := (mret (inl resp) : B _).
Definition go {A} (m : B A) : H A := (a ← m; mret (inr a) : B _).
Definition guard_ (bad : bool) (resp : json) : H unit := if bad then reply resp else mret tt.

(** The handler as its caller sees it. *)
Definition answered (m : H json) : B json :=
  ((m : B _) ≫= λ r, mret (match r with inl resp => resp | inr resp => resp end) : B _).

(** ** Reading a request *)

(** [req.value(key, "")] *)
Definition value_str (key : string) (req : json) : B string :=
  match req with
  | JObj _ =>
      match json_get key req with
      | None => mret ""
      | Some (JStr s) => mret s
      | Some v => throw (type_error "string" v)
      end
  | v => throw (type_error "object" v)
  end.

(** [req.value(key, uint64_t{0})]: any number converts. *)
Definition value_u64 `{External} (key : string) (req : json) : B Z :=
  match req with
  | JObj _ =>
      match json_get key req with
      | None => mret 0
      | Some (JInt z) => mret (u64 z)
      | Some (JFloat bits) => mret (double_to_u64 bits)
      | Some v => throw (type_error "number" v)
      end
  | v => throw (type_error "object" v)
  end.

(** [req.value(key, dflt)] *)
Definition value_str_or (dflt key : string) (req : json) : B string :=
  match req with
  | JObj _ => match json_get key req with None => mret dflt | Some _ => value_str key req end
  | v => throw (type_error "object" v)
  end.

(** [req.value(key, int)] for a number that is only logged. *)
Definition value_logged_int (key : string) (req : json) : B unit :=
  match req with
  | JObj _ =>
      match json_get key req with
      | None | Some (JInt _) | Some (JBool _) | Some (JFloat _) => mret tt
      | Some v => throw (type_error "number" v)
      end
  | v => throw (type_error "object" v)
  end.

(** [value(key, "")] on a body the broker built itself, whose member is a
    string. *)
Definition str_of (key : string) (body : json) : string :=
  match json_get key body with Some (JStr s) => s | _ => "" end.

Definition make_error (correlation_id error_code message : string) : json :=
  obj ([("status", JStr "error"); ("error_code", JStr error_code); ("message", JStr message)] ++
       (if str_empty correlation_id then [] else [("correlation_id", JStr correlation_id)])).

(** [if (!corr_id.empty()) resp["correlation_id"] = corr_id;] *)
Definition with_corr (corr_id : string) (resp : json) : json :=
  if str_empty corr_id then resp else put "correlation_id" (JStr corr_id) resp.

(** A double quote. *)
Definition dq : string := String (Ascii.ascii_of_nat 34) EmptyString.

(** ** Sending *)

Definition send_to_identity (identity msg_type : string) (body : json) : B unit :=
  emit (Send identity msg_type body).

Definition send_reply (identity msg_type_ack : string) (body : json) : B unit :=
  emit (Send identity msg_type_ack body).

(** What an output puts on the socket.  For [Send], the envelope around the
    body, with the body's correlation id. *)
Definition frames `{External} (o : Output) : option (list string) :=
  match o with
  | Send identity msg_type body =>
      Wire.build_router_send blake2b dump identity msg_type (str_of "correlation_id" body) body
  | SendFrames fs => Some fs
  | _ => None
  end.

Definition heartbeat_ack_block `{Config} : json :=
  obj [("heartbeat_interval_ms", JInt heartbeat_interval);
       ("ready_miss_heartbeats", JInt ready_miss_heartbeats);
       ("pending_miss_heartbeats", JInt pending_miss_heartbeats)].

(** ** Notifications *)

Definition send_closing_notify (channel_name : string) (entry : ChannelEntry) (reason : string) : B unit :=
  let body := obj [("channel_name", JStr channel_name); ("reason", JStr reason)] in
  let notify identity :=
    if str_empty identity then mret tt
    else send_to_identity identity "CHANNEL_CLOSING_NOTIFY" body in
  _ ← each notify (map c_zmq_identity (consumers entry));
  each notify (map p_zmq_identity (producers entry)).

(** Who is told about a change of the channel's peers: its binding side. *)
Definition binding_identities (ch : ChannelEntry) : list string :=
  match topology ch with
  | FanIn => map c_zmq_identity (consumers ch)
  | _ => map p_zmq_identity (producers ch)
  end.

Definition fire_channel_auth_changed_notify (channel_name phase role_uid role_type : string) : B unit :=
  ch ← hubs (channel channel_name);
  match ch with
  | None => mret tt
  | Some ch =>
      access ← hubs (channel_access channel_name);
      let version := match access with Some a => Ledger.current_version (ledger a) | None => 0 end in
      let notify := obj [("channel_name", JStr channel_name); ("channel_version", JInt version);
                         ("role_uid", JStr role_uid); ("role_type", JStr role_type);
                         ("phase", JStr phase)] in
      each (λ identity, if str_empty identity then mret tt
                        else send_to_identity identity "CHANNEL_AUTH_CHANGED_NOTIFY" notify)
        (binding_identities ch)
  end.

Definition send_band_leave_notify (band_name role_uid role_name reason : string) : B unit :=
  if str_empty role_uid || str_empty band_name then mret tt
  else
    remaining ← hubs (band band_name);
    match remaining with
    | None => mret tt
    | Some remaining =>
        let notify := obj [("band", JStr band_name); ("role_uid", JStr role_uid);
                           ("role_name", JStr role_name); ("reason", JStr reason)] in
        each (λ m, if str_empty (bm_zmq_identity m) then mret tt
                   else send_to_identity (bm_zmq_identity m) "BAND_LEAVE_NOTIFY" notify)
          (members remaining)
    end.

(** ** The deferred attach queue *)

(** The answer to a deferred attach request. *)
Definition attach_reply (status reason channel_name producer_role_uid : string) (e : PendingAttachEntry) : json :=
  with_corr (pa_correlation_id e)
    (obj ([("status", JStr status)] ++ (if str_empty reason then [] else [("reason", JStr reason)]) ++
          [("channel_name", JStr channel_name); ("producer_role_uid", JStr producer_role_uid)])).

Definition answer (status reason channel_name producer_role_uid : string) (e : PendingAttachEntry) : B unit :=
  send_to_identity (router_identity e) "CONSUMER_ATTACH_ACK_ZMQ"
    (attach_reply status reason channel_name producer_role_uid e).

(** The entries at the front that satisfy [P], and the rest. *)
Fixpoint pop_while {A} (P : A → bool) (l : list A) : list A * list A :=
  match l with
  | x :: l' => if P x then let '(a, b) := pop_while P l' in (x :: a, b) else ([], l)
  | [] => ([], [])
  end.

(** The queue of one producer after a drain: it goes when it is empty, and its
    channel's map when that is empty. *)
Definition store_queue (channel_name producer_role_uid : string) (queue : list PendingAttachEntry)
    (by_producer : gmap string (list PendingAttachEntry))
    (q : gmap string (gmap string (list PendingAttachEntry))) :
    gmap string (gmap string (list PendingAttachEntry)) :=
  let by_producer := match queue with
                     | [] => delete producer_role_uid by_producer
                     | _ => <[producer_role_uid := queue]> by_producer
                     end in
  if bool_decide (by_producer = ∅) then delete channel_name q else <[channel_name := by_producer]> q.

Definition drain_pending_attach_queue_for_producer_confirmed_
    (channel_name producer_role_uid : string) (new_confirmed : Z) : B nat :=
  q ← queues;
  match q !! channel_name with
  | None => mret 0%nat
  | Some by_producer =>
      match by_producer !! producer_role_uid with
      | None => mret 0%nat
      | Some queue =>
          let '(drained, queue) := pop_while (λ e, target_version e <=? new_confirmed) queue in
          _ ← each (answer "success" "" channel_name producer_role_uid) drained;
          _ ← set_queues (store_queue channel_name producer_role_uid queue by_producer q);
          mret (length drained)
      end
  end.

Definition drain_pending_attach_queue_for_producer_denied_
    (channel_name producer_role_uid reason : string) : B nat :=
  q ← queues;
  match q !! channel_name with
  | None => mret 0%nat
  | Some by_producer =>
      match by_producer !! producer_role_uid with
      | None => mret 0%nat
      | Some queue =>
          _ ← each (answer "denied" reason channel_name producer_role_uid) queue;
          _ ← set_queues (store_queue channel_name producer_role_uid [] by_producer q);
          mret (length queue)
      end
  end.

Definition drain_pending_attach_queue_for_channel_denied_ (channel_name reason : string) : B nat :=
  q ← queues;
  match q !! channel_name with
  | None => mret 0%nat
  | Some by_producer =>
      _ ← each (λ kv, each (answer "denied" reason channel_name kv.1) kv.2) (map_to_list by_producer);
      _ ← set_queues (delete channel_name q);
      mret (length (concat (map snd (map_to_list by_producer))))
  end.

(** One producer's queue in the timeout sweep. *)
Definition sweep_queue (now budget : Z) (channel_name producer_uid : string)
    (queue : list PendingAttachEntry) : B (list PendingAttachEntry) :=
  let '(drained, queue) := pop_while (λ e, budget <? now - enqueued_at e) queue in
  _ ← each (answer "timeout" "producer_did_not_confirm_within_budget" channel_name producer_uid) drained;
  mret queue.

(** The queues of one channel, in the order of the map. *)
Fixpoint sweep_producers (now budget : Z) (channel_name : string)
    (l : list (string * list PendingAttachEntry)) : B (gmap string (list PendingAttachEntry)) :=
  match l with
  | [] => mret ∅
  | (uid, queue) :: l =>
      queue ← sweep_queue now budget channel_name uid queue;
      rest ← sweep_producers now budget channel_name l;
      mret (match queue with [] => rest | _ => <[uid := queue]> rest end)
  end.

Fixpoint sweep_channels (now budget : Z) (l : list (string * gmap string (list PendingAttachEntry))) :
    B (gmap string (gmap string (list PendingAttachEntry))) :=
  match l with
  | [] => mret ∅
  | (ch, by_producer) :: l =>
      by_producer ← sweep_producers now budget ch (map_to_list by_producer);
      rest ← sweep_channels now budget l;
      mret (if bool_decide (by_producer = ∅) then rest else <[ch := by_producer]> rest)
  end.

Definition queue_length (q : gmap string (gmap string (list PendingAttachEntry))) : nat :=
  length (concat (map (λ kv, concat (map snd (map_to_list kv.2))) (map_to_list q))).

(** [now] and [budget] in nanoseconds; the result counts the answers sent. *)
Definition sweep_pending_attach_timeouts_ (now budget : Z) : B nat :=
  q ← queues;
  q' ← sweep_channels now budget (map_to_list q);
  _ ← set_queues q';
  mret (queue_length q - queue_length q')%nat.

End Broker.
