(* ===== verification/BrokerLogic.v ===== *)
(** * Reasoning about the broker's handlers

    Two judgments on the computations of [Broker]: [keeps I m], the invariant
    [I] of the broker's state survives [m] whether it returns or throws, and
    [yields m φ], what [m] returns satisfies [φ].  Their rules follow the
    structure of a handler; [walk] applies them with the lemmas of a hint
    database for the operations. *)

From S2P Require Import Prelude.
From S2P Require Import Json.
From S2P Require Import Entries.
From S2P Require Import HubCore.
From S2P Require Import HubOps.
From S2P Require Import Broker.
Import Json Entries HubCore HubOps Broker.

Module BrokerLogic.

Implicit Types (b : BrokerState) (env : Env).

Definition keeps {A} (I : BrokerState → Prop) (m : B A) : Prop :=
  ∀ env b, I b → I (exec m env b).

Definition yields {A} (m : B A) (φ : A → Prop) : Prop :=
  ∀ env b a, result m env b = inr a → φ a.

(** From a state with [P], what [m] returns is in [Q]; an exception leaves [I]. *)
Definition hoare {A} (I P : BrokerState → Prop) (m : B A) (Q : A → BrokerState → Prop) : Prop :=
  ∀ env b, P b → match result m env b with
                 | inl _ => I (exec m env b)
                 | inr a => Q a (exec m env b)
                 end.

(** The computation does not throw. *)
Definition returns {A} (m : B A) : Prop := ∀ env b, ∃ a, result m env b = inr a.

(** ** Runs of composed computations *)

Lemma B_run_bind {A A'} (f : A → B A') (m : B A) env b :
  ((m : B A) ≫= f) env b =
  match result m env b with
  | inl e => (inl e, exec m env b, outputs m env b)
  | inr a => (result (f a) env (exec m env b), exec (f a) env (exec m env b),
              outputs m env b ++ outputs (f a) env (exec m env b))
  end.
Proof.
  unfold mbind, B_bind, result, exec, outputs. destruct (m env b) as [[[e|a] b1] o1]; cbn; [done|].
  by destruct (f a env b1) as [[r b2] o2].
Qed.

Lemma B_result_bind {A A'} (f : A → B A') (m : B A) env b :
  result ((m : B A) ≫= f) env b =
  match result m env b with inl e => inl e | inr a => result (f a) env (exec m env b) end.
Proof. unfold result at 1. rewrite B_run_bind. by destruct (result m env b). Qed.

Lemma B_exec_bind {A A'} (f : A → B A') (m : B A) env b :
  exec ((m : B A) ≫= f) env b =
  match result m env b with inl e => exec m env b | inr a => exec (f a) env (exec m env b) end.
Proof. unfold exec at 1. rewrite B_run_bind. by destruct (result m env b). Qed.

Lemma B_outputs_bind {A A'} (f : A → B A') (m : B A) env b :
  outputs ((m : B A) ≫= f) env b =
  outputs m env b ++
  match result m env b with inl e => [] | inr a => outputs (f a) env (exec m env b) end.
Proof. unfold outputs at 1. rewrite B_run_bind. destruct (result m env b); cbn; by rewrite ?app_nil_r. Qed.

(** A computation that only reads. *)
Lemma B_read {A A'} (f : A → B A') (m : B A) a env b :
  m env b = (inr a, b, []) → ((m : B A) ≫= f) env b = f a env b.
Proof.
  intros Hm. rewrite B_run_bind. unfold result, exec, outputs. rewrite Hm. cbn.
  by destruct (f a env b) as [[r b1] o].
Qed.

(** ** Invariants *)

Section keeps.
Context (I : BrokerState → Prop).

Lemma keeps_bind {A A'} (m : B A) (f : A → B A') :
  keeps I m → (∀ a, keeps I (f a)) → keeps I ((m : B A) ≫= f).
Proof.
  intros Hm Hf env b HI. rewrite B_exec_bind. specialize (Hm env b HI).
  destruct (result m env b); [done|by apply Hf].
Qed.

Lemma keeps_ret {A} (a : A) : keeps I (mret a : B A).
Proof. by intros env b HI. Qed.
Lemma keeps_throw {A} e : keeps I (throw e : B A).
Proof. by intros env b HI. Qed.
Lemma keeps_emit o : keeps I (emit o).
Proof. by intros env b HI. Qed.
Lemma keeps_asks : keeps I asks.
Proof. by intros env b HI. Qed.
Lemma keeps_hubs {A} (f : HubImpl → A) : keeps I (hubs f).
Proof. by intros env b HI. Qed.
Lemma keeps_brokers {A} (f : BrokerState → A) : keeps I (brokers f).
Proof. by intros env b HI. Qed.
Lemma keeps_queues : keeps I queues.
Proof. by intros env b HI. Qed.
Lemma keeps_modify f : (∀ b, I b → I (f b)) → keeps I (modify_broker f).
Proof. intros Hf env b HI. by apply Hf. Qed.

Lemma keeps_try {A} (m : B A) : keeps I m → keeps I (try_ m).
Proof.
  intros Hm env b HI. specialize (Hm env b HI). revert Hm. unfold exec, try_.
  by destruct (m env b) as [[r b1] o].
Qed.

Lemma keeps_each {A} (f : A → B unit) l : (∀ x, keeps I (f x)) → keeps I (each f l).
Proof. intros Hf. induction l as [|x l IH]; cbn [each]; [apply keeps_ret|]. by apply keeps_bind. Qed.

Lemma keeps_H_bind {A A'} (m : H A) (f : A → H A') :
  keeps I (m : B _) → (∀ a, keeps I (f a : B _)) → keeps I ((m ≫= f : H A') : B _).
Proof. intros Hm Hf. apply keeps_bind; [done|]. intros [r|a]; [apply keeps_ret|apply Hf]. Qed.
Lemma keeps_H_ret {A} (a : A) : keeps I ((mret a : H A) : B _).
Proof. by intros env b HI. Qed.
Lemma keeps_reply {A} r : keeps I ((reply r : H A) : B _).
Proof. by intros env b HI. Qed.
Lemma keeps_go {A} (m : B A) : keeps I m → keeps I ((go m : H A) : B _).
Proof. intros Hm. apply keeps_bind; [done|]. intros a. apply keeps_ret. Qed.
Lemma keeps_guard bad r : keeps I ((guard_ bad r : H unit) : B _).
Proof. unfold guard_. destruct bad; [apply keeps_reply|apply keeps_H_ret]. Qed.
Lemma keeps_answered (m : H json) : keeps I (m : B _) → keeps I (answered m).
Proof. intros Hm. apply keeps_bind; [done|]. intros [r|r]; apply keeps_ret. Qed.

Lemma keeps_value_str k req : keeps I (value_str k req).
Proof. unfold value_str. repeat case_match; apply keeps_ret || apply keeps_throw. Qed.
Lemma keeps_value_str_or d k req : keeps I (value_str_or d k req).
Proof. unfold value_str_or. repeat case_match; apply keeps_ret || apply keeps_throw || apply keeps_value_str. Qed.
Lemma keeps_value_u64 `{External} k req : keeps I (value_u64 k req).
Proof. unfold value_u64. repeat case_match; apply keeps_ret || apply keeps_throw. Qed.
Lemma keeps_value_logged_int k req : keeps I (value_logged_int k req).
Proof. unfold value_logged_int. repeat case_match; apply keeps_ret || apply keeps_throw. Qed.
End keeps.

(** ** Triples *)

Section hoare.
Context (I : BrokerState → Prop).

Lemma keeps_hoare {A} (m : B A) : keeps I m ↔ hoare I I m (λ _, I).
Proof.
  split; intros Hm env b HI; specialize (Hm env b HI); revert Hm; by destruct (result m env b).
Qed.

Lemma hoare_bind {A A'} P (R : A → BrokerState → Prop) Q (m : B A) (f : A → B A') :
  hoare I P m R → (∀ a, hoare I (R a) (f a) Q) → hoare I P ((m : B A) ≫= f) Q.
Proof.
  intros Hm Hf env b HP. rewrite B_result_bind, B_exec_bind. specialize (Hm env b HP).
  destruct (result m env b) as [e|a]; [done|]. by apply Hf.
Qed.

Lemma hoare_keeps_bind {A A'} Q (m : B A) (f : A → B A') :
  keeps I m → (∀ a, hoare I I (f a) Q) → hoare I I ((m : B A) ≫= f) Q.
Proof. intros Hm%keeps_hoare Hf. by eapply hoare_bind. Qed.

Lemma hoare_ret {A} (P : BrokerState → Prop) (Q : A → BrokerState → Prop) (a : A) :
  (∀ b, P b → Q a b) → hoare I P (mret a : B A) Q.
Proof. intros HQ env b HP. by apply HQ. Qed.

Lemma hoare_lift {A} (P : BrokerState → Prop) (Q : A → BrokerState → Prop) (m : M A) :
  (∀ env b, P b → Q (HubCore.result m env (hub b)) (enter (HubCore.exec m env (hub b)) b)) →
  hoare I P (lift m) Q.
Proof.
  intros HQ env b HP. specialize (HQ env b HP). revert HQ.
  unfold result, exec, lift, HubCore.result, HubCore.exec. by destruct (m env (hub b)) as [[a h] t].
Qed.

Lemma hoare_H_bind {A A'} P R Q (m : H A) (f : A → H A') :
  hoare I P (m : B _) R → (∀ r b, R (inl r) b → Q (inl r) b) →
  (∀ a, hoare I (R (inr a)) (f a : B _) Q) → hoare I P ((m ≫= f : H A') : B _) Q.
Proof.
  intros Hm Hr Hf. eapply hoare_bind; [done|]. intros [r|a]; [apply hoare_ret, Hr|apply Hf].
Qed.

Lemma hoare_keeps_H_bind {A A'} Q (m : H A) (f : A → H A') :
  keeps I (m : B _) → (∀ r b, I b → Q (inl r) b) →
  (∀ a, hoare I I (f a : B _) Q) → hoare I I ((m ≫= f : H A') : B _) Q.
Proof. intros Hm%keeps_hoare Hr Hf. by eapply hoare_H_bind. Qed.

Lemma hoare_go {A} P (Q : json + A → BrokerState → Prop) (m : B A) :
  hoare I P m (λ a, Q (inr a)) → hoare I P ((go m : H A) : B _) Q.
Proof. intros Hm. eapply hoare_bind; [done|]. intros a. by apply hoare_ret. Qed.

Lemma hoare_weaken {A} (P P' : BrokerState → Prop) (Q : A → BrokerState → Prop) (m : B A) :
  (∀ b, P b → P' b) → hoare I P' m Q → hoare I P m Q.
Proof. intros HP Hm env b H. by apply Hm, HP. Qed.
End hoare.

Create HintDb keeps discriminated.
#[export] Hint Constants Opaque : keeps.
#[export] Hint Resolve keeps_ret keeps_throw keeps_emit keeps_asks keeps_hubs keeps_brokers
  keeps_queues keeps_H_ret keeps_reply keeps_guard keeps_value_str keeps_value_str_or
  keeps_value_u64 keeps_value_logged_int : keeps.

(** One step into a handler; [db] closes the operations. *)
Ltac walk_step :=
  lazymatch goal with
  | |- ∀ _, _ => intro
  | |- keeps _ (let '(_, _) := ?p in _) => destruct p
  | |- keeps _ (let _ := _ in _) => cbv zeta
  | |- keeps _ (@mbind H _ _ _ _ _) => apply keeps_H_bind
  | |- keeps _ (@mbind B _ _ _ _ _) => apply keeps_bind
  | |- keeps _ (answered _) => apply keeps_answered
  | |- keeps _ (go _) => apply keeps_go
  | |- keeps _ (try_ _) => apply keeps_try
  | |- keeps _ (each _ _) => apply keeps_each
  | |- keeps _ (match ?x with _ => _ end) => destruct x
  end.
Tactic Notation "walk" := repeat first [solve [auto with keeps nocore] | walk_step].

(** ** Outputs *)

(** Every output of the computation satisfies [φ]. *)
Definition emits {A} (φ : Output → Prop) (m : B A) : Prop := ∀ env b, Forall φ (outputs m env b).

Section emits.
Context (φ : Output → Prop).

Lemma emits_bind {A A'} (m : B A) (f : A → B A') :
  emits φ m → (∀ a, emits φ (f a)) → emits φ ((m : B A) ≫= f).
Proof.
  intros Hm Hf env b. rewrite B_outputs_bind. apply Forall_app. split; [apply Hm|].
  destruct (result m env b); [constructor|apply Hf].
Qed.
Lemma emits_ret {A} (a : A) : emits φ (mret a : B A).
Proof. intros env b. constructor. Qed.
Lemma emits_emit o : φ o → emits φ (emit o).
Proof. intros Ho env b. by repeat constructor. Qed.
Lemma emits_lift {A} (m : M A) : (∀ d, φ (Deliver d)) → emits φ (lift m).
Proof.
  intros Hd env b. unfold outputs, lift. destruct (m env (hub b)) as [[a h] t]. cbn.
  apply Forall_fmap. induction t as [|d t IH]; constructor; [apply Hd|exact IH].
Qed.
Lemma emits_modify f : emits φ (modify_broker f).
Proof. intros env b. constructor. Qed.
Lemma emits_asks : emits φ asks.
Proof. intros env b. constructor. Qed.
Lemma emits_hubs {A} (f : HubImpl → A) : emits φ (hubs f).
Proof. intros env b. constructor. Qed.
Lemma emits_brokers {A} (f : BrokerState → A) : emits φ (brokers f).
Proof. intros env b. constructor. Qed.
Lemma emits_queues : emits φ queues.
Proof. intros env b. constructor. Qed.
Lemma emits_set_queues q : emits φ (set_queues q).
Proof. intros env b. constructor. Qed.
Lemma emits_value_str k req : emits φ (value_str k req).
Proof. intros env b. unfold value_str. repeat case_match; constructor. Qed.
Lemma emits_value_u64 `{External} k req : emits φ (value_u64 k req).
Proof. intros env b. unfold value_u64. repeat case_match; constructor. Qed.
Lemma emits_each {A} (f : A → B unit) l : (∀ x, emits φ (f x)) → emits φ (each f l).
Proof. intros Hf. induction l as [|x l IH]; cbn [each]; [apply emits_ret|]. by apply emits_bind. Qed.

Lemma emits_go {A} (m : B A) : emits φ m → emits φ ((go m : H A) : B _).
Proof. intros Hm. apply emits_bind; [done|]. intros a. apply emits_ret. Qed.
Lemma emits_H_bind {A A'} (m : H A) (f : A → H A') :
  emits φ (m : B _) → (∀ a, emits φ (f a : B _)) → emits φ ((m ≫= f : H A') : B _).
Proof. intros Hm Hf. apply emits_bind; [done|]. intros [r|a]; [apply emits_ret|apply Hf]. Qed.
Lemma emits_H_ret {A} (a : A) : emits φ ((mret a : H A) : B _).
Proof. intros env b. constructor. Qed.
Lemma emits_reply {A} r : emits φ ((reply r : H A) : B _).
Proof. intros env b. constructor. Qed.
Lemma emits_guard bad r : emits φ ((guard_ bad r : H unit) : B _).
Proof. intros env b. unfold guard_. destruct bad; constructor. Qed.
Lemma emits_answered (m : H json) : emits φ (m : B _) → emits φ (answered m).
Proof. intros Hm. apply emits_bind; [done|]. intros [r|r]; apply emits_ret. Qed.
End emits.

Create HintDb emits discriminated.
#[export] Hint Constants Opaque : emits.
#[export] Hint Resolve emits_ret emits_modify emits_asks emits_hubs emits_brokers emits_queues
  emits_set_queues emits_value_str emits_value_u64 emits_H_ret emits_reply emits_guard : emits.
#[export] Hint Extern 1 (emits _ (lift _)) => apply emits_lift; intros ?; reflexivity || exact I : emits.
#[export] Hint Extern 1 (emits _ (emit _)) => apply emits_emit; reflexivity || exact I : emits.
Ltac emits_step :=
  lazymatch goal with
  | |- ∀ _, _ => intro
  | |- emits _ (let '(_, _) := ?p in _) => destruct p
  | |- emits _ (let _ := _ in _) => cbv zeta
  | |- emits _ (@mbind H _ _ _ _ _) => apply emits_H_bind
  | |- emits _ (@mbind B _ _ _ _ _) => apply emits_bind
  | |- emits _ (answered _) => apply emits_answered
  | |- emits _ (go _) => apply emits_go
  | |- emits _ (each _ _) => apply emits_each
  | |- emits _ (match ?x with _ => _ end) => destruct x
  end.
Ltac emits_walk := repeat first [solve [auto with emits nocore] | emits_step].

(** ** Straight runs of a handler *)

Section straight.
Context {A A' : Type} (f : A → H A').

(** A read that does not throw. *)
Lemma H_read (m : B A) a env b :
  m env b = (inr a, b, []) → ((x ← go m; f x : H A') : B _) env b = (f a : B _) env b.
Proof.
  intros Hm. unfold mbind, H_bind, B_bind, go, mbind, B_bind. rewrite Hm. cbn.
  by destruct ((f a : B _) env b) as [[r b2] o2].
Qed.

(** A step that does not throw. *)
Lemma H_do (m : B A) a env b b1 o1 :
  m env b = (inr a, b1, o1) →
  ((x ← go m; f x : H A') : B _) env b =
    (result (f a : B _) env b1, exec (f a : B _) env b1, o1 ++ outputs (f a : B _) env b1).
Proof.
  intros Hm. unfold mbind, H_bind, B_bind, go, mbind, B_bind. rewrite Hm. cbn.
  unfold result, exec, outputs. destruct ((f a : B _) env b1) as [[r b2] o2]. cbn. by rewrite app_nil_r.
Qed.
End straight.

Lemma H_pass {A'} r (f : unit → H A') env b :
  ((x ← guard_ false r; f x : H A') : B _) env b = (f tt : B _) env b.
Proof.
  unfold mbind, H_bind, guard_, mret, H_ret, mret, B_ret, mbind, B_bind. cbn.
  by destruct (f tt env b) as [[r' b2] o2].
Qed.

Lemma lift_run {A} (m : M A) env b :
  lift m env b = (inr (HubCore.result m env (hub b)), enter (HubCore.exec m env (hub b)) b,
                  Deliver <$> HubCore.trace m env (hub b)).
Proof.
  unfold lift, HubCore.result, HubCore.exec, HubCore.trace. by destruct (m env (hub b)) as [[a h] t].
Qed.

End BrokerLogic.
