(* ===== verification/BrokerReg.v ===== *)
(** * REG_REQ: a producer registers

    Models [handle_reg_req] of [src/utils/ipc/broker_service.cpp] and
    [log_peer_abi_fingerprint], in the order of the source.  Log lines are
    left out.

    Module [BrokerConsumerReg] follows: a consumer registers. *)

From stdpp Require Import pretty.
From S2P Require Import Prelude.
From S2P Require Import Json.
From S2P Require Import Ledger.
From S2P Require Import Entries.
From S2P Require Import HubCore.
From S2P Require Import SchemaRegistry.
From S2P Require Import HubOps.
From S2P Require Import AdmissionGates.
From S2P Require Import VersionRegistry.
From S2P Require Import NetAddress.
From S2P Require Import Broker.
Import Json Entries HubCore HubOps Broker.

Module BrokerReg.

Section reg.
Context `{External, Config}.

(** ** ABI fingerprint: the major axes to reject for, if any *)

Definition log_peer_abi_fingerprint (req : json) (strict_mode : bool) : B (option string) :=
  match json_get "abi_fingerprint" req with
  | Some (JObj ms) =>
      match VersionRegistry.from_json_object (JObj ms) with
      | None => mret None
      | Some peer =>
          build_id_str ← value_str "build_id" req;
          let peer_bid := if str_empty build_id_str then None else Some build_id_str in
          let verdict := VersionRegistry.classify_peer_verdict
                           (VersionRegistry.verify_peer_versions lib_version build_id peer peer_bid) in
          mret (match VersionRegistry.kind verdict with
                | VersionRegistry.MajorMismatch =>
                    if strict_mode then Some (VersionRegistry.major_axes verdict) else None
                | _ => None
                end)
      end
  | _ => mret None
  end.

(** The envelope the broker echoes, with the build id when there is one. *)
Definition abi_members : list (string * json) :=
  ("broker_abi_fingerprint", VersionRegistry.to_json_object (VersionRegistry.current lib_version)) ::
  match build_id with Some bid => [("broker_build_id", JStr bid)] | None => [] end.

(** ** The producer entry *)

Definition abi_gate (corr_id : string) (req : json) : H unit :=
  abi ← go (log_peer_abi_fingerprint req strict_abi_mismatch);
  match abi with
  | Some axes => reply (make_error corr_id "abi_major_mismatch"
                          ("ABI major-axis mismatch on: " +:+ axes))
  | None => mret tt
  end.

Definition check_producer_pubkey (corr_id producer_pubkey : string) : H unit :=
  _ ← guard_ (str_empty producer_pubkey)
        (make_error corr_id "INVALID_REQUEST"
           "REG_REQ requires non-empty `zmq_pubkey` (broker_proto>=6 / HEP-CORE-0036 §4.1)");
  guard_ (bool_decide (String.length producer_pubkey ≠ 40%nat))
    (make_error corr_id "INVALID_REQUEST"
       ("REG_REQ `zmq_pubkey` length is " +:+ pretty (String.length producer_pubkey) +:+
        ", expected 40 (Z85-encoded CURVE25519 pubkey)")).

(** The entry as the request describes it, before metadata and identity. *)
Definition read_producer (role_name role_uid producer_pubkey identity : string) (attempted_pid : Z)
    (req : json) : B ProducerEntry :=
  producer_hostname ← value_str "producer_hostname" req;
  inbox_endpoint ← value_str "inbox_endpoint" req;
  inbox_schema_json ← value_str "inbox_schema_json" req;
  inbox_packing ← value_str "inbox_packing" req;
  inbox_checksum ← value_str "inbox_checksum" req;
  zmq_node_endpoint ← value_str "zmq_node_endpoint" req;
  shm_capability_endpoint ← value_str "shm_capability_endpoint" req;
  env ← asks;
  let metadata := match json_get "metadata" req with Some (JObj ms) => JObj ms | _ => JNull end in
  mret (mkProducerEntry attempted_pid producer_hostname identity role_name role_uid inbox_endpoint
          inbox_schema_json inbox_packing inbox_checksum zmq_node_endpoint producer_pubkey
          shm_capability_endpoint metadata (system_now env)).

Definition check_data_transport (corr_id : string) (p : ProducerEntry) (req : json) : H string :=
  match json_get "data_transport" req with
  | Some (JStr t) =>
      _ ← guard_ (negb (t =s "shm") && negb (t =s "zmq"))
            (make_error corr_id "INVALID_REQUEST"
               ("REG_REQ `data_transport`='" +:+ t +:+ "' is invalid; expected 'shm' or 'zmq'"));
      _ ← guard_ ((t =s "shm") && str_empty (p_shm_capability_endpoint p))
            (make_error corr_id "INVALID_REQUEST"
               "REG_REQ data_transport='shm' requires non-empty `shm_capability_endpoint` (HEP-CORE-0041 §5.1)");
      mret t
  | _ => reply (make_error corr_id "INVALID_REQUEST"
                  "REG_REQ requires `data_transport` field (string, 'shm' or 'zmq')")
  end.

(** An endpoint that is well formed and has port 0. *)
Definition unresolved_port (endpoint : string) : bool :=
  let v := NetAddress.validate_tcp_endpoint inet_pton4 inet_pton6 endpoint in
  NetAddress.ok v && (NetAddress.port v =? 0).

Definition check_inbox_endpoint (corr_id endpoint : string) : H unit :=
  guard_ (negb (str_empty endpoint) && unresolved_port endpoint)
    (make_error corr_id "INVALID_INBOX_ENDPOINT"
       ("inbox_endpoint '" +:+ endpoint +:+ "' has unresolved port 0")).

(** ** The schema of an existing channel *)

Definition schema_mismatch_notify (channel_name existing attempted : string) (attempted_pid : Z) : json :=
  obj [("channel_name", JStr channel_name); ("event", JStr "schema_mismatch_attempt");
       ("existing_schema_hash", JStr existing); ("attempted_schema_hash", JStr attempted);
       ("attempted_pid", JInt attempted_pid)].

Definition check_channel_schema (corr_id channel_name role_uid attempted_schema : string)
    (attempted_pid : Z) (req : json) : H unit :=
  existing ← go (hubs (channel channel_name));
  match existing with
  | None => mret tt
  | Some ch =>
      cited_id ← go (value_str "schema_id" req);
      claimed_owner ← go (value_str "schema_owner" req);
      let sin := SchemaRegistry.mkCitation (ch_schema_owner ch) (ch_schema_id ch)
        (SchemaUtils.hex_to_fingerprint_array (ch_schema_hash ch))
        (map p_role_uid (producers ch)) cited_id
        (if str_empty claimed_owner then role_uid else claimed_owner)
        (SchemaUtils.hex_to_fingerprint_array attempted_schema) false in
      vc ← go (lift (SchemaRegistry._validate_schema_citation sin));
      if SchemaRegistry.ok vc then mret tt
      else
        let err := schema_mismatch_notify channel_name (ch_schema_hash ch) attempted_schema attempted_pid in
        _ ← go (each (λ prod, if str_empty (p_zmq_identity prod) then mret tt
                              else send_to_identity (p_zmq_identity prod) "CHANNEL_ERROR_NOTIFY" err)
                  (producers ch));
        reply (make_error corr_id "SCHEMA_MISMATCH"
          ("Schema does not match existing registration for channel '" +:+ channel_name +:+ "': " +:+
           SchemaRegistry.detail vc))
  end.

(** ** The schema record of a named schema: its id and owner for the channel *)

Definition adopt_hub_global (corr_id schema_id : string) (h_recomputed : list Z) : H (string * string) :=
  let sin := SchemaRegistry.mkCitation "hub" schema_id h_recomputed [] schema_id "" h_recomputed true in
  vc ← go (lift (SchemaRegistry._validate_schema_citation sin));
  if SchemaRegistry.ok vc then mret (schema_id, "hub")
  else
    let code := match SchemaRegistry.reason vc with
                | SchemaRegistry.kUnknownSchema => "SCHEMA_UNKNOWN"
                | SchemaRegistry.kFingerprintMismatch => "FINGERPRINT_INCONSISTENT"
                | _ => "SCHEMA_MISMATCH"
                end in
    reply (make_error corr_id code
             ("Cannot adopt hub-global (hub, " +:+ schema_id +:+ "): " +:+ SchemaRegistry.detail vc)).

Definition self_register (corr_id role_uid schema_id blds packing fz_blds fz_packing : string) :
    H (string * string) :=
  env ← go asks;
  let rec := SchemaUtils.make_schema_record blake2b (system_now env) role_uid schema_id blds packing
               fz_blds fz_packing in
  outcome ← go (lift (SchemaRegistry._on_schema_registered rec));
  match outcome with
  | SchemaRegistry.kHashMismatchSelf =>
      reply (make_error corr_id "SCHEMA_HASH_MISMATCH_SELF"
        ("Schema record (" +:+ role_uid +:+ ", " +:+ schema_id +:+
         ") already exists with a different hash or packing"))
  | SchemaRegistry.kForbiddenOwner =>
      reply (make_error corr_id "SCHEMA_FORBIDDEN_OWNER"
        ("Schema record (" +:+ role_uid +:+ ", " +:+ schema_id +:+
         ") rejected as forbidden_owner — missing required fields"))
  | _ => mret (schema_id, role_uid)
  end.

Definition register_schema (corr_id role_uid attempted_schema schema_blds : string) (req : json) :
    H (string * string) :=
  schema_packing ← go (value_str "schema_packing" req);
  schema_id ← go (value_str "schema_id" req);
  schema_owner ← go (value_str "schema_owner" req);
  if str_empty schema_id then mret ("", "")
  else
    let missing c what := make_error corr_id c ("REG_REQ with schema_id requires " +:+ what) in
    _ ← guard_ (str_empty schema_packing)
          (missing "MISSING_PACKING" "schema_packing (HEP-CORE-0034 §10.1)");
    _ ← guard_ (str_empty schema_blds) (missing "MISSING_BLDS" "schema_blds (HEP-CORE-0034 §10.1)");
    _ ← guard_ (str_empty attempted_schema)
          (missing "MISSING_HASH" "schema_hash (HEP-CORE-0034 §10.1)");
    _ ← guard_ (str_empty role_uid)
          (missing "MISSING_ROLE_UID" "role_uid for owner attribution (HEP-CORE-0034 §10.1)");
    fz_blds ← go (value_str "flexzone_blds" req);
    fz_packing ← go (value_str "flexzone_packing" req);
    let fp := SchemaUtils.verify_request_fingerprint blake2b schema_blds schema_packing fz_blds
                fz_packing attempted_schema in
    _ ← guard_ (negb (SchemaUtils.consistent fp))
          (make_error corr_id "FINGERPRINT_INCONSISTENT"
             ("schema_hash does not match BLAKE2b-256 of canonical(schema_blds || " +:+ dq +:+ "|pack:" +:+ dq +:+
              " + schema_packing); see HEP-CORE-0034 §6.3"));
    let is_path_c := schema_owner =s "hub" in
    let is_path_b := str_empty schema_owner || (schema_owner =s role_uid) in
    _ ← guard_ (negb is_path_b && negb is_path_c)
          (make_error corr_id "SCHEMA_FORBIDDEN_OWNER"
             ("Producer cannot register schema under owner '" +:+ schema_owner +:+
              "' — only " +:+ dq +:+ "hub" +:+ dq +:+ " (adopt global) or self are permitted"));
    if is_path_c then adopt_hub_global corr_id schema_id (SchemaUtils.fp_hash fp)
    else self_register corr_id role_uid schema_id schema_blds schema_packing fz_blds fz_packing.

(** ** The advertised inbox *)

Definition check_inbox_schema (corr_id role_uid : string) (p : ProducerEntry) : H unit :=
  if negb (str_empty (p_inbox_endpoint p)) && negb (str_empty (p_inbox_schema_json p)) &&
     negb (str_empty (p_inbox_packing p)) && negb (str_empty role_uid)
  then
    _ ← guard_ (negb (p_inbox_packing p =s "aligned") && negb (p_inbox_packing p =s "packed"))
          (make_error corr_id "INVALID_INBOX_PACKING"
             ("inbox_packing '" +:+ p_inbox_packing p +:+ "' must be 'aligned' or 'packed'"));
    let invalid w := reply (make_error corr_id "INBOX_SCHEMA_INVALID"
                              ("inbox_schema_json parse error: " +:+ w)) in
    match parse (p_inbox_schema_json p) with
    | None => invalid (parse_error_what (p_inbox_schema_json p))
    | Some parsed =>
        if is_array (default parsed (json_get "fields" parsed)) then mret tt
        else invalid "inbox_schema_json has no fields array"
    end
  else mret tt.

(** ** Admission *)

(** [None]: nothing declared. *)
Definition read_topology (corr_id prefix : string) (req : json) : H (option ChannelTopology) :=
  wire ← go (value_str "channel_topology" req);
  if str_empty wire then mret None
  else match topology_parse wire with
       | Some t => mret (Some t)
       | None => reply (make_error corr_id "INVALID_REQUEST"
                   (prefix +:+ " channel_topology='" +:+ wire +:+
                    "' must be 'fan-in', 'fan-out', or 'one-to-one'"))
       end.

Definition schema_class (field : string) : bool :=
  (field =s "schema_hash") || (field =s "schema_id") || (field =s "schema_blds") ||
  (field =s "schema_owner").

(** The answer to a refused admission, in the order of the checks. *)
Definition producer_refusal (corr_id : string) (a : ProducerAdmissionResult) : option json :=
  if pr_invalid_identifier a then
    Some (make_error corr_id "INVALID_REQUEST"
            "REG_REQ rejected — identifier grammar failure (HEP-CORE-0033 §G2.2.0b)")
  else match pr_topology_error_code a with
  | Some e => Some (make_error corr_id e ("REG_REQ rejected — topology gate '" +:+ e +:+ "'"))
  | None =>
      let field := mismatched_invariant a in
      match pr_invariant_result a with
      | RejectedMismatch =>
          if schema_class field then
            Some (make_error corr_id "SCHEMA_MISMATCH"
              ("REG_REQ rejected — schema invariant '" +:+ field +:+
               "' differs from existing channel registration"))
          else
            Some (make_error corr_id "TRANSPORT_MISMATCH"
              ("REG_REQ rejected — transport invariant '" +:+ field +:+
               "' differs from existing channel registration"))
      | _ =>
          match producer_result a with
          | ProducerRejectedUidConflict =>
              Some (make_error corr_id "UID_CONFLICT"
                "uid conflict, not trusting this connection, try again with clean state")
          | _ => None
          end
      end
  end.

Definition admit_producer (corr_id channel_name data_transport attempted_schema schema_blds : string)
    (final : string * string) (p : ProducerEntry) (req : json) : H unit :=
  flexzone_blds ← go (value_str "flexzone_blds" req);
  let schema_inv := mkSchemaInvariants attempted_schema final.1 schema_blds final.2 flexzone_blds in
  declared_topology ← read_topology corr_id "REG_REQ" req;
  admission ← go (lift (_on_producer_added channel_name schema_inv
                          (mkTransportInvariants data_transport) declared_topology p));
  match producer_refusal corr_id admission with
  | Some err => reply err
  | None => if pr_channel_opened admission
            then go (lift (_on_channel_access_opened channel_name)) else mret tt
  end.

(** ** REG_ACK *)

Definition consumer_peer (c : ConsumerEntry) (endpoint : string) : json :=
  obj [("role_uid", JStr (c_role_uid c)); ("endpoint", JStr endpoint); ("pubkey_z85", JStr (c_zmq_pubkey c))].

(** The keys the binding side is to admit, in the ledger's order. *)
Definition admitted_keys (a : ChannelAccessEntry) : list json :=
  map (λ pk, obj [("pubkey_z85", JStr pk)]) (Ledger.admitted_snapshot (ledger a)).

(** The allowlist of a REG_ACK with the ledger version it belongs to: under
    fan-in the consumer to dial, once it has published its endpoint; otherwise
    every admitted key. *)
Definition initial_allowlist (channel_name : string) (h : HubImpl) : list json * Z :=
  let version := match channel_access channel_name h with
                 | Some a => Ledger.current_version (ledger a) | None => 0 end in
  match channel channel_name h with
  | Some ch =>
      match topology ch with
      | FanIn =>
          match consumers ch, data_endpoint ch with
          | c :: _, Some e =>
              if str_empty (c_zmq_pubkey c) || str_empty e then ([], 0) else ([consumer_peer c e], version)
          | _, _ => ([], 0)
          end
      | _ => (match channel_access channel_name h with Some a => admitted_keys a | None => [] end, version)
      end
  | None => (match channel_access channel_name h with Some a => admitted_keys a | None => [] end, version)
  end.

(** The keys of the configured roles. *)
Definition known_roles_roster : json :=
  JArr (map (λ kr, JStr (AdmissionGates.kr_pubkey_z85 kr))
          (filter (λ kr, AdmissionGates.kr_pubkey_z85 kr ≠ "") known_roles)).

Definition observer_members : list (string * json) :=
  if str_empty broker_observer_pubkey_z85 then []
  else [("broker_observer_pubkey_z85", JStr broker_observer_pubkey_z85)].

Definition reg_ack (corr_id channel_name role_uid : string) (h : HubImpl) : json :=
  let '(allowlist, snapshot_version) := initial_allowlist channel_name h in
  with_corr corr_id
    (obj ([("status", JStr "success"); ("channel_name", JStr channel_name);
           ("message", JStr "Producer registered successfully"); ("heartbeat", heartbeat_ack_block)] ++
          abi_members ++ observer_members ++
          [("initial_allowlist", JArr allowlist); ("known_roles", known_roles_roster);
           ("instance_id", JInt (producer_instance role_uid h));
           ("snapshot_version", JInt snapshot_version)])).

(** Under fan-in the producer dials: its key is admitted and the consumer is
    told. *)
Definition announce_producer (channel_name role_uid producer_pubkey : string) : B unit :=
  ch ← hubs (channel channel_name);
  match ch with
  | Some ch =>
      match topology ch with
      | FanIn =>
          _ ← lift (_on_consumer_authorized channel_name producer_pubkey);
          fire_channel_auth_changed_notify channel_name "admitted" role_uid "producer"
      | _ => mret tt
      end
  | None => mret tt
  end.

Definition handle_reg_req (req : json) (identity : string) : B json :=
  answered (
    corr_id ← go (value_str "correlation_id" req);
    channel_name ← go (value_str "channel_name" req);
    role_name ← go (value_str "role_name" req);
    role_uid ← go (value_str "role_uid" req);
    _ ← abi_gate corr_id req;
    attempted_schema ← go (value_str "schema_hash" req);
    attempted_pid ← go (value_u64 "producer_pid" req);
    producer_pubkey ← go (value_str "zmq_pubkey" req);
    _ ← check_producer_pubkey corr_id producer_pubkey;
    p ← go (read_producer role_name role_uid producer_pubkey identity attempted_pid req);
    data_transport ← check_data_transport corr_id p req;
    _ ← check_inbox_endpoint corr_id (p_inbox_endpoint p);
    schema_blds ← go (value_str "schema_blds" req);
    _ ← check_channel_schema corr_id channel_name role_uid attempted_schema attempted_pid req;
    final ← register_schema corr_id role_uid attempted_schema schema_blds req;
    _ ← check_inbox_schema corr_id role_uid p;
    _ ← admit_producer corr_id channel_name data_transport attempted_schema schema_blds final p req;
    h ← go (hubs id);
    let resp := reg_ack corr_id channel_name role_uid h in
    _ ← go (announce_producer channel_name role_uid producer_pubkey);
    mret resp).
End reg.
End BrokerReg.

Import Json Entries HubCore HubOps Broker BrokerReg.

(** * CONSUMER_REG_REQ: a consumer registers

    Models [handle_consumer_reg_req] of [src/utils/ipc/broker_service.cpp],
    in the order of the source.  Log lines are left out. *)
Module BrokerConsumerReg.

Section consumer_reg.
Context `{External, Config}.

(** ** Readiness of the channel *)

(** [err["reason"] = reason;] on an error. *)
Definition with_reason (reason : string) (err : json) : json := put "reason" (JStr reason) err.

Definition not_ready (corr_id channel_name reason explanation : string) : json :=
  with_reason reason (make_error corr_id "CHANNEL_NOT_READY"
    ("Channel '" +:+ channel_name +:+ "' is not ready (" +:+ explanation +:+ ")")).

(** The producer presences of the channel in the order of its producers,
    without those that have no row. *)
Definition producer_presences (channel_name : string) (ch : ChannelEntry)
    (roles : gmap string RoleEntry) : list RolePresence :=
  omap (λ p, roles !! p_role_uid p ≫= find_presence channel_name "producer") (producers ch).

Definition is_live (p : RolePresence) : bool :=
  bool_decide (rp_state p = Connected) && first_heartbeat_seen p.
Definition is_registering (p : RolePresence) : bool :=
  bool_decide (rp_state p = Connected) && negb (first_heartbeat_seen p).
Definition is_stalled (p : RolePresence) : bool := bool_decide (rp_state p = Pending).

Definition readiness_gate (corr_id channel_name : string) (ch : ChannelEntry)
    (roles : gmap string RoleEntry) : H unit :=
  let ps := producer_presences channel_name ch roles in
  if existsb is_live ps then mret tt
  else if existsb is_registering ps then
    reply (not_ready corr_id channel_name "awaiting_first_heartbeat"
      "awaiting_first_heartbeat — producer registered but has not yet sent its first heartbeat")
  else if existsb is_stalled ps then
    reply (not_ready corr_id channel_name "heartbeat_stalled"
      "heartbeat_stalled — producer missed its heartbeat window; HEP-CORE-0023 §2.6")
  else
    reply (make_error corr_id "CHANNEL_NOT_FOUND"
      ("Channel '" +:+ channel_name +:+ "' has no producer-presence alive")).

Definition unresolved_endpoint (ch : ChannelEntry) : bool :=
  (ch_data_transport ch =s "zmq") &&
  match first_producer ch with
  | Some p => negb (str_empty (p_zmq_node_endpoint p)) && unresolved_port (p_zmq_node_endpoint p)
  | None => false
  end.

Definition awaiting_endpoint_error (corr_id channel_name : string) : json :=
  make_error corr_id "CHANNEL_NOT_READY"
    ("ZMQ endpoint for channel '" +:+ channel_name +:+ "' has unresolved port 0 (awaiting_endpoint)").

(** ** The schema the consumer expects *)

Record ExpectedSchema := mkExpected {
  expected_schema_id : string; expected_hash_hex : string; expected_blds : string;
  expected_packing : string; expected_fz_blds : string; expected_fz_packing : string;
}.

Definition read_expected (req : json) : B ExpectedSchema :=
  a ← value_str "expected_schema_id" req;
  b ← value_str "expected_schema_hash" req;
  c ← value_str "expected_schema_blds" req;
  d ← value_str "expected_schema_packing" req;
  e ← value_str "expected_flexzone_blds" req;
  f ← value_str "expected_flexzone_packing" req;
  mret (mkExpected a b c d e f).

Definition has_any_expected (x : ExpectedSchema) : bool :=
  negb (str_empty (expected_schema_id x)) || negb (str_empty (expected_hash_hex x)) ||
  negb (str_empty (expected_blds x)) || negb (str_empty (expected_packing x)) ||
  negb (str_empty (expected_fz_blds x)) || negb (str_empty (expected_fz_packing x)).

(** The fingerprint the consumer cites, from its structure or its claim. *)
Definition joiner_hash (corr_id : string) (x : ExpectedSchema) : H (list Z) :=
  let named := negb (str_empty (expected_schema_id x)) in
  let has_structure := negb (str_empty (expected_blds x)) || negb (str_empty (expected_packing x)) in
  _ ← guard_ (named && str_empty (expected_hash_hex x))
        (make_error corr_id "MISSING_HASH_FOR_NAMED_CITATION"
           "CONSUMER_REG_REQ with expected_schema_id requires expected_schema_hash (HEP-CORE-0034 §10.3)");
  if has_structure || negb named then
    _ ← guard_ (str_empty (expected_blds x))
          (make_error corr_id (if named then "MISSING_BLDS" else "MISSING_BLDS_FOR_ANONYMOUS_CITATION")
             "citation requires expected_schema_blds (HEP-CORE-0034 §10.3)");
    _ ← guard_ (str_empty (expected_packing x))
          (make_error corr_id (if named then "MISSING_PACKING" else "MISSING_PACKING_FOR_ANONYMOUS_CITATION")
             "citation requires expected_schema_packing (HEP-CORE-0034 §10.3)");
    let fp := SchemaUtils.verify_request_fingerprint blake2b (expected_blds x) (expected_packing x)
                (expected_fz_blds x) (expected_fz_packing x) (expected_hash_hex x) in
    _ ← guard_ (negb (SchemaUtils.consistent fp))
          (make_error corr_id "FINGERPRINT_INCONSISTENT"
             "expected_schema_hash does not match BLAKE2b-256 of canonical(expected_schema_blds + packing)");
    mret (SchemaUtils.fp_hash fp)
  else mret (SchemaUtils.hex_to_fingerprint_array (expected_hash_hex x)).

Definition check_expected_schema (corr_id : string) (ch : ChannelEntry) (x : ExpectedSchema) : H unit :=
  jh ← joiner_hash corr_id x;
  let sin := SchemaRegistry.mkCitation (ch_schema_owner ch) (ch_schema_id ch)
    (SchemaUtils.hex_to_fingerprint_array (ch_schema_hash ch)) (map p_role_uid (producers ch))
    (expected_schema_id x) "" jh false in
  vc ← go (lift (SchemaRegistry._validate_schema_citation sin));
  if SchemaRegistry.ok vc then mret tt
  else
    let code := match SchemaRegistry.reason vc with
                | SchemaRegistry.kSchemaIdMismatch => "SCHEMA_ID_MISMATCH"
                | _ => "SCHEMA_CITATION_REJECTED"
                end in
    reply (make_error corr_id code (SchemaRegistry.detail vc)).

(** ** The consumer entry *)

Definition read_consumer (corr_id role_name role_uid identity : string) (req : json) : H ConsumerEntry :=
  consumer_pid ← go (value_u64 "consumer_pid" req);
  consumer_hostname ← go (value_str "consumer_hostname" req);
  inbox_endpoint ← go (value_str "inbox_endpoint" req);
  inbox_schema_json ← go (value_str "inbox_schema_json" req);
  inbox_packing ← go (value_str "inbox_packing" req);
  inbox_checksum ← go (value_str "inbox_checksum" req);
  consumer_pubkey ← go (value_str "zmq_pubkey" req);
  _ ← guard_ (str_empty consumer_pubkey)
        (make_error corr_id "INVALID_REQUEST"
           "CONSUMER_REG_REQ requires non-empty `zmq_pubkey` (broker_proto>=6 / HEP-CORE-0036 §6.5)");
  _ ← guard_ (bool_decide (String.length consumer_pubkey ≠ 40%nat))
        (make_error corr_id "INVALID_REQUEST"
           ("CONSUMER_REG_REQ `zmq_pubkey` length is " +:+ pretty (String.length consumer_pubkey) +:+
            ", expected 40 (Z85-encoded CURVE25519 pubkey)"));
  env ← go asks;
  mret (mkConsumerEntry consumer_pid consumer_hostname identity consumer_pubkey role_name role_uid
          inbox_endpoint inbox_schema_json inbox_packing inbox_checksum (system_now env)).

(** ** Admission *)

Definition consumer_refusal (corr_id channel_name : string) (a : ConsumerAdmissionResult) : option json :=
  if cr_invalid_identifier a then
    Some (make_error corr_id "INVALID_REQUEST"
            "CONSUMER_REG_REQ rejected — identifier grammar failure (HEP-CORE-0033 §G2.2.0b)")
  else match cr_topology_error_code a with
  | Some e => Some (make_error corr_id e ("CONSUMER_REG_REQ rejected — topology gate '" +:+ e +:+ "'"))
  | None =>
      if negb (admitted a) then
        Some (make_error corr_id "CHANNEL_NOT_FOUND"
                ("Channel '" +:+ channel_name +:+ "' vanished during admission"))
      else None
  end.

(** What a consumer that opens the channel makes its invariants. *)
Definition open_invariants (consumer_queue_type : string) (x : ExpectedSchema) (req : json) :
    B (ChannelSchemaInvariants * ChannelTransportInvariants) :=
  owner ← value_str "expected_schema_owner" req;
  mret (mkSchemaInvariants (expected_hash_hex x) (expected_schema_id x) (expected_blds x) owner
          (expected_fz_blds x),
        mkTransportInvariants (if str_empty consumer_queue_type then "zmq" else consumer_queue_type)).

Definition admit_consumer (corr_id channel_name consumer_queue_type : string) (will_open : bool)
    (declared_topology : option ChannelTopology) (x : ExpectedSchema) (entry : ConsumerEntry)
    (req : json) : H unit :=
  inv ← go (if will_open then (i ← open_invariants consumer_queue_type x req; mret (Some i)) else mret None);
  admission ← go (lift (_on_consumer_joined channel_name entry declared_topology
                          (fst <$> inv) (snd <$> inv)));
  match consumer_refusal corr_id channel_name admission with
  | Some err => reply err
  | None => if cr_channel_opened admission
            then go (lift (_on_channel_access_opened channel_name)) else mret tt
  end.

(** ** CONSUMER_REG_ACK *)

Definition producer_peer (ch : ChannelEntry) (p : ProducerEntry) : json :=
  obj [("role_uid", JStr (p_role_uid p)); ("pubkey_z85", JStr (p_zmq_pubkey p));
       ("endpoint", JStr (if ch_data_transport ch =s "shm" then p_shm_capability_endpoint p
                          else p_zmq_node_endpoint p))].

Definition consumer_reg_ack (corr_id channel_name : string) (h : HubImpl) : json :=
  with_corr corr_id
    (obj ([("status", JStr "success"); ("channel_name", JStr channel_name);
           ("message", JStr "Consumer registered successfully"); ("heartbeat", heartbeat_ack_block)] ++
          abi_members ++
          match channel channel_name h with
          | Some ch => [("data_transport", JStr (ch_data_transport ch));
                        ("producers", JArr (map (producer_peer ch) (producers ch)))]
          | None => []
          end ++
          [("known_roles", known_roles_roster)])).

Definition handle_consumer_reg_req (req : json) (identity : string) : B json :=
  answered (
    corr_id ← go (value_str "correlation_id" req);
    channel_name ← go (value_str "channel_name" req);
    role_name ← go (value_str "role_name" req);
    role_uid ← go (value_str "role_uid" req);
    _ ← abi_gate corr_id req;
    declared_topology ← read_topology corr_id "CONSUMER_REG_REQ" req;
    snap ← go (lift snapshot);
    env ← go asks;
    let found := snap_channels snap !! channel_name in
    let declares_fan_in := bool_decide (declared_topology = Some FanIn) in
    let will_open := bool_decide (found = None) && declares_fan_in in
    _ ← guard_ (bool_decide (found = None) && negb will_open)
          (make_error corr_id "CHANNEL_NOT_FOUND" ("Channel '" +:+ channel_name +:+ "' is not registered"));
    let ch := default (default_channel (system_now env)) found in
    _ ← guard_ (unresolved_endpoint ch)
          (with_reason "awaiting_endpoint" (awaiting_endpoint_error corr_id channel_name));
    _ ← (if negb will_open && negb declares_fan_in
         then readiness_gate corr_id channel_name ch (snap_roles snap) else mret tt);
    queue_type ← go (value_str "consumer_queue_type" req);
    _ ← guard_ (negb will_open && negb (str_empty queue_type) && negb (queue_type =s ch_data_transport ch))
          (make_error corr_id "TRANSPORT_MISMATCH"
             ("Consumer queue_type '" +:+ queue_type +:+ "' does not match channel transport '" +:+
              ch_data_transport ch +:+ "'"));
    x ← go (read_expected req);
    _ ← (if negb will_open && has_any_expected x then check_expected_schema corr_id ch x else mret tt);
    entry ← read_consumer corr_id role_name role_uid identity req;
    _ ← admit_consumer corr_id channel_name queue_type will_open declared_topology x entry req;
    let effective_topology := if will_open then FanIn else topology ch in
    _ ← go (match effective_topology with
            | FanIn => mret tt
            | _ =>
                _ ← lift (_on_consumer_authorized channel_name (c_zmq_pubkey entry));
                fire_channel_auth_changed_notify channel_name "admitted" role_uid "consumer"
            end);
    h ← go (hubs id);
    mret (consumer_reg_ack corr_id channel_name h)).
End consumer_reg.
End BrokerConsumerReg.
