(* ===== verification/BrokerFederation.v ===== *)
(** * Hub federation on the broker's side

    Models the federation part of [src/utils/ipc/broker_service.cpp]: the
    [HUB_PEER_*], [HUB_RELAY_MSG] and [HUB_TARGETED_MSG] handlers, the relay of
    a local broadcast to the connected peers, the duplicate suppression, and
    the frames the broker itself puts on the socket of a peer. *)

From stdpp Require Import pretty.
From S2P Require Import Prelude.
From S2P Require Import Json.
From S2P Require Import Entries.
From S2P Require Import HubCore.
From S2P Require Import HubOps.
From S2P Require Import Wire.
From S2P Require Import Broker.
Import Json Entries HubCore HubOps Broker.

Module BrokerFederation.

Section federation.
Context `{External, Config}.

(** ** Greeting and leaving *)

Definition configured_peer (hub_uid : string) : option FederationPeer :=
  find (λ pc, fp_hub_uid pc =s hub_uid) peers.

Definition callback (configured : bool) (o : Output) : B unit := if configured then emit o else mret tt.

Definition forget_notified (hub_uid : string) : B unit :=
  modify_broker (λ b, b <| hub_connected_notified_ ::= λ s, s ∖ {[hub_uid]} |>).

(** [if (cfg.on_hub_connected && hub_connected_notified_.insert(uid).second)] *)
Definition notify_connected_once (hub_uid : string) : B unit :=
  seen ← brokers (λ b, bool_decide (hub_uid ∈ hub_connected_notified_ b));
  if on_hub_connected && negb seen then
    _ ← modify_broker (λ b, b <| hub_connected_notified_ ::= λ s, {[hub_uid]} ∪ s |>);
    emit (OnHubConnected hub_uid)
  else mret tt.

Definition is_connected (p : PeerEntry) : bool := bool_decide (pe_state p = PeerConnected).

Definition handle_hub_peer_hello (identity : string) (payload : json) : B unit :=
  peer_hub_uid ← value_str "hub_uid" payload;
  if str_empty peer_hub_uid then mret tt
  else
    match configured_peer peer_hub_uid with
    | None =>
        send_reply identity "HUB_PEER_HELLO_ACK"
          (obj [("status", JStr "rejected"); ("reason", JStr "hub_uid not in configured peers")])
    | Some pc =>
        pre ← hubs (peer peer_hub_uid);
        _ ← (match pre with
             | Some p =>
                 if is_connected p then
                   _ ← forget_notified peer_hub_uid;
                   callback on_hub_disconnected (OnHubDisconnected peer_hub_uid)
                 else mret tt
             | None => mret tt
             end);
        env ← asks;
        _ ← lift (_on_peer_connected
                    (mkPeerEntry peer_hub_uid "" PeerConnecting (steady_now env) "" (fp_channels pc)
                       identity));
        _ ← send_reply identity "HUB_PEER_HELLO_ACK"
              (obj [("status", JStr "ok"); ("accepted_channels", JArr (map JStr (fp_channels pc)));
                    ("hub_uid", JStr self_hub_uid)]);
        notify_connected_once peer_hub_uid
    end.

Definition handle_hub_peer_bye (payload : json) : B unit :=
  peer_hub_uid ← value_str "hub_uid" payload;
  if str_empty peer_hub_uid then mret tt
  else
    pre ← hubs (peer peer_hub_uid);
    match pre with
    | Some p =>
        if is_connected p then
          _ ← lift (_on_peer_disconnected peer_hub_uid);
          _ ← forget_notified peer_hub_uid;
          callback on_hub_disconnected (OnHubDisconnected peer_hub_uid)
        else mret tt
    | None => mret tt
    end.

Definition handle_hub_peer_hello_ack (peer_hub_uid : string) (payload : json) : B unit :=
  status ← value_str_or "error" "status" payload;
  if status =s "ok" then notify_connected_once peer_hub_uid else mret tt.

(** ** Relayed messages *)

(** Nanoseconds. *)
Definition kRelayDedupeWindow : Z := 5 * 1000 * 1000 * 1000.

(** [false]: the message id was seen before. *)
Definition record_relay (msg_id : string) : B bool :=
  if str_empty msg_id then mret true
  else
    seen ← brokers (λ b, bool_decide (msg_id ∈ relay_dedup_set_ b));
    if seen : bool then mret false
    else
      env ← asks;
      _ ← modify_broker (λ b,
            b <| relay_dedup_set_ ::= λ s, {[msg_id]} ∪ s |>
              <| relay_dedup_queue_ ::= λ q, q ++ [(msg_id, steady_now env + kRelayDedupeWindow)] |>);
      mret true.

Definition handle_hub_relay_msg (payload : json) : B unit :=
  msg_id ← value_str "msg_id" payload;
  fresh ← record_relay msg_id;
  if negb fresh then mret tt
  else
    channel_name ← value_str "channel_name" payload;
    event ← value_str "event" payload;
    sender_uid ← value_str "sender_uid" payload;
    originator ← value_str "originator_uid" payload;
    if str_empty channel_name then mret tt
    else
      entry ← hubs (channel channel_name);
      match entry with
      | None => mret tt
      | Some entry =>
          let fwd := obj ([("channel_name", JStr channel_name); ("event", JStr event);
                           ("sender_uid", JStr sender_uid); ("originator_uid", JStr originator)] ++
                          match json_get "payload" payload with Some d => [("data", d)] | None => [] end) in
          each (λ p, if str_empty (p_zmq_identity p) then mret tt
                     else send_to_identity (p_zmq_identity p) "CHANNEL_EVENT_NOTIFY" fwd)
            (producers entry)
      end.

Definition handle_hub_targeted_msg (payload : json) : B unit :=
  if negb on_hub_message then
    _ ← value_str_or "?" "channel_name" payload; mret tt
  else
    channel_name ← value_str "channel_name" payload;
    p_payload ← value_str "payload" payload;
    sender_uid ← value_str "sender_uid" payload;
    emit (OnHubMessage channel_name p_payload sender_uid).

(** The identities of the connected peers that want the channel. *)
Definition relay_targets (channel_name : string) (ps : gmap string PeerEntry) : list string :=
  omap (λ kv, let p := kv.2 in
         if is_connected p && negb (str_empty (pe_zmq_identity p)) &&
            existsb (λ c, c =s channel_name) (relay_channels p)
         then Some (pe_zmq_identity p) else None)
    (map_to_list ps).

Definition relay_notify_to_peers (channel_name event sender_uid data : string) : B unit :=
  if str_empty self_hub_uid then mret tt
  else
    snap ← lift snapshot;
    match relay_targets channel_name (snap_peers snap) with
    | [] => mret tt
    | targets =>
        seq ← brokers relay_seq_;
        _ ← modify_broker (λ b, b <| relay_seq_ := u64_succ seq |>);
        let relay := obj ([("relay", JBool true); ("channel_name", JStr channel_name);
                           ("originator_uid", JStr self_hub_uid);
                           ("msg_id", JStr (self_hub_uid +:+ ":" +:+ pretty seq));
                           ("event", JStr event); ("sender_uid", JStr sender_uid)] ++
                          if str_empty data then [] else [("payload", JStr data)]) in
        each (λ identity, send_to_identity identity "HUB_RELAY_MSG" relay) targets
    end.

Definition prune_relay_dedup : B unit :=
  env ← asks;
  modify_broker (λ b,
    let '(expired, rest) := pop_while (λ e, e.2 <=? steady_now env) (relay_dedup_queue_ b) in
    b <| relay_dedup_queue_ := rest |>
      <| relay_dedup_set_ ::= λ s, s ∖ list_to_set (map fst expired) |>).

(** ** What [run] sends to and reads from a peer's broker *)

(** The three frames of [HUB_PEER_HELLO] and [HUB_PEER_BYE]; the peer's router
    puts the identity in front. *)
Definition hello_frames : list string :=
  [Wire.kFrameTypeControl; "HUB_PEER_HELLO";
   dump (obj [("hub_uid", JStr self_hub_uid); ("subscribed_channels", JArr []);
              ("protocol_version", JInt 1)])].

Definition bye_frames : list string :=
  [Wire.kFrameTypeControl; "HUB_PEER_BYE"; dump (obj [("hub_uid", JStr self_hub_uid)])].

(** A message on the socket to a peer; what a JSON exception interrupts is
    logged.  Frames after the third are not looked at. *)
Definition handle_peer_frames (cfg_hub_uid : string) (frames : list string) : B unit :=
  match frames with
  | _ :: peer_msg_type :: peer_body_raw :: _ =>
      match parse peer_body_raw with
      | None => mret tt
      | Some peer_payload =>
          _ ← try_ (if peer_msg_type =s "HUB_PEER_HELLO_ACK"
                    then handle_hub_peer_hello_ack cfg_hub_uid peer_payload
                    else if peer_msg_type =s "HUB_RELAY_MSG" then handle_hub_relay_msg peer_payload
                    else if peer_msg_type =s "HUB_TARGETED_MSG" then handle_hub_targeted_msg peer_payload
                    else mret tt);
          mret tt
      end
  | _ => mret tt
  end.

End federation.
End BrokerFederation.
