(* ===== verification/BrokerChannels.v ===== *)
(** * Channel requests: discovery, deregistration, heartbeats, endpoints

    Models [handle_disc_req], [handle_dereg_req], [handle_consumer_dereg_req],
    [handle_heartbeat_req], [handle_endpoint_update_req],
    [handle_channel_broadcast_req] and [handle_checksum_error_report] of
    [src/utils/ipc/broker_service.cpp], each in the order of the source. *)

From stdpp Require Import pretty.
From S2P Require Import Prelude.
From S2P Require Import Json.
From S2P Require Import Naming.
From S2P Require Import Ledger.
From S2P Require Import Entries.
From S2P Require Import HubCore.
From S2P Require Import HubOps.
From S2P Require Import NetAddress.
From S2P Require Import Broker.
From S2P Require Import BrokerReg.
From S2P Require Import BrokerFederation.
Import Json Entries HubCore HubOps Broker.

Module BrokerChannels.

Section channels.
Context `{External, Config}.

(** ** DISC_REQ *)

(** The presence a discovery is answered from: the first live producer, else
    the first one that is not disconnected. *)
Definition discovery_presence (channel_name : string) (ch : ChannelEntry)
    (roles : gmap string RoleEntry) : option RolePresence :=
  let ps := filter (λ p, rp_state p ≠ Disconnected)
              (BrokerConsumerReg.producer_presences channel_name ch roles) in
  match find BrokerConsumerReg.is_live ps with
  | Some p => Some p
  | None => head ps
  end.

Definition disc_pending (corr_id channel_name : string) (p : RolePresence) : json :=
  with_corr corr_id
    (obj [("status", JStr "pending"); ("channel_name", JStr channel_name);
          ("reason", JStr (if first_heartbeat_seen p then "heartbeat_stalled"
                           else "awaiting_first_heartbeat"))]).

Definition disc_ack (corr_id : string) (ch : ChannelEntry) : json :=
  let first f := match first_producer ch with Some p => f p | None => "" end in
  with_corr corr_id
    (obj [("status", JStr "success"); ("schema_hash", JStr (ch_schema_hash ch));
          ("flexzone_blds", JStr (ch_flexzone_blds ch)); ("metadata", aggregate_metadata_tree ch);
          ("consumer_count", JInt (Z.of_nat (length (consumers ch)) mod 2 ^ 32));
          ("zmq_pubkey", JStr (first p_zmq_pubkey)); ("data_transport", JStr (ch_data_transport ch));
          ("zmq_node_endpoint", JStr (first p_zmq_node_endpoint))]).

Definition channel_not_registered (corr_id channel_name : string) : json :=
  make_error corr_id "CHANNEL_NOT_FOUND" ("Channel '" +:+ channel_name +:+ "' is not registered").

Definition missing_channel_name (corr_id : string) : json :=
  make_error corr_id "INVALID_REQUEST" "Missing or empty 'channel_name'".

Definition handle_disc_req (req : json) : B json :=
  answered (
    corr_id ← go (value_str "correlation_id" req);
    channel_name ← go (value_str "channel_name" req);
    _ ← guard_ (str_empty channel_name) (missing_channel_name corr_id);
    snap ← go (lift snapshot);
    match snap_channels snap !! channel_name with
    | None => mret (channel_not_registered corr_id channel_name)
    | Some ch =>
        match discovery_presence channel_name ch (snap_roles snap) with
        | None => mret (channel_not_registered corr_id channel_name)
        | Some p =>
            if negb (first_heartbeat_seen p) || bool_decide (rp_state p = Pending)
            then mret (disc_pending corr_id channel_name p)
            else if BrokerConsumerReg.unresolved_endpoint ch
            then mret (BrokerConsumerReg.awaiting_endpoint_error corr_id channel_name)
            else mret (disc_ack corr_id ch)
        end
    end).

(** ** DEREG_REQ and CONSUMER_DEREG_REQ *)

Definition status_ack (corr_id message : string) : json :=
  with_corr corr_id (obj [("status", JStr "success"); ("message", JStr message)]).

(** What follows the end of a channel whose last producer has gone. *)
Definition close_channel_access (channel_name : string) : B unit :=
  _ ← lift (_on_channel_access_closed channel_name);
  _ ← drain_pending_attach_queue_for_channel_denied_ channel_name "channel_closing";
  mret tt.

(** The producer was removed and the channel is gone, or lives on. *)
Definition after_producer_drop (channel_name role_uid reason : string) (channel_now_empty : bool)
    (pre_drop : ChannelEntry) : B unit :=
  if channel_now_empty then
    _ ← send_closing_notify channel_name pre_drop reason;
    close_channel_access channel_name
  else
    _ ← drain_pending_attach_queue_for_producer_denied_ channel_name role_uid "producer_not_live";
    mret tt.

Definition registered_producer (pid : Z) (role_uid : string) (ch : ChannelEntry) : option ProducerEntry :=
  find (λ p, (producer_pid p =? pid) && (p_role_uid p =s role_uid)) (producers ch).

Definition producer_not_registered (corr_id channel_name : string) : json :=
  make_error corr_id "NOT_REGISTERED"
    ("Channel '" +:+ channel_name +:+ "' not registered or no producer matches (pid, role_uid)").

(** Remove a producer of [ch], the channel as it was. *)
Definition deregister_producer (corr_id channel_name role_uid : string) (ch : ChannelEntry) : H unit :=
  drop ← go (lift (_on_producer_dropped channel_name role_uid VoluntaryDereg));
  _ ← guard_ (negb (removed drop))
        (make_error corr_id "NOT_REGISTERED"
           ("Channel '" +:+ channel_name +:+ "' producer no longer admitted (race)"));
  go (after_producer_drop channel_name role_uid "producer_deregistered" (channel_now_empty drop) ch).

(** An entry with an empty uid counts as not found. *)
Definition handle_dereg_req (req : json) : B json :=
  answered (
    corr_id ← go (value_str "correlation_id" req);
    channel_name ← go (value_str "channel_name" req);
    _ ← guard_ (str_empty channel_name) (missing_channel_name corr_id);
    pid ← go (value_u64 "producer_pid" req);
    role_uid ← go (value_str "role_uid" req);
    entry ← go (hubs (channel channel_name));
    match entry with
    | Some ch =>
        match registered_producer pid role_uid ch with
        | Some p =>
            _ ← guard_ (str_empty (p_role_uid p)) (producer_not_registered corr_id channel_name);
            _ ← deregister_producer corr_id channel_name (p_role_uid p) ch;
            mret (status_ack corr_id "Producer deregistered successfully")
        | None => reply (producer_not_registered corr_id channel_name)
        end
    | None => reply (producer_not_registered corr_id channel_name)
    end).

Definition registered_consumer (pid : Z) (role_uid : string) (ch : ChannelEntry) : option ConsumerEntry :=
  find (λ c, (consumer_pid c =? pid) && (c_role_uid c =s role_uid)) (consumers ch).

(** A departed consumer's key leaves the ledger and the binding side is
    told. *)
Definition revoke_consumer (channel_name : string) (c : ConsumerEntry) : B unit :=
  if bool_decide (String.length (c_zmq_pubkey c) = 40%nat) then
    _ ← lift (_on_consumer_revoked channel_name (c_zmq_pubkey c));
    fire_channel_auth_changed_notify channel_name "left" (c_role_uid c) "consumer"
  else mret tt.

Definition handle_consumer_dereg_req (req : json) : B json :=
  answered (
    corr_id ← go (value_str "correlation_id" req);
    channel_name ← go (value_str "channel_name" req);
    _ ← guard_ (str_empty channel_name) (missing_channel_name corr_id);
    pid ← go (value_u64 "consumer_pid" req);
    role_uid ← go (value_str "role_uid" req);
    entry ← go (hubs (channel channel_name));
    match entry ≫= registered_consumer pid role_uid with
    | None =>
        reply (make_error corr_id "NOT_REGISTERED"
          ("Consumer (pid=" +:+ pretty pid +:+ ", role_uid='" +:+ role_uid +:+
           "') not registered for channel '" +:+ channel_name +:+ "'"))
    | Some c =>
        _ ← go (lift (_on_consumer_left channel_name (c_role_uid c)));
        _ ← go (revoke_consumer channel_name c);
        mret (status_ack corr_id "Consumer deregistered successfully")
    end).

(** ** HEARTBEAT_NOTIFY *)

Definition tag_matches_role_type (role_uid role_type : string) : bool :=
  let tag := default "?" (Naming.extract_short_tag role_uid) in
  if role_type =s "producer" then (tag =s "prod") || (tag =s "proc")
  else if role_type =s "consumer" then (tag =s "cons") || (tag =s "proc")
  else false.

(** [role_type] names the side that dials under the channel's topology. *)
Definition is_dialing_side (t : ChannelTopology) (role_type : string) : bool :=
  match t with FanIn => role_type =s "producer" | _ => role_type =s "consumer" end.

Definition announce_live (channel_name role_uid role_type : string) : B unit :=
  ch ← hubs (channel channel_name);
  match ch with
  | Some ch =>
      if is_dialing_side (topology ch) role_type
      then fire_channel_auth_changed_notify channel_name "live" role_uid role_type
      else mret tt
  | None => mret tt
  end.

(** The handler's checks, and [None] where it drops the message. *)
Definition heartbeat_subject (req : json) : B (option (string * string * string)) :=
  channel_name ← value_str "channel_name" req;
  if negb (Naming.is_valid_identifier channel_name Naming.Channel) then mret None
  else
    snap ← lift snapshot;
    match snap_channels snap !! channel_name with
    | None => mret None
    | Some _ =>
        role_uid ← value_str "role_uid" req;
        role_type ← value_str "role_type" req;
        mret (if str_empty role_uid || str_empty role_type then None
              else if negb (Naming.is_valid_identifier role_uid Naming.RoleUid) then None
              else if negb (tag_matches_role_type role_uid role_type) then None
              else Some (channel_name, role_uid, role_type))
    end.

Definition handle_heartbeat_req (req : json) : B unit :=
  subject ← heartbeat_subject req;
  match subject with
  | None => mret tt
  | Some (channel_name, role_uid, role_type) =>
      _ ← value_u64 "producer_pid" req;
      env ← asks;
      let metrics := match json_get "metrics" req with Some (JObj ms) => Some (JObj ms) | _ => None end in
      eff ← lift (_on_heartbeat channel_name role_uid role_type (steady_now env) metrics);
      if presence_found eff && negb (was_first_heartbeat_seen eff)
      then announce_live channel_name role_uid role_type
      else mret tt
  end.

(** ** ENDPOINT_UPDATE_REQ *)

(** The uid of the sender on the channel and whether it is the binding
    consumer, by its identity on the wire.  An entry with an empty uid counts
    as not found. *)
Definition endpoint_owner (identity : string) (ch : ChannelEntry) : option (string * bool) :=
  let prod := match find (λ p, identity =s p_zmq_identity p) (producers ch) with
              | Some p => p_role_uid p | None => "" end in
  if negb (str_empty prod) then Some (prod, false)
  else match topology ch with
       | FanIn =>
           match find (λ c, identity =s c_zmq_identity c) (consumers ch) with
           | Some c => if str_empty (c_role_uid c) then None else Some (c_role_uid c, true)
           | None => None
           end
       | _ => None
       end.

Definition resolved (endpoint : string) : bool :=
  let v := NetAddress.validate_tcp_endpoint inet_pton4 inet_pton6 endpoint in
  NetAddress.ok v && negb (NetAddress.port v =? 0).

Definition not_channel_owner (corr_id message : string) : json :=
  make_error corr_id "NOT_CHANNEL_OWNER" message.

Definition admitted_peers (channel_name : string) (h : HubImpl) : nat :=
  match channel_access channel_name h with Some a => Ledger.admitted_count (ledger a) | None => 0 end.

(** Store the endpoint, unless it would replace a resolved one under a peer
    that was admitted to it. *)
Definition apply_endpoint (corr_id channel_name endpoint role_uid : string) (binding_consumer : bool)
    (current_value : string) : H unit :=
  if resolved current_value && (current_value =s endpoint) then mret tt
  else
    n ← go (hubs (admitted_peers channel_name));
    _ ← guard_ (resolved current_value && bool_decide (0 < n)%nat)
          (make_error corr_id "ENDPOINT_CHANGE_FORBIDDEN"
             ("zmq_node endpoint change forbidden: " +:+ pretty n +:+
              " dialing peer(s) already admitted to '" +:+ current_value +:+
              "'; restart with a fresh instance to change"));
    applied ← go (lift (if binding_consumer then _set_channel_data_endpoint channel_name endpoint
                        else _set_producer_zmq_node_endpoint channel_name role_uid endpoint));
    guard_ (negb applied)
      (not_channel_owner corr_id "Sender no longer registered (race condition)").

Definition handle_endpoint_update_req (req : json) (identity : string) : B json :=
  answered (
    corr_id ← go (value_str "correlation_id" req);
    channel_name ← go (value_str "channel_name" req);
    endpoint_type ← go (value_str "endpoint_type" req);
    endpoint ← go (value_str "endpoint" req);
    _ ← guard_ (str_empty channel_name || str_empty endpoint_type || str_empty endpoint)
          (make_error corr_id "INVALID_REQUEST" "Missing channel_name, endpoint_type, or endpoint");
    _ ← guard_ (negb (resolved endpoint))
          (make_error corr_id "INVALID_ENDPOINT"
             ("Endpoint '" +:+ endpoint +:+ "' is invalid or has port 0"));
    entry ← go (hubs (channel channel_name));
    match entry with
    | None => reply (channel_not_registered corr_id channel_name)
    | Some ch =>
        match endpoint_owner identity ch with
        | None => reply (not_channel_owner corr_id
                    ("Sender is not the binding side of channel '" +:+ channel_name +:+ "'"))
        | Some (role_uid, binding_consumer) =>
            _ ← guard_ (endpoint_type =s "inbox")
                  (make_error corr_id "INBOX_UPDATE_NOT_SUPPORTED"
                     "Inbox endpoint must be resolved before REG_REQ, not updated afterwards");
            _ ← guard_ (negb (endpoint_type =s "zmq_node"))
                  (make_error corr_id "UNKNOWN_ENDPOINT_TYPE"
                     ("endpoint_type must be 'zmq_node', got: '" +:+ endpoint_type +:+ "'"));
            let current_value := default ""
              (if binding_consumer then data_endpoint ch
               else producer_zmq_node_endpoint role_uid ch) in
            _ ← apply_endpoint corr_id channel_name endpoint role_uid binding_consumer current_value;
            mret (with_corr corr_id (obj [("status", JStr "success")]))
        end
    end).

(** ** Fan-out to the members of a channel *)

Definition send_to_members (msg_type : string) (body : json) (ch : ChannelEntry) : B unit :=
  let to identity := if str_empty identity then mret tt else send_to_identity identity msg_type body in
  _ ← each to (map c_zmq_identity (consumers ch));
  each to (map p_zmq_identity (producers ch)).

Definition handle_checksum_error_report (req : json) : B unit :=
  channel_name ← value_str "channel_name" req;
  _ ← value_logged_int "slot_index" req;
  _ ← value_u64 "reporter_pid" req;
  _ ← value_str "error" req;
  match checksum_repair_policy with
  | NotifyOnly =>
      entry ← hubs (channel channel_name);
      match entry with
      | Some ch => send_to_members "CHANNEL_EVENT_NOTIFY" (put "broker_action" (JStr "notify_only") req) ch
      | None => mret tt
      end
  | RepairNone => mret tt
  end.

Definition handle_channel_broadcast_req (req : json) : B unit :=
  target_channel ← value_str "target_channel" req;
  sender_uid ← value_str "sender_uid" req;
  message ← value_str "message" req;
  if str_empty target_channel then mret tt
  else
    entry ← hubs (channel target_channel);
    match entry with
    | None => mret tt
    | Some ch =>
        let data := json_get "data" req in
        let fwd := obj ([("channel_name", JStr target_channel); ("event", JStr "broadcast");
                         ("sender_uid", JStr sender_uid); ("message", JStr message)] ++
                        match data with Some (JStr s) => [("data", JStr s)] | _ => [] end) in
        _ ← send_to_members "CHANNEL_BROADCAST_DELIVER_NOTIFY" fwd ch;
        let data_str := match data with Some (JStr s) => s | _ => "" end in
        BrokerFederation.relay_notify_to_peers target_channel "broadcast" sender_uid
          (if str_empty data_str then message else message +:+ "|" +:+ data_str)
    end.

End channels.
End BrokerChannels.
