(* ===== verification/BrokerAttach.v ===== *)
(** * Channel authorization: allowlists, attach requests, confirmations

    Models [handle_get_channel_auth_req], [handle_consumer_attach_req_shm],
    [handle_consumer_attach_req_zmq], [handle_channel_auth_applied_req] and
    [handle_check_peer_ready_req] of [src/utils/ipc/broker_service.cpp].  An
    attach request that has to wait for the producer goes to the deferred
    queue of [Broker]; its answer comes from one of the drains. *)

From S2P Require Import Prelude.
From S2P Require Import Json.
From S2P Require Import Ledger.
From S2P Require Import Entries.
From S2P Require Import HubCore.
From S2P Require Import HubOps.
From S2P Require Import Broker.
From S2P Require Import BrokerReg.
Import Json Entries HubCore HubOps Broker.

Module BrokerAttach.

Section attach.
Context `{External, Config}.

Definition no_such_channel (corr_id channel_name : string) : json :=
  make_error corr_id "CHANNEL_NOT_FOUND" ("Channel '" +:+ channel_name +:+ "' does not exist").

Definition has_producer (uid : string) (ch : ChannelEntry) : bool :=
  existsb (λ p, p_role_uid p =s uid) (producers ch).
Definition has_consumer (uid : string) (ch : ChannelEntry) : bool :=
  existsb (λ c, c_role_uid c =s uid) (consumers ch).

(** [Queue::reader_is_binding_side] *)
Definition reader_is_binding_side (t : ChannelTopology) : bool := bool_decide (t = FanIn).

Definition is_binding_role (uid : string) (ch : ChannelEntry) : bool :=
  if reader_is_binding_side (topology ch) then has_consumer uid ch else has_producer uid ch.
Definition is_dialing_role (uid : string) (ch : ChannelEntry) : bool :=
  if reader_is_binding_side (topology ch) then has_producer uid ch else has_consumer uid ch.

(** ** GET_CHANNEL_AUTH_REQ *)

Definition handle_get_channel_auth_req (req : json) : B json :=
  answered (
    corr_id ← go (value_str "correlation_id" req);
    channel_name ← go (value_str "channel_name" req);
    caller_uid ← go (value_str "role_uid" req);
    _ ← guard_ (str_empty channel_name || str_empty caller_uid)
          (make_error corr_id "INVALID_REQUEST"
             "GET_CHANNEL_AUTH_REQ requires non-empty channel_name and role_uid");
    ch ← go (hubs (channel channel_name));
    match ch with
    | None => reply (no_such_channel corr_id channel_name)
    | Some ch =>
        let side := if reader_is_binding_side (topology ch) then "consumer" else "producer" in
        _ ← guard_ (negb (is_binding_role caller_uid ch))
              (make_error corr_id "PRODUCER_NOT_AUTHORIZED"
                 ("Caller role_uid='" +:+ caller_uid +:+
                  "' is not the binding-side role of channel '" +:+ channel_name +:+
                  "' (topology requires " +:+ side +:+ " to bind)"));
        access ← go (hubs (channel_access channel_name));
        let l := match access with Some a => ledger a | None => Ledger.empty_ledger end in
        mret (with_corr corr_id
          (obj [("status", JStr "success"); ("channel_name", JStr channel_name);
                ("allowlist", JArr (map JStr (Ledger.admitted_snapshot l)));
                ("snapshot_version", JInt (Ledger.current_version l))]))
    end).

(** ** CONSUMER_ATTACH_REQ_SHM *)

Definition handle_consumer_attach_req_shm (req : json) : B json :=
  answered (
    corr_id ← go (value_str "correlation_id" req);
    channel_name ← go (value_str "channel_name" req);
    consumer_pubkey ← go (value_str "consumer_pubkey" req);
    consumer_role_uid ← go (value_str "consumer_role_uid" req);
    caller_uid ← go (value_str "role_uid" req);
    _ ← guard_ (str_empty channel_name || str_empty consumer_pubkey ||
                str_empty consumer_role_uid || str_empty caller_uid)
          (make_error corr_id "INVALID_REQUEST"
             "CONSUMER_ATTACH_REQ_SHM requires non-empty channel_name, consumer_pubkey, consumer_role_uid, and role_uid");
    _ ← go (BrokerReg.log_peer_abi_fingerprint req false);
    ch ← go (hubs (channel channel_name));
    match ch with
    | None => reply (no_such_channel corr_id channel_name)
    | Some ch =>
        _ ← guard_ (negb (has_producer caller_uid ch))
              (make_error corr_id "PRODUCER_NOT_AUTHORIZED"
                 ("Caller role_uid='" +:+ caller_uid +:+
                  "' is not a registered producer of channel '" +:+ channel_name +:+ "'"));
        access ← go (hubs (channel_access channel_name));
        match access with
        | None => reply (make_error corr_id "INTERNAL_ERROR"
                    ("ChannelAccessEntry missing for channel '" +:+ channel_name +:+ "'"))
        | Some a =>
            let authorized := bool_decide
              (Ledger.admission_version_of consumer_pubkey (ledger a) ≠ None) in
            mret (with_corr corr_id
              (obj ([("channel_name", JStr channel_name); ("consumer_pubkey", JStr consumer_pubkey)] ++
                    BrokerReg.abi_members ++
                    if authorized then [("status", JStr "success")]
                    else [("status", JStr "denied");
                          ("denial_reason", JStr "consumer_pubkey not in channel allowlist")])))
        end
    end).

(** ** CONSUMER_ATTACH_REQ_ZMQ *)

Record AttachReq := mkAttachReq {
  at_corr : string; at_channel : string; at_consumer_uid : string; at_consumer_pubkey : string;
  at_producer_uid : string;
}.

Definition attach_answer (r : AttachReq) (members : list (string * json)) : json :=
  with_corr (at_corr r)
    (obj (members ++ [("channel_name", JStr (at_channel r));
                      ("producer_role_uid", JStr (at_producer_uid r))])).

Definition denied (r : AttachReq) (reason : string) : json :=
  attach_answer r [("status", JStr "denied"); ("reason", JStr reason)].

(** [pending_attach_queue_[channel][producer].push_back(e)] *)
Definition enqueue (channel_name producer_uid : string) (e : PendingAttachEntry)
    (q : gmap string (gmap string (list PendingAttachEntry))) :
    gmap string (gmap string (list PendingAttachEntry)) :=
  let by_producer := default ∅ (q !! channel_name) in
  <[channel_name := <[producer_uid := default [] (by_producer !! producer_uid) ++ [e]]> by_producer]> q.

(** The wait path: queue the request and ring the producer. *)
Definition wait_for_producer (r : AttachReq) (router_identity producer_identity : string)
    (channel_version : Z) : B unit :=
  env ← asks;
  q ← queues;
  _ ← set_queues (enqueue (at_channel r) (at_producer_uid r)
        (mkPending router_identity (at_corr r) (at_consumer_pubkey r) (at_consumer_uid r)
           channel_version (steady_now env)) q);
  if str_empty producer_identity then mret tt
  else send_to_identity producer_identity "CHANNEL_AUTH_CHANGED_NOTIFY"
         (obj [("channel_name", JStr (at_channel r)); ("channel_version", JInt channel_version);
               ("role_uid", JStr (at_consumer_uid r)); ("role_type", JStr "consumer");
               ("phase", JStr "admitted")]).

Definition read_attach_req (req : json) : H AttachReq :=
  corr_id ← go (value_str "correlation_id" req);
  channel_name ← go (value_str "channel_name" req);
  consumer_role_uid ← go (value_str "consumer_role_uid" req);
  consumer_pubkey ← go (value_str "consumer_pubkey" req);
  producer_role_uid ← go (value_str "producer_role_uid" req);
  _ ← guard_ (str_empty channel_name || str_empty consumer_pubkey ||
              str_empty consumer_role_uid || str_empty producer_role_uid)
        (make_error corr_id "INVALID_REQUEST"
           "CONSUMER_ATTACH_REQ_ZMQ requires non-empty channel_name, consumer_pubkey, consumer_role_uid, and producer_role_uid");
  mret (mkAttachReq corr_id channel_name consumer_role_uid consumer_pubkey producer_role_uid).

Definition handle_consumer_attach_req_zmq (req : json) (router_identity : string) : B json :=
  answered (
    r ← read_attach_req req;
    _ ← go (BrokerReg.log_peer_abi_fingerprint req false);
    access ← go (hubs (channel_access (at_channel r)));
    ch ← go (hubs (channel (at_channel r)));
    match access, ch with
    | None, _ => reply (denied r "consumer_not_in_channel_allowlist")
    | _, None => reply (denied r "producer_not_live")
    | Some a, Some ch =>
        _ ← guard_ (negb (bool_decide (topology ch = FanIn)) &&
                    bool_decide (Ledger.admission_version_of (at_consumer_pubkey r) (ledger a) = None))
              (denied r "consumer_not_in_channel_allowlist");
        match find (λ p, p_role_uid p =s at_producer_uid r) (producers ch) with
        | None => reply (denied r "producer_not_live")
        | Some p =>
            let confirmed := default 0 (Ledger.confirmed_version_of (at_producer_uid r) (ledger a)) in
            let channel_version := Ledger.current_version (ledger a) in
            if channel_version <=? confirmed then
              mret (attach_answer r (("status", JStr "success") :: BrokerReg.abi_members))
            else
              _ ← go (wait_for_producer r router_identity (p_zmq_identity p) channel_version);
              mret (attach_answer r [("status", JStr "pending")])
        end
    end).

(** ** CHANNEL_AUTH_APPLIED_REQ *)

Definition applied_ok (corr_id channel_name : string) (new_confirmed : Z) : json :=
  with_corr corr_id
    (obj [("status", JStr "ok"); ("channel_name", JStr channel_name);
          ("applied_version", JInt new_confirmed)]).

Definition handle_channel_auth_applied_req (req : json) : B json :=
  answered (
    corr_id ← go (value_str "correlation_id" req);
    channel_name ← go (value_str "channel_name" req);
    role_type ← go (value_str_or "producer" "role_type" req);
    legacy_prod_uid ← go (value_str "producer_role_uid" req);
    role_uid ← (if bool_decide (json_get "role_uid" req = None) then mret legacy_prod_uid
                else go (value_str "role_uid" req));
    incoming_instance ← go (value_u64 "instance_id" req);
    applied_version ← go (value_u64 "applied_version" req);
    _ ← guard_ (str_empty channel_name || str_empty role_uid)
          (make_error corr_id "INVALID_REQUEST"
             "CHANNEL_AUTH_APPLIED_REQ requires non-empty channel_name and role_uid (or legacy producer_role_uid)");
    ch ← go (hubs (channel channel_name));
    _ ← guard_ (bool_decide (ch = None))
          (make_error corr_id "CHANNEL_NOT_FOUND"
             ("CHANNEL_AUTH_APPLIED_REQ for channel '" +:+ channel_name +:+ "' — no such channel"));
    registered ← go (hubs (is_role_registered_on_channel channel_name role_uid role_type));
    _ ← guard_ (negb registered)
          (make_error corr_id "NOT_A_ROLE_OF_CHANNEL"
             ("CHANNEL_AUTH_APPLIED_REQ role_uid='" +:+ role_uid +:+ "' is not a registered " +:+
              role_type +:+ " on channel '" +:+ channel_name +:+ "'"));
    if role_type =s "consumer" then
      new_confirmed ← go (lift (_on_role_confirmed channel_name role_uid applied_version));
      mret (applied_ok corr_id channel_name new_confirmed)
    else
      _ ← guard_ (negb (role_type =s "producer"))
            (make_error corr_id "INVALID_REQUEST"
               "CHANNEL_AUTH_APPLIED_REQ role_type must be 'producer' or 'consumer' (or absent for producer back-compat)");
      current_instance ← go (hubs (producer_instance role_uid));
      _ ← guard_ (negb (incoming_instance =? current_instance))
            (make_error corr_id "STALE_INSTANCE"
               "CHANNEL_AUTH_APPLIED_REQ from stale producer instance dropped per HEP-CORE-0042 §5.2");
      new_confirmed ← go (lift (_on_role_confirmed channel_name role_uid applied_version));
      _ ← go (drain_pending_attach_queue_for_producer_confirmed_ channel_name role_uid new_confirmed);
      mret (applied_ok corr_id channel_name new_confirmed)).

(** ** CHECK_PEER_READY_REQ *)

Inductive Readiness := ready | not_ready (reason : string).

Definition binding_role_uid (ch : ChannelEntry) : string :=
  if reader_is_binding_side (topology ch)
  then match consumers ch with c :: _ => c_role_uid c | [] => "" end
  else match producers ch with p :: _ => p_role_uid p | [] => "" end.

(** Whether the binding side is known to let the key in. *)
Definition peer_readiness (channel_name pubkey : string) (ch : ChannelEntry) (h : HubImpl) : Readiness :=
  let binding := binding_role_uid ch in
  if str_empty binding then not_ready "not_confirmed"
  else match is_pubkey_visible_to channel_name binding pubkey h, channel_access channel_name h with
  | Some true, _ => ready
  | None, None => not_ready "not_admitted"
  | None, Some _ => not_ready "not_confirmed"
  | Some false, Some a =>
      not_ready (if bool_decide (Ledger.admission_version_of pubkey (ledger a) = None)
                 then "not_admitted" else "not_confirmed")
  | Some false, None => not_ready "not_admitted"
  end.

Definition readiness_answer (corr_id channel_name : string) (r : Readiness) : json :=
  with_corr corr_id
    (obj (("channel_name", JStr channel_name) ::
          match r with
          | ready => [("status", JStr "ready")]
          | not_ready reason => [("status", JStr "not_ready"); ("reason", JStr reason)]
          end)).

Definition handle_check_peer_ready_req (req : json) : B json :=
  answered (
    corr_id ← go (value_str "correlation_id" req);
    channel_name ← go (value_str "channel_name" req);
    role_uid ← go (value_str "role_uid" req);
    pubkey ← go (value_str "pubkey_z85" req);
    _ ← guard_ (str_empty channel_name || str_empty role_uid || str_empty pubkey)
          (make_error corr_id "INVALID_REQUEST"
             "CHECK_PEER_READY_REQ requires non-empty channel_name, role_uid, and pubkey_z85");
    ch ← go (hubs (channel channel_name));
    match ch with
    | None => reply (no_such_channel corr_id channel_name)
    | Some ch =>
        let side := if reader_is_binding_side (topology ch) then "producer" else "consumer" in
        _ ← guard_ (negb (is_dialing_role role_uid ch))
              (make_error corr_id "NOT_A_ROLE_OF_CHANNEL"
                 ("Caller role_uid='" +:+ role_uid +:+ "' is not the dialing-side role of channel '" +:+
                  channel_name +:+ "' (topology requires " +:+ side +:+ " to dial)"));
        h ← go (hubs id);
        mret (readiness_answer corr_id channel_name (peer_readiness channel_name pubkey ch h))
    end).

End attach.
End BrokerAttach.
