(* ===== verification/BrokerQueries.v ===== *)
(** * Read-only requests

    Models [handle_schema_req], [handle_channel_list_req],
    [handle_role_presence_req], [handle_role_info_req], [collect_shm_info],
    [handle_shm_block_query] and [handle_metrics_req] of
    [src/utils/ipc/broker_service.cpp] with [HubState::channel_metrics_snapshot]
    of [hub_state.cpp].  The channels of a snapshot are visited in the order of
    the map (the source's hash map has an order of its own).  What the broker
    reads from a channel's shared memory is [datablock_get_metrics].

    Module [BrokerBands] comes first: band requests. *)

From S2P Require Import Prelude.
From S2P Require Import Json.
From S2P Require Import Naming.
From S2P Require Import Entries.
From S2P Require Import HubCore.
From S2P Require Import HubOps.
From S2P Require Import Broker.
From S2P Require Import SchemaRegistry.
From S2P Require Import AdmissionGates.
Import Json Entries HubCore HubOps Broker.

(** * Band requests

    Models [handle_band_join_req], [handle_band_leave_req],
    [handle_band_broadcast_req] and [handle_band_members_req] of
    [src/utils/ipc/broker_service.cpp].  The [BAND_LEAVE_NOTIFY] that follows
    a removal is sent by the broker's subscriber to [band_left]; the model
    shows the delivery ([Deliver]), and [Broker.send_band_leave_notify] is what
    the subscriber does with it. *)
Module BrokerBands.

Section bands.
Context `{External, Config}.

Definition invalid_band (corr_id : string) : json :=
  make_error corr_id "INVALID_BAND_NAME" "Band identifier failed validation (HEP-CORE-0030 §3 grammar)".

Definition members_json (b : option BandEntry) : json :=
  JArr (match b with
        | Some b => map (λ m, obj [("role_uid", JStr (bm_role_uid m)); ("role_name", JStr (bm_role_name m))])
                      (members b)
        | None => []
        end).

Definition is_member (role_uid : string) (b : BandEntry) : bool :=
  existsb (λ m, bm_role_uid m =s role_uid) (members b).

Definition read_band_req (req : json) : H (string * string * string) :=
  corr_id ← go (value_str "correlation_id" req);
  band_name ← go (value_str "band" req);
  role_uid ← go (value_str "role_uid" req);
  mret (corr_id, band_name, role_uid).

Definition check_band_req (corr_id band_name role_uid : string) : H unit :=
  _ ← guard_ (str_empty band_name || str_empty role_uid)
        (make_error corr_id "INVALID_REQUEST" "Missing band or role_uid");
  guard_ (negb (Naming.is_valid_identifier band_name Naming.Band)) (invalid_band corr_id).

Definition handle_band_join_req (req : json) (identity : string) : B json :=
  answered (
    '(corr_id, band_name, role_uid) ← read_band_req req;
    role_name ← go (value_str "role_name" req);
    _ ← check_band_req corr_id band_name role_uid;
    _ ← guard_ (negb (str_empty role_name) && negb (Naming.is_valid_identifier role_name Naming.RoleName))
          (make_error corr_id "INVALID_REQUEST"
             ("role_name '" +:+ role_name +:+ "' failed grammar validation (HEP-CORE-0033 §G2.2.0b)"));
    pre_band ← go (hubs (band band_name));
    let notify := obj [("band", JStr band_name); ("role_uid", JStr role_uid); ("role_name", JStr role_name)] in
    _ ← go (each (λ m, if str_empty (bm_zmq_identity m) then mret tt
                       else send_to_identity (bm_zmq_identity m) "BAND_JOIN_NOTIFY" notify)
              (match pre_band with Some b => members b | None => [] end));
    env ← go asks;
    _ ← go (lift (_on_band_joined band_name (mkBandMember role_uid role_name identity (system_now env))));
    post_band ← go (hubs (band band_name));
    mret (with_corr corr_id
      (obj [("status", JStr "success"); ("band", JStr band_name); ("members", members_json post_band)]))).

Definition handle_band_leave_req (req : json) : B json :=
  answered (
    '(corr_id, band_name, role_uid) ← read_band_req req;
    _ ← check_band_req corr_id band_name role_uid;
    pre ← go (hubs (band band_name));
    _ ← guard_ (negb (match pre with Some b => is_member role_uid b | None => false end))
          (make_error corr_id "NOT_A_MEMBER"
             ("Sender '" +:+ role_uid +:+ "' is not a member of band '" +:+ band_name +:+ "'"));
    _ ← go (lift (_on_band_left band_name role_uid));
    mret (with_corr corr_id (obj [("status", JStr "success")]))).

Definition deliver_broadcast (band_name role_uid : string) (body : json) (b : BandEntry) : B unit :=
  let notify := obj [("band", JStr band_name); ("role_uid", JStr role_uid); ("body", body)] in
  each (λ m, if (bm_role_uid m =s role_uid) || str_empty (bm_zmq_identity m) then mret tt
             else send_to_identity (bm_zmq_identity m) "BAND_BROADCAST_DELIVER_NOTIFY" notify)
    (members b).

Definition handle_band_broadcast_req (req : json) : B unit :=
  band_name ← value_str "band" req;
  role_uid ← value_str "role_uid" req;
  if str_empty band_name || negb (Naming.is_valid_identifier band_name Naming.Band) ||
     negb (Naming.is_valid_identifier role_uid Naming.RoleUid)
  then mret tt
  else
    b ← hubs (band band_name);
    match b with
    | Some b => if is_member role_uid b
                then deliver_broadcast band_name role_uid (default (JObj []) (json_get "body" req)) b
                else mret tt
    | None => mret tt
    end.

Definition handle_band_members_req (req : json) : B json :=
  answered (
    band_name ← go (value_str "band" req);
    corr_id ← go (value_str "correlation_id" req);
    _ ← guard_ (negb (str_empty band_name) && negb (Naming.is_valid_identifier band_name Naming.Band))
          (invalid_band corr_id);
    b ← go (hubs (band band_name));
    mret (with_corr corr_id (obj [("band", JStr band_name); ("members", members_json b)]))).

End bands.
End BrokerBands.

Import Json Entries HubCore HubOps Broker.

Module BrokerQueries.

Section queries.
Context `{External, Config}.

(** ** SCHEMA_REQ *)

Definition schema_record_answer (corr_id : string) (r : SchemaRecord) : json :=
  with_corr corr_id
    (obj [("status", JStr "success"); ("owner", JStr (owner_uid r)); ("schema_id", JStr (sr_schema_id r));
          ("packing", JStr (packing r)); ("blds", JStr (blds r));
          ("flexzone_packing", JStr (flexzone_packing r)); ("flexzone_blds", JStr (sr_flexzone_blds r));
          ("schema_hash", JStr (Hex.bytes_to_hex (SchemaRegistry.raw_bytes (hash r))))]).

Definition channel_schema_answer (corr_id channel_name : string) (ch : ChannelEntry) : json :=
  with_corr corr_id
    (obj [("status", JStr "success"); ("channel_name", JStr channel_name);
          ("schema_id", JStr (ch_schema_id ch)); ("schema_owner", JStr (ch_schema_owner ch));
          ("blds", JStr (ch_schema_blds ch)); ("flexzone_blds", JStr (ch_flexzone_blds ch));
          ("schema_hash", JStr (ch_schema_hash ch))]).

Definition handle_schema_req (req : json) : B json :=
  answered (
    _ ← guard_ (negb (is_object req))
          (make_error "" "INVALID_REQUEST" "SCHEMA_REQ payload must be a JSON object");
    corr_id ← go (value_str "correlation_id" req);
    req_owner ← go (value_str "owner" req);
    req_schema_id ← go (value_str "schema_id" req);
    if negb (str_empty req_owner) && negb (str_empty req_schema_id) then
      rec ← go (hubs (schema req_owner req_schema_id));
      mret (match rec with
            | None => make_error corr_id "SCHEMA_UNKNOWN"
                        ("No schema record under (" +:+ req_owner +:+ ", " +:+ req_schema_id +:+ ")")
            | Some r => schema_record_answer corr_id r
            end)
    else
      channel_name ← go (value_str "channel_name" req);
      _ ← guard_ (str_empty channel_name)
            (make_error corr_id "INVALID_REQUEST"
               "SCHEMA_REQ requires either ('owner' + 'schema_id') or 'channel_name'");
      entry ← go (hubs (channel channel_name));
      mret (match entry with
            | None => make_error corr_id "CHANNEL_NOT_FOUND"
                        ("Channel '" +:+ channel_name +:+ "' is not registered")
            | Some ch => channel_schema_answer corr_id channel_name ch
            end)).

(** ** CHANNEL_LIST_REQ *)

Definition channel_row (snap : HubStateSnapshot) (name : string) (ch : ChannelEntry) : json :=
  obj [("name", JStr name);
       ("producer_uids", JArr (map (λ p, JStr (p_role_uid p)) (producers ch)));
       ("producer_uid", JStr (match producers ch with p :: _ => p_role_uid p | [] => "" end));
       ("producer_pid", JInt (match producers ch with p :: _ => producer_pid p | [] => 0 end));
       ("schema_id", JStr (ch_schema_id ch)); ("consumer_count", JInt (Z.of_nat (length (consumers ch))));
       ("observable", JStr (observable_to_string (observe_channel ch snap)))].

Definition handle_channel_list_req (req : json) : B json :=
  answered (
    corr_id ← go (value_str "correlation_id" req);
    snap ← go (lift snapshot);
    mret (with_corr corr_id
      (obj [("status", JStr "success");
            ("channels", JArr (map (λ kv, channel_row snap kv.1 kv.2) (map_to_list (snap_channels snap))))]))).

(** ** ROLE_PRESENCE_REQ and ROLE_INFO_REQ *)

Definition missing_role_uid (corr_id : string) : json :=
  make_error corr_id "MISSING_ROLE_UID" "missing role_uid".

Definition consumer_named (uid : string) (ch : ChannelEntry) : option ConsumerEntry :=
  find (λ c, negb (str_empty (c_role_uid c)) && (c_role_uid c =s uid)) (consumers ch).

(** Where the role is, on this channel. *)
Definition presence_on (uid : string) (ch : ChannelEntry) : option string :=
  match find_producer uid ch, consumer_named uid ch with
  | Some _, _ => Some "producer"
  | None, Some _ => Some "consumer"
  | None, None => None
  end.

(** The first channel with a result, in the order of the list. *)
Fixpoint first_channel {A} (f : ChannelEntry → option A) (l : list (string * ChannelEntry)) :
    option (string * A) :=
  match l with
  | [] => None
  | (name, ch) :: l => match f ch with Some a => Some (name, a) | None => first_channel f l end
  end.

Definition handle_role_presence_req (req : json) : B json :=
  answered (
    corr_id ← go (value_str "correlation_id" req);
    uid ← go (value_str "role_uid" req);
    _ ← guard_ (str_empty uid) (missing_role_uid corr_id);
    snap ← go (lift snapshot);
    mret (with_corr corr_id
      (obj (match first_channel (presence_on uid) (map_to_list (snap_channels snap)) with
            | Some (name, side) =>
                [("present", JBool true); ("channel", JStr name); ("role", JStr side)]
            | None => [("present", JBool false)]
            end)))).

Definition inbox_receiver_pubkey (uid : string) : string :=
  match find (λ kr, AdmissionGates.kr_uid kr =s uid) known_roles with
  | Some kr => AdmissionGates.kr_pubkey_z85 kr
  | None => ""
  end.

(** The stored schema, an empty array when there is none or it is malformed. *)
Definition inbox_schema (stored : string) : json :=
  if str_empty stored then JArr [] else default (JArr []) (parse stored).

Definition inbox_members (uid name endpoint schema_json packing checksum : string) :
    list (string * json) :=
  [("found", JBool (negb (str_empty endpoint))); ("channel", JStr name);
   ("inbox_endpoint", JStr endpoint); ("inbox_packing", JStr packing);
   ("inbox_checksum", JStr checksum);
   ("inbox_receiver_pubkey_z85", JStr (inbox_receiver_pubkey uid));
   ("inbox_schema", inbox_schema schema_json)].

Definition handle_role_info_req (req : json) : B json :=
  answered (
    corr_id ← go (value_str "correlation_id" req);
    uid ← go (value_str "role_uid" req);
    _ ← guard_ (str_empty uid) (missing_role_uid corr_id);
    snap ← go (lift snapshot);
    let chs := map_to_list (snap_channels snap) in
    mret (with_corr corr_id
      (obj (match first_channel (find_producer uid) chs with
            | Some (name, p) =>
                inbox_members uid name (p_inbox_endpoint p) (p_inbox_schema_json p) (p_inbox_packing p)
                  (p_inbox_checksum p)
            | None =>
                match first_channel (consumer_named uid) chs with
                | Some (name, c) =>
                    inbox_members uid name (c_inbox_endpoint c) (c_inbox_schema_json c)
                      (c_inbox_packing c) (c_inbox_checksum c)
                | None => [("found", JBool false)]
                end
            end)))).

(** ** Shared memory blocks *)

Definition block_row (name : string) (ch : ChannelEntry) : json :=
  let p := first_producer ch in
  obj [("channel", JStr name);
       ("producer", obj [("pid", JInt (match p with Some p => producer_pid p | None => 0 end));
                         ("uid", JStr (match p with Some p => p_role_uid p | None => "" end));
                         ("name", JStr (match p with Some p => p_role_name p | None => "" end))]);
       ("consumers", JArr (map (λ c, obj [("pid", JInt (consumer_pid c)); ("uid", JStr (c_role_uid c));
                                          ("name", JStr (c_role_name c))]) (consumers ch)));
       ("shm_metrics", match datablock_get_metrics name with Some ms => obj ms | None => JNull end)].

Definition collect_shm_info (channel_name : string) : B json :=
  snap ← lift snapshot;
  mret (obj [("status", JStr "success");
             ("blocks", JArr (omap (λ kv,
                if negb (str_empty channel_name) && negb (kv.1 =s channel_name) then None
                else if negb (is_shm kv.2) then None
                else Some (block_row kv.1 kv.2)) (map_to_list (snap_channels snap))))]).

Definition handle_shm_block_query (req : json) : B json :=
  channel_name ← value_str "channel" req;
  collect_shm_info channel_name.

(** ** METRICS_REQ *)

(** The metrics of one presence, with the time of its last report. *)
Definition presence_metrics (extra : list (string * json)) (p : RolePresence) : option json :=
  if is_null (latest_metrics p) then None
  else
    let one := foldl (λ j kv, put kv.1 kv.2 j) (latest_metrics p) extra in
    Some (if metrics_collected_at p =? 0 then one
          else put "_collected_at" (JStr (formatted_time (metrics_collected_at p))) one).

Definition metrics_of (channel_name role_type uid : string) (extra : list (string * json))
    (h : HubImpl) : option (string * json) :=
  if str_empty uid then None
  else
    match roles_ h !! uid with
    | None => None
    | Some r => match find_presence channel_name role_type r with
                | None => None
                | Some p => pair uid <$> presence_metrics extra p
                end
    end.

(** The group is left out when it is empty. *)
Definition group (key : string) (rows : list (string * json)) : list (string * json) :=
  match rows with [] => [] | _ => [(key, obj rows)] end.

Definition channel_metrics_snapshot (channel_name : string) (h : HubImpl) : json :=
  match channels_ h !! channel_name with
  | None => JObj []
  | Some ch =>
      obj (group "producers" (omap (λ p, metrics_of channel_name "producer" (p_role_uid p)
                                          [("pid", JInt (producer_pid p))] h) (producers ch)) ++
           group "consumers" (omap (λ c, metrics_of channel_name "consumer" (c_role_uid c) [] h)
                                (consumers ch)))
  end.

Definition handle_metrics_req (req : json) : B json :=
  corr_id ← value_str "correlation_id" req;
  channel_name ← value_str "channel_name" req;
  h ← hubs id;
  blocks ← collect_shm_info channel_name;
  mret (with_corr corr_id
    (obj ([("status", JStr "success")] ++
          (if negb (str_empty channel_name) then
             [("channel", JStr channel_name); ("metrics", channel_metrics_snapshot channel_name h)]
           else
             [("channels", obj (map (λ kv, (kv.1, channel_metrics_snapshot kv.1 h))
                                  (map_to_list (channels_ h))))]) ++
          [("shm_blocks", blocks)]))).

End queries.
End BrokerQueries.
