(* ===== verification/BrokerSweep.v ===== *)
(** * The broker's periodic work

    Models what [BrokerServiceImpl::run] does on every turn before it reads a
    message: the requested closes, broadcasts and targeted messages
    ([broker_service.cpp]), [check_heartbeat_timeouts] with
    [for_each_presence_matching] of [hub_state_queries.hpp].  The channels of a
    snapshot are visited in the order of the map; all the clocks of one turn
    are read as one. *)

From S2P Require Import Prelude.
From S2P Require Import Json.
From S2P Require Import Entries.
From S2P Require Import HubCore.
From S2P Require Import HubOps.
From S2P Require Import AdmissionGates.
From S2P Require Import Broker.
From S2P Require Import BrokerFederation.
From S2P Require Import BrokerChannels.
Import Json Entries HubCore HubOps Broker.

Module BrokerSweep.

(** ** Presences of a channel *)

Inductive PartyKind := Producer | Consumer.

(** [PresenceSweepTarget]: the party with its entry, its presence, and the
    channel as it was. *)
Record PresenceSweepTarget := mkTarget {
  party : PartyKind;
  target_uid : string;
  target_consumer : option ConsumerEntry;
  presence : RolePresence;
  channel_entry : ChannelEntry;
}.

Definition resolve_presence (channel_name role_type role_uid : string) (roles : gmap string RoleEntry) :
    option RolePresence :=
  match roles !! role_uid with Some r => find_presence channel_name role_type r | None => None end.

(** The visits of [for_each_presence_matching], in order. *)
Definition presences_matching (ch : ChannelEntry) (roles : gmap string RoleEntry)
    (pred : RolePresence → bool) : list PresenceSweepTarget :=
  let keep k uid c o := match o with
    | Some p => if pred p then Some (mkTarget k uid c p ch) else None
    | None => None
    end in
  omap (λ p, keep Producer (p_role_uid p) None
               (resolve_presence (ch_name ch) "producer" (p_role_uid p) roles)) (producers ch) ++
  omap (λ c, keep Consumer (c_role_uid c) (Some c)
               (resolve_presence (ch_name ch) "consumer" (c_role_uid c) roles)) (consumers ch).

Definition role_type_of (k : PartyKind) : string :=
  match k with Producer => "producer" | Consumer => "consumer" end.

Section sweep.
Context `{External, Config}.

(** ** Heartbeat timeouts *)

Definition ms (d : Z) : Z := d * AdmissionGates.ns_per_ms.

Definition ready_expired (now : Z) (p : RolePresence) : bool :=
  bool_decide (rp_state p = Connected) && (ms effective_ready_timeout <=? now - last_heartbeat p).
Definition pending_expired (now : Z) (p : RolePresence) : bool :=
  bool_decide (rp_state p = Pending) && (ms effective_pending_timeout <=? now - state_since p).

Definition pass1_decisions (now : Z) (snap : HubStateSnapshot) : list PresenceSweepTarget :=
  concat (map (λ kv, presences_matching kv.2 (snap_roles snap) (ready_expired now))
            (map_to_list (snap_channels snap))).

Definition demote (t : PresenceSweepTarget) : B unit :=
  lift (_on_heartbeat_timeout (ch_name (channel_entry t)) (target_uid t) (role_type_of (party t))).

(** [true]: the last producer went and the channel with it. *)
Definition reclaim_producer (t : PresenceSweepTarget) : B bool :=
  let ch := channel_entry t in
  drop ← lift (_on_pending_timeout (ch_name ch) (target_uid t) "producer");
  if removed drop then
    _ ← BrokerChannels.after_producer_drop (ch_name ch) (target_uid t) "pending_timeout"
          (channel_now_empty drop) ch;
    mret (channel_now_empty drop)
  else mret false.

(** The producers of one channel; [true] when the channel was torn down, which
    ends the pass over it. *)
Fixpoint reclaim_producers (ts : list PresenceSweepTarget) : B bool :=
  match ts with
  | [] => mret false
  | t :: ts =>
      match party t with
      | Consumer => reclaim_producers ts
      | Producer =>
          torn_down ← reclaim_producer t;
          if torn_down : bool then mret true else reclaim_producers ts
      end
  end.

Definition consumer_died (ch : ChannelEntry) (c : ConsumerEntry) : json :=
  obj [("channel_name", JStr (ch_name ch)); ("role_uid", JStr (c_role_uid c));
       ("consumer_pid", JInt (consumer_pid c)); ("consumer_hostname", JStr (consumer_hostname c));
       ("reason", JStr "heartbeat_timeout")].

Definition reclaim_consumer (t : PresenceSweepTarget) : B unit :=
  match party t, target_consumer t with
  | Consumer, Some c =>
      let ch := channel_entry t in
      drop ← lift (_on_pending_timeout (ch_name ch) (target_uid t) "consumer");
      if removed drop then
        _ ← each (λ p, if str_empty (p_zmq_identity p) then mret tt
                       else send_to_identity (p_zmq_identity p) "CONSUMER_DIED_NOTIFY" (consumer_died ch c))
              (producers ch);
        BrokerChannels.revoke_consumer (ch_name ch) c
      else mret tt
  | _, _ => mret tt
  end.

Definition pass2_channel (now : Z) (roles : gmap string RoleEntry) (ch : ChannelEntry) : B unit :=
  let ts := presences_matching ch roles (pending_expired now) in
  torn_down ← reclaim_producers ts;
  if torn_down : bool then mret tt else each reclaim_consumer ts.

Definition check_heartbeat_timeouts : B unit :=
  snap ← lift snapshot;
  env ← asks;
  let now := steady_now env in
  _ ← sweep_pending_attach_timeouts_ now (ms effective_producer_apply_wait);
  _ ← each demote (pass1_decisions now snap);
  snap2 ← lift snapshot;
  each (λ kv, pass2_channel now (snap_roles snap2) kv.2) (map_to_list (snap_channels snap2)).

(** ** Requested closes, broadcasts, targeted messages *)

Record CloseRequest := mkClose { cl_channel : string; cl_origin_uid : string; cl_request_id : string }.
Record BroadcastRequest := mkBroadcast {
  br_channel : string; br_message : string; br_data : string; br_origin_uid : string;
  br_request_id : string;
}.
Record HubTargetedRequest := mkTargeted { target_hub_uid : string; ht_channel : string; ht_payload : string }.

(** A line for the operator's console, when the request came from there. *)
Definition console_line (request_id : string) (content : list (string * json)) : B unit :=
  if str_empty request_id then mret tt
  else
    env ← asks;
    _ ← lift (append_console_line (λ j, Z.of_nat (String.length (dump j))) request_id (obj content)
                (AdmissionGates.wall_ms env));
    mret tt.

Definition close_channel (name reason : string) (ch : ChannelEntry) : B unit :=
  _ ← send_closing_notify name ch reason;
  _ ← lift (_on_channel_closed name AdminClose);
  BrokerChannels.close_channel_access name.

Definition close_requested (cr : CloseRequest) : B unit :=
  entry ← hubs (channel (cl_channel cr));
  _ ← (match entry with
       | Some ch =>
           close_channel (cl_channel cr)
             (if str_empty (cl_origin_uid cr) then "script_requested" else "admin_requested") ch
       | None => mret tt
       end);
  console_line (cl_request_id cr)
    [("event", JStr (if bool_decide (entry = None) then "channel_absent" else "channel_closed"));
     ("channel", JStr (cl_channel cr)); ("origin_uid", JStr (cl_origin_uid cr))].

Definition broadcast_requested (br : BroadcastRequest) : B unit :=
  let sender := if negb (str_empty (br_origin_uid br)) then br_origin_uid br
                else if str_empty self_hub_uid then "hub" else self_hub_uid in
  _ ← BrokerChannels.handle_channel_broadcast_req
        (obj ([("target_channel", JStr (br_channel br)); ("sender_uid", JStr sender);
               ("message", JStr (br_message br))] ++
              if str_empty (br_data br) then [] else [("data", JStr (br_data br))]));
  console_line (br_request_id br)
    [("event", JStr "channel_broadcast_sent"); ("channel", JStr (br_channel br));
     ("message", JStr (br_message br)); ("origin_uid", JStr (br_origin_uid br))].

Definition targeted_requested (ht : HubTargetedRequest) : B unit :=
  p ← hubs (peer (target_hub_uid ht));
  match p with
  | Some p =>
      if BrokerFederation.is_connected p && negb (str_empty (pe_zmq_identity p)) then
        send_to_identity (pe_zmq_identity p) "HUB_TARGETED_MSG"
          (obj [("target_hub_uid", JStr (target_hub_uid ht)); ("channel_name", JStr (ht_channel ht));
                ("sender_uid", JStr self_hub_uid); ("payload", JStr (ht_payload ht))])
      else mret tt
  | None => mret tt
  end.

(** What one turn does before it reads the sockets. *)
Definition periodic (closes : list CloseRequest) (broadcasts : list BroadcastRequest)
    (targeted : list HubTargetedRequest) : B unit :=
  _ ← each close_requested closes;
  _ ← each broadcast_requested broadcasts;
  _ ← each targeted_requested targeted;
  _ ← check_heartbeat_timeouts;
  BrokerFederation.prune_relay_dedup.

End sweep.
End BrokerSweep.
