(* ===== verification/BrokerDispatch.v ===== *)
(** * From a received message to its handler and back

    Models [is_request_reply], [is_fire_and_forget], [is_known_msg_type],
    [dispatch_received], [process_message] and [emit_processing_error] of
    [src/utils/ipc/broker_service.cpp], and the turn of [run] that receives a
    message.  An exception of a handler is caught where the source catches it;
    one that leaves [process_message] leaves [serve]. *)

From S2P Require Import Prelude.
From S2P Require Import Json.
From S2P Require Import HubCore.
From S2P Require Import HubOps.
From S2P Require Import Wire.
From S2P Require Import AdmissionGates.
From S2P Require Import WireDispatch.
From S2P Require Import Broker.
From S2P Require Import BrokerReg.
From S2P Require Import BrokerFederation.
From S2P Require Import BrokerChannels.
From S2P Require Import BrokerAttach.
From S2P Require Import BrokerQueries.
Import Json HubCore HubOps WireDispatch Broker.

Module BrokerDispatch.

(** ** Message types *)

Definition kRequestReplyTypes : list string :=
  ["REG_REQ"; "DISC_REQ"; "DEREG_REQ"; "CONSUMER_REG_REQ"; "CONSUMER_DEREG_REQ";
   "ENDPOINT_UPDATE_REQ"; "SCHEMA_REQ"; "CHANNEL_LIST_REQ"; "METRICS_REQ"; "SHM_BLOCK_QUERY_REQ";
   "ROLE_PRESENCE_REQ"; "ROLE_INFO_REQ"; "BAND_JOIN_REQ"; "BAND_LEAVE_REQ"; "BAND_MEMBERS_REQ";
   "HUB_PEER_HELLO"; "GET_CHANNEL_AUTH_REQ"; "CONSUMER_ATTACH_REQ_SHM"; "CONSUMER_ATTACH_REQ_ZMQ";
   "CHANNEL_AUTH_APPLIED_REQ"; "CHECK_PEER_READY_REQ"].

(** An array of eight with seven initializers: the last element is empty. *)
Definition kFireAndForgetTypes : list string :=
  ["HEARTBEAT_NOTIFY"; "CHECKSUM_ERROR_REPORT"; "CHANNEL_BROADCAST_SEND_NOTIFY";
   "BAND_BROADCAST_SEND_NOTIFY"; "HUB_PEER_BYE"; "HUB_RELAY_MSG"; "HUB_TARGETED_MSG"; ""].

Definition is_request_reply (t : string) : bool := existsb (λ x, x =s t) kRequestReplyTypes.
Definition is_fire_and_forget (t : string) : bool := existsb (λ x, x =s t) kFireAndForgetTypes.
Definition is_known_msg_type (t : string) : bool := is_request_reply t || is_fire_and_forget t.

Section dispatch.
Context `{External, Config}.

(** ** Handlers and their replies *)

(** The reply's type, from the [status] of the handler's answer. *)
Definition ack_when (statuses : list string) (ack : string) (resp : json) : string :=
  if existsb (λ s, s =s str_of "status" resp) statuses then ack else "ERROR".

Definition replying (identity : string) (ack : json → string) (handler : B json) : B unit :=
  resp ← handler;
  send_reply identity (ack resp) resp.

Definition disc_ack_type (resp : json) : string :=
  if str_of "status" resp =s "success" then "DISC_ACK"
  else if str_of "status" resp =s "pending" then "DISC_PENDING" else "ERROR".

Definition attach_zmq (identity : string) (payload : json) : B unit :=
  resp ← BrokerAttach.handle_consumer_attach_req_zmq payload identity;
  if str_of "status" resp =s "pending" then mret tt
  else send_reply identity
         (ack_when ["success"; "denied"; "timeout"] "CONSUMER_ATTACH_ACK_ZMQ" resp) resp.

(** The branches of [process_message], in order. *)
Definition branches : list (string * (string → json → B unit)) :=
  let ok := ack_when ["success"] in
  [("REG_REQ", λ id p, replying id (ok "REG_ACK") (BrokerReg.handle_reg_req p id));
   ("DISC_REQ", λ id p, replying id disc_ack_type (BrokerChannels.handle_disc_req p));
   ("DEREG_REQ", λ id p, replying id (ok "DEREG_ACK") (BrokerChannels.handle_dereg_req p));
   ("CONSUMER_REG_REQ",
     λ id p, replying id (ok "CONSUMER_REG_ACK") (BrokerConsumerReg.handle_consumer_reg_req p id));
   ("GET_CHANNEL_AUTH_REQ",
     λ id p, replying id (ok "GET_CHANNEL_AUTH_ACK") (BrokerAttach.handle_get_channel_auth_req p));
   ("CONSUMER_ATTACH_REQ_SHM",
     λ id p, replying id (ack_when ["success"; "denied"] "CONSUMER_ATTACH_ACK_SHM")
               (BrokerAttach.handle_consumer_attach_req_shm p));
   ("CONSUMER_ATTACH_REQ_ZMQ", attach_zmq);
   ("CHANNEL_AUTH_APPLIED_REQ",
     λ id p, replying id (ack_when ["ok"] "CHANNEL_AUTH_APPLIED_ACK")
               (BrokerAttach.handle_channel_auth_applied_req p));
   ("CHECK_PEER_READY_REQ",
     λ id p, replying id (ack_when ["ready"; "not_ready"] "CHECK_PEER_READY_ACK")
               (BrokerAttach.handle_check_peer_ready_req p));
   ("CONSUMER_DEREG_REQ",
     λ id p, replying id (ok "CONSUMER_DEREG_ACK") (BrokerChannels.handle_consumer_dereg_req p));
   ("HEARTBEAT_NOTIFY", λ _ p, BrokerChannels.handle_heartbeat_req p);
   ("CHECKSUM_ERROR_REPORT", λ _ p, BrokerChannels.handle_checksum_error_report p);
   ("SCHEMA_REQ", λ id p, replying id (ok "SCHEMA_ACK") (BrokerQueries.handle_schema_req p));
   ("CHANNEL_BROADCAST_SEND_NOTIFY", λ _ p, BrokerChannels.handle_channel_broadcast_req p);
   ("CHANNEL_LIST_REQ",
     λ id p, replying id (λ _, "CHANNEL_LIST_ACK") (BrokerQueries.handle_channel_list_req p));
   ("METRICS_REQ", λ id p, replying id (λ _, "METRICS_ACK") (BrokerQueries.handle_metrics_req p));
   ("SHM_BLOCK_QUERY_REQ",
     λ id p, replying id (λ _, "SHM_BLOCK_QUERY_ACK") (BrokerQueries.handle_shm_block_query p));
   ("ROLE_PRESENCE_REQ",
     λ id p, replying id (λ _, "ROLE_PRESENCE_ACK") (BrokerQueries.handle_role_presence_req p));
   ("ROLE_INFO_REQ", λ id p, replying id (λ _, "ROLE_INFO_ACK") (BrokerQueries.handle_role_info_req p));
   ("HUB_PEER_HELLO", BrokerFederation.handle_hub_peer_hello);
   ("HUB_PEER_BYE", λ _ p, BrokerFederation.handle_hub_peer_bye p);
   ("HUB_TARGETED_MSG", λ _ p, BrokerFederation.handle_hub_targeted_msg p);
   ("ENDPOINT_UPDATE_REQ",
     λ id p, replying id (ok "ENDPOINT_UPDATE_ACK") (BrokerChannels.handle_endpoint_update_req p id));
   ("BAND_JOIN_REQ", λ id p, replying id (ok "BAND_JOIN_ACK") (BrokerBands.handle_band_join_req p id));
   ("BAND_LEAVE_REQ", λ id p, replying id (ok "BAND_LEAVE_ACK") (BrokerBands.handle_band_leave_req p));
   ("BAND_BROADCAST_SEND_NOTIFY", λ _ p, BrokerBands.handle_band_broadcast_req p);
   ("BAND_MEMBERS_REQ",
     λ id p, replying id (λ resp, if str_of "status" resp =s "error" then "ERROR" else "BAND_MEMBERS_ACK")
               (BrokerBands.handle_band_members_req p))].

(** A known type without a branch is only logged. *)
Definition run_branch (identity msg_type : string) (payload : json) : B unit :=
  match find (λ b, b.1 =s msg_type) branches with
  | Some b => b.2 identity payload
  | None => mret tt
  end.

(** ** process_message *)

Definition emit_processing_error (msg_type error_kind detail identity : string) : B unit :=
  if on_processing_error then
    emit (OnProcessingError (mkProcessingError msg_type error_kind detail
            (if str_empty identity then None else Some identity)))
  else mret tt.

(** The [ERROR] reply to a request whose handler threw; an exception while it
    is built is swallowed. *)
Definition internal_error_reply (identity msg_type : string) (payload : json) (e : exn) : B unit :=
  if is_request_reply msg_type then
    corr ← try_ (value_str "correlation_id" payload);
    match corr with
    | inr corr_id => send_reply identity "ERROR" (make_error corr_id "INTERNAL_ERROR" (what e))
    | inl _ => mret tt
    end
  else mret tt.

Definition handler_failed (identity msg_type : string) (payload : json) (e : exn) : B unit :=
  _ ← internal_error_reply identity msg_type payload e;
  _ ← lift (_bump_counter "sys.handler_exception" 1);
  emit_processing_error msg_type "exception" (what e) identity.

(** The first line is the argument of a trace message, which is evaluated
    whatever the log level. *)
Definition process_message (identity msg_type : string) (payload : json) (bytes_in : Z) : B unit :=
  _ ← (if is_object payload then value_str "channel_name" payload else mret "");
  if negb (is_known_msg_type msg_type) then
    corr_id ← value_str "correlation_id" payload;
    _ ← send_reply identity "ERROR"
          (make_error corr_id "UNKNOWN_MSG_TYPE" ("Unknown message type: " +:+ msg_type));
    _ ← lift (_bump_counter "sys.unknown_msg_type" 1);
    emit_processing_error msg_type "unknown_msg_type" msg_type identity
  else
    r ← try_ (run_branch identity msg_type payload);
    _ ← (match r with inl e => handler_failed identity msg_type payload e | inr _ => mret tt end);
    _ ← lift (_on_message_processed msg_type bytes_in 0);
    match r with inl _ => lift (_bump_msg_type_error msg_type 1) | inr _ => mret tt end.

(** ** dispatch_received *)

Definition bytes (j : json) : Z := Z.of_nat (String.length (dump j)).

(** [to_legacy]: the correlation id goes into the body. *)
Definition to_legacy (env : Wire.WireEnvelope) (body : json) : json :=
  with_corr (Wire.correlation_id env) body.

Definition dispatch_legacy (msg_type : string) (env : Wire.WireEnvelope) (body : json) : B unit :=
  let body_json := to_legacy env body in
  process_message (Wire.identity env) msg_type body_json (bytes body_json).

Definition dispatch_rejected (v : RejectedMessage) : B unit :=
  _ ← lift (_bump_counter "sys.admission_rejected_total" 1);
  _ ← lift (_bump_counter ("sys.admission_rejected_by_code." +:+ AdmissionGates.to_wire_string (rej_code v)) 1);
  if str_empty (rej_identity v) then mret tt
  else match build_error_reply blake2b dump v with
       | Some fs => emit (SendFrames fs)
       | None => mret tt
       end.

Definition dispatch_received (received : ReceivedMessage) : B unit :=
  match received with
  | Rejected v => dispatch_rejected v
  | ValidatedRawControl env body => dispatch_legacy (Wire.msg_type env) env body
  | ValidatedRegReq env body => dispatch_legacy "REG_REQ" env body
  | ValidatedConsumerRegReq env body => dispatch_legacy "CONSUMER_REG_REQ" env body
  | ValidatedDeregReq env body => dispatch_legacy "DEREG_REQ" env body
  | ValidatedConsumerDeregReq env body => dispatch_legacy "CONSUMER_DEREG_REQ" env body
  | ValidatedEndpointUpdateReq env body => dispatch_legacy "ENDPOINT_UPDATE_REQ" env body
  | ValidatedChannelAuthAppliedReq env body => dispatch_legacy "CHANNEL_AUTH_APPLIED_REQ" env body
  | ValidatedHeartbeatNotify env body => dispatch_legacy "HEARTBEAT_NOTIFY" env body
  | ValidatedGetChannelAuthReq env body => dispatch_legacy "GET_CHANNEL_AUTH_REQ" env body
  | ValidatedDiscReq env body => dispatch_legacy "DISC_REQ" env body
  end.

(** One message from the router socket. *)
Definition serve (raw : list string) : B unit :=
  received ← lift (receive_and_validate blake2b parse raw (AdmissionGates.bind_admission_context known_roles));
  dispatch_received received.

End dispatch.
End BrokerDispatch.
