(* ===== verification/DispatchProps.v ===== *)
(** * What passes the dispatch *)

From S2P Require Import Prelude.
From S2P Require Import Json.
From S2P Require Import Naming.
From S2P Require Import ReplayGuard.
From S2P Require Import HubCore.
From S2P Require Import HubOps.
From S2P Require Import EntryFacts.
From S2P Require Import Wire.
From S2P Require Import WireDispatch.
From S2P Require Import AdmissionGates.
Import Json HubCore HubOps WireBodies AdmissionGates GateProps WireDispatch.

Module DispatchProps.

(** ** The only state the dispatch touches is the replay guard *)

Definition guarded {A} (m : M A) : Prop :=
  ∀ e h, exec m e h = h ∨ ∃ u n w t, exec m e h = exec (nonce_seen u n w t) e h.

Lemma guarded_ret {A} (a : A) : guarded (mret a : M A).
Proof. by left. Qed.

Lemma guarded_map {A A'} (m : M A) (f : A → A') : guarded m → guarded (a ← m; mret (f a)).
Proof.
  intros Hm e h. specialize (Hm e h). revert Hm. unfold exec, mbind, M_bind, mret, M_ret.
  by destruct (m e h) as [[a h1] t].
Qed.

Lemma guarded_replay known u n ts : guarded (check_replay_bound u n ts (bind_admission_context known)).
Proof.
  intros e h. destruct (replay_gate_run known u n ts e h) as (_ & _ & -> & _).
  destruct (30000 <? _); [by left|right]. exists u, n, 60000, (mono_ms e). unfold nonce_seen, guard_says.
  run. by destruct (ReplayGuard.check_and_record _ _ _ _ _).
Qed.

Lemma guarded_reg_gates known env v : guarded (run_reg_family_gates env v (bind_admission_context known)).
Proof. unfold run_reg_family_gates. case_match; [apply guarded_ret|apply guarded_replay]. Qed.

Lemma guarded_auth_gates known env v :
  guarded (run_authenticated_reg_family_gates env v (bind_admission_context known)).
Proof.
  unfold run_authenticated_reg_family_gates. repeat (case_match; try apply guarded_ret).
  apply guarded_replay.
Qed.

Lemma guarded_validate {V} (view : res V) gates env acc :
  (∀ v, guarded (gates v)) → guarded (validate_with view gates env acc).
Proof. intros Hg. unfold validate_with. case_match; [apply guarded_ret|]. apply guarded_map, Hg. Qed.

Lemma guarded_tier known t env body : guarded (validate_tier t env body (bind_admission_context known)).
Proof.
  destruct t; cbn [validate_tier]; try apply guarded_ret; apply guarded_validate; intros v;
    first [apply guarded_reg_gates|apply guarded_auth_gates|apply guarded_ret].
Qed.

Lemma guarded_receive blake2b parse known raw :
  guarded (receive_and_validate blake2b parse raw (bind_admission_context known)).
Proof.
  unfold receive_and_validate. case_match; [apply guarded_ret|].
  case_match; [apply guarded_tier|apply guarded_ret].
Qed.

(** ** What a validated registration is *)

Lemma validate_accepts {V} (view : res V) gates env acc e h r :
  result (validate_with view gates env acc) e h = r → (∀ rej, r ≠ Rejected rej) →
  r = acc ∧ ∃ v, view = inr v ∧ result (gates v) e h = None.
Proof.
  unfold validate_with. intros Hr Hne. destruct view as [err|v].
  { symmetry in Hr. by destruct (Hne _ Hr). }
  rewrite result_bind in Hr. destruct (result (gates v) e h) eqn:Hg.
  - symmetry in Hr. by destruct (Hne _ Hr).
  - split; [by symmetry|]. by exists v.
Qed.

Lemma tier_of_reg t : lookup_tier t = Some RegReq → t = "REG_REQ".
Proof.
  unfold lookup_tier. destruct (find _ _) as [[m tier]|] eqn:Hf; [|done].
  apply find_some in Hf as [Hin Heq]. bool_facts. cbn in *. intros [= ->]. subst m.
  repeat (destruct Hin as [Hin|Hin]; [by simplify_eq|]). done.
Qed.

(** A view taken from the members of a body. *)
Lemma view_of_reg_inr body v :
  view_of_reg body = inr v →
  json_get "role_uid" body = Some (JStr (rv_role_uid v)) ∧
  json_get "channel_name" body = Some (JStr (rv_channel_name v)) ∧
  json_get "zmq_pubkey" body = Some (JStr (rv_zmq_pubkey v)) ∧
  json_get "client_nonce" body = Some (JStr (rv_client_nonce v)) ∧
  ∃ ts, json_get "client_wall_ts" body = Some (JInt ts) ∧ 0 <= ts ∧ rv_client_wall_ts v = u64 ts.
Proof.
  unfold view_of_reg. intros (u & Hu & H1)%res_bind_inr.
  apply res_bind_inr in H1 as (n & Hn & H1). apply res_bind_inr in H1 as (k & Hk & H1).
  apply res_bind_inr in H1 as (x & Hx & H1). apply res_bind_inr in H1 as (y & Hy & H1).
  injection H1 as <-. rewrite !read_string_inr in *. do 4 (split; [done|]).
  unfold read_u64 in Hy. destruct (json_get "client_wall_ts" body) as [[| |z| | | |]|]; try done.
  destruct (Z.leb_spec 0 z); [|done]. injection Hy as <-. by exists z.
Qed.

(** A nonce the guard takes is not empty, and every entry it has under it is
    older than the window. *)
Lemma guard_accepts uid n now g :
  (ReplayGuard.check_and_record uid n 60000 now g).1 = true →
  n ≠ "" ∧ ∀ x, x ∈ default [] (g !! uid) → ReplayGuard.nonce x = n →
    ReplayGuard.recorded_ms x < ReplayGuard.cutoff now 60000.
Proof.
  unfold ReplayGuard.check_and_record.
  destruct (str_empty uid); [done|]. destruct (str_empty n) eqn:Hn; [done|]. cbn [orb].
  destruct (existsb _ _) eqn:Hx; [done|]. intros _. split; [by apply str_empty_false|].
  intros x Hin Hnx. apply Z.nle_gt. intros Hle. apply not_true_iff_false in Hx. apply Hx.
  apply existsb_exists. exists x. split; [|by apply str_eqb_spec].
  apply list_elem_of_In, list_elem_of_filter. split; [lia|done].
Qed.

(** Only the producer's routine accepts with this kind of message. *)
Lemma tier_accepts tier env e h known env' body :
  result (validate_tier tier env (Wire.body env) (bind_admission_context known)) e h =
    ValidatedRegReq env' body →
  tier = RegReq ∧ env = env' ∧ body = Wire.body env ∧
  ∃ v, view_of_reg (Wire.body env) = inr v ∧
       result (run_reg_family_gates env v (bind_admission_context known)) e h = None.
Proof.
  intros Hr. destruct tier; cbn [validate_tier] in Hr;
    try (by apply validate_accepts in Hr as [? _]; [|done]);
    try (unfold envelope_with_role_uid, envelope_with_query_role_uid, envelope_only,
           rejection_with_envelope in Hr; revert Hr; run; repeat case_match; done).
  apply validate_accepts in Hr as [[= -> ->] (v & Hv & Hg)]; [|done].
  apply res_bind_inr in Hv as (? & _ & Hv). split_and!; [done..|]. by exists v.
Qed.

Lemma parse_router_inr blake2b parse raw env :
  Wire.parse_router_recv blake2b parse raw = inr env →
  ∃ c text, raw = [Wire.identity env; "C"; Wire.msg_type env; c; text] ∧
    Wire.well_formed (Wire.msg_type env) c ∧
    ∃ ms, parse text = Some (JObj ms) ∧
      members_get Wire.kEnvelopeHashKey ms =
        Some (JStr (Wire.compute_envelope_hash blake2b (Wire.identity env) (Wire.msg_type env) c)) ∧
      env = Wire.mkEnvelope (Wire.identity env) (Wire.msg_type env) c (JObj ms).
Proof.
  unfold Wire.parse_router_recv. destruct raw as [|id [|marker [|m [|c [|text [|]]]]]]; try done.
  destruct (marker =s Wire.kFrameTypeControl) eqn:Hm; [|done]. apply str_eqb_spec in Hm as ->.
  intros (Hw & ms & Hp & Hh & ->)%Wire.parse_common_spec. by eauto 10.
Qed.

Section authentic.
Context (blake2b : string → string) (parse : string → option json) (known : list KnownRole).

(** C31 Only authentic registrations reach the producer's handler: the message
    has the five frames of an envelope, its body carries the hash of exactly
    these frames, the uid it registers is the identity of the connection it
    came on, is configured with the key it presents and has a producer's tag;
    uid and channel pass the grammar; the client's clock in its body is within
    30 seconds of the broker's; and the nonce in its body is one the replay
    guard had not recorded for this identity within the last minute. *)
Theorem validated_registration_is_authentic raw e h env body :
  result (receive_and_validate blake2b parse raw (bind_admission_context known)) e h =
    ValidatedRegReq env body →
  ∃ c text channel key nonce ts tag,
    raw = [Wire.identity env; "C"; "REG_REQ"; c; text] ∧ parse text = Some body ∧
    json_get Wire.kEnvelopeHashKey body =
      Some (JStr (Wire.compute_envelope_hash blake2b (Wire.identity env) "REG_REQ" c)) ∧
    json_get "role_uid" body = Some (JStr (Wire.identity env)) ∧
    json_get "channel_name" body = Some (JStr channel) ∧
    json_get "zmq_pubkey" body = Some (JStr key) ∧
    grammar_ok (Wire.identity env) = true ∧ grammar_ok channel = true ∧ String.length key = 40%nat ∧
    lookup_in known (Wire.identity env) key = binding_matches ∧
    Naming.extract_short_tag (Wire.identity env) = Some tag ∧ tag ∈ ["prod"; "proc"] ∧
    json_get "client_wall_ts" body = Some (JInt ts) ∧ 0 <= ts ∧ skew e (u64 ts) <= 30000 ∧
    json_get "client_nonce" body = Some (JStr nonce) ∧ nonce ≠ "" ∧
    ∀ x, x ∈ default [] (replay_guard h !! Wire.identity env) → ReplayGuard.nonce x = nonce →
      ReplayGuard.recorded_ms x < ReplayGuard.cutoff (mono_ms e) 60000.
Proof.
  unfold receive_and_validate. destruct (Wire.parse_router_recv _ _ _) as [err|env'] eqn:Hp; [by run|].
  destruct (lookup_tier (Wire.msg_type env')) as [tier|] eqn:Ht; [|by run].
  intros Hr.
  apply tier_accepts in Hr as (-> & -> & -> & v & Hv & Hg). apply tier_of_reg in Ht.
  apply view_of_reg_inr in Hv as (Hu & Hc & Hk & Hn & ts & Hts & Hpos & Hrv).
  destruct (attempt_outcome known (RegAttempt env v) e h) as (Hout & _); [cbn; by rewrite Ht|].
  cbn [run_attempt at_uid at_nonce at_ts admissible] in Hout. apply Hout in Hg as (Ha & Hskew & Hs). unfold guard_says in Hs. apply guard_accepts in Hs as [Hne Hs].
  destruct Ha as (Hi & Hgu & Hgc & Hl & (parts & Hparts & Htag) & Hb). rewrite <- Hi in *.
  apply parse_router_inr in Hp as (c & text & -> & Hw & ms & Hms & Hh & Henv). rewrite Ht in *.
  assert (Hbody : Wire.body env = JObj ms) by (by rewrite Henv). rewrite Hbody in *.
  rewrite Hrv in Hskew.
  eexists c, text, _, _, _, ts, (Naming.tag parts). split_and!; try done.
  unfold Naming.extract_short_tag. by rewrite Hparts.
Qed.
End authentic.
End DispatchProps.
