(* ===== verification/BrokerHub.v ===== *)
(** * The broker drives the hub by its operations

    Whatever the broker does on a message or on a turn, its hub state changes
    by the operations of [HubReach] and nothing else; so the hub's invariant
    holds as long as no ledger version has reached 2^64-1.

    Module [BrokerStable] comes first: what every message and every turn keeps. *)

From S2P Require Import Prelude.
From S2P Require Import Json.
From S2P Require Import Entries.
From S2P Require Import HubCore.
From S2P Require Import SchemaRegistry.
From S2P Require Import HubOps.
From S2P Require Import AdmissionGates.
From S2P Require Import WireDispatch.
From S2P Require Import Broker.
From S2P Require Import BrokerLogic.
From S2P Require Import BrokerFederation.
From S2P Require Import BrokerReg.
From S2P Require Import BrokerChannels.
From S2P Require Import BrokerAttach.
From S2P Require Import BrokerQueries.
From S2P Require Import BrokerSweep.
From S2P Require Import BrokerDispatch.
From S2P Require Import Ledger.
From S2P Require Import HubInv.
From S2P Require Import HubPreserve.
From S2P Require Import HubProps.
From S2P Require Import DispatchProps.
Import Json Entries HubCore HubOps Broker BrokerLogic.

(** * What every message and every turn keeps

    An invariant of the broker's state is [Stable] when the quiet operations
    of the hub keep it and so do the few compositions of operations that open
    or close a channel or touch the deferred queue.  Then every handler keeps
    it, and so do [serve] and [periodic]. *)
Module BrokerStable.

(** The hub operations of the handlers that neither open nor close a channel
    nor change who produces on one. *)
Inductive quiet `{External, Config} : ∀ {A}, M A → Prop :=
  | q_snapshot : quiet snapshot
  | q_authorize n pk : quiet (_on_consumer_authorized n pk)
  | q_revoke n pk : quiet (_on_consumer_revoked n pk)
  | q_confirm n u v : quiet (_on_role_confirmed n u v)
  | q_consumer_left n u : quiet (_on_consumer_left n u)
  | q_heartbeat n u t w m : quiet (_on_heartbeat n u t w m)
  | q_heartbeat_timeout n u t : quiet (_on_heartbeat_timeout n u t)
  | q_consumer_timeout n u : quiet (_on_pending_timeout n u "consumer")
  | q_join_band n m : quiet (_on_band_joined n m)
  | q_leave_band n u : quiet (_on_band_left n u)
  | q_peer_up p : quiet (_on_peer_connected p)
  | q_peer_down u : quiet (_on_peer_disconnected u)
  | q_data_endpoint n e : quiet (_set_channel_data_endpoint n e)
  | q_producer_endpoint n u e : quiet (_set_producer_zmq_node_endpoint n u e)
  | q_schema r : quiet (SchemaRegistry._on_schema_registered r)
  | q_citation c : quiet (SchemaRegistry._validate_schema_citation c)
  | q_processed t i o : quiet (_on_message_processed t i o)
  | q_bump_error t n : quiet (_bump_msg_type_error t n)
  | q_bump k n : quiet (_bump_counter k n)
  | q_console d r c t : quiet (append_console_line d r c t)
  | q_receive raw : quiet (WireDispatch.receive_and_validate blake2b parse raw
                             (AdmissionGates.bind_admission_context known_roles)).

Class Stable `{External, Config} (I : BrokerState → Prop) := mkStable {
  stable_quiet {A} (m : M A) : quiet m → keeps I (lift m);
  stable_federation f : (∀ b, hub (f b) = hub b) →
    (∀ b, pending_attach_queue_ (f b) = pending_attach_queue_ b) →
    (∀ b, seen (f b) = seen b) → keeps I (modify_broker f);
  stable_admit_producer c n t s bl fin p req :
    keeps I (BrokerReg.admit_producer c n t s bl fin p req : B _);
  stable_admit_consumer c n q w d x e req :
    keeps I (BrokerConsumerReg.admit_consumer c n q w d x e req : B _);
  stable_deregister c n u ch : keeps I (BrokerChannels.deregister_producer c n u ch : B _);
  stable_attach req i : keeps I (BrokerAttach.handle_consumer_attach_req_zmq req i);
  stable_confirmed n u v : keeps I (drain_pending_attach_queue_for_producer_confirmed_ n u v);
  stable_sweep now d : keeps I (sweep_pending_attach_timeouts_ now d);
  stable_reclaim t : keeps I (BrokerSweep.reclaim_producer t);
  stable_close n why ch : keeps I (BrokerSweep.close_channel n why ch);
}.

Section handlers.
Context `{External, Config} (I : BrokerState → Prop) `{!Stable I}.

#[local] Hint Extern 1 (keeps _ (BrokerAttach.handle_consumer_attach_req_zmq _ _)) => apply stable_attach : keeps.
#[local] Hint Extern 1 (keeps _ (drain_pending_attach_queue_for_producer_confirmed_ _ _ _)) =>
  apply stable_confirmed : keeps.
#[local] Hint Extern 1 (keeps _ (sweep_pending_attach_timeouts_ _ _)) => apply stable_sweep : keeps.
#[local] Hint Extern 1 (keeps _ (BrokerSweep.reclaim_producer _)) => apply stable_reclaim : keeps.
#[local] Hint Extern 1 (keeps _ (BrokerSweep.close_channel _ _ _)) => apply stable_close : keeps.
#[local] Hint Extern 1 (keeps _ (BrokerReg.admit_producer _ _ _ _ _ _ _ _)) =>
  apply stable_admit_producer : keeps.
#[local] Hint Extern 1 (keeps _ (BrokerConsumerReg.admit_consumer _ _ _ _ _ _ _ _)) =>
  apply stable_admit_consumer : keeps.
#[local] Hint Extern 1 (keeps _ (BrokerChannels.deregister_producer _ _ _ _)) =>
  apply stable_deregister : keeps.
#[local] Hint Extern 1 (keeps _ (lift _)) => repeat case_match; apply stable_quiet; constructor : keeps.
#[local] Hint Extern 1 (keeps _ (modify_broker _)) =>
  apply stable_federation; intros; cbv beta; repeat case_match; reflexivity : keeps.

Lemma keeps_notify n ph u t : keeps I (fire_channel_auth_changed_notify n ph u t).
Proof. unfold fire_channel_auth_changed_notify, send_to_identity. walk. Qed.
Lemma keeps_send i t body : keeps I (send_to_identity i t body).
Proof. apply keeps_emit. Qed.
Lemma keeps_send_reply i t body : keeps I (send_reply i t body).
Proof. apply keeps_emit. Qed.
#[local] Hint Resolve keeps_notify keeps_send keeps_send_reply : keeps.

(** ** Registration *)

Lemma keeps_abi req strict : keeps I (BrokerReg.log_peer_abi_fingerprint req strict).
Proof. unfold BrokerReg.log_peer_abi_fingerprint. walk. Qed.
#[local] Hint Resolve keeps_abi : keeps.
Lemma keeps_abi_gate c req : keeps I (BrokerReg.abi_gate c req : B _).
Proof. unfold BrokerReg.abi_gate. walk. Qed.
Lemma keeps_topology c p req : keeps I (BrokerReg.read_topology c p req : B _).
Proof. unfold BrokerReg.read_topology. walk. Qed.
Lemma keeps_channel_schema c n u a pid req : keeps I (BrokerReg.check_channel_schema c n u a pid req : B _).
Proof. unfold BrokerReg.check_channel_schema. walk. Qed.
Lemma keeps_register_schema c u a bl req : keeps I (BrokerReg.register_schema c u a bl req : B _).
Proof. unfold BrokerReg.register_schema, BrokerReg.adopt_hub_global, BrokerReg.self_register. walk. Qed.
#[local] Hint Resolve keeps_abi_gate keeps_topology keeps_channel_schema keeps_register_schema : keeps.

Lemma keeps_reg req i : keeps I (BrokerReg.handle_reg_req req i).
Proof.
  unfold BrokerReg.handle_reg_req, BrokerReg.check_producer_pubkey, BrokerReg.read_producer,
    BrokerReg.check_data_transport, BrokerReg.check_inbox_endpoint, BrokerReg.check_inbox_schema,
    BrokerReg.announce_producer. walk.
Qed.

Lemma keeps_expected_schema c ch x : keeps I (BrokerConsumerReg.check_expected_schema c ch x : B _).
Proof. unfold BrokerConsumerReg.check_expected_schema, BrokerConsumerReg.joiner_hash. walk. Qed.
#[local] Hint Resolve keeps_expected_schema : keeps.

Lemma keeps_consumer_reg req i : keeps I (BrokerConsumerReg.handle_consumer_reg_req req i).
Proof.
  unfold BrokerConsumerReg.handle_consumer_reg_req, BrokerConsumerReg.readiness_gate,
    BrokerConsumerReg.read_expected, BrokerConsumerReg.read_consumer. walk.
Qed.

(** ** Channels *)

Lemma keeps_disc req : keeps I (BrokerChannels.handle_disc_req req).
Proof. unfold BrokerChannels.handle_disc_req. walk. Qed.
Lemma keeps_dereg req : keeps I (BrokerChannels.handle_dereg_req req).
Proof. unfold BrokerChannels.handle_dereg_req. walk. Qed.
Lemma keeps_revoke n c : keeps I (BrokerChannels.revoke_consumer n c).
Proof. unfold BrokerChannels.revoke_consumer. walk. Qed.
#[local] Hint Resolve keeps_revoke : keeps.
Lemma keeps_consumer_dereg req : keeps I (BrokerChannels.handle_consumer_dereg_req req).
Proof. unfold BrokerChannels.handle_consumer_dereg_req. walk. Qed.
Lemma keeps_heartbeat req : keeps I (BrokerChannels.handle_heartbeat_req req).
Proof.
  unfold BrokerChannels.handle_heartbeat_req, BrokerChannels.heartbeat_subject,
    BrokerChannels.announce_live. walk.
Qed.
Lemma keeps_endpoint_update req i : keeps I (BrokerChannels.handle_endpoint_update_req req i).
Proof. unfold BrokerChannels.handle_endpoint_update_req, BrokerChannels.apply_endpoint. walk. Qed.
Lemma keeps_members t body ch : keeps I (BrokerChannels.send_to_members t body ch).
Proof. unfold BrokerChannels.send_to_members. walk. Qed.
Lemma keeps_relay n e s d : keeps I (BrokerFederation.relay_notify_to_peers n e s d).
Proof. unfold BrokerFederation.relay_notify_to_peers. walk. Qed.
#[local] Hint Resolve keeps_members keeps_relay : keeps.
Lemma keeps_checksum req : keeps I (BrokerChannels.handle_checksum_error_report req).
Proof. unfold BrokerChannels.handle_checksum_error_report. walk. Qed.
Lemma keeps_broadcast req : keeps I (BrokerChannels.handle_channel_broadcast_req req).
Proof. unfold BrokerChannels.handle_channel_broadcast_req. walk. Qed.

(** ** Authorization, bands, queries, federation *)

Lemma keeps_get_auth req : keeps I (BrokerAttach.handle_get_channel_auth_req req).
Proof. unfold BrokerAttach.handle_get_channel_auth_req. walk. Qed.
Lemma keeps_attach_shm req : keeps I (BrokerAttach.handle_consumer_attach_req_shm req).
Proof. unfold BrokerAttach.handle_consumer_attach_req_shm. walk. Qed.
Lemma keeps_applied req : keeps I (BrokerAttach.handle_channel_auth_applied_req req).
Proof. unfold BrokerAttach.handle_channel_auth_applied_req. walk. Qed.
Lemma keeps_peer_ready req : keeps I (BrokerAttach.handle_check_peer_ready_req req).
Proof. unfold BrokerAttach.handle_check_peer_ready_req. walk. Qed.

Lemma keeps_band_join req i : keeps I (BrokerBands.handle_band_join_req req i).
Proof. unfold BrokerBands.handle_band_join_req, BrokerBands.read_band_req, BrokerBands.check_band_req. walk. Qed.
Lemma keeps_band_leave req : keeps I (BrokerBands.handle_band_leave_req req).
Proof. unfold BrokerBands.handle_band_leave_req, BrokerBands.read_band_req, BrokerBands.check_band_req. walk. Qed.
Lemma keeps_band_broadcast req : keeps I (BrokerBands.handle_band_broadcast_req req).
Proof. unfold BrokerBands.handle_band_broadcast_req, BrokerBands.deliver_broadcast. walk. Qed.
Lemma keeps_band_members req : keeps I (BrokerBands.handle_band_members_req req).
Proof. unfold BrokerBands.handle_band_members_req. walk. Qed.

Lemma keeps_schema_req req : keeps I (BrokerQueries.handle_schema_req req).
Proof. unfold BrokerQueries.handle_schema_req. walk. Qed.
Lemma keeps_channel_list req : keeps I (BrokerQueries.handle_channel_list_req req).
Proof. unfold BrokerQueries.handle_channel_list_req. walk. Qed.
Lemma keeps_role_presence req : keeps I (BrokerQueries.handle_role_presence_req req).
Proof. unfold BrokerQueries.handle_role_presence_req. walk. Qed.
Lemma keeps_role_info req : keeps I (BrokerQueries.handle_role_info_req req).
Proof. unfold BrokerQueries.handle_role_info_req. walk. Qed.
Lemma keeps_shm_query req : keeps I (BrokerQueries.handle_shm_block_query req).
Proof. unfold BrokerQueries.handle_shm_block_query, BrokerQueries.collect_shm_info. walk. Qed.
Lemma keeps_metrics req : keeps I (BrokerQueries.handle_metrics_req req).
Proof. unfold BrokerQueries.handle_metrics_req, BrokerQueries.collect_shm_info. walk. Qed.

Lemma keeps_notified u : keeps I (BrokerFederation.notify_connected_once u).
Proof. unfold BrokerFederation.notify_connected_once. walk. Qed.
#[local] Hint Resolve keeps_notified : keeps.
Lemma keeps_hello i p : keeps I (BrokerFederation.handle_hub_peer_hello i p).
Proof.
  unfold BrokerFederation.handle_hub_peer_hello, BrokerFederation.callback, BrokerFederation.forget_notified.
  walk.
Qed.
Lemma keeps_bye p : keeps I (BrokerFederation.handle_hub_peer_bye p).
Proof.
  unfold BrokerFederation.handle_hub_peer_bye, BrokerFederation.callback, BrokerFederation.forget_notified.
  walk.
Qed.
Lemma keeps_hello_ack u p : keeps I (BrokerFederation.handle_hub_peer_hello_ack u p).
Proof. unfold BrokerFederation.handle_hub_peer_hello_ack. walk. Qed.
Lemma keeps_relay_msg p : keeps I (BrokerFederation.handle_hub_relay_msg p).
Proof. unfold BrokerFederation.handle_hub_relay_msg, BrokerFederation.record_relay. walk. Qed.
Lemma keeps_targeted p : keeps I (BrokerFederation.handle_hub_targeted_msg p).
Proof. unfold BrokerFederation.handle_hub_targeted_msg. walk. Qed.
#[local] Hint Resolve keeps_hello_ack keeps_relay_msg keeps_targeted : keeps.
Lemma keeps_peer_frames u fs : keeps I (BrokerFederation.handle_peer_frames u fs).
Proof. unfold BrokerFederation.handle_peer_frames. walk. Qed.
Lemma keeps_prune : keeps I BrokerFederation.prune_relay_dedup.
Proof. unfold BrokerFederation.prune_relay_dedup. walk. Qed.

(** ** Dispatch *)

#[local] Hint Resolve keeps_reg keeps_consumer_reg keeps_disc keeps_dereg keeps_consumer_dereg
  keeps_heartbeat keeps_endpoint_update keeps_checksum keeps_broadcast keeps_get_auth
  keeps_attach_shm keeps_applied keeps_peer_ready keeps_band_join keeps_band_leave
  keeps_band_broadcast keeps_band_members keeps_schema_req keeps_channel_list keeps_role_presence
  keeps_role_info keeps_shm_query keeps_metrics keeps_hello keeps_bye keeps_prune : keeps.

Lemma keeps_replying i ack m : keeps I m → keeps I (BrokerDispatch.replying i ack m).
Proof. intros Hm. apply keeps_bind; [done|]. intros r. apply keeps_send_reply. Qed.

Lemma keeps_branch br i p : br ∈ BrokerDispatch.branches → keeps I (br.2 i p).
Proof.
  unfold BrokerDispatch.branches. cbv zeta. intros Hin.
  repeat (apply elem_of_cons in Hin as [->|Hin];
          [cbn [snd]; first [apply keeps_replying|unfold BrokerDispatch.attach_zmq|idtac];
           solve [walk]|]).
  by apply elem_of_nil in Hin.
Qed.

Lemma keeps_run_branch i t p : keeps I (BrokerDispatch.run_branch i t p).
Proof.
  unfold BrokerDispatch.run_branch. destruct (find _ _) as [br|] eqn:Hf; [|apply keeps_ret].
  apply keeps_branch. apply find_some in Hf as [Hin _]. by apply list_elem_of_In.
Qed.
#[local] Hint Resolve keeps_run_branch : keeps.

Lemma keeps_processing_error t k d i : keeps I (BrokerDispatch.emit_processing_error t k d i).
Proof. unfold BrokerDispatch.emit_processing_error. walk. Qed.
#[local] Hint Resolve keeps_processing_error : keeps.

Lemma keeps_process_message i t p n : keeps I (BrokerDispatch.process_message i t p n).
Proof.
  unfold BrokerDispatch.process_message, BrokerDispatch.handler_failed,
    BrokerDispatch.internal_error_reply. walk.
Qed.
#[local] Hint Resolve keeps_process_message : keeps.

Lemma keeps_serve raw : keeps I (BrokerDispatch.serve raw).
Proof.
  unfold BrokerDispatch.serve, BrokerDispatch.dispatch_received, BrokerDispatch.dispatch_legacy,
    BrokerDispatch.dispatch_rejected. walk.
Qed.

(** ** The periodic work *)

Lemma keeps_demote t : keeps I (BrokerSweep.demote t).
Proof. unfold BrokerSweep.demote. walk. Qed.
Lemma keeps_reclaim_producers ts : keeps I (BrokerSweep.reclaim_producers ts).
Proof. induction ts; cbn [BrokerSweep.reclaim_producers]; walk. Qed.
Lemma keeps_reclaim_consumer t : keeps I (BrokerSweep.reclaim_consumer t).
Proof. unfold BrokerSweep.reclaim_consumer. walk. Qed.
#[local] Hint Resolve keeps_demote keeps_reclaim_producers keeps_reclaim_consumer : keeps.
Lemma keeps_timeouts : keeps I BrokerSweep.check_heartbeat_timeouts.
Proof. unfold BrokerSweep.check_heartbeat_timeouts, BrokerSweep.pass2_channel. walk. Qed.
#[local] Hint Resolve keeps_timeouts : keeps.

Lemma keeps_periodic cs bs ts : keeps I (BrokerSweep.periodic cs bs ts).
Proof.
  unfold BrokerSweep.periodic, BrokerSweep.close_requested, BrokerSweep.broadcast_requested,
    BrokerSweep.targeted_requested, BrokerSweep.console_line. walk.
Qed.
End handlers.
End BrokerStable.

Import Json Entries HubCore HubOps HubReach Broker BrokerLogic BrokerStable.

Module BrokerHub.

(** [h'] is [h], or follows from it by one operation of the hub. *)
Definition hub_step (h h' : HubImpl) : Prop := h' = h ∨ ∃ o env, h' = run_op o env h.

(** The ledger of some channel is at its last version and cannot count one
    more change. *)
Definition exhausted (h : HubImpl) : Prop :=
  ¬ map_Forall (λ _ a, Ledger.current_version_ (ledger a) < u64_max) (channel_access_index h).

#[export] Instance exhausted_dec h : Decision (exhausted h).
Proof. unfold exhausted. apply _. Defined.

Lemma room h n : ¬ exhausted h → HubPreserve.headroom n h.
Proof. intros Hr%dec_stable a Ha. by apply (Hr n). Qed.

Lemma op_ok_room o h : ¬ exhausted h → op_ok o h.
Proof. intros Hr. destruct o; try done; by apply room. Qed.

(** A version ran out of its 64 bits at some point. *)
Definition worn_out (b : BrokerState) : Prop := Exists exhausted (seen b).

(** Every state but the first follows from the one before it. *)
Fixpoint linked (l : list HubImpl) : Prop :=
  match l with
  | h' :: (h :: _) as l' => hub_step h h' ∧ linked l'
  | _ => True
  end.

Record driven (b : BrokerState) : Prop := {
  driven_seen : ∃ past, seen b = hub b :: past;
  driven_linked : linked (seen b);
  driven_sound : worn_out b ∨ Forall HubInv.Inv (seen b);
}.

Lemma worn_out_enter h b : worn_out b → worn_out (enter h b).
Proof. apply Exists_cons_tl. Qed.

Lemma driven_step h b : hub_step (hub b) h → driven b → driven (enter h b).
Proof.
  intros Hs [[past Hp] Hl Hi]. split; cbn.
  - by eexists.
  - rewrite Hp in *. by split.
  - destruct Hi as [Hw|Hi]; [left; by apply worn_out_enter|]. unfold worn_out. cbn. rewrite Hp in *.
    destruct (decide (exhausted (hub b))) as [He|He]; [left; by apply Exists_cons_tl, Exists_cons_hd|].
    right. constructor; [|done]. inv Hi. destruct Hs as [->|(o & env & ->)]; [done|].
    by apply Inv_step; [apply op_ok_room|].
Qed.

Lemma driven_same b b' : hub b' = hub b → seen b' = seen b → driven b → driven b'.
Proof.
  intros Hh Hs [[past Hp] Hl Hi]. split; unfold worn_out; rewrite ?Hs, ?Hh; [by eexists|done|done].
Qed.

Section broker.
Context `{External, Config}.

Abbreviation D := driven.

Lemma keeps_step {A} (m : M A) : (∀ e h, hub_step h (HubCore.exec m e h)) → keeps D (lift m).
Proof. intros Hm env b Hd. unfold exec. rewrite lift_run. by apply driven_step. Qed.

Lemma keeps_op {A} (o : op) (m : M A) : (∀ e h, HubCore.exec m e h = run_op o e h) → keeps D (lift m).
Proof. intros Hm. apply keeps_step. intros e h. right. exists o, e. apply Hm. Qed.

Lemma keeps_quiet {A} (m : M A) : quiet m → keeps D (lift m).
Proof.
  intros Hq. destruct Hq.
  - by apply (keeps_op Snapshot).
  - by apply (keeps_op (Authorize n pk)).
  - by apply (keeps_op (Revoke n pk)).
  - by apply (keeps_op (Confirm n u v)).
  - by apply (keeps_op (ConsumerLeft n u)).
  - by apply (keeps_op (Heartbeat n u t w m)).
  - by apply (keeps_op (HeartbeatTimedOut n u t)).
  - by apply (keeps_op (PendingTimedOut n u "consumer")).
  - by apply (keeps_op (JoinBand n m)).
  - by apply (keeps_op (LeaveBand n u)).
  - by apply (keeps_op (PeerUp p)).
  - by apply (keeps_op (PeerDown u)).
  - by apply (keeps_op (SetDataEndpoint n e)).
  - by apply (keeps_op (SetProducerEndpoint n u e)).
  - by apply (keeps_op (RegisterSchema r)).
  - by apply (keeps_op (ValidateCitation c)).
  - by apply (keeps_op (MessageProcessed t i o)).
  - by apply (keeps_op (BumpError t n)).
  - by apply (keeps_op (BumpCounter k n)).
  - by apply (keeps_op (ConsoleAppend d r c t)).
  - apply keeps_step. intros e h.
    destruct (DispatchProps.guarded_receive blake2b parse known_roles raw e h) as [->|(u & n & w & t & ->)];
      [by left|right; by exists (NonceSeen u n w t), e].
Qed.

Lemma keeps_set_queues q : keeps D (set_queues q).
Proof. intros env b. by apply driven_same. Qed.

#[local] Hint Extern 1 (keeps _ (lift _)) => apply keeps_quiet; constructor : keeps.
#[local] Hint Resolve keeps_set_queues : keeps.

Lemma keeps_answer s r n u e : keeps D (answer s r n u e).
Proof. by intros env b Hd. Qed.
#[local] Hint Resolve keeps_answer : keeps.

Lemma driven_notify n ph u t : keeps D (fire_channel_auth_changed_notify n ph u t).
Proof. unfold fire_channel_auth_changed_notify, send_to_identity. walk. Qed.
#[local] Hint Resolve driven_notify : keeps.

Lemma keeps_producer_denied n u r : keeps D (drain_pending_attach_queue_for_producer_denied_ n u r).
Proof. unfold drain_pending_attach_queue_for_producer_denied_. walk. Qed.
Lemma keeps_channel_denied n r : keeps D (drain_pending_attach_queue_for_channel_denied_ n r).
Proof. unfold drain_pending_attach_queue_for_channel_denied_. walk. Qed.
Lemma driven_confirmed n u v : keeps D (drain_pending_attach_queue_for_producer_confirmed_ n u v).
Proof. unfold drain_pending_attach_queue_for_producer_confirmed_. walk. Qed.
#[local] Hint Resolve keeps_producer_denied keeps_channel_denied : keeps.

Lemma keeps_sweep_producers now d n l : keeps D (sweep_producers now d n l).
Proof. induction l as [|[u q] l IH]; cbn [sweep_producers]; unfold sweep_queue; walk. Qed.
#[local] Hint Resolve keeps_sweep_producers : keeps.
Lemma keeps_sweep_channels now d l : keeps D (sweep_channels now d l).
Proof. induction l as [|[u q] l IH]; cbn [sweep_channels]; walk. Qed.
#[local] Hint Resolve keeps_sweep_channels : keeps.
Lemma driven_sweep now d : keeps D (sweep_pending_attach_timeouts_ now d).
Proof. unfold sweep_pending_attach_timeouts_. walk. Qed.

Lemma keeps_closing n ch r : keeps D (send_closing_notify n ch r).
Proof. unfold send_closing_notify, send_to_identity. walk. Qed.
#[local] Hint Resolve keeps_closing : keeps.

Lemma keeps_access_closed n : keeps D (lift (_on_channel_access_closed n)).
Proof. by apply (keeps_op (AccessClosed n)). Qed.
#[local] Hint Resolve keeps_access_closed : keeps.
Lemma keeps_drop n u r e ch : keeps D (BrokerChannels.after_producer_drop n u r e ch).
Proof. unfold BrokerChannels.after_producer_drop, BrokerChannels.close_channel_access. walk. Qed.
#[local] Hint Resolve keeps_drop : keeps.

Lemma keeps_producer_added n s t d p : keeps D (lift (_on_producer_added n s t d p)).
Proof. by apply (keeps_op (ProducerAdded n s t d p)). Qed.
Lemma keeps_consumer_joined n c d os ot : keeps D (lift (_on_consumer_joined n c d os ot)).
Proof. by apply (keeps_op (ConsumerJoined n c d os ot)). Qed.
Lemma keeps_access_opened n : keeps D (lift (_on_channel_access_opened n)).
Proof. by apply (keeps_op (AccessOpened n)). Qed.
Lemma keeps_producer_dropped n u w : keeps D (lift (_on_producer_dropped n u w)).
Proof. by apply (keeps_op (ProducerDropped n u w)). Qed.
Lemma keeps_producer_timeout n u : keeps D (lift (_on_pending_timeout n u "producer")).
Proof. by apply (keeps_op (PendingTimedOut n u "producer")). Qed.
Lemma keeps_closed n w : keeps D (lift (_on_channel_closed n w)).
Proof. by apply (keeps_op (ChannelClose n w)). Qed.
#[local] Hint Extern 2 (keeps _ (lift _)) =>
  first [apply keeps_producer_added|apply keeps_consumer_joined|apply keeps_access_opened
        |apply keeps_producer_dropped|apply keeps_producer_timeout|apply keeps_closed] : keeps.

#[export] Instance stable_driven : Stable D.
Proof.
  constructor.
  - apply @keeps_quiet.
  - intros f Hh _ Hs. apply keeps_modify. intros b. by apply driven_same.
  - intros. unfold BrokerReg.admit_producer, BrokerReg.read_topology. walk.
  - intros. unfold BrokerConsumerReg.admit_consumer, BrokerConsumerReg.open_invariants. walk.
  - intros. unfold BrokerChannels.deregister_producer. walk.
  - intros. unfold BrokerAttach.handle_consumer_attach_req_zmq, BrokerAttach.read_attach_req,
      BrokerAttach.wait_for_producer, BrokerReg.log_peer_abi_fingerprint, send_to_identity. walk.
  - intros. apply driven_confirmed.
  - intros. apply driven_sweep.
  - intros. unfold BrokerSweep.reclaim_producer. walk.
  - intros. unfold BrokerSweep.close_channel, BrokerChannels.close_channel_access. walk.
Qed.
End broker.

End BrokerHub.
