(* ===== verification/BrokerView.v ===== *)
(** * How admissions and departures change the view

    The operations that change the producers of a channel or the set of
    channels, each with its result: what the broker decides from the result
    agrees with what the operation did.

    Module [BrokerRoster] comes first: who produces where, and which channels have an allowlist. *)

From S2P Require Import Prelude.
From S2P Require Import Json.
From S2P Require Import Naming.
From S2P Require Import Ledger.
From S2P Require Import ReplayGuard.
From S2P Require Import ConsoleBuffer.
From S2P Require Import Entries.
From S2P Require Import HubCore.
From S2P Require Import SchemaRegistry.
From S2P Require Import HubOps.
From S2P Require Import EntryFacts.
From S2P Require Import WireDispatch.
From S2P Require Import DispatchProps.
From S2P Require Import AdmissionGates.
From S2P Require Import Broker.
From S2P Require Import BrokerHub.
From S2P Require Import BrokerReg.
Import Json Entries HubCore HubOps EntryFacts.

(** * Who produces where, and which channels have an allowlist

    The view of the hub that the deferred attach queue depends on: the
    producers of every channel, and the channels with an access record.  Most
    operations leave it alone; the others are computed here. *)
Module BrokerRoster.

Implicit Types (h : HubImpl) (e : Env).

Definition uids (ch : ChannelEntry) : list string := map p_role_uid (producers ch).

(** The uids of each channel's producers. *)
Definition roster h : gmap string (list string) := uids <$> channels_ h.
Definition granted h : gset string := dom (channel_access_index h).
Definition same_view h h' : Prop := roster h' = roster h ∧ granted h' = granted h.

#[export] Instance same_view_preorder : PreOrder same_view.
Proof.
  split; [done|]. intros h1 h2 h3 [H1 H2] [H3 H4]. split; congruence.
Qed.

(** ** Operations that touch neither the channels nor the access records *)

Definition idle {A} (m : M A) : Prop := ∀ e h,
  channels_ (exec m e h) = channels_ h ∧ channel_access_index (exec m e h) = channel_access_index h.

Lemma idle_same_view {A} (m : M A) e h : idle m → same_view h (exec m e h).
Proof. intros Hm. destruct (Hm e h) as [Hc Ha]. unfold same_view, roster, granted. by rewrite Hc, Ha. Qed.

Lemma idle_bind {A A'} (m : M A) (f : A → M A') : idle m → (∀ a, idle (f a)) → idle (m ≫= f).
Proof.
  intros Hm Hf e h. rewrite exec_bind. destruct (Hf (result m e h) e (exec m e h)) as [-> ->]. apply Hm.
Qed.
Lemma idle_ret {A} (a : A) : idle (mret a : M A).
Proof. done. Qed.
Lemma idle_gets {A} (f : HubImpl → A) : idle (gets f).
Proof. done. Qed.
Lemma idle_ask : idle ask.
Proof. done. Qed.
Lemma idle_fire ev : idle (fire ev).
Proof. done. Qed.
Lemma idle_for_each {A} (f : A → M unit) l : (∀ x, idle (f x)) → idle (for_each f l).
Proof. intros Hf. induction l as [|x l IH]; cbn [for_each]; [done|]. by apply idle_bind. Qed.

Create HintDb idle discriminated.
#[export] Hint Constants Opaque : idle.
#[export] Hint Resolve idle_ret idle_gets idle_ask idle_fire : idle.
#[export] Hint Extern 1 (idle (modify _)) => done : idle.
Ltac idle_walk := repeat first
  [ solve [auto with idle nocore]
  | lazymatch goal with
    | |- ∀ _, _ => intro
    | |- idle (let '(_, _) := ?p in _) => destruct p
    | |- idle (mbind _ _) => apply idle_bind
    | |- idle (for_each _ _) => apply idle_for_each
    | |- idle (match ?x with _ => _ end) => destruct x
    | |- idle (let _ := _ in _) => cbv zeta
    end ].

Lemma idle_bump k (i : Z) : idle (_bump_counter k i).
Proof. done. Qed.
Lemma idle_bump_error k (i : Z) : idle (_bump_msg_type_error k i).
Proof. done. Qed.
Lemma idle_invalid : idle bump_invalid_identifier.
Proof. done. Qed.
Lemma idle_upsert uid pk c t : idle (upsert_role_locked uid pk c t).
Proof. unfold upsert_role_locked. idle_walk. Qed.

Lemma idle_erase uid r : idle (erase_role uid r).
Proof.
  intros e h. unfold erase_role, cascade_role_terminal_cleanup_locked. run.
  by rewrite exec_for_each_fire.
Qed.
#[export] Hint Resolve idle_invalid idle_upsert idle_erase idle_bump : idle.

Lemma idle_dispatch uid : idle (_dispatch_role_disconnected_if_dead uid).
Proof. unfold _dispatch_role_disconnected_if_dead. idle_walk. Qed.
#[export] Hint Resolve idle_dispatch : idle.

Lemma idle_snapshot : idle snapshot.
Proof. done. Qed.

(** A [modify] that writes what the computation read before. *)
Lemma idle_heartbeat c u t w m : idle (_on_heartbeat c u t w m).
Proof. unfold _on_heartbeat. idle_walk. Qed.
Lemma idle_heartbeat_timeout c u t : idle (_on_heartbeat_timeout c u t).
Proof. unfold _on_heartbeat_timeout. idle_walk. Qed.
Lemma idle_band_joined b m : idle (_on_band_joined b m).
Proof. unfold _on_band_joined, _set_band_joined. idle_walk. Qed.
Lemma idle_band_left b u : idle (_on_band_left b u).
Proof. unfold _on_band_left, _set_band_left. idle_walk. Qed.
Lemma idle_peer_up p : idle (_on_peer_connected p).
Proof. unfold _on_peer_connected, _set_peer_connected. idle_walk. Qed.
Lemma idle_peer_down u : idle (_on_peer_disconnected u).
Proof. unfold _on_peer_disconnected, _set_peer_disconnected. idle_walk. Qed.
Lemma idle_schema r : idle (SchemaRegistry._on_schema_registered r).
Proof. unfold SchemaRegistry._on_schema_registered. idle_walk. Qed.
Lemma idle_citation c : idle (SchemaRegistry._validate_schema_citation c).
Proof. unfold SchemaRegistry._validate_schema_citation. idle_walk. Qed.
Lemma idle_processed t i o : idle (_on_message_processed t i o).
Proof. unfold _on_message_processed. idle_walk. Qed.
Lemma idle_nonce u n w t : idle (nonce_seen u n w t).
Proof. unfold nonce_seen. idle_walk. Qed.
Lemma idle_console d r c t : idle (append_console_line d r c t).
Proof. unfold append_console_line. idle_walk. Qed.
(** ** Operations that keep the view *)

Lemma roster_same n ch ch' h h' :
  channels_ h !! n = Some ch → uids ch' = uids ch →
  channels_ h' = <[n := ch']> (channels_ h) → channel_access_index h' = channel_access_index h →
  same_view h h'.
Proof.
  intros Hc Hu Hc' Ha. unfold same_view, roster, granted. rewrite Hc', Ha. split; [|done].
  rewrite fmap_insert, Hu. apply insert_id. by rewrite lookup_fmap, Hc.
Qed.

(** The channel [n], which was [ch], is written with the same producers. *)
Ltac same_channel n ch := eapply (roster_same n ch); [done| |reflexivity|reflexivity]; try done.

Lemma granted_alter f n h : same_view h (h <| channel_access_index ::= alter f n |>).
Proof. split; [done|]. unfold granted. cbn. by rewrite dom_alter_L. Qed.

Lemma reset_same c u h : same_view h (reset_confirmation c u h).
Proof. apply granted_alter. Qed.

Lemma dispatch_same uid e h : same_view h (exec (_dispatch_role_disconnected_if_dead uid) e h).
Proof. apply idle_same_view, idle_dispatch. Qed.

Lemma uids_alter f u ch : (∀ p, p_role_uid (f p) = p_role_uid p) →
  uids (ch <| producers ::= alter_by p_role_uid f u |>) = uids ch.
Proof.
  intros Hf. unfold uids. cbn. induction (producers ch) as [|p ps IH]; cbn; [done|].
  case_decide; cbn; by rewrite ?Hf, ?IH.
Qed.

Lemma remove_consumer_same c u e h : same_view h (exec (_remove_consumer c u) e h).
Proof.
  unfold _remove_consumer. run. destruct (channels_ h !! c) as [ch|] eqn:Hc; [|done]. run.
  rewrite exec_if. run. case_match; [|same_channel c ch].
  etransitivity; [|apply reset_same]. same_channel c ch.
Qed.

Lemma consumer_left_same c u e h : same_view h (exec (_on_consumer_left c u) e h).
Proof.
  unfold _on_consumer_left. case_match; [apply idle_same_view, idle_invalid|]. rewrite exec_bind.
  etransitivity; [apply remove_consumer_same|].
  apply idle_same_view. idle_walk.
Qed.

Lemma consumer_timeout_same c u e h : same_view h (exec (pending_timeout_consumer c u) e h).
Proof.
  unfold pending_timeout_consumer. run. destruct (channels_ h !! c) as [ch|] eqn:Hc; [|done].
  destruct (roles_ h !! u) as [r|]; [|done].
  destruct (on_pending_timeout c "consumer" r) as [te r']. case_bool_decide; [done|].
  destruct (remove_consumer u ch) as [rm ch'] eqn:Hrm. run.
  etransitivity; [|apply dispatch_same].
  assert (uids ch' = uids ch) as Hu.
  { unfold remove_consumer in Hrm. by repeat case_match; simplify_eq. }
  same_channel c ch.
Qed.

Lemma data_endpoint_same c ep e h : same_view h (exec (_set_channel_data_endpoint c ep) e h).
Proof.
  unfold _set_channel_data_endpoint. case_match; [done|]. run.
  destruct (channels_ h !! c) as [ch|] eqn:Hc; [|done]. run. same_channel c ch.
Qed.

Lemma producer_endpoint_same c u ep e h : same_view h (exec (_set_producer_zmq_node_endpoint c u ep) e h).
Proof.
  unfold _set_producer_zmq_node_endpoint. case_match; [done|]. run.
  destruct (channels_ h !! c) as [ch|] eqn:Hc; [|done].
  destruct (set_producer_zmq_node_endpoint u ep ch) as [ok ch'] eqn:Hs. run.
  assert (uids ch' = uids ch) as Hu.
  { unfold set_producer_zmq_node_endpoint, set_on_producer in Hs.
    repeat case_match; simplify_eq; try done; by apply uids_alter. }
  same_channel c ch.
Qed.

Lemma confirmed_same c u v e h : same_view h (exec (_on_role_confirmed c u v) e h).
Proof.
  unfold _on_role_confirmed. case_match; [apply idle_same_view; idle_walk|]. run.
  destruct (channel_access_index h !! c) as [a|] eqn:Ha; [|done].
  destruct (Ledger.confirm u v (ledger a)). run. split; [done|].
  unfold granted. cbn. apply elem_of_dom_2 in Ha. set_solver.
Qed.

Lemma quiet_same `{Broker.External, Broker.Config} {A} (m : M A) e h : BrokerStable.quiet m → same_view h (exec m e h).
Proof.
  intros Hq. destruct Hq.
  - apply idle_same_view, idle_snapshot.
  - unfold _on_consumer_authorized. case_match; [apply idle_same_view, idle_invalid|apply granted_alter].
  - unfold _on_consumer_revoked. case_match; [apply idle_same_view, idle_invalid|apply granted_alter].
  - apply confirmed_same.
  - apply consumer_left_same.
  - apply idle_same_view, idle_heartbeat.
  - apply idle_same_view, idle_heartbeat_timeout.
  - unfold _on_pending_timeout. cbn.
    case_match; [apply idle_same_view; idle_walk|apply consumer_timeout_same].
  - apply idle_same_view, idle_band_joined.
  - apply idle_same_view, idle_band_left.
  - apply idle_same_view, idle_peer_up.
  - apply idle_same_view, idle_peer_down.
  - apply data_endpoint_same.
  - apply producer_endpoint_same.
  - apply idle_same_view, idle_schema.
  - apply idle_same_view, idle_citation.
  - apply idle_same_view, idle_processed.
  - apply idle_same_view, idle_bump_error.
  - apply idle_same_view, idle_bump.
  - apply idle_same_view, idle_console.
  - destruct (DispatchProps.guarded_receive Broker.blake2b Broker.parse Broker.known_roles raw e h) as [->|(u & n & w & t & ->)];
      [done|apply idle_same_view, idle_nonce].
Qed.

End BrokerRoster.

Import Json Entries HubCore HubOps EntryFacts BrokerRoster.

Module BrokerView.

Implicit Types (h : HubImpl) (e : Env) (n u : string).

Lemma roster_lookup h n : roster h !! n = uids <$> (channels_ h !! n).
Proof. apply lookup_fmap. Qed.

(** A channel is written: its uids are now [us]. *)
Lemma roster_write h h' n ch :
  channels_ h' = <[n := ch]> (channels_ h) → roster h' = <[n := uids ch]> (roster h).
Proof. intros Hc. unfold roster. by rewrite Hc, fmap_insert. Qed.

(** [h'] is [h] with the producers [us] on [n]. *)
Definition writes n (us : list string) h h' : Prop :=
  roster h' = <[n := us]> (roster h) ∧ granted h' = granted h.

Lemma writes_then n us h h1 h2 : writes n us h h1 → same_view h1 h2 → writes n us h h2.
Proof. intros [H1 H2] [H3 H4]. split; congruence. Qed.

(** ** A channel closes *)

Definition closes n h h' : Prop := roster h' = delete n (roster h) ∧ granted h' = granted h.

Lemma closes_then n h h1 h2 : closes n h h1 → same_view h1 h2 → closes n h h2.
Proof. intros [H1 H2] [H3 H4]. split; congruence. Qed.

Lemma channel_closed_view n why e h :
  valid_channel n = true → closes n h (exec (_on_channel_closed n why) e h).
Proof.
  intros Hv. unfold _on_channel_closed. rewrite Hv. cbn [negb]. rewrite exec_bind, exec_bind.
  eapply closes_then; [|apply idle_same_view; idle_walk].
  unfold _set_channel_closed. run. destruct (channels_ h !! n) eqn:Hc; run; split; try done.
  - unfold roster. cbn. by rewrite fmap_delete.
  - by rewrite delete_id by (by rewrite roster_lookup, Hc).
Qed.

(** ** A producer leaves *)

(** What the broker reads off the result of a drop. *)
Definition dropped n u (r : RemoveProducerResult) h h' : Prop :=
  if removed r then
    valid_channel n = true ∧ is_Some (roster h !! n) ∧
    if channel_now_empty r then closes n h h'
    else ∃ us us', roster h !! n = Some us ∧ writes n us' h h' ∧ ∀ p, p ∈ us → p = u ∨ p ∈ us'
  else same_view h h'.

Lemma erase_keeps_others u ch p : p ∈ uids ch → p = u ∨ p ∈ uids (remove_producer u ch).2.
Proof.
  rewrite remove_producer_eq. unfold uids. cbn. induction (producers ch) as [|x xs IH]; cbn; [set_solver|].
  rewrite elem_of_cons. intros [->|Hp].
  - case_decide; [by left|right; by left].
  - case_decide as Hx; [right; done|]. destruct (IH Hp) as [?|?]; [by left|right; by right].
Qed.

Lemma removed_found u ch : is_Some (find_producer u ch) → removed (remove_producer u ch).1 = true.
Proof. unfold remove_producer, find_producer. by intros [p ->]. Qed.

Lemma drop_writes n u ch h h' :
  channels_ h !! n = Some ch → channels_ h' = <[n := (remove_producer u ch).2]> (channels_ h) →
  channel_access_index h' = channel_access_index h →
  ∃ us us', roster h !! n = Some us ∧ writes n us' h h' ∧ ∀ p, p ∈ us → p = u ∨ p ∈ us'.
Proof.
  intros Hc Hw Ha. exists (uids ch), (uids (remove_producer u ch).2). split_and!.
  - by rewrite roster_lookup, Hc.
  - split; [by apply roster_write|]. unfold granted. by rewrite Ha.
  - intros p. apply erase_keeps_others.
Qed.

Lemma drop_writes_then n u h h1 h2 :
  (∃ us us', roster h !! n = Some us ∧ writes n us' h h1 ∧ ∀ p, p ∈ us → p = u ∨ p ∈ us') →
  same_view h1 h2 →
  ∃ us us', roster h !! n = Some us ∧ writes n us' h h2 ∧ ∀ p, p ∈ us → p = u ∨ p ∈ us'.
Proof. intros (us & us' & ? & ? & ?) Hs. exists us, us'. split_and!; [done|by eapply writes_then|done]. Qed.

Lemma producer_dropped_view n u why e h :
  dropped n u (result (_on_producer_dropped n u why) e h) h (exec (_on_producer_dropped n u why) e h).
Proof.
  unfold _on_producer_dropped. destruct (negb (valid_channel n)) eqn:Hv; [by run|].
  destruct (negb (valid_role_uid u)); [by run|]. apply negb_false_iff in Hv.
  cbn [orb]. run. destruct (channels_ h !! n) as [ch|] eqn:Hc; [|by run].
  destruct (find_producer u ch) as [p|] eqn:Hp; [|by run].
  assert (is_Some (roster h !! n)) as Hin by (by rewrite roster_lookup, Hc).
  case_bool_decide.
  { run. split_and!; [done..|]. by apply channel_closed_view. }
  assert (Hrm := removed_found u ch ltac:(by rewrite Hp)).
  destruct (remove_producer u ch) as [rm ch'] eqn:Hr. cbn in Hrm. rewrite exec_bind, result_bind. run.
  unfold dropped. cbn. rewrite Hrm. split_and!; [done..|].
  apply (drop_writes_then n u h (h <| channels_ ::= <[n := ch']> |>)).
  { apply (drop_writes n u ch); [done|by rewrite Hr|done]. }
  etransitivity; [|rewrite exec_if; case_match; [apply dispatch_same|done]].
  etransitivity; [|apply (reset_same n u)]. done.
Qed.

Lemma pending_timeout_view n u e h :
  dropped n u (result (_on_pending_timeout n u "producer") e h) h
    (exec (_on_pending_timeout n u "producer") e h).
Proof.
  unfold _on_pending_timeout. destruct (negb (valid_channel n)) eqn:Hv; [by run|].
  destruct (negb (valid_role_uid u)); [by run|]. apply negb_false_iff in Hv. cbn [orb].
  change (str_empty "producer") with false. change ("producer" =s "consumer") with false. cbv iota.
  unfold pending_timeout_producer. run. destruct (channels_ h !! n) as [ch|] eqn:Hc; cbn; [|by run].
  destruct (find_producer u ch) as [p|] eqn:Hp; cbn; [|by run].
  destruct (roles_ h !! u) as [ro|]; [|by run].
  destruct (on_pending_timeout n "producer" ro) as [te ro']. case_bool_decide; [by run|].
  assert (is_Some (roster h !! n)) as Hin by (by rewrite roster_lookup, Hc).
  rewrite exec_bind, result_bind. run. case_bool_decide.
  { rewrite exec_bind, result_bind. run. split_and!; [done..|].
    match goal with |- context [exec (_on_channel_closed _ _) _ ?h1] =>
      exact (channel_closed_view n HeartbeatTimeout e h1 Hv) end. }
  assert (Hrm := removed_found u ch ltac:(by rewrite Hp)).
  destruct (remove_producer u ch) as [rm ch'] eqn:Hr. cbn in Hrm. run.
  unfold dropped. cbn. rewrite Hrm. split_and!; [done..|].
  apply (drop_writes_then n u h (h <| channels_ ::= <[n := ch']> |>)).
  { apply (drop_writes n u ch); [done|by rewrite Hr|done]. }
  etransitivity; [|apply dispatch_same]. etransitivity; [|apply (reset_same n u)]. done.
Qed.

(** ** A producer or a consumer joins *)

(** [n] gets the producers [us]; it is opened or was there. *)
Definition joined n us (opened : bool) h h' : Prop :=
  valid_channel n = true ∧ writes n us h h' ∧
  if opened then roster h !! n = None else ∃ us0, roster h !! n = Some us0 ∧ ∀ p, p ∈ us0 → p ∈ us.

Lemma joined_then n us o h h1 h2 : joined n us o h h1 → same_view h1 h2 → joined n us o h h2.
Proof. intros (? & ? & ?) Hs. split_and!; [done|by eapply writes_then|done]. Qed.

Lemma admit_locked_view n s t d p e h :
  valid_channel n = true →
  let m := admit_producer_locked n s t d p in
  match result m e h with
  | inl r => same_view h (exec m e h) ∧ pr_channel_opened r = false
  | inr (r, _) => ∃ us, joined n us (pr_channel_opened r) h (exec m e h) ∧
                        ∀ c, BrokerReg.producer_refusal c r = None
  end.
Proof.
  intros Hv m. subst m. unfold admit_producer_locked, _open_channel_locked. run.
  destruct (channels_ h !! n) as [cur|] eqn:Hc.
  - destruct (negb (_ =s _)); [by run|]. destruct (match d with Some t => _ | None => _ end); [by run|].
    destruct (if _ && _ then None else _); [by run|].
    destruct (add_producer p cur) as [[] ch'] eqn:Hadd; [|by run]. run.
    apply add_producer_Created in Hadd as [_ ->].
    eexists. split; [|done]. split_and!; [done|split; [by apply roster_write|done]|].
    cbn. exists (uids cur). rewrite roster_lookup, Hc. split; [done|].
    intros q Hq. unfold uids in *. cbn. rewrite map_app. set_solver.
  - destruct (transport_compatible _ _); cbn [negb]; run; [|done].
    unfold add_producer. cbn. run. eexists. split; [|done].
    split_and!; [done|split; [|done]|by rewrite roster_lookup, Hc].
    apply roster_write. cbn. by rewrite insert_insert_eq.
Qed.

Lemma producer_added_view n s t d p e h :
  let m := _on_producer_added n s t d p in
  (same_view h (exec m e h) ∧ pr_channel_opened (result m e h) = false) ∨
  (∃ us, joined n us (pr_channel_opened (result m e h)) h (exec m e h) ∧
         ∀ c, BrokerReg.producer_refusal c (result m e h) = None).
Proof.
  intros m. subst m. unfold _on_producer_added. destruct (negb (valid_channel n)) eqn:Hv; [left; by run|].
  apply negb_false_iff in Hv. cbn [orb]. destruct (_ || _); [left; by run|].
  pose proof (admit_locked_view n s t d p e h Hv) as Hadm. cbv zeta in Hadm.
  rewrite exec_bind, result_bind. destruct (result (admit_producer_locked _ _ _ _ _) e h) as [r|[r o]].
  { left. by run. }
  right. destruct Hadm as (us & Hj & Hr). exists us.
  match goal with |- joined _ _ (_ (result ?m _ ?h1)) _ _ ∧ _ => set (rest := m); set (hm := h1) end.
  assert (result rest e hm = r) as ->.
  { subst rest. cbv beta iota. rewrite !result_bind. by run. }
  split; [|done]. eapply joined_then; [done|]. subst rest. cbv beta iota.
  rewrite exec_bind. etransitivity; [|apply idle_same_view; unfold _set_shm_block; idle_walk].
  case_match; [done|]. rewrite exec_bind. run. etransitivity; [|apply (reset_same n)]. done.
Qed.

Lemma add_consumer_view n c d os ot e h :
  valid_channel n = true →
  let m := _add_consumer n c d os ot in
  (same_view h (exec m e h) ∧ cr_channel_opened (result m e h) = false) ∨
  (∃ us, joined n us (cr_channel_opened (result m e h)) h (exec m e h) ∧ admitted (result m e h) = true ∧
         ∀ k, BrokerConsumerReg.consumer_refusal k n (result m e h) = None).
Proof.
  intros Hv m. subst m. unfold _add_consumer. run. destruct (channels_ h !! n) as [cur|] eqn:Hc.
  - destruct (match d with Some t => _ | None => _ end); [left; by run|].
    destruct (if existsb _ _ then None else _); [left; by run|]. left. run. split; [|done].
    by same_channel n cur.
  - destruct d as [[]|]; try (left; by run). destruct os as [s|]; [|left; by run].
    destruct ot as [t|]; [|left; by run]. unfold _open_channel_locked. run.
    destruct (transport_compatible _ _); cbn [negb]; run; [|by left]. right.
    eexists. split; [|done]. split_and!; [done|split; [|done]|by rewrite roster_lookup, Hc].
    apply roster_write. cbn. by rewrite insert_insert_eq.
Qed.

Lemma consumer_joined_view n c d os ot e h :
  let m := _on_consumer_joined n c d os ot in
  (same_view h (exec m e h) ∧ cr_channel_opened (result m e h) = false) ∨
  (∃ us, joined n us (cr_channel_opened (result m e h)) h (exec m e h) ∧
         ∀ k, BrokerConsumerReg.consumer_refusal k n (result m e h) = None).
Proof.
  intros m. subst m. unfold _on_consumer_joined. destruct (negb (valid_channel n)) eqn:Hv; [left; by run|].
  apply negb_false_iff in Hv. cbn [orb]. destruct (_ || _); [left; by run|].
  pose proof (add_consumer_view n c d os ot e h Hv) as Hadd. cbv zeta in Hadd.
  rewrite exec_bind, result_bind.
  set (r := result (_add_consumer _ _ _ _ _) e h) in *. set (h1 := exec (_add_consumer _ _ _ _ _) e h) in *.
  match goal with |- context [exec ?m e h1] => set (rest := m) end.
  assert (result rest e h1 = r) as ->.
  { subst rest. cbv beta iota. case_match; [by run|]. rewrite result_bind. by run. }
  assert (same_view h1 (exec rest e h1)).
  { apply idle_same_view. subst rest. cbv beta iota. idle_walk. }
  destruct Hadd as [[Hs Ho]|(us & Hj & _ & Hr)]; [left|right].
  - split; [by etransitivity|done].
  - exists us. split; [by eapply joined_then|done].
Qed.

(** ** Access records *)

Lemma access_opened_view n e h : valid_channel n = true →
  roster (exec (_on_channel_access_opened n) e h) = roster h ∧
  granted (exec (_on_channel_access_opened n) e h) = {[n]} ∪ granted h.
Proof.
  intros Hv. unfold _on_channel_access_opened. rewrite Hv. cbn [negb]. run.
  destruct (channel_access_index h !! n) as [a|] eqn:Ha; run; (split; [done|]); unfold granted; cbn.
  - apply elem_of_dom_2 in Ha. set_solver.
  - set_solver.
Qed.

Lemma access_closed_view n e h : valid_channel n = true →
  roster (exec (_on_channel_access_closed n) e h) = roster h ∧
  granted (exec (_on_channel_access_closed n) e h) = granted h ∖ {[n]}.
Proof.
  intros Hv. unfold _on_channel_access_closed. rewrite Hv. cbn [negb]. run. split; [done|].
  unfold granted. cbn. set_solver.
Qed.

End BrokerView.
