(* ===== verification/BrokerInv.v ===== *)
(** * The deferred attach queue and the channels

    Between two messages every channel has an access record and every access
    record a channel; and every consumer that waits in the deferred queue waits
    for a producer that is registered, so that a confirmation, a departure, a
    close or the timeout sweep will answer it. *)

From S2P Require Import Prelude.
From S2P Require Import Json.
From S2P Require Import Ledger.
From S2P Require Import Entries.
From S2P Require Import HubCore.
From S2P Require Import HubOps.
From S2P Require Import Broker.
From S2P Require Import BrokerLogic.
From S2P Require Import BrokerReg.
From S2P Require Import BrokerChannels.
From S2P Require Import BrokerAttach.
From S2P Require Import BrokerSweep.
From S2P Require Import BrokerDispatch.
From S2P Require Import BrokerHub.
From S2P Require Import BrokerView.
Import Json Entries HubCore HubOps Broker BrokerLogic BrokerStable BrokerRoster BrokerView.

Module BrokerInv.

Abbreviation Queues := (gmap string (gmap string (list PendingAttachEntry))).

Implicit Types (ro : gmap string (list string)) (gr : gset string) (q : Queues)
  (b : BrokerState) (n u : string).

(** ** The invariant *)

(** A waiter for [u] on [n] is one the broker still owes an answer. *)
Definition awaited ro n u : Prop := ∃ us, ro !! n = Some us ∧ u ∈ us.

Definition waiting ro q : Prop :=
  map_Forall (λ n m, m ≠ ∅ ∧ map_Forall (λ u l, l ≠ [] ∧ awaited ro n u) m) q.

Record in_step ro gr q : Prop := {
  granted_channels : gr = dom ro;
  channel_names : ∀ n, n ∈ dom ro → valid_channel n = true;
  waiters : waiting ro q;
}.

Definition J b : Prop := in_step (roster (hub b)) (granted (hub b)) (pending_attach_queue_ b).

(** ** Queues *)

Lemma waiting_mono ro ro' q :
  (∀ n m u, q !! n = Some m → is_Some (m !! u) → awaited ro n u → awaited ro' n u) →
  waiting ro q → waiting ro' q.
Proof.
  intros Hm Hw n m Hn. destruct (Hw n m Hn) as [He Hf]. split; [done|].
  intros u l Hu. destruct (Hf u l Hu). split; [done|]. by eapply Hm; eauto.
Qed.

Lemma waiting_delete ro n q : waiting ro q → waiting ro (delete n q).
Proof. intros Hw. by apply map_Forall_delete. Qed.

Lemma waiting_store ro n u l m q :
  waiting ro (delete n q) →
  map_Forall (λ v l, v ≠ u → l ≠ [] ∧ awaited ro n v) m →
  (l ≠ [] → awaited ro n u) → waiting ro (store_queue n u l m q).
Proof.
  intros Hw Hm Hu. unfold store_queue.
  assert (map_Forall (λ v l, l ≠ [] ∧ awaited ro n v)
            (match l with [] => delete u m | _ => <[u := l]> m end)) as Hm'.
  { intros v lv Hv. destruct l as [|x l].
    - apply lookup_delete_Some in Hv as [Hne Hv]. by apply (Hm v lv).
    - apply lookup_insert_Some in Hv as [[<- <-]|[Hne Hv]]; [split; [done|by apply Hu]|].
      by apply (Hm v lv). }
  case_bool_decide; [done|]. intros n' m' Hn.
  apply lookup_insert_Some in Hn as [[<- <-]|[Hne Hn]]; [done|].
  apply (Hw n'). by rewrite lookup_delete_ne.
Qed.

Lemma waiting_enqueue ro n u e q :
  waiting ro q → awaited ro n u → waiting ro (BrokerAttach.enqueue n u e q).
Proof.
  intros Hw Hu n' m' Hn. unfold BrokerAttach.enqueue in Hn.
  apply lookup_insert_Some in Hn as [[<- <-]|[Hne Hn]]; [|by apply Hw].
  split; [apply insert_non_empty|]. intros v l Hv.
  apply lookup_insert_Some in Hv as [[<- <-]|[Hne Hv]].
  - split; [|done]. by destruct (default [] _).
  - destruct (q !! n) as [m|] eqn:Hq; cbn in Hv; [|by rewrite lookup_empty in Hv].
    by apply (Hw n m Hq).
Qed.

(** The queue of one producer goes. *)
Definition drop_queue n u q : Queues :=
  match q !! n with
  | Some m => match m !! u with Some _ => store_queue n u [] m q | None => q end
  | None => q
  end.

Lemma waiting_drop ro ro' n u q :
  waiting ro q → (∀ n', n' ≠ n → ro' !! n' = ro !! n') →
  (∀ v, v ≠ u → awaited ro n v → awaited ro' n v) → waiting ro' (drop_queue n u q).
Proof.
  intros Hw Hother Hn. assert (waiting ro' (delete n q)) as Hd.
  { eapply waiting_mono, waiting_delete, Hw. intros n' m v Hq _ (us & Hr & Hin).
    apply lookup_delete_Some in Hq as [Hne _]. exists us. by rewrite Hother. }
  unfold drop_queue. destruct (q !! n) as [m|] eqn:Hq.
  - destruct (Hw n m Hq) as [Hne Hf]. destruct (m !! u) as [l0|] eqn:Hu.
    + apply waiting_store; [done| |done]. intros v l Hv Hvu. destruct (Hf v l Hv). auto.
    + intros n' m' Hn'. destruct (decide (n' = n)) as [->|]; [|apply (Hd n'); by rewrite lookup_delete_ne].
      simplify_eq. split; [done|]. intros v l Hv. destruct (Hf v l Hv). split; [done|].
      apply Hn; [|done]. intros ->. congruence.
  - by rewrite delete_id in Hd.
Qed.

(** ** The steps the compositions take from one invariant state to the next *)

(** [n] is closed but its record and its queues are still there. *)
Definition closing n b : Prop :=
  valid_channel n = true ∧
  in_step (roster (hub b)) (granted (hub b) ∖ {[n]}) (delete n (pending_attach_queue_ b)).

(** [u] has left [n] but its waiters are still queued. *)
Definition leaving n u b : Prop :=
  in_step (roster (hub b)) (granted (hub b)) (drop_queue n u (pending_attach_queue_ b)).

(** [n] is open but has no record yet. *)
Definition opening n b : Prop :=
  valid_channel n = true ∧
  in_step (roster (hub b)) ({[n]} ∪ granted (hub b)) (pending_attach_queue_ b).

Lemma J_same b b' :
  same_view (hub b) (hub b') → pending_attach_queue_ b' = pending_attach_queue_ b → J b → J b'.
Proof. intros [Hr Hg] Hq. unfold J. by rewrite Hr, Hg, Hq. Qed.

Lemma in_step_delete ro gr n q :
  in_step ro gr q → in_step (delete n ro) (gr ∖ {[n]}) (delete n q).
Proof.
  intros [-> Hv Hw]. split.
  - by rewrite dom_delete_L.
  - intros n'. rewrite dom_delete_L. set_solver.
  - eapply waiting_mono, waiting_delete, Hw. intros n' m v Hq _ (us & Hr & Hin).
    apply lookup_delete_Some in Hq as [Hne _]. exists us. by rewrite lookup_delete_ne.
Qed.

Lemma in_step_write ro gr n us q q' :
  in_step ro gr q → valid_channel n = true → waiting (<[n := us]> ro) q' →
  in_step (<[n := us]> ro) ({[n]} ∪ gr) q'.
Proof.
  intros [-> Hv _] Hn Hw. split; [by rewrite dom_insert_L| |done].
  intros n'. rewrite dom_insert_L. intros [->%elem_of_singleton|?]%elem_of_union; [done|by apply Hv].
Qed.

Lemma in_step_rewrite ro gr n us us' q q' :
  in_step ro gr q → ro !! n = Some us' → waiting (<[n := us]> ro) q' → in_step (<[n := us]> ro) gr q'.
Proof.
  intros HI Hn Hw. assert (gr = {[n]} ∪ gr) as ->.
  { rewrite (granted_channels _ _ _ HI). apply elem_of_dom_2 in Hn. set_solver. }
  eapply in_step_write; [done| |done]. apply (channel_names _ _ _ HI), elem_of_dom. by exists us'.
Qed.

Lemma joined_step n us (opened : bool) h h' b :
  joined n us opened h h' → hub b = h → J b →
  if opened then opening n (enter h' b) else J (enter h' b).
Proof.
  intros (Hv & [Hr Hg] & Ho) <- HJ. unfold opening, J. cbn. rewrite Hr, Hg.
  destruct opened.
  - split; [done|]. eapply in_step_write; [done..|]. eapply waiting_mono, HJ.
    intros n' m v _ _ (us' & Hn' & Hin). exists us'. split; [|done].
    rewrite lookup_insert_ne; [done|]. congruence.
  - destruct Ho as (us0 & Hn & Hsub). eapply in_step_rewrite; [done..|]. eapply waiting_mono, HJ.
    intros n' m v _ _ (us' & Hn' & Hin). destruct (decide (n' = n)) as [->|].
    + exists us. rewrite lookup_insert_eq. split; [done|]. apply Hsub. congruence.
    + exists us'. by rewrite lookup_insert_ne.
Qed.

Lemma dropped_step n u r h h' b :
  dropped n u r h h' → hub b = h → J b →
  let b' := enter h' b in
  if removed r then if channel_now_empty r then closing n b' else leaving n u b' else J b'.
Proof.
  intros Hd <- HJ b'. revert Hd. unfold dropped. destruct (removed r); [|intros; by eapply J_same].
  intros (Hv & [us0 Hn] & Hd). revert Hd. destruct (channel_now_empty r); intros Hd.
  - destruct Hd as [Hr Hg]. split; [done|]. subst b'. cbn. rewrite Hr, Hg. by apply in_step_delete.
  - destruct Hd as (us & us' & Hus & [Hr Hg] & Hsub). unfold leaving. subst b'. cbn. rewrite Hr, Hg.
    eapply in_step_rewrite; [done..|]. eapply waiting_drop; [apply HJ|..].
    + intros n' Hne. by rewrite lookup_insert_ne.
    + intros v Hne (us1 & Hn1 & Hin). exists us'. rewrite lookup_insert_eq. split; [done|].
      assert (us1 = us) as -> by congruence. by destruct (Hsub v Hin).
Qed.

(** ** Computations that only emit *)

Definition silent {A} (m : B A) : Prop := ∀ env b, exec m env b = b ∧ ∃ a, result m env b = inr a.

Lemma silent_emit o : silent (emit o).
Proof. intros env b. split; [done|by eexists]. Qed.
Lemma silent_ret {A} (a : A) : silent (mret a : B A).
Proof. intros env b. split; [done|by eexists]. Qed.
Lemma silent_hubs {A} (f : HubImpl → A) : silent (hubs f).
Proof. intros env b. split; [done|by eexists]. Qed.
Lemma silent_bind {A A'} (m : B A) (f : A → B A') :
  silent m → (∀ a, silent (f a)) → silent ((m : B A) ≫= f).
Proof.
  intros Hm Hf env b. rewrite B_exec_bind, B_result_bind.
  destruct (Hm env b) as [-> [a ->]]. apply Hf.
Qed.
Lemma silent_each {A} (f : A → B unit) l : (∀ x, silent (f x)) → silent (each f l).
Proof. intros Hf. induction l as [|x l IH]; cbn [each]; [apply silent_ret|]. by apply silent_bind. Qed.

Lemma hoare_silent {A} (I P : BrokerState → Prop) (m : B A) : silent m → hoare I P m (λ _, P).
Proof. intros Hm env b HP. destruct (Hm env b) as [-> [a ->]]. done. Qed.

Lemma silent_answer s r n u e : silent (answer s r n u e).
Proof. apply silent_emit. Qed.
Lemma silent_answers s r n u l : silent (each (answer s r n u) l).
Proof. apply silent_each, silent_answer. Qed.

Lemma silent_closing n ch why : silent (send_closing_notify n ch why).
Proof.
  unfold send_closing_notify. apply silent_bind; [|intros _]; apply silent_each; intros i;
    case_match; first [apply silent_ret|apply silent_emit].
Qed.

(** ** The drains *)

Lemma hoare_queues (I P : BrokerState → Prop) :
  hoare I P queues (λ q b, P b ∧ pending_attach_queue_ b = q).
Proof. by intros env b HP. Qed.

Lemma hoare_set_queues (I Q : BrokerState → Prop) q :
  hoare I (λ b, Q (b <| pending_attach_queue_ := q |>)) (set_queues q) (λ _, Q).
Proof. by intros env b HP. Qed.

Lemma hoare_then {A A'} (I P : BrokerState → Prop) (Q : A' → BrokerState → Prop) (m : B A) (f : A → B A') :
  silent m → (∀ a, hoare I P (f a) Q) → hoare I P ((m : B A) ≫= f) Q.
Proof. intros Hm Hf. eapply hoare_bind; [by apply hoare_silent|done]. Qed.

Section drains.
Context (I Q : BrokerState → Prop).

Lemma hoare_drain_channel n why :
  hoare I (λ b, Q (b <| pending_attach_queue_ := delete n (pending_attach_queue_ b) |>))
    (drain_pending_attach_queue_for_channel_denied_ n why) (λ _, Q).
Proof.
  unfold drain_pending_attach_queue_for_channel_denied_. eapply hoare_bind; [apply hoare_queues|].
  intros q. destruct (q !! n) as [m|] eqn:Hq.
  - apply hoare_then; [apply silent_each; intros kv; apply silent_answers|]. intros _.
    eapply (hoare_bind _ _ (λ _, Q)); [|intros ?; by apply hoare_ret].
    eapply hoare_weaken, hoare_set_queues. intros b [HQ Hb]. by rewrite Hb in HQ.
  - apply hoare_ret. intros b [HQ Hb]. rewrite Hb, delete_id in HQ by done.
    rewrite <- Hb in HQ. by destruct b.
Qed.

Lemma hoare_drain_producer n u why :
  hoare I (λ b, Q (b <| pending_attach_queue_ := drop_queue n u (pending_attach_queue_ b) |>))
    (drain_pending_attach_queue_for_producer_denied_ n u why) (λ _, Q).
Proof.
  unfold drain_pending_attach_queue_for_producer_denied_, drop_queue.
  eapply hoare_bind; [apply hoare_queues|]. intros q.
  destruct (q !! n) as [m|] eqn:Hq; [destruct (m !! u) as [l|] eqn:Hm|].
  - apply hoare_then; [apply silent_answers|]. intros _.
    eapply (hoare_bind _ _ (λ _, Q)); [|intros ?; by apply hoare_ret].
    eapply hoare_weaken, hoare_set_queues. intros b [HQ Hb]. by rewrite Hb, Hq, Hm in HQ.
  - apply hoare_ret. intros b [HQ Hb]. rewrite Hb, Hq, Hm, <- Hb in HQ. by destruct b.
  - apply hoare_ret. intros b [HQ Hb]. rewrite Hb, Hq, <- Hb in HQ. by destruct b.
Qed.
End drains.

(** ** The compositions *)

Lemma hoare_close_access n : hoare J (closing n) (BrokerChannels.close_channel_access n) (λ _, J).
Proof.
  unfold BrokerChannels.close_channel_access.
  eapply (hoare_bind _ _ (λ _ b, in_step (roster (hub b)) (granted (hub b))
                                   (delete n (pending_attach_queue_ b)))).
  { apply hoare_lift. intros env b [Hv HJ]. cbn.
    by destruct (access_closed_view n env (hub b) Hv) as [-> ->]. }
  intros _. eapply hoare_bind; [apply (hoare_drain_channel J J)|]. intros ?; by apply hoare_ret.
Qed.

Lemma hoare_after_drop n u why (empty : bool) ch :
  hoare J (λ b, if empty then closing n b else leaving n u b)
    (BrokerChannels.after_producer_drop n u why empty ch) (λ _, J).
Proof.
  unfold BrokerChannels.after_producer_drop. destruct empty.
  - apply hoare_then; [apply silent_closing|]. intros _. apply hoare_close_access.
  - eapply hoare_bind; [apply (hoare_drain_producer J J)|]. intros ?; by apply hoare_ret.
Qed.

Section stable.
Context `{External, Config}.

Lemma J_quiet {A} (m : M A) : quiet m → keeps J (lift m).
Proof.
  intros Hq. apply keeps_hoare, hoare_lift. intros env b HJ.
  eapply J_same; [by apply (quiet_same m env (hub b))|done..].
Qed.

#[local] Hint Extern 1 (keeps _ (lift _)) => apply J_quiet; constructor : keeps.

Lemma keeps_close_channel n why ch : keeps J (BrokerSweep.close_channel n why ch).
Proof.
  apply keeps_hoare. unfold BrokerSweep.close_channel. apply hoare_then; [apply silent_closing|].
  intros _. destruct (valid_channel n) eqn:Hv.
  - eapply hoare_bind; [|intros ?; apply hoare_close_access].
    apply hoare_lift. intros env b HJ. split; [done|]. cbn.
    destruct (channel_closed_view n AdminClose env (hub b) Hv) as [-> ->]. by apply in_step_delete.
  - unfold BrokerChannels.close_channel_access.
    eapply (hoare_bind _ _ (λ _, J)).
    { apply hoare_lift. intros env b HJ. unfold _on_channel_closed. rewrite Hv. by eapply J_same. }
    intros _. eapply (hoare_bind _ _ (λ _, J)).
    { apply hoare_lift. intros env b HJ. unfold _on_channel_access_closed. rewrite Hv. by eapply J_same. }
    intros _. eapply (hoare_bind _ _ (λ _, J)); [|intros ?; by apply hoare_ret].
    eapply hoare_weaken, hoare_drain_channel. intros b [Hg Hn Hw]. split; [done..|].
    by apply waiting_delete.
Qed.

Lemma hoare_producer_added n s t d p :
  hoare J J (lift (_on_producer_added n s t d p))
    (λ a b, if pr_channel_opened a
            then opening n b ∧ ∀ c, BrokerReg.producer_refusal c a = None else J b).
Proof.
  apply hoare_lift. intros env b HJ.
  destruct (producer_added_view n s t d p env (hub b)) as [[Hs ->]|(us & Hj & Hr)];
    [by eapply J_same|].
  pose proof (joined_step _ _ _ _ _ b Hj eq_refl HJ) as Hstep. revert Hstep. by case_match.
Qed.

Lemma hoare_consumer_joined n c d os ot :
  hoare J J (lift (_on_consumer_joined n c d os ot))
    (λ a b, if cr_channel_opened a
            then opening n b ∧ ∀ k, BrokerConsumerReg.consumer_refusal k n a = None else J b).
Proof.
  apply hoare_lift. intros env b HJ.
  destruct (consumer_joined_view n c d os ot env (hub b)) as [[Hs ->]|(us & Hj & Hr)];
    [by eapply J_same|].
  pose proof (joined_step _ _ _ _ _ b Hj eq_refl HJ) as Hstep. revert Hstep. by case_match.
Qed.

Lemma hoare_open_access n : hoare J (opening n) (lift (_on_channel_access_opened n)) (λ _, J).
Proof.
  apply hoare_lift. intros env b [Hv HJ]. unfold J. cbn.
  by destruct (access_opened_view n env (hub b) Hv) as [-> ->].
Qed.

(** A refusal answers; otherwise an opened channel gets its record. *)
Lemma hoare_settle n (refusal : option json) (opened : bool) :
  hoare J (λ b, if opened then opening n b ∧ refusal = None else J b)
    (match refusal return H unit with
     | Some err => reply err
     | None => if opened then go (lift (_on_channel_access_opened n)) else mret tt
     end) (λ _, J).
Proof.
  destruct refusal; [apply hoare_ret; intros b; by destruct opened; [intros [_ ?]|]|].
  destruct opened; [|by apply hoare_ret].
  apply hoare_go. eapply hoare_weaken, hoare_open_access. by intros b [? _].
Qed.

Lemma hoare_dropped n u (m : M RemoveProducerResult) :
  (∀ e h, dropped n u (HubCore.result m e h) h (HubCore.exec m e h)) →
  hoare J J (lift m)
    (λ r b, if removed r then if channel_now_empty r then closing n b else leaving n u b else J b).
Proof. intros Hd. apply hoare_lift. intros env b HJ. by apply (dropped_step _ _ _ _ _ b (Hd _ _)). Qed.

#[local] Hint Resolve keeps_close_channel : keeps.

Lemma keeps_admit_producer c n t s bl fin p req :
  keeps J (BrokerReg.admit_producer c n t s bl fin p req : B _).
Proof.
  apply keeps_hoare. unfold BrokerReg.admit_producer.
  apply hoare_keeps_H_bind; [walk|done|]. intros fz. cbv zeta.
  apply hoare_keeps_H_bind; [unfold BrokerReg.read_topology; walk|done|]. intros topo.
  eapply (hoare_H_bind _ _ (λ r b, match r with inl _ => J b | inr a =>
            if pr_channel_opened a then opening n b ∧ ∀ k, BrokerReg.producer_refusal k a = None
            else J b end)); [apply hoare_go, hoare_producer_added|done|].
  intros a. eapply hoare_weaken, hoare_settle. intros b. case_match; naive_solver.
Qed.

Lemma keeps_admit_consumer c n qt w d x ent req :
  keeps J (BrokerConsumerReg.admit_consumer c n qt w d x ent req : B _).
Proof.
  apply keeps_hoare. unfold BrokerConsumerReg.admit_consumer.
  apply hoare_keeps_H_bind; [unfold BrokerConsumerReg.open_invariants; walk|done|]. intros inv.
  eapply (hoare_H_bind _ _ (λ r b, match r with inl _ => J b | inr a =>
            if cr_channel_opened a then opening n b ∧ ∀ k, BrokerConsumerReg.consumer_refusal k n a = None
            else J b end)); [apply hoare_go, hoare_consumer_joined|done|].
  intros a. eapply hoare_weaken, hoare_settle. intros b. case_match; naive_solver.
Qed.

Lemma keeps_deregister c n u ch : keeps J (BrokerChannels.deregister_producer c n u ch : B _).
Proof.
  apply keeps_hoare. unfold BrokerChannels.deregister_producer.
  eapply (hoare_H_bind _ _ (λ r b, match r with inl _ => J b | inr a =>
            if removed a then if channel_now_empty a then closing n b else leaving n u b else J b end));
    [apply hoare_go, hoare_dropped; intros; apply producer_dropped_view|done|].
  intros r. destruct (removed r); cbn [negb guard_].
  - eapply (hoare_H_bind _ _ (λ r' b, match r' with inl _ => False | inr _ =>
              if channel_now_empty r then closing n b else leaving n u b end));
      [by apply hoare_ret|done|]. intros []. apply hoare_go, hoare_after_drop.
  - eapply (hoare_H_bind _ _ (λ r' b, match r' with inl _ => J b | inr _ => False end));
      [by apply hoare_ret|done|]. by intros [] env b [].
Qed.

Lemma keeps_reclaim t : keeps J (BrokerSweep.reclaim_producer t).
Proof.
  apply keeps_hoare. unfold BrokerSweep.reclaim_producer.
  eapply hoare_bind; [apply (hoare_dropped (ch_name (BrokerSweep.channel_entry t)) (BrokerSweep.target_uid t)),
    pending_timeout_view|].
  intros r. cbv beta. destruct (removed r); [|by apply hoare_ret].
  eapply hoare_bind; [apply hoare_after_drop|]. intros []. by apply hoare_ret.
Qed.

(** ** Confirmations and timeouts answer waiters, they add none *)

Lemma keeps_confirmed n u v : keeps J (drain_pending_attach_queue_for_producer_confirmed_ n u v).
Proof.
  apply keeps_hoare. unfold drain_pending_attach_queue_for_producer_confirmed_.
  eapply hoare_bind; [apply hoare_queues|]. intros q.
  destruct (q !! n) as [m|] eqn:Hq; [|by apply hoare_ret; intros b []].
  destruct (m !! u) as [l|] eqn:Hu; [|by apply hoare_ret; intros b []].
  destruct (pop_while _ l) as [drained l']. apply hoare_then; [apply silent_answers|]. intros _.
  eapply (hoare_bind _ _ (λ _, J)); [|intros ?; by apply hoare_ret].
  eapply hoare_weaken, hoare_set_queues. intros b [[Hg Hn Hw] <-]. split; [done..|]. cbn.
  destruct (Hw n m Hq) as [_ Hm]. apply waiting_store; [by apply waiting_delete| |].
  - intros w lw Hl _. by apply (Hm w lw).
  - intros _. by destruct (Hm u l Hu).
Qed.

Definition live_queues ro n (m : gmap string (list PendingAttachEntry)) : Prop :=
  map_Forall (λ u l, l ≠ [] ∧ awaited ro n u) m.

Lemma hoare_sweep_producers P now d n l ro :
  (∀ kv, kv ∈ l → awaited ro n kv.1) →
  hoare J P (sweep_producers now d n l) (λ m b, P b ∧ live_queues ro n m).
Proof.
  induction l as [|[u qu] l IH]; intros Hl; cbn [sweep_producers].
  - apply hoare_ret. intros b HP. split; [done|]. apply map_Forall_empty.
  - unfold sweep_queue. destruct (pop_while _ qu) as [drained rest]. cbn.
    apply hoare_then; [apply silent_bind; [apply silent_answers|intros; apply silent_ret]|]. intros qu'.
    eapply hoare_bind; [apply IH; intros kv Hkv; apply Hl; set_solver|]. intros m.
    apply hoare_ret. intros b [HP Hm]. split; [done|]. destruct qu' as [|x xs]; [done|].
    apply map_Forall_insert_2; [|done]. split; [done|]. apply (Hl (u, qu)). set_solver.
Qed.

Lemma hoare_sweep_channels P now d l ro :
  (∀ kv, kv ∈ l → live_queues ro kv.1 kv.2) →
  hoare J P (sweep_channels now d l) (λ q b, P b ∧ waiting ro q).
Proof.
  revert P. induction l as [|[n m] l IH]; intros P Hl; cbn [sweep_channels].
  - apply hoare_ret. intros b HP. split; [done|]. apply map_Forall_empty.
  - eapply hoare_bind; [apply (hoare_sweep_producers P _ _ _ _ ro)|].
    { intros [u qu] Hu. apply elem_of_map_to_list in Hu. by apply (Hl (n, m) ltac:(set_solver)) in Hu as []. }
    intros m'. eapply hoare_bind; [apply IH; intros kv Hkv; apply Hl; set_solver|]. intros q.
    apply hoare_ret. intros b [[HP Hm] Hq]. split; [done|]. case_bool_decide; [done|].
    by apply map_Forall_insert_2.
Qed.

Lemma keeps_sweep now d : keeps J (sweep_pending_attach_timeouts_ now d).
Proof.
  apply keeps_hoare. unfold sweep_pending_attach_timeouts_.
  eapply hoare_bind; [apply hoare_queues|]. intros q env b [HJ Hq].
  assert (Hs : ∀ kv, kv ∈ map_to_list q → live_queues (roster (hub b)) kv.1 kv.2).
  { intros [n m] Hn. apply elem_of_map_to_list in Hn. subst q. by destruct (waiters _ _ _ HJ n m Hn). }
  refine (hoare_bind J (λ b', b' = b) (λ q' b', b' = b ∧ waiting (roster (hub b)) q') (λ _, J)
            _ _ (hoare_sweep_channels _ _ _ _ _ Hs) _ env b eq_refl).
  intros q'. eapply (hoare_bind _ _ (λ _, J)); [|intros ?; by apply hoare_ret].
  eapply hoare_weaken, hoare_set_queues. intros ? [-> Hw]. split; [apply HJ..|done].
Qed.

(** ** An attach request waits only for a registered producer *)

Lemma hoare_hubs {A} (P : BrokerState → Prop) (f : HubImpl → A) :
  hoare J P (hubs f) (λ a b, P b ∧ a = f (hub b)).
Proof. by intros env b HP. Qed.

Lemma keeps_attach req i : keeps J (BrokerAttach.handle_consumer_attach_req_zmq req i).
Proof.
  unfold BrokerAttach.handle_consumer_attach_req_zmq. apply keeps_answered.
  apply keeps_hoare. apply hoare_keeps_H_bind; [unfold BrokerAttach.read_attach_req; walk|done|]. intros r.
  apply hoare_keeps_H_bind; [unfold BrokerReg.log_peer_abi_fingerprint; walk|done|]. intros _.
  apply hoare_keeps_H_bind; [walk|done|]. intros access.
  eapply (hoare_H_bind _ _ (λ c b, J b ∧ match c with inl _ => True | inr c =>
            c = channels_ (hub b) !! BrokerAttach.at_channel r end)).
  { apply hoare_go, hoare_hubs. } { by intros ?? []. }
  intros ch. destruct access as [a|]; [|by apply hoare_ret; intros b []].
  destruct ch as [ch|]; [|by apply hoare_ret; intros b []].
  eapply (hoare_H_bind _ _ (λ _ b, J b ∧ Some ch = channels_ (hub b) !! BrokerAttach.at_channel r)).
  { unfold guard_. case_match; by apply hoare_ret. } { by intros ?? []. }
  intros _. destruct (find _ _) as [p|] eqn:Hp; [|by apply hoare_ret; intros b []]. cbv zeta.
  case_match; [by apply hoare_ret; intros b []|].
  eapply (hoare_H_bind _ _ (λ _, J)); [|done|intros ?; by apply hoare_ret].
  apply hoare_go. unfold BrokerAttach.wait_for_producer.
  eapply (hoare_bind _ _ (λ _ b, J b ∧ Some ch = channels_ (hub b) !! BrokerAttach.at_channel r));
    [by intros env b HP|].
  intros e. eapply hoare_bind; [apply hoare_queues|]. intros q.
  eapply (hoare_bind _ _ (λ _, J)); [|intros ?; case_match; by apply hoare_silent; first [apply silent_ret|apply silent_emit]].
  eapply hoare_weaken, hoare_set_queues. intros b [[HJ Hch] <-]. split; [apply HJ..|]. cbn.
  apply waiting_enqueue; [apply HJ|]. exists (uids ch).
  rewrite roster_lookup, <- Hch. split; [done|]. apply find_some in Hp as [Hin Hu].
  bool_facts. rewrite <- Hu. by apply list_elem_of_In, in_map.
Qed.

#[export] Instance stable_J : Stable J.
Proof.
  constructor.
  - apply @J_quiet.
  - intros f Hh Hq _. apply keeps_modify. intros b HJ.
    by apply (J_same b); [rewrite Hh|apply Hq|].
  - apply keeps_admit_producer.
  - apply keeps_admit_consumer.
  - apply keeps_deregister.
  - apply keeps_attach.
  - apply keeps_confirmed.
  - apply keeps_sweep.
  - apply keeps_reclaim.
  - apply keeps_close_channel.
Qed.

End stable.
End BrokerInv.
