(* ===== verification/BrokerReach.v ===== *)
(** * The states of a running broker

    A broker starts on a hub without channels and takes turns: the periodic
    work, a message from the router socket, frames from a peer's socket.  What
    holds in every state it reaches is proved with [Stable].

    Module [BrokerSession] follows: a session of a broker, step by step. *)

From S2P Require Import Prelude.
From S2P Require Import Json.
From S2P Require Import Entries.
From S2P Require Import HubCore.
From S2P Require Import HubOps.
From S2P Require Import HubInv.
From S2P Require Import HubPreserve.
From S2P Require Import HubProps.
From S2P Require Import AdmissionGates.
From S2P Require Import Broker.
From S2P Require Import BrokerLogic.
From S2P Require Import BrokerFederation.
From S2P Require Import BrokerSweep.
From S2P Require Import BrokerDispatch.
From S2P Require Import BrokerHub.
From S2P Require Import BrokerView.
From S2P Require Import BrokerInv.
From S2P Require Import Ledger.
From S2P Require Import Wire.
Import Json Entries HubCore HubOps Broker BrokerLogic BrokerStable BrokerHub BrokerInv.

Module BrokerReach.

Inductive turn :=
  | Periodic (closes : list BrokerSweep.CloseRequest) (broadcasts : list BrokerSweep.BroadcastRequest)
      (targeted : list BrokerSweep.HubTargetedRequest)
  | Serve (raw : list string)
  | FromPeer (hub_uid : string) (frames : list string).

Section reach.
Context `{External, Config}.

Definition run_turn (t : turn) : B unit :=
  match t with
  | Periodic closes broadcasts targeted => BrokerSweep.periodic closes broadcasts targeted
  | Serve raw => BrokerDispatch.serve raw
  | FromPeer hub_uid fs => BrokerFederation.handle_peer_frames hub_uid fs
  end.

(** The state after some turns, each with its clocks. *)
Fixpoint run_turns (ts : list (Env * turn)) (b : BrokerState) : BrokerState :=
  match ts with
  | [] => b
  | (env, t) :: ts => run_turns ts (exec (run_turn t) env b)
  end.

(** A hub a broker starts on: its state is consistent (schemas may have been
    loaded) and there are no channels yet. *)
Record fresh_hub (h : HubImpl) : Prop := {
  fresh_Inv : HubInv.Inv h;
  fresh_channels : channels_ h = ∅;
  fresh_access : channel_access_index h = ∅;
}.

Inductive reachable (h0 : HubImpl) : BrokerState → Prop :=
  | reach_start : reachable h0 (initial_broker h0)
  | reach_turn b env t : reachable h0 b → reachable h0 (exec (run_turn t) env b).

Lemma reachable_turns h0 ts b : reachable h0 b → reachable h0 (run_turns ts b).
Proof. revert b. induction ts as [|[env t] ts IH]; intros b Hb; [done|]. by apply IH, reach_turn. Qed.

Lemma reachable_stable I `{!Stable I} h0 b : I (initial_broker h0) → reachable h0 b → I b.
Proof.
  intros Hi. induction 1 as [|b env t _ IH]; [done|]. revert IH. destruct t; cbn [run_turn].
  - apply (keeps_periodic I).
  - apply (keeps_serve I).
  - apply (keeps_peer_frames I).
Qed.

Lemma fresh_J h0 : fresh_hub h0 → BrokerInv.J (initial_broker h0).
Proof.
  intros [_ Hc Ha]. unfold BrokerInv.J, BrokerRoster.roster, BrokerRoster.granted. cbn.
  rewrite Hc, Ha. split; [by rewrite fmap_empty|by rewrite fmap_empty, dom_empty_L|]. apply map_Forall_empty.
Qed.

Lemma reachable_J h0 b : fresh_hub h0 → reachable h0 b → BrokerInv.J b.
Proof. intros Hf. exact (reachable_stable BrokerInv.J h0 b (fresh_J h0 Hf)). Qed.

(** C6 In every state a broker reaches, a channel exists exactly when it has an
    access record, and whoever waits in the deferred attach queue waits for a
    producer that is registered on that channel: no waiter is orphaned by a
    departure, a timeout or a close. *)
Theorem nobody_waits_for_the_departed h0 b :
  fresh_hub h0 → reachable h0 b →
  (∀ n, is_Some (channels_ (hub b) !! n) ↔ is_Some (channel_access_index (hub b) !! n)) ∧
  (∀ n u m l, pending_attach_queue_ b !! n = Some m → m !! u = Some l →
     l ≠ [] ∧ ∃ ch p, channels_ (hub b) !! n = Some ch ∧ p ∈ producers ch ∧ p_role_uid p = u).
Proof.
  intros Hf Hr. destruct (reachable_J _ _ Hf Hr) as [Hg _ Hw]. split.
  - intros n. rewrite <- !elem_of_dom. unfold BrokerRoster.granted, BrokerRoster.roster in Hg.
    by rewrite Hg, dom_fmap_L.
  - intros n u m l Hn Hu. destruct (Hw n m Hn) as [_ Hm]. destruct (Hm u l Hu) as [Hl (us & Hus & Hin)].
    split; [done|]. rewrite BrokerView.BrokerView.roster_lookup in Hus.
    destruct (channels_ (hub b) !! n) as [ch|]; [|done]. injection Hus as <-.
    apply list_elem_of_fmap in Hin as (p & -> & Hp). by exists ch, p.
Qed.

Lemma fresh_driven h0 : fresh_hub h0 → driven (initial_broker h0).
Proof. intros [Hi _ _]. split; [by eexists|done|right; by constructor]. Qed.

Lemma reachable_driven h0 b : fresh_hub h0 → reachable h0 b → driven b.
Proof. intros Hf. exact (reachable_stable driven h0 b (fresh_driven h0 Hf)). Qed.

End reach.
End BrokerReach.

Import Json Entries HubCore HubOps Broker BrokerReach.

(** * A session of a broker, step by step

    A concrete configuration, the frames of a small session, and the states it
    goes through: a camera registers and reports, a viewer joins, asks to be
    attached and waits.  The outside functions are stand-ins: bodies are looked
    up by name, every digest is empty. *)
Module BrokerSession.

Definition cam_key : string := "aaaaaaaaaaaaaaaaaaaaaaaaaaaaaaaaaaaaaaaa".
Definition view_key : string := "bbbbbbbbbbbbbbbbbbbbbbbbbbbbbbbbbbbbbbbb".
Definition cam : string := "prod.cam.uid1".
Definition view : string := "cons.view.uid2".
Definition lab : string := "lab.cam".

(** ** The bodies, by the name that stands for their text *)

Definition triple (nonce : string) : list (string * json) :=
  [("envelope_hash", JStr ""); ("client_nonce", JStr nonce); ("client_wall_ts", JInt 5000)].

Definition register_body : json := obj (
  [("channel_name", JStr lab); ("role_uid", JStr cam); ("role_type", JStr "producer");
   ("data_transport", JStr "zmq"); ("zmq_pubkey", JStr cam_key); ("abi_fingerprint", JObj []);
   ("producer_pid", JInt 11); ("zmq_node_endpoint", JStr "tcp://10.0.0.1:5000")] ++ triple "n1").
Definition heartbeat_body : json := obj
  [("channel_name", JStr lab); ("role_uid", JStr cam); ("role_type", JStr "producer");
   ("envelope_hash", JStr "")].
Definition join_body : json := obj (
  [("channel_name", JStr lab); ("role_uid", JStr view); ("role_type", JStr "consumer");
   ("data_transport", JStr "zmq"); ("zmq_pubkey", JStr view_key); ("abi_fingerprint", JObj []);
   ("consumer_pid", JInt 22)] ++ triple "n2").
Definition attach_body : json := obj
  [("channel_name", JStr lab); ("consumer_role_uid", JStr view); ("consumer_pubkey", JStr view_key);
   ("producer_role_uid", JStr cam); ("envelope_hash", JStr "")].
Definition applied_body : json := obj (
  [("channel_name", JStr lab); ("role_uid", JStr cam); ("role_type", JStr "producer");
   ("applied_version", JInt 1); ("instance_id", JInt 1)] ++ triple "n3").
Definition leave_body : json := obj (
  [("channel_name", JStr lab); ("role_uid", JStr cam); ("producer_pid", JInt 11)] ++ triple "n4").
Definition numbered_body : json := obj [("channel_name", JInt 7); ("envelope_hash", JStr "")].

Definition bodies : list (string * json) :=
  [("register", register_body); ("heartbeat", heartbeat_body); ("join", join_body);
   ("attach", attach_body); ("applied", applied_body); ("leave", leave_body);
   ("numbered", numbered_body)].

#[export] Instance outside : External := {|
  blake2b := λ _, "";
  dump := λ _, "text";
  parse := λ s, snd <$> find (λ b, b.1 =s s) bodies;
  parse_error_what := λ _, "parse error";
  type_error_what := λ _ _, "type error";
  inet_pton4 := λ _, true;
  inet_pton6 := λ _, false;
  double_to_u64 := λ _, 0;
  formatted_time := λ _, "now";
  datablock_get_metrics := λ _, None;
  lib_version := (0, 1, 0);
  build_id := None;
|}.

#[export] Instance settings : Config := {|
  strict_abi_mismatch := false;
  heartbeat_interval := 500;
  ready_miss_heartbeats := 10;
  pending_miss_heartbeats := 10;
  ready_timeout_override := None;
  pending_timeout_override := None;
  producer_apply_wait_ms := 3000;
  checksum_repair_policy := RepairNone;
  known_roles := [AdmissionGates.mkKnownRole cam cam_key; AdmissionGates.mkKnownRole view view_key];
  self_hub_uid := "hub.lab.uid0";
  broker_observer_pubkey_z85 := "";
  peers := [];
  on_processing_error := true;
  on_hub_connected := false;
  on_hub_disconnected := false;
  on_hub_message := false;
|}.

(** ** The session *)

Definition at_ms (t : Z) : Env := mkEnv (t * 1000000) (t * 1000000).

Definition message (identity msg_type correlation_id body : string) : turn :=
  Serve [identity; "C"; msg_type; correlation_id; body].

Definition session : list (Env * turn) :=
  [(at_ms 5000, message cam "REG_REQ" "1" "register");
   (at_ms 5100, message cam "HEARTBEAT_NOTIFY" "" "heartbeat");
   (at_ms 5200, message view "CONSUMER_REG_REQ" "2" "join");
   (at_ms 5300, message view "CONSUMER_ATTACH_REQ_ZMQ" "3" "attach")].

Definition start : BrokerState := initial_broker empty_hub.
Definition after (n : nat) : BrokerState := run_turns (firstn n session) start.

Lemma empty_hub_fresh : fresh_hub empty_hub.
Proof. by split; [apply HubReach.Inv_empty|..]. Qed.

Lemma session_reachable n : reachable empty_hub (after n).
Proof. apply reachable_turns, reach_start. Qed.

(** The registration is answered with the acknowledgement. *)
Example registration_acknowledged :
  (λ o, match o with Send i t b => (i, t, str_of "correlation_id" b) | _ => ("", "", "") end) <$>
    outputs (run_turn (message cam "REG_REQ" "1" "register")) (at_ms 5000) start
  = [(cam, "REG_ACK", "1")].
Proof. by vm_compute. Qed.

(** Who waits for a producer of a channel. *)
Definition waiters_of (n u : string) (b : BrokerState) : list string :=
  match pending_attach_queue_ b !! n with
  | Some m => map consumer_role_uid (default [] (m !! u))
  | None => []
  end.

(** The viewer is now waiting for the camera. *)
Example viewer_waits : waiters_of lab cam (after 4) = [view].
Proof. by vm_compute. Qed.

End BrokerSession.
