(* ===== verification/BrokerAnswers.v ===== *)
(** * Every answer carries the request's correlation id

    [answers φ m ψ]: when the handler [m] answers early its answer satisfies
    [φ]; when it goes on, its value satisfies [ψ].  [reply_walk] follows the
    structure of a handler; what is left are the answers it builds. *)

From S2P Require Import Prelude.
From S2P Require Import Json.
From S2P Require Import Entries.
From S2P Require Import HubCore.
From S2P Require Import HubOps.
From S2P Require Import Broker.
From S2P Require Import BrokerLogic.
From S2P Require Import BrokerReg.
From S2P Require Import BrokerChannels.
From S2P Require Import BrokerAttach.
From S2P Require Import BrokerQueries.
Import Json Entries HubCore HubOps Broker BrokerLogic.

Module BrokerAnswers.

(** ** Answers that echo a correlation id *)

Definition echoes (c : string) (r : json) : Prop :=
  is_object r = true ∧ json_get "correlation_id" r = Some (JStr c).

Lemma str_of_echo c r : echoes c r → str_of "correlation_id" r = c.
Proof. intros [_ Hc]. unfold str_of. by rewrite Hc. Qed.

Lemma echoes_with_corr c l : c ≠ "" → echoes c (with_corr c (obj l)).
Proof.
  intros Hc. unfold with_corr. rewrite (proj2 (str_empty_false c) Hc). unfold obj.
  split; [done|]. by rewrite json_get_put.
Qed.

Lemma echoes_error c code msg : c ≠ "" → echoes c (make_error c code msg).
Proof.
  intros Hc. unfold make_error. rewrite (proj2 (str_empty_false c) Hc).
  split; [done|]. apply (json_get_obj_snoc [_; _; _] "correlation_id" (JStr c) "correlation_id").
Qed.

Lemma echoes_put c k v r : k ≠ "correlation_id" → echoes c r → echoes c (put k v r).
Proof.
  intros Hk [Ho Hc]. destruct r as [| | | | | |ms]; try done. split; [done|].
  rewrite json_get_put. unfold str_eqb. case_bool_decide as Heq; [|done]. by destruct Hk.
Qed.

(** ** The judgment *)

Definition answers {A} (φ : json → Prop) (m : H A) (ψ : A → Prop) : Prop :=
  ∀ env b, match result (m : B _) env b with
           | inl _ => True
           | inr (inl r) => φ r
           | inr (inr a) => ψ a
           end.

Section answers.
Context (φ : json → Prop).

Lemma answers_bind_post {A A'} (R : A → Prop) (m : H A) (f : A → H A') ψ :
  answers φ m R → (∀ a, R a → answers φ (f a) ψ) → answers φ (m ≫= f) ψ.
Proof.
  intros Hm Hf env b. specialize (Hm env b). unfold mbind, H_bind.
  rewrite (B_result_bind (A := json + A)). destruct (result (m : B _) env b) as [e|[r|a]]; [done|done|].
  by apply Hf.
Qed.

Lemma answers_bind {A A'} (m : H A) (f : A → H A') ψ :
  answers φ m (λ _, True) → (∀ a, answers φ (f a) ψ) → answers φ (m ≫= f) ψ.
Proof. intros Hm Hf. by apply (answers_bind_post (λ _, True)). Qed.

Lemma answers_ret {A} (a : A) (ψ : A → Prop) : ψ a → answers φ (mret a) ψ.
Proof. by intros Ha env b. Qed.
Lemma answers_reply {A} r (ψ : A → Prop) : φ r → answers φ (reply r) ψ.
Proof. by intros Hr env b. Qed.
Lemma answers_go {A} (m : B A) : answers φ (go m) (λ _, True).
Proof.
  intros env b. unfold go. rewrite B_result_bind. by destruct (result m env b).
Qed.
Lemma answers_guard bad r : φ r → answers φ (guard_ bad r) (λ _, True).
Proof. intros Hr. unfold guard_. destruct bad; by intros env b. Qed.

(** A value read from the request that is known. *)
Lemma answers_known {A A'} (m : B A) a (f : A → H A') ψ :
  m = mret a → answers φ (f a) ψ → answers φ (x ← go m; f x) ψ.
Proof.
  intros -> Hf env b. unfold mbind, H_bind. rewrite (B_result_bind (A := json + A)). apply (Hf env b).
Qed.

Lemma answers_answered (m : H json) : answers φ m φ → yields (answered m) φ.
Proof.
  intros Hm env b a. specialize (Hm env b). unfold answered. rewrite B_result_bind.
  destruct (result (m : B _) env b) as [e|[r|r]]; [done| |]; by intros [= <-].
Qed.
End answers.

Lemma yields_bind {A A'} (m : B A) (f : A → B A') φ :
  (∀ a, yields (f a) φ) → yields ((m : B A) ≫= f) φ.
Proof.
  intros Hf env b a. rewrite B_result_bind. destruct (result m env b) as [e|x]; [done|]. apply Hf.
Qed.

Lemma yields_known {A A'} (m : B A) a (f : A → B A') φ :
  m = mret a → yields (f a) φ → yields ((m : B A) ≫= f) φ.
Proof. intros -> Hf env b x. rewrite B_result_bind. apply Hf. Qed.

Lemma yields_ret {A} (a : A) (φ : A → Prop) : φ a → yields (mret a : B A) φ.
Proof. by intros Ha env b x [= <-]. Qed.

Lemma value_str_known k req s : json_get k req = Some (JStr s) → value_str k req = mret s.
Proof. unfold value_str. destruct req; try done. by intros ->. Qed.

(** ** The walk *)

Ltac reply_step :=
  lazymatch goal with
  | |- ∀ _, _ => intro
  | |- answers _ (let '(_, _) := ?p in _) _ => destruct p
  | |- answers _ (let _ := _ in _) _ => cbv zeta
  | H : json_get "correlation_id" ?req = Some (JStr _)
    |- answers _ (mbind _ (go (value_str "correlation_id" ?req))) _ =>
      apply (answers_known _ _ _ _ _ (value_str_known _ _ _ H))
  | |- answers _ (mbind _ _) _ => apply answers_bind
  | |- answers _ (go _) _ => apply answers_go
  | |- answers _ (guard_ false _) _ => apply answers_ret; exact I
  | |- answers _ (guard_ _ _) _ => apply answers_guard
  | |- answers _ (reply _) _ => apply answers_reply
  | |- answers _ (mret _) _ => apply answers_ret
  | |- answers _ (match ?x with _ => _ end) _ => destruct x eqn:?
  end.
Ltac reply_walk := repeat reply_step.

Create HintDb echoes discriminated.
#[export] Hint Resolve echoes_with_corr echoes_error : echoes.
#[export] Hint Extern 2 (echoes _ (put _ _ _)) => apply echoes_put; [done|] : echoes.
Ltac echo := reply_walk; repeat match goal with |- echoes _ (match ?x with _ => _ end) => destruct x end;
  auto with echoes.

(** ** The handlers *)

Section handlers.
Context `{External, Config} (c : string) (Hc : c ≠ "") (req : json)
  (Hreq : json_get "correlation_id" req = Some (JStr c)).

Lemma producer_refusal_echoes a r : BrokerReg.producer_refusal c a = Some r → echoes c r.
Proof. unfold BrokerReg.producer_refusal. intros. repeat case_match; simplify_eq; auto with echoes. Qed.
Lemma consumer_refusal_echoes n a r : BrokerConsumerReg.consumer_refusal c n a = Some r → echoes c r.
Proof. unfold BrokerConsumerReg.consumer_refusal. intros. repeat case_match; simplify_eq; auto with echoes. Qed.
#[local] Hint Resolve producer_refusal_echoes consumer_refusal_echoes : echoes.

Lemma reg_echoes i : yields (BrokerReg.handle_reg_req req i) (echoes c).
Proof.
  unfold BrokerReg.handle_reg_req, BrokerReg.abi_gate, BrokerReg.check_producer_pubkey,
    BrokerReg.check_data_transport, BrokerReg.check_inbox_endpoint, BrokerReg.check_channel_schema,
    BrokerReg.register_schema, BrokerReg.adopt_hub_global, BrokerReg.self_register,
    BrokerReg.check_inbox_schema, BrokerReg.admit_producer, BrokerReg.read_topology, BrokerReg.reg_ack.
  apply answers_answered. echo; eauto with echoes.
Qed.

Lemma consumer_reg_echoes i : yields (BrokerConsumerReg.handle_consumer_reg_req req i) (echoes c).
Proof.
  unfold BrokerConsumerReg.handle_consumer_reg_req, BrokerReg.abi_gate, BrokerReg.read_topology,
    BrokerConsumerReg.readiness_gate, BrokerConsumerReg.check_expected_schema,
    BrokerConsumerReg.joiner_hash, BrokerConsumerReg.read_consumer, BrokerConsumerReg.admit_consumer,
    BrokerConsumerReg.awaiting_endpoint_error, BrokerConsumerReg.not_ready, BrokerConsumerReg.with_reason,
    BrokerConsumerReg.consumer_reg_ack.
  apply answers_answered. echo; eauto with echoes.
Qed.

Lemma disc_echoes : yields (BrokerChannels.handle_disc_req req) (echoes c).
Proof.
  unfold BrokerChannels.handle_disc_req, BrokerChannels.missing_channel_name,
    BrokerChannels.channel_not_registered, BrokerChannels.disc_pending, BrokerChannels.disc_ack,
    BrokerConsumerReg.awaiting_endpoint_error.
  apply answers_answered. echo.
Qed.

Lemma dereg_echoes : yields (BrokerChannels.handle_dereg_req req) (echoes c).
Proof.
  unfold BrokerChannels.handle_dereg_req, BrokerChannels.missing_channel_name,
    BrokerChannels.producer_not_registered, BrokerChannels.deregister_producer, BrokerChannels.status_ack.
  apply answers_answered. echo.
Qed.

Lemma consumer_dereg_echoes : yields (BrokerChannels.handle_consumer_dereg_req req) (echoes c).
Proof.
  unfold BrokerChannels.handle_consumer_dereg_req, BrokerChannels.missing_channel_name,
    BrokerChannels.status_ack.
  apply answers_answered. echo.
Qed.

Lemma endpoint_update_echoes i : yields (BrokerChannels.handle_endpoint_update_req req i) (echoes c).
Proof.
  unfold BrokerChannels.handle_endpoint_update_req, BrokerChannels.channel_not_registered,
    BrokerChannels.apply_endpoint, BrokerChannels.not_channel_owner.
  apply answers_answered. echo.
Qed.

Lemma get_auth_echoes : yields (BrokerAttach.handle_get_channel_auth_req req) (echoes c).
Proof.
  unfold BrokerAttach.handle_get_channel_auth_req, BrokerAttach.no_such_channel.
  apply answers_answered. echo.
Qed.

Lemma attach_shm_echoes : yields (BrokerAttach.handle_consumer_attach_req_shm req) (echoes c).
Proof.
  unfold BrokerAttach.handle_consumer_attach_req_shm, BrokerAttach.no_such_channel.
  apply answers_answered. echo.
Qed.

Lemma applied_echoes : yields (BrokerAttach.handle_channel_auth_applied_req req) (echoes c).
Proof.
  unfold BrokerAttach.handle_channel_auth_applied_req, BrokerAttach.applied_ok.
  apply answers_answered. echo.
Qed.

Lemma peer_ready_echoes : yields (BrokerAttach.handle_check_peer_ready_req req) (echoes c).
Proof.
  unfold BrokerAttach.handle_check_peer_ready_req, BrokerAttach.no_such_channel,
    BrokerAttach.readiness_answer.
  apply answers_answered. echo.
Qed.

Lemma band_req_echoes : answers (echoes c) (BrokerBands.read_band_req req) (λ t, t.1.1 = c).
Proof. unfold BrokerBands.read_band_req. reply_walk. done. Qed.

Lemma band_join_echoes i : yields (BrokerBands.handle_band_join_req req i) (echoes c).
Proof.
  apply answers_answered. eapply answers_bind_post; [apply band_req_echoes|]. intros [[? n] u]. cbn. intros ->.
  unfold BrokerBands.check_band_req, BrokerBands.invalid_band. echo.
Qed.
Lemma band_leave_echoes : yields (BrokerBands.handle_band_leave_req req) (echoes c).
Proof.
  apply answers_answered. eapply answers_bind_post; [apply band_req_echoes|]. intros [[? n] u]. cbn. intros ->.
  unfold BrokerBands.check_band_req, BrokerBands.invalid_band. echo.
Qed.
Lemma band_members_echoes : yields (BrokerBands.handle_band_members_req req) (echoes c).
Proof.
  unfold BrokerBands.handle_band_members_req, BrokerBands.invalid_band. apply answers_answered. echo.
Qed.

Lemma schema_echoes : yields (BrokerQueries.handle_schema_req req) (echoes c).
Proof.
  unfold BrokerQueries.handle_schema_req, BrokerQueries.schema_record_answer,
    BrokerQueries.channel_schema_answer.
  apply answers_answered. destruct req; try done. cbn [is_object negb]. echo.
Qed.
Lemma channel_list_echoes : yields (BrokerQueries.handle_channel_list_req req) (echoes c).
Proof. unfold BrokerQueries.handle_channel_list_req. apply answers_answered. echo. Qed.
Lemma role_presence_echoes : yields (BrokerQueries.handle_role_presence_req req) (echoes c).
Proof.
  unfold BrokerQueries.handle_role_presence_req, BrokerQueries.missing_role_uid.
  apply answers_answered. echo.
Qed.
Lemma role_info_echoes : yields (BrokerQueries.handle_role_info_req req) (echoes c).
Proof.
  unfold BrokerQueries.handle_role_info_req, BrokerQueries.missing_role_uid.
  apply answers_answered. echo.
Qed.
Lemma metrics_echoes : yields (BrokerQueries.handle_metrics_req req) (echoes c).
Proof.
  unfold BrokerQueries.handle_metrics_req. apply (yields_known _ _ _ _ (value_str_known _ _ _ Hreq)).
  repeat (apply yields_bind; intros ?). apply yields_ret. auto with echoes.
Qed.

End handlers.
End BrokerAnswers.
