(* ===== verification/BrokerReplies.v ===== *)
(** * What a request gets back

    Properties of [process_message]: which messages make it throw, and that a
    request is answered with its correlation id whatever its handler does.

    Module [BrokerSilence] follows: messages that never reach the socket. *)

From S2P Require Import Prelude.
From S2P Require Import Json.
From S2P Require Import HubCore.
From S2P Require Import HubOps.
From S2P Require Import HubProps.
From S2P Require Import Wire.
From S2P Require Import AdmissionGates.
From S2P Require Import WireDispatch.
From S2P Require Import Broker.
From S2P Require Import BrokerLogic.
From S2P Require Import BrokerReg.
From S2P Require Import BrokerQueries.
From S2P Require Import BrokerFederation.
From S2P Require Import BrokerDispatch.
From S2P Require Import BrokerReach.
From S2P Require Import BrokerAnswers.
From S2P Require Import Entries.
Import Json HubCore HubOps Broker BrokerLogic BrokerAnswers BrokerDispatch.

Module BrokerReplies.

(** ** Computations that do not throw *)

Lemma returns_bind {A A'} (m : B A) (f : A → B A') :
  returns m → (∀ a, returns (f a)) → returns ((m : B A) ≫= f).
Proof.
  intros Hm Hf env b. rewrite B_result_bind. destruct (Hm env b) as [a ->]. apply Hf.
Qed.
Lemma returns_ret {A} (a : A) : returns (mret a : B A).
Proof. intros env b. by eexists. Qed.
Lemma returns_emit o : returns (emit o).
Proof. intros env b. by eexists. Qed.
Lemma returns_lift {A} (m : M A) : returns (lift m).
Proof. intros env b. unfold result, lift. destruct (m env (hub b)) as [[a h] t]. by eexists. Qed.
Lemma returns_try {A} (m : B A) : returns (try_ m).
Proof. intros env b. unfold result, try_. destruct (m env b) as [[r b1] o]. by eexists. Qed.

(** ** Member reads *)

(** [payload] has no [k], or a string. *)
Definition readable (k : string) (payload : json) : Prop :=
  match json_get k payload with None | Some (JStr _) => True | Some _ => False end.

#[export] Instance readable_dec k payload : Decision (readable k payload).
Proof. unfold readable. destruct (json_get k payload) as [[]|]; apply _. Defined.

Lemma value_str_readable k ms env b :
  (∃ s, result (value_str k (JObj ms)) env b = inr s) ↔ readable k (JObj ms).
Proof.
  unfold readable, value_str. destruct (json_get k (JObj ms)) as [[]|]; split; try done;
    try (by intros [? ?]); by eexists.
Qed.

Lemma value_str_exec k req env b : exec (value_str k req) env b = b.
Proof. unfold value_str. repeat case_match; done. Qed.
Lemma value_str_outputs k req env b : outputs (value_str k req) env b = [].
Proof. unfold value_str. repeat case_match; done. Qed.

Section replies.
Context `{External, Config}.

Implicit Types (identity t c : string) (payload : json).

Lemma returns_processing_error t k d i : returns (emit_processing_error t k d i).
Proof. unfold emit_processing_error. case_match; [apply returns_emit|apply returns_ret]. Qed.

Lemma returns_handler_failed identity t payload e : returns (handler_failed identity t payload e).
Proof.
  unfold handler_failed, internal_error_reply, send_reply.
  apply returns_bind; [|intros _; apply returns_bind; [apply returns_lift|intros _; apply returns_processing_error]].
  case_match; [|apply returns_ret]. apply returns_bind; [apply returns_try|].
  intros [?|?]; [apply returns_ret|apply returns_emit].
Qed.

(** [process_message] is meant never to throw; it throws exactly when the
    body's [channel_name] is there and is not a string (the argument of the
    trace message at its top is evaluated outside the [try]), or when the type
    is unknown and the body's own [correlation_id] is not a string. *)
Theorem process_message_throws_iff identity t ms n env b :
  (∃ e, result (process_message identity t (JObj ms) n) env b = inl e) ↔
  ¬ readable "channel_name" (JObj ms) ∨
  (is_known_msg_type t = false ∧ ¬ readable "correlation_id" (JObj ms)).
Proof.
  unfold process_message. cbn [is_object]. rewrite B_result_bind, value_str_exec.
  pose proof (value_str_readable "channel_name" ms env b) as Hch.
  destruct (result (value_str "channel_name" (JObj ms)) env b) as [e|s].
  { split; [|by eexists]. intros _. left. intros [s Hs]%Hch. done. }
  assert (readable "channel_name" (JObj ms)) as Hok by (apply Hch; by eexists).
  destruct (is_known_msg_type t); cbn [negb].
  - split; [|naive_solver]. intros [e He]. exfalso.
    match type of He with result ?m _ _ = _ => enough (returns m) as Hr by (destruct (Hr env b); congruence) end.
    apply returns_bind; [apply returns_try|]. intros r.
    apply returns_bind; [destruct r; [apply returns_handler_failed|apply returns_ret]|]. intros _.
    apply returns_bind; [apply returns_lift|]. intros _. destruct r; [apply returns_lift|apply returns_ret].
  - rewrite B_result_bind, value_str_exec.
    pose proof (value_str_readable "correlation_id" ms env b) as Hc.
    destruct (result (value_str "correlation_id" (JObj ms)) env b) as [e|c].
    { split; [|by eexists]. intros _. right. split; [done|]. by intros [? ?]%Hc. }
    assert (readable "correlation_id" (JObj ms)) as Hok' by (apply Hc; by eexists).
    split; [|naive_solver]. intros [e He]. exfalso.
    match type of He with result ?m _ _ = _ => enough (returns m) as Hr by (destruct (Hr env b); congruence) end.
    apply returns_bind; [apply returns_emit|]. intros _.
    apply returns_bind; [apply returns_lift|]. intros _. apply returns_processing_error.
Qed.

(** ** Replies *)

(** A message type the envelope takes. *)
Definition sendable (t : string) : bool :=
  negb (str_empty t) && bool_decide (String.length t ≤ 64)%nat.

(** The requests answered at once, with an answer that carries a correlation
    id.  The others: an attach request may wait for the producer; the answers
    to [SHM_BLOCK_QUERY_REQ] and [HUB_PEER_HELLO] have none. *)
Definition answered_at_once (t : string) : bool :=
  is_request_reply t &&
  negb (existsb (λ x, x =s t) ["SHM_BLOCK_QUERY_REQ"; "HUB_PEER_HELLO"; "CONSUMER_ATTACH_REQ_ZMQ"]).

(** The message types of the answers, as the protocol has them: the name of the
    request with ACK for REQ when the handler's status accepts it, [ERROR]
    otherwise; a discovery may also be pending, and four queries have no
    refusal. *)
Definition ack_name (t : string) : string :=
  if t =s "CONSUMER_ATTACH_REQ_SHM" then "CONSUMER_ATTACH_ACK_SHM"
  else String.substring 0 (String.length t - 3) t +:+ "ACK".

Definition accepts (t status : string) : bool :=
  if existsb (λ x, x =s t) ["CHANNEL_LIST_REQ"; "METRICS_REQ"; "ROLE_PRESENCE_REQ"; "ROLE_INFO_REQ"] then true
  else if t =s "BAND_MEMBERS_REQ" then negb (status =s "error")
  else existsb (λ x, x =s status)
    (if t =s "CONSUMER_ATTACH_REQ_SHM" then ["success"; "denied"]
     else if t =s "CHANNEL_AUTH_APPLIED_REQ" then ["ok"]
     else if t =s "CHECK_PEER_READY_REQ" then ["ready"; "not_ready"]
     else ["success"]).

Definition reply_type (t : string) (r : json) : string :=
  let status := str_of "status" r in
  if accepts t status then ack_name t
  else if (t =s "DISC_REQ") && (status =s "pending") then "DISC_PENDING" else "ERROR".

(** Type and body of the answer, from what the handler came to. *)
Definition request_answer (t c : string) (res : exn + json) : string * json :=
  match res with
  | inl e => ("ERROR", make_error c "INTERNAL_ERROR" (what e))
  | inr r => (reply_type t r, r)
  end.

Lemma ack_when_sendable l ack r : sendable ack = true → sendable (ack_when l ack r) = true.
Proof. intros Ha. unfold ack_when. by case_match. Qed.

Lemma disc_ack_sendable r : sendable (disc_ack_type r) = true.
Proof. unfold disc_ack_type. by repeat case_match. Qed.

Lemma disc_reply_type r : disc_ack_type r = reply_type "DISC_REQ" r.
Proof.
  change (reply_type "DISC_REQ" r) with
    (if ("success" =s str_of "status" r) || false then "DISC_ACK"
     else if str_of "status" r =s "pending" then "DISC_PENDING" else "ERROR").
  unfold disc_ack_type, str_eqb. rewrite orb_false_r.
  by rewrite (bool_decide_ext ("success" = str_of "status" r) (str_of "status" r = "success")).
Qed.

Lemma band_members_reply_type r :
  (if str_of "status" r =s "error" then "ERROR" else "BAND_MEMBERS_ACK") = reply_type "BAND_MEMBERS_REQ" r.
Proof.
  change (reply_type "BAND_MEMBERS_REQ" r) with
    (if negb (str_of "status" r =s "error") then "BAND_MEMBERS_ACK" else "ERROR").
  by destruct (_ =s _).
Qed.

(** What the branch of such a type is. *)
Definition replies_with c identity t payload : Prop :=
  ∃ ack handler, run_branch identity t payload = replying identity ack handler ∧
    yields handler (echoes c) ∧ ∀ r, sendable (ack r) = true ∧ ack r = reply_type t r.

Lemma branch_replies c identity t payload :
  c ≠ "" → json_get "correlation_id" payload = Some (JStr c) → answered_at_once t = true →
  replies_with c identity t payload.
Proof.
  intros Hc Hp Ht. unfold answered_at_once, is_request_reply in Ht.
  apply andb_true_iff in Ht as [Ht Hn]. apply existsb_exists in Ht as (x & Hx & Hxt). bool_facts. subst x.
  assert (Hin : t ∈ kRequestReplyTypes) by (by apply list_elem_of_In). clear Hx.
  unfold kRequestReplyTypes in Hin.
  repeat (apply elem_of_cons in Hin as [->|Hin]; [try discriminate Hn; do 2 eexists;
    (split; [reflexivity|split;
      [eauto using reg_echoes, disc_echoes, dereg_echoes, consumer_reg_echoes, consumer_dereg_echoes,
         endpoint_update_echoes, schema_echoes, channel_list_echoes, metrics_echoes,
         role_presence_echoes, role_info_echoes, band_join_echoes, band_leave_echoes,
         band_members_echoes, get_auth_echoes, attach_shm_echoes, applied_echoes, peer_ready_echoes
      |intros r; split; [first [apply disc_ack_sendable|by apply ack_when_sendable|reflexivity|by case_match]
        |first [reflexivity|apply disc_reply_type|apply band_members_reply_type]]]])|]).
  by apply elem_of_nil in Hin.
Qed.

(** Nothing of it reaches the socket. *)
Definition off_the_wire (l : list Output) : Prop := Forall (λ o, frames o = None) l.

Lemma off_wire_lift {A} (m : M A) env b : off_the_wire (outputs (lift m) env b).
Proof.
  unfold outputs, lift. destruct (m env (hub b)) as [[a h] t]. cbn.
  apply Forall_fmap, Forall_true. done.
Qed.

Lemma off_wire_error t k d i env b : off_the_wire (outputs (emit_processing_error t k d i) env b).
Proof. unfold emit_processing_error. case_match; repeat constructor. Qed.

Lemma off_wire_bind {A A'} (m : B A) (f : A → B A') env b :
  off_the_wire (outputs m env b) → (∀ a env b, off_the_wire (outputs (f a) env b)) →
  off_the_wire (outputs ((m : B A) ≫= f) env b).
Proof.
  intros Hm Hf. rewrite B_outputs_bind. apply Forall_app. split; [done|].
  destruct (result m env b); [constructor|apply Hf].
Qed.

Lemma run_try {A} (m : B A) env b :
  result (try_ m) env b = inr (result m env b) ∧ exec (try_ m) env b = exec m env b ∧
  outputs (try_ m) env b = outputs m env b.
Proof. unfold result, exec, outputs, try_. by destruct (m env b) as [[r b1] o]. Qed.

Lemma send_frames c identity t r :
  identity ≠ "" → c ≠ "" → (String.length c ≤ 64)%nat → sendable t = true → echoes c r →
  is_Some (frames (Send identity t r)).
Proof.
  intros Hi Hc Hl Ht Hr. cbn [frames]. rewrite (str_of_echo _ _ Hr).
  unfold Wire.build_router_send, Wire.build_dealer_send. rewrite !(proj2 (str_empty_false identity) Hi), (proj2 (str_empty_false c) Hc).
  unfold sendable in Ht. apply andb_true_iff in Ht as [Ht1%negb_true_iff Ht2%bool_decide_eq_true].
  rewrite Ht1.
  rewrite !bool_decide_false by (unfold Wire.kMaxMsgTypeLen, Wire.kMaxCorrelationIdLen; lia).
  cbn [orb andb]. rewrite (proj1 Hr). by eexists.
Qed.

Lemma outputs_handler_failed identity t c ms e env b :
  is_request_reply t = true → json_get "correlation_id" (JObj ms) = Some (JStr c) →
  ∃ post, outputs (handler_failed identity t (JObj ms) e) env b =
            Send identity "ERROR" (make_error c "INTERNAL_ERROR" (what e)) :: post ∧ off_the_wire post.
Proof.
  intros Ht Hc. unfold handler_failed, internal_error_reply. rewrite Ht, (value_str_known _ _ _ Hc).
  rewrite B_outputs_bind. eexists. split; [reflexivity|].
  apply off_wire_bind; [apply off_wire_lift|]. intros ???. apply off_wire_error.
Qed.

(** C29 A request is answered: a request of a type that is answered at once,
    with a correlation id and a [channel_name] that is a string if it is there,
    runs the handler of its branch and gets a message with that id: what the
    handler returned, under the type the protocol has for the request and the
    status in it, or, when the handler threw, the [ERROR] that says so.  The
    message is one the socket takes, and the last thing the broker puts on it
    for this request. *)
Theorem request_is_answered identity t c ms n env b :
  answered_at_once t = true → json_get "correlation_id" (JObj ms) = Some (JStr c) →
  c ≠ "" → (String.length c ≤ 64)%nat → identity ≠ "" → readable "channel_name" (JObj ms) →
  ∃ ack handler post, run_branch identity t (JObj ms) = replying identity ack handler ∧
    let '(ty, body) := request_answer t c (result handler env b) in
    outputs (process_message identity t (JObj ms) n) env b =
      outputs handler env b ++ Send identity ty body :: post ∧
    str_of "correlation_id" body = c ∧ is_Some (frames (Send identity ty body)) ∧ off_the_wire post.
Proof.
  intros Ht Hc Hne Hlen Hid Hch.
  destruct (branch_replies c identity t (JObj ms) Hne Hc Ht) as (ack & handler & Hrun & Hy & Hack).
  apply (value_str_readable _ _ env b) in Hch as [s Hs].
  apply andb_true_iff in Ht as [Hreq _]. exists ack, handler.
  enough (∃ post, let '(ty, body) := request_answer t c (result handler env b) in
    outputs (process_message identity t (JObj ms) n) env b = outputs handler env b ++ Send identity ty body :: post ∧
    str_of "correlation_id" body = c ∧ is_Some (frames (Send identity ty body)) ∧ off_the_wire post)
    as [post Hpost] by (by exists post).
  unfold process_message. cbn [is_object]. rewrite B_outputs_bind, Hs, value_str_exec, value_str_outputs.
  unfold is_known_msg_type. rewrite Hreq. cbn [orb negb app].
  rewrite B_outputs_bind. destruct (run_try (run_branch identity t (JObj ms)) env b) as (-> & -> & ->).
  rewrite Hrun. unfold replying, send_reply. rewrite B_outputs_bind, B_result_bind.
  specialize (Hy env b). destruct (result handler env b) as [e|r]; cbn [request_answer].
  - rewrite B_outputs_bind.
    match goal with |- context [outputs (handler_failed identity t _ e) env ?b'] =>
      destruct (outputs_handler_failed identity t c ms e env b' Hreq Hc) as (post & -> & Hpost) end.
    eexists. rewrite app_nil_r. split_and!; [reflexivity|by apply str_of_echo, echoes_error| |].
    + by eapply send_frames; [..|apply echoes_error].
    + apply Forall_app. split; [done|]. case_match; [constructor|].
      apply off_wire_bind; [apply off_wire_lift|intros; apply off_wire_lift].
  - destruct (Hack r) as [Hsend Hty]. rewrite <- Hty. eexists. rewrite <- app_assoc.
    split_and!; [reflexivity|by apply str_of_echo, Hy| |].
    + by eapply send_frames; [..|apply Hy].
    + cbn [app]. apply off_wire_bind; [constructor|]. intros ???.
      apply off_wire_bind; [apply off_wire_lift|]. intros ???. constructor.
Qed.
End replies.
End BrokerReplies.

Import Json HubCore HubOps Broker BrokerLogic BrokerDispatch BrokerReplies.

(** * Messages that never reach the socket

    [send_to_identity] and [send_reply] put a message on the socket only when
    its body carries a correlation id or its type ends in [_NOTIFY].  The
    federation's messages and one reply have neither. *)
Module BrokerSilence.

Section silence.
Context `{External, Config}.

(** Such a message is built for nobody. *)
Lemma unaddressed identity t body :
  json_get "correlation_id" body = None → Wire.is_notify_msg_type t = false →
  frames (Send identity t body) = None.
Proof.
  intros Hc Ht. cbn [frames]. unfold str_of. rewrite Hc.
  unfold Wire.build_router_send, Wire.build_dealer_send. case_match; [done|].
  case_match; [done|]. case_match; [done|]. rewrite Ht. done.
Qed.

(** Every output of the computation stays off the socket. *)
Abbreviation mute := (emits (λ o, frames o = None)).

Lemma mute_forget u : mute (BrokerFederation.forget_notified u).
Proof. apply emits_modify. Qed.
Lemma mute_callback on o : frames o = None → mute (BrokerFederation.callback on o).
Proof. intros Ho. unfold BrokerFederation.callback. destruct on; [by apply emits_emit|apply emits_ret]. Qed.
Lemma mute_notify_once u : mute (BrokerFederation.notify_connected_once u).
Proof. unfold BrokerFederation.notify_connected_once. emits_walk. Qed.
#[local] Hint Resolve mute_forget mute_notify_once : emits.
#[local] Hint Extern 1 (mute (BrokerFederation.callback _ _)) => apply mute_callback; reflexivity : emits.

Lemma mute_unaddressed identity t body :
  json_get "correlation_id" body = None → Wire.is_notify_msg_type t = false →
  mute (emit (Send identity t body)).
Proof. intros Hc Ht. by apply emits_emit, unaddressed. Qed.

Lemma mute_hello identity payload : mute (BrokerFederation.handle_hub_peer_hello identity payload).
Proof.
  unfold BrokerFederation.handle_hub_peer_hello, send_reply. emits_walk;
    by apply mute_unaddressed.
Qed.

Lemma relay_body_unaddressed (l : list (string * json)) data :
  json_get "correlation_id" (obj l) = None →
  json_get "correlation_id" (obj (l ++ if str_empty data then [] else [("payload", JStr data)])) = None.
Proof.
  intros Hl. destruct (str_empty data); [by rewrite app_nil_r|].
  by rewrite json_get_obj_snoc.
Qed.

Lemma mute_relay n e s d : mute (BrokerFederation.relay_notify_to_peers n e s d).
Proof.
  unfold BrokerFederation.relay_notify_to_peers, send_to_identity. emits_walk;
    (apply mute_unaddressed; [by apply relay_body_unaddressed|done]).
Qed.

(** A hello as a peer sends it is not an envelope. *)
Lemma hello_rejected identity :
  Wire.parse_router_recv blake2b parse (identity :: BrokerFederation.hello_frames) = inl Wire.frame_count.
Proof. done. Qed.

Lemma mute_rejected v : WireDispatch.rej_identity v = "" → mute (dispatch_rejected v).
Proof. intros Hv. unfold dispatch_rejected. rewrite Hv. cbn [str_empty]. emits_walk. Qed.

(** Federation never gets off the ground: the three frames a broker sends
    to introduce itself are dropped by the broker that receives them, which
    learns of no peer; and neither the answer to an introduction that did get
    through nor any relayed message ever reaches the socket. *)
Theorem federation_handshake_is_dropped :
  (∀ identity env b,
     let m := serve (identity :: BrokerFederation.hello_frames) in
     result m env b = inr tt ∧ peers_ (hub (exec m env b)) = peers_ (hub b) ∧
     off_the_wire (outputs m env b)) ∧
  (∀ identity payload env b, off_the_wire (outputs (BrokerFederation.handle_hub_peer_hello identity payload) env b)) ∧
  (∀ n e s d env b, off_the_wire (outputs (BrokerFederation.relay_notify_to_peers n e s d) env b)).
Proof.
  split_and!; [|apply mute_hello|apply mute_relay]. intros identity env b m.
  subst m. split_and!; [reflexivity|reflexivity|constructor].
Qed.

Lemma shm_answer_unaddressed req :
  yields (BrokerQueries.handle_shm_block_query req) (λ r, json_get "correlation_id" r = None).
Proof.
  unfold BrokerQueries.handle_shm_block_query, BrokerQueries.collect_shm_info.
  apply BrokerAnswers.yields_bind. intros ch. apply BrokerAnswers.yields_bind. intros snap.
  by apply BrokerAnswers.yields_ret.
Qed.

Lemma mute_shm_query req : mute (BrokerQueries.handle_shm_block_query req).
Proof. unfold BrokerQueries.handle_shm_block_query, BrokerQueries.collect_shm_info. emits_walk. Qed.

Lemma mute_unaddressed_reply identity ack handler :
  mute handler → yields handler (λ r, json_get "correlation_id" r = None) →
  (∀ r, Wire.is_notify_msg_type (ack r) = false) → mute (replying identity ack handler).
Proof.
  intros Hm Hy Ha env b. unfold replying. rewrite B_outputs_bind. apply Forall_app.
  split; [apply Hm|]. destruct (result handler env b) as [e|r] eqn:Hr; [constructor|].
  apply mute_unaddressed; [|apply Ha]. by apply (Hy env b).
Qed.

(** The answer to [SHM_BLOCK_QUERY_REQ] is never sent: the handler puts no
    correlation id into it, so the envelope is refused and the requester hears
    nothing. *)
Theorem shm_query_is_never_answered identity ms n env b :
  readable "channel" (JObj ms) → readable "channel_name" (JObj ms) →
  off_the_wire (outputs (process_message identity "SHM_BLOCK_QUERY_REQ" (JObj ms) n) env b).
Proof.
  intros Hch Hn. apply (value_str_readable _ _ env b) in Hn as [s Hs].
  apply (value_str_readable _ _ env b) in Hch as [q Hq].
  unfold process_message. cbn [is_object].
  change (is_known_msg_type "SHM_BLOCK_QUERY_REQ") with true. cbn [negb].
  rewrite B_outputs_bind, Hs, value_str_exec, value_str_outputs. cbn [app].
  set (branch := run_branch identity "SHM_BLOCK_QUERY_REQ" (JObj ms)).
  assert (Hmute : mute branch).
  { by apply mute_unaddressed_reply; [apply mute_shm_query|apply shm_answer_unaddressed|]. }
  assert (Hr : ∃ r, result branch env b = inr r).
  { unfold branch. change (run_branch identity "SHM_BLOCK_QUERY_REQ" (JObj ms)) with
      (replying identity (λ _, "SHM_BLOCK_QUERY_ACK") (BrokerQueries.handle_shm_block_query (JObj ms))).
    unfold replying, BrokerQueries.handle_shm_block_query. rewrite !B_result_bind, Hq. by eexists. }
  rewrite B_outputs_bind. destruct (run_try branch env b) as (-> & -> & ->).
  destruct Hr as [r ->]. apply Forall_app. split; [apply Hmute|].
  unfold off_the_wire. match goal with |- Forall _ (outputs ?m _ _) => enough (mute m) as Hm by apply Hm end. emits_walk.
Qed.
End silence.
End BrokerSilence.
