(* ===== verification/BrokerRoles.v ===== *)
(** * What the broker does for one kind of role

    Heartbeats of processors, and departures: a consumer's key is revoked when
    it leaves, a producer's is not. *)

From S2P Require Import Prelude.
From S2P Require Import Json.
From S2P Require Import Naming.
From S2P Require Import Ledger.
From S2P Require Import Entries.
From S2P Require Import HubCore.
From S2P Require Import HubOps.
From S2P Require Import Wire.
From S2P Require Import WireDispatch.
From S2P Require Import AdmissionGates.
From S2P Require Import DispatchProps.
From S2P Require Import Broker.
From S2P Require Import BrokerLogic.
From S2P Require Import BrokerChannels.
From S2P Require Import BrokerDispatch.
From S2P Require Import BrokerAnswers.
From S2P Require Import BrokerReplies.
Import Json Entries HubCore HubOps WireBodies Broker BrokerLogic BrokerDispatch BrokerAnswers BrokerReplies.

Module BrokerRoles.

Lemma keeps_bind_yields {A A'} I (φ : A → Prop) (m : B A) (f : A → B A') :
  keeps I m → yields m φ → (∀ a, φ a → keeps I (f a)) → keeps I ((m : B A) ≫= f).
Proof.
  intros Hm Hy Hf env b HI. rewrite B_exec_bind. specialize (Hm env b HI).
  destruct (result m env b) as [e|a] eqn:Hr; [done|]. by apply Hf; [eapply Hy|].
Qed.

Lemma keeps_lift {A} I (m : M A) : (∀ env b, I b → I (enter (HubCore.exec m env (hub b)) b)) → keeps I (lift m).
Proof.
  intros Hm env b HI. specialize (Hm env b HI). revert Hm. unfold exec, lift, HubCore.exec.
  by destruct (m env (hub b)) as [[a h] t].
Qed.

Section roles.
Context `{External, Config}.

(** ** Heartbeats of processors *)

Lemma yields_value_str k req : yields (value_str k req)
  (λ s, s = "" ∨ json_get k req = Some (JStr s)).
Proof.
  intros env b s. unfold value_str. destruct req as [| | | | | |ms]; try done.
  destruct (json_get k (JObj ms)) as [[]|] eqn:Hk; try done; intros [= <-]; by auto.
Qed.

(** What a heartbeat has to be to count. *)
Definition counts (req : json) (o : option (string * string * string)) : Prop :=
  match o with
  | None => True
  | Some (_, u, t) =>
      json_get "role_uid" req = Some (JStr u) ∧ json_get "role_type" req = Some (JStr t) ∧
      BrokerChannels.tag_matches_role_type u t = true
  end.

Lemma yields_bind_post {A A'} (φ : A → Prop) (ψ : A' → Prop) (m : B A) (f : A → B A') :
  yields m φ → (∀ a, φ a → yields (f a) ψ) → yields ((m : B A) ≫= f) ψ.
Proof.
  intros Hm Hf env b x. rewrite B_result_bind. destruct (result m env b) as [e|a] eqn:Hr; [done|].
  apply Hf. by eapply Hm.
Qed.

Lemma heartbeat_subject_counts req : yields (BrokerChannels.heartbeat_subject req) (counts req).
Proof.
  unfold BrokerChannels.heartbeat_subject. apply yields_bind. intros n.
  case_match; [by apply yields_ret|]. apply yields_bind. intros snap.
  case_match; [|by apply yields_ret].
  eapply yields_bind_post; [apply yields_value_str|]. intros u Hu.
  eapply yields_bind_post; [apply yields_value_str|]. intros t Ht. apply yields_ret.
  destruct (str_empty u) eqn:Hue; [done|]. destruct (str_empty t) eqn:Hte; [done|]. cbn [orb].
  apply str_empty_false in Hue, Hte. case_match; [done|]. case_match eqn:Hm; [done|].
  apply negb_false_iff in Hm. naive_solver.
Qed.

(** The gate lets a processor's uid through only with a role type that the
    handler does not know. *)
Lemma processor_gate w u n t :
  Wire.msg_type w = "HEARTBEAT_NOTIFY" → u ≠ "" → Naming.extract_short_tag u = Some "proc" →
  AdmissionGates.run_control_gates w (AdmissionGates.mkControlView u n t) = None →
  BrokerChannels.tag_matches_role_type u t = false.
Proof.
  intros Hw Hu Htag. unfold AdmissionGates.run_control_gates. cbn. rewrite (proj2 (str_empty_false u) Hu), Hw.
  intros Hg. apply GateProps.and_then_None in Hg as [Hg _].
  case_match; [done|]. case_match; [done|]. revert Hg.
  unfold AdmissionGates.gate_role_tag_policy, BrokerChannels.tag_matches_role_type. rewrite Htag. cbn.
  destruct (t =s "producer"); [done|]. by destruct (t =s "consumer").
Qed.

(** ** The rest of a message does not touch the roles *)

Section rows.
Context (R : gmap string RoleEntry).
Abbreviation rows := (λ b, roles_ (hub b) = R).

Lemma rows_idle {A} (m : M A) : (∀ env h, roles_ (HubCore.exec m env h) = roles_ h) → keeps rows (lift m).
Proof. intros Hm. apply keeps_lift. intros env b <-. apply Hm. Qed.

Lemma rows_snapshot : keeps rows (lift snapshot).
Proof. by apply rows_idle. Qed.
Lemma rows_counter k n : keeps rows (lift (_bump_counter k n)).
Proof. by apply rows_idle. Qed.
Lemma rows_type_error t n : keeps rows (lift (_bump_msg_type_error t n)).
Proof. by apply rows_idle. Qed.
Lemma rows_processed t i o : keeps rows (lift (_on_message_processed t i o)).
Proof. by apply rows_idle. Qed.
#[local] Hint Resolve rows_snapshot rows_counter rows_type_error rows_processed : keeps.

Lemma rows_subject req : keeps rows (BrokerChannels.heartbeat_subject req).
Proof. unfold BrokerChannels.heartbeat_subject. walk. Qed.

Lemma rows_heartbeat req u t :
  (∀ v, json_get "role_uid" req = Some (JStr v) → v = u) →
  (∀ v, json_get "role_type" req = Some (JStr v) → v = t) →
  BrokerChannels.tag_matches_role_type u t = false →
  keeps rows (BrokerChannels.handle_heartbeat_req req).
Proof.
  intros Hu Ht Hm. unfold BrokerChannels.handle_heartbeat_req.
  eapply keeps_bind_yields; [apply rows_subject|apply heartbeat_subject_counts|].
  intros [[[n v] s]|]; [|intros _; apply keeps_ret]. intros (Hv & Hs & Hms).
  apply Hu in Hv as ->. apply Ht in Hs as ->. congruence.
Qed.

Lemma rows_processing_error t k d i : keeps rows (emit_processing_error t k d i).
Proof. unfold emit_processing_error. walk. Qed.
#[local] Hint Resolve rows_processing_error : keeps.

Lemma rows_process identity t payload n :
  keeps rows (run_branch identity t payload) → keeps rows (process_message identity t payload n).
Proof.
  intros Hb. unfold process_message, handler_failed, internal_error_reply, send_reply. walk; done.
Qed.

Lemma rows_rejected v : keeps rows (dispatch_rejected v).
Proof. unfold dispatch_rejected. walk. Qed.
End rows.

(** What the dispatch makes of a heartbeat: it changes nothing, and hands the
    message over only when the gates let its role through. *)
Lemma receive_heartbeat raw w env h :
  Wire.parse_router_recv blake2b parse raw = inr w → Wire.msg_type w = "HEARTBEAT_NOTIFY" →
  let m := WireDispatch.receive_and_validate blake2b parse raw
             (AdmissionGates.bind_admission_context known_roles) in
  HubCore.exec m env h = h ∧
  ((∃ rej, HubCore.result m env h = WireDispatch.Rejected rej) ∨
   HubCore.result m env h = WireDispatch.ValidatedHeartbeatNotify w (Wire.body w) ∧
   ∃ u n t, json_get "role_uid" (Wire.body w) = Some (JStr u) ∧
     json_get "role_type" (Wire.body w) = Some (JStr t) ∧
     AdmissionGates.run_control_gates w (AdmissionGates.mkControlView u n t) = None).
Proof.
  intros Hp Hm. cbv zeta. unfold WireDispatch.receive_and_validate. rewrite Hp, Hm.
  change (WireDispatch.lookup_tier "HEARTBEAT_NOTIFY") with (Some WireDispatch.Control_HeartbeatNotify).
  cbn [WireDispatch.validate_tier].
  unfold WireDispatch.validate_control_with_role_uid, WireDispatch.validate_with.
  match goal with |- context [match ?r with inl _ => _ | inr _ => _ end] => destruct r as [e|v] eqn:Hv end.
  { split; [done|left; by eexists]. }
  apply res_bind_inr in Hv as (_ & _ & Hv). apply res_bind_inr in Hv as (u & Hu%read_string_inr & Hv).
  apply res_bind_inr in Hv as (n & _ & Hv). apply res_bind_inr in Hv as (t & Ht%read_string_inr & Hv).
  injection Hv as <-. run. split; [done|].
  destruct (AdmissionGates.run_control_gates _ _) eqn:Hg; [left; by eexists|right]. eauto 10.
Qed.

Lemma legacy_member w k ms : Wire.body w = JObj ms → k ≠ "correlation_id" →
  json_get k (to_legacy w (Wire.body w)) = json_get k (Wire.body w).
Proof.
  intros -> Hk. unfold to_legacy, with_corr. case_match; [done|]. rewrite json_get_put.
  unfold str_eqb. by case_bool_decide.
Qed.

(** A uid the gates let through is the sender's, if it is there at all. *)
Lemma gate_identity w u n t :
  AdmissionGates.run_control_gates w (AdmissionGates.mkControlView u n t) = None → u ≠ "" →
  Wire.identity w = u.
Proof.
  intros [Hg _]%GateProps.and_then_None Hu. revert Hg. cbn. rewrite (proj2 (str_empty_false u) Hu).
  destruct (Wire.identity w =s u) eqn:Hi; [|done]. by apply GateProps.str_eqb_spec in Hi.
Qed.

(** A processor's heartbeat never counts: the gate of the dispatch wants
    the role type ["processor"] of a uid with the tag [proc], the handler knows
    only ["producer"] and ["consumer"], so whatever a processor sends, its
    presences are not refreshed. *)
Theorem processor_heartbeats_never_count raw w env b :
  Wire.parse_router_recv blake2b parse raw = inr w → Wire.msg_type w = "HEARTBEAT_NOTIFY" →
  Naming.extract_short_tag (Wire.identity w) = Some "proc" →
  roles_ (hub (exec (serve raw) env b)) = roles_ (hub b).
Proof.
  intros Hp Hm Htag. unfold serve. rewrite B_exec_bind.
  destruct (receive_heartbeat raw w env (hub b) Hp Hm) as [He Hr].
  set (m := WireDispatch.receive_and_validate _ _ _ _) in *.
  assert (Hl : result (lift m) env b = inr (HubCore.result m env (hub b)) ∧ hub (exec (lift m) env b) = hub b).
  { revert He. unfold result, exec, lift, HubCore.result, HubCore.exec.
    by destruct (m env (hub b)) as [[a h] tr]. }
  destruct Hl as [-> Hh]. set (b1 := exec (lift m) env b) in *. clearbody b1.
  enough (Hk : keeps (λ b', roles_ (hub b') = roles_ (hub b)) (dispatch_received (HubCore.result m env (hub b))))
    by (apply (Hk env b1); by rewrite Hh).
  destruct Hr as [[rej ->]|[-> (u & n & t & Hu & Ht & Hg)]]; [apply rows_rejected|].
  cbn [dispatch_received]. unfold dispatch_legacy. apply rows_process.
  destruct (DispatchProps.parse_router_inr _ _ _ _ Hp) as (c & text & _ & _ & ms & _ & _ & Hw).
  assert (Hb : Wire.body w = JObj ms) by (by rewrite Hw).
  apply (rows_heartbeat _ _ u t).
  - intros v. rewrite (legacy_member w _ ms Hb), Hu by done. congruence.
  - intros v. rewrite (legacy_member w _ ms Hb), Ht by done. congruence.
  - destruct (decide (u = "")) as [->|Hne].
    + unfold BrokerChannels.tag_matches_role_type. by repeat case_match.
    + pose proof (gate_identity _ _ _ _ Hg Hne) as <-. by eapply processor_gate.
Qed.
End roles.
End BrokerRoles.
