(* ===== verification/BrokerDepartures.v ===== *)
(** * What a departure does to a channel's allowlist

    The two dialing parties of a channel leave in different ways: a consumer's
    key is revoked and the binding side is told; a producer's departure, by its
    own request or by a timeout, touches no allowlist and tells nobody. *)

From S2P Require Import Prelude.
From S2P Require Import Json.
From S2P Require Import Naming.
From S2P Require Import Ledger.
From S2P Require Import Entries.
From S2P Require Import HubCore.
From S2P Require Import HubOps.
From S2P Require Import EntryFacts.
From S2P Require Import HubInv.
From S2P Require Import TeardownProps.
From S2P Require Import Broker.
From S2P Require Import BrokerLogic.
From S2P Require Import BrokerChannels.
From S2P Require Import BrokerSweep.
From S2P Require Import BrokerView.
From S2P Require Import BrokerReplies.
Import Json Entries HubCore HubOps EntryFacts HubInv TeardownProps Broker BrokerLogic BrokerRoster BrokerReplies.

Module BrokerDepartures.

(** Each channel's allowlist: its version, and the keys admitted with theirs. *)
Definition allowlists (h : HubImpl) : gmap string (Z * gmap string Z) :=
  (λ a, (Ledger.current_version_ (ledger a), Ledger.admission_version_ (ledger a))) <$>
    channel_access_index h.

(** ** Hub operations that leave the allowlists alone *)

Definition spares {A} (m : M A) : Prop := ∀ e h, allowlists (HubCore.exec m e h) = allowlists h.

Lemma spares_bind {A A'} (m : M A) (f : A → M A') : spares m → (∀ a, spares (f a)) → spares (m ≫= f).
Proof. intros Hm Hf e h. by rewrite exec_bind, Hf, Hm. Qed.

Lemma spares_idle {A} (m : M A) : idle m → spares m.
Proof. intros Hm e h. unfold allowlists. by destruct (Hm e h) as [_ ->]. Qed.

Lemma spares_modify f : (∀ h, channel_access_index (f h) = channel_access_index h) → spares (modify f).
Proof. intros Hf e h. unfold allowlists. cbn. by rewrite Hf. Qed.

Lemma spares_reset n u : spares (modify (reset_confirmation n u)).
Proof.
  intros e h. unfold allowlists. cbn. apply map_eq. intros k. rewrite !lookup_fmap.
  destruct (decide (k = n)) as [->|Hk]; [|by rewrite lookup_alter_ne].
  rewrite lookup_alter_eq. by destruct (channel_access_index h !! n).
Qed.

Ltac spares_walk := repeat first
  [ assumption
  | solve [apply spares_idle; idle_walk]
  | solve [apply spares_modify; done]
  | solve [apply spares_reset]
  | lazymatch goal with
    | |- ∀ _, _ => intro
    | |- spares (let '(_, _) := ?p in _) => destruct p
    | |- spares (let _ := _ in _) => cbv zeta
    | |- spares (mbind _ _) => apply spares_bind
    | |- spares (match ?x with _ => _ end) => destruct x
    end ].

Lemma spares_closed n why : spares (_on_channel_closed n why).
Proof. unfold _on_channel_closed, _set_channel_closed. spares_walk. Qed.

Lemma spares_dropped n u why : spares (_on_producer_dropped n u why).
Proof.
  unfold _on_producer_dropped. pose proof (spares_closed n why). spares_walk.
Qed.

Lemma spares_timeout n u : spares (_on_pending_timeout n u "producer").
Proof.
  unfold _on_pending_timeout, pending_timeout_producer.
  change (str_empty "producer") with false. change ("producer" =s "consumer") with false. cbv iota.
  pose proof (spares_closed n HeartbeatTimeout).
  spares_walk.
Qed.

(** ** Producers *)

Section departures.
Context `{External, Config}.

(** No allowlist of [b] is touched; a channel that closes loses its own. *)
Definition untouched (L : gmap string (Z * gmap string Z)) (b : BrokerState) : Prop :=
  allowlists (hub b) ⊆ L.

Section producers.
Context (L : gmap string (Z * gmap string Z)).

Lemma untouched_spares {A} (m : M A) : spares m → keeps (untouched L) (lift m).
Proof.
  intros Hm env b HL. unfold untouched, exec. rewrite lift_run. cbn. by rewrite Hm.
Qed.

Lemma untouched_access_closed n : keeps (untouched L) (lift (_on_channel_access_closed n)).
Proof.
  intros env b HL. unfold untouched, exec. rewrite lift_run. cbn. unfold _on_channel_access_closed.
  case_match; [exact HL|]. unfold allowlists. cbn. rewrite fmap_delete. etrans; [apply delete_subseteq|done].
Qed.

Lemma untouched_set_queues q : keeps (untouched L) (set_queues q).
Proof. by intros env b HL. Qed.
Lemma untouched_answer s r n u e : keeps (untouched L) (answer s r n u e).
Proof. by intros env b HL. Qed.
#[local] Hint Resolve untouched_set_queues untouched_answer untouched_access_closed : keeps.

Lemma untouched_producer_denied n u r : keeps (untouched L) (drain_pending_attach_queue_for_producer_denied_ n u r).
Proof. unfold drain_pending_attach_queue_for_producer_denied_. walk. Qed.
Lemma untouched_channel_denied n r : keeps (untouched L) (drain_pending_attach_queue_for_channel_denied_ n r).
Proof. unfold drain_pending_attach_queue_for_channel_denied_. walk. Qed.
#[local] Hint Resolve untouched_producer_denied untouched_channel_denied : keeps.

Lemma untouched_drop n u r e ch : keeps (untouched L) (BrokerChannels.after_producer_drop n u r e ch).
Proof.
  unfold BrokerChannels.after_producer_drop, BrokerChannels.close_channel_access, send_closing_notify,
    send_to_identity. walk.
Qed.
#[local] Hint Resolve untouched_drop : keeps.
#[local] Hint Extern 1 (keeps _ (lift (_on_producer_dropped _ _ _))) =>
  apply untouched_spares, spares_dropped : keeps.
#[local] Hint Extern 1 (keeps _ (lift (_on_pending_timeout _ _ _))) =>
  apply untouched_spares, spares_timeout : keeps.

Lemma untouched_dereg req : keeps (untouched L) (BrokerChannels.handle_dereg_req req).
Proof. unfold BrokerChannels.handle_dereg_req, BrokerChannels.deregister_producer. walk. Qed.

Lemma untouched_reclaim t : keeps (untouched L) (BrokerSweep.reclaim_producer t).
Proof. unfold BrokerSweep.reclaim_producer. walk. Qed.
End producers.

(** ** Who is told *)

Definition not_auth_changed (o : Output) : Prop :=
  match o with Send _ t _ => t ≠ "CHANNEL_AUTH_CHANGED_NOTIFY" | _ => True end.

#[local] Hint Extern 1 (emits not_auth_changed (emit _)) => apply emits_emit; discriminate || exact I : emits.
#[local] Hint Extern 1 (emits not_auth_changed (answer _ _ _ _ _)) => apply emits_emit; discriminate : emits.

Lemma quiet_drop n u r e ch : emits not_auth_changed (BrokerChannels.after_producer_drop n u r e ch).
Proof.
  unfold BrokerChannels.after_producer_drop, BrokerChannels.close_channel_access, send_closing_notify,
    send_to_identity, drain_pending_attach_queue_for_producer_denied_,
    drain_pending_attach_queue_for_channel_denied_. emits_walk.
Qed.
#[local] Hint Resolve quiet_drop : emits.

Lemma quiet_dereg req : emits not_auth_changed (BrokerChannels.handle_dereg_req req).
Proof. unfold BrokerChannels.handle_dereg_req, BrokerChannels.deregister_producer. emits_walk. Qed.
Lemma quiet_reclaim t : emits not_auth_changed (BrokerSweep.reclaim_producer t).
Proof. unfold BrokerSweep.reclaim_producer. emits_walk. Qed.

(** A producer that leaves a channel keeps its admission: whether it
    deregisters or is reclaimed after a timeout, every channel that survives
    has the allowlist it had at the version it had, the key of a departed
    fan-in producer included, and nobody is told that the channel's peers changed. *)
Theorem departed_producer_keeps_its_key env b :
  (∀ req, let m := BrokerChannels.handle_dereg_req req in
     allowlists (hub (exec m env b)) ⊆ allowlists (hub b) ∧ Forall not_auth_changed (outputs m env b)) ∧
  (∀ t, let m := BrokerSweep.reclaim_producer t in
     allowlists (hub (exec m env b)) ⊆ allowlists (hub b) ∧ Forall not_auth_changed (outputs m env b)).
Proof.
  split; intros x m; subst m; split.
  - apply (untouched_dereg (allowlists (hub b)) x env b). by unfold untouched.
  - apply quiet_dereg.
  - apply (untouched_reclaim (allowlists (hub b)) x env b). by unfold untouched.
  - apply quiet_reclaim.
Qed.

(** ** Consumers *)

Lemma each_send t body l env b :
  each (λ i, if str_empty i then mret tt else send_to_identity i t body) l env b =
    (inr tt, b, (λ i, Send i t body) <$> nonempty_uids l).
Proof.
  induction l as [|i l IH]; [done|]. cbn [each]. rewrite B_run_bind. unfold nonempty_uids. rewrite filter_cons.
  destruct (str_empty i) eqn:Hi; [apply str_empty_true in Hi|apply str_empty_false in Hi]; case_decide; try done;
    cbn; unfold result, exec, outputs; by rewrite IH.
Qed.

(** A read of the request by the handler. *)
Lemma value_str_run k req env b s :
  result (value_str k req) env b = inr s → value_str k req env b = (inr s, b, []).
Proof.
  pose proof (value_str_exec k req env b). pose proof (value_str_outputs k req env b).
  unfold result, exec, outputs in *. destruct (value_str k req env b) as [[r b1] o1]. cbn in *. by intros ->; subst.
Qed.

Lemma value_u64_run k req env b z :
  result (value_u64 k req) env b = inr z → value_u64 k req env b = (inr z, b, []).
Proof. unfold value_u64, result. repeat case_match; cbn; by intros [= ->]. Qed.

(** The message that tells the binding side of a change. *)
Definition auth_changed (n phase u rt : string) (h : HubImpl) : json :=
  obj [("channel_name", JStr n);
       ("channel_version", JInt (match channel_access n h with
                                 | Some a => Ledger.current_version (ledger a) | None => 0 end));
       ("role_uid", JStr u); ("role_type", JStr rt); ("phase", JStr phase)].

Lemma notify_run n phase u rt env b ch :
  channel n (hub b) = Some ch →
  fire_channel_auth_changed_notify n phase u rt env b =
    (inr tt, b, (λ i, Send i "CHANNEL_AUTH_CHANGED_NOTIFY" (auth_changed n phase u rt (hub b))) <$>
                  nonempty_uids (binding_identities ch)).
Proof.
  intros Hc. unfold fire_channel_auth_changed_notify. erewrite B_read by done. cbv beta. rewrite Hc.
  erewrite B_read by done. apply each_send.
Qed.

Definition revoked (n key : string) (h : HubImpl) : HubImpl :=
  h <| channel_access_index ::= alter (λ a, a <| ledger ::= λ l, (Ledger.revoke key l).2 |>) n |>.

Lemma revoked_key n key h a :
  channel_access_index (revoked n key h) !! n = Some a → Ledger.admission_version_of key (ledger a) = None.
Proof.
  unfold revoked. cbn. rewrite lookup_alter_eq. destruct (channel_access_index h !! n) as [a0|]; [|done].
  intros [= <-]. cbn. unfold Ledger.revoke, Ledger.admission_version_of.
  destruct (Ledger.admission_version_ (ledger a0) !! key) eqn:Hk; cbn; [apply lookup_delete_eq|done].
Qed.

Lemma revoke_run n c env b ch :
  valid_channel n = true → String.length (c_zmq_pubkey c) = 40%nat → channel n (hub b) = Some ch →
  let h := revoked n (c_zmq_pubkey c) (hub b) in
  BrokerChannels.revoke_consumer n c env b =
    (inr tt, enter h b,
     (λ i, Send i "CHANNEL_AUTH_CHANGED_NOTIFY" (auth_changed n "left" (c_role_uid c) "consumer" h)) <$>
       nonempty_uids (binding_identities ch)).
Proof.
  intros Hv Hk Hc h. unfold BrokerChannels.revoke_consumer. rewrite bool_decide_true by done.
  rewrite B_run_bind. unfold result, exec, outputs. rewrite lift_run. cbn [fst snd].
  assert (Hne : str_empty (c_zmq_pubkey c) = false) by (by destruct (c_zmq_pubkey c)).
  unfold _on_consumer_revoked. rewrite Hv, Hne. cbn [negb orb].
  change (HubCore.exec (modify _) env (hub b)) with h.
  by rewrite (notify_run _ _ _ _ _ _ ch).
Qed.

Lemma answered_run (m : H json) env b r b' o :
  (m : B _) env b = (inr (inr r), b', o) → answered m env b = (inr r, b', o).
Proof.
  intros Hm. unfold answered. rewrite B_run_bind. unfold result, exec, outputs. rewrite Hm. cbn. by rewrite app_nil_r.
Qed.

(** C30 A consumer that leaves a channel is shut out: its request is answered
    with success, it is off the channel, its key is off the channel's
    allowlist, and every binding-side party with an identity is told that it
    left. *)
Theorem departed_consumer_is_shut_out req corr n pid u ch c env b :
  let m := BrokerChannels.handle_consumer_dereg_req req in
  let read k := result (value_str k req) env b in
  read "correlation_id" = inr corr → read "channel_name" = inr n → read "role_uid" = inr u →
  result (value_u64 "consumer_pid" req) env b = inr pid →
  valid_channel n = true → valid_role_uid u = true → channel n (hub b) = Some ch →
  BrokerChannels.registered_consumer pid u ch = Some c → String.length (c_zmq_pubkey c) = 40%nat →
  let ch' := ch <| consumers ::= filter (λ c, c_role_uid c ≠ u) |> in
  let h' := hub (exec m env b) in
  result m env b = inr (BrokerChannels.status_ack corr "Consumer deregistered successfully") ∧
  channel n h' = Some ch' ∧
  (∀ a, channel_access_index h' !! n = Some a → Ledger.admission_version_of (c_zmq_pubkey c) (ledger a) = None) ∧
  (∀ i, i ∈ binding_identities ch' → i ≠ "" →
     Send i "CHANNEL_AUTH_CHANGED_NOTIFY" (auth_changed n "left" u "consumer" h') ∈ outputs m env b).
Proof.
  intros m read Hcorr Hn Hu Hpid Hv Hru Hch Hreg Hkey ch' h'.
  assert (c_role_uid c = u ∧ c ∈ consumers ch) as [Hcu Hcin].
  { unfold BrokerChannels.registered_consumer in Hreg. apply find_some in Hreg as [Hin Hb].
    apply andb_true_iff in Hb as [_ Hb%bool_decide_eq_true]. split; [done|by apply list_elem_of_In]. }
  assert (Huin : u ∈ c_role_uid <$> consumers ch) by (apply list_elem_of_fmap; by exists c).
  destruct (consumer_left_state n u env (hub b) ch Hv Hru Hch Huin) as [Hleft Hacc].
  set (b1 := enter (HubCore.exec (_on_consumer_left n u) env (hub b)) b).
  assert (Hch1 : channel n (hub b1) = Some ch') by (unfold channel; cbn; by rewrite Hleft, lookup_insert_eq).
  set (h2 := revoked n (c_zmq_pubkey c) (hub b1)).
  pose proof (revoke_run n c env b1 ch' Hv Hkey Hch1) as Hrev. cbv zeta in Hrev. fold h2 in Hrev.
  assert (∃ o, m env b = (inr (BrokerChannels.status_ack corr "Consumer deregistered successfully"), enter h2 b1,
      o ++ ((λ i, Send i "CHANNEL_AUTH_CHANGED_NOTIFY" (auth_changed n "left" u "consumer" h2)) <$>
        nonempty_uids (binding_identities ch')))) as [o Hm].
  { eexists. subst m. unfold BrokerChannels.handle_consumer_dereg_req.
    rewrite <- Hcu. apply answered_run.
    erewrite H_read by (by apply value_str_run). erewrite H_read by (by apply value_str_run).
    rewrite (proj2 (str_empty_false n) (valid_channel_nonempty n Hv)), H_pass. erewrite H_read by (by apply value_u64_run).
    erewrite H_read by (by apply value_str_run). erewrite H_read by done. cbv beta.
    rewrite Hch. cbn [mbind option_bind]. rewrite Hreg, Hcu.
    erewrite H_do by apply lift_run. fold b1. 
    unfold result, exec, outputs. erewrite H_do by exact Hrev.
    cbn. by rewrite app_nil_r, Hcu. }
  subst h'. unfold result, exec, outputs. rewrite Hm. cbn. split_and!; [done|exact Hch1| |].
  - intros a. exact (revoked_key n _ (hub b1) a).
  - intros i Hi Hne. apply elem_of_app. right. apply list_elem_of_fmap. exists i. split; [done|].
    by apply elem_of_nonempty_uids.
Qed.
End departures.
End BrokerDepartures.
