(* ===== verification/BrokerFifo.v ===== *)
(** * The deferred attach queue is in the order of the versions it waits for

    Every queue is sorted by the ledger version its entries wait for, and no
    entry waits for a version the channel's ledger has not reached.  So a
    confirmation, which only looks at the front, answers every waiter it
    covers.  The ledger's version counts in 64 bits; all of this holds until
    one of them runs out. *)

From Stdlib Require Import Sorting.Sorted.
From S2P Require Import Prelude.
From S2P Require Import Json.
From S2P Require Import Ledger.
From S2P Require Import Entries.
From S2P Require Import HubCore.
From S2P Require Import SchemaRegistry.
From S2P Require Import HubOps.
From S2P Require Import EntryFacts.
From S2P Require Import HubInv.
From S2P Require Import HubPreserve.
From S2P Require Import HubProps.
From S2P Require Import AdmissionGates.
From S2P Require Import WireDispatch.
From S2P Require Import DispatchProps.
From S2P Require Import Broker.
From S2P Require Import BrokerLogic.
From S2P Require Import BrokerReg.
From S2P Require Import BrokerChannels.
From S2P Require Import BrokerAttach.
From S2P Require Import BrokerSweep.
From S2P Require Import BrokerDispatch.
From S2P Require Import BrokerHub.
From S2P Require Import BrokerView.
From S2P Require Import BrokerInv.
From S2P Require Import BrokerReach.
From S2P Require Import BrokerDepartures.
Import Json Entries HubCore HubOps Broker BrokerLogic BrokerStable BrokerHub BrokerRoster BrokerView
  BrokerInv BrokerReach BrokerDepartures.

Module BrokerFifo.

Implicit Types (h : HubImpl) (b : BrokerState) (n u : string) (q : Queues)
  (l : list PendingAttachEntry).

(** ** Ledger versions grow *)

Definition version h n : option Z := fst <$> allowlists h !! n.

Definition grows h h' : Prop :=
  ∀ n v', version h' n = Some v' → ∃ v, version h n = Some v ∧ v ≤ v'.

Lemma version_access h n :
  version h n = (λ a, Ledger.current_version_ (ledger a)) <$> channel_access_index h !! n.
Proof. unfold version, allowlists. rewrite lookup_fmap. by destruct (_ !! n). Qed.

Lemma grows_same h h' : allowlists h' = allowlists h → grows h h'.
Proof. intros He n v'. unfold version. rewrite He. intros Hv. by exists v'. Qed.

Lemma grows_alter n f h :
  (∀ a, channel_access_index h !! n = Some a →
     Ledger.current_version_ (ledger a) ≤ Ledger.current_version_ (ledger (f a))) →
  grows h (h <| channel_access_index ::= alter f n |>).
Proof.
  intros Hf k v'. rewrite !version_access. cbn. destruct (decide (k = n)) as [->|Hk].
  - rewrite lookup_alter_eq. destruct (channel_access_index h !! n) as [a|]; [|done]. cbn.
    intros [= <-]. eexists. split; [done|]. by apply Hf.
  - rewrite lookup_alter_ne by done. intros Hv. by exists v'.
Qed.

Lemma succ_grows z : z < u64_max → 0 ≤ z → z ≤ u64_succ z.
Proof. intros. unfold u64_succ. rewrite u64_id; lia. Qed.

(** Every operation of [quiet] leaves the allowlists alone, but for the two
    that change one, each by at most one version. *)
Lemma spares_remove_consumer n u : spares (_remove_consumer n u).
Proof. unfold _remove_consumer. spares_walk. Qed.
Lemma spares_consumer_left n u : spares (_on_consumer_left n u).
Proof. pose proof (spares_remove_consumer n u). unfold _on_consumer_left. spares_walk. Qed.
Lemma spares_consumer_timeout n u : spares (_on_pending_timeout n u "consumer").
Proof.
  unfold _on_pending_timeout, pending_timeout_consumer.
  change (str_empty "consumer") with false. rewrite str_eqb_refl. cbv iota. spares_walk.
Qed.
Lemma spares_data_endpoint n e : spares (_set_channel_data_endpoint n e).
Proof. unfold _set_channel_data_endpoint. spares_walk. Qed.
Lemma spares_producer_endpoint n u e : spares (_set_producer_zmq_node_endpoint n u e).
Proof. unfold _set_producer_zmq_node_endpoint. spares_walk. Qed.
Lemma spares_confirmed n u v : spares (_on_role_confirmed n u v).
Proof.
  unfold _on_role_confirmed. case_match; [spares_walk|]. intros e h. run.
  destruct (channel_access_index h !! n) as [a|] eqn:Ha; [|done].
  destruct (Ledger.confirm u v (ledger a)) as [v' l'] eqn:Hl. run. unfold allowlists. cbn.
  rewrite fmap_insert. apply insert_id. rewrite lookup_fmap, Ha. cbn.
  unfold Ledger.confirm in Hl. by injection Hl as <- <-.
Qed.

Lemma grows_quiet `{External, Config} {A} (m : M A) e h :
  quiet m → (∀ n, HubPreserve.headroom n h) → (∀ n v, version h n = Some v → 0 ≤ v) → grows h (HubCore.exec m e h).
Proof.
  intros Hq Hroom Hpos.
  assert (Hled : ∀ n a, channel_access_index h !! n = Some a →
    Ledger.current_version_ (ledger a) ≤ u64_succ (Ledger.current_version_ (ledger a))).
  { intros n a Ha. apply succ_grows; [by apply (Hroom n)|]. apply (Hpos n). by rewrite version_access, Ha. }
  destruct Hq; try (apply grows_same;
    first [apply spares_confirmed|apply spares_consumer_left|apply spares_consumer_timeout
          |apply spares_data_endpoint|apply spares_producer_endpoint
          |apply spares_idle;
           first [apply idle_snapshot|apply idle_heartbeat|apply idle_heartbeat_timeout|apply idle_band_joined
                 |apply idle_band_left|apply idle_peer_up|apply idle_peer_down|apply idle_schema
                 |apply idle_citation|apply idle_processed|apply idle_bump_error|apply idle_bump
                 |apply idle_console]]).
  - unfold _on_consumer_authorized. case_match; [by apply grows_same|]. apply grows_alter.
    intros a Ha. cbn. unfold Ledger.admit_. case_match; [done|]. by apply (Hled n).
  - unfold _on_consumer_revoked. case_match; [by apply grows_same|]. apply grows_alter.
    intros a Ha. cbn. unfold Ledger.revoke. case_match; [|done]. by apply (Hled n).
  - apply grows_same.
    destruct (DispatchProps.guarded_receive blake2b parse known_roles raw e h) as [->|(u & n & w & t & ->)];
      [done|]. apply (spares_idle _ (idle_nonce u n w t)).
Qed.

(** ** Queues in order *)

(** The queue is sorted by version and waits for none beyond [v]. *)
Definition sorted (v : option Z) l : Prop :=
  StronglySorted (λ e e', target_version e ≤ target_version e') l ∧
  ∀ w, v = Some w → Forall (λ e, target_version e ≤ w) l.

Definition ordered h q : Prop := map_Forall (λ n m, map_Forall (λ u l, sorted (version h n) l) m) q.

Lemma ordered_grows h h' q : grows h h' → ordered h q → ordered h' q.
Proof.
  intros Hg Ho n m Hn u l Hu. destruct (Ho n m Hn u l Hu) as [Hs Hb]. split; [done|].
  intros w (v & Hv & Hle)%Hg. eapply Forall_impl; [by apply Hb|]. cbn. lia.
Qed.

Lemma sorted_nil v : sorted v [].
Proof. split; constructor. Qed.

(** What is left when the front is popped. *)
Lemma pop_while_app {A} (P : A → bool) (l : list A) : l = (pop_while P l).1 ++ (pop_while P l).2.
Proof.
  induction l as [|x l IH]; [done|]. cbn. destruct (P x); [|done].
  destruct (pop_while P l) as [a r]. cbn in *. by f_equal.
Qed.

Lemma sorted_app v l1 l2 : sorted v (l1 ++ l2) → sorted v l2.
Proof.
  intros [Hs Hb]. split.
  - clear Hb. induction l1 as [|x l1 IH]; [done|]. apply IH. by inv Hs.
  - intros w Hw. by apply Hb, Forall_app in Hw as [_ ?].
Qed.

Lemma sorted_pop v P l : sorted v l → sorted v (pop_while P l).2.
Proof. rewrite (pop_while_app P l) at 1. apply sorted_app. Qed.

Lemma sorted_snoc v l e : sorted (Some v) l → target_version e = v → sorted (Some v) (l ++ [e]).
Proof.
  intros [Hs Hb] He. specialize (Hb v eq_refl). split.
  - induction l as [|x l IH]; [repeat constructor|]. inv Hs. inv Hb. constructor; [by apply IH|].
    apply Forall_app. split; [done|]. constructor; [lia|constructor].
  - intros w [= <-]. apply Forall_app. split; [done|]. constructor; [lia|constructor].
Qed.

(** On a sorted queue the front with a small target is all of it. *)
Lemma pop_sorted v w l : sorted v l →
  pop_while (λ e, target_version e <=? w) l =
    (filter (λ e, target_version e ≤ w) l, filter (λ e, ¬ target_version e ≤ w) l).
Proof.
  intros [Hs _]. induction l as [|x l IH]; [done|]. inv Hs. cbn [pop_while].
  rewrite !filter_cons. destruct (Z.leb_spec (target_version x) w).
  - rewrite IH by done. rewrite decide_True by done. by rewrite (decide_False (P := ¬ _)) by tauto.
  - rewrite decide_False by lia. rewrite (decide_True (P := ¬ _)) by lia.
    assert (Hgt : Forall (λ e, ¬ target_version e ≤ w) l) by (eapply Forall_impl; [done|cbn; lia]).
    assert (filter (λ e, target_version e ≤ w) l = []) as ->.
    { clear -Hgt. induction Hgt; [done|]. by rewrite filter_cons, decide_False. }
    f_equal. f_equal. clear -Hgt. induction Hgt; [done|]. rewrite filter_cons, decide_True by done. by f_equal.
Qed.

(** ** The invariant *)

Section fifo.
Context `{External, Config}.

Definition S b : Prop :=
  driven b ∧ (worn_out b ∨ ordered (hub b) (pending_attach_queue_ b)).

Lemma driven_room b : driven b →
  worn_out b ∨ (∀ n, HubPreserve.headroom n (hub b)) ∧ (∀ n v, version (hub b) n = Some v → 0 ≤ v).
Proof.
  intros [[past Hp] _ [?|Hi]]; [by left|]. rewrite Hp in Hi. inv Hi as [|? ? HI].
  destruct (decide (exhausted (hub b))) as [He|He]; [left; unfold worn_out; rewrite Hp; by constructor|right].
  split; [intros n; by apply room|]. intros n v.
  rewrite version_access. destruct (channel_access_index (hub b) !! n) as [a|] eqn:Ha; [|done]. intros [= <-].
  destruct (HubInv.inv_access _ HI n a Ha) as [_ Hwf]. apply Ledger.wf_current, Hwf.
Qed.

Lemma S_grows b h' : driven (enter h' b) → (worn_out b ∨ grows (hub b) h') → S b → S (enter h' b).
Proof.
  intros Hd Hg [_ Hs]. split; [done|].
  destruct Hg as [Ho|Hg]; [left; by apply worn_out_enter|]. destruct Hs as [?|Hs]; [left; by apply worn_out_enter|].
  right. by eapply ordered_grows.
Qed.

Lemma S_lift {A} (m : M A) :
  keeps driven (lift m) → (∀ e b, driven b → worn_out b ∨ grows (hub b) (HubCore.exec m e (hub b))) →
  keeps S (lift m).
Proof.
  intros Hd Hg env b HS. specialize (Hd env b (proj1 HS)). unfold exec in *. rewrite lift_run in *. cbn in *.
  apply S_grows; [done|by apply Hg, HS|done].
Qed.

Lemma S_quiet {A} (m : M A) : quiet m → keeps S (lift m).
Proof.
  intros Hq. apply S_lift; [by apply keeps_quiet|]. intros e b [?|[Hroom Hpos]]%driven_room; [by left|right].
  by apply grows_quiet.
Qed.

Lemma S_spares {A} (m : M A) : keeps driven (lift m) → spares m → keeps S (lift m).
Proof. intros Hd Hm. apply S_lift; [done|]. intros e b _. right. by apply grows_same. Qed.

Lemma S_access_closed n : keeps S (lift (_on_channel_access_closed n)).
Proof.
  apply S_lift; [apply keeps_access_closed|]. intros e b _. right. unfold _on_channel_access_closed.
  case_match; [by apply grows_same|]. intros k v'. rewrite !version_access. cbn.
  destruct (decide (k = n)) as [->|Hk]; [by rewrite lookup_delete_eq|].
  rewrite lookup_delete_ne by done. intros Hv. by exists v'.
Qed.

(** ** Queue changes *)

Lemma ordered_delete h n q : ordered h q → ordered h (delete n q).
Proof. intros Ho. by apply map_Forall_delete. Qed.

Lemma ordered_store h n u l m q :
  ordered h q → q !! n = Some m → sorted (version h n) l → ordered h (store_queue n u l m q).
Proof.
  intros Ho Hn Hl. unfold store_queue. case_bool_decide; [by apply ordered_delete|].
  apply map_Forall_insert_2; [|done]. pose proof (Ho n m Hn) as Hm.
  destruct l; [by apply map_Forall_delete|by apply map_Forall_insert_2].
Qed.

(** A drain puts back what it found, without some fronts. *)
Lemma S_set_queue (P : BrokerState → Prop) q :
  (∀ b, P b → S b ∧ (ordered (hub b) (pending_attach_queue_ b) → ordered (hub b) q)) →
  hoare S P (set_queues q) (λ _, S).
Proof.
  intros HP env b Hb. destruct (HP b Hb) as [[Hd Hs] Hq]. split; [by apply (driven_same b)|].
  destruct Hs as [?|Hs]; [by left|right; by apply Hq].
Qed.

(** The shape of every drain: read the queues, answer, write them back. *)
Lemma S_read_queues {A} (f : Queues → B A) :
  (∀ q, hoare S (λ b, S b ∧ pending_attach_queue_ b = q) (f q) (λ _, S)) →
  keeps S (queues ≫= f).
Proof. intros Hf. apply keeps_hoare. eapply hoare_bind; [apply hoare_queues|exact Hf]. Qed.

Lemma S_answer_store {A} n u l m q (answers : B unit) (r : A) :
  q !! n = Some m → silent answers → (∀ v, sorted v (default [] (m !! u)) → sorted v l) →
  hoare S (λ b, S b ∧ pending_attach_queue_ b = q)
    (_ ← answers; _ ← set_queues (store_queue n u l m q); mret r) (λ _, S).
Proof.
  intros Hn Ha Hl. apply hoare_then; [done|]. intros _.
  eapply (hoare_bind _ _ (λ _, S)); [|intros ?; by apply hoare_ret].
  apply S_set_queue. intros b [HS <-]. split; [done|]. intros Ho. apply ordered_store; [done..|].
  apply Hl. destruct (m !! u) as [l0|] eqn:Hu; [exact (Ho n m Hn u l0 Hu)|apply sorted_nil].
Qed.

Lemma S_confirmed n u v : keeps S (drain_pending_attach_queue_for_producer_confirmed_ n u v).
Proof.
  unfold drain_pending_attach_queue_for_producer_confirmed_. apply S_read_queues. intros q.
  destruct (q !! n) as [m|] eqn:Hn; [|by apply hoare_ret; intros b []].
  destruct (m !! u) as [l|] eqn:Hu; [|by apply hoare_ret; intros b []].
  pose proof (λ w, sorted_pop w (λ e, target_version e <=? v) l) as Hp.
  destruct (pop_while _ l) as [drained rest]. apply S_answer_store; [done|apply silent_answers|].
  by rewrite Hu.
Qed.

Lemma S_producer_denied n u r : keeps S (drain_pending_attach_queue_for_producer_denied_ n u r).
Proof.
  unfold drain_pending_attach_queue_for_producer_denied_. apply S_read_queues. intros q.
  destruct (q !! n) as [m|] eqn:Hn; [|by apply hoare_ret; intros b []].
  destruct (m !! u) as [l|] eqn:Hu; [|by apply hoare_ret; intros b []].
  apply S_answer_store; [done|apply silent_answers|]. intros w _. apply sorted_nil.
Qed.

Lemma S_channel_denied n r : keeps S (drain_pending_attach_queue_for_channel_denied_ n r).
Proof.
  unfold drain_pending_attach_queue_for_channel_denied_. apply S_read_queues. intros q.
  destruct (q !! n) as [m|] eqn:Hn; [|by apply hoare_ret; intros b []].
  apply hoare_then; [apply silent_each; intros kv; apply silent_answers|]. intros _.
  eapply (hoare_bind _ _ (λ _, S)); [|intros ?; by apply hoare_ret].
  apply S_set_queue. intros b [HS <-]. split; [done|]. apply ordered_delete.
Qed.

#[local] Hint Resolve S_producer_denied S_channel_denied S_confirmed S_access_closed : keeps.
#[local] Hint Extern 1 (keeps S (lift (_on_producer_dropped _ _ _))) =>
  apply S_spares; [apply keeps_producer_dropped|apply spares_dropped] : keeps.
#[local] Hint Extern 1 (keeps S (lift (_on_pending_timeout _ _ _))) =>
  apply S_spares; [apply keeps_producer_timeout|apply spares_timeout] : keeps.
#[local] Hint Extern 1 (keeps S (lift (_on_channel_closed _ _))) =>
  apply S_spares; [apply keeps_closed|apply spares_closed] : keeps.

Lemma S_drop n u r e ch : keeps S (BrokerChannels.after_producer_drop n u r e ch).
Proof.
  unfold BrokerChannels.after_producer_drop, BrokerChannels.close_channel_access, send_closing_notify,
    send_to_identity. walk.
Qed.
#[local] Hint Resolve S_drop : keeps.

Lemma S_deregister c n u ch : keeps S (BrokerChannels.deregister_producer c n u ch : B _).
Proof. unfold BrokerChannels.deregister_producer. walk. Qed.
Lemma S_reclaim t : keeps S (BrokerSweep.reclaim_producer t).
Proof. unfold BrokerSweep.reclaim_producer. walk. Qed.
Lemma S_close_channel n why ch : keeps S (BrokerSweep.close_channel n why ch).
Proof.
  unfold BrokerSweep.close_channel, BrokerChannels.close_channel_access, send_closing_notify,
    send_to_identity. walk.
Qed.

(** ** The timeout sweep *)

Lemma sweep_producers_sorted P now d n ps v :
  (∀ kv, kv ∈ ps → sorted v kv.2) →
  hoare S P (sweep_producers now d n ps) (λ m b, P b ∧ map_Forall (λ _ l, sorted v l) m).
Proof.
  induction ps as [|[u qu] ps IH]; intros Hl; cbn [sweep_producers].
  - apply hoare_ret. intros b HP. split; [done|]. apply map_Forall_empty.
  - eapply (hoare_bind _ _ (λ qu' b, P b ∧ sorted v qu')).
    { unfold sweep_queue. pose proof (sorted_pop v (λ e, d <? now - enqueued_at e) qu) as Hp.
      destruct (pop_while _ qu) as [drained rest]. apply hoare_then; [apply silent_answers|]. intros _.
      apply hoare_ret. intros b HP. split; [done|]. apply Hp, (Hl (u, qu)). set_solver. }
    intros qu'. eapply (hoare_bind _ _ (λ m b, (P b ∧ sorted v qu') ∧ map_Forall (λ _ l, sorted v l) m)).
    { intros env b [HP Hs]. pose proof (IH ltac:(intros kv Hkv; apply Hl; set_solver) env b HP) as Hr.
      revert Hr. destruct (result _ env b); [done|]. naive_solver. }
    intros m. apply hoare_ret. intros b [[HP Hs] Hm]. split; [done|].
    destruct qu'; [done|]. by apply map_Forall_insert_2.
Qed.

Lemma sweep_channels_ordered P now d h chs :
  (∀ kv, kv ∈ chs → map_Forall (λ _ l, sorted (version h kv.1) l) kv.2) →
  hoare S P (sweep_channels now d chs) (λ q b, P b ∧ ordered h q).
Proof.
  revert P. induction chs as [|[n m] chs IH]; intros P Hl; cbn [sweep_channels].
  - apply hoare_ret. intros b HP. split; [done|]. apply map_Forall_empty.
  - eapply hoare_bind; [apply (sweep_producers_sorted P _ _ _ _ (version h n))|].
    { intros [u qu] Hu%elem_of_map_to_list. by apply (Hl (n, m) ltac:(set_solver) u). }
    intros m'. eapply hoare_bind; [apply IH; intros kv Hkv; apply Hl; set_solver|]. intros q.
    apply hoare_ret. intros b [[HP Hm] Hq]. split; [done|]. case_bool_decide; [done|].
    by apply map_Forall_insert_2.
Qed.

(** Once a version has run out nothing is claimed of the queues. *)
Lemma sweep_worn now d q env b : driven b → worn_out b →
  let m := q' ← sweep_channels now d (map_to_list q); _ ← set_queues q';
           mret (queue_length q - queue_length q')%nat in
  driven (exec m env b) ∧ worn_out (exec m env b).
Proof.
  intros Hd Hw m. enough (Hk : keeps (λ b, driven b ∧ worn_out b) m) by (by apply Hk).
  assert (Hset : ∀ q', keeps (λ b, driven b ∧ worn_out b) (set_queues q')).
  { intros q' env' b' [Hd' Hw']. split; [by apply (driven_same b')|done]. }
  assert (Hsp : ∀ n ps, keeps (λ b, driven b ∧ worn_out b) (sweep_producers now d n ps)).
  { intros n ps. induction ps as [|[u qu] ps IH]; cbn [sweep_producers];
      unfold sweep_queue, answer, send_to_identity; walk. }
  assert (Hsc : ∀ chs, keeps (λ b, driven b ∧ worn_out b) (sweep_channels now d chs)).
  { intros chs. induction chs as [|[u qu] chs IH]; cbn [sweep_channels]; walk. }
  subst m. walk.
Qed.

Lemma S_sweep now d : keeps S (sweep_pending_attach_timeouts_ now d).
Proof.
  apply keeps_hoare. unfold sweep_pending_attach_timeouts_.
  eapply hoare_bind; [apply hoare_queues|]. intros q env b [HS Hq].
  destruct HS as [Hd [Ho|Ho]].
  { pose proof (sweep_worn now d q env b Hd Ho) as HW. unfold S.
    destruct (result _ env b); (split; [apply HW|left; apply HW]). }
  refine (hoare_bind S (λ b', b' = b) (λ q' b', b' = b ∧ ordered (hub b) q') (λ _, S)
            _ _ (sweep_channels_ordered _ _ _ (hub b) _ _) _ env b eq_refl).
  - intros [n m] Hn%elem_of_map_to_list. subst q. by apply (Ho n m).
  - intros q'. eapply (hoare_bind _ _ (λ _, S)); [|intros ?; by apply hoare_ret].
    intros env' ? [-> Hq']. split; [by apply (driven_same b)|by right].
Qed.

(** ** A channel that opens has no waiters *)

Definition JS b : Prop := J b ∧ S b.

Lemma opened_unqueued b n : J b → roster (hub b) !! n = None → pending_attach_queue_ b !! n = None.
Proof.
  intros HJ Hr. destruct (pending_attach_queue_ b !! n) as [m|] eqn:Hn; [|done].
  destruct (waiters _ _ _ HJ n m Hn) as [Hne Hm]. apply map_choose in Hne as (u & l & Hu).
  destruct (Hm u l Hu) as [_ (us & Hus & _)]. congruence.
Qed.

(** The state between the opening of a channel and of its access record. *)
Definition unqueued n b : Prop := S b ∧ pending_attach_queue_ b !! n = None.

Lemma hoare_opened {A} (m : M A) (opened : A → bool) n :
  keeps driven (lift m) → spares m →
  (∀ e h, opened (HubCore.result m e h) = true → roster h !! n = None) →
  hoare S JS (lift m) (λ a b, if opened a then unqueued n b else S b).
Proof.
  intros Hd Hm Ho env b [HJ HS]. pose proof (S_spares m Hd Hm env b HS) as HS'.
  unfold result, exec in *. rewrite lift_run in *. cbn in *.
  destruct (opened (HubCore.result m env (hub b))) eqn:Hop; [|done].
  split; [done|]. cbn. apply opened_unqueued; [done|]. by eapply Ho.
Qed.

Lemma S_open_access n : hoare S (unqueued n) (lift (_on_channel_access_opened n)) (λ _, S).
Proof.
  intros env b [[Hd Hs] Hn]. pose proof (keeps_access_opened n env b Hd) as Hd'.
  unfold result, exec in *. rewrite lift_run in *. cbn in *. split; [done|].
  destruct Hs as [?|Ho]; [left; by apply worn_out_enter|right]. cbn. intros k m Hk u l Hu.
  assert (k ≠ n) as Hne by congruence. destruct (Ho k m Hk u l Hu) as [? Hb]. split; [done|].
  intros w Hw. apply Hb. revert Hw. rewrite !version_access. unfold _on_channel_access_opened.
  case_match; [done|]. run. destruct (channel_access_index (hub b) !! n); run; [done|].
  cbn. by rewrite lookup_insert_ne.
Qed.

Lemma S_settle n (refusal : option json) (opened : bool) :
  hoare S (λ b, if opened then unqueued n b else S b)
    (match refusal return H unit with
     | Some err => reply err
     | None => if opened then go (lift (_on_channel_access_opened n)) else mret tt
     end) (λ _, S).
Proof.
  destruct refusal; [apply hoare_ret; intros b; by destruct opened; [intros [? _]|]|].
  destruct opened; [|by apply hoare_ret]. apply hoare_go, S_open_access.
Qed.

Lemma JS_J b : JS b → J b.
Proof. by intros []. Qed.

(** Reading the request keeps both. *)
Lemma hoare_JS {A} (m : B A) : keeps J m → keeps S m → hoare S JS m (λ _, JS).
Proof.
  intros Hj Hs env b [HJ HS]. specialize (Hj env b HJ). specialize (Hs env b HS). by destruct (result m env b).
Qed.

Lemma spares_producer_added n s t d p : spares (_on_producer_added n s t d p).
Proof.
  unfold _on_producer_added, admit_producer_locked, _open_channel_locked, _set_shm_block. spares_walk.
Qed.
Lemma spares_consumer_joined n c d os ot : spares (_on_consumer_joined n c d os ot).
Proof. unfold _on_consumer_joined, _add_consumer, _open_channel_locked. spares_walk. Qed.

Lemma S_admit_producer c n t s bl fin p req :
  hoare S JS (BrokerReg.admit_producer c n t s bl fin p req : B _) (λ _, S).
Proof.
  unfold BrokerReg.admit_producer.
  eapply hoare_H_bind; [apply hoare_JS; walk|by intros ?? []|]. intros fz. cbv zeta.
  eapply hoare_H_bind; [apply hoare_JS; unfold BrokerReg.read_topology; walk|by intros ?? []|]. intros topo.
  eapply (hoare_H_bind _ _ (λ r b, match r with inl _ => S b | inr a =>
            if pr_channel_opened a then unqueued n b else S b end)); [apply hoare_go|done|].
  { apply hoare_opened; [apply keeps_producer_added|apply spares_producer_added|]. intros e h Ho.
    destruct (producer_added_view n (mkSchemaInvariants s fin.1 bl fin.2 fz) (mkTransportInvariants t) topo p e h)
      as [[_ Hf]|(us & (_ & _ & Hj) & _)]; [congruence|]. by rewrite Ho in Hj. }
  intros a. apply S_settle.
Qed.

Lemma S_admit_consumer c n qt w d x ent req :
  hoare S JS (BrokerConsumerReg.admit_consumer c n qt w d x ent req : B _) (λ _, S).
Proof.
  unfold BrokerConsumerReg.admit_consumer.
  eapply hoare_H_bind; [apply hoare_JS; unfold BrokerConsumerReg.open_invariants; walk|by intros ?? []|].
  intros inv.
  eapply (hoare_H_bind _ _ (λ r b, match r with inl _ => S b | inr a =>
            if cr_channel_opened a then unqueued n b else S b end)); [apply hoare_go|done|].
  { apply hoare_opened; [apply keeps_consumer_joined|apply spares_consumer_joined|]. intros e h Ho.
    match type of Ho with cr_channel_opened (HubCore.result (_on_consumer_joined _ ?c ?d ?os ?ot) _ _) = _ =>
      destruct (consumer_joined_view n c d os ot e h) as [[_ Hf]|(us & (_ & _ & Hj) & _)] end;
      [congruence|]. by rewrite Ho in Hj. }
  intros a. apply S_settle.
Qed.

(** ** An attach request waits for the version the ledger is at *)

Lemma ordered_enqueue h n u e q :
  ordered h q → version h n = Some (target_version e) → ordered h (BrokerAttach.enqueue n u e q).
Proof.
  intros Ho Hv. unfold BrokerAttach.enqueue. apply map_Forall_insert_2; [|done].
  assert (Hm : map_Forall (λ _ l, sorted (version h n) l) (default ∅ (q !! n))).
  { destruct (q !! n) as [m|] eqn:Hn; [by apply (Ho n m)|apply map_Forall_empty]. }
  apply map_Forall_insert_2; [|done]. rewrite Hv in Hm |- *. apply sorted_snoc; [|done].
  destruct (default ∅ (q !! n) !! u) as [l|] eqn:Hu; [by apply (Hm u)|apply sorted_nil].
Qed.

Lemma hoare_hubs_S {A} (P : BrokerState → Prop) (f : HubImpl → A) :
  hoare S P (hubs f) (λ a b, P b ∧ a = f (hub b)).
Proof. by intros env b HP. Qed.

Lemma S_attach req i : keeps S (BrokerAttach.handle_consumer_attach_req_zmq req i).
Proof.
  unfold BrokerAttach.handle_consumer_attach_req_zmq. apply keeps_answered.
  apply keeps_hoare. apply hoare_keeps_H_bind; [unfold BrokerAttach.read_attach_req; walk|done|]. intros r.
  apply hoare_keeps_H_bind; [unfold BrokerReg.log_peer_abi_fingerprint; walk|done|]. intros _.
  eapply (hoare_H_bind _ _ (λ c b, S b ∧ match c with inl _ => True | inr c =>
            c = channel_access_index (hub b) !! BrokerAttach.at_channel r end)).
  { apply hoare_go, hoare_hubs_S. } { by intros ?? []. }
  intros access. eapply (hoare_H_bind _ _ (λ _ b, S b ∧ access = channel_access_index (hub b) !! BrokerAttach.at_channel r)).
  { by intros env b HP. } { by intros ?? []. }
  intros ch. destruct access as [a|]; [|by apply hoare_ret; intros b []].
  destruct ch as [ch|]; [|by apply hoare_ret; intros b []].
  eapply (hoare_H_bind _ _ (λ _ b, S b ∧ Some a = channel_access_index (hub b) !! BrokerAttach.at_channel r)).
  { unfold guard_. case_match; by apply hoare_ret. } { by intros ?? []. }
  intros _. destruct (find _ _) as [p|]; [|by apply hoare_ret; intros b []]. cbv zeta.
  case_match; [by apply hoare_ret; intros b []|].
  eapply (hoare_H_bind _ _ (λ _, S)); [|done|intros ?; by apply hoare_ret].
  apply hoare_go. unfold BrokerAttach.wait_for_producer.
  eapply (hoare_bind _ _ (λ _ b, S b ∧ Some a = channel_access_index (hub b) !! BrokerAttach.at_channel r));
    [by intros env b HP|].
  intros e. eapply hoare_bind; [apply hoare_queues|]. intros q.
  eapply (hoare_bind _ _ (λ _, S)); [|intros ?; case_match; by apply hoare_silent; first [apply silent_ret|apply silent_emit]].
  apply S_set_queue. intros b [[HS Ha] <-]. split; [done|]. intros Ho. apply ordered_enqueue; [done|].
  rewrite version_access, <- Ha. done.
Qed.

#[export] Instance stable_JS : Stable JS.
Proof.
  assert (Hand : ∀ A (m : B A), keeps J m → hoare S JS m (λ _, S) → keeps JS m).
  { intros A m Hj Hs env b HJS. split; [by apply Hj, HJS|]. specialize (Hs env b HJS).
    by destruct (result m env b). }
  assert (Hk : ∀ A (m : B A), keeps J m → keeps S m → keeps JS m).
  { intros A m Hj Hs env b [HJ HS]. split; [by apply Hj|by apply Hs]. }
  constructor.
  - intros A m Hm. apply Hk; [by apply J_quiet|by apply S_quiet].
  - intros f Hh Hq Hs. apply Hk; [by apply stable_federation|]. apply keeps_modify. intros b [Hd Ho].
    split; [by apply (driven_same b)|]. unfold worn_out. by rewrite Hh, Hq, Hs.
  - intros. apply Hand; [apply keeps_admit_producer|apply S_admit_producer].
  - intros. apply Hand; [apply keeps_admit_consumer|apply S_admit_consumer].
  - intros. apply Hk; [apply keeps_deregister|apply S_deregister].
  - intros. apply Hk; [apply keeps_attach|apply S_attach].
  - intros. apply Hk; [apply keeps_confirmed|apply S_confirmed].
  - intros. apply Hk; [apply keeps_sweep|apply S_sweep].
  - intros. apply Hk; [apply keeps_reclaim|apply S_reclaim].
  - intros. apply Hk; [apply keeps_close_channel|apply S_close_channel].
Qed.
End fifo.

Section confirmation.
Context `{External, Config}.

Lemma reachable_ordered h0 b : fresh_hub h0 → reachable h0 b →
  worn_out b ∨ ordered (hub b) (pending_attach_queue_ b).
Proof.
  intros Hf Hr.
  assert (JS b) as [_ [_ Hs]]; [|done]. apply (reachable_stable JS h0); [|done].
  split; [by apply fresh_J|]. split; [by apply fresh_driven|]. right. apply map_Forall_empty.
Qed.

Lemma each_answer status reason n u l env b :
  each (answer status reason n u) l env b =
    (inr tt, b, (λ e, Send (router_identity e) "CONSUMER_ATTACH_ACK_ZMQ" (attach_reply status reason n u e)) <$> l).
Proof.
  induction l as [|e l IH]; [done|]. cbn [each]. rewrite B_run_bind. cbn.
  unfold result, exec, outputs. by rewrite IH.
Qed.

(** Who waits for a producer, and what the queue is then. *)
Definition waiters_for n u b : list PendingAttachEntry :=
  match pending_attach_queue_ b !! n with Some m => default [] (m !! u) | None => [] end.

Lemma store_queue_lookup n u l m q :
  match store_queue n u l m q !! n with Some m' => default [] (m' !! u) | None => [] end = l.
Proof.
  unfold store_queue. destruct l as [|e l]; case_bool_decide as Hm.
  - by rewrite lookup_delete_eq.
  - by rewrite lookup_insert_eq, lookup_delete_eq.
  - by apply insert_non_empty in Hm.
  - by rewrite lookup_insert_eq, lookup_insert_eq.
Qed.

(** C7 A confirmation answers every waiter it covers: in a reachable broker,
    when a producer confirms a version, the waiters for it on that channel whose
    awaited version is at most that get their success, in order and with
    nothing else sent, and exactly the others keep waiting: no waiter is stuck
    behind one that asks for more, as long as no ledger version ran out of its
    64 bits. *)
Theorem confirmation_answers_every_covered_waiter h0 b env n u v :
  fresh_hub h0 → reachable h0 b → ¬ worn_out b →
  let m := drain_pending_attach_queue_for_producer_confirmed_ n u v in
  let l := waiters_for n u b in
  result m env b = inr (length (filter (λ e, target_version e ≤ v) l)) ∧
  outputs m env b =
    (λ e, Send (router_identity e) "CONSUMER_ATTACH_ACK_ZMQ" (attach_reply "success" "" n u e)) <$>
      filter (λ e, target_version e ≤ v) l ∧
  waiters_for n u (exec m env b) = filter (λ e, ¬ target_version e ≤ v) l ∧
  hub (exec m env b) = hub b.
Proof.
  intros Hf Hr Hw m l. destruct (reachable_ordered h0 b Hf Hr) as [?|Ho]; [done|].
  subst m l. unfold drain_pending_attach_queue_for_producer_confirmed_, waiters_for at 1 2 4.
  unfold result, exec, outputs. erewrite B_read by done. cbv beta.
  destruct (pending_attach_queue_ b !! n) as [m|] eqn:Hn.
  2: { cbn. unfold waiters_for. by rewrite Hn. }
  destruct (m !! u) as [l|] eqn:Hu.
  2: { cbn. unfold waiters_for. by rewrite Hn, Hu. }
  rewrite (pop_sorted (version (hub b) n) v l) by (exact (Ho n m Hn u l Hu)). cbn [default].
  rewrite B_run_bind. unfold result, exec, outputs. rewrite each_answer. cbn.
  rewrite app_nil_r. split_and!; try done. unfold waiters_for. cbn. apply store_queue_lookup.
Qed.
End confirmation.
End BrokerFifo.
