(* ===== verification/BrokerWitnesses.v ===== *)
(** * The broker's theorems on a session

    Each theorem with hypotheses applied to the states and messages of
    [BrokerSession]. *)

From S2P Require Import Prelude.
From S2P Require Import Json.
From S2P Require Import Naming.
From S2P Require Import Ledger.
From S2P Require Import Entries.
From S2P Require Import HubCore.
From S2P Require Import HubOps.
From S2P Require Import HubInv.
From S2P Require Import Wire.
From S2P Require Import AdmissionGates.
From S2P Require Import WireDispatch.
From S2P Require Import DispatchProps.
From S2P Require Import Broker.
From S2P Require Import BrokerChannels.
From S2P Require Import BrokerDispatch.
From S2P Require Import BrokerHub.
From S2P Require Import BrokerReach.
From S2P Require Import BrokerReplies.
From S2P Require Import BrokerRoles.
From S2P Require Import BrokerDepartures.
From S2P Require Import BrokerFifo.
Import Json Entries HubCore HubOps WireDispatch DispatchProps Broker BrokerDispatch BrokerHub BrokerReach
  BrokerSession BrokerReplies BrokerSilence BrokerRoles BrokerDepartures BrokerFifo.

Module BrokerWitnesses.

(** The viewer waits for the camera, which is on the channel. *)
Lemma nobody_waits_for_the_departed_witness :
  waiters_of lab cam (after 4) = [view] ∧
  ∃ ch p, channels_ (hub (after 4)) !! lab = Some ch ∧ p ∈ producers ch ∧ p_role_uid p = cam.
Proof.
  split; [by vm_compute|].
  destruct (pending_attach_queue_ (after 4) !! lab) as [m|] eqn:Hm; [|vm_compute in Hm; discriminate Hm].
  destruct (m !! cam) as [l|] eqn:Hl; [|vm_compute in Hm; injection Hm as <-; vm_compute in Hl; discriminate Hl].
  destruct (nobody_waits_for_the_departed empty_hub (after 4) empty_hub_fresh (session_reachable 4)) as [_ Hw].
  by destruct (Hw lab cam m l Hm Hl) as [_ Hp].
Defined.

Lemma session_fresh_versions n : (n ≤ 4)%nat → ¬ worn_out (after n).
Proof.
  intros Hn He. assert (Hd : Forall (λ h, ¬ exhausted h) (seen (after n))).
  { do 5 (destruct n as [|n]; [apply (bool_decide_unpack _); by vm_compute|]). lia. }
  apply Exists_exists in He as (h & Hh & Hex). by apply (proj1 (Forall_forall _ _) Hd h).
Qed.

(** ** Requests *)

Definition members (j : json) : list (string * json) := match j with JObj ms => ms | _ => [] end.

(** A body as its handler gets it. *)
Definition stamped (c : string) (body : json) : list (string * json) := members (with_corr c body).

Lemma request_is_answered_witness :
  ∃ handler post,
    let '(ty, body) := request_answer "REG_REQ" "1" (result handler (at_ms 5000) start) in
    outputs (process_message cam "REG_REQ" (JObj (stamped "1" register_body)) 0) (at_ms 5000) start =
      outputs handler (at_ms 5000) start ++ Send cam ty body :: post ∧
    str_of "correlation_id" body = "1" ∧ is_Some (frames (Send cam ty body)) ∧ off_the_wire post.
Proof.
  destruct (request_is_answered cam "REG_REQ" "1" (stamped "1" register_body) 0 (at_ms 5000) start)
    as (ack & handler & post & _ & Ha); try (by vm_compute); try (vm_compute; lia).
  exists handler, post. exact Ha.
Defined.

Lemma validated_registration_is_authentic_witness :
  ∃ env body,
    HubCore.result (receive_and_validate blake2b parse [cam; "C"; "REG_REQ"; "1"; "register"]
              (AdmissionGates.bind_admission_context known_roles)) (at_ms 5000) empty_hub = ValidatedRegReq env body ∧
    Wire.identity env = cam ∧ json_get "role_uid" body = Some (JStr cam).
Proof.
  destruct (HubCore.result (receive_and_validate blake2b parse [cam; "C"; "REG_REQ"; "1"; "register"]
    (AdmissionGates.bind_admission_context known_roles)) (at_ms 5000) empty_hub) as [| |env body| | | | | | | |] eqn:Hr;
    try (by vm_compute in Hr).
  destruct (validated_registration_is_authentic blake2b parse known_roles _ _ _ env body Hr)
    as (c & text & ch & key & nonce & ts & tag & Hraw & _ & _ & Hu & _).
  exists env, body. split; [done|]. injection Hraw as Hid _ _. rewrite <- Hid in *. by split.
Defined.

Lemma shm_query_is_never_answered_witness :
  off_the_wire (outputs (process_message view "SHM_BLOCK_QUERY_REQ"
    (JObj [("channel", JStr lab); ("correlation_id", JStr "7")]) 0) (at_ms 5400) (after 4)).
Proof.
  apply (shm_query_is_never_answered view [("channel", JStr lab); ("correlation_id", JStr "7")] 0
           (at_ms 5400) (after 4)); by vm_compute.
Defined.

(** A processor's heartbeat, as its own session would send it. *)
Definition mixer_heartbeat : list string := ["proc.mix.uid3"; "C"; "HEARTBEAT_NOTIFY"; ""; "heartbeat"].

Lemma processor_heartbeats_never_count_witness :
  roles_ (hub (exec (serve mixer_heartbeat) (at_ms 5400) (after 4))) = roles_ (hub (after 4)).
Proof.
  destruct (Wire.parse_router_recv blake2b parse mixer_heartbeat) as [e|w] eqn:Hw; [vm_compute in Hw; discriminate Hw|].
  assert (Hm : Wire.msg_type w = "HEARTBEAT_NOTIFY" ∧ Naming.extract_short_tag (Wire.identity w) = Some "proc")
    by (vm_compute in Hw; injection Hw as <-; by vm_compute).
  exact (processor_heartbeats_never_count mixer_heartbeat w (at_ms 5400) (after 4) Hw (proj1 Hm) (proj2 Hm)).
Defined.

(** ** Departures and confirmations *)

Definition leave_request : json := obj
  [("correlation_id", JStr "9"); ("channel_name", JStr lab); ("consumer_pid", JInt 22);
   ("role_uid", JStr view)].

Lemma departed_consumer_is_shut_out_witness :
  let h := hub (exec (BrokerChannels.handle_consumer_dereg_req leave_request) (at_ms 5400) (after 3)) in
  Ledger.admission_version_of view_key <$> (ledger <$> channel_access_index (hub (after 3)) !! lab) = Some (Some 1) ∧
  Ledger.admission_version_of view_key <$> (ledger <$> channel_access_index h !! lab) = Some None.
Proof.
  cbv zeta. split; [by vm_compute|].
  destruct (channel lab (hub (after 3))) as [ch|] eqn:Hch; [|vm_compute in Hch; discriminate Hch].
  destruct (BrokerChannels.registered_consumer 22 view ch) as [c|] eqn:Hc;
    [|vm_compute in Hch; injection Hch as <-; vm_compute in Hc; discriminate Hc].
  assert (Hkey : c_zmq_pubkey c = view_key).
  { vm_compute in Hch. injection Hch as <-. vm_compute in Hc. by injection Hc as <-. }
  destruct (departed_consumer_is_shut_out leave_request "9" lab 22 view ch c (at_ms 5400) (after 3))
    as (_ & _ & Hk & _); [by vm_compute..|exact Hch|exact Hc|by rewrite Hkey|].
  destruct (channel_access_index _ !! lab) as [a|] eqn:Ha; [|vm_compute in Ha; discriminate Ha].
  rewrite <- Hkey. exact (f_equal Some (Hk a eq_refl)).
Defined.

(** The camera confirms: the viewer is told. *)
Lemma confirmation_answers_every_covered_waiter_witness :
  let m := drain_pending_attach_queue_for_producer_confirmed_ lab cam 1 in
  length (outputs m (at_ms 5400) (after 4)) = 1%nat ∧ waiters_for lab cam (exec m (at_ms 5400) (after 4)) = [].
Proof.
  assert (Hw : ¬ worn_out (after 4)) by (apply session_fresh_versions; lia).
  destruct (confirmation_answers_every_covered_waiter empty_hub (after 4) (at_ms 5400) lab cam 1
    empty_hub_fresh (session_reachable 4) Hw) as (_ & Ho & Hl & _).
  split; [rewrite Ho; by vm_compute|rewrite Hl; by vm_compute].
Defined.
End BrokerWitnesses.
