(* ===== verification/ShmHeader.v ===== *)
(** * The header of a shared-memory data block

    Models the configuration and the header of a data block: the enumerations
    of [data_block_policy.hpp], [DataBlockConfig] and its derived sizes
    ([data_block_config.hpp]), the fields of [SharedMemoryHeader] with their
    accessors ([data_block.hpp], [data_block_internal.hpp]), the description of
    the header that is hashed into it and the checksum of its layout fields
    ([schema_blds.hpp], [data_block_schema.cpp], [deterministic_checksum.hpp]),
    and the functions of [data_block_c_api.cpp] that read and reset metrics and
    identities.  BLAKE2b, which libsodium computes, is the class [Crypto]. *)

From Stdlib Require Import Ascii.
From stdpp Require Import pretty.
From S2P Require Import Prelude.
From S2P Require Import SchemaRegistry.

Module ShmHeader.

Export SchemaUtils.

(** ** Policies and configuration *)

Inductive DataBlockPolicy := Single | DoubleBuffer | RingBuffer | PolicyUnset.
Inductive ConsumerSyncPolicy := Latest_only | Sequential | Sequential_sync | SyncUnset.
Inductive ChecksumType := BLAKE2b | ChecksumUnset.
Inductive ChecksumPolicy := ChecksumNone | Manual | Enforced.
Inductive DataBlockPageSize := PageUnset | Size4K | Size4M | Size16M.

#[global] Instance DataBlockPolicy_eq_dec : EqDecision DataBlockPolicy.
Proof. solve_decision. Defined.
#[global] Instance ConsumerSyncPolicy_eq_dec : EqDecision ConsumerSyncPolicy.
Proof. solve_decision. Defined.
#[global] Instance ChecksumType_eq_dec : EqDecision ChecksumType.
Proof. solve_decision. Defined.
#[global] Instance ChecksumPolicy_eq_dec : EqDecision ChecksumPolicy.
Proof. solve_decision. Defined.
#[global] Instance DataBlockPageSize_eq_dec : EqDecision DataBlockPageSize.
Proof. solve_decision. Defined.

(** The values of the enumerators. *)
Definition policy_code (p : DataBlockPolicy) : Z :=
  match p with Single => 0 | DoubleBuffer => 1 | RingBuffer => 2 | PolicyUnset => 255 end.
Definition sync_code (p : ConsumerSyncPolicy) : Z :=
  match p with Latest_only => 0 | Sequential => 1 | Sequential_sync => 2 | SyncUnset => 255 end.
Definition checksum_code (c : ChecksumType) : Z :=
  match c with BLAKE2b => 0 | ChecksumUnset => 255 end.
Definition to_bytes (u : DataBlockPageSize) : Z :=
  match u with PageUnset => 0 | Size4K => 4096 | Size4M => 4194304 | Size16M => 16777216 end.

(** [sc] is the answer of [sysconf(_SC_PAGESIZE)]. *)
Definition system_page_size (sc : Z) : DataBlockPageSize :=
  let page_bytes := if 0 <? sc then sc else 4096 in
  if page_bytes <=? to_bytes Size4K then Size4K
  else if page_bytes <=? to_bytes Size4M then Size4M
  else Size16M.

Record DataBlockConfig := mkConfig {
  cfg_name : string;
  cfg_physical_page_size : DataBlockPageSize;
  cfg_logical_unit_size : Z;
  cfg_ring_buffer_capacity : Z;
  cfg_policy : DataBlockPolicy;
  cfg_consumer_sync_policy : ConsumerSyncPolicy;
  cfg_checksum_type : ChecksumType;
  cfg_checksum_policy : ChecksumPolicy;
  cfg_flex_zone_size : Z;
  cfg_hub_uid : string;
  cfg_hub_name : string;
  cfg_producer_uid : string;
  cfg_producer_name : string;
}.
#[global] Instance eta_config : Eta DataBlockConfig := λ r,
  mkConfig (cfg_name r) (cfg_physical_page_size r) (cfg_logical_unit_size r)
    (cfg_ring_buffer_capacity r) (cfg_policy r) (cfg_consumer_sync_policy r)
    (cfg_checksum_type r) (cfg_checksum_policy r) (cfg_flex_zone_size r) (cfg_hub_uid r)
    (cfg_hub_name r) (cfg_producer_uid r) (cfg_producer_name r).

(** [DataBlockConfig{}]. *)
Definition default_config : DataBlockConfig :=
  mkConfig "" PageUnset 0 0 PolicyUnset SyncUnset BLAKE2b Enforced 0 "" "" "" "".

(** The widths of the fields: [size_t], [uint32_t]. *)
Record config_widths (c : DataBlockConfig) : Prop := mkConfigWidths {
  logical_width : 0 ≤ cfg_logical_unit_size c ≤ u64_max;
  capacity_width : 0 ≤ cfg_ring_buffer_capacity c ≤ u32_max;
  flex_width : 0 ≤ cfg_flex_zone_size c ≤ u64_max;
}.

(** [(x + a - 1) & ~(a - 1)] on [size_t]. *)
Definition align_up (a x : Z) : Z := Z.land (u64 (x + a - 1)) (u64 (Z.lnot (a - 1))).

Definition kCacheLineSize : Z := 64.
Definition PAGE_ALIGNMENT : Z := 4096.

Definition effective_logical_unit_size (c : DataBlockConfig) : Z :=
  if cfg_logical_unit_size c =? 0 then to_bytes (cfg_physical_page_size c)
  else align_up kCacheLineSize (cfg_logical_unit_size c).

Definition config_slots (c : DataBlockConfig) : Z :=
  if 0 <? cfg_ring_buffer_capacity c then cfg_ring_buffer_capacity c else 1.

Definition structured_buffer_size (c : DataBlockConfig) : Z :=
  u64 (config_slots c * effective_logical_unit_size c).

(** ** The header *)

(** Counters of the metrics section, among them [creation_timestamp_ns];
    [reader_timeout_count], which is only ever incremented, and the reserved
    words are left out. *)
Record Metrics := mkMetrics {
  writer_timeout_count : Z;
  writer_lock_timeout_count : Z;
  writer_reader_timeout_count : Z;
  writer_blocked_total_ns : Z;
  write_lock_contention : Z;
  write_generation_wraps : Z;
  reader_not_ready_count : Z;
  reader_race_detected : Z;
  reader_validation_failed : Z;
  reader_peak_count : Z;
  last_error_timestamp_ns : Z;
  last_error_code : Z;
  error_sequence : Z;
  slot_acquire_errors : Z;
  slot_commit_errors : Z;
  checksum_failures : Z;
  zmq_send_failures : Z;
  zmq_recv_failures : Z;
  zmq_timeout_count : Z;
  recovery_actions_count : Z;
  schema_mismatch_count : Z;
  heartbeat_sent_count : Z;
  heartbeat_failed_count : Z;
  metric_last_heartbeat_ns : Z;
  total_slots_written : Z;
  total_slots_read : Z;
  total_bytes_written : Z;
  total_bytes_read : Z;
  uptime_seconds : Z;
  creation_timestamp_ns : Z;
}.
#[global] Instance eta_metrics : Eta Metrics := λ r,
  mkMetrics (writer_timeout_count r) (writer_lock_timeout_count r)
    (writer_reader_timeout_count r) (writer_blocked_total_ns r) (write_lock_contention r)
    (write_generation_wraps r) (reader_not_ready_count r) (reader_race_detected r)
    (reader_validation_failed r) (reader_peak_count r) (last_error_timestamp_ns r)
    (last_error_code r) (error_sequence r) (slot_acquire_errors r) (slot_commit_errors r)
    (checksum_failures r) (zmq_send_failures r) (zmq_recv_failures r) (zmq_timeout_count r)
    (recovery_actions_count r) (schema_mismatch_count r) (heartbeat_sent_count r)
    (heartbeat_failed_count r) (metric_last_heartbeat_ns r) (total_slots_written r)
    (total_slots_read r) (total_bytes_written r) (total_bytes_read r) (uptime_seconds r)
    (creation_timestamp_ns r).

Definition zero_metrics : Metrics :=
  mkMetrics 0 0 0 0 0 0 0 0 0 0 0 0 0 0 0 0 0 0 0 0 0 0 0 0 0 0 0 0 0 0.

(** Character arrays are lists of bytes, as long as the array. *)
Record ConsumerHeartbeat := mkHeartbeat {
  consumer_pid : Z;
  last_heartbeat_ns : Z;
  consumer_uid : list Z;
  consumer_name : list Z;
}.
#[global] Instance eta_heartbeat : Eta ConsumerHeartbeat := λ r,
  mkHeartbeat (consumer_pid r) (last_heartbeat_ns r) (consumer_uid r) (consumer_name r).

Record SharedSpinLockState := mkSpin {
  owner_pid : Z;
  owner_tid : Z;
  generation : Z;
  recursion_count : Z;
}.
#[global] Instance eta_spin : Eta SharedSpinLockState := λ r,
  mkSpin (owner_pid r) (owner_tid r) (generation r) (recursion_count r).

Record FlexibleZoneChecksumEntry := mkFlexChecksum {
  checksum_bytes : list Z;
  cks_is_valid : Z;
}.
#[global] Instance eta_flex_checksum : Eta FlexibleZoneChecksumEntry := λ r,
  mkFlexChecksum (checksum_bytes r) (cks_is_valid r).

(** The regions of [reserved_header] are fields of their own. *)
Record SharedMemoryHeader := mkHeader {
  magic_number : Z;
  version_major : Z;
  version_minor : Z;
  total_block_size : Z;
  flexzone_schema_hash : list Z;
  datablock_schema_hash : list Z;
  schema_version : Z;
  policy : DataBlockPolicy;
  consumer_sync_policy : ConsumerSyncPolicy;
  physical_page_size : Z;
  logical_unit_size : Z;
  ring_buffer_capacity : Z;
  flexible_zone_size : Z;
  checksum_type : Z;
  checksum_policy : ChecksumPolicy;
  write_index : Z;
  commit_index : Z;
  read_index : Z;
  active_consumer_count : Z;
  metrics : Metrics;
  consumer_heartbeats : list ConsumerHeartbeat;
  hub_uid : list Z;
  hub_name : list Z;
  producer_uid : list Z;
  producer_name : list Z;
  spinlock_states : list SharedSpinLockState;
  flexible_zone_checksums : list FlexibleZoneChecksumEntry;
  header_layout_hash : list Z;
  layout_checksum : list Z;
  consumer_next_read_slot : list Z;
  producer_heartbeat_id : Z;
  producer_heartbeat_ns : Z;
}.
#[global] Instance eta_header : Eta SharedMemoryHeader := λ r,
  mkHeader (magic_number r) (version_major r) (version_minor r) (total_block_size r)
    (flexzone_schema_hash r) (datablock_schema_hash r) (schema_version r) (policy r)
    (consumer_sync_policy r) (physical_page_size r) (logical_unit_size r)
    (ring_buffer_capacity r) (flexible_zone_size r) (checksum_type r) (checksum_policy r)
    (write_index r) (commit_index r) (read_index r) (active_consumer_count r) (metrics r)
    (consumer_heartbeats r) (hub_uid r) (hub_name r) (producer_uid r) (producer_name r)
    (spinlock_states r) (flexible_zone_checksums r) (header_layout_hash r)
    (layout_checksum r) (consumer_next_read_slot r) (producer_heartbeat_id r)
    (producer_heartbeat_ns r).

Definition HEADER_VERSION_MAJOR : Z := 1.
Definition HEADER_VERSION_MINOR : Z := 0.
Definition MAX_SHARED_SPINLOCKS : nat := 8.
Definition MAX_CONSUMER_HEARTBEATS : nat := 8.
Definition MAX_FLEXIBLE_ZONE_CHECKSUMS : nat := 8.
Definition CHECKSUM_BYTES : nat := 32.
Definition DATABLOCK_MAGIC_NUMBER : Z := 1347176514.
Definition INVALID_SLOT_ID : Z := u64_max.

Definition init_spinlock_state : SharedSpinLockState := mkSpin 0 0 0 0.

(** [SharedMemoryHeader{}], which is also what zero-filled memory reads as. *)
Definition zero_header : SharedMemoryHeader :=
  mkHeader 0 0 0 0 (zeros CHECKSUM_BYTES) (zeros CHECKSUM_BYTES) 0 Single Latest_only 0 0 0 0 0
    ChecksumNone 0 0 0 0 zero_metrics
    (replicate MAX_CONSUMER_HEARTBEATS (mkHeartbeat 0 0 (zeros 40) (zeros 32)))
    (zeros 40) (zeros 64) (zeros 40) (zeros 64)
    (replicate MAX_SHARED_SPINLOCKS init_spinlock_state)
    (replicate MAX_FLEXIBLE_ZONE_CHECKSUMS (mkFlexChecksum (zeros CHECKSUM_BYTES) 0))
    (zeros 32) (zeros 32) (replicate MAX_CONSUMER_HEARTBEATS 0) 0 0.

(** ** Accessors *)

Definition is_header_magic_valid (h : SharedMemoryHeader) : bool :=
  magic_number h =? DATABLOCK_MAGIC_NUMBER.

Definition get_slot_stride_bytes (h : SharedMemoryHeader) : Z :=
  if bool_decide (logical_unit_size h ≠ 0) then logical_unit_size h else physical_page_size h.

Definition get_slot_count (h : SharedMemoryHeader) : Z :=
  if 0 <? ring_buffer_capacity h then ring_buffer_capacity h else 1.

Definition get_total_commits (h : option SharedMemoryHeader) : Z :=
  match h with Some h => total_slots_written (metrics h) | None => 0 end.
Definition has_any_commits (h : option SharedMemoryHeader) : bool := 0 <? get_total_commits h.
Definition get_commit_index (h : option SharedMemoryHeader) : Z :=
  match h with Some h => commit_index h | None => u64_max end.
Definition get_write_index (h : option SharedMemoryHeader) : Z :=
  match h with Some h => write_index h | None => 0 end.
Definition get_read_index (h : option SharedMemoryHeader) : Z :=
  match h with Some h => read_index h | None => 0 end.

(** The stored byte is cast to the enumeration: only 255 is [Unset]. *)
Definition checksum_is_unset (h : SharedMemoryHeader) : bool :=
  checksum_type h =? checksum_code ChecksumUnset.

(** ** Hashes *)

(** [crypto_generichash] with a 32-byte output; [None] is a non-zero return. *)
Class Crypto := crypto_generichash : list Z → option (list Z).

Definition compute_blake2b_array `{Crypto} (data : list Z) : list Z :=
  default (zeros CHECKSUM_BYTES) (crypto_generichash data).

Definition verify_blake2b `{Crypto} (stored data : list Z) : bool :=
  match crypto_generichash data with
  | Some computed => bool_decide (stored = computed)
  | None => false
  end.

Record SchemaVersion := mkVersion { major : Z; minor : Z; patch : Z }.

Definition pack (v : SchemaVersion) : Z :=
  Z.lor (Z.lor (Z.shiftl (Z.land (major v) 1023) 22)
               (Z.shiftl (Z.land (minor v) 1023) 12))
        (Z.land (patch v) 4095).

Definition unpack (packed : Z) : SchemaVersion :=
  mkVersion (Z.land (Z.shiftr packed 22) 1023) (Z.land (Z.shiftr packed 12) 1023)
    (Z.land packed 4095).

(** What the data block uses of a [SchemaInfo]. *)
Record SchemaInfo := mkSchemaInfo { schema_hash : list Z; schema_ver : SchemaVersion }.

(** The members of the struct in order: name, type id, size and alignment, and
    whether the description lists it. *)
Record Member := mkMember {
  mem_name : string; mem_type : string; mem_size : Z; mem_align : Z; mem_listed : bool }.

Definition u16_member (n : string) : Member := mkMember n "u16" 2 2 true.
Definition u32_member (n : string) : Member := mkMember n "u32" 4 4 true.
Definition u64_member (n : string) : Member := mkMember n "u64" 8 8 true.
Definition u64x2_member (n : string) : Member := mkMember n "u64[2]" 16 8 true.

Definition kHeaderFixedContentSize : Z := 2496.

Definition header_members : list Member :=
  [u32_member "magic_number"; u16_member "version_major"; u16_member "version_minor";
   u64_member "total_block_size"; mkMember "reserved_capability_token" "u8[64]" 64 1 true;
   mkMember "flexzone_schema_hash" "u8[32]" 32 1 true;
   mkMember "datablock_schema_hash" "u8[32]" 32 1 true; u32_member "schema_version";
   u32_member "policy"; u32_member "consumer_sync_policy"; u32_member "physical_page_size";
   u32_member "logical_unit_size"; u32_member "ring_buffer_capacity";
   u32_member "flexible_zone_size"; mkMember "checksum_type" "u8" 1 1 true;
   u32_member "checksum_policy"; u64_member "write_index"; u64_member "commit_index";
   u64_member "read_index"; u32_member "active_consumer_count"] ++
  (u64_member <$>
    ["writer_timeout_count"; "writer_lock_timeout_count"; "writer_reader_timeout_count";
     "writer_blocked_total_ns"; "write_lock_contention"; "write_generation_wraps";
     "reader_not_ready_count"; "reader_race_detected"; "reader_validation_failed";
     "reader_peak_count"; "reader_timeout_count"; "last_error_timestamp_ns"]) ++
  [u32_member "last_error_code"; u32_member "error_sequence"] ++
  (u64_member <$>
    ["slot_acquire_errors"; "slot_commit_errors"; "checksum_failures"; "zmq_send_failures";
     "zmq_recv_failures"; "zmq_timeout_count"; "recovery_actions_count";
     "schema_mismatch_count"]) ++
  [u64x2_member "reserved_errors"] ++
  (u64_member <$>
    ["heartbeat_sent_count"; "heartbeat_failed_count"; "last_heartbeat_ns"; "reserved_hb";
     "total_slots_written"; "total_slots_read"; "total_bytes_written"; "total_bytes_read";
     "uptime_seconds"; "creation_timestamp_ns"]) ++
  [u64x2_member "reserved_perf"; mkMember "consumer_heartbeats" "ConsumerHeartbeat[8]" 1024 8 true;
   mkMember "hub_uid" "c[40]" 40 1 false; mkMember "hub_name" "c[64]" 64 1 false;
   mkMember "producer_uid" "c[40]" 40 1 false; mkMember "producer_name" "c[64]" 64 1 false;
   mkMember "spinlock_states" "SharedSpinLockState[8]" 256 8 true;
   mkMember "flexible_zone_checksums" "FlexibleZoneChecksumEntry[8]" 512 1 true;
   mkMember "reserved_header" "u8[1600]" (4096 - kHeaderFixedContentSize) 1 true].

(** [offsetof]: each member at the next multiple of its alignment. *)
Fixpoint with_offsets (off : Z) (l : list Member) : list (Member * Z) :=
  match l with
  | [] => []
  | m :: l => let o := align_up (mem_align m) off in (m, o) :: with_offsets (o + mem_size m) l
  end.

(** [BLDSBuilder::add_member] for every listed member. *)
Definition add_member (blds : string) (m : Member * Z) : string :=
  (if str_empty blds then blds else blds +:+ ";") +:+
  mem_name m.1 +:+ ":" +:+ mem_type m.1 +:+ "@" +:+ pretty m.2 +:+ ":" +:+ pretty (mem_size m.1).

Definition header_blds : string :=
  foldl add_member "" (filter (λ m, mem_listed m.1 = true) (with_offsets 0 header_members)).

Definition get_shared_memory_header_schema_info `{Crypto} : SchemaInfo :=
  mkSchemaInfo (compute_blake2b_array (bytes_of (header_blds +:+ "|pack:" +:+ "aligned")))
    (mkVersion HEADER_VERSION_MAJOR HEADER_VERSION_MINOR 0).

(** [validate_header_layout_hash] throws when this is false. *)
Definition header_layout_hash_ok `{Crypto} (h : SharedMemoryHeader) : bool :=
  bool_decide (schema_hash get_shared_memory_header_schema_info = header_layout_hash h).

Definition append_le_u32 (v : Z) : list Z :=
  [Z.land v 255; Z.land (Z.shiftr v 8) 255; Z.land (Z.shiftr v 16) 255; Z.land (Z.shiftr v 24) 255].
Definition append_le_u64 (v : Z) : list Z :=
  append_le_u32 (v mod 2 ^ 32) ++ append_le_u32 (Z.shiftr v 32 mod 2 ^ 32).
Definition append_u8 (v : Z) : list Z := [Z.land v 255].

Definition layout_checksum_fill (h : SharedMemoryHeader) : list Z :=
  append_le_u32 (ring_buffer_capacity h) ++ append_le_u32 (physical_page_size h) ++
  append_le_u32 (logical_unit_size h) ++ append_le_u64 (flexible_zone_size h) ++
  append_u8 (checksum_type h) ++ append_u8 (policy_code (policy h)) ++
  append_u8 (sync_code (consumer_sync_policy h)) ++ append_u8 0.

(** [None] is the exception. *)
Definition store_layout_checksum `{Crypto} (h : SharedMemoryHeader) : option SharedMemoryHeader :=
  (λ out, h <| layout_checksum := out |>) <$> crypto_generichash (layout_checksum_fill h).

Definition validate_layout_checksum `{Crypto} (h : SharedMemoryHeader) : bool :=
  verify_blake2b (layout_checksum h) (layout_checksum_fill h).

(** ** Metrics and identities of the C API *)

Record DataBlockMetrics := mkDataBlockMetrics {
  snapshot_commit_index : Z;
  snapshot_slot_count : Z;
  snapshot_metrics : Metrics;
}.

Definition slot_rw_get_metrics (h : SharedMemoryHeader) : DataBlockMetrics :=
  mkDataBlockMetrics (commit_index h) (get_slot_count h) (metrics h).

Definition slot_rw_get_total_slots_written : option SharedMemoryHeader → Z := get_total_commits.
Definition slot_rw_get_commit_index (h : option SharedMemoryHeader) : Z :=
  match h with Some h => commit_index h | None => 0 end.
Definition slot_rw_get_slot_count (h : option SharedMemoryHeader) : Z :=
  match h with Some h => get_slot_count h | None => 0 end.

(** Every counter but the creation time. *)
Definition slot_rw_reset_metrics (h : SharedMemoryHeader) : SharedMemoryHeader :=
  h <| metrics ::= λ m, zero_metrics <| creation_timestamp_ns := creation_timestamp_ns m |> |>.

(** [std::memcpy] of the array, then a NUL in its last byte. *)
Definition terminated (field : list Z) : list Z := <[(length field - 1)%nat := 0]> field.

(** [read_id_field]: up to the first NUL, or the whole array. *)
Fixpoint read_id_field (field : list Z) : list Z :=
  match field with
  | [] => []
  | c :: field => if c =? 0 then [] else c :: read_id_field field
  end.

(** The lambda [write_id_str]. *)
Definition write_id_str (dst : list Z) (src : string) : list Z :=
  let dst_size := length dst in
  let len := if bool_decide (String.length src < dst_size)%nat then String.length src
             else (dst_size - 1)%nat in
  take len (bytes_of src) ++ 0 :: drop (S len) dst.

(** [std::strncpy] of all but the last byte of a zeroed buffer. *)
Definition strncpy_id (size : nat) (src : string) : list Z :=
  let s := take (size - 1) (read_id_field (bytes_of src)) in
  s ++ zeros (size - length s).

Record ChannelIdentity := mkIdentity {
  id_hub_uid : list Z; id_hub_name : list Z; id_producer_uid : list Z; id_producer_name : list Z }.

Definition slot_rw_get_channel_identity (h : SharedMemoryHeader) : ChannelIdentity :=
  mkIdentity (terminated (hub_uid h)) (terminated (hub_name h))
    (terminated (producer_uid h)) (terminated (producer_name h)).

Record ConsumerIdentity := mkConsumerIdentity {
  ci_pid : Z; ci_last_heartbeat_ns : Z; ci_slot_index : Z; ci_uid : list Z; ci_name : list Z }.

(** The loop of [slot_rw_list_consumers] from entry [i] on, with room for
    [room] more. *)
Fixpoint list_consumers_loop (i : Z) (room : nat) (l : list ConsumerHeartbeat) : list ConsumerIdentity :=
  match l with
  | [] => []
  | e :: l =>
      if consumer_pid e =? 0 then list_consumers_loop (i + 1) room l
      else match room with
           | O => []
           | S room =>
               mkConsumerIdentity (consumer_pid e) (last_heartbeat_ns e) i
                 (terminated (consumer_uid e)) (terminated (consumer_name e))
               :: list_consumers_loop (i + 1) room l
           end
  end.

Definition slot_rw_list_consumers (h : SharedMemoryHeader) (array_capacity : Z) :
    option (list ConsumerIdentity) :=
  if array_capacity <=? 0 then None
  else Some (list_consumers_loop 0 (Z.to_nat array_capacity) (consumer_heartbeats h)).

End ShmHeader.
