(* ===== verification/Layout.v ===== *)
(** * The memory layout of a data block

    Models [DataBlockLayout] of [src/utils/shm/data_block.cpp]: the offsets and
    sizes of the sections of a segment, computed by the creator from its
    configuration and by whoever attaches from the header, the access to slots
    through them, and the check of the debug builds.  All sums and products are
    [size_t], with their wrap-around.  Proves that the check accepts every
    layout the code computes, overflow or not, and that without overflow the
    sections and the slots lie one after the other inside the segment.

    Module [FieldLayout] follows: the layout of a slot's fields. *)

From S2P Require Import Prelude.
From S2P Require Import ShmHeader.
Import ShmHeader.

Module Layout.

(** [sizeof] of the structures placed in the segment. *)
Definition sizeof_SharedMemoryHeader : Z := 4096.
Definition sizeof_SlotRWState : Z := 64.
Definition SLOT_CHECKSUM_ENTRY_SIZE : Z := 33.

Record DataBlockLayout := mkLayout {
  slot_rw_state_offset : Z;
  slot_rw_state_size : Z;
  slot_checksum_offset : Z;
  slot_checksum_size : Z;
  flex_offset : Z;
  flex_size : Z;
  structured_buffer_offset : Z;
  buffer_size : Z;
  total_size : Z;
  slot_stride_bytes : Z;
  physical_page_size_bytes : Z;
  slot_count : Z;
}.
#[global] Instance eta_layout : Eta DataBlockLayout := λ r,
  mkLayout (slot_rw_state_offset r) (slot_rw_state_size r) (slot_checksum_offset r)
    (slot_checksum_size r) (flex_offset r) (flex_size r) (structured_buffer_offset r)
    (buffer_size r) (total_size r) (slot_stride_bytes r) (physical_page_size_bytes r)
    (slot_count r).

#[global] Instance DataBlockLayout_eq_dec : EqDecision DataBlockLayout.
Proof. solve_decision. Defined.

Definition control_zone_size (l : DataBlockLayout) : Z :=
  u64 (slot_rw_state_size l + slot_checksum_size l).
Definition control_zone_end (l : DataBlockLayout) : Z :=
  u64 (slot_rw_state_offset l + control_zone_size l).
Definition has_flex_zone (l : DataBlockLayout) : bool := 0 <? flex_size l.

(** Pointers are offsets from the base; [None] is the null pointer. *)
Definition flex_zone_ptr (l : DataBlockLayout) : option Z :=
  if has_flex_zone l then Some (flex_offset l) else None.
Definition ring_buffer_ptr (l : DataBlockLayout) : Z := structured_buffer_offset l.
Definition slot_ptr (l : DataBlockLayout) (slot_index : Z) : option Z :=
  if slot_count l <=? slot_index then None
  else Some (u64 (structured_buffer_offset l + slot_index * slot_stride_bytes l)).
Definition slot_checksum_base (l : DataBlockLayout) : Z := slot_checksum_offset l.

(** The part [from_config] and [from_header] share, from the slot count to the
    total size; [None] is the [std::logic_error]. *)
Definition place_sections (count : Z) (unset : bool) (flexible stride page ring : Z) :
    option DataBlockLayout :=
  let rw_size := u64 (count * sizeof_SlotRWState) in
  let cks_size := if unset then 0 else u64 (count * SLOT_CHECKSUM_ENTRY_SIZE) in
  let cks_offset := u64 (sizeof_SharedMemoryHeader + rw_size) in
  let zone_size := u64 (rw_size + cks_size) in
  let zone_end := u64 (sizeof_SharedMemoryHeader + zone_size) in
  let data_region_offset := align_up PAGE_ALIGNMENT zone_end in
  let buffer_offset := u64 (data_region_offset + flexible) in
  if bool_decide (buffer_offset mod PAGE_ALIGNMENT ≠ 0) then None
  else
    Some (mkLayout sizeof_SharedMemoryHeader rw_size cks_offset cks_size data_region_offset
            flexible buffer_offset ring (align_up PAGE_ALIGNMENT (u64 (buffer_offset + ring)))
            stride page count).

Definition from_config (c : DataBlockConfig) : option DataBlockLayout :=
  place_sections (config_slots c) (bool_decide (cfg_checksum_type c = ChecksumUnset))
    (align_up PAGE_ALIGNMENT (cfg_flex_zone_size c)) (effective_logical_unit_size c)
    (to_bytes (cfg_physical_page_size c)) (structured_buffer_size c).

Definition from_header (h : SharedMemoryHeader) : option DataBlockLayout :=
  place_sections (get_slot_count h) (checksum_is_unset h) (flexible_zone_size h)
    (get_slot_stride_bytes h) (physical_page_size h)
    (u64 (get_slot_count h * get_slot_stride_bytes h)).

(** [validate()] of the debug builds. *)
Definition validate (l : DataBlockLayout) : bool :=
  (slot_rw_state_offset l =? sizeof_SharedMemoryHeader) &&
  (slot_checksum_offset l =? u64 (slot_rw_state_offset l + slot_rw_state_size l)) &&
  (flex_offset l mod PAGE_ALIGNMENT =? 0) &&
  (u64 (slot_checksum_offset l + slot_checksum_size l) <=? flex_offset l) &&
  (flex_size l mod PAGE_ALIGNMENT =? 0) &&
  (structured_buffer_offset l =? u64 (flex_offset l + flex_size l)) &&
  (structured_buffer_offset l mod PAGE_ALIGNMENT =? 0) &&
  (total_size l =? align_up PAGE_ALIGNMENT (u64 (structured_buffer_offset l + buffer_size l))).

Definition datablock_layout_total_size (c : DataBlockConfig) : option Z :=
  total_size <$> from_config c.

(** ** Rounding *)

Lemma align_up_spec k x :
  0 ≤ k ≤ 64 → align_up (2 ^ k) x = u64 (x + 2 ^ k - 1) / 2 ^ k * 2 ^ k.
Proof.
  intros Hk. unfold align_up.
  replace (u64 (Z.lnot (2 ^ k - 1))) with (Z.land (Z.lnot (Z.ones k)) (Z.ones 64)).
  - pose proof (u64_range (x + 2 ^ k - 1)) as Hr.
    set (y := u64 (x + 2 ^ k - 1)) in *.
    rewrite (Z.land_comm (Z.lnot _)), Z.land_assoc, (Z.land_ones y) by lia.
    rewrite (Z.mod_small y) by (change (2 ^ 64) with u64_modulus; unfold u64_max in Hr; lia).
    rewrite <- Z.ldiff_land, Z.ldiff_ones_r, Z.shiftr_div_pow2, Z.shiftl_mul_pow2 by lia.
    done.
  - rewrite Z.land_ones by lia. unfold u64, u64_modulus. f_equal. f_equal.
    rewrite Z.ones_equiv. lia.
Qed.

Lemma align_up_mod k x : 0 ≤ k ≤ 64 → align_up (2 ^ k) x mod 2 ^ k = 0.
Proof. intros. rewrite align_up_spec by done. apply Z_mod_mult. Qed.

Lemma align_up_range k x : 0 ≤ k ≤ 64 → 0 ≤ align_up (2 ^ k) x ≤ u64_max.
Proof.
  intros Hk. rewrite align_up_spec by done. pose proof (u64_range (x + 2 ^ k - 1)).
  assert (0 < 2 ^ k) by (apply Z.pow_pos_nonneg; lia).
  pose proof (Z.mul_div_le (u64 (x + 2 ^ k - 1)) (2 ^ k)).
  pose proof (Z.div_pos (u64 (x + 2 ^ k - 1)) (2 ^ k)). nia.
Qed.

(** Without overflow the result is the first multiple at or above. *)
Lemma align_up_bounds k x :
  0 ≤ k ≤ 64 → 0 ≤ x → x + 2 ^ k - 1 ≤ u64_max →
  x ≤ align_up (2 ^ k) x < x + 2 ^ k.
Proof.
  intros Hk Hx Hm. rewrite align_up_spec by done.
  assert (0 < 2 ^ k) by (apply Z.pow_pos_nonneg; lia).
  rewrite u64_id by lia.
  pose proof (Z.div_mod (x + 2 ^ k - 1) (2 ^ k)).
  pose proof (Z.mod_pos_bound (x + 2 ^ k - 1) (2 ^ k)). lia.
Qed.

Lemma align_up_id k x :
  0 ≤ k ≤ 64 → 0 ≤ x ≤ u64_max → x mod 2 ^ k = 0 → align_up (2 ^ k) x = x.
Proof.
  intros Hk Hx Hm. assert (0 < 2 ^ k) by (apply Z.pow_pos_nonneg; lia).
  assert (x + 2 ^ k - 1 ≤ u64_max) as Hle.
  { apply Z.mod_divide in Hm as [q ->]; [|lia].
    assert (u64_modulus = 2 ^ (64 - k) * 2 ^ k) as Hmod
      by (rewrite <- Z.pow_add_r by lia; unfold u64_modulus; f_equal; lia).
    unfold u64_max in *. rewrite Hmod in Hx |- *.
    assert (q < 2 ^ (64 - k)) by (apply (Zmult_lt_reg_r _ _ (2 ^ k)); lia). nia. }
  pose proof (align_up_bounds k x Hk (proj1 Hx) Hle) as Hb.
  pose proof (align_up_mod k x Hk) as Ha.
  apply Z.mod_divide in Hm as [q ->]; [|lia].
  apply Z.mod_divide in Ha as [r Hr]; [|lia]. rewrite Hr in Hb |- *.
  assert (q ≤ r) by (apply (Z.mul_le_mono_pos_r _ _ (2 ^ k)); lia).
  assert (r < q + 1) by (apply (Zmult_lt_reg_r _ _ (2 ^ k)); lia).
  by replace r with q by lia.
Qed.

(** The two alignments of the code. *)
Lemma page_power : PAGE_ALIGNMENT = 2 ^ 12.
Proof. done. Qed.
Lemma line_power : kCacheLineSize = 2 ^ 6.
Proof. done. Qed.

Lemma page_align_mod x : align_up PAGE_ALIGNMENT x mod PAGE_ALIGNMENT = 0.
Proof. rewrite page_power. by apply align_up_mod. Qed.
Lemma page_align_range x : 0 ≤ align_up PAGE_ALIGNMENT x ≤ u64_max.
Proof. rewrite page_power. by apply align_up_range. Qed.
Lemma page_align_bounds x :
  0 ≤ x → x + 4095 ≤ u64_max → x ≤ align_up PAGE_ALIGNMENT x < x + 4096.
Proof.
  intros. rewrite page_power.
  pose proof (align_up_bounds 12 x ltac:(lia) ltac:(lia) ltac:(lia)). lia.
Qed.
Lemma page_align_id x :
  0 ≤ x ≤ u64_max → x mod PAGE_ALIGNMENT = 0 → align_up PAGE_ALIGNMENT x = x.
Proof. rewrite page_power. by apply align_up_id. Qed.

Lemma page_divides_u64 x : u64 x mod PAGE_ALIGNMENT = x mod PAGE_ALIGNMENT.
Proof.
  unfold u64, PAGE_ALIGNMENT. apply Z.mod_mod_divide. by exists (2 ^ 52).
Qed.

Lemma page_aligned_sum x y :
  x mod PAGE_ALIGNMENT = 0 → y mod PAGE_ALIGNMENT = 0 → u64 (x + y) mod PAGE_ALIGNMENT = 0.
Proof. intros Hx Hy. by rewrite page_divides_u64, Z.add_mod, Hx, Hy. Qed.

(** ** What the sections are *)

Definition slots_ok (count : Z) : Prop := 1 ≤ count ≤ u32_max.

Lemma config_slots_ok c : config_widths c → slots_ok (config_slots c).
Proof. intros [_ Hc _]. unfold slots_ok, config_slots. case_match; [lia|vm_compute; by split]. Qed.

Lemma place_sections_defined count unset flexible stride page ring :
  slots_ok count → flexible mod PAGE_ALIGNMENT = 0 →
  ∃ l, place_sections count unset flexible stride page ring = Some l.
Proof.
  intros _ Hf. unfold place_sections. rewrite bool_decide_eq_false_2; [by eauto|].
  intros []. apply page_aligned_sum; [apply page_align_mod|done].
Qed.

(** The control zone cannot overflow: a slot count has 32 bits. *)
Lemma place_sections_control count unset flexible stride page ring l :
  slots_ok count → place_sections count unset flexible stride page ring = Some l →
  slot_count l = count ∧ slot_stride_bytes l = stride ∧ flex_size l = flexible ∧
  buffer_size l = ring ∧ physical_page_size_bytes l = page ∧
  slot_rw_state_offset l = 4096 ∧ slot_rw_state_size l = count * 64 ∧
  slot_checksum_offset l = 4096 + count * 64 ∧
  slot_checksum_size l = (if unset then 0 else count * 33) ∧
  slot_checksum_offset l + slot_checksum_size l ≤ flex_offset l
    < slot_checksum_offset l + slot_checksum_size l + 4096 ∧
  flex_offset l mod PAGE_ALIGNMENT = 0 ∧
  structured_buffer_offset l = u64 (flex_offset l + flexible) ∧
  structured_buffer_offset l mod PAGE_ALIGNMENT = 0 ∧
  total_size l = align_up PAGE_ALIGNMENT (u64 (structured_buffer_offset l + ring)).
Proof.
  intros Hc H. unfold place_sections in H. case_bool_decide as Ha; [done|].
  injection H as <-. simpl. unfold slots_ok, u32_max in Hc.
  revert Ha. unfold sizeof_SharedMemoryHeader, sizeof_SlotRWState, SLOT_CHECKSUM_ENTRY_SIZE.
  rewrite (u64_id (count * 64)) by (unfold u64_max, u64_modulus; lia).
  assert ((if unset then 0 else u64 (count * 33)) = if unset then 0 else count * 33) as ->
    by (destruct unset; [done|apply u64_id; unfold u64_max, u64_modulus; lia]).
  set (cks := if unset then 0 else count * 33).
  assert (0 ≤ cks ≤ count * 33) by (subst cks; destruct unset; lia).
  rewrite (u64_id (count * 64 + cks)), (u64_id (4096 + count * 64)),
    (u64_id (4096 + (count * 64 + cks))) by (unfold u64_max, u64_modulus; lia).
  pose proof (page_align_bounds (4096 + (count * 64 + cks)) ltac:(lia)
                ltac:(unfold u64_max, u64_modulus; lia)).
  pose proof (page_align_mod (4096 + (count * 64 + cks))).
  intros Ha. repeat split; try done; try lia.
Qed.

(** The check passes whenever the flexible zone has a page-aligned size. *)
Lemma place_sections_validates count unset flexible stride page ring l :
  slots_ok count → flexible mod PAGE_ALIGNMENT = 0 →
  place_sections count unset flexible stride page ring = Some l → validate l = true.
Proof.
  intros Hc Hf H. pose proof Hc as Hc'. unfold slots_ok, u32_max in Hc'.
  destruct (place_sections_control _ _ _ _ _ _ _ Hc H)
    as (Hn & _ & Hfs & Hbs & _ & Ho & Hs & Hco & Hcs & Hb & Ham & Hbo & Hbm & Ht).
  assert (0 ≤ slot_checksum_size l ≤ count * 33) by (rewrite Hcs; destruct unset; lia).
  unfold validate, sizeof_SharedMemoryHeader.
  rewrite Ho, Hs, Hco, Ham, Hfs, Hf, Hbm, Hbs in *.
  rewrite (u64_id (4096 + count * 64)), (u64_id (4096 + count * 64 + slot_checksum_size l))
    by (unfold u64_max, u64_modulus; lia).
  rewrite <- Hbo, <- Ht, !Z.eqb_refl. simpl.
  rewrite ?andb_true_r. apply Z.leb_le. lia.
Qed.

(** The layout computed from any configuration exists and passes the
    debug check, whether or not its sums overflow: the assertion on it can
    never fire, and cannot detect a size that wrapped. *)
Theorem layout_always_validates c :
  config_widths c → ∃ l, from_config c = Some l ∧ validate l = true.
Proof.
  intros Hw. pose proof (config_slots_ok c Hw) as Hs.
  pose proof (page_align_mod (cfg_flex_zone_size c)) as Hf.
  destruct (place_sections_defined (config_slots c)
              (bool_decide (cfg_checksum_type c = ChecksumUnset)) _
              (effective_logical_unit_size c) (to_bytes (cfg_physical_page_size c))
              (structured_buffer_size c) Hs Hf) as [l Hl].
  exists l. split; [done|]. by eapply place_sections_validates.
Qed.

(** ** Sections one after the other *)

Lemma effective_unit_bounds c :
  config_widths c → cfg_logical_unit_size c + 63 ≤ u64_max →
  0 ≤ effective_logical_unit_size c ∧
  (cfg_logical_unit_size c ≤ effective_logical_unit_size c) ∧
  effective_logical_unit_size c ≤ Z.max (cfg_logical_unit_size c + 63) 16777216 ∧
  (cfg_logical_unit_size c ≠ 0 ∨ cfg_physical_page_size c ≠ PageUnset →
   0 < effective_logical_unit_size c).
Proof.
  intros [Hl _ _] Hm. unfold effective_logical_unit_size. case_match eqn:E.
  - apply Z.eqb_eq in E. rewrite E. destruct (cfg_physical_page_size c); simpl; naive_solver lia.
  - apply Z.eqb_neq in E. rewrite line_power.
    pose proof (align_up_bounds 6 (cfg_logical_unit_size c) ltac:(lia) ltac:(lia) ltac:(lia)).
    lia.
Qed.

(** The bytes a configuration asks for, padding included, as a number that
    cannot wrap. *)
Definition footprint (c : DataBlockConfig) : Z :=
  4096 + config_slots c * 97 + cfg_flex_zone_size c +
  config_slots c * Z.max (cfg_logical_unit_size c + 63) 16777216 + 3 * 4096.

Definition slot_offset (l : DataBlockLayout) (i : Z) : Z :=
  structured_buffer_offset l + i * slot_stride_bytes l.

(** Every section ends before the next begins, and the slots tile the ring. *)
Record well_placed (l : DataBlockLayout) : Prop := mkWellPlaced {
  wp_count : slots_ok (slot_count l);
  wp_stride : 0 ≤ slot_stride_bytes l;
  wp_rw : slot_rw_state_offset l = 4096 ∧ slot_rw_state_size l = slot_count l * 64;
  wp_cks : slot_checksum_offset l = slot_rw_state_offset l + slot_rw_state_size l;
  wp_cks_size : slot_checksum_size l = 0 ∨ slot_checksum_size l = slot_count l * 33;
  wp_flex : slot_checksum_offset l + slot_checksum_size l ≤ flex_offset l;
  wp_flex_size : 0 ≤ flex_size l;
  wp_buf : structured_buffer_offset l = flex_offset l + flex_size l;
  wp_ring : buffer_size l = slot_count l * slot_stride_bytes l;
  wp_total : structured_buffer_offset l + buffer_size l ≤ total_size l ≤ u64_max;
}.

Lemma place_sections_well_placed count unset flexible stride page l :
  slots_ok count → 0 ≤ flexible → 0 ≤ stride →
  4096 + count * 97 + flexible + count * stride + 2 * 4096 ≤ u64_max →
  place_sections count unset flexible stride page (u64 (count * stride)) = Some l →
  well_placed l.
Proof.
  intros Hc Hf Hs Hfit H. pose proof Hc as Hc'. unfold slots_ok, u32_max in Hc'.
  assert (0 ≤ count * stride) by (apply Z.mul_nonneg_nonneg; lia).
  destruct (place_sections_control _ _ _ _ _ _ _ Hc H)
    as (Hn & Hst & Hfs & Hbs & _ & Ho & Hrs & Hco & Hcs & Hb & Ham & Hbo & Hbm & Ht).
  assert (0 ≤ slot_checksum_size l ≤ count * 33) by (rewrite Hcs; destruct unset; lia).
  rewrite (u64_id (count * stride)) in * by lia.
  rewrite (u64_id (flex_offset l + flexible)) in Hbo by lia.
  rewrite (u64_id (structured_buffer_offset l + count * stride)) in Ht by lia.
  pose proof (page_align_bounds (structured_buffer_offset l + count * stride)
                ltac:(lia) ltac:(lia)).
  split; rewrite ?Hn, ?Hst, ?Hrs, ?Hfs, ?Hbs, ?Ho; try done; try lia.
  rewrite Hcs. destruct unset; auto.
Qed.

Lemma stride_step i j s : 0 ≤ s → i < j → i * s + s ≤ j * s.
Proof.
  intros Hs Hij. replace (i * s + s) with ((i + 1) * s) by lia.
  apply Z.mul_le_mono_nonneg_r; lia.
Qed.

Lemma config_well_placed c l :
  config_widths c → footprint c ≤ u64_max → from_config c = Some l → well_placed l.
Proof.
  intros Hw Hfit Hl. pose proof (config_slots_ok c Hw) as Hc.
  unfold slots_ok, u32_max in Hc. destruct (id Hw) as [Hlw Hcw Hfw].
  unfold footprint in Hfit.
  assert (1 * Z.max (cfg_logical_unit_size c + 63) 16777216 ≤
          config_slots c * Z.max (cfg_logical_unit_size c + 63) 16777216)
    by (apply Z.mul_le_mono_nonneg_r; lia).
  destruct (effective_unit_bounds c Hw ltac:(lia)) as (He0 & Hel & Heu & _).
  pose proof (page_align_bounds (cfg_flex_zone_size c) ltac:(lia) ltac:(lia)).
  assert (config_slots c * effective_logical_unit_size c ≤
          config_slots c * Z.max (cfg_logical_unit_size c + 63) 16777216)
    by (apply Z.mul_le_mono_nonneg_l; lia).
  eapply place_sections_well_placed; [by apply config_slots_ok| | | |exact Hl]; lia.
Qed.

Lemma config_sizes c :
  config_widths c → footprint c ≤ u64_max →
  cfg_logical_unit_size c + 63 ≤ u64_max ∧ cfg_flex_zone_size c + 4095 ≤ u64_max.
Proof.
  intros Hw Hfit. pose proof (config_slots_ok c Hw) as Hc. unfold slots_ok, u32_max in Hc.
  destruct (id Hw) as [Hlw Hcw Hfw]. unfold footprint in Hfit.
  assert (1 * Z.max (cfg_logical_unit_size c + 63) 16777216 ≤
          config_slots c * Z.max (cfg_logical_unit_size c + 63) 16777216)
    by (apply Z.mul_le_mono_nonneg_r; lia). lia.
Qed.

(** C32 As long as the bytes a configuration asks for fit [size_t], the
    computed sections (header, slot states, checksums, flexible zone, slots)
    follow one another without overlap and end inside the segment; every slot
    index below the count has a buffer of one stride inside the ring, which
    is at least the size the configuration asked for, and two slots never
    share a byte. *)
Theorem layout_sections_disjoint c l :
  config_widths c → footprint c ≤ u64_max → from_config c = Some l →
  well_placed l ∧
  cfg_flex_zone_size c ≤ flex_size l ∧
  cfg_logical_unit_size c ≤ slot_stride_bytes l ∧
  (∀ i, 0 ≤ i < slot_count l →
     slot_ptr l i = Some (slot_offset l i) ∧
     structured_buffer_offset l ≤ slot_offset l i ∧
     slot_offset l i + slot_stride_bytes l ≤ total_size l ∧
     ∀ j, 0 ≤ j < i → slot_offset l j + slot_stride_bytes l ≤ slot_offset l i).
Proof.
  intros Hw Hfit Hl. pose proof (config_well_placed c l Hw Hfit Hl) as Hwp.
  destruct (config_sizes c Hw Hfit) as [Hlm Hfm]. destruct (id Hw) as [Hlw Hcw Hfw].
  destruct (effective_unit_bounds c Hw Hlm) as (He0 & Hel & _).
  pose proof (page_align_bounds (cfg_flex_zone_size c) ltac:(lia) ltac:(lia)).
  destruct (place_sections_control _ _ _ _ _ _ _ (config_slots_ok c Hw) Hl)
    as (Hn & Hst & Hfs & _).
  split; [done|]. split; [rewrite Hfs; lia|]. split; [rewrite Hst; lia|].
  destruct Hwp as [[Hc1 Hc2] Hs0 [Hrw Hrs] Hck Hcks Hfx Hfx0 Hbuf Hring [Ht1 Ht2]].
  intros i Hi. unfold slot_offset, slot_ptr. rewrite (proj2 (Z.leb_gt _ _)) by lia.
  pose proof (stride_step i (slot_count l) _ Hs0 (proj2 Hi)).
  assert (0 ≤ i * slot_stride_bytes l) by (apply Z.mul_nonneg_nonneg; lia).
  assert (0 ≤ slot_checksum_size l) by lia.
  rewrite u64_id by lia. split; [done|]. split; [lia|]. split; [lia|].
  intros j Hj. pose proof (stride_step j i _ Hs0 (proj2 Hj)). lia.
Qed.

Definition config_sample : DataBlockConfig :=
  default_config <| cfg_physical_page_size := Size4K |> <| cfg_logical_unit_size := 100 |>
    <| cfg_ring_buffer_capacity := 3 |> <| cfg_policy := RingBuffer |>
    <| cfg_consumer_sync_policy := Sequential |> <| cfg_flex_zone_size := 5000 |>.

Lemma config_sample_widths : config_widths config_sample.
Proof. split; vm_compute; split; discriminate. Qed.

Lemma layout_always_validates_witness :
  config_widths config_sample ∧
  ∃ l, from_config config_sample = Some l ∧ validate l = true.
Proof. split; [exact config_sample_widths|]. exact (layout_always_validates _ config_sample_widths). Defined.

Definition layout_sample : DataBlockLayout :=
  mkLayout 4096 192 4288 99 8192 8192 16384 384 20480 128 4096 3.

Lemma layout_sections_disjoint_witness :
  from_config config_sample = Some layout_sample ∧
  slot_offset layout_sample 1 + 128 ≤ slot_offset layout_sample 2.
Proof.
  split; [vm_compute; reflexivity|].
  destruct (layout_sections_disjoint config_sample layout_sample config_sample_widths
              ltac:(vm_compute; discriminate) ltac:(vm_compute; reflexivity))
    as (_ & _ & _ & H).
  destruct (H 2 ltac:(vm_compute; split; [discriminate|reflexivity])) as (_ & _ & _ & Hj).
  apply (Hj 1). lia.
Defined.

(** ** Where the sizes wrap *)

(** A slot size within 63 bytes of [SIZE_MAX] rounds up to a stride of zero:
    the layout is accepted with an empty ring. *)
Example huge_unit_rounds_to_zero :
  let c := config_sample <| cfg_logical_unit_size := u64_max |> in
  effective_logical_unit_size c = 0 ∧ (buffer_size <$> from_config c) = Some 0.
Proof. vm_compute. done. Qed.

(** A flexible zone of that size rounds up to none at all. *)
Example huge_flexible_zone_vanishes :
  (flex_size <$> from_config (config_sample <| cfg_flex_zone_size := u64_max |>)) = Some 0.
Proof. vm_compute. done. Qed.

End Layout.

Import ShmHeader Layout.

(** * The layout of a slot's fields

    Models [src/include/utils/schema_field_layout.hpp]: the offsets and the
    total size computed from a list of typed fields and a packing, which every
    queue uses for the size of its items, and [align_to_physical_page] of
    [schema_utils.hpp].  Proves that the fields follow one another without
    overlap, each at its natural alignment unless packed, inside the total
    size. *)
Module FieldLayout.

Record SchemaFieldDesc := mkField { type_str : string; count : Z; flength : Z }.
Record FieldLayout := mkFieldLayout {
  offset : Z; byte_size : Z; ftype : string; is_bin : bool }.

Definition is_valid_type_str (t : string) : bool :=
  (t =s "bool") || (t =s "int8") || (t =s "uint8") || (t =s "int16") || (t =s "uint16") ||
  (t =s "int32") || (t =s "uint32") || (t =s "int64") || (t =s "uint64") || (t =s "float32") ||
  (t =s "float64") || (t =s "string") || (t =s "bytes").

Definition field_elem_size (t : string) : Z :=
  if (t =s "bool") || (t =s "int8") || (t =s "uint8") then 1
  else if (t =s "int16") || (t =s "uint16") then 2
  else if (t =s "int32") || (t =s "uint32") || (t =s "float32") then 4
  else if (t =s "int64") || (t =s "uint64") || (t =s "float64") then 8
  else 1.

Definition field_align (t : string) : Z :=
  if (t =s "string") || (t =s "bytes") then 1 else field_elem_size t.

Definition is_blob (f : SchemaFieldDesc) : bool :=
  (type_str f =s "string") || (type_str f =s "bytes").

Definition align_of (packed : bool) (f : SchemaFieldDesc) : Z :=
  if packed || is_blob f then 1 else field_align (type_str f).
Definition size_of (f : SchemaFieldDesc) : Z :=
  if is_blob f then flength f else u64 (field_elem_size (type_str f) * count f).

(** The loop: [offset] and [max_align] so far. *)
Fixpoint field_loop (packed : bool) (off max_align : Z) (fields : list SchemaFieldDesc) :
    list FieldLayout * Z * Z :=
  match fields with
  | [] => ([], off, max_align)
  | f :: fields =>
      let align := align_of packed f in
      let o := if 1 <? align then align_up align off else off in
      let '(rest, off', max') :=
        field_loop packed (u64 (o + size_of f)) (Z.max max_align align) fields in
      (mkFieldLayout o (size_of f) (type_str f) (is_blob f || (1 <? count f)) :: rest, off', max')
  end.

Definition compute_field_layout (fields : list SchemaFieldDesc) (packing : string) :
    list FieldLayout * Z :=
  let packed := packing =s "packed" in
  let '(result, off, max_align) := field_loop packed 0 1 fields in
  (result, if negb packed && (1 <? max_align) then align_up max_align off else off).

Definition align_to_physical_page (logical_size : Z) : Z :=
  if logical_size =? 0 then 0 else align_up PAGE_ALIGNMENT logical_size.

(** ** Facts *)

(** [count] and [length] are [uint32_t]. *)
Definition field_widths (f : SchemaFieldDesc) : Prop :=
  0 ≤ count f ≤ u32_max ∧ 0 ≤ flength f ≤ u32_max.

Lemma elem_size_cases t :
  field_elem_size t = 1 ∨ field_elem_size t = 2 ∨ field_elem_size t = 4 ∨ field_elem_size t = 8.
Proof. unfold field_elem_size. repeat case_match; auto. Qed.

Lemma align_of_power packed f : ∃ k, 0 ≤ k ≤ 3 ∧ align_of packed f = 2 ^ k.
Proof.
  assert (∃ k, 0 ≤ k ≤ 3 ∧ 1 = 2 ^ k) as H1 by (by exists 0).
  unfold align_of, field_align. do 2 (case_match; [done|]).
  destruct (elem_size_cases (type_str f)) as [-> | [-> | [-> | ->]]];
    [by exists 0|by exists 1|by exists 2|by exists 3].
Qed.

Lemma size_of_bounds f : field_widths f → 0 ≤ size_of f ≤ 8 * u32_max.
Proof.
  intros [Hc Hl]. unfold size_of. case_match; [lia|].
  destruct (elem_size_cases (type_str f)) as [-> | [-> | [-> | ->]]];
    rewrite u64_id; unfold u64_max, u64_modulus, u32_max in *; lia.
Qed.

(** Consecutive fields: each starts at or after the end of the one before, at
    a multiple of its alignment, less than one alignment further. *)
Inductive follows (packed : bool) : Z → list SchemaFieldDesc → list FieldLayout → Z → Prop :=
  | follows_nil off : follows packed off [] [] off
  | follows_cons off f fields l rest off' :
      off ≤ offset l < off + align_of packed f →
      (offset l) mod align_of packed f = 0 →
      byte_size l = size_of f → ftype l = type_str f →
      is_bin l = is_blob f || (1 <? count f) →
      follows packed (offset l + byte_size l) fields rest off' →
      follows packed off (f :: fields) (l :: rest) off'.

Lemma field_loop_follows packed fields off max_align :
  Forall field_widths fields → 0 ≤ off →
  off + Z.of_nat (length fields) * (8 * u32_max + 8) ≤ u64_max →
  ∃ l off' max', field_loop packed off max_align fields = (l, off', max') ∧
    follows packed off fields l off' ∧
    off ≤ off' ≤ off + Z.of_nat (length fields) * (8 * u32_max + 8).
Proof.
  intros Hw. unfold u32_max. revert off max_align. induction Hw as [|f fields Hf Hw IH]; intros off ma Ho Hm.
  { exists [], off, ma. split; [done|]. split; [constructor|simpl; lia]. }
  cbn [length] in Hm. rewrite Nat2Z.inj_succ, Z.mul_succ_l in Hm. simpl.
  pose proof (size_of_bounds f Hf) as Hs. unfold u32_max in Hs.
  destruct (align_of_power packed f) as (k & Hk & Ha).
  assert (2 ^ k ≤ 8) by (apply (Z.pow_le_mono_r 2 k 3); lia).
  assert (0 < 2 ^ k) by (apply Z.pow_pos_nonneg; lia).
  assert (∃ o, (if 1 <? align_of packed f then align_up (align_of packed f) off else off) = o ∧
               off ≤ o < off + 2 ^ k ∧ o mod 2 ^ k = 0) as (o & -> & Hob & Hom).
  { rewrite Ha. case_match eqn:E.
    - exists (align_up (2 ^ k) off). split; [done|].
      split; [apply align_up_bounds; lia|apply align_up_mod; lia].
    - apply Z.ltb_ge in E. exists off. replace (2 ^ k) with 1 by lia.
      rewrite Z.mod_1_r. split; [done|]. split; [lia|done]. }
  rewrite u64_id by lia.
  destruct (IH (o + size_of f) (Z.max ma (align_of packed f)) ltac:(lia) ltac:(lia))
    as (l & off' & max' & -> & Hfo & Hb).
  eexists _, off', max'. split; [done|]. split; [|lia].
  econstructor; simpl; rewrite ?Ha; done || lia.
Qed.

Lemma follows_end packed off fields l off' :
  Forall field_widths fields → follows packed off fields l off' → off ≤ off'.
Proof.
  intros Hw H. induction H; [lia|]. inversion_clear Hw.
  pose proof (size_of_bounds f ltac:(done)). specialize (IHfollows ltac:(done)). lia.
Qed.

Lemma follows_fields packed off fields l off' i fl :
  Forall field_widths fields → follows packed off fields l off' → l !! i = Some fl →
  off ≤ offset fl ∧ 0 ≤ byte_size fl ∧ offset fl + byte_size fl ≤ off' ∧
  (∃ f, fields !! i = Some f ∧ byte_size fl = size_of f ∧ offset fl mod align_of packed f = 0 ∧
        ftype fl = type_str f ∧ is_bin fl = is_blob f || (1 <? count f)) ∧
  ∀ j fl', (j < i)%nat → l !! j = Some fl' → offset fl' + byte_size fl' ≤ offset fl.
Proof.
  intros Hw H. revert i fl Hw. induction H as [|off f fields l rest off' Hb Hm Hs Ht Hbin H IH];
    intros i fl Hw Hi; [by rewrite lookup_nil in Hi|].
  inversion_clear Hw as [|?? Hf Hw']. pose proof (size_of_bounds f Hf) as Hsz.
  pose proof (follows_end _ _ _ _ _ Hw' H). destruct i as [|i]; simpl in Hi.
  - injection Hi as <-. split; [lia|]. split; [lia|]. split; [lia|].
    split; [by exists f|]. intros j ? Hj. lia.
  - destruct (IH i fl Hw' Hi) as (Ho & Hp & He & Hex & Hj).
    split; [lia|]. split; [done|]. split; [done|]. split; [done|].
    intros [|j] fl' Hlt Hl'; simpl in Hl'; [by injection Hl' as <-|]. eapply Hj; [|done]. by apply Nat.succ_lt_mono.
Qed.

(** The bound that keeps [size_t] sums exact: far more fields than a schema
    can have. *)
Definition fields_fit (fields : list SchemaFieldDesc) : Prop :=
  Z.of_nat (length fields) * (8 * u32_max + 8) + 8 ≤ u64_max.

Lemma field_loop_max packed off ma fields l off' max' :
  field_loop packed off ma fields = (l, off', max') → (∃ k, 0 ≤ k ≤ 3 ∧ ma = 2 ^ k) →
  ∃ k, 0 ≤ k ≤ 3 ∧ max' = 2 ^ k.
Proof.
  revert off ma l off'. induction fields as [|f fields IH]; intros off ma l off'; simpl.
  { intros [= _ _ <-]. done. }
  destruct (field_loop _ _ _ fields) as [[rest o] m] eqn:E. intros [= _ _ <-] Hma.
  eapply IH; [exact E|]. destruct (align_of_power packed f) as (k & Hk & ->).
  destruct Hma as (k' & Hk' & ->). destruct (Z.max_spec (2 ^ k') (2 ^ k)) as [[_ ->]|[_ ->]]; eauto.
Qed.

(** What the layout says of its field [i]. *)
Lemma computed_field fields packing l total i fl :
  Forall field_widths fields → fields_fit fields →
  compute_field_layout fields packing = (l, total) → l !! i = Some fl →
  0 ≤ offset fl ∧ 0 ≤ byte_size fl ∧ offset fl + byte_size fl ≤ total ∧
  (∃ f, fields !! i = Some f ∧ byte_size fl = size_of f ∧
        offset fl mod align_of (packing =s "packed") f = 0 ∧
        ftype fl = type_str f ∧ is_bin fl = is_blob f || (1 <? count f)) ∧
  ∀ j fl', (j < i)%nat → l !! j = Some fl' → offset fl' + byte_size fl' ≤ offset fl.
Proof.
  intros Hw Hfit Hc Hi. unfold compute_field_layout, fields_fit in *.
  pose proof Hfit as Hfit'. unfold u32_max in Hfit'.
  destruct (field_loop_follows (packing =s "packed") fields 0 1 Hw ltac:(lia) ltac:(lia))
    as (l' & off' & max' & E & Hfo & Hb). unfold u32_max in Hb. rewrite E in Hc. injection Hc as <- <-.
  destruct (follows_fields _ _ _ _ _ _ _ Hw Hfo Hi) as (Ho & Hp & He & Hf & Hj).
  split; [done|]. split; [done|]. split; [|done].
  case_match; [|done].
  destruct (field_loop_max _ _ _ _ _ _ _ E ltac:(by exists 0)) as (k & Hk & ->).
  assert (2 ^ k ≤ 8) by (apply (Z.pow_le_mono_r 2 k 3); lia).
  pose proof (align_up_bounds k off' ltac:(lia) ltac:(lia) ltac:(lia)). lia.
Qed.

(** For any list of fields whose sizes fit [size_t], every field of the
    computed layout lies inside the total size at a multiple of its natural
    alignment (of 1 when packed), has the size of its type times its count or
    its declared length, and starts no earlier than the end of every field
    before it. *)
Theorem field_layout_disjoint fields packing l total i fl :
  Forall field_widths fields → fields_fit fields →
  compute_field_layout fields packing = (l, total) → l !! i = Some fl →
  0 ≤ offset fl ∧ 0 ≤ byte_size fl ∧ offset fl + byte_size fl ≤ total ∧
  (∃ f, fields !! i = Some f ∧ byte_size fl = size_of f ∧
        offset fl mod align_of (packing =s "packed") f = 0) ∧
  ∀ j fl', (j < i)%nat → l !! j = Some fl' → offset fl' + byte_size fl' ≤ offset fl.
Proof. intros Hw Hfit Hc Hi. destruct (computed_field _ _ _ _ _ _ Hw Hfit Hc Hi) as (? & ? & ? & ? & ?). naive_solver. Qed.

Definition sample_fields : list SchemaFieldDesc :=
  [mkField "uint8" 1 0; mkField "float64" 3 0; mkField "string" 1 5; mkField "int16" 1 0].

Lemma sample_fields_widths : Forall field_widths sample_fields.
Proof. unfold sample_fields. rewrite !Forall_cons, Forall_nil. unfold field_widths, u32_max. simpl. lia. Qed.

Lemma field_layout_disjoint_witness :
  compute_field_layout sample_fields "aligned" =
    ([mkFieldLayout 0 1 "uint8" false; mkFieldLayout 8 24 "float64" true;
      mkFieldLayout 32 5 "string" true; mkFieldLayout 38 2 "int16" false], 40) ∧
  38 + 2 ≤ 40.
Proof.
  split; [vm_compute; reflexivity|].
  apply (field_layout_disjoint sample_fields "aligned" _ 40 3 (mkFieldLayout 38 2 "int16" false)
           sample_fields_widths ltac:(vm_compute; discriminate)
           ltac:(vm_compute; reflexivity) ltac:(vm_compute; reflexivity)).
Defined.

End FieldLayout.
