(* ===== verification/Segment.v ===== *)
(** * Segments of shared memory: creation, attachment, checksums

    Models [DataBlock] and the factory functions of
    [src/utils/shm/data_block.cpp]: the constructors by name and by descriptor,
    [init_producer_state_] in the order of its stores, [attach_consumer_state_],
    the destructor, the checksums of slots and of the flexible zone, the
    registration of consumers, [create_datablock_producer_impl],
    [find_datablock_consumer_impl], [attach_datablock_as_writer_impl] and their
    descriptor versions, and the shared-memory calls of [platform.cpp] they use.

    The operating system's objects outlive their names: a name points to a
    segment, and a handle keeps its segment after the name is removed or given
    to another one.  The header and the slot states of a segment are records;
    the other bytes are addressed by their offset, and memory never written
    reads as zero.  A call is one step, except that creation can be observed at
    the point where the magic number becomes visible. *)

From S2P Require Import Prelude.
From S2P Require SlotRW.
From S2P Require Import ShmHeader.
From S2P Require Import Layout.
Import ShmHeader Layout.

Module Segment.

Definition SlotRWState := SlotRW.SlotRW.SlotRWState.
Definition free_slot : SlotRWState := SlotRW.SlotRW.mkSlotRWState 0 0 SlotRW.SlotRW.FREE 0 0.

(** ** Memory *)

Record Memory := mkMemory {
  seg_size : Z;
  head : SharedMemoryHeader;
  slot_states : gmap Z SlotRWState;
  data : gmap Z Z;
}.
#[global] Instance eta_memory : Eta Memory := λ r,
  mkMemory (seg_size r) (head r) (slot_states r) (data r).

(** What [ftruncate] leaves. *)
Definition zero_memory (size : Z) : Memory := mkMemory size zero_header ∅ ∅.

Definition slot_state_at (m : Memory) (i : Z) : SlotRWState := default free_slot (slot_states m !! i).

Definition load (m : Memory) (off len : Z) : list Z :=
  (λ k, default 0 (data m !! (off + Z.of_nat k))) <$> seq 0 (Z.to_nat len).

Fixpoint store_at (off : Z) (bs : list Z) (d : gmap Z Z) : gmap Z Z :=
  match bs with [] => d | b :: bs => store_at (off + 1) bs (<[off := b]> d) end.

Definition store (off : Z) (bs : list Z) (m : Memory) : Memory := m <| data ::= store_at off bs |>.

Definition on_head (f : SharedMemoryHeader → SharedMemoryHeader) (m : Memory) : Memory :=
  m <| head ::= f |>.
Definition on_metrics (f : Metrics → Metrics) : Memory → Memory := on_head (λ h, h <| metrics ::= f |>).

(** ** The operating system *)

(** [maps_shm name size]: the calls that create or map a segment succeed. *)
Record Os := mkOs {
  platform : SlotRW.SlotRW.Platform;
  get_pid : Z;
  maps_shm : string → Z → bool;
}.
Definition now (os : Os) : Z := SlotRW.SlotRW.monotonic_time_ns (platform os).

(** [names] are the names of shared memory, [fds] the open descriptors of
    anonymous segments, [ready] is [g_datablock_ready]. *)
Record World := mkWorld {
  ready : bool;
  names : gmap string nat;
  fds : gmap Z nat;
  segments : gmap nat Memory;
}.
#[global] Instance eta_world : Eta World := λ r, mkWorld (ready r) (names r) (fds r) (segments r).

Inductive exn := invalid_argument | runtime_error | logic_error.

(** [UnmappedRead]: the code reads through a pointer into memory it has
    unmapped. *)
Inductive Outcome (A : Type) := Ok (a : A) | Throws (e : exn) | UnmappedRead.
Arguments Ok {_} _.
Arguments Throws {_} _.
Arguments UnmappedRead {_}.

Definition M (A : Type) : Type := World → Outcome A * World.
Definition M_ret {A} (a : A) : M A := λ w, (Ok a, w).
Definition M_bind {A B} (f : A → M B) (x : M A) : M B := λ w,
  match x w with
  | (Ok a, w) => f a w
  | (Throws e, w) => (Throws e, w)
  | (UnmappedRead, w) => (UnmappedRead, w)
  end.
#[global] Instance M_mret : MRet M := @M_ret.
#[global] Instance M_mbind : MBind M := @M_bind.

Definition throw {A} (e : exn) : M A := λ w, (Throws e, w).
Definition crash {A} : M A := λ w, (UnmappedRead, w).
Definition guard_or (e : exn) (ok : bool) : M unit := if ok then mret () else throw e.

(** Reading and updating the memory behind a handle. *)
Definition memory_of (id : nat) (w : World) : Memory := default (zero_memory 0) (segments w !! id).
Definition peek {A} (id : nat) (f : Memory → A) : M A := λ w, (Ok (f (memory_of id w)), w).
Definition poke (id : nat) (f : Memory → Memory) : M unit :=
  λ w, (Ok (), w <| segments ::= alter f id |>).

Definition shm_unlink (name : string) : M unit := λ w, (Ok (), w <| names ::= delete name |>).

(** With [SHM_CREATE_UNLINK_FIRST]; [None] is a null handle. *)
Definition shm_create (os : Os) (name : string) (size : Z) : M (option nat) := λ w,
  if size =? 0 then (Ok None, w)
  else
    let w := w <| names ::= delete name |> in
    if maps_shm os name size then
      let id := fresh (dom (segments w)) in
      (Ok (Some id), w <| names ::= <[name := id]> |> <| segments ::= <[id := zero_memory size]> |>)
    else (Ok None, w).

Definition shm_attach (os : Os) (name : string) : M (option nat) := λ w,
  match names w !! name with
  | Some id => (Ok (if maps_shm os name (seg_size (memory_of id w)) then Some id else None), w)
  | None => (Ok None, w)
  end.

(** ** Data blocks *)

Inductive DataBlockOpenMode := Create | WriteAttach | ReadAttach.
#[global] Instance DataBlockOpenMode_eq_dec : EqDecision DataBlockOpenMode.
Proof. solve_decision. Defined.

Record DataBlock := mkDataBlock {
  m_name : string;
  m_open_mode : DataBlockOpenMode;
  m_shm : nat;
  m_layout : DataBlockLayout;
  m_should_unlink_name : bool;
}.

Section with_crypto.
Context `{!Crypto}.

(** The guards of the two creating constructors. *)
Definition check_config (c : DataBlockConfig) : M unit :=
  guard_or invalid_argument (bool_decide (cfg_policy c ≠ PolicyUnset));;
  guard_or invalid_argument (bool_decide (cfg_consumer_sync_policy c ≠ SyncUnset));;
  guard_or invalid_argument (bool_decide (cfg_physical_page_size c ≠ PageUnset));;
  guard_or invalid_argument (bool_decide (cfg_ring_buffer_capacity c ≠ 0));;
  guard_or invalid_argument (bool_decide (cfg_checksum_type c ≠ ChecksumUnset)).

(** [init_producer_state_] up to the check of the unit size. *)
Definition stamp_identity (c : DataBlockConfig) (size : Z) : SharedMemoryHeader :=
  zero_header <| version_major := HEADER_VERSION_MAJOR |> <| version_minor := HEADER_VERSION_MINOR |>
    <| total_block_size := size |> <| policy := cfg_policy c |>
    <| consumer_sync_policy := cfg_consumer_sync_policy c |>
    <| physical_page_size := to_bytes (cfg_physical_page_size c) mod 2 ^ 32 |>.

(** From there to the store of the magic number. *)
Definition stamp_config (os : Os) (c : DataBlockConfig) (l : DataBlockLayout)
    (h : SharedMemoryHeader) : SharedMemoryHeader :=
  h <| logical_unit_size := effective_logical_unit_size c |>
    <| ring_buffer_capacity := cfg_ring_buffer_capacity c |>
    <| flexible_zone_size := flex_size l mod 2 ^ 32 |>
    <| checksum_type := checksum_code (cfg_checksum_type c) |>
    <| checksum_policy := cfg_checksum_policy c |>
    <| write_index := 0 |> <| commit_index := INVALID_SLOT_ID |> <| read_index := 0 |>
    <| active_consumer_count := 0 |>
    <| metrics ::= λ m, m <| creation_timestamp_ns := now os |> |>
    <| magic_number := DATABLOCK_MAGIC_NUMBER |>.

Definition reset_slot_states (count : Z) (st : gmap Z SlotRWState) : gmap Z SlotRWState :=
  filter (λ kv, ¬ (0 ≤ kv.1 < count)) st.

(** The memory other processes can see as soon as the magic number is there. *)
Definition published (os : Os) (c : DataBlockConfig) (l : DataBlockLayout) (m : Memory) : Memory :=
  m <| head := stamp_config os c l (stamp_identity c (total_size l)) |>
    <| slot_states ::= reset_slot_states (slot_count l) |>.

Definition update_producer_heartbeat_impl (os : Os) (h : SharedMemoryHeader) : SharedMemoryHeader :=
  h <| producer_heartbeat_id := get_pid os |> <| producer_heartbeat_ns := now os |>.

(** The stores after the magic number; [None] is [store_layout_checksum]
    throwing. *)
Definition seal (os : Os) (h : SharedMemoryHeader) : option SharedMemoryHeader :=
  let h := h <| header_layout_hash := schema_hash get_shared_memory_header_schema_info |> in
  update_producer_heartbeat_impl os <$> store_layout_checksum h.

Definition init_producer_state_ (os : Os) (id : nat) (c : DataBlockConfig) (l : DataBlockLayout) : M unit :=
  poke id (λ m, m <| head := stamp_identity c (total_size l) |>);;
  guard_or invalid_argument (effective_logical_unit_size c <=? u32_max);;
  poke id (published os c l);;
  h ← peek id head;
  match seal os h with
  | Some h => poke id (λ m, m <| head := h |>)
  | None => poke id (on_head (λ h,
              h <| header_layout_hash := schema_hash get_shared_memory_header_schema_info |>));;
            throw runtime_error
  end.

Definition layout_or_throw (l : option DataBlockLayout) : M DataBlockLayout :=
  match l with Some l => mret l | None => throw logic_error end.

(** [DataBlock(name, config)]. *)
Definition DataBlock_create (os : Os) (name : string) (c : DataBlockConfig) : M DataBlock :=
  check_config c;;
  l ← layout_or_throw (from_config c);
  shm ← shm_create os name (total_size l);
  match shm with
  | None => throw runtime_error
  | Some id => init_producer_state_ os id c l;; mret (mkDataBlock name Create id l true)
  end.

(** [setup_shm_from_fd_]: duplicating and mapping a descriptor. *)
Definition setup_shm_from_fd_ (os : Os) (source_fd expected_size : Z) : M nat := λ w,
  if source_fd <? 0 then (Throws runtime_error, w)
  else
    match fds w !! source_fd with
    | None => (Throws runtime_error, w)
    | Some id =>
        let fd_size := seg_size (memory_of id w) in
        if bool_decide (expected_size ≠ 0) && bool_decide (fd_size ≠ expected_size)
        then (Throws runtime_error, w)
        else if maps_shm os "" fd_size then (Ok id, w) else (Throws runtime_error, w)
    end.

(** [DataBlock(logical_name, config, source_fd, tag)]. *)
Definition DataBlock_create_from_fd (os : Os) (logical_name : string) (c : DataBlockConfig)
    (source_fd : Z) : M DataBlock :=
  check_config c;;
  l ← layout_or_throw (from_config c);
  id ← setup_shm_from_fd_ os source_fd (total_size l);
  init_producer_state_ os id c l;;
  mret (mkDataBlock logical_name Create id l false).

(** [attach_consumer_state_]: on a version or size mismatch the message is
    formatted from the header after the segment has been unmapped. *)
Definition attach_consumer_state_ (id : nat) : M DataBlockLayout :=
  m ← peek id (λ m, m);
  let h := head m in
  if negb (is_header_magic_valid h) then throw runtime_error
  else if bool_decide (version_major h ≠ HEADER_VERSION_MAJOR)
          || (HEADER_VERSION_MINOR <? version_minor h) then crash
  else if bool_decide (seg_size m ≠ total_block_size h) then crash
  else layout_or_throw (from_header h).

Definition DataBlock_attach (os : Os) (name : string) (mode : DataBlockOpenMode) : M DataBlock :=
  shm ← shm_attach os name;
  match shm with
  | None => throw runtime_error
  | Some id => l ← attach_consumer_state_ id; mret (mkDataBlock name mode id l true)
  end.

Definition DataBlock_attach_from_fd (os : Os) (logical_name : string) (source_fd : Z) : M DataBlock :=
  id ← setup_shm_from_fd_ os source_fd 0;
  l ← attach_consumer_state_ id;
  mret (mkDataBlock logical_name ReadAttach id l true).

(** [~DataBlock]. *)
Definition DataBlock_destroy (b : DataBlock) : M unit :=
  if bool_decide (m_open_mode b = Create) && m_should_unlink_name b then shm_unlink (m_name b)
  else mret ().

Definition slot_rw_state (b : DataBlock) (index : Z) (m : Memory) : option SlotRWState :=
  if slot_count (m_layout b) <=? index then None else Some (slot_state_at m index).

(** ** Shared spinlocks of the header *)

Fixpoint find_free_spinlock (i : nat) (l : list SharedSpinLockState) : option nat :=
  match l with
  | [] => None
  | s :: l => if owner_pid s =? 0 then Some i else find_free_spinlock (S i) l
  end.

(** Marks the first lock without owner with pid 1, then initialises it. *)
Definition acquire_shared_spinlock (h : SharedMemoryHeader) : option (nat * SharedMemoryHeader) :=
  i ← find_free_spinlock 0 (spinlock_states h);
  let h := h <| spinlock_states ::= alter (λ s, s <| owner_pid := 1 |>) i |> in
  Some (i, h <| spinlock_states ::= alter (λ _, init_spinlock_state) i |>).

Definition release_shared_spinlock (index : nat) (h : SharedMemoryHeader) : option SharedMemoryHeader :=
  if bool_decide (MAX_SHARED_SPINLOCKS ≤ index)%nat then None
  else Some (h <| spinlock_states ::= alter (λ _, init_spinlock_state) index |>).

Definition get_shared_spinlock_state (index : nat) (h : SharedMemoryHeader) : option SharedSpinLockState :=
  if bool_decide (MAX_SHARED_SPINLOCKS ≤ index)%nat then None else spinlock_states h !! index.

(** ** Checksums *)

Definition set_flex_checksum (f : FlexibleZoneChecksumEntry → FlexibleZoneChecksumEntry) : Memory → Memory :=
  on_head (λ h, h <| flexible_zone_checksums ::= alter f 0%nat |>).
Definition flex_checksum (m : Memory) : FlexibleZoneChecksumEntry :=
  default (mkFlexChecksum (zeros CHECKSUM_BYTES) 0) (flexible_zone_checksums (head m) !! 0%nat).

Definition update_checksum_flexible_zone_impl (l : DataBlockLayout) (compute : bool) (m : Memory) :
    bool * Memory :=
  if slot_checksum_size l =? 0 then (false, m)
  else if flex_size l =? 0 then (true, m)
  else
    let m := set_flex_checksum (λ e, e <| cks_is_valid := 0 |>) m in
    if compute then
      match crypto_generichash (load m (flex_offset l) (flex_size l)) with
      | Some h => (true, set_flex_checksum (λ e, e <| checksum_bytes := h |>) m)
      | None => (false, m)
      end
    else (true, set_flex_checksum (λ e, e <| checksum_bytes := zeros CHECKSUM_BYTES |>) m).

(** The entry of a slot: 32 bytes of checksum, then the verification flag. *)
Definition checksum_entry (l : DataBlockLayout) (slot_index : Z) : Z :=
  slot_checksum_base l + slot_index * SLOT_CHECKSUM_ENTRY_SIZE.
Definition slot_data (l : DataBlockLayout) (m : Memory) (slot_index : Z) : list Z :=
  load m (slot_offset l slot_index) (slot_stride_bytes l).
Definition slot_checksum (l : DataBlockLayout) (m : Memory) (slot_index : Z) : list Z :=
  load m (checksum_entry l slot_index) 32.
Definition slot_cks_is_valid (l : DataBlockLayout) (m : Memory) (slot_index : Z) : Z :=
  default 0 (data m !! (checksum_entry l slot_index + 32)).
Definition set_slot_cks_is_valid (l : DataBlockLayout) (slot_index v : Z) : Memory → Memory :=
  store (checksum_entry l slot_index + 32) [v].

Definition update_checksum_slot_impl (l : DataBlockLayout) (slot_index : Z) (compute : bool) (m : Memory) :
    bool * Memory :=
  if slot_checksum_size l =? 0 then (false, m)
  else if slot_count l <=? slot_index then (false, m)
  else
    let m := set_slot_cks_is_valid l slot_index 0 m in
    if compute then
      match crypto_generichash (slot_data l m slot_index) with
      | Some h => (true, store (checksum_entry l slot_index) h m)
      | None => (false, m)
      end
    else (true, store (checksum_entry l slot_index) (zeros CHECKSUM_BYTES) m).

Definition all_zero (bs : list Z) : bool := forallb (λ b, b =? 0) bs.

Definition verify_checksum_flexible_zone_impl (l : DataBlockLayout) (honor_valid : bool) (m : Memory) :
    bool * Memory :=
  if slot_checksum_size l =? 0 then (false, m)
  else if flex_size l =? 0 then (true, m)
  else
    let e := flex_checksum m in
    let set v := set_flex_checksum (λ e, e <| cks_is_valid := v |>) m in
    if all_zero (checksum_bytes e) then (false, set 0)
    else if honor_valid && (cks_is_valid e =? 1) then (true, m)
    else if verify_blake2b (checksum_bytes e) (load m (flex_offset l) (flex_size l)) then (true, set 1)
    else (false, set 0).

Definition verify_checksum_slot_impl (l : DataBlockLayout) (slot_index : Z) (honor_slot_valid : bool)
    (m : Memory) : bool * Memory :=
  if slot_checksum_size l =? 0 then (false, m)
  else if slot_count l <=? slot_index then (false, m)
  else
    let set v := set_slot_cks_is_valid l slot_index v m in
    if all_zero (slot_checksum l m slot_index) then (false, set 0)
    else if honor_slot_valid && (slot_cks_is_valid l m slot_index =? 1) then (true, m)
    else if verify_blake2b (slot_checksum l m slot_index) (slot_data l m slot_index)
    then (true, set 1)
    else (false, set 0).

(** ** Producers and consumers *)

Record DataBlockProducer := mkProducer {
  p_block : DataBlock;
  p_checksum_policy : ChecksumPolicy;
  p_flex_zone_offset : Z;
  p_flex_zone_size : Z;
}.

Record DataBlockConsumer := mkConsumer {
  c_block : DataBlock;
  c_checksum_policy : ChecksumPolicy;
  c_flex_zone_offset : Z;
  c_flex_zone_size : Z;
  heartbeat_slot : option nat;
  consumer_uid_buf : list Z;
  consumer_name_buf : list Z;
}.
#[global] Instance eta_consumer : Eta DataBlockConsumer := λ r,
  mkConsumer (c_block r) (c_checksum_policy r) (c_flex_zone_offset r) (c_flex_zone_size r)
    (heartbeat_slot r) (consumer_uid_buf r) (consumer_name_buf r).

(** Running a function of the memory that returns a verdict. *)
Definition on_memory {A} (b : DataBlock) (f : Memory → A * Memory) : M A :=
  r ← peek (m_shm b) f; poke (m_shm b) (λ _, r.2);; mret r.1.

Definition update_checksum_slot (p : DataBlockProducer) (slot_index : Z) : M bool :=
  on_memory (p_block p) (update_checksum_slot_impl (m_layout (p_block p)) slot_index true).
Definition update_checksum_flexible_zone (p : DataBlockProducer) : M bool :=
  on_memory (p_block p) (update_checksum_flexible_zone_impl (m_layout (p_block p)) true).
Definition verify_checksum_slot (c : DataBlockConsumer) (slot_index : Z) : M bool :=
  on_memory (c_block c) (verify_checksum_slot_impl (m_layout (c_block c)) slot_index true).
Definition verify_checksum_flexible_zone (c : DataBlockConsumer) : M bool :=
  on_memory (c_block c) (verify_checksum_flexible_zone_impl (m_layout (c_block c)) true).

Definition update_heartbeat_producer (os : Os) (p : DataBlockProducer) : M unit :=
  poke (m_shm (p_block p)) (on_head (update_producer_heartbeat_impl os)).

Fixpoint find_free_heartbeat (i : nat) (l : list ConsumerHeartbeat) : option nat :=
  match l with
  | [] => None
  | e :: l => if consumer_pid e =? 0 then Some i else find_free_heartbeat (S i) l
  end.

Definition register_heartbeat (os : Os) (uid name : list Z) (h : SharedMemoryHeader) :
    option nat * SharedMemoryHeader :=
  match find_free_heartbeat 0 (consumer_heartbeats h) with
  | Some i =>
      (Some i,
       h <| consumer_heartbeats ::= alter (λ _, mkHeartbeat (get_pid os) (now os) uid name) i |>
         <| active_consumer_count ::= λ n, (n + 1) mod 2 ^ 32 |>)
  | None => (None, h)
  end.

Definition update_heartbeat (os : Os) (slot : nat) (h : SharedMemoryHeader) : SharedMemoryHeader :=
  if bool_decide (MAX_CONSUMER_HEARTBEATS ≤ slot)%nat then h
  else h <| consumer_heartbeats ::= alter (λ e, e <| last_heartbeat_ns := now os |>) slot |>.

(** Freeing an entry: only while it still holds this process's pid. *)
Definition unregister_heartbeat (os : Os) (slot : nat) (h : SharedMemoryHeader) : SharedMemoryHeader :=
  match consumer_heartbeats h !! slot with
  | Some e =>
      if consumer_pid e =? get_pid os
      then h <| consumer_heartbeats ::= alter (λ e, e <| consumer_pid := 0 |>
                   <| consumer_uid := zeros 40 |> <| consumer_name := zeros 32 |>) slot |>
             <| active_consumer_count ::= λ n, (n - 1) mod 2 ^ 32 |>
      else h
  | None => h
  end.

(** [~DataBlockConsumerImpl], then the data block. *)
Definition DataBlockConsumer_destroy (os : Os) (c : DataBlockConsumer) : M unit :=
  match heartbeat_slot c with
  | Some i => poke (m_shm (c_block c)) (on_head (unregister_heartbeat os i))
  | None => mret ()
  end;;
  DataBlock_destroy (c_block c).

Definition DataBlockProducer_destroy (p : DataBlockProducer) : M unit := DataBlock_destroy (p_block p).

(** [check_consumer_health]: every dead consumer's entry is freed. *)
Definition check_consumer_health (os : Os) (h : SharedMemoryHeader) : SharedMemoryHeader :=
  let gone e := bool_decide (consumer_pid e ≠ 0)
                && negb (SlotRW.SlotRW.is_process_alive (platform os) (consumer_pid e)) in
  h <| active_consumer_count ::= λ n,
         (n - Z.of_nat (length (filter (λ e, gone e = true) (consumer_heartbeats h)))) mod 2 ^ 32 |>
    <| consumer_heartbeats ::= fmap (λ e, if gone e then e <| consumer_pid := 0 |> else e) |>.

(** ** Factories *)

(** The schema hashes and the channel identity, after the constructor. *)
Definition store_schemas (c : DataBlockConfig) (flexzone_schema datablock_schema : option SchemaInfo)
    (h : SharedMemoryHeader) : SharedMemoryHeader :=
  h <| flexzone_schema_hash := from_option schema_hash (zeros CHECKSUM_BYTES) flexzone_schema |>
    <| datablock_schema_hash := from_option schema_hash (zeros CHECKSUM_BYTES) datablock_schema |>
    <| schema_version := from_option (λ s, pack (schema_ver s)) 0 datablock_schema |>
    <| hub_uid ::= λ dst, write_id_str dst (cfg_hub_uid c) |>
    <| hub_name ::= λ dst, write_id_str dst (cfg_hub_name c) |>
    <| producer_uid ::= λ dst, write_id_str dst (cfg_producer_uid c) |>
    <| producer_name ::= λ dst, write_id_str dst (cfg_producer_name c) |>.

Definition finish_producer (c : DataBlockConfig) (fs ds : option SchemaInfo) (b : DataBlock) :
    M DataBlockProducer :=
  l ← layout_or_throw (from_config c);
  poke (m_shm b) (on_head (store_schemas c fs ds));;
  mret (mkProducer b (cfg_checksum_policy c) (flex_offset l) (flex_size l)).

Definition lifecycle_ready : M unit := λ w, if ready w then (Ok (), w) else (Throws runtime_error, w).

Definition create_datablock_producer_impl (os : Os) (name : string) (c : DataBlockConfig)
    (flexzone_schema datablock_schema : option SchemaInfo) : M DataBlockProducer :=
  lifecycle_ready;;
  b ← DataBlock_create os name c;
  finish_producer c flexzone_schema datablock_schema b.

Definition create_datablock_producer_from_fd_impl (os : Os) (logical_name : string) (source_fd : Z)
    (c : DataBlockConfig) (flexzone_schema datablock_schema : option SchemaInfo) : M DataBlockProducer :=
  lifecycle_ready;;
  b ← DataBlock_create_from_fd os logical_name c source_fd;
  finish_producer c flexzone_schema datablock_schema b.

Definition validate_attach_layout_and_config (h : SharedMemoryHeader) (expected : option DataBlockConfig) :
    bool :=
  validate_layout_checksum h &&
  match expected with
  | None => true
  | Some c =>
      (flexible_zone_size h =? align_up PAGE_ALIGNMENT (cfg_flex_zone_size c)) &&
      (ring_buffer_capacity h =? cfg_ring_buffer_capacity c) &&
      (physical_page_size h =? to_bytes (cfg_physical_page_size c) mod 2 ^ 32) &&
      (get_slot_stride_bytes h =? effective_logical_unit_size c mod 2 ^ 32) &&
      (checksum_type h =? checksum_code (cfg_checksum_type c))
  end.

(** The schema a consumer or a second writer expects must be the stored one. *)
Definition stored_hash_matches (stored : list Z) (s : SchemaInfo) : bool :=
  negb (all_zero stored) && bool_decide (stored = schema_hash s).
Definition flexzone_schema_ok (h : SharedMemoryHeader) (s : option SchemaInfo) : bool :=
  match s with None => true | Some s => stored_hash_matches (flexzone_schema_hash h) s end.
Definition datablock_schema_ok (h : SharedMemoryHeader) (s : option SchemaInfo) : bool :=
  match s with
  | None => true
  | Some s => stored_hash_matches (datablock_schema_hash h) s
              && (major (unpack (schema_version h)) =? major (schema_ver s))
  end.

Definition count_schema_mismatch : Memory → Memory :=
  on_metrics (λ m, m <| schema_mismatch_count ::= u64_succ |>).

(** The checks every attachment makes once the block is mapped: the layout, or
    [None] where the factory returns null. *)
Definition check_attachment (b : DataBlock) (expected : option DataBlockConfig)
    (flexzone_schema datablock_schema : option SchemaInfo) : M (option DataBlockLayout) :=
  h ← peek (m_shm b) head;
  if negb (header_layout_hash_ok h) then poke (m_shm b) count_schema_mismatch;; mret None
  else if negb (validate_attach_layout_and_config h expected) then mret None
  else
    l ← layout_or_throw (from_header h);
    if flexzone_schema_ok h flexzone_schema && datablock_schema_ok h datablock_schema
    then mret (Some l)
    else poke (m_shm b) count_schema_mismatch;; mret None.

(** A joining consumer takes a heartbeat entry and, under [Sequential_sync],
    starts at the last commit. *)
Definition join_consumer (os : Os) (uid name : list Z) (h : SharedMemoryHeader) :
    option nat * SharedMemoryHeader :=
  let '(slot, h) := register_heartbeat os uid name h in
  (slot,
   match slot with
   | Some i =>
       if bool_decide (consumer_sync_policy h = Sequential_sync)
       then h <| consumer_next_read_slot ::=
                   <[i := if bool_decide (commit_index h ≠ INVALID_SLOT_ID) then commit_index h else 0]> |>
       else h
   | None => h
   end).

Definition finish_consumer (os : Os) (b : DataBlock) (l : DataBlockLayout)
    (uid name : option string) : M DataBlockConsumer :=
  let uid_buf := from_option (strncpy_id 40) (zeros 40) uid in
  let name_buf := from_option (strncpy_id 32) (zeros 32) name in
  policy ← peek (m_shm b) (λ m, checksum_policy (head m));
  slot ← on_memory b (λ m, let '(s, h) := join_consumer os uid_buf name_buf (head m) in
                           (s, m <| head := h |>));
  mret (mkConsumer b policy (flex_offset l) (flex_size l) slot uid_buf name_buf).

Definition find_datablock_consumer_impl (os : Os) (name : string) (expected : option DataBlockConfig)
    (flexzone_schema datablock_schema : option SchemaInfo) (uid cname : option string) :
    M (option DataBlockConsumer) :=
  lifecycle_ready;;
  b ← DataBlock_attach os name ReadAttach;
  l ← check_attachment b expected flexzone_schema datablock_schema;
  match l with
  | None => DataBlock_destroy b;; mret None
  | Some l => c ← finish_consumer os b l uid cname; mret (Some c)
  end.

Definition find_datablock_consumer_from_fd_impl (os : Os) (logical_name : string) (source_fd : Z)
    (expected : option DataBlockConfig) (flexzone_schema datablock_schema : option SchemaInfo)
    (uid cname : option string) : M (option DataBlockConsumer) :=
  lifecycle_ready;;
  b ← DataBlock_attach_from_fd os logical_name source_fd;
  l ← check_attachment b expected flexzone_schema datablock_schema;
  match l with
  | None => DataBlock_destroy b;; mret None
  | Some l => c ← finish_consumer os b l uid cname; mret (Some c)
  end.

Definition attach_datablock_as_writer_impl (os : Os) (name : string) (expected : option DataBlockConfig)
    (flexzone_schema datablock_schema : option SchemaInfo) : M (option DataBlockProducer) :=
  lifecycle_ready;;
  b ← DataBlock_attach os name WriteAttach;
  l ← check_attachment b expected flexzone_schema datablock_schema;
  match l with
  | None => DataBlock_destroy b;; mret None
  | Some l =>
      policy ← peek (m_shm b) (λ m, checksum_policy (head m));
      mret (Some (mkProducer b policy (flex_offset l) (flex_size l)))
  end.

End with_crypto.

End Segment.
