(* ===== verification/Checksums.v ===== *)
(** * What the checksum of a slot guards

    Lemmas on the byte-addressed memory of [Segment], and the checksum of a
    slot under everything that may happen to the segment around it: stores
    through the spans of other slots and of the flexible zone, checksums of
    other slots, verifications, changes of the header and of the slot states.
    They do not interfere because the sections of [Layout] do not overlap. *)

From S2P Require Import Prelude.
From S2P Require Import ShmHeader.
From S2P Require Import Layout.
From S2P Require Import Segment.
Import ShmHeader Layout Segment.

Module Checksums.

(** ** Memory *)

Lemma store_at_lookup_ne off bs d k :
  k < off ∨ off + Z.of_nat (length bs) ≤ k → store_at off bs d !! k = d !! k.
Proof.
  revert off d. induction bs as [|b bs IH]; intros off d Hk; [done|]. simpl in *.
  rewrite IH by lia. apply lookup_insert_ne. lia.
Qed.

Lemma store_at_lookup off bs d i :
  (i < length bs)%nat → store_at off bs d !! (off + Z.of_nat i) = bs !! i.
Proof.
  revert off d i. induction bs as [|b bs IH]; intros off d i Hi; simpl in *; [lia|].
  destruct i as [|i]; simpl.
  - rewrite store_at_lookup_ne by lia. rewrite Z.add_0_r. apply lookup_insert_eq.
  - replace (off + Z.of_nat (S i)) with (off + 1 + Z.of_nat i) by lia. apply IH. lia.
Qed.

Lemma load_length m off len : length (load m off len) = Z.to_nat len.
Proof. unfold load. by rewrite length_fmap, length_seq. Qed.

Lemma load_ext m m' off len :
  (∀ k, off ≤ k < off + len → data m !! k = data m' !! k) → load m off len = load m' off len.
Proof.
  intros H. unfold load. apply list_fmap_ext. intros i x [-> ?]%lookup_seq.
  rewrite H by lia. done.
Qed.

Lemma load_store_same m off bs : load (store off bs m) off (Z.of_nat (length bs)) = bs.
Proof.
  apply (list_eq_same_length _ _ (length bs)); [done|by rewrite load_length, Nat2Z.id|].
  intros i x y Hi. unfold load. rewrite list_lookup_fmap, Nat2Z.id.
  rewrite lookup_seq_lt by done. simpl. rewrite store_at_lookup by done.
  intros [= <-] ->. done.
Qed.

Lemma load_store_other m off bs o len :
  o + len ≤ off ∨ off + Z.of_nat (length bs) ≤ o → load (store off bs m) o len = load m o len.
Proof. intros H. apply load_ext. intros k Hk. simpl. apply store_at_lookup_ne. lia. Qed.

(** ** What may happen to a segment *)

Section checksums.
Context `{!Crypto} (l : DataBlockLayout) (Hl : well_placed l) (Hcks : slot_checksum_size l ≠ 0).
Implicit Types (m : Memory) (i j : Z).

Inductive SegOp :=
  | WriteSlot (j off : Z) (bs : list Z)
  | WriteFlex (off : Z) (bs : list Z)
  | UpdateSlot (j : Z) (compute : bool)
  | VerifySlot (j : Z) (honor : bool)
  | UpdateFlex (compute : bool)
  | VerifyFlex (honor : bool)
  | ChangeHead (f : SharedMemoryHeader → SharedMemoryHeader)
  | ChangeSlotState (j : Z) (st : SlotRWState).

(** The stores stay inside the span the handle gives out; the hash of an
    update has 32 bytes. *)
Definition op_ok (op : SegOp) : Prop :=
  match op with
  | WriteSlot j off bs =>
      0 ≤ j < slot_count l ∧ 0 ≤ off ∧ off + Z.of_nat (length bs) ≤ slot_stride_bytes l
  | WriteFlex off bs => 0 ≤ off ∧ off + Z.of_nat (length bs) ≤ flex_size l
  | UpdateSlot j _ | VerifySlot j _ => 0 ≤ j
  | _ => True
  end.

Definition run_op (op : SegOp) (m : Memory) : Memory :=
  match op with
  | WriteSlot j off bs => store (slot_offset l j + off) bs m
  | WriteFlex off bs => store (flex_offset l + off) bs m
  | UpdateSlot j compute => (update_checksum_slot_impl l j compute m).2
  | VerifySlot j honor => (verify_checksum_slot_impl l j honor m).2
  | UpdateFlex compute => (update_checksum_flexible_zone_impl l compute m).2
  | VerifyFlex honor => (verify_checksum_flexible_zone_impl l honor m).2
  | ChangeHead f => on_head f m
  | ChangeSlotState j st => m <| slot_states ::= <[j := st]> |>
  end.

Definition run_ops (ops : list SegOp) (m : Memory) : Memory := foldl (flip run_op) m ops.

Definition stamps (i : Z) (op : SegOp) : Prop :=
  match op with UpdateSlot j _ => j = i | _ => False end.
Definition writes (i : Z) (op : SegOp) : Prop :=
  match op with WriteSlot j _ _ => j = i | _ => False end.

#[global] Instance writes_dec i op : Decision (writes i op).
Proof. destruct op; simpl; apply _. Defined.

Definition hashes_have_32_bytes : Prop := ∀ d h, crypto_generichash d = Some h → length h = CHECKSUM_BYTES.
Context (Hhash : hashes_have_32_bytes).

(** Where the entry of a slot and its bytes lie. *)
Lemma entry_place i :
  0 ≤ i < slot_count l →
  slot_checksum_offset l ≤ checksum_entry l i ∧ checksum_entry l i + 33 ≤ flex_offset l.
Proof.
  intros Hi. destruct Hl. unfold checksum_entry, slot_checksum_base, SLOT_CHECKSUM_ENTRY_SIZE.
  lia.
Qed.

Lemma slot_place i :
  0 ≤ i < slot_count l →
  flex_offset l + flex_size l ≤ slot_offset l i ∧
  slot_offset l i + slot_stride_bytes l ≤ total_size l.
Proof.
  intros Hi. destruct Hl. unfold slot_offset.
  pose proof (stride_step i (slot_count l) _ (wp_stride l Hl) (proj2 Hi)).
  pose proof (wp_stride l Hl).
  assert (0 ≤ i * slot_stride_bytes l) by (apply Z.mul_nonneg_nonneg; lia). lia.
Qed.

Lemma slots_apart i j :
  i ≠ j → slot_offset l i + slot_stride_bytes l ≤ slot_offset l j ∨
          slot_offset l j + slot_stride_bytes l ≤ slot_offset l i.
Proof.
  intros Hij. unfold slot_offset.
  destruct (Z.lt_ge_cases i j) as [?|?].
  - pose proof (stride_step i j _ (wp_stride l Hl)). lia.
  - pose proof (stride_step j i _ (wp_stride l Hl)). lia.
Qed.

Lemma entries_apart i j :
  i ≠ j → checksum_entry l i + 33 ≤ checksum_entry l j ∨ checksum_entry l j + 33 ≤ checksum_entry l i.
Proof. unfold checksum_entry, SLOT_CHECKSUM_ENTRY_SIZE. lia. Qed.

(** The two views of slot [i]. *)
Definition same_slot (i : Z) (m m' : Memory) : Prop :=
  slot_data l m' i = slot_data l m i ∧ slot_checksum l m' i = slot_checksum l m i.

Lemma same_slot_data i m m' : data m' = data m → same_slot i m m'.
Proof. intros Hd. split; apply load_ext; intros; by rewrite Hd. Qed.

(** A store is harmless to a slot it stays away from. *)
Lemma same_slot_store i m off bs :
  (slot_offset l i + slot_stride_bytes l ≤ off ∨ off + Z.of_nat (length bs) ≤ slot_offset l i) →
  (checksum_entry l i + 32 ≤ off ∨ off + Z.of_nat (length bs) ≤ checksum_entry l i) →
  same_slot i m (store off bs m).
Proof. intros. split; by apply load_store_other. Qed.

Lemma same_slot_trans i m m' m'' : same_slot i m m' → same_slot i m' m'' → same_slot i m m''.
Proof. intros [H1 H2] [H3 H4]. split; congruence. Qed.

Lemma verified_slot_same i j honor m :
  0 ≤ i < slot_count l → 0 ≤ j →
  same_slot i m (verify_checksum_slot_impl l j honor m).2.
Proof.
  intros Hi Hj. unfold verify_checksum_slot_impl.
  assert (∀ v, j < slot_count l → same_slot i m (set_slot_cks_is_valid l j v m)) as Hset.
  { intros v Hjn. pose proof (entry_place i Hi). pose proof (entry_place j (conj Hj Hjn)).
    pose proof (slot_place i Hi). destruct Hl.
    apply same_slot_store; simpl; [lia|].
    destruct (decide (i = j)) as [->|Hij]; [lia|]. pose proof (entries_apart i j Hij). lia. }
  repeat case_match; simpl; bool_facts; try (by apply same_slot_data); apply Hset; lia.
Qed.

Lemma updated_slot_same i j compute m :
  i ≠ j → 0 ≤ i < slot_count l → 0 ≤ j →
  same_slot i m (update_checksum_slot_impl l j compute m).2.
Proof.
  intros Hij Hi Hj. unfold update_checksum_slot_impl.
  assert (∀ k bs m', j < slot_count l → 0 ≤ k → k + Z.of_nat (length bs) ≤ 33 →
            same_slot i m' (store (checksum_entry l j + k) bs m')) as Hst.
  { intros k bs m' Hjn Hk Hb. pose proof (entry_place i Hi).
    pose proof (entry_place j (conj Hj Hjn)). pose proof (slot_place i Hi).
    pose proof (entries_apart i j Hij). destruct Hl. apply same_slot_store; lia. }
  assert (∀ bs m', j < slot_count l → length bs = 32%nat →
            same_slot i m' (store (checksum_entry l j) bs m')) as Hst0.
  { intros bs m' ? Hb. rewrite <- (Z.add_0_r (checksum_entry l j)). apply Hst; lia. }
  repeat case_match; simpl; bool_facts; try (by apply same_slot_data).
  - eapply same_slot_trans; [apply (Hst 32 [0]); simpl; lia|].
    apply Hst0; [lia|]. by eapply Hhash.
  - apply (Hst 32 [0]); simpl; lia.
  - eapply same_slot_trans; [apply (Hst 32 [0]); simpl; lia|]. by apply Hst0; [lia|].
Qed.

Lemma flex_ops_keep_data compute honor m :
  data (update_checksum_flexible_zone_impl l compute m).2 = data m ∧
  data (verify_checksum_flexible_zone_impl l honor m).2 = data m.
Proof.
  unfold update_checksum_flexible_zone_impl, verify_checksum_flexible_zone_impl.
  split; repeat case_match; done.
Qed.

Lemma op_same_slot i op m :
  0 ≤ i < slot_count l → op_ok op → ¬ stamps i op → ¬ writes i op → same_slot i m (run_op op m).
Proof.
  intros Hi Hok Hs Hw. destruct op as [j off bs|off bs|j c|j h|c|h|f|j st]; simpl in *.
  - destruct Hok as (Hj & Ho & Hb). pose proof (slot_place j Hj). pose proof (entry_place i Hi).
    pose proof (slots_apart i j ltac:(congruence)). destruct Hl. apply same_slot_store; lia.
  - destruct Hok as [Ho Hb]. pose proof (slot_place i Hi). pose proof (entry_place i Hi).
    apply same_slot_store; lia.
  - apply updated_slot_same; auto.
  - by apply verified_slot_same.
  - apply same_slot_data, (flex_ops_keep_data c false m).
  - apply same_slot_data, (flex_ops_keep_data false h m).
  - by apply same_slot_data.
  - by apply same_slot_data.
Qed.

(** Writing the slot itself leaves its stored checksum alone. *)
Lemma op_same_checksum i op m :
  0 ≤ i < slot_count l → op_ok op → ¬ stamps i op →
  slot_checksum l (run_op op m) i = slot_checksum l m i.
Proof.
  intros Hi Hok Hs.
  destruct (decide (writes i op)) as [Hw|Hw]; [|by apply op_same_slot].
  destruct op as [j off bs|?|?|?|?|?|?|?]; try done. simpl in Hw, Hok |- *. subst j.
  apply load_store_other. pose proof (slot_place i Hi). pose proof (entry_place i Hi).
  pose proof (wp_flex_size l Hl). lia.
Qed.

Lemma ops_same_checksum i ops m :
  0 ≤ i < slot_count l → Forall op_ok ops → Forall (λ op, ¬ stamps i op) ops →
  slot_checksum l (run_ops ops m) i = slot_checksum l m i.
Proof.
  intros Hi Hok Hs. revert m. induction ops as [|op ops IH]; intros m; [done|].
  inversion_clear Hok. inversion_clear Hs. 
  change (run_ops (op :: ops) m) with (run_ops ops (run_op op m)). rewrite IH by done. by apply op_same_checksum.
Qed.

Lemma ops_same_data i ops m :
  0 ≤ i < slot_count l → Forall op_ok ops → Forall (λ op, ¬ stamps i op) ops →
  Forall (λ op, ¬ writes i op) ops → slot_data l (run_ops ops m) i = slot_data l m i.
Proof.
  intros Hi Hok Hs Hw. revert m. induction ops as [|op ops IH]; intros m; [done|].
  inversion_clear Hok. inversion_clear Hs. inversion_clear Hw. 
  change (run_ops (op :: ops) m) with (run_ops ops (run_op op m)). rewrite IH by done. by apply op_same_slot.
Qed.

Lemma fresh_stamp i m m1 :
  0 ≤ i < slot_count l → update_checksum_slot_impl l i true m = (true, m1) →
  ∃ h, crypto_generichash (slot_data l m i) = Some h ∧ slot_checksum l m1 i = h ∧
       slot_data l m1 i = slot_data l m i.
Proof.
  intros Hi. unfold update_checksum_slot_impl. rewrite (proj2 (Z.eqb_neq _ _)) by done.
  rewrite (proj2 (Z.leb_gt _ _)) by lia.
  pose proof (slot_place i Hi). pose proof (entry_place i Hi). pose proof (wp_flex_size l Hl).
  assert (slot_data l (set_slot_cks_is_valid l i 0 m) i = slot_data l m i) as ->
    by (apply load_store_other; simpl; lia).
  destruct (crypto_generichash (slot_data l m i)) as [h|] eqn:Eh; [|done].
  intros [= <-]. assert (Z.of_nat (length h) = 32) as Hlen by by rewrite (Hhash _ _ Eh).
  exists h. split; [done|]. split.
  - unfold slot_checksum. rewrite <- Hlen.
    apply load_store_same.
  - unfold slot_data. rewrite load_store_other by lia. apply load_store_other. simpl. lia.
Qed.

(** The verdict of a full verification. *)
Lemma verify_slot_verdict i m :
  0 ≤ i < slot_count l → all_zero (slot_checksum l m i) = false →
  (verify_checksum_slot_impl l i false m).1
  = bool_decide (crypto_generichash (slot_data l m i) = Some (slot_checksum l m i)).
Proof.
  intros Hi Hz. unfold verify_checksum_slot_impl. rewrite (proj2 (Z.eqb_neq _ _)) by done.
  rewrite (proj2 (Z.leb_gt _ _)) by lia. rewrite Hz. simpl. unfold verify_blake2b.
  destruct (crypto_generichash _) as [h|]; [|done].
  destruct (decide (slot_checksum l m i = h)) as [->|Hne].
  - by rewrite !bool_decide_eq_true_2.
  - rewrite !bool_decide_eq_false_2; [done|naive_solver|done].
Qed.
End checksums.

(** C23 Once a slot has been stamped, its stored checksum survives everything
    that happens to the segment short of stamping it again: stores through the
    spans of any slot and of the flexible zone, checksums and verifications of
    others, changes of the header and of slot states.  A full verification
    then accepts exactly when the slot's bytes still have the hash they were
    stamped with, and in particular whenever nobody wrote to the slot. *)
Theorem slot_checksum_guards_slot `{!Crypto} l i m m1 h ops :
  well_placed l → slot_checksum_size l ≠ 0 → hashes_have_32_bytes →
  0 ≤ i < slot_count l →
  update_checksum_slot_impl l i true m = (true, m1) →
  crypto_generichash (slot_data l m i) = Some h → all_zero h = false →
  Forall (op_ok l) ops → Forall (λ op, ¬ stamps i op) ops →
  let m2 := run_ops l ops m1 in
  slot_checksum l m2 i = h ∧
  (verify_checksum_slot_impl l i false m2).1
    = bool_decide (crypto_generichash (slot_data l m2 i) = Some h) ∧
  (Forall (λ op, ¬ writes i op) ops → (verify_checksum_slot_impl l i false m2).1 = true).
Proof.
  intros Hl Hc Hh Hi Hu Hd Hz Hok Hs m2.
  destruct (fresh_stamp l Hl Hc Hh i m m1 Hi Hu) as (h' & Hd' & Hck & Hsame).
  assert (h' = h) as -> by congruence.
  assert (slot_checksum l m2 i = h) as Hck2
    by (unfold m2; by rewrite (ops_same_checksum l Hl Hc Hh) by done).
  split; [done|]. rewrite (verify_slot_verdict l Hc) by (try rewrite Hck2; done).
  rewrite Hck2. split; [done|]. intros Hw.
  apply bool_decide_eq_true_2. unfold m2. by rewrite (ops_same_data l Hl Hc Hh), Hsame by done.
Qed.

(** A hash for concrete runs: the sum of the bytes, then ones. *)
Definition toy_hash : Crypto := λ d, Some (foldr Z.add 0 d mod 256 :: replicate 31 1).

Lemma toy_hash_length : @hashes_have_32_bytes toy_hash.
Proof. intros d h [= <-]. done. Qed.

Lemma toy_hash_nonzero d h : @crypto_generichash toy_hash d = Some h → all_zero h = false.
Proof. intros [= <-]. simpl. by rewrite andb_false_r. Qed.

Lemma layout_sample_placed : well_placed layout_sample.
Proof. split; vm_compute; try (split; discriminate); auto; try discriminate. Qed.

Definition sample_memory : Memory := store 16512 [7; 8; 9] (zero_memory 20480).
Definition sample_ops : list SegOp :=
  [WriteSlot 0 120 [1; 2]; UpdateSlot 0 true; WriteFlex 8000 [5]; VerifySlot 1 true; WriteSlot 1 2 [1]].

Lemma sample_ops_ok : Forall (op_ok layout_sample) sample_ops.
Proof. unfold sample_ops. rewrite !Forall_cons, Forall_nil. simpl. lia. Qed.

Lemma sample_ops_stamp_others : Forall (λ op, ¬ stamps 1 op) sample_ops.
Proof. unfold sample_ops. rewrite !Forall_cons, Forall_nil. simpl. lia. Qed.

Lemma slot_checksum_guards_slot_witness :
  let m1 := (@update_checksum_slot_impl toy_hash layout_sample 1 true sample_memory).2 in
  let m2 := run_ops (H := toy_hash) layout_sample sample_ops m1 in
  slot_checksum layout_sample m2 1 = 24 :: replicate 31 1 ∧
  (@verify_checksum_slot_impl toy_hash layout_sample 1 false m2).1 = false.
Proof.
  intros m1 m2.
  destruct (@slot_checksum_guards_slot toy_hash layout_sample 1 sample_memory m1
              (24 :: replicate 31 1) sample_ops layout_sample_placed
              ltac:(vm_compute; discriminate) toy_hash_length
              ltac:(vm_compute; split; [discriminate|reflexivity])
              ltac:(vm_compute; reflexivity) ltac:(vm_compute; reflexivity)
              ltac:(vm_compute; reflexivity)
              sample_ops_ok sample_ops_stamp_others) as (Hc & Hv & _).
  split; [exact Hc|]. etransitivity; [exact Hv|]. vm_compute. reflexivity.
Defined.

End Checksums.
