(* ===== verification/ShmQueue.v ===== *)
(** * The shared-memory queue

    Models [ShmQueue] of [src/utils/hub/hub_shm_queue.cpp] on the segments of
    [Segment]: the two-step construction (a queue in Standby takes the
    descriptor of its segment and is started), the checksum policy, writing
    and reading an item, and the release of the slot handles with the checksums
    the data block itself keeps ([release_write_handle] and
    [release_consume_handle] of [data_block.cpp]).

    Which slot a call gets is the subject of [SlotRW] and [Ring]: here the slot
    id that [acquire_write_slot] or [acquire_consume_slot] answers is an
    argument.  The item size of a schema is computed by [FieldLayout].

    Module [ShmQueueProps] follows: which items a shared-memory queue delivers. *)

From S2P Require Import Prelude.
From S2P Require Import Entries.
From S2P Require SlotRW.
From S2P Require Import ShmHeader.
From S2P Require Import Layout.
From S2P Require Import Segment.
From S2P Require Import Checksums.
Import ShmHeader Layout Segment FieldLayout.

Module ShmQueue.

(** ** Slot handles *)

Definition on_slot_state (i : Z) (f : SlotRWState → SlotRWState) (m : Memory) : Memory :=
  m <| slot_states ::= <[i := f (slot_state_at m i)]> |>.

Section with_crypto.
Context `{!Crypto}.

(** The checksums a committed slot gets under the policy of its data block. *)
Definition release_checksums (policy : ChecksumPolicy) (l : DataBlockLayout) (slot_index : Z)
    (committed : bool) (m : Memory) : bool * Memory :=
  if committed && bool_decide (policy = Enforced) && negb (checksum_is_unset (head m)) then
    let '(ok1, m) := update_checksum_slot_impl l slot_index true m in
    let '(ok2, m) := if 0 <? flex_size l then update_checksum_flexible_zone_impl l true m
                     else (true, m) in
    (ok1 && ok2, m)
  else (true, m).

(** [release_write_handle]. *)
Definition release_write_handle (os : Os) (policy : ChecksumPolicy) (l : DataBlockLayout)
    (slot_id : Z) (committed : bool) (m : Memory) : bool * Memory :=
  let i := slot_id mod slot_count l in
  let '(success, m) := release_checksums policy l i committed m in
  if committed then
    (success,
     on_slot_state i (λ s, SlotRW.SlotRW.mkSlotRWState 0 (SlotRW.SlotRW.reader_count s)
         SlotRW.SlotRW.COMMITTED (SlotRW.SlotRW.writer_waiting s)
         (u64_succ (SlotRW.SlotRW.write_generation s)))
       (on_head (λ h, update_producer_heartbeat_impl os
          (h <| commit_index := slot_id |> <| metrics ::= λ m, m <| total_slots_written ::= u64_succ |> |>)) m))
  else
    (success,
     on_slot_state i (λ s, SlotRW.SlotRW.mkSlotRWState 0 (SlotRW.SlotRW.reader_count s)
         SlotRW.SlotRW.FREE (SlotRW.SlotRW.writer_waiting s) (SlotRW.SlotRW.write_generation s))
       (on_head (λ h, h <| write_index ::= λ n, u64 (n - 1) |>) m)).

(** Steps 1 and 2 of [release_consume_handle]: has the slot been rewritten, and
    do its checksums hold. *)
Definition consume_verdict (policy : ChecksumPolicy) (l : DataBlockLayout) (slot_index generation : Z)
    (m : Memory) : bool * Memory :=
  if bool_decide (SlotRW.SlotRW.write_generation (slot_state_at m slot_index) ≠ generation)
  then (false, on_metrics (λ c, c <| reader_validation_failed ::= u64_succ |>) m)
  else if bool_decide (policy = Enforced) && negb (checksum_is_unset (head m)) then
    let '(ok1, m) := verify_checksum_slot_impl l slot_index false m in
    let '(ok2, m) := if 0 <? flex_size l then verify_checksum_flexible_zone_impl l false m
                     else (true, m) in
    (ok1 && ok2, m)
  else (true, m).

(** Step 3. *)
Definition release_reader (slot_index : Z) (m : Memory) : Memory :=
  let current := SlotRW.SlotRW.reader_count (slot_state_at m slot_index) in
  on_metrics (λ c, c <| reader_peak_count ::= Z.max current |>)
    (on_slot_state slot_index (λ s, SlotRW.SlotRW.mkSlotRWState (SlotRW.SlotRW.write_lock s)
       ((current - 1) mod 2 ^ 32) (SlotRW.SlotRW.slot_state s) (SlotRW.SlotRW.writer_waiting s)
       (SlotRW.SlotRW.write_generation s)) m).

(** The least position of the registered consumers, [next] included. *)
Definition least_position (next : Z) (h : SharedMemoryHeader) : Z :=
  foldr (λ e acc, if bool_decide (consumer_pid e.1 ≠ 0) && (e.2 <? acc) then e.2 else acc) next
    (zip (consumer_heartbeats h) (consumer_next_read_slot h)).

(** Step 4. *)
Definition advance_position (heartbeat : option nat) (slot_id : Z) (h : SharedMemoryHeader) :
    SharedMemoryHeader :=
  let next := u64_succ slot_id in
  match consumer_sync_policy h, heartbeat with
  | Sequential, _ => h <| read_index := next |>
  | Sequential_sync, Some i =>
      let h := h <| consumer_next_read_slot ::= <[i := next]> |> in
      h <| read_index := least_position next h |>
  | _, _ => h
  end.

Definition release_consume_handle (policy : ChecksumPolicy) (l : DataBlockLayout)
    (heartbeat : option nat) (slot_id generation : Z) (m : Memory) : bool * Memory :=
  let i := slot_id mod slot_count l in
  let '(success, m) := consume_verdict policy l i generation m in
  let m := release_reader i m in
  (success, if success then on_head (advance_position heartbeat slot_id) m else m).

(** ** The queue *)

Record TxCreateOptions := mkTxOptions {
  tx_channel_name : string;
  tx_slot_schema : list SchemaFieldDesc;
  tx_slot_packing : string;
  tx_fz_schema : list SchemaFieldDesc;
  tx_fz_packing : string;
  tx_ring_buffer_capacity : Z;
  tx_page_size : DataBlockPageSize;
  tx_policy : DataBlockPolicy;
  tx_sync_policy : ConsumerSyncPolicy;
  tx_checksum_policy : ChecksumPolicy;
  tx_checksum_slot : bool;
  tx_checksum_fz : bool;
  tx_always_clear_slot : bool;
  tx_hub_uid : string;
  tx_hub_name : string;
  tx_slot_schema_info : option SchemaInfo;
  tx_fz_schema_info : option SchemaInfo;
  tx_producer_uid : string;
  tx_producer_name : string;
}.

Record RxCreateOptions := mkRxOptions {
  rx_channel_name : string;
  rx_slot_schema : list SchemaFieldDesc;
  rx_slot_packing : string;
  rx_verify_slot : bool;
  rx_verify_fz : bool;
  rx_consumer_uid : string;
  rx_consumer_name : string;
}.

(** What a queue keeps of its options until it is started: the data block it
    will create, or the identity it will attach with.  The schemas a reader
    expects are kept in fields [start] does not read. *)
Record ShmQueue := mkQueue {
  dbc : option DataBlockConsumer;
  dbp : option DataBlockProducer;
  read_handle : option (Z * Z);
  write_handle : option Z;
  item_sz : Z;
  fz_sz : Z;
  chan_name : string;
  checksum_slot : bool;
  checksum_fz : bool;
  always_clear_slot : bool;
  verify_slot : bool;
  verify_fz : bool;
  last_seq : Z;
  mode_is_reader : bool;
  pending_capability_fd : option Z;
  pending_config : DataBlockConfig;
  pending_consumer_uid : string;
  pending_consumer_name : string;
  pending_slot_schema_info : option SchemaInfo;
  pending_fz_schema_info : option SchemaInfo;
  checksum_error_count : Z;
}.
#[global] Instance eta_queue : Eta ShmQueue := λ r,
  mkQueue (dbc r) (dbp r) (read_handle r) (write_handle r) (item_sz r) (fz_sz r) (chan_name r)
    (checksum_slot r) (checksum_fz r) (always_clear_slot r) (verify_slot r) (verify_fz r)
    (last_seq r) (mode_is_reader r) (pending_capability_fd r) (pending_config r)
    (pending_consumer_uid r) (pending_consumer_name r) (pending_slot_schema_info r)
    (pending_fz_schema_info r) (checksum_error_count r).

(** The configuration [start] builds for the writer's data block. *)
Definition writer_config (o : TxCreateOptions) (item_size fz_size : Z) : DataBlockConfig :=
  default_config <| cfg_logical_unit_size := item_size |> <| cfg_flex_zone_size := fz_size |>
    <| cfg_ring_buffer_capacity := tx_ring_buffer_capacity o |>
    <| cfg_physical_page_size := tx_page_size o |> <| cfg_policy := tx_policy o |>
    <| cfg_consumer_sync_policy := tx_sync_policy o |>
    <| cfg_checksum_policy := tx_checksum_policy o |>
    <| cfg_hub_uid := tx_hub_uid o |> <| cfg_hub_name := tx_hub_name o |>
    <| cfg_producer_uid := tx_producer_uid o |> <| cfg_producer_name := tx_producer_name o |>.

Definition create_writer_standby (o : TxCreateOptions) : option ShmQueue :=
  if bool_decide (tx_slot_schema o = []) then None
  else
    let item_size := (compute_field_layout (tx_slot_schema o) (tx_slot_packing o)).2 in
    if item_size =? 0 then None
    else
      let fz_size := if bool_decide (tx_fz_schema o = []) then 0
        else align_to_physical_page (compute_field_layout (tx_fz_schema o) (tx_fz_packing o)).2 in
      Some (mkQueue None None None None item_size fz_size (tx_channel_name o)
              (tx_checksum_slot o) (tx_checksum_fz o) (tx_always_clear_slot o) false false 0
              false None (writer_config o item_size fz_size) "" ""
              (tx_slot_schema_info o) (tx_fz_schema_info o) 0).

Definition create_reader_standby (o : RxCreateOptions) : ShmQueue :=
  let item_size := if bool_decide (rx_slot_schema o = []) then 0
    else (compute_field_layout (rx_slot_schema o) (rx_slot_packing o)).2 in
  mkQueue None None None None item_size 0 (rx_channel_name o) false false true
    (rx_verify_slot o) (rx_verify_fz o) 0 true None default_config (rx_consumer_uid o)
    (rx_consumer_name o) None None 0.

Definition create_reader (t : Entries.ChannelTopology) (o : RxCreateOptions) : option ShmQueue :=
  match t with Entries.FanIn => None | _ => Some (create_reader_standby o) end.
Definition create_writer (t : Entries.ChannelTopology) (o : TxCreateOptions) : option ShmQueue :=
  match t with Entries.FanIn => None | _ => create_writer_standby o end.

Definition is_running (q : ShmQueue) : bool :=
  match dbc q, dbp q with None, None => false | _, _ => true end.

Inductive Mechanism := Uninitialized | ShmCapability.
Definition mechanism (q : ShmQueue) : Mechanism := if is_running q then ShmCapability else Uninitialized.

Definition set_shm_capability_fd (fd : Z) (q : ShmQueue) : bool * ShmQueue :=
  if fd <? 0 then (false, q)
  else if is_running q then (false, q)
  else (true, q <| pending_capability_fd := Some fd |>).

(** [c_str()] of a string that is not empty. *)
Definition identity_arg (s : string) : option string := if str_empty s then None else Some s.

(** Exceptions of the factories are caught; an access through an unmapped
    header is not one. *)
Definition catch {A} (x : M (option A)) : M (option A) := λ w,
  match x w with (Throws _, w) => (Ok None, w) | r => r end.

Definition start (os : Os) (q : ShmQueue) : M (bool * ShmQueue) :=
  if is_running q then mret (true, q)
  else
    match pending_capability_fd q with
    | None => mret (false, q)
    | Some fd =>
        if mode_is_reader q then
          c ← catch (find_datablock_consumer_from_fd_impl os (chan_name q) fd None
                       (pending_fz_schema_info q) (pending_slot_schema_info q)
                       (identity_arg (pending_consumer_uid q))
                       (identity_arg (pending_consumer_name q)));
          match c with
          | Some c => mret (true, q <| fz_sz := flex_size (m_layout (c_block c)) |> <| dbc := Some c |>)
          | None => mret (false, q)
          end
        else
          p ← catch (p ← create_datablock_producer_from_fd_impl os (chan_name q) fd (pending_config q)
                           (pending_fz_schema_info q) (pending_slot_schema_info q);
                     mret (Some p));
          match p with
          | Some p => mret (true, q <| dbp := Some p |>)
          | None => mret (false, q)
          end
    end.

(** ** Policy *)

Definition set_checksum_policy (policy : ChecksumPolicy) (q : ShmQueue) : ShmQueue :=
  q <| checksum_slot := bool_decide (policy = Enforced) |>
    <| verify_slot := bool_decide (policy ≠ ChecksumNone) |>.
Definition set_flexzone_checksum (enabled : bool) (q : ShmQueue) : ShmQueue :=
  q <| checksum_fz := enabled |> <| verify_fz := enabled |>.
Definition set_checksum_options (slot fz : bool) (q : ShmQueue) : ShmQueue :=
  q <| checksum_slot := slot |> <| checksum_fz := fz |>.
Definition set_verify_checksum (slot fz : bool) (q : ShmQueue) : ShmQueue :=
  q <| verify_slot := slot |> <| verify_fz := fz |>.
Definition set_always_clear_slot (enable : bool) (q : ShmQueue) : ShmQueue :=
  q <| always_clear_slot := enable |>.

(** ** Items

    The functions below work on the memory behind the queue's data block. *)

Definition handle_index (l : DataBlockLayout) (slot_id : Z) : Z := slot_id mod slot_count l.

(** [acquired]: the answer of [acquire_write_slot].  The result is the offset
    of the item's bytes. *)
Definition write_acquire (acquired : option Z) (q : ShmQueue) (m : Memory) : option Z * ShmQueue * Memory :=
  match dbp q with
  | None => (None, q, m)
  | Some p =>
      let l := m_layout (p_block p) in
      let q := q <| write_handle := acquired |> in
      match acquired with
      | None => (None, q, m)
      | Some id =>
          if slot_stride_bytes l =? 0 then (None, q, m)
          else
            let off := slot_offset l (handle_index l id) in
            (Some off, q,
             if always_clear_slot q then store off (zeros (Z.to_nat (slot_stride_bytes l))) m else m)
      end
  end.

Definition update_checksum (q : ShmQueue) (m : Memory) : Memory :=
  match dbp q, write_handle q with
  | Some p, Some id =>
      (update_checksum_slot_impl (m_layout (p_block p))
         (handle_index (m_layout (p_block p)) id) true m).2
  | _, _ => m
  end.

Definition update_flexzone_checksum (q : ShmQueue) (m : Memory) : Memory :=
  match dbp q, write_handle q with
  | Some p, Some _ => (update_checksum_flexible_zone_impl (m_layout (p_block p)) true m).2
  | _, _ => m
  end.

Definition sync_flexzone_checksum (q : ShmQueue) (m : Memory) : Memory :=
  match dbp q with
  | Some p => if 0 <? fz_sz q then (update_checksum_flexible_zone_impl (m_layout (p_block p)) true m).2
              else m
  | None => m
  end.

Definition write_commit (os : Os) (q : ShmQueue) (m : Memory) : ShmQueue * Memory :=
  match dbp q, write_handle q with
  | Some p, Some id =>
      let l := m_layout (p_block p) in
      let m := (update_checksum_slot_impl l (handle_index l id) (checksum_slot q) m).2 in
      let m := if checksum_fz q then (update_checksum_flexible_zone_impl l true m).2 else m in
      let committed := item_sz q <=? slot_stride_bytes l in
      (q <| write_handle := None |>,
       (release_write_handle os (p_checksum_policy p) l id committed m).2)
  | _, _ => (q, m)
  end.

Definition write_discard (os : Os) (q : ShmQueue) (m : Memory) : ShmQueue * Memory :=
  match dbp q, write_handle q with
  | Some p, Some id =>
      (q <| write_handle := None |>,
       (release_write_handle os (p_checksum_policy p) (m_layout (p_block p)) id false m).2)
  | _, _ => (q, m)
  end.

Definition read_release (q : ShmQueue) (m : Memory) : ShmQueue * Memory :=
  match dbc q, read_handle q with
  | Some c, Some (id, gen) =>
      (q <| read_handle := None |>,
       (release_consume_handle (c_checksum_policy c) (m_layout (c_block c)) (heartbeat_slot c) id gen m).2)
  | _, _ => (q, m)
  end.

(** A rejected item is released and counted. *)
Definition read_reject (q : ShmQueue) (m : Memory) : option Z * ShmQueue * Memory :=
  let q := q <| checksum_error_count ::= u64_succ |> in
  let '(q, m) := read_release q m in (None, q, m).

(** [acquired]: the slot id and the generation [acquire_consume_slot] answers. *)
Definition read_acquire (acquired : option (Z * Z)) (q : ShmQueue) (m : Memory) :
    option Z * ShmQueue * Memory :=
  match dbc q with
  | None => (None, q, m)
  | Some c =>
      let l := m_layout (c_block c) in
      let q := q <| read_handle := acquired |> in
      match acquired with
      | None => (None, q, m)
      | Some (id, gen) =>
          let i := handle_index l id in
          let q := q <| last_seq := id |> in
          let '(slot_ok, m) := if verify_slot q then verify_checksum_slot_impl l i true m else (true, m) in
          if negb slot_ok then read_reject q m
          else
            let '(fz_ok, m) := if verify_fz q then verify_checksum_flexible_zone_impl l true m
                               else (true, m) in
            if negb fz_ok then read_reject q m
            else if slot_stride_bytes l =? 0 then (None, q, m)
            else (Some (slot_offset l i), q, m)
      end
  end.

Definition verify_checksum (q : ShmQueue) (m : Memory) : bool * Memory :=
  match dbc q, read_handle q with
  | Some c, Some (id, _) =>
      verify_checksum_slot_impl (m_layout (c_block c)) (handle_index (m_layout (c_block c)) id) true m
  | _, _ => (true, m)
  end.

Definition verify_flexzone_checksum (q : ShmQueue) (m : Memory) : bool * Memory :=
  match dbc q, read_handle q with
  | Some c, Some _ => verify_checksum_flexible_zone_impl (m_layout (c_block c)) true m
  | _, _ => (true, m)
  end.

(** [flexzone]: the offset of the zone. *)
Definition flexzone (q : ShmQueue) : option Z :=
  if fz_sz q =? 0 then None
  else match dbp q, dbc q with
       | Some p, _ => flex_zone_ptr (m_layout (p_block p))
       | None, Some c => flex_zone_ptr (m_layout (c_block c))
       | None, None => None
       end.

(** [stop] releases what is held, then destroys the data block handles. *)
Definition stop (os : Os) (q : ShmQueue) : M ShmQueue :=
  match dbc q, read_handle q with
  | Some c, Some _ => poke (m_shm (c_block c)) (λ m, (read_release q m).2)
  | _, _ => mret ()
  end;;
  match dbp q, write_handle q with
  | Some p, Some _ => poke (m_shm (p_block p)) (λ m, (write_discard os q m).2)
  | _, _ => mret ()
  end;;
  match dbc q with Some c => DataBlockConsumer_destroy os c | None => mret () end;;
  match dbp q with Some p => DataBlockProducer_destroy p | None => mret () end;;
  mret (q <| dbc := None |> <| dbp := None |> <| read_handle := None |> <| write_handle := None |>
          <| pending_capability_fd := None |>).

Definition capacity (q : ShmQueue) (m : Memory) : option Z :=
  if is_running q then Some (snapshot_slot_count (slot_rw_get_metrics (head m))) else None.

Definition policy_info (q : ShmQueue) : string :=
  match dbc q, dbp q with
  | Some _, _ => "shm_read" | None, Some _ => "shm_write" | None, None => "shm_unconnected"
  end.

End with_crypto.

End ShmQueue.

Import ShmHeader Layout Segment FieldLayout Checksums ShmQueue.

(** * Which items a shared-memory queue delivers

    What a reader gets of an item under every combination of checksum
    policies, and how a queue goes from Standby to Active and back. *)
Module ShmQueueProps.

Section delivery.
Context `{!Crypto} (l : DataBlockLayout) (Hl : well_placed l) (Hcks : slot_checksum_size l ≠ 0).
Context (Hhash : hashes_have_32_bytes) (i : Z) (Hi : 0 ≤ i < slot_count l).
Implicit Types m : Memory.

(** Slot [i] holds [d]; it has been stamped and not yet verified, or its
    checksum has been blanked. *)
Definition stamped (d : list Z) (m : Memory) : Prop :=
  slot_data l m i = d ∧ crypto_generichash d = Some (slot_checksum l m i) ∧
  slot_cks_is_valid l m i = 0.
Definition blanked (d : list Z) (m : Memory) : Prop :=
  slot_data l m i = d ∧ slot_checksum l m i = zeros CHECKSUM_BYTES.

Lemma same_data_views m m' : data m' = data m →
  slot_data l m' i = slot_data l m i ∧ slot_checksum l m' i = slot_checksum l m i ∧
  slot_cks_is_valid l m' i = slot_cks_is_valid l m i.
Proof.
  intros Hd. destruct (same_slot_data l i m m' Hd) as [H1 H2].
  split; [done|]. split; [done|]. unfold slot_cks_is_valid. by rewrite Hd.
Qed.

Lemma stamped_data d m m' : data m' = data m → stamped d m → stamped d m'.
Proof.
  intros Hd (H1 & H2 & H3). destruct (same_data_views m m' Hd) as (E1 & E2 & E3).
  unfold stamped. rewrite E1, E2, E3. done.
Qed.
Lemma blanked_data d m m' : data m' = data m → blanked d m → blanked d m'.
Proof.
  intros Hd (H1 & H2). destruct (same_data_views m m' Hd) as (E1 & E2 & _).
  unfold blanked. rewrite E1, E2. done.
Qed.

(** Stamping and blanking keep the item. *)
Lemma update_stamps d h m :
  slot_data l m i = d → crypto_generichash d = Some h →
  stamped d (update_checksum_slot_impl l i true m).2.
Proof.
  intros Hd Hh. destruct (update_checksum_slot_impl l i true m) as [ok m1] eqn:E.
  assert (ok = true ∧ slot_cks_is_valid l m1 i = 0) as [-> Hv].
  { revert E. unfold update_checksum_slot_impl. rewrite (proj2 (Z.eqb_neq _ _)) by done.
    rewrite (proj2 (Z.leb_gt _ _)) by lia.
    pose proof (slot_place l Hl Hcks i Hi). pose proof (entry_place l Hl Hcks i Hi).
    pose proof (wp_flex_size l Hl).
    assert (slot_data l (set_slot_cks_is_valid l i 0 m) i = slot_data l m i) as ->
      by (apply load_store_other; simpl; lia).
    rewrite Hd, Hh. intros [= <- <-]. split; [done|]. unfold slot_cks_is_valid. simpl.
    rewrite store_at_lookup_ne by (rewrite (Hhash _ _ Hh); unfold CHECKSUM_BYTES; lia).
    by rewrite lookup_insert_eq. }
  destruct (fresh_stamp l Hl Hcks Hhash i m m1 Hi E) as (h' & Hh' & Hc & Hs).
  simpl. split; [congruence|]. split; [congruence|done].
Qed.

Lemma update_blanks d m :
  slot_data l m i = d → blanked d (update_checksum_slot_impl l i false m).2.
Proof.
  intros Hd. unfold update_checksum_slot_impl. rewrite (proj2 (Z.eqb_neq _ _)) by done.
  rewrite (proj2 (Z.leb_gt _ _)) by lia. simpl.
  pose proof (slot_place l Hl Hcks i Hi). pose proof (entry_place l Hl Hcks i Hi).
  pose proof (wp_flex_size l Hl). split.
  - unfold slot_data.
    rewrite load_store_other by (change (Z.of_nat (length (zeros CHECKSUM_BYTES))) with 32; lia).
    unfold set_slot_cks_is_valid. rewrite load_store_other by (simpl; lia). done.
  - apply (load_store_same _ _ (zeros CHECKSUM_BYTES)).
Qed.

Lemma verify_stamped d h m :
  stamped d m → crypto_generichash d = Some h → all_zero h = false →
  ∃ m', verify_checksum_slot_impl l i true m = (true, m').
Proof.
  intros (Hd & Hc & Hv) Hh Hz. unfold verify_checksum_slot_impl.
  rewrite (proj2 (Z.eqb_neq _ _)) by done. rewrite (proj2 (Z.leb_gt _ _)) by lia.
  assert (slot_checksum l m i = h) as -> by congruence. rewrite Hz, Hv, Hd. simpl.
  unfold verify_blake2b. rewrite Hh, bool_decide_eq_true_2 by done. eauto.
Qed.

Lemma verify_blanked d m :
  blanked d m → ∃ m', verify_checksum_slot_impl l i true m = (false, m').
Proof.
  intros (_ & Hc). unfold verify_checksum_slot_impl.
  rewrite (proj2 (Z.eqb_neq _ _)) by done. rewrite (proj2 (Z.leb_gt _ _)) by lia.
  rewrite Hc. simpl. eauto.
Qed.

Lemma flex_update_data compute m : data (update_checksum_flexible_zone_impl l compute m).2 = data m.
Proof. apply (flex_ops_keep_data l compute false m). Qed.

Lemma flex_update_head compute m :
  checksum_is_unset (head (update_checksum_flexible_zone_impl l compute m).2)
  = checksum_is_unset (head m).
Proof. unfold update_checksum_flexible_zone_impl. repeat case_match; done. Qed.

Lemma slot_update_head j compute m : head (update_checksum_slot_impl l j compute m).2 = head m.
Proof. unfold update_checksum_slot_impl. repeat case_match; done. Qed.

(** The release of a committed slot stamps it under an [Enforced] data block
    and otherwise leaves its bytes and checksum alone. *)
Lemma release_checksums_data pb m :
  data (release_checksums pb l i true m).2 =
  (if bool_decide (pb = Enforced) && negb (checksum_is_unset (head m))
   then data (update_checksum_slot_impl l i true m).2 else data m).
Proof.
  unfold release_checksums. simpl.
  destruct (bool_decide (pb = Enforced) && negb (checksum_is_unset (head m))); [|done].
  destruct (update_checksum_slot_impl l i true m) as [ok1 m1]. simpl.
  destruct (0 <? flex_size l); [|done]. rewrite <- (flex_update_data true m1).
  by destruct (update_checksum_flexible_zone_impl l true m1).
Qed.
End delivery.

Lemma release_write_data `{!Crypto} os pb l id m :
  data (release_write_handle os pb l id true m).2
  = data (release_checksums pb l (id mod slot_count l) true m).2.
Proof.
  unfold release_write_handle.
  by destruct (release_checksums pb l (id mod slot_count l) true m) as [ok m'].
Qed.

(** C19 An item committed under the writer's policy [pw], over a data block
    whose own policy is [pb], is handed to a reader of policy [pr] exactly when
    the reader does not verify or the writer's side stamped it on commit; it
    then carries the bytes that were in the slot at the commit.  Whether the
    caller stamped the slot itself before the commit makes no difference:
    under [Manual] the commit blanks that stamp, and a verifying reader rejects
    every item. *)
Theorem delivery_by_policy `{!Crypto} os q q' p c id gen h m (by_hand : bool) pw pr :
  let l := m_layout (p_block p) in
  let i := handle_index l id in
  well_placed l → slot_checksum_size l ≠ 0 → slot_stride_bytes l ≠ 0 →
  hashes_have_32_bytes →
  dbp q = Some p → write_handle q = Some id → item_sz q ≤ slot_stride_bytes l →
  dbc q' = Some c → m_layout (c_block c) = l → verify_fz q' = false →
  checksum_is_unset (head m) = false →
  crypto_generichash (slot_data l m i) = Some h → all_zero h = false →
  let q := set_checksum_policy pw q in
  let q' := set_checksum_policy pr q' in
  let m0 := if by_hand then update_checksum q m else m in
  let m1 := (write_commit os q m0).2 in
  let r := read_acquire (Some (id, gen)) q' m1 in
  slot_data l m1 i = slot_data l m i ∧
  r.1.1 = (if bool_decide (pr = ChecksumNone ∨ pw = Enforced ∨ p_checksum_policy p = Enforced)
           then Some (slot_offset l i) else None).
Proof.
  intros l i Hl Hck Hst Hh Hp Hw Hsz Hc Hlc Hfz Hun Hd Hz q1 q2 m0 m1 r.
  assert (0 ≤ i < slot_count l) as Hi.
  { unfold i, handle_index. destruct (wp_count l Hl). apply Z.mod_pos_bound. lia. }
  set (d := slot_data l m i) in *.
  assert (slot_data l m0 i = d ∧ checksum_is_unset (head m0) = false) as [Hd0 Hu0].
  { unfold m0. destruct by_hand; [|done]. unfold update_checksum, q1. simpl. rewrite Hp, Hw.
    fold l. change (handle_index l id) with i. rewrite slot_update_head.
    split; [|done]. by apply (update_stamps l Hl Hck Hh i Hi d h). }
  assert (∃ mf, data m1 = data (release_checksums (p_checksum_policy p) l i true mf).2 ∧
                data mf = data (update_checksum_slot_impl l i (bool_decide (pw = Enforced)) m0).2 ∧
                checksum_is_unset (head mf) = false) as (mf & Hm1 & Hmf & Huf).
  { unfold m1, write_commit, q1. simpl. rewrite Hp, Hw. fold l. change (handle_index l id) with i.
    rewrite (proj2 (Z.leb_le _ _) Hsz). simpl. rewrite release_write_data.
    eexists. split; [reflexivity|]. split.
    - case_match; [|done]. apply flex_update_data.
    - case_match; [rewrite flex_update_head|]; by rewrite slot_update_head. }
  assert ((pw = Enforced ∨ p_checksum_policy p = Enforced) → stamped l i d m1) as Hyes.
  { intros Hor. eapply stamped_data; [exact Hm1|].
    assert (slot_data l mf i = d) as Hdf.
    { rewrite (proj1 (same_data_views l i _ mf Hmf)). case_bool_decide;
        [by apply (update_stamps l Hl Hck Hh i Hi d h)|by apply update_blanks]. }
    pose proof (release_checksums_data l i (p_checksum_policy p) mf) as Hrel. rewrite Huf in Hrel.
    case_bool_decide; simpl in Hrel; (eapply stamped_data; [exact Hrel|]).
    - by apply (update_stamps l Hl Hck Hh i Hi d h).
    - destruct Hor as [->|]; [|done]. eapply stamped_data; [exact Hmf|].
      by apply (update_stamps l Hl Hck Hh i Hi d h). }
  assert (¬ (pw = Enforced ∨ p_checksum_policy p = Enforced) → blanked l i d m1) as Hno.
  { intros Hor. eapply blanked_data; [exact Hm1|].
    pose proof (release_checksums_data l i (p_checksum_policy p) mf) as Hrel.
    rewrite bool_decide_eq_false_2 in Hrel by tauto. eapply blanked_data; [exact Hrel|].
    eapply blanked_data; [exact Hmf|]. rewrite bool_decide_eq_false_2 by tauto.
    by apply update_blanks. }
  split. { destruct (decide (pw = Enforced ∨ p_checksum_policy p = Enforced)) as [Ho|Ho];
             [by destruct (Hyes Ho)|by destruct (Hno Ho)]. }
  unfold r, read_acquire, q2. simpl. rewrite Hc, Hlc, Hfz. change (handle_index l id) with i.
  rewrite (proj2 (Z.eqb_neq _ _) Hst).
  destruct (decide (pr = ChecksumNone)) as [->|Hpr].
  { rewrite (bool_decide_eq_true_2 (_ ∨ _)) by auto. done. }
  rewrite (bool_decide_eq_true_2 (pr ≠ _)) by done.
  destruct (decide (pw = Enforced ∨ p_checksum_policy p = Enforced)) as [Ho|Ho].
  - destruct (verify_stamped l Hck i Hi d h m1 (Hyes Ho) Hd Hz) as [m2 ->].
    rewrite (bool_decide_eq_true_2 (_ ∨ _)) by tauto. done.
  - destruct (verify_blanked l Hck i Hi d m1 (Hno Ho)) as [m2 ->].
    rewrite (bool_decide_eq_false_2 (_ ∨ _)) by tauto. simpl.
    done.
Qed.

(** ** A concrete item *)

Definition sample_os : Os :=
  mkOs (SlotRW.SlotRW.mkPlatform 1000 (λ _, true)) 42 (λ _ _, true).

Definition sample_block : DataBlock := mkDataBlock "chan" Create 0 layout_sample false.
Definition sample_head : SharedMemoryHeader :=
  stamp_config sample_os config_sample layout_sample (stamp_identity config_sample 20480).
Definition sample_item : Memory :=
  store 16512 [1; 2; 3; 4] ((zero_memory 20480) <| head := sample_head |>).

Definition writer_queue : ShmQueue :=
  mkQueue None (Some (mkProducer sample_block Manual 8192 8192)) None (Some 4) 100 8192 "chan"
    false false false false false 0 false None config_sample "" "" None None 0.
Definition reader_queue : ShmQueue :=
  mkQueue (Some (mkConsumer sample_block Manual 8192 8192 (Some 0%nat) [] [])) None None None 100 8192
    "chan" false false false false false 0 true None default_config "" "" None None 0.

Lemma delivery_by_policy_witness :
  (read_acquire (H := toy_hash) (Some (4, 1)) (set_checksum_policy Manual reader_queue)
     (write_commit (H := toy_hash) sample_os (set_checksum_policy Manual writer_queue)
        (update_checksum (H := toy_hash) (set_checksum_policy Manual writer_queue) sample_item)).2).1.1 = None.
Proof.
  refine (proj2 (@delivery_by_policy toy_hash sample_os writer_queue reader_queue
    (mkProducer sample_block Manual 8192 8192)
    (mkConsumer sample_block Manual 8192 8192 (Some 0%nat) [] []) 4 1 (10 :: replicate 31 1)
    sample_item true Manual Manual layout_sample_placed _ _ toy_hash_length eq_refl eq_refl _
    eq_refl eq_refl eq_refl eq_refl _ eq_refl)); vm_compute; (reflexivity || discriminate).
Defined.

End ShmQueueProps.
