(* ===== verification/Attach.v ===== *)
(** * Which consumers a block accepts

    The state the creating factory leaves, what every later attachment finds
    there, and what an attachment finds while the creation is under way.

    Module [AttachProps] comes first: creating a segment and attaching to it. *)

From S2P Require Import Prelude.
From S2P Require SlotRW.
From S2P Require Import ShmHeader.
From S2P Require Import Layout.
From S2P Require Import Segment.
From S2P Require Import Checksums.
Import ShmHeader Layout Segment Checksums.

(** * Creating a segment and attaching to it

    The layout an attacher reconstructs from the header is the creator's; which
    expectations a consumer may have of a block, and what it gets; what an
    attacher sees of a block whose creation is under way. *)
Module AttachProps.

(** What the creating constructors accept. *)
Record accepted (c : DataBlockConfig) : Prop := mkAccepted {
  acc_widths : config_widths c;
  acc_policy : cfg_policy c ≠ PolicyUnset;
  acc_sync : cfg_consumer_sync_policy c ≠ SyncUnset;
  acc_page : cfg_physical_page_size c ≠ PageUnset;
  acc_capacity : cfg_ring_buffer_capacity c ≠ 0;
  acc_checksum : cfg_checksum_type c ≠ ChecksumUnset;
  acc_unit : effective_logical_unit_size c ≤ u32_max;
  acc_fits : footprint c ≤ u64_max;
}.

Lemma accepted_unit c : accepted c → 0 < effective_logical_unit_size c ≤ u32_max.
Proof.
  intros [Hw _ _ Hp _ _ Hu Hf]. split; [|done]. destruct (config_sizes c Hw Hf) as [Hlm _].
  destruct (effective_unit_bounds c Hw Hlm) as (_ & _ & _ & H). by apply H; right.
Qed.


(** ** The header describes the layout *)

(** The fields [from_header] reads, as the creator of [c] stores them. *)
Record describes (c : DataBlockConfig) (h : SharedMemoryHeader) : Prop := mkDescribes {
  dsc_capacity : ring_buffer_capacity h = cfg_ring_buffer_capacity c;
  dsc_unit : logical_unit_size h = effective_logical_unit_size c;
  dsc_page : physical_page_size h = to_bytes (cfg_physical_page_size c);
  dsc_flex : flexible_zone_size h = align_up PAGE_ALIGNMENT (cfg_flex_zone_size c) mod 2 ^ 32;
  dsc_checksum : checksum_type h = checksum_code (cfg_checksum_type c);
}.

Lemma page_bytes_mod u : to_bytes u mod 2 ^ 32 = to_bytes u.
Proof. by destruct u. Qed.

Lemma from_config_flex c l : from_config c = Some l → flex_size l = align_up PAGE_ALIGNMENT (cfg_flex_zone_size c).
Proof.
  unfold from_config, place_sections. case_bool_decide; [done|]. by intros [= <-].
Qed.

Lemma stamped_describes os c l :
  from_config c = Some l → describes c (stamp_config os c l (stamp_identity c (total_size l))).
Proof.
  intros Hl. split; try done.
  - simpl. apply page_bytes_mod.
  - simpl. by rewrite (from_config_flex c l Hl).
Qed.

Lemma from_header_spec c h :
  accepted c → describes c h →
  from_header h = place_sections (config_slots c) false
    (align_up PAGE_ALIGNMENT (cfg_flex_zone_size c) mod 2 ^ 32) (effective_logical_unit_size c)
    (to_bytes (cfg_physical_page_size c)) (structured_buffer_size c).
Proof.
  intros Ha [Hc Hu Hp Hf Hk]. pose proof (accepted_unit c Ha) as [Hpos _].
  assert (get_slot_stride_bytes h = effective_logical_unit_size c) as Hs
    by (unfold get_slot_stride_bytes; rewrite Hu, bool_decide_eq_true_2 by lia; done).
  assert (get_slot_count h = config_slots c) as Hn by (unfold get_slot_count; by rewrite Hc).
  assert (checksum_is_unset h = false) as Hun.
  { unfold checksum_is_unset. rewrite Hk.
    by destruct (cfg_checksum_type c) eqn:E; [|destruct (acc_checksum c Ha)]. }
  unfold from_header. by rewrite Hs, Hn, Hun, Hf, Hp.
Qed.

Lemma from_config_spec c :
  accepted c → from_config c = place_sections (config_slots c) false
    (align_up PAGE_ALIGNMENT (cfg_flex_zone_size c)) (effective_logical_unit_size c)
    (to_bytes (cfg_physical_page_size c)) (structured_buffer_size c).
Proof. intros Ha. unfold from_config. by rewrite bool_decide_eq_false_2 by apply Ha. Qed.

(** The layout an attacher reconstructs from the header is the one the
    creator computed from its configuration exactly when the rounded flexible
    zone is smaller than 4 GiB: the header keeps that size in 32 bits, and the
    constructors, which do check the slot size, let a larger zone through. *)
Theorem header_layout_roundtrip os c l :
  accepted c → from_config c = Some l →
  (from_header (stamp_config os c l (stamp_identity c (total_size l))) = Some l
   ↔ align_up PAGE_ALIGNMENT (cfg_flex_zone_size c) < 2 ^ 32).
Proof.
  intros Ha Hl. rewrite (from_header_spec c) by (done || by apply stamped_describes).
  pose proof (page_align_range (cfg_flex_zone_size c)) as Hr. split.
  - intros H. pose proof (from_config_flex c l Hl) as Hf. revert H. unfold place_sections.
    case_bool_decide; [done|]. intros [= <-]. simpl in Hf.
    pose proof (Z.mod_pos_bound (align_up PAGE_ALIGNMENT (cfg_flex_zone_size c)) (2 ^ 32)). lia.
  - intros Hlt. rewrite Z.mod_small by lia. by rewrite <- from_config_spec.
Qed.

Lemma config_sample_accepted : accepted config_sample.
Proof. split; [exact config_sample_widths|..]; vm_compute; discriminate. Qed.

Definition huge_zone_sample : DataBlockConfig := config_sample <| cfg_flex_zone_size := 2 ^ 32 |>.

Lemma huge_zone_accepted : accepted huge_zone_sample.
Proof. split; [split; vm_compute; split; discriminate|..]; vm_compute; discriminate. Qed.

Definition plain_os : Os := mkOs (SlotRW.SlotRW.mkPlatform 1000 (λ _, true)) 42 (λ _ _, true).

Lemma header_layout_roundtrip_witness :
  from_header (stamp_config plain_os config_sample layout_sample (stamp_identity config_sample 20480))
    = Some layout_sample ∧
  from_header (stamp_config plain_os huge_zone_sample
                 (default layout_sample (from_config huge_zone_sample))
                 (stamp_identity huge_zone_sample 4294979584)) ≠ from_config huge_zone_sample.
Proof.
  split.
  - apply (header_layout_roundtrip plain_os config_sample layout_sample config_sample_accepted);
      vm_compute; reflexivity.
  - destruct (from_config huge_zone_sample) as [l|] eqn:E; [|vm_compute in E; discriminate E].
    intros H. assert (total_size l = 4294979584) as Ht by (vm_compute in E; by injection E as <-).
    rewrite <- Ht in H.
    apply (header_layout_roundtrip plain_os huge_zone_sample l huge_zone_accepted E) in H.
    vm_compute in H. discriminate H.
Defined.

End AttachProps.

Import ShmHeader Layout Segment Checksums AttachProps.

Module Attach.

(** Unfolding the calls in order. *)
Create HintDb segment.
Create Rewrite HintDb segment.

Lemma M_bind_ok {A B} (f : A → M B) (x : M A) w a w' : x w = (Ok a, w') → (x ≫= f) w = f a w'.
Proof. unfold mbind, M_mbind, M_bind. by intros ->. Qed.

Lemma guard_ok e (b : bool) w : b = true → guard_or e b w = (Ok (), w).
Proof. by intros ->. Qed.

Lemma ready_ok w : ready w = true → lifecycle_ready w = (Ok (), w).
Proof. unfold lifecycle_ready. by intros ->. Qed.

Lemma layout_ok l w : layout_or_throw (Some l) w = (Ok l, w).
Proof. done. Qed.

(** Memory behind a name that is in place. *)
Lemma peek_at {A} r n f s id m (g : Memory → A) :
  peek id g (mkWorld r n f (<[id := m]> s)) = (Ok (g m), mkWorld r n f (<[id := m]> s)).
Proof. unfold peek, memory_of. simpl. by rewrite lookup_insert_eq. Qed.

Lemma poke_at r n f s id m g :
  poke id g (mkWorld r n f (<[id := m]> s)) = (Ok (), mkWorld r n f (<[id := g m]> s)).
Proof. unfold poke. simpl. by rewrite alter_insert_eq. Qed.

#[local] Opaque stamp_config stamp_identity store_schemas update_producer_heartbeat_impl.

Section with_crypto.
Context `{!Crypto} (Htotal : ∀ d, is_Some (crypto_generichash d)).

Lemma check_config_accepted c w : accepted c → check_config c w = (Ok (), w).
Proof.
  intros []. unfold check_config.
  rewrite (M_bind_ok _ _ _ () w) by (apply guard_ok; by apply bool_decide_eq_true_2).
  rewrite (M_bind_ok _ _ _ () w) by (apply guard_ok; by apply bool_decide_eq_true_2).
  rewrite (M_bind_ok _ _ _ () w) by (apply guard_ok; by apply bool_decide_eq_true_2).
  rewrite (M_bind_ok _ _ _ () w) by (apply guard_ok; by apply bool_decide_eq_true_2).
  apply guard_ok. by apply bool_decide_eq_true_2.
Qed.

(** The header when the constructor returns. *)
Definition sealed_header (os : Os) (c : DataBlockConfig) (l : DataBlockLayout) : SharedMemoryHeader :=
  let h := stamp_config os c l (stamp_identity c (total_size l)) in
  update_producer_heartbeat_impl os
    (h <| header_layout_hash := schema_hash get_shared_memory_header_schema_info |>
       <| layout_checksum := default [] (crypto_generichash (layout_checksum_fill h)) |>).

Lemma fill_ignores_hash h x :
  layout_checksum_fill (h <| header_layout_hash := x |>) = layout_checksum_fill h.
Proof. done. Qed.

Lemma seal_spec os c l :
  seal os (stamp_config os c l (stamp_identity c (total_size l))) = Some (sealed_header os c l).
Proof using Htotal.
  unfold sealed_header. generalize (stamp_config os c l (stamp_identity c (total_size l))) as h.
  intros h. unfold seal, store_layout_checksum. rewrite fill_ignores_hash.
  by destruct (Htotal (layout_checksum_fill h)) as [x ->].
Qed.

Lemma published_at os c l sz h st d :
  published os c l (mkMemory sz h st d)
  = mkMemory sz (stamp_config os c l (stamp_identity c (total_size l)))
      (reset_slot_states (slot_count l) st) d.
Proof. done. Qed.

#[local] Opaque sealed_header published seal.

Lemma init_producer_at os r n f s id sz h st d c l :
  accepted c →
  init_producer_state_ os id c l (mkWorld r n f (<[id := mkMemory sz h st d]> s)) =
  (Ok (), mkWorld r n f (<[id := mkMemory sz (sealed_header os c l)
                            (reset_slot_states (slot_count l) st) d]> s)).
Proof using Htotal.
  intros Ha. unfold init_producer_state_.
  rewrite (M_bind_ok _ _ _ _ _ (poke_at _ _ _ _ _ _ _)).
  rewrite (M_bind_ok _ _ _ () _ (guard_ok _ _ _ (proj2 (Z.leb_le _ _) (acc_unit c Ha)))).
  rewrite (M_bind_ok _ _ _ _ _ (poke_at _ _ _ _ _ _ _)).
  rewrite (M_bind_ok _ _ _ _ _ (peek_at _ _ _ _ _ _ _)).
  cbn [update eta eta_memory seg_size head slot_states data]. rewrite published_at. cbn [head].
  rewrite seal_spec, poke_at. done.
Qed.

(** What the factory leaves under the name. *)
Definition created_memory (os : Os) (c : DataBlockConfig) (fs ds : option SchemaInfo)
    (l : DataBlockLayout) : Memory :=
  mkMemory (total_size l) (store_schemas c fs ds (sealed_header os c l)) ∅ ∅.

Definition created_world (os : Os) (name : string) (c : DataBlockConfig) (fs ds : option SchemaInfo)
    (l : DataBlockLayout) (w : World) : World :=
  mkWorld (ready w) (<[name := fresh (dom (segments w))]> (delete name (names w))) (fds w)
    (<[fresh (dom (segments w)) := created_memory os c fs ds l]> (segments w)).

Definition created_producer (name : string) (c : DataBlockConfig) (l : DataBlockLayout) (w : World) :
    DataBlockProducer :=
  mkProducer (mkDataBlock name Create (fresh (dom (segments w))) l true) (cfg_checksum_policy c)
    (flex_offset l) (flex_size l).

Lemma create_datablock_spec os name c fs ds l w :
  ready w = true → accepted c → from_config c = Some l → (∀ n s, maps_shm os n s = true) →
  create_datablock_producer_impl os name c fs ds w
  = (Ok (created_producer name c l w), created_world os name c fs ds l w).
Proof using Htotal.
  intros Hr Ha Hl Hm. destruct w as [r n f s]. simpl in Hr. subst r.
  pose proof (config_well_placed c l (acc_widths c Ha) (acc_fits c Ha) Hl) as Hwp.
  assert (0 < total_size l) as Ht.
  { destruct Hwp as [[? ?] ? [? ?] ? [?|?] ? ? ? ? ?]; [nia|]. 
    pose proof (Z.mul_nonneg_nonneg (slot_count l) (slot_stride_bytes l)). lia. }
  unfold create_datablock_producer_impl, DataBlock_create.
  rewrite (M_bind_ok _ _ _ _ _ (ready_ok (mkWorld true n f s) eq_refl)).
  assert (∀ B (k : DataBlock → M B) x w' b, x (mkWorld true n f s) = (Ok b, w') →
            (x ≫= k) (mkWorld true n f s) = k b w') as Hb by (intros; by apply M_bind_ok).
  eapply eq_trans; [apply Hb|].
  { rewrite (M_bind_ok _ _ _ () _ (check_config_accepted c _ Ha)). rewrite Hl.
    rewrite (M_bind_ok _ _ _ _ _ (layout_ok l _)).
    rewrite (M_bind_ok _ (shm_create os name (total_size l)) (mkWorld true n f s)
               (Some (fresh (dom s)))
               (mkWorld true (<[name := fresh (dom s)]> (delete name n)) f
                  (<[fresh (dom s) := zero_memory (total_size l)]> s)))
      by (unfold shm_create; rewrite (proj2 (Z.eqb_neq _ _)) by lia; simpl; by rewrite Hm).
    unfold zero_memory. rewrite (M_bind_ok _ _ _ _ _ (init_producer_at os _ _ _ _ _ _ _ _ _ c l Ha)). reflexivity. }
  unfold finish_producer. rewrite Hl.
  rewrite (M_bind_ok _ _ _ _ _ (layout_ok l _)).
  rewrite (M_bind_ok _ _ _ _ _ (poke_at _ _ _ _ _ _ _)).
  unfold created_world, created_memory, created_producer, on_head. simpl.
  unfold reset_slot_states. rewrite map_filter_empty. done.
Qed.

(** ** What an attachment finds *)

#[local] Transparent stamp_config stamp_identity store_schemas update_producer_heartbeat_impl sealed_header.

Section created.
Context (os : Os) (c : DataBlockConfig) (fs ds : option SchemaInfo) (l : DataBlockLayout).
Let h := store_schemas c fs ds (sealed_header os c l).

Lemma created_ident :
  is_header_magic_valid h = true ∧ version_major h = HEADER_VERSION_MAJOR ∧
  version_minor h = HEADER_VERSION_MINOR ∧ total_block_size h = total_size l.
Proof. repeat split. Qed.

Lemma created_describes : from_config c = Some l → describes c h.
Proof.
  intros Hl. split; [reflexivity|reflexivity| | |reflexivity].
  - transitivity (to_bytes (cfg_physical_page_size c) mod 2 ^ 32); [reflexivity|apply page_bytes_mod].
  - transitivity (flex_size l mod 2 ^ 32); [reflexivity|by rewrite (from_config_flex c l Hl)].
Qed.

Lemma created_layout_hash : header_layout_hash_ok h = true.
Proof. apply bool_decide_eq_true_2. reflexivity. Qed.

(** The bytes of the layout checksum, from the configuration. *)
Definition config_fill : list Z :=
  append_le_u32 (cfg_ring_buffer_capacity c) ++
  append_le_u32 (to_bytes (cfg_physical_page_size c) mod 2 ^ 32) ++
  append_le_u32 (effective_logical_unit_size c) ++ append_le_u64 (flex_size l mod 2 ^ 32) ++
  append_u8 (checksum_code (cfg_checksum_type c)) ++ append_u8 (policy_code (cfg_policy c)) ++
  append_u8 (sync_code (cfg_consumer_sync_policy c)) ++ append_u8 0.

Lemma created_fill : layout_checksum_fill h = config_fill.
Proof. unfold layout_checksum_fill, config_fill. reflexivity. Qed.

Lemma stamped_fill :
  layout_checksum_fill (stamp_config os c l (stamp_identity c (total_size l))) = config_fill.
Proof. unfold layout_checksum_fill, config_fill. reflexivity. Qed.

Lemma created_layout_checksum : validate_layout_checksum h = true.
Proof using Htotal.
  unfold validate_layout_checksum, verify_blake2b.
  assert (layout_checksum h = default [] (crypto_generichash
            (layout_checksum_fill (stamp_config os c l (stamp_identity c (total_size l)))))) as ->
    by reflexivity.
  rewrite created_fill, stamped_fill.
  destruct (Htotal config_fill) as [x ->]. by apply bool_decide_eq_true_2.
Qed.

Lemma created_schemas :
  flexzone_schema_hash h = from_option schema_hash (zeros CHECKSUM_BYTES) fs ∧
  datablock_schema_hash h = from_option schema_hash (zeros CHECKSUM_BYTES) ds ∧
  schema_version h = from_option (λ s, pack (schema_ver s)) 0 ds.
Proof. repeat split. Qed.

Lemma created_consumers :
  consumer_heartbeats h = replicate MAX_CONSUMER_HEARTBEATS (mkHeartbeat 0 0 (zeros 40) (zeros 32)) ∧
  active_consumer_count h = 0 ∧ checksum_policy h = cfg_checksum_policy c.
Proof. repeat split. Qed.
End created.

(** A packed major version keeps ten bits. *)
Lemma unpack_pack_major v : major (unpack (pack v)) = Z.land (major v) 1023.
Proof.
  unfold unpack, pack. cbn [major].
  rewrite !Z.shiftr_lor, Z.shiftr_shiftl_l, Z.shiftl_0_r by lia.
  assert (∀ x n, 0 ≤ x < 2 ^ n → 0 ≤ n → Z.shiftr x n = 0) as Hz.
  { intros x n Hx Hn. rewrite Z.shiftr_div_pow2 by done. by apply Z.div_small. }
  assert (0 ≤ Z.land (minor v) 1023 < 2 ^ 10) as Hmin
    by (change 1023 with (Z.ones 10); rewrite Z.land_ones by lia; apply Z.mod_pos_bound; lia).
  assert (0 ≤ Z.land (patch v) 4095 < 2 ^ 12) as Hpat
    by (change 4095 with (Z.ones 12); rewrite Z.land_ones by lia; apply Z.mod_pos_bound; lia).
  rewrite Z.shiftr_shiftl_r, (Hz (Z.land (minor v) 1023) (22 - 12)) by lia.
  rewrite (Hz (Z.land (patch v) 4095) 22) by lia.
  rewrite !Z.lor_0_r, <- Z.land_assoc. done.
Qed.

(** ** Expectations *)

(** The configuration a consumer expects, against the creator's. *)
Definition expected_agrees (c : DataBlockConfig) (e : option DataBlockConfig) : bool :=
  match e with
  | None => true
  | Some e =>
      (align_up PAGE_ALIGNMENT (cfg_flex_zone_size c) =? align_up PAGE_ALIGNMENT (cfg_flex_zone_size e)) &&
      (cfg_ring_buffer_capacity c =? cfg_ring_buffer_capacity e) &&
      bool_decide (cfg_physical_page_size c = cfg_physical_page_size e) &&
      (effective_logical_unit_size c =? effective_logical_unit_size e mod 2 ^ 32) &&
      bool_decide (cfg_checksum_type c = cfg_checksum_type e)
  end.

(** The schema a consumer expects, against the one the creator stored. *)
Definition schema_agrees (stored wanted : option SchemaInfo) : bool :=
  match wanted, stored with
  | None, _ => true
  | Some _, None => false
  | Some s, Some t => negb (all_zero (schema_hash t)) && bool_decide (schema_hash t = schema_hash s)
  end.
Definition version_agrees (stored wanted : option SchemaInfo) : bool :=
  match wanted, stored with
  | Some s, Some t => Z.land (major (schema_ver t)) 1023 =? major (schema_ver s)
  | _, _ => true
  end.

Lemma expected_agrees_spec c h e :
  accepted c → describes c h → validate_layout_checksum h = true →
  align_up PAGE_ALIGNMENT (cfg_flex_zone_size c) < 2 ^ 32 →
  validate_attach_layout_and_config h e = expected_agrees c e.
Proof.
  intros Ha Hd Hv Hf. unfold validate_attach_layout_and_config. rewrite Hv. simpl.
  destruct e as [e|]; [|done]. simpl. pose proof (accepted_unit c Ha) as [Hpos _].
  pose proof (page_align_range (cfg_flex_zone_size c)).
  destruct Hd as [Hc Hu Hp Hfl Hk].
  assert (get_slot_stride_bytes h = effective_logical_unit_size c) as ->
    by (unfold get_slot_stride_bytes; rewrite Hu, bool_decide_eq_true_2 by lia; done).
  rewrite Hfl, Hc, Hp, Hk, Z.mod_small, page_bytes_mod by lia. f_equal; [f_equal; f_equal|].
  - destruct (cfg_physical_page_size c), (cfg_physical_page_size e); done.
  - destruct (cfg_checksum_type c), (cfg_checksum_type e); done.
Qed.

Lemma stored_hash_spec stored wanted :
  match wanted with
  | None => true
  | Some s => stored_hash_matches (from_option schema_hash (zeros CHECKSUM_BYTES) stored) s
  end = schema_agrees stored wanted.
Proof. by destruct wanted, stored. Qed.

Lemma datablock_schema_spec h ds ds' :
  datablock_schema_hash h = from_option schema_hash (zeros CHECKSUM_BYTES) ds →
  schema_version h = from_option (λ s, pack (schema_ver s)) 0 ds →
  datablock_schema_ok h ds' = schema_agrees ds ds' && version_agrees ds ds'.
Proof.
  intros H1 H2. unfold datablock_schema_ok. destruct ds' as [s|]; [|done].
  rewrite H1, H2. destruct ds as [t|]; [|done]. cbn [from_option].
  rewrite unpack_pack_major. reflexivity.
Qed.

(** ** Attaching *)

(** The same checks on any header, so that none is evaluated twice. *)
Lemma attach_at r n f id s sz h st d l :
  is_header_magic_valid h = true → version_major h = HEADER_VERSION_MAJOR →
  version_minor h ≤ HEADER_VERSION_MINOR → total_block_size h = sz → from_header h = Some l →
  attach_consumer_state_ id (mkWorld r n f (<[id := mkMemory sz h st d]> s))
  = (Ok l, mkWorld r n f (<[id := mkMemory sz h st d]> s)).
Proof.
  intros Hm Hv Hn Ht Hl. unfold attach_consumer_state_.
  rewrite (M_bind_ok _ _ _ _ _ (peek_at _ _ _ _ _ _ _)). cbn [head seg_size].
  rewrite Hm, Hv, Ht, Hl. cbn [negb]. rewrite !bool_decide_eq_false_2 by (intros []; done).
  by rewrite (proj2 (Z.ltb_ge _ _) Hn).
Qed.

Lemma check_at b e fs' ds' r n f s sz h st d l (ok : bool) :
  header_layout_hash_ok h = true → from_header h = Some l →
  validate_attach_layout_and_config h e && (flexzone_schema_ok h fs' && datablock_schema_ok h ds') = ok →
  ∃ w, check_attachment b e fs' ds' (mkWorld r n f (<[m_shm b := mkMemory sz h st d]> s))
       = (Ok (if ok then Some l else None), w) ∧
  (ok = true → w = mkWorld r n f (<[m_shm b := mkMemory sz h st d]> s)).
Proof.
  intros Hh Hl <-. unfold check_attachment.
  rewrite (M_bind_ok _ _ _ _ _ (peek_at _ _ _ _ _ _ _)). cbn [head]. rewrite Hh. cbn [negb].
  destruct (validate_attach_layout_and_config h e); cbn [negb andb];
    [|eexists; split; [reflexivity|discriminate]].
  rewrite Hl, (M_bind_ok _ _ _ _ _ (layout_ok l _)).
  destruct (_ && _); [eexists; split; [reflexivity|done]|].
  rewrite (M_bind_ok _ _ _ _ _ (poke_at _ _ _ _ _ _ _)).
  eexists; split; [reflexivity|discriminate].
Qed.

#[local] Opaque store_schemas sealed_header.

Section attach.
Context (os : Os) (c : DataBlockConfig) (fs ds : option SchemaInfo) (l : DataBlockLayout).
Context (Ha : accepted c) (Hlc : from_config c = Some l).
Context (Hflex : align_up PAGE_ALIGNMENT (cfg_flex_zone_size c) < 2 ^ 32).
Let h := store_schemas c fs ds (sealed_header os c l).

Lemma created_layout : from_header h = Some l.
Proof using Ha Hlc Hflex.
  pose proof (page_align_range (cfg_flex_zone_size c)).
  rewrite (from_header_spec c h Ha (created_describes os c fs ds l Hlc)).
  rewrite Z.mod_small by lia. by rewrite <- from_config_spec.
Qed.

Lemma attach_created r n f id s :
  attach_consumer_state_ id (mkWorld r n f (<[id := mkMemory (total_size l) h ∅ ∅]> s))
  = (Ok l, mkWorld r n f (<[id := mkMemory (total_size l) h ∅ ∅]> s)).
Proof using Ha Hlc Hflex.
  destruct (created_ident os c fs ds l) as (Hm & Hv & Hn & Ht).
  apply attach_at; [exact Hm|exact Hv|apply Z.eq_le_incl, Hn|exact Ht|apply created_layout].
Qed.

Definition acceptable (e : option DataBlockConfig) (fs' ds' : option SchemaInfo) : bool :=
  expected_agrees c e && (schema_agrees fs fs' && (schema_agrees ds ds' && version_agrees ds ds')).

Lemma check_created e fs' ds' b r n f s :
  ∃ w, check_attachment b e fs' ds'
         (mkWorld r n f (<[m_shm b := mkMemory (total_size l) h ∅ ∅]> s))
       = (Ok (if acceptable e fs' ds' then Some l else None), w) ∧
  (acceptable e fs' ds' = true →
   w = mkWorld r n f (<[m_shm b := mkMemory (total_size l) h ∅ ∅]> s)).
Proof using Ha Hlc Hflex Htotal.
  apply check_at; [apply created_layout_hash|apply created_layout|].
  unfold acceptable. f_equal.
  - exact (expected_agrees_spec c h e Ha (created_describes os c fs ds l Hlc)
             (created_layout_checksum os c fs ds l) Hflex).
  - destruct (created_schemas os c fs ds l) as (H1 & H2 & H3).
    f_equal; [|exact (datablock_schema_spec h ds ds' H2 H3)].
    unfold flexzone_schema_ok. fold h in H1. rewrite H1. apply stored_hash_spec.
Qed.
End attach.

(** C22 After [create_datablock_producer_impl] has made a block (with a
    flexible zone below 4 GiB), a consumer that looks it up by name gets a
    handle exactly when the configuration it expects rounds to the creator's
    sizes with the same capacity, page size and checksum type, and the schemas
    it expects are the ones stored, the slot schema with a major version
    below 1024; otherwise the factory returns null.  The policy and the
    consumer policy of the expected configuration are not compared
    ([expected_policies_ignored]).  The handle is on the creator's segment, with
    the creator's layout and flexible zone, and holds the first heartbeat entry. *)
Theorem consumer_attachment_decision os name c fs ds l w expected fs' ds' uid cname :
  ready w = true → accepted c → from_config c = Some l → (∀ n s, maps_shm os n s = true) →
  align_up PAGE_ALIGNMENT (cfg_flex_zone_size c) < 2 ^ 32 →
  let created := create_datablock_producer_impl os name c fs ds w in
  let r' := (find_datablock_consumer_impl os name expected fs' ds' uid cname created.2).1 in
  ∃ p, created.1 = Ok p ∧ m_layout (p_block p) = l ∧
  (if acceptable c fs ds expected fs' ds'
   then ∃ k, r' = Ok (Some k) ∧ m_shm (c_block k) = m_shm (p_block p) ∧ m_layout (c_block k) = l ∧
             c_flex_zone_offset k = p_flex_zone_offset p ∧ c_flex_zone_size k = p_flex_zone_size p ∧
             heartbeat_slot k = Some 0%nat
   else r' = Ok None).
Proof using Htotal.
  intros Hr Ha Hl Hm Hflex. cbv zeta. rewrite (create_datablock_spec os name c fs ds l w Hr Ha Hl Hm).
  eexists. split; [done|]. split; [done|]. cbn [m_layout p_block created_producer].
  unfold find_datablock_consumer_impl.
  rewrite (M_bind_ok _ lifecycle_ready _ _ _ (ready_ok (created_world os name c fs ds l w) Hr)).
  unfold created_world, created_memory. set (id := fresh (dom (segments w))).
  rewrite (M_bind_ok _ (DataBlock_attach os name ReadAttach) _
             (mkDataBlock name ReadAttach id l true)
             (mkWorld (ready w) (<[name := id]> (delete name (names w))) (fds w)
                (<[id := mkMemory (total_size l) (store_schemas c fs ds (sealed_header os c l)) ∅ ∅]>
                   (segments w)))).
  2:{ unfold DataBlock_attach, shm_attach.
      rewrite (M_bind_ok _ _ _ (Some id) (mkWorld (ready w) (<[name := id]> (delete name (names w)))
        (fds w) (<[id := mkMemory (total_size l) (store_schemas c fs ds (sealed_header os c l)) ∅ ∅]>
                   (segments w)))) by (cbn [names]; by rewrite lookup_insert_eq, Hm).
      by rewrite (M_bind_ok _ _ _ _ _ (attach_created os c fs ds l Ha Hl Hflex _ _ _ _ _)). }
  destruct (check_created os c fs ds l Ha Hl Hflex expected fs' ds'
              (mkDataBlock name ReadAttach id l true) (ready w)
              (<[name := id]> (delete name (names w))) (fds w) (segments w)) as (w2 & Hc & Hw2).
  rewrite (M_bind_ok _ _ _ _ _ Hc). destruct (acceptable c fs ds expected fs' ds'); [|done].
  rewrite Hw2 by done. unfold finish_consumer, on_memory. cbn [m_shm].
  set (m := mkMemory (total_size l) (store_schemas c fs ds (sealed_header os c l)) ∅ ∅).
  set (ub := from_option (strncpy_id 40) (zeros 40) uid).
  set (nb := from_option (strncpy_id 32) (zeros 32) cname).
  eexists. split.
  { unfold mbind at 1, M_mbind, M_bind. unfold mbind at 1, M_mbind, M_bind. rewrite peek_at.
    unfold mbind at 1, M_mbind, M_bind. unfold mbind at 1, M_mbind, M_bind. rewrite peek_at.
    unfold mbind at 1, M_mbind, M_bind. rewrite poke_at. reflexivity. }
  cbn [m_shm c_block m_layout p_block c_flex_zone_offset c_flex_zone_size p_flex_zone_offset
       p_flex_zone_size heartbeat_slot].
  repeat split.
Qed.

(** Attaching looks neither at the policy nor at the consumer policy that the
    caller expects. *)
Lemma expected_policies_ignored os name e policy sync fs ds uid cname w :
  find_datablock_consumer_impl os name
    (Some (e <| cfg_policy := policy |> <| cfg_consumer_sync_policy := sync |>)) fs ds uid cname w =
  find_datablock_consumer_impl os name (Some e) fs ds uid cname w.
Proof. done. Qed.
End with_crypto.

Definition empty_world : World := mkWorld true ∅ ∅ ∅.
Definition slot_schema : SchemaInfo := mkSchemaInfo (replicate 32 7) (mkVersion 2 0 0).

Lemma consumer_attachment_decision_witness :
  let created := create_datablock_producer_impl (H := toy_hash) plain_os "b" config_sample None
                   (Some slot_schema) empty_world in
  let found e s := (find_datablock_consumer_impl (H := toy_hash) plain_os "b" e None s None None
                      created.2).1 in
  match found (Some config_sample) (Some slot_schema) with
  | Ok (Some k) => heartbeat_slot k = Some 0%nat
  | _ => False
  end ∧
  found (Some (config_sample <| cfg_ring_buffer_capacity := 5 |>)) None = Ok None.
Proof.
  assert (∀ d, is_Some (@crypto_generichash toy_hash d)) as Ht by (intros; by eexists).
  assert (from_config config_sample = Some layout_sample) as Hl by reflexivity.
  cbv zeta. split.
  - destruct (@consumer_attachment_decision toy_hash Ht plain_os "b" config_sample None
                (Some slot_schema) layout_sample empty_world (Some config_sample) None
                (Some slot_schema) None None eq_refl config_sample_accepted Hl
                (λ _ _, eq_refl) eq_refl) as (p & _ & _ & k & -> & _ & _ & _ & _ & Hk).
    exact Hk.
  - destruct (@consumer_attachment_decision toy_hash Ht plain_os "b" config_sample None
                (Some slot_schema) layout_sample empty_world
                (Some (config_sample <| cfg_ring_buffer_capacity := 5 |>)) None None None None
                eq_refl config_sample_accepted Hl (λ _ _, eq_refl) eq_refl) as (p & _ & _ & Hf).
    exact Hf.
Defined.

End Attach.
