(* ===== verification/Recovery.v ===== *)
(** * Recovery tools of a data block

    Models [src/utils/shm/data_block_recovery.cpp] and the classes over it
    ([slot_diagnostics.cpp], [slot_recovery.cpp], [integrity_validator.cpp]):
    the C functions that open a block by name and diagnose it, reset slots,
    release dead readers and writers, free the entries of dead consumers, check
    and repair checksums, and read its metrics and identities.  Null output
    pointers, refused before anything is read, are left out; a null name is
    [None].  Every function catches the exceptions of the calls it makes.  A call
    is one transition: what other processes do to the block falls between
    calls. *)

From S2P Require Import Prelude.
From S2P Require SlotRW.
From S2P Require Import ShmHeader.
From S2P Require Import Layout.
From S2P Require Import Segment.
Import ShmHeader Layout Segment.

Module Recovery.

Inductive RecoveryResult :=
  RECOVERY_SUCCESS | RECOVERY_FAILED | RECOVERY_UNSAFE | RECOVERY_NOT_STUCK | RECOVERY_INVALID_SLOT.
#[global] Instance RecoveryResult_eq_dec : EqDecision RecoveryResult.
Proof. solve_decision. Defined.

Inductive DiagnoseError :=
  | DIAGNOSE_OK | DIAGNOSE_INVALID_ARGS | DIAGNOSE_INTERNAL_ERR | DIAGNOSE_INVALID_INDEX
  | DIAGNOSE_RUNTIME_ERR | DIAGNOSE_UNEXPECTED.

Record SlotDiagnostic := mkSlotDiagnostic {
  diag_slot_id : Z;
  diag_slot_index : Z;
  diag_slot_state : Z;
  diag_write_lock : Z;
  diag_reader_count : Z;
  diag_write_generation : Z;
  diag_writer_waiting : Z;
  diag_is_stuck : bool;
  diag_stuck_duration_ms : Z;
}.

Definition map_slot_state (s : SlotRW.SlotRW.SlotState) : Z :=
  match s with
  | SlotRW.SlotRW.FREE => 0 | SlotRW.SlotRW.WRITING => 1
  | SlotRW.SlotRW.COMMITTED => 2 | SlotRW.SlotRW.DRAINING => 3
  end.

(** The fields of the header [is_writer_alive] reads, and those it does not. *)
Definition slot_header (h : SharedMemoryHeader) : SlotRW.SlotRW.SharedMemoryHeader :=
  let c := metrics h in
  SlotRW.SlotRW.mkHeader (commit_index h) (writer_timeout_count c) (writer_lock_timeout_count c)
    (writer_reader_timeout_count c) (writer_blocked_total_ns c) (write_lock_contention c)
    (reader_race_detected c) (reader_validation_failed c) (reader_peak_count c)
    (total_slots_written c) (producer_heartbeat_id h) (producer_heartbeat_ns h).

Definition is_writer_alive (os : Os) (h : SharedMemoryHeader) (pid : Z) : bool :=
  SlotRW.SlotRW.is_writer_alive_impl (platform os) (Some (slot_header h)) pid.

Section with_crypto.
Context `{!Crypto} (os : Os).

(** ** Opening a block *)

(** [open_datablock_for_diagnostic]: the segment and the capacity of the
    handle.  The handle closes the segment without touching its name. *)
Definition open_datablock_for_diagnostic (name : string) : M (option (nat * Z)) :=
  shm ← shm_attach os name;
  match shm with
  | None => mret None
  | Some id =>
      h ← peek id head;
      mret (if is_header_magic_valid h
            then l ← from_header h; Some (id, slot_count l)
            else None)
  end.

Definition open_for_recovery (shm_name : option string) : M (option (nat * Z)) :=
  match shm_name with
  | None => mret None
  | Some name => open_datablock_for_diagnostic name
  end.

(** [DataBlockDiagnosticHandle::slot_rw_state]. *)
Definition handle_slot_rw_state (capacity index : Z) (m : Memory) : option SlotRWState :=
  if capacity <=? index then None else Some (slot_state_at m index).

(** The opening lines the functions on one slot share: a failure, or the
    segment, its header and the state of the slot. *)
Definition open_slot {E} (failed invalid : E) (shm_name : option string) (slot_index : Z) :
    M (E + (nat * SharedMemoryHeader * SlotRWState)) :=
  ctx ← open_for_recovery shm_name;
  match ctx with
  | None => mret (inl failed)
  | Some (id, capacity) =>
      m ← peek id (λ m, m);
      mret (if get_slot_count (head m) <=? slot_index then inl invalid
            else match handle_slot_rw_state capacity slot_index m with
                 | None => inl failed
                 | Some s => inr (id, head m, s)
                 end)
  end.

(** ** Diagnosis *)

Definition diagnostic_of (h : SharedMemoryHeader) (slot_index : Z) (s : SlotRWState) : SlotDiagnostic :=
  mkSlotDiagnostic (SlotRW.SlotRW.write_generation s) slot_index
    (map_slot_state (SlotRW.SlotRW.slot_state s)) (SlotRW.SlotRW.write_lock s)
    (SlotRW.SlotRW.reader_count s) (SlotRW.SlotRW.write_generation s)
    (SlotRW.SlotRW.writer_waiting s)
    (bool_decide (SlotRW.SlotRW.write_lock s ≠ 0)
     && negb (is_writer_alive os h (SlotRW.SlotRW.write_lock s))) 0.

Definition datablock_diagnose_slot (shm_name : option string) (slot_index : Z) :
    M (DiagnoseError + SlotDiagnostic) :=
  r ← open_slot DIAGNOSE_INTERNAL_ERR DIAGNOSE_INVALID_INDEX shm_name slot_index;
  mret (match r with
        | inl e => inl e
        | inr (_, h, s) => inr (diagnostic_of h slot_index s)
        end).

(** The loop: slots that cannot be diagnosed are skipped, and it stops when the
    output array is full. *)
Fixpoint diagnose_slots (shm_name : option string) (room : nat) (slots : list Z) :
    M (list SlotDiagnostic) :=
  match slots, room with
  | [], _ | _, O => mret []
  | i :: slots, S room =>
      r ← datablock_diagnose_slot shm_name i;
      match r with
      | inl _ => diagnose_slots shm_name (S room) slots
      | inr d => ds ← diagnose_slots shm_name room slots; mret (d :: ds)
      end
  end.

Definition datablock_diagnose_all_slots (shm_name : option string) (array_capacity : nat) :
    M (DiagnoseError * list SlotDiagnostic) :=
  ctx ← open_for_recovery shm_name;
  match ctx with
  | None => mret (DIAGNOSE_INTERNAL_ERR, [])
  | Some (id, _) =>
      slot_count ← peek id (λ m, get_slot_count (head m));
      ds ← diagnose_slots shm_name array_capacity (seqZ 0 slot_count);
      mret (DIAGNOSE_OK, ds)
  end.

Definition datablock_is_process_alive (pid : Z) : bool :=
  SlotRW.SlotRW.is_process_alive (platform os) pid.

(** ** Resetting slots *)

(** The counter and the time of a recovery. *)
Definition record_recovery (actions : Z) (h : SharedMemoryHeader) : SharedMemoryHeader :=
  h <| metrics ::= λ c, c <| recovery_actions_count ::= λ n, u64 (n + actions) |>
                          <| last_error_timestamp_ns := now os |> |>.

(** New contents for a slot, and the record of the recovery. *)
Definition set_slot (id : nat) (slot_index : Z) (s : SlotRWState) : M unit :=
  poke id (λ m, on_head (record_recovery 1) (m <| slot_states ::= <[slot_index := s]> |>)).

Definition datablock_force_reset_slot (shm_name : option string) (slot_index : Z) (force : bool) :
    M RecoveryResult :=
  r ← open_slot RECOVERY_FAILED RECOVERY_INVALID_SLOT shm_name slot_index;
  match r with
  | inl e => mret e
  | inr (id, h, s) =>
      if bool_decide (SlotRW.SlotRW.write_lock s ≠ 0)
         && is_writer_alive os h (SlotRW.SlotRW.write_lock s) && negb force
      then mret RECOVERY_UNSAFE
      else if (0 <? SlotRW.SlotRW.reader_count s) && negb force then mret RECOVERY_UNSAFE
      else
        set_slot id slot_index
          (SlotRW.SlotRW.mkSlotRWState 0 0 SlotRW.SlotRW.FREE 0 (SlotRW.SlotRW.write_generation s));;
        mret RECOVERY_SUCCESS
  end.

(** Every slot is tried; the first failure is the result. *)
Fixpoint reset_slots (shm_name : option string) (force : bool) (slots : list Z)
    (overall : RecoveryResult) : M RecoveryResult :=
  match slots with
  | [] => mret overall
  | i :: slots =>
      r ← datablock_force_reset_slot shm_name i force;
      reset_slots shm_name force slots
        (if bool_decide (overall = RECOVERY_SUCCESS) then r else overall)
  end.

Definition datablock_force_reset_all_slots (shm_name : option string) (force : bool) :
    M RecoveryResult :=
  ctx ← open_for_recovery shm_name;
  match ctx with
  | None => mret RECOVERY_FAILED
  | Some (id, _) =>
      slot_count ← peek id (λ m, get_slot_count (head m));
      reset_slots shm_name force (seqZ 0 slot_count) RECOVERY_SUCCESS
  end.

Definition datablock_release_zombie_readers (shm_name : option string) (slot_index : Z)
    (force : bool) : M RecoveryResult :=
  r ← open_slot RECOVERY_FAILED RECOVERY_INVALID_SLOT shm_name slot_index;
  match r with
  | inl e => mret e
  | inr (id, h, s) =>
      let producer_is_alive := bool_decide (SlotRW.SlotRW.write_lock s ≠ 0)
                               && is_writer_alive os h (SlotRW.SlotRW.write_lock s) in
      if SlotRW.SlotRW.reader_count s =? 0 then mret RECOVERY_NOT_STUCK
      else if negb force && producer_is_alive then mret RECOVERY_UNSAFE
      else
        set_slot id slot_index
          (SlotRW.SlotRW.mkSlotRWState (SlotRW.SlotRW.write_lock s) 0
             (if bool_decide (SlotRW.SlotRW.slot_state s = SlotRW.SlotRW.DRAINING)
              then SlotRW.SlotRW.COMMITTED else SlotRW.SlotRW.slot_state s)
             (SlotRW.SlotRW.writer_waiting s) (SlotRW.SlotRW.write_generation s));;
        mret RECOVERY_SUCCESS
  end.

Definition datablock_release_zombie_writer (shm_name : option string) (slot_index : Z) :
    M RecoveryResult :=
  r ← open_slot RECOVERY_FAILED RECOVERY_INVALID_SLOT shm_name slot_index;
  match r with
  | inl e => mret e
  | inr (id, h, s) =>
      if SlotRW.SlotRW.write_lock s =? 0 then mret RECOVERY_NOT_STUCK
      else if is_writer_alive os h (SlotRW.SlotRW.write_lock s) then mret RECOVERY_UNSAFE
      else
        set_slot id slot_index
          (SlotRW.SlotRW.mkSlotRWState 0 (SlotRW.SlotRW.reader_count s)
             (if bool_decide (SlotRW.SlotRW.slot_state s = SlotRW.SlotRW.COMMITTED)
              then SlotRW.SlotRW.COMMITTED else SlotRW.SlotRW.FREE)
             0 (SlotRW.SlotRW.write_generation s));;
        mret RECOVERY_SUCCESS
  end.

(** ** Dead consumers *)

Definition is_dead_consumer (e : ConsumerHeartbeat) : bool :=
  bool_decide (consumer_pid e ≠ 0)
  && negb (SlotRW.SlotRW.is_process_alive (platform os) (consumer_pid e)).

(** One entry of the loop; the count never goes below zero. *)
Definition clean_entry (e : ConsumerHeartbeat) (acc : Z * Z) : Z * Z :=
  let '(active, cleaned) := acc in
  if is_dead_consumer e then (if active =? 0 then 0 else active - 1, cleaned + 1) else acc.

Definition cleanup_dead_consumers (h : SharedMemoryHeader) : SharedMemoryHeader :=
  let '(active, cleaned) :=
    foldl (flip clean_entry) (active_consumer_count h, 0) (consumer_heartbeats h) in
  let h := h <| active_consumer_count := active |>
             <| consumer_heartbeats ::=
                  fmap (λ e, if is_dead_consumer e then e <| consumer_pid := 0 |> else e) |> in
  if 0 <? cleaned then record_recovery cleaned h else h.

Definition datablock_cleanup_dead_consumers (shm_name : option string) : M RecoveryResult :=
  ctx ← open_for_recovery shm_name;
  match ctx with
  | None => mret RECOVERY_FAILED
  | Some (id, _) => poke id (on_head cleanup_dead_consumers);; mret RECOVERY_SUCCESS
  end.

(** ** Integrity *)

Definition page_size_of (bytes : Z) : DataBlockPageSize :=
  if bytes =? 16777216 then Size16M else if bytes =? 4194304 then Size4M else Size4K.

(** The header's checksum type is [BLAKE2b] or [Unset]; another value could
    only be in a header whose layout checksum was computed over it. *)
Definition checksum_type_of (code : Z) : ChecksumType :=
  if code =? checksum_code ChecksumUnset then ChecksumUnset else BLAKE2b.

(** The configuration rebuilt from the header.  The size of the flexible zone
    is not set. *)
Definition expected_config (name : string) (h : SharedMemoryHeader) : DataBlockConfig :=
  default_config <| cfg_name := name |>
    <| cfg_ring_buffer_capacity := ring_buffer_capacity h |>
    <| cfg_physical_page_size := page_size_of (physical_page_size h) |>
    <| cfg_logical_unit_size := if bool_decide (logical_unit_size h ≠ 0) then logical_unit_size h
                                else physical_page_size h |>
    <| cfg_policy := policy h |> <| cfg_consumer_sync_policy := consumer_sync_policy h |>
    <| cfg_checksum_type := checksum_type_of (checksum_type h) |>
    <| cfg_checksum_policy := checksum_policy h |>.

(** [catch (const std::exception &)]. *)
Definition catching {A} (a : A) (x : M A) : M A := λ w,
  match x w with (Throws _, w) => (Ok a, w) | r => r end.

(** A local object of a block: destroyed when the block ends or throws. *)
Definition with_destructor {A} (destroy : M unit) (x : M A) : M A := λ w,
  match x w with
  | (UnmappedRead, w) => (UnmappedRead, w)
  | (r, w) => (r, (destroy w).2)
  end.

(** A new producer over the name recomputes the checksum in its own segment. *)
Definition repair_with (name : string) (c : DataBlockConfig) (update : DataBlockProducer → M bool) :
    M bool :=
  p ← create_datablock_producer_impl os name c None None;
  with_destructor (DataBlockProducer_destroy p) (update p).

(** One check: repaired if asked for, otherwise a failure. *)
Definition check_or_repair (name : string) (c : DataBlockConfig) (repair ok : bool)
    (update : DataBlockProducer → M bool) (overall : RecoveryResult) : M RecoveryResult :=
  if ok then mret overall
  else if repair then
    repaired ← repair_with name c update;
    mret (if repaired : bool then overall else RECOVERY_FAILED)
  else mret RECOVERY_FAILED.

Definition check_flexible_zone (name : string) (c : DataBlockConfig) (consumer : DataBlockConsumer)
    (repair : bool) (overall : RecoveryResult) : M RecoveryResult :=
  if 0 <? cfg_flex_zone_size c then
    ok ← verify_checksum_flexible_zone consumer;
    check_or_repair name c repair ok update_checksum_flexible_zone overall
  else mret overall.

Fixpoint check_slots (name : string) (c : DataBlockConfig) (consumer : DataBlockConsumer)
    (repair : bool) (slots : list Z) (overall : RecoveryResult) : M RecoveryResult :=
  match slots with
  | [] => mret overall
  | i :: slots =>
      ok ← verify_checksum_slot consumer i;
      r ← check_or_repair name c repair ok (λ p, update_checksum_slot p i) overall;
      check_slots name c consumer repair slots r
  end.

(** The slots that hold commits, as far as the counters tell. *)
Definition slots_to_check (h : SharedMemoryHeader) : list Z :=
  let total_written := slot_rw_get_total_slots_written (Some h) in
  let count := slot_rw_get_slot_count (Some h) in
  if 0 <? total_written then
    filter (λ i, count ≤ total_written ∨ i ≤ slot_rw_get_commit_index (Some h) mod count) (seqZ 0 count)
  else [].

Definition header_verdict (h : SharedMemoryHeader) : RecoveryResult :=
  if is_header_magic_valid h
     && negb (bool_decide (version_major h ≠ HEADER_VERSION_MAJOR)
              || (HEADER_VERSION_MINOR <? version_minor h))
     && validate_layout_checksum h
  then RECOVERY_SUCCESS else RECOVERY_FAILED.

Definition datablock_validate_integrity (shm_name : option string) (repair : bool) : M RecoveryResult :=
  ctx ← open_for_recovery shm_name;
  match ctx, shm_name with
  | Some (id, _), Some name =>
      catching RECOVERY_FAILED (
        h ← peek id head;
        let c := expected_config name h in
        if bool_decide (checksum_type_of (checksum_type h) ≠ ChecksumUnset) then
          consumer ← find_datablock_consumer_impl os name (Some c) None None None None;
          match consumer with
          | None => mret RECOVERY_FAILED
          | Some k =>
              with_destructor (DataBlockConsumer_destroy os k) (
                r ← check_flexible_zone name c k repair (header_verdict h);
                slots ← peek id (λ m, slots_to_check (head m));
                check_slots name c k repair slots r)
          end
        else mret (header_verdict h))
  | _, _ => mret RECOVERY_FAILED
  end.

(** ** Metrics and identities *)

Definition read_opened {A} (shm_name : option string) (f : SharedMemoryHeader → A) : M (option A) :=
  ctx ← open_for_recovery shm_name;
  match ctx with
  | None => mret None
  | Some (id, _) => a ← peek id (λ m, f (head m)); mret (Some a)
  end.

Definition datablock_get_metrics (shm_name : option string) : M (option DataBlockMetrics) :=
  read_opened shm_name slot_rw_get_metrics.

(** [open_datablock_for_observer_from_fd]: the header only, read-only. *)
Definition open_datablock_for_observer_from_fd (source_fd : Z) : M (option SharedMemoryHeader) := λ w,
  if source_fd <? 0 then (Ok None, w)
  else
    match fds w !! source_fd with
    | None => (Ok None, w)
    | Some id =>
        let m := memory_of id w in
        if seg_size m <? sizeof_SharedMemoryHeader then (Ok None, w)
        else if negb (maps_shm os "" sizeof_SharedMemoryHeader) then (Ok None, w)
        else if is_header_magic_valid (head m) && header_layout_hash_ok (head m)
        then (Ok (Some (head m)), w) else (Ok None, w)
    end.

Definition datablock_get_metrics_from_fd (source_fd : Z) : M (option DataBlockMetrics) :=
  h ← open_datablock_for_observer_from_fd source_fd;
  mret (slot_rw_get_metrics <$> h).

Definition datablock_reset_metrics (shm_name : option string) : M (option unit) :=
  ctx ← open_for_recovery shm_name;
  match ctx with
  | None => mret None
  | Some (id, _) => poke id (on_head slot_rw_reset_metrics);; mret (Some ())
  end.

Definition datablock_get_channel_identity (shm_name : option string) : M (option ChannelIdentity) :=
  read_opened shm_name slot_rw_get_channel_identity.

Definition datablock_list_consumers (shm_name : option string) (array_capacity : Z) :
    M (option (list ConsumerIdentity)) :=
  if array_capacity <=? 0 then mret None
  else r ← read_opened shm_name (λ h, slot_rw_list_consumers h array_capacity); mret (mjoin r).

(** ** The classes *)

Record SlotDiagnostics := mkDiagnostics {
  diag_shm_name : string;
  diag_index : Z;
  diag_data : option SlotDiagnostic;
}.

(** [refresh] and the constructor; [diag_data] is absent while [is_valid_] is
    false. *)
Definition refresh (d : SlotDiagnostics) : M (bool * SlotDiagnostics) :=
  r ← datablock_diagnose_slot (Some (diag_shm_name d)) (diag_index d);
  mret (match r with
        | inl _ => (false, mkDiagnostics (diag_shm_name d) (diag_index d) None)
        | inr x => (true, mkDiagnostics (diag_shm_name d) (diag_index d) (Some x))
        end).
Definition new_diagnostics (name : string) (index : Z) : M SlotDiagnostics :=
  r ← refresh (mkDiagnostics name index None); mret r.2.

Definition get_slot_id (d : SlotDiagnostics) : Z := from_option diag_slot_id 0 (diag_data d).
Definition get_slot_index (d : SlotDiagnostics) : Z := diag_index d.
Definition get_slot_state (d : SlotDiagnostics) : Z := from_option diag_slot_state 0 (diag_data d).
Definition get_write_lock_pid (d : SlotDiagnostics) : Z := from_option diag_write_lock 0 (diag_data d).
Definition get_reader_count (d : SlotDiagnostics) : Z := from_option diag_reader_count 0 (diag_data d).
Definition is_stuck (d : SlotDiagnostics) : bool := from_option diag_is_stuck false (diag_data d).
Definition get_stuck_duration_ms (d : SlotDiagnostics) : Z :=
  from_option diag_stuck_duration_ms 0 (diag_data d).
Definition is_valid (d : SlotDiagnostics) : bool := bool_decide (is_Some (diag_data d)).

(** [IntegrityValidator::validate]. *)
Definition validate_block (name : string) (repair : bool) : M RecoveryResult :=
  datablock_validate_integrity (Some name) repair.

End with_crypto.

End Recovery.
