(* ===== verification/RecoveryProps.v ===== *)
(** * What the recovery tools find and leave behind

    The verdict of the integrity check of [Recovery], with and without repair,
    and the slots that recovery makes writable again. *)

From S2P Require Import Prelude.
From S2P Require SlotRW.
From S2P Require SlotProps.
From S2P Require Import ShmHeader.
From S2P Require Import Layout.
From S2P Require Import Segment.
From S2P Require Import Checksums.
From S2P Require Import Attach.
From S2P Require ShmQueue.
From S2P Require Import Recovery.
Import ShmHeader Layout Segment Checksums AttachProps Attach Recovery.

Module RecoveryProps.

(** ** Worlds by lookup *)

Lemma peek_lookup {A} w id m (g : Memory → A) :
  segments w !! id = Some m → peek id g w = (Ok (g m), w).
Proof. intros H. unfold peek, memory_of. by rewrite H. Qed.

Lemma poke_lookup w id m g :
  segments w !! id = Some m → poke id g w = (Ok (), w <| segments ::= <[id := g m]> |>).
Proof.
  intros H. destruct w as [r n f s]. simpl in *.
  assert (alter g id s = <[id := g m]> s) as He.
  { apply map_eq. intros j. destruct (decide (id = j)) as [<-|Hj].
    - by rewrite lookup_alter_eq, H, lookup_insert_eq.
    - by rewrite lookup_alter_ne, lookup_insert_ne. }
  unfold poke. simpl. by rewrite He.
Qed.

Lemma on_memory_lookup {A} (b : DataBlock) (f : Memory → A * Memory) w m :
  segments w !! m_shm b = Some m →
  on_memory b f w = (Ok (f m).1, w <| segments ::= <[m_shm b := (f m).2]> |>).
Proof.
  intros H. unfold on_memory. rewrite (M_bind_ok _ _ _ _ _ (peek_lookup _ _ _ _ H)).
  by rewrite (M_bind_ok _ _ _ _ _ (poke_lookup _ _ _ _ H)).
Qed.

Lemma forallb_elem_ext {A} (f g : A → bool) (xs : list A) :
  (∀ x, x ∈ xs → f x = g x) → forallb f xs = forallb g xs.
Proof.
  induction xs as [|x xs IH]; intros H; [done|]. simpl.
  rewrite (H x), IH; [done|intros y Hy; apply H; by right|by left].
Qed.

Section recovery.
Context `{!Crypto} (os : Os).
Context (Htotal : ∀ d, is_Some (crypto_generichash d)) (Hhash : hashes_have_32_bytes).
Context (Hmaps : ∀ n s, maps_shm os n s = true).

(** A block that a consumer could attach to: the state creation leaves and use
    keeps. *)
Record sound_block (w : World) (name : string) (id : nat) (m : Memory) (l : DataBlockLayout) : Prop :=
  mkSoundBlock {
  sb_ready : ready w = true;
  sb_name : names w !! name = Some id;
  sb_seg : segments w !! id = Some m;
  sb_magic : is_header_magic_valid (head m) = true;
  sb_major : version_major (head m) = HEADER_VERSION_MAJOR;
  sb_minor : version_minor (head m) ≤ HEADER_VERSION_MINOR;
  sb_size : total_block_size (head m) = seg_size m;
  sb_layout : from_header (head m) = Some l;
  sb_hash : header_layout_hash_ok (head m) = true;
  sb_check : validate_layout_checksum (head m) = true;
  sb_config : accepted (expected_config name (head m));
  sb_page : to_bytes (page_size_of (physical_page_size (head m))) = physical_page_size (head m);
  sb_unit : 0 < logical_unit_size (head m) ≤ u32_max ∧ logical_unit_size (head m) mod 64 = 0;
  sb_type : checksum_type (head m) = checksum_code BLAKE2b;
}.

(** The verdict on one slot: its flag says it was verified before, or its
    stored checksum is the hash of its bytes; a blank checksum never counts. *)
Definition slot_trusted (l : DataBlockLayout) (m : Memory) (i : Z) : bool :=
  negb (all_zero (slot_checksum l m i))
  && ((slot_cks_is_valid l m i =? 1) || verify_blake2b (slot_checksum l m i) (slot_data l m i)).

Section block.
Context (l : DataBlockLayout) (Hl : well_placed l) (Hcks : slot_checksum_size l ≠ 0).

Lemma flag_kept i j v m :
  i ≠ j → slot_cks_is_valid l (set_slot_cks_is_valid l i v m) j = slot_cks_is_valid l m j.
Proof.
  intros Hij. unfold slot_cks_is_valid, set_slot_cks_is_valid, store. simpl. f_equal.
  apply lookup_insert_ne. unfold checksum_entry, SLOT_CHECKSUM_ENTRY_SIZE. lia.
Qed.

(** A verification with the flag honoured answers [slot_trusted], and touches
    nothing but the flag of its slot. *)
Lemma verify_trusts i m :
  0 ≤ i < slot_count l →
  let r := verify_checksum_slot_impl l i true m in
  r.1 = slot_trusted l m i ∧ head r.2 = head m ∧
  ∀ j, i ≠ j → 0 ≤ j < slot_count l → slot_trusted l r.2 j = slot_trusted l m j.
Proof.
  intros Hi r. split; [|split].
  - unfold r, verify_checksum_slot_impl, slot_trusted.
    rewrite (proj2 (Z.eqb_neq _ _)), (proj2 (Z.leb_gt _ _)) by (done || lia).
    destruct (all_zero _); simpl; [done|]. destruct (_ =? 1); simpl; [done|].
    by destruct (verify_blake2b _ _).
  - unfold r, verify_checksum_slot_impl. by repeat case_match.
  - intros j Hij Hj. unfold slot_trusted.
    destruct (verified_slot_same l Hl Hcks j i true m Hj ltac:(lia) : same_slot l j m r.2) as [Hd Hc].
    rewrite Hd, Hc. do 2 f_equal. unfold r, verify_checksum_slot_impl.
    repeat case_match; simpl; try done; by rewrite flag_kept.
Qed.
End block.

(** ** Attaching for the check *)

Lemma sound_unit w name id m l :
  sound_block w name id m l →
  effective_logical_unit_size (expected_config name (head m)) = logical_unit_size (head m).
Proof.
  intros Hs. destruct (sb_unit _ _ _ _ _ Hs) as [Hu Hmod]. unfold u32_max in Hu.
  unfold effective_logical_unit_size. cbn [expected_config cfg_logical_unit_size update].
  rewrite bool_decide_eq_true_2 by lia. rewrite (proj2 (Z.eqb_neq _ _)) by lia.
  change kCacheLineSize with (2 ^ 6). apply align_up_id; [lia|unfold u64_max, u64_modulus; lia|done].
Qed.

Lemma sound_describes w name id m l :
  sound_block w name id m l → flexible_zone_size (head m) = 0 →
  describes (expected_config name (head m)) (head m).
Proof.
  intros Hs Hf. split.
  - done.
  - symmetry. by apply (sound_unit w name id m l).
  - symmetry. by apply (sb_page _ _ _ _ _ Hs).
  - rewrite Hf. reflexivity.
  - rewrite (sb_type _ _ _ _ _ Hs). cbn [expected_config cfg_checksum_type update].
    by rewrite (sb_type _ _ _ _ _ Hs).
Qed.

(** The check's own consumer gets a handle exactly when there is no flexible
    zone. *)
Lemma check_config_agrees w name id m l :
  sound_block w name id m l →
  validate_attach_layout_and_config (head m) (Some (expected_config name (head m)))
  = (flexible_zone_size (head m) =? 0).
Proof.
  intros Hs. destruct (Z.eqb_spec (flexible_zone_size (head m)) 0) as [Hf|Hf].
  - rewrite (expected_agrees_spec (expected_config name (head m)) _ _
      (sb_config _ _ _ _ _ Hs) (sound_describes _ _ _ _ _ Hs Hf) (sb_check _ _ _ _ _ Hs)) by done.
    unfold expected_agrees. rewrite !Z.eqb_refl, !bool_decide_eq_true_2 by done.
    rewrite Z.mod_small, Z.eqb_refl; [done|].
    pose proof (accepted_unit _ (sb_config _ _ _ _ _ Hs)). unfold u32_max in *. lia.
  - unfold validate_attach_layout_and_config. rewrite (sb_check _ _ _ _ _ Hs). cbv beta iota delta [andb].
    change (align_up PAGE_ALIGNMENT (cfg_flex_zone_size (expected_config name (head m)))) with 0.
    by rewrite (proj2 (Z.eqb_neq _ _) Hf).
Qed.

Definition empty_uid : list Z := zeros 40.
Definition empty_name : list Z := zeros 32.

(** The memory once the check's consumer has joined. *)
Definition joined (m : Memory) : Memory :=
  m <| head := (join_consumer os empty_uid empty_name (head m)).2 |>.

Lemma joined_views l m :
  (∀ i, slot_trusted l (joined m) i = slot_trusted l m i) ∧
  slots_to_check (head (joined m)) = slots_to_check (head m).
Proof.
  split; [done|]. unfold joined. cbn [head update].
  unfold join_consumer, register_heartbeat.
  destruct (find_free_heartbeat _ _); [|done]. by case_bool_decide.
Qed.

Lemma find_for_check w name id m l :
  sound_block w name id m l →
  ∃ r, find_datablock_consumer_impl os name (Some (expected_config name (head m)))
         None None None None w = (Ok r, match r with
           | Some _ => w <| segments ::= <[id := joined m]> |> | None => w end) ∧
  (match r with
   | None => flexible_zone_size (head m) ≠ 0
   | Some k => flexible_zone_size (head m) = 0 ∧ m_shm (c_block k) = id ∧
               m_layout (c_block k) = l ∧ m_open_mode (c_block k) = ReadAttach
   end).
Proof using Hmaps.
  intros Hs. pose proof (check_config_agrees _ _ _ _ _ Hs) as Hagree.
  destruct w as [r n f s]. destruct Hs as [Hr Hn Hseg Hmag Hmaj Hmin Hsz Hlay Hh _ _ _ _ _].
  simpl in Hr, Hn, Hseg. subst r. unfold joined. destruct m as [sz h st d]. cbn [head seg_size] in *.
  assert (mkWorld true n f s = mkWorld true n f (<[id := mkMemory sz h st d]> s)) as ->
    by (by rewrite (insert_id s id _ Hseg)).
  set (W := mkWorld true n f (<[id := mkMemory sz h st d]> s)).
  assert (DataBlock_attach os name ReadAttach W = (Ok (mkDataBlock name ReadAttach id l true), W)) as Ha.
  { unfold DataBlock_attach, shm_attach.
    rewrite (M_bind_ok _ _ _ (Some id) W) by (subst W; cbn [names]; by rewrite Hn, Hmaps).
    by rewrite (M_bind_ok _ _ _ _ _ (attach_at true n f id s sz h st d l Hmag Hmaj Hmin Hsz Hlay)). }
  unfold find_datablock_consumer_impl.
  rewrite (M_bind_ok _ _ _ _ _ (ready_ok W eq_refl)), (M_bind_ok _ _ _ _ _ Ha).
  destruct (Z.eqb_spec (flexible_zone_size h) 0) as [Hf|Hf].
  - destruct (check_at (mkDataBlock name ReadAttach id l true)
                (Some (expected_config name h)) None None true n f s sz h st d l
                true Hh Hlay ltac:(by rewrite Hagree)) as (w1 & Hc & Hw1). cbn [m_shm] in Hc, Hw1.
    rewrite (M_bind_ok _ _ _ _ _ Hc), Hw1 by done. eexists (Some _). split.
    { unfold finish_consumer, on_memory. cbn [m_shm from_option].
      unfold mbind at 1, M_mbind, M_bind. unfold mbind at 1, M_mbind, M_bind. rewrite peek_at.
      unfold mbind at 1, M_mbind, M_bind. unfold mbind at 1, M_mbind, M_bind. rewrite peek_at.
      unfold mbind at 1, M_mbind, M_bind. rewrite poke_at. unfold W. simpl.
      rewrite insert_insert_eq, (surjective_pairing (join_consumer os (zeros 40) (zeros 32) h)).
      reflexivity. }
    done.
  - exists None. split; [|done].
    assert (check_attachment (mkDataBlock name ReadAttach id l true)
              (Some (expected_config name h)) None None W = (Ok None, W)) as Hc.
    { unfold check_attachment, W. rewrite (M_bind_ok _ _ _ _ _ (peek_at _ _ _ _ _ _ _)).
      cbn [head]. by rewrite Hh, Hagree. }
    by rewrite (M_bind_ok _ _ _ _ _ Hc).
Qed.

(** ** One repair *)

(** Repairing a slot succeeds: a new block takes the name over, its slot is
    stamped, and the producer's destructor removes the name.  Every segment
    that was there before is as it was. *)
Lemma repair_spec name c l i w :
  ready w = true → accepted c → from_config c = Some l → slot_checksum_size l ≠ 0 →
  0 ≤ i < slot_count l →
  ∃ s', repair_with os name c (λ p, update_checksum_slot p i) w
        = (Ok true, mkWorld true (delete name (names w)) (fds w) s') ∧
  ∀ id m, segments w !! id = Some m → s' !! id = Some m.
Proof using Htotal Hmaps.
  intros Hr Ha Hl Hcks Hi. unfold repair_with.
  rewrite (M_bind_ok _ _ _ _ _ (create_datablock_spec Htotal os name c None None l w Hr Ha Hl Hmaps)).
  unfold with_destructor, update_checksum_slot, created_world, created_producer.
  set (new := fresh (dom (segments w))). cbn [p_block].
  rewrite (on_memory_lookup _ _ _ (created_memory os c None None l))
    by (cbn [segments m_shm]; apply lookup_insert_eq).
  cbn [m_shm m_layout]. set (m := created_memory os c None None l).
  assert ((update_checksum_slot_impl l i true m).1 = true) as ->.
  { unfold update_checksum_slot_impl. rewrite (proj2 (Z.eqb_neq _ _)), (proj2 (Z.leb_gt _ _)) by (done || lia).
    by destruct (Htotal (slot_data l (set_slot_cks_is_valid l i 0 m) i)) as [x ->]. }
  eexists. split.
  - cbn. rewrite Hr. unfold DataBlockProducer_destroy, DataBlock_destroy, shm_unlink. simpl.
    by rewrite delete_insert_eq, delete_delete_eq.
  - intros id m' Hid. cbn. rewrite !lookup_insert_ne; [done|..].
    all: intros <-; apply (is_fresh (dom (segments w))), elem_of_dom; by exists m'.
Qed.

(** ** All the slots *)

Lemma check_slots_spec name c k l repair slots overall w m :
  ready w = true → accepted c → from_config c = Some l → well_placed l → slot_checksum_size l ≠ 0 →
  m_layout (c_block k) = l → segments w !! m_shm (c_block k) = Some m →
  NoDup slots → (∀ i, i ∈ slots → 0 ≤ i < slot_count l) →
  let ok := forallb (slot_trusted l m) slots in
  ∃ w', check_slots os name c k repair slots overall w
        = (Ok (if repair || ok then overall else RECOVERY_FAILED), w') ∧
  names w' = (if repair && negb ok then delete name (names w) else names w).
Proof using Htotal Hmaps Hhash.
  intros Hr Ha Hl Hwp Hcks Hk. revert w m overall Hr.
  induction slots as [|i slots IH]; intros w m overall Hr Hm Hnd Hin ok.
  { exists w. subst ok. simpl. rewrite orb_true_r, andb_false_r. done. }
  apply NoDup_cons in Hnd as [Hi Hnd].
  assert (0 ≤ i < slot_count l) as Hir by (apply Hin; by left).
  assert (∀ j, j ∈ slots → 0 ≤ j < slot_count l) as Hin' by (intros; apply Hin; by right).
  destruct (verify_trusts l Hwp Hcks i m Hir) as (Hv & Hh & Hother).
  set (m1 := (verify_checksum_slot_impl l i true m).2) in *.
  assert (forallb (slot_trusted l m1) slots = forallb (slot_trusted l m) slots) as Hsame.
  { apply forallb_elem_ext. intros j Hj. apply Hother; [by intros ->|].
    apply Hin. by right. }
  cbn [check_slots]. unfold verify_checksum_slot.
  rewrite (M_bind_ok _ _ _ _ _ (on_memory_lookup _ _ _ _ Hm)). rewrite Hk.
  fold m1. rewrite Hv. unfold check_or_repair. subst ok. cbn [forallb].
  set (w1 := w <| segments ::= <[m_shm (c_block k) := m1]> |>).
  assert (segments w1 !! m_shm (c_block k) = Some m1) as Hm1 by apply lookup_insert_eq.
  destruct (slot_trusted l m i); cbn [andb].
  - rewrite (M_bind_ok _ (mret overall) w1 overall w1) by done.
    destruct (IH w1 m1 overall Hr Hm1 Hnd Hin') as (w' & He & Hn).
    exists w'. rewrite He, Hn, Hsame. done.
  - destruct repair.
    + destruct (repair_spec name c l i w1 Hr Ha Hl Hcks Hir) as (s' & He & Hkeep).
      rewrite (M_bind_ok _ _ w1 overall (mkWorld true (delete name (names w1)) (fds w1) s')).
      2:{ by rewrite (M_bind_ok _ _ _ _ _ He). }
      destruct (IH (mkWorld true (delete name (names w1)) (fds w1) s') m1 overall eq_refl
                  (Hkeep _ _ Hm1) Hnd Hin') as (w' & He' & Hn').
      exists w'. rewrite He', Hn'. split; [done|]. cbn. destruct (negb _); [|done].
      by rewrite delete_delete_eq.
    + rewrite (M_bind_ok _ (mret RECOVERY_FAILED) w1 RECOVERY_FAILED w1) by done.
      destruct (IH w1 m1 RECOVERY_FAILED Hr Hm1 Hnd Hin') as (w' & He & Hn).
      exists w'. rewrite He, Hn. split; [|done]. cbn. by destruct (forallb _ _).
Qed.

(** ** The whole check *)

Lemma destroy_keeps_names k w :
  m_open_mode (c_block k) = ReadAttach → names (DataBlockConsumer_destroy os k w).2 = names w.
Proof.
  intros Hk. unfold DataBlockConsumer_destroy, DataBlock_destroy. rewrite Hk. cbn [andb].
  by destruct (heartbeat_slot k).
Qed.

Lemma sound_opens w name id m l :
  sound_block w name id m l → open_for_recovery os (Some name) w = (Ok (Some (id, slot_count l)), w).
Proof using Hmaps.
  intros Hs. unfold open_for_recovery, open_datablock_for_diagnostic, shm_attach.
  rewrite (M_bind_ok _ _ _ (Some id) w) by by rewrite (sb_name _ _ _ _ _ Hs), Hmaps.
  rewrite (M_bind_ok _ _ _ _ _ (peek_lookup _ _ _ _ (sb_seg _ _ _ _ _ Hs))).
  by rewrite (sb_magic _ _ _ _ _ Hs), (sb_layout _ _ _ _ _ Hs).
Qed.

Lemma sound_verdict w name id m l :
  sound_block w name id m l → header_verdict (head m) = RECOVERY_SUCCESS.
Proof.
  intros Hs. unfold header_verdict. rewrite (sb_magic _ _ _ _ _ Hs), (sb_check _ _ _ _ _ Hs).
  rewrite bool_decide_eq_false_2 by (intros Hn; apply Hn, (sb_major _ _ _ _ _ Hs)).
  by rewrite (proj2 (Z.ltb_ge _ _) (sb_minor _ _ _ _ _ Hs)).
Qed.

Lemma placed_fields count unset flexible stride page ring l :
  place_sections count unset flexible stride page ring = Some l →
  slot_count l = count ∧
  slot_checksum_size l = if unset then 0 else u64 (count * SLOT_CHECKSUM_ENTRY_SIZE).
Proof. unfold place_sections. case_bool_decide; [done|]. by intros [= <-]. Qed.

Lemma from_header_fields h l :
  checksum_type h = checksum_code BLAKE2b → from_header h = Some l →
  slot_count l = get_slot_count h ∧
  slot_checksum_size l = u64 (get_slot_count h * SLOT_CHECKSUM_ENTRY_SIZE).
Proof.
  intros Ht Hl. assert (checksum_is_unset h = false) as Hu by (unfold checksum_is_unset; by rewrite Ht).
  assert (from_header h = place_sections (get_slot_count h) (checksum_is_unset h)
            (flexible_zone_size h) (get_slot_stride_bytes h) (physical_page_size h)
            (u64 (get_slot_count h * get_slot_stride_bytes h))) as He by reflexivity.
  rewrite He, Hu in Hl. exact (placed_fields _ _ _ _ _ _ _ Hl).
Qed.

Lemma sound_count w name id m l :
  sound_block w name id m l →
  slot_count l = get_slot_count (head m) ∧
  slot_checksum_size l = u64 (get_slot_count (head m) * SLOT_CHECKSUM_ENTRY_SIZE).
Proof. intros Hs. apply from_header_fields; apply Hs. Qed.

Lemma described_layout c h l :
  accepted c → describes c h → align_up PAGE_ALIGNMENT (cfg_flex_zone_size c) < 2 ^ 32 →
  from_header h = Some l → from_config c = Some l ∧ well_placed l.
Proof.
  intros Ha Hd Hf Hlay. pose proof (page_align_range (cfg_flex_zone_size c)).
  assert (from_config c = Some l) as Hl.
  { rewrite <- Hlay, (from_header_spec c h Ha Hd), Z.mod_small by lia. by apply from_config_spec. }
  split; [done|]. exact (config_well_placed c l (acc_widths c Ha) (acc_fits c Ha) Hl).
Qed.

Lemma sound_placed w name id m l :
  sound_block w name id m l → flexible_zone_size (head m) = 0 →
  from_config (expected_config name (head m)) = Some l ∧ well_placed l ∧ slot_checksum_size l ≠ 0.
Proof.
  intros Hs Hf.
  destruct (described_layout _ _ l (sb_config _ _ _ _ _ Hs) (sound_describes _ _ _ _ _ Hs Hf)
              eq_refl (sb_layout _ _ _ _ _ Hs)) as [Hl Hwp].
  split; [done|]. split; [done|]. pose proof (wp_count l Hwp) as [Hc1 Hc2].
  destruct (sound_count _ _ _ _ _ Hs) as [Hc ->]. rewrite <- Hc. unfold u32_max in Hc2.
  change SLOT_CHECKSUM_ENTRY_SIZE with 33.
  rewrite u64_id by (unfold u64_max, u64_modulus; lia). lia.
Qed.

Lemma slots_to_check_range l h :
  slot_count l = get_slot_count h →
  NoDup (slots_to_check h) ∧ ∀ i, i ∈ slots_to_check h → 0 ≤ i < slot_count l.
Proof.
  intros Hc. unfold slots_to_check, slot_rw_get_slot_count. rewrite <- Hc.
  destruct (0 <? _); [|split; [constructor|by intros i ?%elem_of_nil]].
  split; [apply NoDup_filter, NoDup_seqZ|].
  intros i [_ Hi]%list_elem_of_filter. apply elem_of_seqZ in Hi. lia.
Qed.

Lemma integrity_spec w name id m l repair :
  sound_block w name id m l →
  let ok := forallb (slot_trusted l m) (slots_to_check (head m)) in
  ∃ w', datablock_validate_integrity os (Some name) repair w
        = (Ok (if (flexible_zone_size (head m) =? 0) && (repair || ok)
               then RECOVERY_SUCCESS else RECOVERY_FAILED), w') ∧
  names w' = (if (flexible_zone_size (head m) =? 0) && repair && negb ok
              then delete name (names w) else names w).
Proof using Htotal Hmaps Hhash.
  intros Hs ok. unfold datablock_validate_integrity.
  rewrite (M_bind_ok _ _ _ _ _ (sound_opens _ _ _ _ _ Hs)). unfold catching.
  rewrite (M_bind_ok _ _ _ _ _ (peek_lookup _ _ _ _ (sb_seg _ _ _ _ _ Hs))).
  rewrite (sb_type _ _ _ _ _ Hs), bool_decide_eq_true_2 by done.
  destruct (find_for_check _ _ _ _ _ Hs) as (r & He & Hr). rewrite (M_bind_ok _ _ _ _ _ He).
  destruct r as [k|].
  2:{ exists w. rewrite (proj2 (Z.eqb_neq _ _) Hr). done. }
  destruct Hr as (Hf & Hk & Hkl & Hmode). rewrite Hf. cbn [Z.eqb andb].
  destruct (sound_placed _ _ _ _ _ Hs Hf) as (Hl & Hwp & Hcks).
  pose proof (proj1 (sound_count _ _ _ _ _ Hs)) as Hcount.
  set (w1 := w <| segments ::= <[id := joined m]> |>).
  assert (segments w1 !! id = Some (joined m)) as Hseg by apply lookup_insert_eq.
  destruct (joined_views l m) as [Htr Hsl].
  destruct (slots_to_check_range l (head m) Hcount) as [Hnd Hin].
  destruct (check_slots_spec name (expected_config name (head m)) k l repair
              (slots_to_check (head m)) RECOVERY_SUCCESS w1 (joined m) (sb_ready _ _ _ _ _ Hs)
              (sb_config _ _ _ _ _ Hs) Hl Hwp Hcks Hkl ltac:(by rewrite Hk) Hnd Hin)
    as (w2 & Hc & Hnames).
  assert (forallb (slot_trusted l (joined m)) (slots_to_check (head m)) = ok) as Hok
    by (apply forallb_elem_ext; intros; apply Htr).
  rewrite Hok in Hc, Hnames.
  exists (DataBlockConsumer_destroy os k w2).2. split; [|by rewrite destroy_keeps_names].
  unfold with_destructor, check_flexible_zone. cbn [expected_config cfg_flex_zone_size update].
  rewrite (sound_verdict _ _ _ _ _ Hs).
  rewrite (M_bind_ok _ _ w1 RECOVERY_SUCCESS w1) by done.
  rewrite (M_bind_ok _ _ _ _ _ (peek_lookup _ _ _ _ Hseg)), Hsl, Hc. done.
Qed.

(** ** One slot *)

Lemma sound_slot {E} (failed invalid : E) w name id m l i :
  sound_block w name id m l → 0 ≤ i < slot_count l →
  open_slot os failed invalid (Some name) i w = (Ok (inr (id, head m, slot_state_at m i)), w).
Proof using Hmaps.
  intros Hs Hi. unfold open_slot. rewrite (M_bind_ok _ _ _ _ _ (sound_opens _ _ _ _ _ Hs)).
  rewrite (M_bind_ok _ _ _ _ _ (peek_lookup _ _ _ _ (sb_seg _ _ _ _ _ Hs))).
  unfold handle_slot_rw_state. rewrite <- (proj1 (sound_count _ _ _ _ _ Hs)).
  by rewrite (proj2 (Z.leb_gt _ _)) by lia.
Qed.

(** What a recovery does to the slot. *)
Definition recovered (w : World) (id : nat) (m : Memory) (i : Z) (s : SlotRWState) : World :=
  w <| segments ::= <[id := on_head (record_recovery os 1) (m <| slot_states ::= <[i := s]> |>)]> |>.

Lemma set_slot_spec w name id m l i s :
  sound_block w name id m l → set_slot os id i s w = (Ok (), recovered w id m i s).
Proof.
  intros Hs. unfold set_slot. by rewrite (poke_lookup w id m _ (sb_seg _ _ _ _ _ Hs)).
Qed.

Lemma recovered_slot w id m i s :
  memory_of id (recovered w id m i s)
    = on_head (record_recovery os 1) (m <| slot_states ::= <[i := s]> |>) ∧
  slot_state_at (memory_of id (recovered w id m i s)) i = s.
Proof.
  assert (memory_of id (recovered w id m i s)
    = on_head (record_recovery os 1) (m <| slot_states ::= <[i := s]> |>)) as He
    by (unfold memory_of; simpl; by rewrite lookup_insert_eq).
  split; [done|]. rewrite He. unfold slot_state_at. simpl. by rewrite lookup_insert_eq.
Qed.

(** A process that asks for the slot without waiting gets it. *)
Definition acquire (p : Z) (bytes : list Z) (h : SharedMemoryHeader) (s : SlotRWState) :=
  SlotRW.SlotRW.run_alone (platform os) p 12
    (SlotRW.SlotRW.mkWriter SlotRW.SlotRW.WTryLock (now os) 0 false)
    (SlotRW.SlotRW.mkShared s (Some (slot_header h)) bytes).
Definition writable_at_once (h : SharedMemoryHeader) (s : SlotRWState) : Prop :=
  ∀ p bytes, let '(wr, sh) := acquire p bytes h s in
  SlotRW.SlotRW.wpc wr = SlotRW.SlotRW.WWriting ∧
  SlotRW.SlotRW.rw sh = SlotProps.SlotProps.slot_after p SlotRW.SlotRW.WRITING s.

Lemma unlocked_writable h s :
  SlotRW.SlotRW.write_lock s = 0 → SlotRW.SlotRW.reader_count s = 0 → writable_at_once h s.
Proof.
  intros Hw Hr p bytes. unfold acquire.
  pose proof (SlotProps.SlotProps.acquire_write_nowait_outcome (platform os) p
    (SlotRW.SlotRW.mkShared s (Some (slot_header h)) bytes)) as Ho.
  cbv zeta in Ho. change (SlotRW.SlotRW.monotonic_time_ns (platform os)) with (now os) in Ho.
  destruct (SlotRW.SlotRW.run_alone _ _ _ _ _) as [wr sh]. destruct Ho as [_ Ho].
  cbn [SlotRW.SlotRW.rw] in Ho. rewrite Hw, Hr in Ho. exact Ho.
Qed.

Lemma read_locked_times_out h s p bytes :
  SlotRW.SlotRW.write_lock s = 0 → SlotRW.SlotRW.reader_count s ≠ 0 →
  let '(wr, sh) := acquire p bytes h s in
  SlotRW.SlotRW.wpc wr = SlotRW.SlotRW.WIdle (Some SlotRW.SlotRW.SLOT_ACQUIRE_TIMEOUT) ∧
  SlotRW.SlotRW.reader_count (SlotRW.SlotRW.rw sh) = SlotRW.SlotRW.reader_count s.
Proof.
  intros Hw Hr. unfold acquire.
  pose proof (SlotProps.SlotProps.acquire_write_nowait_outcome (platform os) p
    (SlotRW.SlotRW.mkShared s (Some (slot_header h)) bytes)) as Ho.
  cbv zeta in Ho. change (SlotRW.SlotRW.monotonic_time_ns (platform os)) with (now os) in Ho.
  destruct (SlotRW.SlotRW.run_alone _ _ _ _ _) as [wr sh]. destruct Ho as [_ Ho].
  cbn [SlotRW.SlotRW.rw] in Ho. rewrite Hw, (proj2 (Z.eqb_neq _ _) Hr) in Ho.
  destruct Ho as [Ho ->]. done.
Qed.
End recovery.

(** C25 The integrity check of a block that consumers can attach to succeeds
    exactly when the block has no flexible zone and every slot the counters
    say was committed is trusted: stamped, and either verified before or with
    bytes that still have the stamped hash.  A block with a flexible zone fails
    whatever it contains, because the check rebuilds the expected configuration
    without the zone's size and cannot attach its own consumer. *)
Theorem integrity_verdict `{!Crypto} os w name id m l :
  (∀ d, is_Some (crypto_generichash d)) → hashes_have_32_bytes → (∀ n s, maps_shm os n s = true) →
  sound_block w name id m l →
  ∃ w', datablock_validate_integrity os (Some name) false w
        = (Ok (if (flexible_zone_size (head m) =? 0)
                  && forallb (slot_trusted l m) (slots_to_check (head m))
               then RECOVERY_SUCCESS else RECOVERY_FAILED), w') ∧
  names w' = names w.
Proof.
  intros Ht Hh Hm Hs. destruct (integrity_spec os Ht Hh Hm w name id m l false Hs) as (w' & He & Hn).
  exists w'. split; [exact He|]. rewrite Hn. by rewrite andb_false_r.
Qed.

(** Asked to repair, the same check reports success, and if it found a slot
    to repair the block is gone: each repair creates a new block over the name,
    stamps the slot of that empty block, and removes the name when its producer
    is destroyed.  From then on nobody can attach to or diagnose the block. *)
Theorem repair_removes_the_block `{!Crypto} os w name id m l :
  (∀ d, is_Some (crypto_generichash d)) → hashes_have_32_bytes → (∀ n s, maps_shm os n s = true) →
  sound_block w name id m l → flexible_zone_size (head m) = 0 →
  ∃ w', datablock_validate_integrity os (Some name) true w = (Ok RECOVERY_SUCCESS, w') ∧
  if forallb (slot_trusted l m) (slots_to_check (head m)) then names w' = names w
  else (open_for_recovery os (Some name) w').1 = Ok None ∧
       ∀ e fs ds u n, (find_datablock_consumer_impl os name e fs ds u n w').1 = Throws runtime_error.
Proof.
  intros Ht Hh Hm Hs Hf. destruct (integrity_spec os Ht Hh Hm w name id m l true Hs) as (w' & He & Hn).
  rewrite Hf in He, Hn. exists w'. split; [exact He|].
  destruct (forallb _ _); cbn [Z.eqb andb negb] in Hn; [done|].
  assert (names w' !! name = None) as Hnone by (rewrite Hn; apply lookup_delete_eq).
  assert (shm_attach os name w' = (Ok None, w')) as Ha by (unfold shm_attach; by rewrite Hnone).
  split.
  - unfold open_for_recovery, open_datablock_for_diagnostic. by rewrite (M_bind_ok _ _ _ _ _ Ha).
  - intros. unfold find_datablock_consumer_impl.
    destruct (ready w') eqn:Hr.
    + rewrite (M_bind_ok _ _ _ _ _ (ready_ok _ Hr)). unfold DataBlock_attach.
      unfold mbind at 1, M_mbind, M_bind at 1. by rewrite (M_bind_ok _ _ _ _ _ Ha).
    + unfold mbind, M_mbind, M_bind, lifecycle_ready. by rewrite Hr.
Qed.

(** The contents of a slot after a reset, and after its writer was released. *)
Definition reset_state (s : SlotRWState) : SlotRWState :=
  SlotRW.SlotRW.mkSlotRWState 0 0 SlotRW.SlotRW.FREE 0 (SlotRW.SlotRW.write_generation s).
Definition writerless_state (s : SlotRWState) : SlotRWState :=
  SlotRW.SlotRW.mkSlotRWState 0 (SlotRW.SlotRW.reader_count s)
    (if bool_decide (SlotRW.SlotRW.slot_state s = SlotRW.SlotRW.COMMITTED)
     then SlotRW.SlotRW.COMMITTED else SlotRW.SlotRW.FREE) 0 (SlotRW.SlotRW.write_generation s).

(** A slot index beyond the ring, and a name nobody has created. *)
Lemma missing_slot `{!Crypto} {E} os (failed invalid : E) w name id m l i :
  (∀ n s, maps_shm os n s = true) → sound_block w name id m l → slot_count l ≤ i →
  open_slot os failed invalid (Some name) i w = (Ok (inl invalid), w).
Proof.
  intros Hm Hs Hi. unfold open_slot. rewrite (M_bind_ok _ _ _ _ _ (sound_opens os Hm _ _ _ _ _ Hs)).
  rewrite (M_bind_ok _ _ _ _ _ (peek_lookup _ _ _ _ (sb_seg _ _ _ _ _ Hs))).
  rewrite <- (proj1 (sound_count _ _ _ _ _ Hs)). by rewrite (proj2 (Z.leb_le _ _)) by lia.
Qed.

Definition unknown_block (w : World) (shm_name : option string) : Prop :=
  shm_name ≫= (names w !!.) = None.

Lemma unknown_slot {E} os (failed invalid : E) w shm_name i :
  unknown_block w shm_name → open_slot os failed invalid shm_name i w = (Ok (inl failed), w).
Proof.
  unfold unknown_block, open_slot. destruct shm_name as [name|]; [|done]. cbn. intros Hn.
  assert (open_for_recovery os (Some name) w = (Ok None, w)) as Ho; [|by rewrite (M_bind_ok _ _ _ _ _ Ho)].
  assert (shm_attach os name w = (Ok None, w)) as Ha by (unfold shm_attach; by rewrite Hn).
  unfold open_for_recovery, open_datablock_for_diagnostic. by rewrite (M_bind_ok _ _ _ _ _ Ha).
Qed.

(** C24 Resetting a slot and releasing its dead writer, on every branch: a name
    nobody created fails and an index beyond the ring is invalid; a slot whose
    writer lives is refused (a reset can be forced, and is also refused while
    there are readers), and the release refuses a slot without a writer; in all
    these cases nothing changes.  Otherwise the slot's state is replaced, a
    committed slot surviving the release of its writer.  The next process that
    asks for the slot then gets it at once if no reader is counted; a reader
    count that the release of a writer leaves behind makes it time out. *)
Theorem slot_recovery_outcome `{!Crypto} os w name id m l i :
  (∀ n s, maps_shm os n s = true) → sound_block w name id m l → 0 ≤ i →
  let s := slot_state_at m i in
  let held := bool_decide (SlotRW.SlotRW.write_lock s ≠ 0) in
  let live := held && is_writer_alive os (head m) (SlotRW.SlotRW.write_lock s) in
  (∀ force, datablock_force_reset_slot os (Some name) i force w =
     if slot_count l <=? i then (Ok RECOVERY_INVALID_SLOT, w)
     else if negb force && (live || (0 <? SlotRW.SlotRW.reader_count s)) then (Ok RECOVERY_UNSAFE, w)
     else (Ok RECOVERY_SUCCESS, recovered os w id m i (reset_state s))) ∧
  datablock_release_zombie_writer os (Some name) i w =
    (if slot_count l <=? i then (Ok RECOVERY_INVALID_SLOT, w)
     else if held then if live then (Ok RECOVERY_UNSAFE, w)
                  else (Ok RECOVERY_SUCCESS, recovered os w id m i (writerless_state s))
     else (Ok RECOVERY_NOT_STUCK, w)) ∧
  (∀ other force, unknown_block w other →
     datablock_force_reset_slot os other i force w = (Ok RECOVERY_FAILED, w) ∧
     datablock_release_zombie_writer os other i w = (Ok RECOVERY_FAILED, w)) ∧
  ∀ s', s' = reset_state s ∨ s' = writerless_state s →
  let m' := memory_of id (recovered os w id m i s') in
  slot_state_at m' i = s' ∧
  if SlotRW.SlotRW.reader_count s' =? 0 then writable_at_once os (head m') s'
  else ∀ p bytes, let '(wr, sh) := acquire os p bytes (head m') s' in
         SlotRW.SlotRW.wpc wr = SlotRW.SlotRW.WIdle (Some SlotRW.SlotRW.SLOT_ACQUIRE_TIMEOUT) ∧
         SlotRW.SlotRW.reader_count (SlotRW.SlotRW.rw sh) = SlotRW.SlotRW.reader_count s.
Proof.
  intros Hm Hs Hi s held live. split_and!.
  - intros force. unfold datablock_force_reset_slot. destruct (Z.leb_spec (slot_count l) i) as [Hge|Hlt].
    { by rewrite (M_bind_ok _ _ _ _ _ (missing_slot os _ _ w name id m l i Hm Hs Hge)). }
    rewrite (M_bind_ok _ _ _ _ _ (sound_slot os Hm _ _ w name id m l i Hs (conj Hi Hlt))). fold s held. fold live.
    destruct live, force; cbn [negb andb orb]; try done.
    all: rewrite ?andb_false_r, ?andb_true_r; try (destruct (0 <? _); [done|]).
    all: by rewrite (M_bind_ok _ _ _ _ _ (set_slot_spec os w name id m l i _ Hs)).
  - unfold datablock_release_zombie_writer. destruct (Z.leb_spec (slot_count l) i) as [Hge|Hlt].
    { by rewrite (M_bind_ok _ _ _ _ _ (missing_slot os _ _ w name id m l i Hm Hs Hge)). }
    rewrite (M_bind_ok _ _ _ _ _ (sound_slot os Hm _ _ w name id m l i Hs (conj Hi Hlt))). fold s.
    subst live held. destruct (Z.eqb_spec (SlotRW.SlotRW.write_lock s) 0) as [H0|H0].
    + by rewrite (bool_decide_eq_false_2 (SlotRW.SlotRW.write_lock s ≠ 0)) by (intros Hn; by apply Hn).
    + rewrite (bool_decide_eq_true_2 (SlotRW.SlotRW.write_lock s ≠ 0)) by done. cbn [andb].
      destruct (is_writer_alive _ _ _); [done|].
      by rewrite (M_bind_ok _ _ _ _ _ (set_slot_spec os w name id m l i _ Hs)).
  - intros other force Ho. unfold datablock_force_reset_slot, datablock_release_zombie_writer.
    by rewrite !(M_bind_ok _ _ _ _ _ (unknown_slot os _ _ w other i Ho)).
  - intros s' Hs' m'. destruct (recovered_slot os w id m i s') as [_ Hslot].
    split; [exact Hslot|]. destruct (Z.eqb_spec (SlotRW.SlotRW.reader_count s') 0) as [Hr|Hr].
    + apply unlocked_writable; [by destruct Hs' as [->| ->]|done].
    + destruct Hs' as [->| ->]; [done|]. intros p bytes. by apply (read_locked_times_out os _ (writerless_state s)).
Qed.

(** Readers have no owners, so the release of zombie readers cannot tell a
    live one: with a single reader at work on an unlocked slot it succeeds
    unforced, and when that reader then lets go of the slot the count wraps to
    2^32 - 1.  Every writer that asks for the slot afterwards times out, and
    the count stays. *)
Theorem zombie_reader_release_jams_slot `{!Crypto} os w name id m l i p bytes :
  (∀ n s, maps_shm os n s = true) → sound_block w name id m l → 0 ≤ i < slot_count l →
  SlotRW.SlotRW.write_lock (slot_state_at m i) = 0 →
  SlotRW.SlotRW.reader_count (slot_state_at m i) = 1 →
  let '(r, w1) := datablock_release_zombie_readers os (Some name) i false w in
  let m2 := ShmQueue.ShmQueue.release_reader i (memory_of id w1) in
  let '(wr, sh) := acquire os p bytes (head m2) (slot_state_at m2 i) in
  r = Ok RECOVERY_SUCCESS ∧
  SlotRW.SlotRW.reader_count (slot_state_at m2 i) = 2 ^ 32 - 1 ∧
  SlotRW.SlotRW.wpc wr = SlotRW.SlotRW.WIdle (Some SlotRW.SlotRW.SLOT_ACQUIRE_TIMEOUT) ∧
  SlotRW.SlotRW.reader_count (SlotRW.SlotRW.rw sh) = 2 ^ 32 - 1.
Proof.
  intros Hm Hs Hi Hw Hr. unfold datablock_release_zombie_readers.
  rewrite (M_bind_ok _ _ _ _ _ (sound_slot os Hm _ _ w name id m l i Hs Hi)).
  rewrite Hw, Hr, (bool_decide_eq_false_2 (0 ≠ 0)) by (intros Hn; by apply Hn). cbn [andb Z.eqb negb].
  rewrite (M_bind_ok _ _ _ _ _ (set_slot_spec os w name id m l i _ Hs)).
  cbv beta iota delta [mret M_mret M_ret].
  destruct (recovered_slot os w id m i (SlotRW.SlotRW.mkSlotRWState 0 0
    (if bool_decide (SlotRW.SlotRW.slot_state (slot_state_at m i) = SlotRW.SlotRW.DRAINING)
     then SlotRW.SlotRW.COMMITTED else SlotRW.SlotRW.slot_state (slot_state_at m i))
    (SlotRW.SlotRW.writer_waiting (slot_state_at m i))
    (SlotRW.SlotRW.write_generation (slot_state_at m i)))) as [_ Hslot].
  set (w1 := recovered os w id m i _) in *.
  set (m2 := ShmQueue.ShmQueue.release_reader i (memory_of id w1)).
  assert (SlotRW.SlotRW.write_lock (slot_state_at m2 i) = 0 ∧
          SlotRW.SlotRW.reader_count (slot_state_at m2 i) = 2 ^ 32 - 1) as [Hl2 Hr2].
  { subst m2. unfold ShmQueue.ShmQueue.release_reader. rewrite Hslot.
    unfold slot_state_at. simpl. rewrite lookup_insert_eq. simpl.
    fold (slot_state_at (memory_of id w1) i). by rewrite Hslot. }
  pose proof (read_locked_times_out os (head m2) (slot_state_at m2 i) p bytes Hl2 ltac:(lia)) as Ho.
  destruct (acquire _ _ _ _ _) as [wr sh]. rewrite Hr2 in Ho. done.
Qed.

(** ** A block with one commit, never stamped, and one reader *)

Definition plain_config : DataBlockConfig := config_sample <| cfg_flex_zone_size := 0 |>.
Definition plain_layout : DataBlockLayout := default layout_sample (from_config plain_config).
Definition used_memory : Memory :=
  let m := created_memory (H := toy_hash) plain_os plain_config None None plain_layout in
  mkMemory (seg_size m)
    ((head m) <| commit_index := 0 |> <| metrics ::= λ c, c <| total_slots_written := 1 |> |>)
    {[0 := SlotRW.SlotRW.mkSlotRWState 0 1 SlotRW.SlotRW.COMMITTED 0 1]} (data m).
Definition used_world : World := mkWorld true {["b" := 7%nat]} ∅ {[7%nat := used_memory]}.

Lemma used_sound : sound_block (H := toy_hash) used_world "b" 7 used_memory plain_layout.
Proof.
  split; try (vm_compute; reflexivity); try (vm_compute; discriminate).
  - split; try (vm_compute; discriminate). split; vm_compute; split; discriminate.
  - split; [split|]; vm_compute; reflexivity || discriminate.
Qed.

Lemma toy_total : ∀ d, is_Some (@crypto_generichash toy_hash d).
Proof. intros d. by eexists. Qed.

Lemma maps_all : ∀ n s, maps_shm plain_os n s = true.
Proof. done. Qed.

Lemma integrity_verdict_witness :
  (datablock_validate_integrity (H := toy_hash) plain_os (Some "b") false used_world).1
  = Ok RECOVERY_FAILED.
Proof.
  destruct (@integrity_verdict toy_hash plain_os used_world "b" 7%nat used_memory plain_layout
              toy_total toy_hash_length maps_all used_sound) as (w' & He & _).
  rewrite He. vm_compute. reflexivity.
Defined.

Lemma repair_removes_the_block_witness :
  let r := datablock_validate_integrity (H := toy_hash) plain_os (Some "b") true used_world in
  r.1 = Ok RECOVERY_SUCCESS ∧
  (open_for_recovery plain_os (Some "b") r.2).1 = Ok None.
Proof.
  destruct (@repair_removes_the_block toy_hash plain_os used_world "b" 7%nat used_memory plain_layout
              toy_total toy_hash_length maps_all used_sound ltac:(vm_compute; reflexivity))
    as (w' & He & Hn).
  cbv zeta. rewrite He. split; [reflexivity|].
  assert (forallb (@slot_trusted toy_hash plain_layout used_memory) (slots_to_check (head used_memory))
          = false) as Hf by (vm_compute; reflexivity).
  rewrite Hf in Hn. exact (proj1 Hn).
Defined.

Lemma slot_recovery_outcome_witness :
  datablock_force_reset_slot plain_os (Some "b") 0 false used_world
  = (Ok RECOVERY_UNSAFE, used_world) ∧
  (datablock_force_reset_slot plain_os (Some "b") 0 true used_world).1
  = Ok RECOVERY_SUCCESS.
Proof.
  destruct (@slot_recovery_outcome toy_hash plain_os used_world "b" 7%nat used_memory plain_layout 0
              maps_all used_sound ltac:(lia)) as (Hr & _ & _).
  split; [exact (Hr false)|]. rewrite (Hr true). reflexivity.
Defined.

Lemma zombie_reader_release_jams_slot_witness :
  let r := datablock_release_zombie_readers plain_os (Some "b") 0 false used_world in
  r.1 = Ok RECOVERY_SUCCESS ∧
  SlotRW.SlotRW.reader_count
    (slot_state_at (ShmQueue.ShmQueue.release_reader 0 (memory_of 7 r.2)) 0) = 4294967295.
Proof.
  pose proof (@zombie_reader_release_jams_slot toy_hash plain_os used_world "b" 7%nat used_memory
                plain_layout 0 11 [] maps_all used_sound
                ltac:(vm_compute; split; [discriminate|reflexivity])
                ltac:(vm_compute; reflexivity) ltac:(vm_compute; reflexivity)) as H.
  cbv zeta in H |- *.
  destruct (datablock_release_zombie_readers plain_os (Some "b") 0 false used_world) as [r w1].
  destruct (acquire plain_os _ _ _ _) as [wr sh]. destruct H as (Hr & Hc & _). split; [exact Hr|exact Hc].
Defined.
End RecoveryProps.
