(* ===== verification/SpinLock.v ===== *)
(** * The spinlocks of shared memory and of one process

    Models [src/utils/shm/shared_memory_spinlock.cpp]: a recursive lock in
    shared memory whose holder is a process and a thread id, taken over when
    the holder's process is dead.  One atomic access is one step of a thread;
    threads of any processes interleave freely, and a process may die between
    any two steps.  [is_process_alive] knows exactly the processes that live; the
    waits between attempts are left out, and so are the guards that lock in
    their constructor and unlock in their destructor.  Proved: one holder at a
    time, the outcome of every call, and what happens when ids come back. *)

From S2P Require Import Prelude.
From S2P Require Import ShmHeader.
Import ShmHeader.

Module SpinLock.

(** ** The lock between processes *)

(** What a call returned last: [unlock] by a thread that does not own the lock
    throws. *)
Inductive Outcome := Returned (acquired : bool) | Unlocked | Throws_non_owner.

(** Where a thread is: the next access of [try_lock_for] ([L]) or [unlock]
    ([U]), with the values it has loaded. *)
Inductive Pc :=
  | Idle (last : option Outcome)
  | LReadGen | LReadPid (gen_before : Z) | LReadTid (gen_before : Z) | LReadGenAgain (gen_before : Z)
  | LRecursion
  | LCas | LIsAlive (expected_pid : Z) | LReclaim (zombie_pid : Z)
  | LReclaimTid | LReclaimCount | LReclaimGeneration
  | LTimeout
  | LStoreTid | LStoreCount
  | UReadPid | UReadTid | UReadCount | UDecrement
  | UStoreCount | UGeneration | UStoreTid | UStorePid.

(** A thread: its process, the argument of its last [try_lock_for], and how
    often it holds the lock, counted by what its calls returned.  Threads are
    found by their native id, unique among the threads alive. *)
Record Thread := mkThread {
  pid : Z;
  pc : Pc;
  timeout_ms : Z;
  depth : Z;
}.
#[global] Instance eta_thread : Eta Thread := λ r, mkThread (pid r) (pc r) (timeout_ms r) (depth r).

(** The choices a step leaves open: whether a weak compare-and-swap fails
    spuriously, and the milliseconds the clock shows since the call. *)
Record Chance := mkChance { spurious : bool; elapsed_ms : Z }.

Section steps.
Context (is_process_alive : Z → bool).

Definition fetch_add32 (n : Z) (l : SharedSpinLockState) : SharedSpinLockState :=
  l <| recursion_count ::= (λ c, (c + n) mod 2 ^ 32) |>.

(** One access of [try_lock_for] by thread [my_tid]. *)
Definition try_lock_step (my_tid : Z) (c : Chance) (t : Thread) (l : SharedSpinLockState) :
    option (Thread * SharedSpinLockState) :=
  let goto q := t <| pc := q |> in
  let acquired n := t <| pc := Idle (Some (Returned true)) |> <| depth := n |> in
  let failed := goto (Idle (Some (Returned false))) in
  match pc t with
  | LReadGen => Some (goto (LReadPid (generation l)), l)
  | LReadPid g => Some (goto (if owner_pid l =? pid t then LReadTid g else LCas), l)
  | LReadTid g => Some (goto (if owner_tid l =? my_tid then LReadGenAgain g else LCas), l)
  | LReadGenAgain g => Some (goto (if generation l =? g then LRecursion else LCas), l)
  | LRecursion => Some (acquired (depth t + 1), fetch_add32 1 l)
  | LCas =>
      if spurious c && (owner_pid l =? 0) then Some (goto LTimeout, l)
      else if owner_pid l =? 0 then Some (goto LStoreTid, l <| owner_pid := pid t |>)
      else Some (goto (LIsAlive (owner_pid l)), l)
  | LIsAlive p => Some (goto (if is_process_alive p then LTimeout else LReclaim p), l)
  | LReclaim p =>
      if owner_pid l =? p then Some (goto LReclaimTid, l <| owner_pid := pid t |>)
      else Some (goto LTimeout, l)
  | LReclaimTid => Some (goto LReclaimCount, l <| owner_tid := my_tid |>)
  | LReclaimCount => Some (goto LReclaimGeneration, l <| recursion_count := 1 |>)
  | LReclaimGeneration => Some (acquired 1, l <| generation ::= u64_succ |>)
  | LTimeout =>
      if timeout_ms t =? 0 then Some (failed, l)
      else if (0 <? timeout_ms t) && (timeout_ms t <=? elapsed_ms c) then Some (failed, l)
      else Some (goto LCas, l)
  | LStoreTid => Some (goto LStoreCount, l <| owner_tid := my_tid |>)
  | LStoreCount => Some (acquired 1, l <| recursion_count := 1 |>)
  | _ => None
  end.

(** One access of [unlock]. *)
Definition unlock_step (my_tid : Z) (t : Thread) (l : SharedSpinLockState) :
    option (Thread * SharedSpinLockState) :=
  let goto q := t <| pc := q |> in
  let unlocked n := t <| pc := Idle (Some Unlocked) |> <| depth := n |> in
  let throws := goto (Idle (Some Throws_non_owner)) in
  match pc t with
  | UReadPid => Some (if owner_pid l =? pid t then goto UReadTid else throws, l)
  | UReadTid => Some (if owner_tid l =? my_tid then goto UReadCount else throws, l)
  | UReadCount => Some (goto (if 1 <? recursion_count l then UDecrement else UStoreCount), l)
  | UDecrement => Some (unlocked (depth t - 1), fetch_add32 (-1) l)
  | UStoreCount => Some (goto UGeneration, l <| recursion_count := 0 |>)
  | UGeneration => Some (goto UStoreTid, l <| generation ::= u64_succ |>)
  | UStoreTid => Some (goto UStorePid, l <| owner_tid := 0 |>)
  | UStorePid => Some (unlocked 0, l <| owner_pid := 0 |>)
  | _ => None
  end.

Definition thread_step (my_tid : Z) (c : Chance) (t : Thread) (l : SharedSpinLockState) :
    option (Thread * SharedSpinLockState) :=
  match try_lock_step my_tid c t l with
  | Some r => Some r
  | None => unlock_step my_tid t l
  end.

(** [is_locked_by_current_process] by a thread nobody interrupts. *)
Definition is_locked_by_current_process (my_pid my_tid : Z) (l : SharedSpinLockState) : bool :=
  (owner_pid l =? my_pid) && (owner_tid l =? my_tid).

End steps.

Definition idle (t : Thread) : Prop := ∃ last, pc t = Idle last.

(** The lock, the threads alive by their native id, and every process and
    thread id used so far. *)
Record Sys := mkSys {
  lock : SharedSpinLockState;
  threads : gmap Z Thread;
  used_ids : gset Z;
}.
#[global] Instance eta_sys : Eta Sys := λ s, mkSys (lock s) (threads s) (used_ids s).

Definition alive (s : Sys) (p : Z) : bool :=
  existsb (λ kt, pid kt.2 =? p) (map_to_list (threads s)).

Definition init_sys : Sys := mkSys init_spinlock_state ∅ ∅.

(** The ids a new thread may get.  The operating system gives out ids that no
    live thread has: a thread joins a live process under a new id, or starts a
    process, whose id no live process has.  With [fresh], no id of a process or
    thread is ever given out again. *)
Definition may_start (fresh : bool) (p tid : Z) (s : Sys) : Prop :=
  0 < p ∧ 0 < tid ∧ threads s !! tid = None ∧
  (fresh = true → (tid ∉ used_ids s) ∧ (alive s p = false → p ∉ used_ids s)).

Definition MAX_DEPTH : Z := u32_max.

Inductive step (fresh : bool) : Sys → Sys → Prop :=
  | step_access tid c t t' l' s :
      threads s !! tid = Some t →
      thread_step (alive s) tid c t (lock s) = Some (t', l') →
      step fresh s (s <| lock := l' |> <| threads ::= <[tid := t']> |>)
  | step_try_lock_for tid t ms s :
      threads s !! tid = Some t → idle t → depth t < MAX_DEPTH →
      step fresh s (s <| threads ::= <[tid := t <| pc := LReadGen |> <| timeout_ms := ms |>]> |>)
  | step_unlock tid t s :
      threads s !! tid = Some t → idle t →
      step fresh s (s <| threads ::= <[tid := t <| pc := UReadPid |>]> |>)
  | step_start p tid s :
      may_start fresh p tid s →
      step fresh s (s <| threads ::= <[tid := mkThread p (Idle None) 0 0]> |>
                      <| used_ids ::= union {[p; tid]} |>)
  | step_exit tid t s :
      threads s !! tid = Some t → idle t →
      step fresh s (s <| threads ::= delete tid |>)
  | step_crash p s :
      step fresh s (s <| threads ::= filter (λ kt, pid kt.2 ≠ p) |>).

Definition reachable (fresh : bool) : Sys → Prop := rtc (step fresh) init_sys.

(** A thread that runs with no other thread in between. *)
Fixpoint solo (is_process_alive : Z → bool) (n : nat) (my_tid : Z) (c : Chance)
    (tl : Thread * SharedSpinLockState) : Thread * SharedSpinLockState :=
  match n with
  | O => tl
  | S n =>
      match thread_step is_process_alive my_tid c tl.1 tl.2 with
      | Some tl => solo is_process_alive n my_tid c tl
      | None => tl
      end
  end.

(** [try_lock_for] and [unlock] run alone. *)
Definition try_lock_for (is_process_alive : Z → bool) (n : nat) (my_tid ms : Z) (t : Thread)
    (l : SharedSpinLockState) : Thread * SharedSpinLockState :=
  solo is_process_alive n my_tid (mkChance false ms)
    (t <| pc := LReadGen |> <| timeout_ms := ms |>, l).
Definition unlock (is_process_alive : Z → bool) (my_tid : Z) (t : Thread) (l : SharedSpinLockState) :
    Thread * SharedSpinLockState :=
  solo is_process_alive 8 my_tid (mkChance false 0) (t <| pc := UReadPid |>, l).

(** ** The invariant *)

(** A thread that has won the compare-and-swap and not yet returned. *)
Definition acquiring (q : Pc) : bool :=
  match q with
  | LReclaimTid | LReclaimCount | LReclaimGeneration | LStoreTid | LStoreCount => true
  | _ => false
  end.

Definition holding (t : Thread) : bool := acquiring (pc t) || (0 <? depth t).

(** What the lock's fields say to the thread that holds it, access by access. *)
Definition holder_view (tid : Z) (t : Thread) (l : SharedSpinLockState) : Prop :=
  owner_pid l = pid t ∧
  match pc t with
  | LStoreTid | LReclaimTid => depth t = 0
  | LStoreCount | LReclaimCount => owner_tid l = tid ∧ depth t = 0
  | LReclaimGeneration => owner_tid l = tid ∧ depth t = 0 ∧ recursion_count l = 1
  | Idle _ | UReadPid | UReadTid | UReadCount => owner_tid l = tid ∧ recursion_count l = depth t
  | LReadGen | LRecursion => owner_tid l = tid ∧ recursion_count l = depth t ∧ depth t < MAX_DEPTH
  | LReadPid g | LReadTid g | LReadGenAgain g =>
      owner_tid l = tid ∧ recursion_count l = depth t ∧ g = generation l ∧ depth t < MAX_DEPTH
  | UDecrement => owner_tid l = tid ∧ recursion_count l = depth t ∧ 1 < depth t
  | UStoreCount | UGeneration | UStoreTid => owner_tid l = tid ∧ depth t = 1
  | UStorePid => owner_tid l = 0 ∧ depth t = 1
  | LCas | LIsAlive _ | LReclaim _ | LTimeout => False
  end.

(** What a thread that does not hold it may be doing. *)
Definition outsider_view (s : Sys) (t : Thread) : Prop :=
  match pc t with
  | LIsAlive p => p ≠ 0 ∧ p ∈ used_ids s
  | LReclaim p => p ≠ 0 ∧ p ∈ used_ids s ∧ alive s p = false
  | LReadGenAgain _ | LRecursion | UReadCount | UDecrement | UStoreCount | UGeneration
  | UStoreTid | UStorePid => False
  | _ => True
  end.

Definition view (s : Sys) (tid : Z) (t : Thread) (l : SharedSpinLockState) : Prop :=
  if holding t then holder_view tid t l
  else depth t = 0 ∧ owner_tid l ≠ tid ∧ outsider_view s t.

Definition known (s : Sys) (id : Z) : Prop := id = 0 ∨ id ∈ used_ids s.

Record Inv (s : Sys) : Prop := {
  inv_thread tid t : threads s !! tid = Some t →
    0 < tid ∧ 0 < pid t ∧ tid ∈ used_ids s ∧ pid t ∈ used_ids s ∧
    0 ≤ depth t ≤ MAX_DEPTH ∧ view s tid t (lock s);
  inv_one t1 t2 x1 x2 : threads s !! t1 = Some x1 → threads s !! t2 = Some x2 →
    holding x1 = true → holding x2 = true → t1 = t2;
  inv_owner : known s (owner_pid (lock s)) ∧ known s (owner_tid (lock s));
}.

Lemma alive_true s p : alive s p = true ↔ ∃ tid t, threads s !! tid = Some t ∧ pid t = p.
Proof.
  unfold alive. rewrite existsb_exists. split.
  - intros ([tid t] & Hin & He). apply list_elem_of_In, elem_of_map_to_list in Hin.
    exists tid, t. split; [done|]. by apply Z.eqb_eq.
  - intros (tid & t & Hl & He). exists (tid, t).
    split; [by apply list_elem_of_In, elem_of_map_to_list|]. by apply Z.eqb_eq.
Qed.

(** Starting, accessing, exiting: [alive] only changes with the threads' pids. *)
Lemma alive_mono s s' :
  (∀ tid t, threads s' !! tid = Some t → ∃ tid' t', threads s !! tid' = Some t' ∧ pid t' = pid t) →
  ∀ p, alive s p = false → alive s' p = false.
Proof.
  intros Hs p Hp. apply not_true_is_false. intros (tid & t & Hl & He)%alive_true.
  destruct (Hs _ _ Hl) as (tid' & t' & Hl' & He').
  apply not_true_iff_false in Hp. apply Hp. apply alive_true. exists tid', t'. by rewrite He'.
Qed.

(** The comparisons of the code as propositions. *)
Ltac z_facts :=
  repeat match goal with
  | H : (_ =? _) = true |- _ => apply Z.eqb_eq in H
  | H : (_ =? _) = false |- _ => apply Z.eqb_neq in H
  | H : (_ <? _) = true |- _ => apply Z.ltb_lt in H
  | H : (_ <? _) = false |- _ => apply Z.ltb_ge in H
  | H : (_ <=? _) = true |- _ => apply Z.leb_le in H
  | H : (_ <=? _) = false |- _ => apply Z.leb_gt in H
  | H : andb _ _ = true |- _ => apply andb_true_iff in H as [? ?]
  | H : orb _ _ = true |- _ => apply orb_true_iff in H
  | H : orb _ _ = false |- _ => apply orb_false_iff in H as [? ?]
  end.

(** ** One access *)

(** An access of a thread that does not hold the lock leaves it alone, or takes
    a lock that is free or whose holder is dead. *)
Lemma outsider_step s tid c t t' l' :
  holding t = false → view s tid t (lock s) → known s (owner_pid (lock s)) →
  thread_step (alive s) tid c t (lock s) = Some (t', l') →
  pid t' = pid t ∧ depth t' = 0 ∧
  (l' = lock s ∧ holding t' = false ∧ view s tid t' l' ∨
   (owner_pid (lock s) = 0 ∨ alive s (owner_pid (lock s)) = false) ∧
   l' = (lock s) <| owner_pid := pid t |> ∧ holding t' = true ∧ view s tid t' l').
Proof.
  intros Hh Hv Hk. unfold view in Hv. rewrite Hh in Hv. destruct Hv as (Hd & Ht & Hv).
  unfold holding in Hh. rewrite Hd in Hh. destruct t as [p q ms d]. simpl in Hd, Hh. subst d.
  unfold thread_step, view, holding, acquiring, holder_view, outsider_view.
  destruct q; cbn in Hh, Hv |- *; try done; intros Hst; repeat case_match; simplify_eq/=;
    z_facts; destruct Hk; naive_solver lia.
Qed.

(** An access of the holder keeps its view, or releases the lock. *)
Lemma holder_step s tid c t t' l' :
  0 < tid → 0 ≤ depth t ≤ MAX_DEPTH →
  holding t = true → view s tid t (lock s) →
  thread_step (alive s) tid c t (lock s) = Some (t', l') →
  pid t' = pid t ∧ 0 ≤ depth t' ≤ MAX_DEPTH ∧
  (owner_tid l' = owner_tid (lock s) ∨ owner_tid l' = tid ∨ owner_tid l' = 0) ∧
  (holding t' = true ∧ view s tid t' l' ∧ owner_pid l' = pid t ∨
   holding t' = false ∧ view s tid t' l' ∧ owner_pid l' = 0).
Proof.
  intros Htid Hd Hh Hv. unfold view in Hv. rewrite Hh in Hv. destruct Hv as [Ho Hv].
  destruct t as [p q ms d]. unfold thread_step, view, holding, acquiring, holder_view, outsider_view in *.
  destruct q; cbn in Ho, Hv, Hh, Hd |- *; try done; intros Hst; repeat case_match; simplify_eq/=; z_facts;
    destruct_and?; try done; try lia; unfold MAX_DEPTH, u32_max in *; rewrite ?Z.mod_small by lia;
    (split_and!; [done|lia|lia|auto|]);
    first [left; split_and!; by (done || lia) | right; split_and!; by (done || lia) | idtac].
Qed.

(** ** Every step keeps the invariant *)

Lemma view_mono s s' tid t l :
  used_ids s ⊆ used_ids s' → (∀ p, p ∈ used_ids s → alive s p = false → alive s' p = false) →
  view s tid t l → view s' tid t l.
Proof.
  intros Hu Ha. unfold view. destruct (holding t); [done|]. intros (? & ? & Hv).
  split_and!; [done|done|]. unfold outsider_view in *. destruct (pc t); try done; naive_solver.
Qed.

(** An access keeps what every other thread knows. *)
Lemma others_step s tid c t t' l' u x :
  Inv s → threads s !! tid = Some t → threads s !! u = Some x → u ≠ tid →
  thread_step (alive s) tid c t (lock s) = Some (t', l') →
  view s u x l' ∧ (holding x = true → holding t' = false).
Proof.
  intros HI Ht Hx Hne Hst.
  pose proof (inv_thread _ HI _ _ Ht) as (? & ? & ? & ? & Hd & Hv).
  pose proof (inv_thread _ HI _ _ Hx) as (? & ? & ? & ? & _ & Hvx).
  destruct (inv_owner _ HI) as [Hk _]. destruct (holding t) eqn:Hh.
  - apply holder_step in Hst as (_ & _ & Ho & _); [|done..].
    destruct (holding x) eqn:Hhx; [by destruct Hne; eapply (inv_one _ HI)|].
    unfold view in *. rewrite Hhx in *. split; [|done].
    destruct Hvx as (? & ? & ?). split_and!; [done| |done].
    destruct Ho as [Ho|[Ho|Ho]]; rewrite Ho; [done|naive_solver|lia].
  - apply outsider_step in Hst as (_ & _ & [(-> & Hh' & _)|(Hfree & -> & _)]); [by rewrite Hh'| |done..].
    unfold view in *. destruct (holding x) eqn:Hhx; [|split; [exact Hvx|done]].
    exfalso. destruct Hvx as [Ho _]. rewrite Ho in Hfree. destruct Hfree as [?|Hf]; [lia|].
    apply not_true_iff_false in Hf. apply Hf, alive_true. eauto.
Qed.

Lemma step_access_inv s tid c t t' l' :
  Inv s → threads s !! tid = Some t → thread_step (alive s) tid c t (lock s) = Some (t', l') →
  Inv (s <| lock := l' |> <| threads ::= <[tid := t']> |>).
Proof.
  intros HI Ht Hst. set (s' := s <| lock := l' |> <| threads ::= <[tid := t']> |>).
  pose proof (inv_thread _ HI _ _ Ht) as (? & ? & ? & ? & Hd & Hv).
  destruct (inv_owner _ HI) as [Hko Hkt].
  assert (pid t' = pid t ∧ 0 ≤ depth t' ≤ MAX_DEPTH ∧ view s tid t' l' ∧
          known s (owner_pid l') ∧ known s (owner_tid l')) as (Hp & Hd' & Hv' & Hk1 & Hk2).
  { destruct (holding t) eqn:Hh.
    - destruct (holder_step s tid c t t' l' ltac:(done) Hd Hh Hv Hst) as (? & ? & Ho & Hc).
      unfold known in *. split_and!; [done|lia|lia|by destruct Hc as [(_ & ? & _)|(_ & ? & _)]| |].
      + destruct Hc as [(_ & _ & ->)|(_ & _ & ->)]; auto.
      + destruct Ho as [->|[->| ->]]; auto.
    - destruct (outsider_step s tid c t t' l' Hh Hv Hko Hst)
        as (? & Hz & [(-> & Hh' & Hv')|(_ & -> & Hh' & Hv')]);
        (split_and!; [done|lia|unfold MAX_DEPTH, u32_max; lia|done|..]; try done; by right). }
  assert (∀ p, alive s p = false → alive s' p = false) as Ha.
  { apply alive_mono. intros u x Hx. cbn in Hx. destruct (decide (u = tid)) as [->|Hne].
    - rewrite lookup_insert_eq in Hx. simplify_eq. eauto.
    - rewrite lookup_insert_ne in Hx by done. eauto. }
  assert (threads s' = <[tid := t']> (threads s)) as Hth by done.
  constructor; [rewrite Hth..|done].
  - intros u x Hx. destruct (decide (u = tid)) as [->|Hne].
    + rewrite lookup_insert_eq in Hx. simplify_eq. rewrite Hp.
      split_and!; try done; try lia. apply (view_mono s s'); [done|by auto|exact Hv'].
    + rewrite lookup_insert_ne in Hx by done. pose proof (inv_thread _ HI _ _ Hx) as (? & ? & ? & ? & ? & _).
      split_and!; try done; try lia.
      apply (view_mono s s'); [done|by auto|].
      by destruct (others_step s tid c t t' l' u x) as [? _].
  - intros u1 u2 x1 x2 Hu1 Hu2 Hh1 Hh2.
    destruct (decide (u1 = tid)) as [->|Hn1], (decide (u2 = tid)) as [->|Hn2]; [done|..].
    + rewrite lookup_insert_eq in Hu1. rewrite lookup_insert_ne in Hu2 by done. simplify_eq.
      destruct (others_step s tid c t x1 l' u2 x2) as [_ Hf]; [done..|]. by rewrite Hf in Hh1.
    + rewrite lookup_insert_eq in Hu2. rewrite lookup_insert_ne in Hu1 by done. simplify_eq.
      destruct (others_step s tid c t x2 l' u1 x1) as [_ Hf]; [done..|]. by rewrite Hf in Hh2.
    + rewrite lookup_insert_ne in Hu1, Hu2 by done. by eapply (inv_one _ HI).
Qed.

(** Starting a call, and a process or a thread coming or going, are changes of
    the threads alone. *)
Lemma threads_inv s s' :
  Inv s → lock s' = lock s → used_ids s ⊆ used_ids s' →
  (∀ p, p ∈ used_ids s → alive s p = false → alive s' p = false) →
  (∀ u x, threads s' !! u = Some x →
     threads s !! u = Some x ∨
     (∃ y, threads s !! u = Some y ∧ pid x = pid y ∧ depth x = depth y ∧ holding x = holding y ∧
           view s' u x (lock s)) ∨
     0 < u ∧ 0 < pid x ∧ u ∈ used_ids s' ∧ pid x ∈ used_ids s' ∧ depth x = 0 ∧ holding x = false ∧
     view s' u x (lock s)) →
  Inv s'.
Proof.
  intros HI Hl Hu Ha Hth.
  assert (∀ u x, threads s' !! u = Some x → holding x = true →
            ∃ y, threads s !! u = Some y ∧ holding y = true) as Hold.
  { intros u x Hx Hh. destruct (Hth u x Hx) as [?|[(y & ? & ? & ? & ? & ?)|(? & ? & ? & ? & ? & ? & ?)]];
      [by eauto|exists y; by split; congruence|congruence]. }
  constructor.
  - intros u x Hx. rewrite Hl.
    destruct (Hth u x Hx) as [Hs|[(y & Hs & Hp & Hd & ? & ?)|(? & ? & ? & ? & Hd & ? & ?)]].
    + pose proof (inv_thread _ HI _ _ Hs) as (? & ? & ? & ? & ? & Hv).
      split_and!; [done|done|by apply Hu|by apply Hu|lia|lia|]. by apply (view_mono s s').
    + pose proof (inv_thread _ HI _ _ Hs) as (? & ? & ? & ? & ? & Hv).
      rewrite Hp, Hd. split_and!; [done|done|by apply Hu|by apply Hu|lia|lia|done].
    + rewrite Hd. unfold MAX_DEPTH, u32_max. split_and!; try done; lia.
  - intros u1 u2 x1 x2 H1 H2 Hh1 Hh2.
    destruct (Hold _ _ H1 Hh1) as (? & ? & ?), (Hold _ _ H2 Hh2) as (? & ? & ?).
    by eapply (inv_one _ HI).
  - rewrite Hl. destruct (inv_owner _ HI) as [[?|?] [?|?]]; split; unfold known; auto.
Qed.

(** A thread that starts a call. *)
Lemma call_inv s tid t t' :
  Inv s → threads s !! tid = Some t → pid t' = pid t → depth t' = depth t → holding t' = holding t →
  (view s tid t (lock s) → view s tid t' (lock s)) →
  Inv (s <| threads ::= <[tid := t']> |>).
Proof.
  intros HI Ht Hp Hd Hh Hv. set (s' := s <| threads ::= <[tid := t']> |>).
  assert (threads s' = <[tid := t']> (threads s)) as Hth by done.
  assert (∀ p, alive s p = false → alive s' p = false) as Ha.
  { apply alive_mono. intros u x. rewrite Hth, lookup_insert_Some.
    intros [(-> & <-)|(_ & Hx)]; eauto. }
  apply (threads_inv s s'); [done..|by auto|]. intros u x. rewrite Hth, lookup_insert_Some.
  intros [(<- & <-)|(_ & Hx)]; [right; left; exists t|by left].
  split_and!; [done..|]. apply (view_mono s s'); [done|by auto|].
  by apply Hv, (inv_thread _ HI).
Qed.

Lemma sub_inv s ts :
  Inv s → (∀ u x, ts !! u = Some x → threads s !! u = Some x) → Inv (s <| threads := ts |>).
Proof.
  intros HI Hs. apply (threads_inv s); [done..| |by left; apply Hs].
  intros p _. apply alive_mono. intros u x Hx. by exists u, x; split; [apply Hs|].
Qed.

Lemma start_inv s p tid :
  Inv s → may_start true p tid s →
  Inv (s <| threads ::= <[tid := mkThread p (Idle None) 0 0]> |> <| used_ids ::= union {[p; tid]} |>).
Proof.
  intros HI (Hp & Htid & Hn & Hf). destruct (Hf eq_refl) as [Hu Hpu].
  set (s' := s <| threads ::= _ |> <| used_ids ::= _ |>).
  assert (threads s' = <[tid := mkThread p (Idle None) 0 0]> (threads s)) as Hth by done.
  assert (used_ids s' = {[p; tid]} ∪ used_ids s) as Hus by done.
  apply (threads_inv s s'); [done|done|rewrite Hus; apply union_subseteq_r| |].
  - intros q Hq. intros Hd. apply not_true_is_false. intros (u & x & Hx & He)%alive_true.
    rewrite Hth, lookup_insert_Some in Hx. destruct Hx as [(_ & <-)|(_ & Hx)].
    + cbn in He. subst q. by apply Hpu.
    + apply not_true_iff_false in Hd. apply Hd, alive_true. eauto.
  - intros u x. rewrite Hth, lookup_insert_Some. intros [(<- & <-)|(_ & Hx)]; [right; right|by left].
    rewrite Hus. split_and!; try done; [set_solver..|]. unfold view. cbn. split_and!; try done.
    destruct (inv_owner _ HI) as [_ [->|Hk]]; [lia|]. intros <-. done.
Qed.

Lemma lock_step_inv s s' : Inv s → step true s s' → Inv s'.
Proof.
  intros HI Hst. destruct Hst as [tid c t t' l' s Ht Hs|tid t ms s Ht [last Hp] Hd|tid t s Ht [last Hp]|
                                  p tid s Hm|tid t s Ht _|p s].
  - by eapply step_access_inv.
  - apply (call_inv s tid t); try done; unfold holding, view, holding, holder_view, outsider_view; cbn;
      rewrite Hp; [done|].
    cbn. case_match; naive_solver.
  - apply (call_inv s tid t); try done; unfold holding, view, holding, holder_view, outsider_view; cbn;
      rewrite Hp; [done|].
    cbn. case_match; naive_solver.
  - by apply start_inv.
  - apply (sub_inv s); [done|]. intros u x Hx. by apply lookup_delete_Some in Hx as [_ ?].
  - apply (sub_inv s); [done|]. intros u x Hx. by apply map_lookup_filter_Some in Hx as [? _].
Qed.

Lemma lock_reachable_inv s : reachable true s → Inv s.
Proof.
  intros Hr. unfold reachable in Hr. revert s Hr. apply (rtc_ind_r Inv).
  - constructor; cbn; [done..|]. split; by left.
  - intros s s' _ Hst IH. by eapply lock_step_inv.
Qed.

(** ** What the lock promises *)

(** C28 One thread at a time holds the lock, whatever the interleaving and
    whoever dies, as long as no process or thread id is given out twice: two
    threads whose calls say they hold it are one, a thread between calls holds
    it exactly when the lock says so, and the count is the number of unlocks it
    owes. *)
Theorem one_thread_holds_the_lock s t1 t2 x1 x2 :
  reachable true s → threads s !! t1 = Some x1 → threads s !! t2 = Some x2 →
  (0 < depth x1 → 0 < depth x2 → t1 = t2) ∧
  (idle x1 →
   (0 < depth x1 ↔ is_locked_by_current_process (pid x1) t1 (lock s) = true) ∧
   (0 < depth x1 → recursion_count (lock s) = depth x1)).
Proof.
  intros HI%lock_reachable_inv H1 H2. split.
  - intros Hd1 Hd2. eapply (inv_one _ HI); [done..| |];
      unfold holding; apply orb_true_iff; right; by apply Z.ltb_lt.
  - intros [last Hp]. pose proof (inv_thread _ HI _ _ H1) as (? & ? & _ & _ & Hd & Hv).
    unfold view, holding, holder_view in Hv. rewrite Hp in Hv. cbn in Hv.
    unfold is_locked_by_current_process. destruct (0 <? depth x1) eqn:Hz; z_facts.
    + destruct Hv as (-> & -> & ->). by rewrite !Z.eqb_refl.
    + destruct Hv as (Hz0 & Hne & _). split; [|lia]. split; [lia|].
      intros [_ ?%Z.eqb_eq]%andb_true_iff. done.
Qed.

(** What the calls leave behind. *)
Definition after_unlock (t : Thread) (l : SharedSpinLockState) : Thread * SharedSpinLockState :=
  if depth t =? 0 then (t <| pc := Idle (Some Throws_non_owner) |>, l)
  else (t <| pc := Idle (Some Unlocked) |> <| depth := depth t - 1 |>,
        if depth t =? 1 then mkSpin 0 0 (u64_succ (generation l)) 0
        else l <| recursion_count := depth t - 1 |>).

Definition after_try_lock_for (is_process_alive : Z → bool) (my_tid ms : Z) (t : Thread)
    (l : SharedSpinLockState) : Thread * SharedSpinLockState :=
  let t := t <| timeout_ms := ms |> in
  let got := t <| pc := Idle (Some (Returned true)) |> <| depth := depth t + 1 |> in
  if 0 <? depth t then (got, l <| recursion_count := depth t + 1 |>)
  else if owner_pid l =? 0 then (got, mkSpin (pid t) my_tid (generation l) 1)
  else if is_process_alive (owner_pid l) then (t <| pc := Idle (Some (Returned false)) |>, l)
  else (got, mkSpin (pid t) my_tid (u64_succ (generation l)) 1).

(** Run a thread alone on symbolic fields, rewriting with the tests decided so
    far. *)
Ltac runs :=
  cbn; repeat (first [rewrite Z.eqb_refl | match goal with H : ?b = _ :> bool |- _ => rewrite H end
                     | unfold thread_step at 1]; cbn).

(** The calls of the lock on every branch, in any state that interleaved
    threads and crashes can leave: [unlock] by a thread that does not hold the
    lock throws and changes nothing, by its holder it takes one level off and
    frees the lock with the last; [try_lock_for] counts the holder's levels,
    takes a lock that is free or whose holder died, at whatever access it died,
    and gives up on one whose holder lives. *)
Theorem lock_calls_outcome s tid t ms :
  reachable true s → threads s !! tid = Some t → idle t → 0 ≤ ms →
  unlock (alive s) tid t (lock s) = after_unlock t (lock s) ∧
  (depth t < MAX_DEPTH →
   try_lock_for (alive s) 10 tid ms t (lock s) = after_try_lock_for (alive s) tid ms t (lock s)).
Proof.
  intros HI%lock_reachable_inv Ht [last Hp] Hms. pose proof (inv_thread _ HI _ _ Ht) as (? & ? & _ & _ & Hd & Hv).
  assert (alive s (pid t) = true) as Hal by (apply alive_true; eauto).
  unfold view, holding, holder_view in Hv. rewrite Hp in Hv. cbn in Hv.
  unfold unlock, try_lock_for, after_unlock, after_try_lock_for, MAX_DEPTH, u32_max in *.
  destruct (lock s) as [op ot g rc]. destruct t as [p q m d]. cbn in *. clear HI Ht Hp.
  destruct (0 <? d) eqn:Hz.
  - assert (0 < d) by (by apply Z.ltb_lt). destruct Hv as (-> & -> & ->). split.
    + destruct (d =? 0) eqn:?, (d =? 1) eqn:?, (1 <? d) eqn:?; try (z_facts; lia); runs;
        unfold fetch_add32; cbn -[Z.pow Z.modulo]; rewrite ?Z.mod_small by (z_facts; lia);
        f_equal; f_equal; z_facts; lia.
    + intros Hm. runs. unfold fetch_add32. cbn -[Z.pow Z.modulo]. by rewrite Z.mod_small by lia.
  - destruct Hv as (-> & Hot & _). apply Z.eqb_neq in Hot. split.
    + runs. destruct (op =? p); runs; done.
    + intros _. destruct (op =? 0) eqn:Ho.
      * apply Z.eqb_eq in Ho. subst op.
        destruct p as [|p|p]; [lia| |lia]. by runs.
      * destruct (alive s op) eqn:Ha.
        -- assert (ms = 0 ∨ (ms =? 0) = false ∧ (0 <? ms) = true ∧ (ms <=? ms) = true) as [->|(? & ? & ?)]
             by (destruct (decide (ms = 0)) as [->|]; [by left|right; split_and!;
                 [by apply Z.eqb_neq|apply Z.ltb_lt; lia|apply Z.leb_refl]]);
             destruct (op =? p) eqn:?; by runs.
        -- assert ((op =? p) = false) as Hne by (apply Z.eqb_neq; intros ->; congruence). by runs.
Qed.

(** ** Ids that come back *)

(** Runs as values: the events of a run, and the state it leads to. *)
Inductive Event :=
  | EAccess (tid : Z) | ELock (tid ms : Z) | EUnlock (tid : Z) | EStart (p tid : Z) | ECrash (p : Z).

Definition is_idle (t : Thread) : bool := match pc t with Idle _ => true | _ => false end.

Definition can_start (fresh : bool) (p tid : Z) (s : Sys) : bool :=
  bool_decide (0 < p ∧ 0 < tid ∧ threads s !! tid = None) &&
  (negb fresh || bool_decide ((tid ∉ used_ids s) ∧ (alive s p = true ∨ p ∉ used_ids s))).

Definition apply_event (fresh : bool) (s : Sys) (e : Event) : option Sys :=
  match e with
  | EAccess tid =>
      t ← threads s !! tid;
      '(t', l') ← thread_step (alive s) tid (mkChance false 0) t (lock s);
      Some (s <| lock := l' |> <| threads ::= <[tid := t']> |>)
  | ELock tid ms =>
      t ← threads s !! tid;
      if is_idle t && (depth t <? MAX_DEPTH)
      then Some (s <| threads ::= <[tid := t <| pc := LReadGen |> <| timeout_ms := ms |>]> |>) else None
  | EUnlock tid =>
      t ← threads s !! tid;
      if is_idle t then Some (s <| threads ::= <[tid := t <| pc := UReadPid |>]> |>) else None
  | EStart p tid =>
      if can_start fresh p tid s
      then Some (s <| threads ::= <[tid := mkThread p (Idle None) 0 0]> |>
                   <| used_ids ::= union {[p; tid]} |>)
      else None
  | ECrash p => Some (s <| threads ::= filter (λ kt, pid kt.2 ≠ p) |>)
  end.

Lemma is_idle_true t : is_idle t = true → idle t.
Proof. unfold is_idle, idle. destruct (pc t); [eauto|done..]. Qed.

Lemma can_start_true fresh p tid s : can_start fresh p tid s = true → may_start fresh p tid s.
Proof.
  unfold can_start, may_start. rewrite andb_true_iff, bool_decide_eq_true, orb_true_iff.
  intros [(? & ? & ?) Hf]. split_and!; [done..|]. intros ->. destruct Hf as [?|Hf]; [done|].
  apply bool_decide_eq_true_1 in Hf as [? [Ha|?]]; split; [done|congruence|done|done].
Qed.

Definition run_events (fresh : bool) (es : list Event) : option Sys :=
  foldl (λ s e, s ≫= λ s, apply_event fresh s e) (Some init_sys) es.

Lemma apply_event_step fresh s e s' : apply_event fresh s e = Some s' → step fresh s s'.
Proof.
  destruct e; cbn [apply_event]; intros He; repeat (case_match || simplify_option_eq); simplify_eq.
  - by eapply (step_access fresh).
  - bool_facts. z_facts. apply (step_try_lock_for fresh tid _ ms s); [done| |done].
    by apply is_idle_true.
  - apply (step_unlock fresh tid _ s); [done|]. by apply is_idle_true.
  - by apply (step_start fresh p tid s), can_start_true.
  - apply (step_crash fresh p s).
Qed.

Lemma run_reachable fresh es s : run_events fresh es = Some s → reachable fresh s.
Proof.
  unfold run_events, reachable. generalize (rtc_refl (step fresh) init_sys).
  generalize init_sys at 2 3 as s0. induction es as [|e es IH]; intros s0 Hs Hr; cbn in Hr; [congruence|].
  destruct (apply_event fresh s0 e) as [s1|] eqn:He.
  - apply (IH s1); [|done]. eapply rtc_r; [done|by eapply apply_event_step].
  - exfalso. clear -Hr. induction es as [|e es IH]; [done|by apply IH].
Qed.

(** A holder dies; a second process sees it dead; a new process gets its id and
    takes the lock for its own; then the second process takes it over. *)
Definition reused_id_run : list Event :=
  [EStart 5 5; ELock 5 (-1)] ++ replicate 5 (EAccess 5) ++ [ECrash 5] ++
  [EStart 6 6; ELock 6 (-1)] ++ replicate 4 (EAccess 6) ++
  [EStart 5 5; ELock 5 (-1)] ++ replicate 5 (EAccess 5) ++ replicate 4 (EAccess 6).

(** A process id that is given out again breaks the lock, although its
    header says the generation counter deals with that: two processes can hold
    it at the same time.  The new process's main thread has the ids of the dead
    holder, so its first [try_lock_for] counts as recursion; the takeover then
    compares process ids only. *)
Theorem reused_id_breaks_exclusion :
  ∃ s t1 t2 x1 x2, reachable false s ∧ threads s !! t1 = Some x1 ∧ threads s !! t2 = Some x2 ∧
    pid x1 ≠ pid x2 ∧ pc x1 = Idle (Some (Returned true)) ∧ pc x2 = Idle (Some (Returned true)) ∧
    0 < depth x1 ∧ 0 < depth x2.
Proof.
  set (held p := mkThread p (Idle (Some (Returned true))) (-1) 1).
  exists (default init_sys (run_events false reused_id_run)), 5, 6, (held 5), (held 6).
  split_and!; try done; try (vm_compute; reflexivity).
  apply (run_reachable false reused_id_run). vm_compute. reflexivity.
Qed.

(** A session without reuse: the first thread of process 5 takes the lock twice,
    and the process may then die. *)
Definition plain_run : list Event :=
  [EStart 5 5; EStart 5 7; EStart 6 6; ELock 5 0] ++ replicate 5 (EAccess 5) ++
  [ELock 5 0] ++ replicate 5 (EAccess 5).
Definition state_after (es : list Event) : Sys := default init_sys (run_events true es).

Lemma one_thread_holds_the_lock_witness :
  recursion_count (lock (state_after plain_run)) = 2 ∧
  is_locked_by_current_process 5 5 (lock (state_after plain_run)) = true.
Proof.
  destruct (one_thread_holds_the_lock (state_after plain_run) 5 7
              (mkThread 5 (Idle (Some (Returned true))) 0 2) (mkThread 5 (Idle None) 0 0)
              ltac:(apply (run_reachable true plain_run); vm_compute; reflexivity)
              ltac:(vm_compute; reflexivity) ltac:(vm_compute; reflexivity)) as [_ H].
  destruct (H (ex_intro _ _ eq_refl)) as [H1 H2].
  split; [apply H2|apply H1]; reflexivity.
Defined.

Lemma lock_calls_outcome_witness :
  let s := state_after (plain_run ++ [ECrash 5]) in
  let t := mkThread 6 (Idle None) 0 0 in
  (unlock (alive s) 6 t (lock s)).1 = mkThread 6 (Idle (Some Throws_non_owner)) 0 0 ∧
  try_lock_for (alive s) 10 6 0 t (lock s)
  = (mkThread 6 (Idle (Some (Returned true))) 0 1, mkSpin 6 6 1 1).
Proof.
  cbv zeta.
  destruct (lock_calls_outcome (state_after (plain_run ++ [ECrash 5])) 6 (mkThread 6 (Idle None) 0 0) 0
              ltac:(apply (run_reachable true (plain_run ++ [ECrash 5])); vm_compute; reflexivity)
              ltac:(vm_compute; reflexivity) ltac:(by eexists) ltac:(lia)) as [H1 H2].
  rewrite H1, (H2 ltac:(done)). split; vm_compute; reflexivity.
Defined.

End SpinLock.
