(* ===== verification/SpinGuard.v ===== *)
(** * The spinlock inside one process

    Models [src/include/utils/in_process_spin_state.hpp] and
    [detail/spinlock_owner_ops.hpp]: a lock whose state is the token of its
    holder, and the guards that hold tokens.  A guard is used by one thread at a
    time, as its header requires, and guards of different threads interleave:
    waiting for a lock is a begin and an end with anything in between.
    Proved: two guards never hold the same lock. *)

From S2P Require Import Prelude.
From S2P Require Import ShmHeader.
Import ShmHeader.

Module SpinGuard.

(** ** Tokens *)

Definition try_acquire_token (token : Z) (l : SharedSpinLockState) : bool * SharedSpinLockState :=
  if generation l =? 0 then (true, l <| generation := token |>) else (false, l).

Definition release_token (token : Z) (l : SharedSpinLockState) : bool * SharedSpinLockState :=
  if generation l =? token then (true, l <| generation := 0 |>) else (false, l).

Definition token_lock_held (l : SharedSpinLockState) : bool := negb (generation l =? 0).

(** The counter of [next_token]: the token and the counter's next value. *)
Definition next_token (next : Z) : Z * Z :=
  if next =? 0 then (1, 2) else (next, u64_succ next).

(** ** Guards *)

(** [InProcessSpinStateGuard]; [waiting] while its thread is inside a call that
    acquires. *)
Record Guard := mkGuard {
  state_ : option nat;
  token_ : Z;
  waiting : bool;
}.
#[global] Instance eta_guard : Eta Guard := λ r, mkGuard (state_ r) (token_ r) (waiting r).

(** The states of the process, its guards, and the counter of tokens. *)
Record Process := mkProcess {
  states : gmap nat SharedSpinLockState;
  guards : gmap nat Guard;
  next : Z;
}.
#[global] Instance eta_process : Eta Process := λ r, mkProcess (states r) (guards r) (next r).

Definition init_process : Process := mkProcess ∅ ∅ 1.

Definition holds_lock (g : Guard) : bool :=
  bool_decide (is_Some (state_ g)) && negb (token_ g =? 0).

Definition set_guard (i : nat) (g : Guard) (p : Process) : Process := p <| guards ::= <[i := g]> |>.

(** [state_->unlock(token_)] if the guard holds something. *)
Definition unlock_held (g : Guard) (p : Process) : Process :=
  match state_ g with
  | Some s => if token_ g =? 0 then p
              else p <| states ::= alter (λ l, (release_token (token_ g) l).2) s |>
  | None => p
  end.

Definition InProcessSpinState (s : nat) (p : Process) : Process :=
  p <| states ::= <[s := init_spinlock_state]> |>.

Definition default_guard : Guard := mkGuard None 0 false.

(** The blocking constructor, up to its wait. *)
Definition construct_guard (i s : nat) (p : Process) : Process :=
  let '(t, n) := next_token (next p) in
  set_guard i (mkGuard (Some s) t true) (p <| next := n |>).

Definition destroy_guard (i : nat) (g : Guard) (p : Process) : Process :=
  (unlock_held g p) <| guards ::= delete i |>.

(** The move constructor. *)
Definition move_guard (i j : nat) (other : Guard) (p : Process) : Process :=
  set_guard j (other <| state_ := None |> <| token_ := 0 |>)
    (set_guard i (mkGuard (state_ other) (token_ other) false) p).

Definition move_assign (i j : nat) (g other : Guard) (p : Process) : Process :=
  if bool_decide (i = j) then p else move_guard i j other (unlock_held g p).

(** [try_lock] up to its wait. *)
Definition try_lock (i s : nat) (g : Guard) (p : Process) : Process :=
  let p := unlock_held g p in
  let '(t, n) := if token_ g =? 0 then next_token (next p) else (token_ g, next p) in
  set_guard i (mkGuard (Some s) t true) (p <| next := n |>).

(** The end of the wait of a constructor or of [try_lock]: an attempt that
    succeeds, or giving up, which a [try_lock] may do at any time (the step
    relation allows it of a constructor too). *)
Definition attempt (i s : nat) (g : Guard) (p : Process) : option Process :=
  l ← states p !! s;
  let '(acquired, l') := try_acquire_token (token_ g) l in
  if acquired : bool
  then Some (set_guard i (g <| waiting := false |>) (p <| states ::= <[s := l']> |>))
  else None.
Definition leave_queue (i : nat) (g : Guard) (p : Process) : Process :=
  set_guard i (mkGuard None (token_ g) false) p.

Definition release (i : nat) (g : Guard) (p : Process) : bool * Process :=
  if holds_lock g then (true, set_guard i (g <| token_ := 0 |>) (unlock_held g p)) else (false, p).

Definition detach (i : nat) (g : Guard) (p : Process) : Process :=
  set_guard i (g <| state_ := None |> <| token_ := 0 |>) p.

(** One call, or one half of a call that waits.  The counter of tokens does not
    wrap: that would take 2^64 guards.  States outlive their guards. *)
Inductive step (p : Process) : Process → Prop :=
  | step_state s : states p !! s = None → step p (InProcessSpinState s p)
  | step_default i : guards p !! i = None → step p (set_guard i default_guard p)
  | step_construct i s :
      guards p !! i = None → is_Some (states p !! s) → next p < u64_max →
      step p (construct_guard i s p)
  | step_destroy i g : guards p !! i = Some g → waiting g = false → step p (destroy_guard i g p)
  | step_move i j other :
      guards p !! i = None → guards p !! j = Some other → waiting other = false →
      step p (move_guard i j other p)
  | step_assign i j g other :
      guards p !! i = Some g → guards p !! j = Some other → waiting g = false → waiting other = false →
      step p (move_assign i j g other p)
  | step_try_lock i s g :
      guards p !! i = Some g → waiting g = false → is_Some (states p !! s) → next p < u64_max →
      step p (try_lock i s g p)
  | step_acquired i s g p' :
      guards p !! i = Some g → waiting g = true → state_ g = Some s → attempt i s g p = Some p' →
      step p p'
  | step_leave_queue i g :
      guards p !! i = Some g → waiting g = true → step p (leave_queue i g p)
  | step_release i g :
      guards p !! i = Some g → waiting g = false → step p (release i g p).2
  | step_detach i g :
      guards p !! i = Some g → waiting g = false → step p (detach i g p).

Definition reachable : Process → Prop := rtc step init_process.

(** ** The invariant *)

(** The value of a lock's state: the token that holds it, 0 if none. *)
Definition held_by (p : Process) (s : nat) : Z := from_option generation 0 (states p !! s).

Record Inv (p : Process) : Prop := {
  inv_next : 0 < next p ≤ u64_max;
  inv_guard i g : guards p !! i = Some g →
    0 ≤ token_ g < next p ∧
    (waiting g = true → 0 < token_ g) ∧
    ∀ s, state_ g = Some s → 0 < token_ g → waiting g = false → held_by p s = token_ g;
  inv_distinct i j g h : guards p !! i = Some g → guards p !! j = Some h →
    0 < token_ g → token_ g = token_ h → i = j;
}.

Lemma unlock_held_guards g p : guards (unlock_held g p) = guards p ∧ next (unlock_held g p) = next p.
Proof. unfold unlock_held. by repeat case_match. Qed.

(** Unlocking takes the token from the guard's state only. *)
Lemma unlock_held_other g p s t : t ≠ token_ g → held_by p s = t → held_by (unlock_held g p) s = t.
Proof.
  unfold unlock_held, held_by. intros Hne Ht. destruct (state_ g) as [s'|]; [|done].
  destruct (token_ g =? 0); [done|]. cbn. destruct (decide (s = s')) as [->|]; [|by rewrite lookup_alter_ne].
  rewrite lookup_alter_eq. destruct (states p !! s') as [l|]; [|done]. cbn in *. unfold release_token.
  case_match eqn:He; [|done]. apply Z.eqb_eq in He. congruence.
Qed.

(** One guard gets new contents; the other holders' locks are untouched. *)
Lemma inv_update p p' i g :
  Inv p → next p ≤ next p' ≤ u64_max → guards p' = <[i := g]> (guards p) →
  0 ≤ token_ g < next p' → (waiting g = true → 0 < token_ g) →
  (∀ s, state_ g = Some s → 0 < token_ g → waiting g = false → held_by p' s = token_ g) →
  (∀ j h, j ≠ i → guards p !! j = Some h → 0 < token_ h →
     token_ h ≠ token_ g ∧ ∀ s, held_by p s = token_ h → held_by p' s = token_ h) →
  Inv p'.
Proof.
  intros HI Hn Hg Ht Hw Hs Ho. pose proof (inv_next _ HI). constructor; [lia|..].
  - intros j h. rewrite Hg, lookup_insert_Some. intros [(<- & <-)|(Hne & Hh)]; [done|].
    destruct (inv_guard _ HI _ _ Hh) as (? & ? & Hhs). split_and!; [lia|lia|done|].
    intros s Hsh Hpos Hnw. destruct (Ho j h) as [_ Hkeep]; [done..|]. apply Hkeep. by apply Hhs.
  - intros j1 j2 h1 h2. rewrite Hg, !lookup_insert_Some.
    intros [(<- & <-)|(Hn1 & H1)] [(<- & <-)|(Hn2 & H2)] Hpos He; [done| | |by eapply (inv_distinct _ HI)].
    + destruct (Ho j2 h2) as [Hne _]; [done..|lia|]. congruence.
    + destruct (Ho j1 h1) as [Hne _]; [done..|]. congruence.
Qed.

Lemma others_distinct p i g j h :
  Inv p → guards p !! i = Some g → j ≠ i → guards p !! j = Some h → 0 < token_ h → token_ h ≠ token_ g.
Proof. intros HI Hg Hne Hh Hpos He. apply Hne. by eapply (inv_distinct _ HI). Qed.

(** A guard that unlocks what it holds and then changes: to a token it had, to
    none, or to a new one. *)
Lemma unlocked_update p i g g' n :
  Inv p → guards p !! i = Some g → next p ≤ n ≤ u64_max → 0 ≤ token_ g' < n →
  (waiting g' = true → 0 < token_ g') →
  (token_ g' = 0 ∨ token_ g' = token_ g ∨ next p ≤ token_ g') →
  (state_ g' = None ∨ waiting g' = true ∨ token_ g' = 0) →
  Inv (set_guard i g' ((unlock_held g p) <| next := n |>)).
Proof.
  intros HI Hg Hn Ht Hw Hc Hs. destruct (unlock_held_guards g p) as [Hug Hun].
  apply (inv_update p _ i g'); [done|cbn; lia|cbn; by rewrite Hug|cbn; lia|done| |].
  - intros s Hs' ? ?. destruct Hs as [?|[?|?]]; [congruence|congruence|lia].
  - intros j h Hne Hh Hpos. pose proof (others_distinct p i g j h HI Hg Hne Hh Hpos) as Hd.
    destruct (inv_guard _ HI _ _ Hh) as (? & _). split; [lia|].
    intros s Hh'. by apply (unlock_held_other g p).
Qed.

Lemma next_token_fresh n : 0 < n < u64_max → next_token n = (n, n + 1).
Proof.
  intros Hn. unfold next_token. destruct (n =? 0) eqn:He; [apply Z.eqb_eq in He; lia|].
  by rewrite u64_succ_id by lia.
Qed.

Lemma set_same_next p n : n = next p → p <| next := n |> = p.
Proof. intros ->. by destruct p. Qed.

(** Without a lock to give back, the process stays as it is. *)
Lemma unlock_held_none g p : state_ g = None ∨ token_ g = 0 → unlock_held g p = p.
Proof. unfold unlock_held. intros [->| ->]; [done|]. by destruct (state_ g). Qed.

(** A guard that gives its lock away, or ends a wait without it. *)
Lemma cleared_update p i g g' :
  Inv p → guards p !! i = Some g → waiting g' = false → state_ g' = None ∨ token_ g' = 0 →
  token_ g' = token_ g ∨ token_ g' = 0 → Inv (set_guard i g' p).
Proof.
  intros HI Hg Hw Hs Ht. pose proof (inv_next _ HI). destruct (inv_guard _ HI _ _ Hg) as (? & _).
  apply (inv_update p _ i g'); [done|cbn; lia|done|cbn; lia|congruence| |].
  - intros s Hs' ? ?. destruct Hs as [?|?]; [congruence|lia].
  - intros j h Hne Hh Hpos. split; [|done].
    pose proof (others_distinct p i g j h HI Hg Hne Hh Hpos). lia.
Qed.

Lemma new_update p i g n :
  Inv p → guards p !! i = None → next p ≤ n ≤ u64_max → 0 ≤ token_ g < n → (waiting g = true → 0 < token_ g) →
  token_ g = 0 ∨ next p ≤ token_ g → waiting g = true ∨ token_ g = 0 →
  Inv (set_guard i g (p <| next := n |>)).
Proof.
  intros HI Hg Hn Ht Hw Hc Hs.
  apply (inv_update p _ i g); [done|cbn; lia|done|cbn; lia|done| |].
  - intros s _ ? ?. destruct Hs; [congruence|lia].
  - intros j h Hne Hh Hpos. destruct (inv_guard _ HI _ _ Hh) as (? & _). split; [lia|done].
Qed.

Lemma move_inv p i j other :
  Inv p → guards p !! i = None → guards p !! j = Some other → waiting other = false →
  Inv (move_guard i j other p).
Proof.
  intros HI Hi Hj Hw. assert (i ≠ j) as Hne by congruence.
  set (gone := other <| state_ := None |> <| token_ := 0 |>).
  assert (Inv (set_guard j gone p)) as HI' by (apply (cleared_update p j other); auto).
  pose proof (inv_next _ HI). destruct (inv_guard _ HI _ _ Hj) as (? & _ & Hs).
  assert (move_guard i j other p
          = set_guard i (mkGuard (state_ other) (token_ other) false) (set_guard j gone p)) as ->.
  { unfold move_guard, set_guard. cbn. f_equal. by apply insert_insert_ne. }
  apply (inv_update (set_guard j gone p) _ i (mkGuard (state_ other) (token_ other) false));
    [done|cbn; lia|done|cbn; lia|done|by intros ? ? ? _; apply Hs|].
  intros k h _ Hh Hpos. split; [|done]. cbn in Hh. rewrite lookup_insert_Some in Hh.
  destruct Hh as [(<- & <-)|(Hkj & Hh)]; [cbn in Hpos; lia|].
  by apply (others_distinct p j other k h).
Qed.

(** The guards after some of them are gone. *)
Lemma drop_inv p i g : Inv p → guards p !! i = Some g → Inv (destroy_guard i g p).
Proof.
  intros HI Hg. destruct (unlock_held_guards g p) as [Hug Hun]. unfold destroy_guard.
  pose proof (inv_next _ HI). constructor; [cbn; lia|..].
  - intros j h Hh. cbn in Hh. rewrite Hug in Hh. apply lookup_delete_Some in Hh as [Hne Hh].
    destruct (inv_guard _ HI _ _ Hh) as (? & ? & Hs). cbn. rewrite Hun. split_and!; [lia|lia|done|].
    intros s ? Hpos ?. apply (unlock_held_other g p); [|by apply Hs].
    by apply (others_distinct p i g j h).
  - intros j1 j2 h1 h2 H1 H2. cbn in H1, H2. rewrite Hug in H1, H2.
    apply lookup_delete_Some in H1 as [_ H1], H2 as [_ H2]. by eapply (inv_distinct _ HI).
Qed.

Lemma attempt_inv p i s g p' :
  Inv p → guards p !! i = Some g → waiting g = true → state_ g = Some s → attempt i s g p = Some p' → Inv p'.
Proof.
  intros HI Hg Hw Hs Ha. pose proof (inv_next _ HI). destruct (inv_guard _ HI _ _ Hg) as (? & Hpos & _).
  unfold attempt in Ha. destruct (states p !! s) as [l|] eqn:Hl; [|done]. cbn in Ha.
  unfold try_acquire_token in Ha. destruct (generation l =? 0) eqn:Hz; [|done]. simplify_eq.
  apply Z.eqb_eq in Hz.
  apply (inv_update p _ i (g <| waiting := false |>)); [done|cbn; lia|done|cbn; lia|done| |].
  - cbn. intros s' Hs' _ _. simplify_eq. unfold held_by. cbn. by rewrite lookup_insert_eq.
  - intros j h Hne Hh Hp. split; [by apply (others_distinct p i g j h)|].
    intros s' Hs'. unfold held_by in *. cbn. destruct (decide (s' = s)) as [->|].
    + rewrite Hl in Hs'. cbn in Hs'. lia.
    + by rewrite lookup_insert_ne.
Qed.

Lemma assign_inv p i j g other :
  Inv p → guards p !! i = Some g → guards p !! j = Some other → waiting g = false → waiting other = false →
  Inv (move_assign i j g other p).
Proof.
  intros HI Hi Hj Hg Hw. unfold move_assign. case_bool_decide as Hij; [done|].
  assert (move_guard i j other (unlock_held g p) = move_guard i j other (destroy_guard i g p)) as ->.
  { unfold move_guard, destroy_guard, set_guard. cbn. f_equal. by rewrite insert_delete_eq. }
  destruct (unlock_held_guards g p) as [Hug _].
  apply move_inv; [by apply drop_inv| | |done]; cbn; rewrite Hug;
    [apply lookup_delete_eq|by rewrite lookup_delete_ne].
Qed.

Lemma try_lock_inv p i s g :
  Inv p → guards p !! i = Some g → next p < u64_max → Inv (try_lock i s g p).
Proof.
  intros HI Hg Hn. pose proof (inv_next _ HI). destruct (inv_guard _ HI _ _ Hg) as (? & _).
  destruct (unlock_held_guards g p) as [Hug Hun]. unfold try_lock. rewrite Hun.
  destruct (token_ g =? 0) eqn:Hz.
  - apply Z.eqb_eq in Hz. rewrite (next_token_fresh (next p)) by lia.
    apply (unlocked_update p i g); cbn -[u64_max]; auto; try lia.
  - apply Z.eqb_neq in Hz. apply (unlocked_update p i g); cbn -[u64_max]; auto; lia.
Qed.

Lemma guards_step_inv p p' : Inv p → step p p' → Inv p'.
Proof.
  intros HI Hst. pose proof (inv_next _ HI) as Hnx.
  destruct Hst as [s Hs|i Hi|i s Hi _ Hn|i g Hg _|i j o Hi Hj Ho|i j g o Hi Hj Hg Ho|i s g Hg _ _ Hn|
                   i s g p' Hg Hw Hs Ha|i g Hg Hw|i g Hg Hw|i g Hg Hw].
  - constructor; [done| |by apply (inv_distinct _ HI)].
    intros i g Hg. destruct (inv_guard _ HI _ _ Hg) as (? & ? & Hh). cbn. split_and!; [lia|lia|done|].
    intros s' Hs' Hpos Hw. specialize (Hh s' Hs' Hpos Hw). unfold held_by in *. cbn.
    destruct (decide (s = s')) as [->|]; [rewrite Hs in Hh; cbn in Hh; lia|by rewrite lookup_insert_ne].
  - rewrite <- (set_same_next p (next p)) by done. apply new_update; cbn -[u64_max]; auto; lia.
  - unfold construct_guard. rewrite (next_token_fresh (next p)) by lia.
    apply new_update; cbn -[u64_max]; auto; lia.
  - by apply drop_inv.
  - by apply move_inv.
  - by apply assign_inv.
  - by apply try_lock_inv.
  - by eapply attempt_inv.
  - apply (cleared_update p i g); cbn; auto.
  - unfold release. destruct (holds_lock g) eqn:Hh; [|done]. cbn.
    rewrite <- (set_same_next (unlock_held g p) (next p)) by (symmetry; apply unlock_held_guards).
    apply (unlocked_update p i g); cbn -[u64_max]; auto; try lia; congruence.
  - apply (cleared_update p i g); cbn; auto.
Qed.

Lemma guards_reachable_inv p : reachable p → Inv p.
Proof.
  unfold reachable. revert p. apply (rtc_ind_r Inv).
  - constructor; cbn -[u64_max]; [by unfold u64_max, u64_modulus; lia|by intros ? ?|by intros ? ?].
  - intros p p' _ Hst IH. by eapply guards_step_inv.
Qed.

(** Two guards of a process never hold the same lock, whatever their threads
    construct, lock, move, release and detach in between; and the state of the
    lock a guard holds is the guard's token. *)
Theorem guard_holds_its_lock p i j g h s :
  reachable p → guards p !! i = Some g → guards p !! j = Some h →
  waiting g = false → waiting h = false → holds_lock g = true → holds_lock h = true →
  state_ g = Some s → state_ h = Some s →
  i = j ∧ generation <$> states p !! s = Some (token_ g).
Proof.
  intros Hr Hi Hj Hg Hh Hlg Hlh Hs Hs'.
  apply guards_reachable_inv in Hr as HI. unfold holds_lock in *. rewrite Hs in Hlg. rewrite Hs' in Hlh. cbn in *.
  apply negb_true_iff, Z.eqb_neq in Hlg, Hlh.
  destruct (inv_guard _ HI _ _ Hi) as (? & _ & Hgs), (inv_guard _ HI _ _ Hj) as (? & _ & Hhs).
  specialize (Hgs s Hs ltac:(lia) Hg). specialize (Hhs s Hs' ltac:(lia) Hh).
  split; [eapply (inv_distinct _ HI); [done..|lia|congruence]|].
  unfold held_by in Hgs. destruct (states p !! s) as [l|]; cbn in *; [by rewrite Hgs|lia].
Qed.

(** A guard locks a state, another waits for it in vain; the first is moved to a
    third. *)
Definition handed_over : Process :=
  let p := InProcessSpinState 0 init_process in
  let p := construct_guard 1 0 p in
  let p := default p (attempt 1 0 (mkGuard (Some 0%nat) 1 true) p) in
  move_guard 2 1 (mkGuard (Some 0%nat) 1 false) p.

Lemma handed_over_reachable : reachable handed_over.
Proof.
  unfold reachable. eapply rtc_r; [eapply rtc_r; [eapply rtc_r; [apply rtc_once|]|]|].
  - by apply (step_state init_process 0).
  - apply (step_construct _ 1 0); [done|by eexists|done].
  - by apply (step_acquired _ 1 0 (mkGuard (Some 0%nat) 1 true)).
  - by apply (step_move _ 2 1 (mkGuard (Some 0%nat) 1 false)).
Qed.

Lemma guard_holds_its_lock_witness :
  generation <$> states handed_over !! 0%nat = Some 1.
Proof.
  apply (guard_holds_its_lock handed_over 2 2 (mkGuard (Some 0%nat) 1 false)
           (mkGuard (Some 0%nat) 1 false) 0 handed_over_reachable); reflexivity.
Defined.

End SpinGuard.
