(* ===== verification/KeyStore.v ===== *)
(** * The key store and the box operations of the security subsystem

    Models [src/utils/security/key_store.cpp], the pubkey type and key
    generation of [curve_keypair.cpp], and [box_encrypt_using] and
    [box_decrypt_using] of [secure_subsystem.cpp].  An operation of the store
    runs under its lock and is one function; a callback [use] is what the
    caller does with the value it is handed.  libsodium and libzmq's Z85 codec
    are the class [Sodium]. *)

From S2P Require Import Prelude.
From Stdlib Require Import Ascii.

Module KeyStore.

(** ** Exceptions *)

Inductive Exn :=
  | runtime_error | out_of_range | invalid_argument | json_exception | AttachProtocolTimeout.

Inductive Result (A : Type) := Ok (a : A) | Throws (e : Exn).
Arguments Ok {_} _.
Arguments Throws {_} _.

#[global] Instance result_ret : MRet Result := λ A, Ok.
#[global] Instance result_bind : MBind Result := λ A B f x,
  match x with Ok a => f a | Throws e => Throws e end.

(** [libsodium] and [zmq_z85_*]; a call that reports failure is [None]. *)
Class Sodium := {
  crypto_box_easy : list Z → list Z → list Z → list Z → option (list Z);
  crypto_box_open_easy : list Z → list Z → list Z → list Z → option (list Z);
  zmq_z85_encode : list Z → option string;
  zmq_z85_decode : string → option (list Z);
  sodium_bin2base64 : list Z → option string;
  sodium_base642bin : string → option (list Z);
}.

Definition kRawHalfBytes : nat := 32.
Definition kIdentityKeypairBytes : nat := 64.
Definition kZ85HalfBytes : nat := 40.
Definition kBoxSeckeyBytes : nat := 32.
Definition kBoxMacBytes : nat := 16.

(** ** Pubkeys *)

(** The alphabet of RFC 32 as the table of [curve_keypair.cpp] has it. *)
Definition make_z85_alphabet_table_ (c : ascii) : bool :=
  let n := Z.of_nat (nat_of_ascii c) in
  (48 <=? n) && (n <=? 57) || (97 <=? n) && (n <=? 122) || (65 <=? n) && (n <=? 90)
  || existsb (Ascii.eqb c) (String.list_ascii_of_string ".-:+=^!/*?&<>()[]{}@%$#").

(** A [Z85PublicKey] is its characters; the sentinel is 40 zero bytes. *)
Definition Z85PublicKey := string.
Definition default_pubkey : Z85PublicKey := String.string_of_list_ascii (replicate kZ85HalfBytes Ascii.zero).

Definition validate (z85 : string) : Result Z85PublicKey :=
  if negb (String.length z85 =? kZ85HalfBytes)%nat then Throws invalid_argument
  else if forallb make_z85_alphabet_table_ (String.list_ascii_of_string z85) then Ok z85
  else Throws invalid_argument.

Definition pubkey_empty (k : Z85PublicKey) : bool :=
  forallb (Ascii.eqb Ascii.zero) (String.list_ascii_of_string k).

Record CurveKeypair := mkKeypair { public_z85 : string; secret_z85 : string }.

(** [generate_curve_keypair]; the argument is what [zmq_curve_keypair] made. *)
Definition generate_curve_keypair (zmq_curve_keypair : option CurveKeypair) : Result CurveKeypair :=
  match zmq_curve_keypair with Some kp => Ok kp | None => Throws runtime_error end.

(** ** The store *)

Record Entry := mkEntry {
  key : list Z;
  pub_z85_cache : string;
  is_identity : bool;
}.

Definition Store := gmap string Entry.

Section with_sodium.
Context `{!Sodium}.

(** [LockedKey]: a copy of the bytes, or no locked memory left. *)
Definition LockedKey (sodium_malloc : bool) (plaintext : list Z) : Result (list Z) :=
  if sodium_malloc then Ok plaintext else Throws runtime_error.

(** The store after an insertion.  The buffer of the caller is wiped once its
    bytes are in locked memory, and left as it was when the call throws. *)
Definition add_identity (sodium_malloc : bool) (name : string) (packed_pub_sec : list Z) (s : Store) :
    Result Store :=
  if negb (length packed_pub_sec =? kIdentityKeypairBytes)%nat then Throws runtime_error
  else
    match zmq_z85_encode (take kRawHalfBytes packed_pub_sec) with
    | None => Throws runtime_error
    | Some pub_z85 =>
        if bool_decide (is_Some (s !! name)) then Throws runtime_error
        else
          bytes ← LockedKey sodium_malloc packed_pub_sec;
          Ok (<[name := mkEntry bytes pub_z85 true]> s)
    end.

Definition decode_half (z85 : string) : Result (list Z) :=
  match zmq_z85_decode z85 with Some raw => Ok raw | None => Throws runtime_error end.

Definition add_identity_from_z85 (sodium_malloc : bool) (name pub_z85 sec_z85 : string) (s : Store) :
    Result Store :=
  if negb (String.length pub_z85 =? kZ85HalfBytes)%nat || negb (String.length sec_z85 =? kZ85HalfBytes)%nat
  then Throws runtime_error
  else
    pub_raw ← decode_half pub_z85;
    sec_raw ← decode_half sec_z85;
    add_identity sodium_malloc name (pub_raw ++ sec_raw) s.

Definition generate_and_add_identity (zmq_curve_keypair : option CurveKeypair) (sodium_malloc : bool)
    (name : string) (s : Store) : Result (string * Store) :=
  kp ← generate_curve_keypair zmq_curve_keypair;
  s ← add_identity_from_z85 sodium_malloc name (public_z85 kp) (secret_z85 kp) s;
  Ok (public_z85 kp, s).

Definition add_raw (sodium_malloc : bool) (name : string) (plaintext : list Z) (s : Store) : Result Store :=
  if bool_decide (is_Some (s !! name)) then Throws runtime_error
  else
    bytes ← LockedKey sodium_malloc plaintext;
    Ok (<[name := mkEntry bytes "" false]> s).

Definition identity_entry (name : string) (s : Store) : Result Entry :=
  match s !! name with
  | None => Throws out_of_range
  | Some e => if is_identity e then Ok e else Throws out_of_range
  end.

Definition pubkey (name : string) (s : Store) : Result string :=
  e ← identity_entry name s; Ok (pub_z85_cache e).

Definition with_seckey {A} (name : string) (use : list Z → Result A) (s : Store) : Result A :=
  e ← identity_entry name s; use (drop kRawHalfBytes (key e)).

Definition with_seckey_z85 {A} (name : string) (use : string → Result A) (s : Store) : Result A :=
  e ← identity_entry name s;
  match zmq_z85_encode (drop kRawHalfBytes (key e)) with
  | None => Throws runtime_error
  | Some z => use z
  end.

Definition with_keypair_z85 {A} (name : string) (use : string → string → Result A) (s : Store) : Result A :=
  e ← identity_entry name s;
  match zmq_z85_encode (drop kRawHalfBytes (key e)) with
  | None => Throws runtime_error
  | Some z => use (pub_z85_cache e) z
  end.

Definition lookup_raw (name : string) (s : Store) : Result (list Z) :=
  match s !! name with None => Throws out_of_range | Some e => Ok (key e) end.

Definition remove (name : string) (s : Store) : Store := delete name s.
Definition has (name : string) (s : Store) : bool := bool_decide (is_Some (s !! name)).
Definition store_size (s : Store) : nat := size s.

(** ** Boxes *)

(** The result is the bytes written to [out]; none stands for 0.  [out_size] is
    the room in [out]. *)
Definition box_encrypt_using (s : Store) (own_seckey_name : string) (peer_pubkey_raw nonce plaintext : list Z)
    (out_size : nat) : Result (option (list Z)) :=
  if (out_size <? length plaintext + kBoxMacBytes)%nat then Ok None
  else
    with_seckey own_seckey_name (λ sk,
      if negb (length sk =? kBoxSeckeyBytes)%nat then Ok None
      else Ok (crypto_box_easy plaintext nonce peer_pubkey_raw sk)) s.

Definition box_decrypt_using (s : Store) (own_seckey_name : string) (peer_pubkey_raw nonce ciphertext : list Z)
    (out_size : nat) : Result (option (list Z)) :=
  if (length ciphertext <? kBoxMacBytes)%nat then Ok None
  else if (out_size <? length ciphertext - kBoxMacBytes)%nat then Ok None
  else
    with_seckey own_seckey_name (λ sk,
      if negb (length sk =? kBoxSeckeyBytes)%nat then Ok None
      else Ok (crypto_box_open_easy ciphertext nonce peer_pubkey_raw sk)) s.

End with_sodium.

(** ** What the store keeps *)

(** Identities have both halves; their cached pubkey is the encoding of the
    first. *)
Definition wf_entry `{!Sodium} (e : Entry) : Prop :=
  is_identity e = true →
  length (key e) = kIdentityKeypairBytes ∧ zmq_z85_encode (take kRawHalfBytes (key e)) = Some (pub_z85_cache e).

Definition wf `{!Sodium} (s : Store) : Prop := map_Forall (λ _, wf_entry) s.

Section facts.
Context `{!Sodium}.

(** Inserting, on every outcome. *)
Lemma add_identity_Ok m name packed s s' :
  add_identity m name packed s = Ok s' ↔
  length packed = kIdentityKeypairBytes ∧ m = true ∧ s !! name = None ∧
  ∃ z, zmq_z85_encode (take kRawHalfBytes packed) = Some z ∧ s' = <[name := mkEntry packed z true]> s.
Proof.
  unfold add_identity, LockedKey. destruct (Nat.eqb_spec (length packed) kIdentityKeypairBytes) as [Hl|Hl];
    cbn [negb]; [|naive_solver].
  destruct (zmq_z85_encode _) as [z|]; [|naive_solver]. case_bool_decide as Hn; [|destruct m; cbn].
  - split; [done|]. intros (_ & _ & Hs & _). rewrite Hs in Hn. by destruct Hn.
  - assert (s !! name = None) as Hs by (by apply eq_None_not_Some). naive_solver.
  - naive_solver.
Qed.

Lemma add_identity_wf m name packed s s' :
  wf s → add_identity m name packed s = Ok s' → wf s'.
Proof.
  intros Hs (Hl & _ & _ & z & Hz & ->)%add_identity_Ok. apply map_Forall_insert_2; [|done].
  by intros _.
Qed.

Lemma add_raw_wf m name bytes s s' : wf s → add_raw m name bytes s = Ok s' → wf s'.
Proof.
  unfold add_raw, LockedKey. intros Hs. case_bool_decide; [done|]. destruct m; cbn; [|done].
  intros [= <-]. apply map_Forall_insert_2; [done|done].
Qed.

End facts.

End KeyStore.
