(* ===== verification/AttachProtocol.v ===== *)
(** * The attach handshake between a consumer and a producer

    Models [src/utils/security/attach_protocol.cpp] (the producer's and the
    consumer's handshake, the acceptor and the dialer around them),
    [shm_attach_orchestrator.cpp] (what the producer does with a peer that has
    passed) and [attach_channel_shm.cpp] (frames over a byte stream).

    A function is a value of [Io]: the frames it sends and waits for, the random
    bytes it draws, the descriptors it closes and the callbacks it makes, in
    their order; [exec] runs one against what its surroundings answer.  A frame
    that does not arrive before the deadline, like one that cannot be sent, is
    an exception of the channel. *)

From S2P Require Import Prelude.
From Stdlib Require Import Ascii.
From S2P Require Import Json.
From S2P Require Import KeyStore.
Import Json KeyStore.

Module AttachProtocol.

(** ** Effects *)

Inductive Event :=
  | Sent (frame : json)
  | Closed (fd : Z)
  | Queried (consumer_pubkey consumer_role_uid : string)
  | CapabilitySent (fd : Z).

Inductive Io (A : Type) :=
  | Ret (r : Result A)
  | Random (n : nat) (k : list Z → Io A)
  | Send (frame : json) (k : Result unit → Io A)
  | Recv (k : Result json → Io A)
  | Close (fd : Z) (k : Io A)
  | Query (consumer_pubkey consumer_role_uid : string) (k : Result (option json) → Io A)
  | Lookup (consumer_pubkey : string) (k : Result bool → Io A)
  | Capability (fd : Z) (k : bool → Io A).
Arguments Ret {_} _.
Arguments Random {_} _ _.
Arguments Send {_} _ _.
Arguments Recv {_} _.
Arguments Close {_} _ _.
Arguments Query {_} _ _ _.
Arguments Lookup {_} _ _.
Arguments Capability {_} _ _.

(** The continuation of a result, thrown or returned. *)
Fixpoint handle {A B} (f : Result A → Io B) (p : Io A) : Io B :=
  match p with
  | Ret r => f r
  | Random n k => Random n (λ x, handle f (k x))
  | Send j k => Send j (λ x, handle f (k x))
  | Recv k => Recv (λ x, handle f (k x))
  | Close fd k => Close fd (handle f k)
  | Query pk uid k => Query pk uid (λ x, handle f (k x))
  | Lookup pk k => Lookup pk (λ x, handle f (k x))
  | Capability fd k => Capability fd (λ x, handle f (k x))
  end.

#[global] Instance io_ret : MRet Io := λ A a, Ret (Ok a).
#[global] Instance io_bind : MBind Io := λ A B f p,
  handle (λ r, match r with Ok a => f a | Throws e => Ret (Throws e) end) p.

Definition throw {A} (e : Exn) : Io A := Ret (Throws e).
Definition lift {A} (r : Result A) : Io A := Ret r.

(** [try { p } catch]: the handler gets what [p] threw. *)
Definition catch {A} (p : Io A) (h : Exn → Io A) : Io A :=
  handle (λ r, match r with Ok a => Ret (Ok a) | Throws e => h e end) p.

(** An [FdGuard]: the descriptor is closed when the scope is left by an
    exception, or always when nothing releases it. *)
Definition closing_on_throw {A} (fd : Z) (p : Io A) : Io A :=
  handle (λ r, match r with Ok a => Ret (Ok a) | Throws e => Close fd (Ret (Throws e)) end) p.
Definition closing {A} (fd : Z) (p : Io A) : Io A := handle (λ r, Close fd (Ret r)) p.

Definition random_bytes (n : nat) : Io (list Z) := Random n (λ x, Ret (Ok x)).
Definition send_frame (j : json) : Io unit := Send j Ret.
Definition recv_frame : Io json := Recv Ret.

(** What the surroundings of a run answer. *)
Record Env := mkEnv {
  draws : list (list Z);
  sends : list (Result unit);
  inbox : list (Result json);
  broker_query : string → string → Result (option json);
  cache_lookup : string → Result bool;
  send_capability : Z → bool;
}.
#[global] Instance eta_env : Eta Env := λ r,
  mkEnv (draws r) (sends r) (inbox r) (broker_query r) (cache_lookup r) (send_capability r).

(** A run: its result, its events, and what the surroundings still hold.  A
    draw has the length asked for; a frame that is not in the inbox never
    comes. *)
Fixpoint exec {A} (p : Io A) (w : Env) : Result A * list Event * Env :=
  match p with
  | Ret r => (r, [], w)
  | Random n k =>
      let x := default [] (head (draws w)) in
      exec (k (take n x ++ replicate (n - length x) 0)) (w <| draws ::= tail |>)
  | Send j k =>
      let r := default (Ok tt) (head (sends w)) in
      let '(a, es, w) := exec (k r) (w <| sends ::= tail |>) in
      (a, match r with Ok _ => Sent j :: es | Throws _ => es end, w)
  | Recv k => exec (k (default (Throws AttachProtocolTimeout) (head (inbox w)))) (w <| inbox ::= tail |>)
  | Close fd k => let '(a, es, w) := exec k w in (a, Closed fd :: es, w)
  | Query pk uid k => let '(a, es, w) := exec (k (broker_query w pk uid)) w in (a, Queried pk uid :: es, w)
  | Lookup pk k => exec (k (cache_lookup w pk)) w
  | Capability fd k =>
      let ok := send_capability w fd in
      let '(a, es, w) := exec (k ok) w in (a, if ok then CapabilitySent fd :: es else es, w)
  end.

(** What a run returns and does. *)
Definition run {A} (p : Io A) (w : Env) : Result A * list Event := (exec p w).1.

(** ** Fields of a frame *)

(** [j.value(key, dflt)] for a string: a [type_error] on another type, and on
    what is not an object. *)
Definition value_or (dflt key : string) (j : json) : Result string :=
  match j with
  | JObj _ =>
      match json_get key j with
      | None => Ok dflt
      | Some (JStr s) => Ok s
      | Some _ => Throws json_exception
      end
  | _ => Throws json_exception
  end.
Definition value (key : string) (j : json) : Result string := value_or "" key j.

(** [catch (const nlohmann::json::exception &)] rethrown as a runtime error. *)
Definition as_runtime_error {A} (r : Result A) : Result A :=
  match r with Throws json_exception => Throws runtime_error | _ => r end.

Definition require (b : bool) : Result unit := if b then Ok tt else Throws runtime_error.
Definition check_argument (b : bool) : Result unit := if b then Ok tt else Throws invalid_argument.

Definition kZ85PubkeyChars : nat := 40.
Definition kRawKeyBytes : nat := 32.
Definition kNonceBytes : nat := 24.
Definition kChallengeBytes : nat := 16.
Definition kMacBytes : nat := kBoxMacBytes.
Definition kProtocolVersion : string := "hep-0041-1".

Definition has_size {A} (n : nat) (l : list A) : bool := (length l =? n)%nat.
Definition is_pubkey_size (z85 : string) : bool := (String.length z85 =? kZ85PubkeyChars)%nat.

Section with_sodium.
Context `{!Sodium}.

Definition b64_encode (bin : list Z) : Result string :=
  match sodium_bin2base64 bin with Some s => Ok s | None => Throws runtime_error end.

Definition b64_decode (s : string) : Result (list Z) :=
  if str_empty s then Throws runtime_error
  else match sodium_base642bin s with Some b => Ok b | None => Throws runtime_error end.

Definition z85_pubkey_to_raw (z85 : string) : Result (list Z) :=
  if negb (is_pubkey_size z85) then Throws runtime_error
  else match zmq_z85_decode z85 with Some raw => Ok raw | None => Throws runtime_error end.

(** ** The producer's side *)

Record ProducerHandshakeResult := mkHandshakeResult {
  consumer_role_uid : string;
  consumer_pubkey_z85 : string;
  role_type : string;
}.

(** The observer's pubkey the producer trusts; [None] when no accessor is
    installed. *)
Definition check_observer (observer_pubkey : option string) (pubkey_z85 : string) : Result unit :=
  match observer_pubkey with
  | None => Throws runtime_error
  | Some trusted =>
      require (negb (str_empty trusted));;
      require (pubkey_z85 =s trusted)
  end.

(** Step 5: the fields of the hello, checked in their order. *)
Definition validate_hello (observer_pubkey : option string) (hello : json) :
    Result (ProducerHandshakeResult * string) :=
  version ← value "protocol_version" hello;
  require (version =s kProtocolVersion);;
  role_uid ← value "role_uid" hello;
  require (negb (str_empty role_uid));;
  claimed ← value_or "consumer" "role_type" hello;
  let role_type := if str_empty claimed then "consumer" else claimed in
  require ((role_type =s "consumer") || (role_type =s "observer"));;
  pubkey_z85 ← value "pubkey_z85" hello;
  require (is_pubkey_size pubkey_z85);;
  (if role_type =s "observer" then check_observer observer_pubkey pubkey_z85 else Ok tt);;
  response_b64 ← value "challenge_response_b64" hello;
  require (negb (str_empty response_b64));;
  Ok (mkHandshakeResult role_uid pubkey_z85 role_type, response_b64).

(** Steps 6 and 7, which the consumer's check of frame 3 repeats: the answer
    opens to the challenge. *)
Definition answers_challenge (s : Store) (own_seckey_name : string) (peer_pk_raw nonce challenge cipher : list Z) :
    Result unit :=
  require (has_size (kChallengeBytes + kMacBytes) cipher);;
  plaintext ← box_decrypt_using s own_seckey_name peer_pk_raw nonce cipher kChallengeBytes;
  require (bool_decide (plaintext = Some challenge)).

(** [box_encrypt_using] of a challenge; nothing written is an error. *)
Definition seal_challenge (s : Store) (own_seckey_name : string) (peer_pk_raw nonce challenge : list Z) :
    Result (list Z) :=
  written ← box_encrypt_using s own_seckey_name peer_pk_raw nonce challenge (kChallengeBytes + kMacBytes);
  match written with Some cipher => Ok cipher | None => Throws runtime_error end.

(** Step 8: frame 3, when the consumer asks for it. *)
Definition proof_frame (s : Store) (own_seckey_name : string) (consumer_pk_raw : list Z) (hello : json) :
    Result (option json) :=
  cons_nonce_b64 ← as_runtime_error (value "consumer_nonce_b64" hello);
  cons_challenge_b64 ← as_runtime_error (value "consumer_challenge_b64" hello);
  if str_empty cons_nonce_b64 && str_empty cons_challenge_b64 then Ok None
  else
    require (negb (str_empty cons_nonce_b64 || str_empty cons_challenge_b64));;
    cons_nonce ← b64_decode cons_nonce_b64;
    cons_challenge ← b64_decode cons_challenge_b64;
    require (has_size kNonceBytes cons_nonce && has_size kChallengeBytes cons_challenge);;
    proof_cipher ← seal_challenge s own_seckey_name consumer_pk_raw cons_nonce cons_challenge;
    producer_pk_z85 ← pubkey own_seckey_name s;
    proof_response_b64 ← b64_encode proof_cipher;
    Ok (Some (obj [("producer_pubkey_z85", JStr producer_pk_z85);
                   ("proof_response_b64", JStr proof_response_b64)])).

Definition challenge_frame (nonce challenge : list Z) : Result json :=
  nonce_b64 ← b64_encode nonce;
  challenge_b64 ← b64_encode challenge;
  Ok (obj [("protocol_version", JStr kProtocolVersion); ("nonce_b64", JStr nonce_b64);
           ("challenge_b64", JStr challenge_b64)]).

Definition run_producer_handshake (s : Store) (own_seckey_name : string) (observer_pubkey : option string) :
    Io ProducerHandshakeResult :=
  lift (check_argument (negb (str_empty own_seckey_name)));;
  nonce ← random_bytes kNonceBytes;
  challenge ← random_bytes kChallengeBytes;
  out ← lift (challenge_frame nonce challenge);
  send_frame out;;
  hello ← recv_frame;
  '(result, response_b64) ← lift (validate_hello observer_pubkey hello);
  consumer_pk_raw ← lift (z85_pubkey_to_raw (consumer_pubkey_z85 result));
  cipher ← lift (b64_decode response_b64);
  lift (answers_challenge s own_seckey_name consumer_pk_raw nonce challenge cipher);;
  proof ← lift (proof_frame s own_seckey_name consumer_pk_raw hello);
  (match proof with Some frame => send_frame frame | None => mret tt end);;
  mret result.

(** [AttachProtocolAcceptor::accept_one]; the peer is what the transport's
    [accept_one] returned. *)
Record AcceptedPeer := mkPeer { peer_socket_fd : Z; peer_uid : Z }.
Record AuthenticatedConsumer := mkAuthenticated {
  raw_peer : AcceptedPeer;
  authenticated_role_uid : string;
  authenticated_pubkey_z85 : string;
}.

Definition accept_one (s : Store) (expected_uid : Z) (own_seckey_name : string)
    (observer_pubkey : option string) (accepted : Result (option AcceptedPeer)) :
    Io (option AuthenticatedConsumer) :=
  peer ← lift accepted;
  match peer with
  | None => mret None
  | Some peer =>
      if peer_socket_fd peer <? 0 then throw runtime_error
      else
        closing_on_throw (peer_socket_fd peer) (
          lift (require (peer_uid peer =? expected_uid));;
          phr ← run_producer_handshake s own_seckey_name observer_pubkey;
          mret (Some (mkAuthenticated peer (consumer_role_uid phr) (consumer_pubkey_z85 phr))))
  end.

(** ** The consumer's side *)

Record ConsumerAuthMaterial := mkAuthMaterial {
  role_uid : string;
  pubkey_z85 : string;
  own_seckey_name : string;
}.

Definition check_arguments (self : ConsumerAuthMaterial) (producer_pubkey_z85 : string) : Result unit :=
  check_argument (negb (str_empty (role_uid self)));;
  check_argument (is_pubkey_size (pubkey_z85 self));;
  check_argument (is_pubkey_size producer_pubkey_z85);;
  check_argument (negb (str_empty (own_seckey_name self))).

(** The nonce and the challenge of frame 1. *)
Definition read_challenge (challenge_in : json) : Result (list Z * list Z) :=
  protocol_version ← as_runtime_error (value "protocol_version" challenge_in);
  nonce_b64 ← as_runtime_error (value "nonce_b64" challenge_in);
  challenge_b64 ← as_runtime_error (value "challenge_b64" challenge_in);
  require (protocol_version =s kProtocolVersion);;
  nonce ← b64_decode nonce_b64;
  require (has_size kNonceBytes nonce);;
  challenge ← b64_decode challenge_b64;
  require (has_size kChallengeBytes challenge);;
  Ok (nonce, challenge).

Definition hello_fields (self : ConsumerAuthMaterial) (response_b64 : string) : list (string * json) :=
  [("protocol_version", JStr kProtocolVersion); ("role_uid", JStr (role_uid self));
   ("pubkey_z85", JStr (pubkey_z85 self)); ("challenge_response_b64", JStr response_b64);
   ("role_type", JStr "consumer")].

(** The fields that ask for frame 3. *)
Definition mutual_fields (nonce challenge : list Z) : Result (list (string * json)) :=
  nonce_b64 ← b64_encode nonce;
  challenge_b64 ← b64_encode challenge;
  Ok [("consumer_nonce_b64", JStr nonce_b64); ("consumer_challenge_b64", JStr challenge_b64)].

(** The check of frame 3. *)
Definition check_proof (s : Store) (self : ConsumerAuthMaterial) (producer_pubkey_z85 : string)
    (producer_pk_raw nonce challenge : list Z) (proof : json) : Result unit :=
  proof_producer_pk ← as_runtime_error (value "producer_pubkey_z85" proof);
  proof_response_b64 ← as_runtime_error (value "proof_response_b64" proof);
  require (is_pubkey_size proof_producer_pk && negb (str_empty proof_response_b64));;
  require (proof_producer_pk =s producer_pubkey_z85);;
  proof_cipher ← b64_decode proof_response_b64;
  answers_challenge s (own_seckey_name self) producer_pk_raw nonce challenge proof_cipher.

Definition run_consumer_handshake (s : Store) (self : ConsumerAuthMaterial) (producer_pubkey_z85 : string)
    (require_mutual_auth : bool) : Io unit :=
  lift (check_arguments self producer_pubkey_z85);;
  challenge_in ← recv_frame;
  '(nonce, challenge) ← lift (read_challenge challenge_in);
  producer_pk_raw ← lift (z85_pubkey_to_raw producer_pubkey_z85);
  cipher ← lift (seal_challenge s (own_seckey_name self) producer_pk_raw nonce challenge);
  response_b64 ← lift (b64_encode cipher);
  if require_mutual_auth then
    consumer_nonce ← random_bytes kNonceBytes;
    consumer_challenge ← random_bytes kChallengeBytes;
    extra ← lift (mutual_fields consumer_nonce consumer_challenge);
    send_frame (obj (hello_fields self response_b64 ++ extra));;
    proof ← catch recv_frame (λ e, match e with AttachProtocolTimeout => throw runtime_error | _ => throw e end);
    lift (check_proof s self producer_pubkey_z85 producer_pk_raw consumer_nonce consumer_challenge proof)
  else send_frame (obj (hello_fields self response_b64)).

(** [initiate_consumer_handshake]; [sock] is what [socket] returned and
    [connected] what [connect] did. *)
Inductive Connect := Connected | NotPresent | ConnectFailed.

Definition kScheme : string := "unix://".
Definition strip_unix_scheme (endpoint : string) : string :=
  if String.prefix kScheme endpoint
  then String.substring (String.length kScheme) (String.length endpoint - String.length kScheme) endpoint
  else endpoint.

(** [sizeof(sockaddr_un::sun_path)]. *)
Definition sun_path_size : nat := 108.

Definition initiate_consumer_handshake (s : Store) (endpoint : string) (self : ConsumerAuthMaterial)
    (producer_pubkey_z85 : string) (require_mutual_auth : bool) (sock : option Z) (connected : Connect) :
    Io (option Z) :=
  let sock_path := strip_unix_scheme endpoint in
  lift (check_argument (negb (str_empty sock_path)));;
  lift (check_argument (String.length sock_path <? sun_path_size)%nat);;
  lift (check_arguments self producer_pubkey_z85);;
  match sock with
  | None => throw runtime_error
  | Some fd =>
      match connected with
      | NotPresent => Close fd (mret None)
      | ConnectFailed => Close fd (throw runtime_error)
      | Connected =>
          catch (closing_on_throw fd (
                   run_consumer_handshake s self producer_pubkey_z85 require_mutual_auth;;
                   mret (Some fd)))
            (λ e, match e with AttachProtocolTimeout => mret None | _ => throw e end)
      end
  end.

(** ** What the producer does with a peer *)

Inductive Outcome := OutcomeSent | DeniedByBroker | DeniedTransportFail | HandshakeFailed | OutcomeTimeout.

(** The broker's verdict; anything but its two words is no verdict.  A status
    that is not a string is a [type_error] of [value], which nothing here
    catches. *)
Definition broker_verdict (broker_reply : json) : Result (option bool) :=
  status ← value "status" broker_reply;
  Ok (if status =s "success" then Some true else if status =s "denied" then Some false else None).

(** The callbacks, whose exceptions are caught: the broker's count as no answer,
    the cache's as denied.  The cache only decides what is logged. *)
Definition query_broker (consumer_pubkey consumer_role_uid : string) : Io (option json) :=
  Query consumer_pubkey consumer_role_uid (λ r,
    match r with Ok reply => mret reply | Throws _ => mret None end).
Definition look_up (consumer_pubkey : string) : Io bool :=
  Lookup consumer_pubkey (λ r, match r with Ok b => mret b | Throws _ => mret false end).
Definition hand_over (fd : Z) : Io bool := Capability fd (λ ok, mret ok).

(** Steps 2 to 4 of [accept_and_serve_one], inside the guard of the peer's
    descriptor; [denial_reason] is read for the log. *)
Definition serve_peer (auth : AuthenticatedConsumer) : Io Outcome :=
  broker_reply ← query_broker (authenticated_pubkey_z85 auth) (authenticated_role_uid auth);
  match broker_reply with
  | None => mret DeniedTransportFail
  | Some broker_reply =>
      verdict ← lift (broker_verdict broker_reply);
      match verdict with
      | None => mret DeniedTransportFail
      | Some broker_says_allowed =>
          look_up (authenticated_pubkey_z85 auth);;
          if broker_says_allowed : bool then
            sent ← hand_over (peer_socket_fd (raw_peer auth));
            mret (if sent : bool then OutcomeSent else DeniedTransportFail)
          else
            lift (value_or "unspecified" "denial_reason" broker_reply);;
            mret DeniedByBroker
      end
  end.

Definition accept_and_serve_one (s : Store) (expected_uid : Z) (own_seckey_name : string)
    (observer_pubkey : option string) (accepted : Result (option AcceptedPeer)) : Io Outcome :=
  handle (λ r,
    match r with
    | Throws _ => mret HandshakeFailed
    | Ok None => mret OutcomeTimeout
    | Ok (Some auth) =>
        let peer_fd := peer_socket_fd (raw_peer auth) in
        if peer_fd <? 0 then mret HandshakeFailed else closing peer_fd (serve_peer auth)
    end) (accept_one s expected_uid own_seckey_name observer_pubkey accepted).

End with_sodium.

(** ** Frames over a byte stream *)

(** [nlohmann]'s printer and parser. *)
Class JsonText := {
  dump : json → string;
  parse : string → option json;
}.

Definition kMaxAttachFrameBytes : Z := 4096.

Definition bytes_of (s : string) : list Z := (λ c, Z.of_nat (nat_of_ascii c)) <$> String.list_ascii_of_string s.
Definition string_of_bytes (l : list Z) : string :=
  String.string_of_list_ascii ((λ b, ascii_of_nat (Z.to_nat b)) <$> l).

(** What one turn of the loops of [send_all] and [recv_all_until] meets: the
    deadline, a failing or interrupted call, or a call that moves [n] bytes.  A
    [recv] that moves none has met the end of the stream. *)
Inductive Turn := DeadlinePassed | PollTimedOut | PollFailed | Interrupted | CallFailed | Moves (n : nat).

(** [recv_all_until]: the next [want] bytes of the stream and what is left of
    it.  No turn left is the deadline. *)
Fixpoint recv_all_until (turns : list Turn) (want : nat) (stream : list Z) :
    Result (list Z * list Turn * list Z) :=
  match want with
  | O => Ok ([], turns, stream)
  | _ =>
      match turns with
      | [] | DeadlinePassed :: _ | PollTimedOut :: _ => Throws AttachProtocolTimeout
      | PollFailed :: _ | CallFailed :: _ => Throws runtime_error
      | Interrupted :: turns => recv_all_until turns want stream
      | Moves n :: turns =>
          let got := take (Nat.min n want) stream in
          if (length got =? 0)%nat then Throws runtime_error
          else
            '(bytes, turns, stream) ← recv_all_until turns (want - length got) (drop (length got) stream);
            Ok (got ++ bytes, turns, stream)
      end
  end.

(** [send_all]: the bytes that reach the stream, also when it fails half way.
    [send] interrupted or finding no room is tried again. *)
Fixpoint send_all (turns : list Turn) (buf : list Z) : Result (list Turn) * list Z :=
  match buf with
  | [] => (Ok turns, [])
  | _ =>
      match turns with
      | [] | DeadlinePassed :: _ | PollTimedOut :: _ => (Throws AttachProtocolTimeout, [])
      | PollFailed :: _ | CallFailed :: _ => (Throws runtime_error, [])
      | Interrupted :: turns => send_all turns buf
      | Moves n :: turns =>
          let '(r, sent) := send_all turns (drop n buf) in (r, take n buf ++ sent)
      end
  end.

Section with_json.
Context `{!JsonText}.

(** The length prefix, least significant byte first. *)
Definition length_bytes (len : Z) : list Z :=
  [Z.land len 255; Z.land (Z.shiftr len 8) 255; Z.land (Z.shiftr len 16) 255; Z.land (Z.shiftr len 24) 255].
Definition length_of (lb : list Z) : Z :=
  match lb with
  | [b0; b1; b2; b3] => Z.lor (Z.lor (Z.lor b0 (Z.shiftl b1 8)) (Z.shiftl b2 16)) (Z.shiftl b3 24)
  | _ => 0
  end.

Definition shm_send_frame (turns : list Turn) (frame : json) : Result (list Turn) * list Z :=
  let s := bytes_of (dump frame) in
  let len := Z.of_nat (length s) in
  if kMaxAttachFrameBytes <? len then (Throws runtime_error, [])
  else
    match send_all turns (length_bytes len) with
    | (Throws e, sent) => (Throws e, sent)
    | (Ok turns, sent) => let '(r, rest) := send_all turns s in (r, sent ++ rest)
    end.

Definition shm_recv_frame (turns : list Turn) (stream : list Z) : Result (json * list Turn * list Z) :=
  '(lb, turns, stream) ← recv_all_until turns 4 stream;
  let len := length_of lb in
  if len =? 0 then Throws runtime_error
  else if kMaxAttachFrameBytes <? len then Throws runtime_error
  else
    '(body, turns, stream) ← recv_all_until turns (Z.to_nat len) stream;
    match parse (string_of_bytes body) with
    | Some j => Ok (j, turns, stream)
    | None => Throws runtime_error
    end.

End with_json.

End AttachProtocol.
