(* ===== verification/HandshakeProps.v ===== *)
(** * What the attach handshake guarantees

    Proved of [AttachProtocol]: two honest sides complete the handshake; a
    producer accepts only the holder of the key the peer claims, an observer
    only with the broker's key; the capability is handed over only on the
    broker's word, and the peer's descriptor is closed once on every path; a
    frame survives any splitting of the stream; and the proof of frame 3 can be
    had from the consumer itself. *)

From S2P Require Import Prelude.
From Stdlib Require Import Ascii.
From S2P Require Import Json.
From S2P Require Import KeyStore.
From S2P Require Import AttachProtocol.
Import Json KeyStore AttachProtocol.

Module HandshakeProps.

(** ** Runs *)

Lemma exec_handle {A B} (f : Result A → Io B) p w :
  exec (handle f p) w =
  let '(r, es, w') := exec p w in
  let '(b, es', w'') := exec (f r) w' in (b, es ++ es', w'').
Proof.
  revert w. induction p as [r|n k IH|j k IH|k IH|fd k IH|pk uid k IH|pk k IH|fd k IH]; intros w; cbn.
  - by destruct (exec (f r) w) as [[b es] w'].
  - apply IH.
  - rewrite IH. destruct (exec (k _) _) as [[r es] w']. destruct (exec (f r) w') as [[b es'] w''].
    by destruct (default _ _).
  - apply IH.
  - rewrite IH. destruct (exec k w) as [[r es] w']. by destruct (exec (f r) w') as [[b es'] w''].
  - rewrite IH. destruct (exec (k _) w) as [[r es] w']. by destruct (exec (f r) w') as [[b es'] w''].
  - apply IH.
  - rewrite IH. destruct (exec (k _) w) as [[r es] w']. destruct (exec (f r) w') as [[b es'] w''].
    by destruct (send_capability w fd).
Qed.

Lemma run_bind {A B} (p : Io A) (k : A → Io B) w :
  exec (p ≫= k) w =
  let '(r, es, w') := exec p w in
  match r with
  | Ok a => let '(b, es', w'') := exec (k a) w' in (b, es ++ es', w'')
  | Throws e => (Throws e, es, w')
  end.
Proof.
  unfold mbind, io_bind. rewrite exec_handle. destruct (exec p w) as [[[a|e] es] w']; [done|].
  cbn. by rewrite app_nil_r.
Qed.

(** A pure part of a program. *)
Lemma exec_lift {A B} (x : Result A) (k : A → Io B) w :
  exec (lift x ≫= k) w = match x with Ok a => exec (k a) w | Throws e => (Throws e, [], w) end.
Proof. rewrite run_bind. cbn. destruct x; [|done]. by destruct (exec (k a) w) as [[b es] w']. Qed.

(** What a draw of [n] bytes gives. *)
Definition draw (n : nat) (ds : list (list Z)) : list Z :=
  let x := default [] (head ds) in take n x ++ replicate (n - length x) 0.

Lemma draw_length n ds : length (draw n ds) = n.
Proof. unfold draw. rewrite length_app, length_take, length_replicate. lia. Qed.

(** A run that returns: the steps it took. *)
Lemma bind_Ok {A B} (p : Io A) (k : A → Io B) w b es w' :
  exec (p ≫= k) w = (Ok b, es, w') →
  ∃ a es1 w1 es2, exec p w = (Ok a, es1, w1) ∧ exec (k a) w1 = (Ok b, es2, w') ∧ es = es1 ++ es2.
Proof.
  rewrite run_bind. destruct (exec p w) as [[[a|e] es1] w1]; [|done].
  destruct (exec (k a) w1) as [[b' es2] w2] eqn:Hk. intros [= -> <- <-]. eauto 8.
Qed.

Lemma random_Ok {B} n (k : list Z → Io B) w :
  exec (random_bytes n ≫= k) w = exec (k (draw n (draws w))) (w <| draws ::= tail |>).
Proof. rewrite run_bind. cbn. by destruct (exec _ _) as [[b es] w']. Qed.

Lemma send_Ok {B} j (k : unit → Io B) w b es w' :
  exec (send_frame j ≫= k) w = (Ok b, es, w') →
  ∃ es', es = Sent j :: es' ∧ exec (k tt) (w <| sends ::= tail |>) = (Ok b, es', w').
Proof.
  rewrite run_bind. cbn. destruct (default (Ok tt) (head (sends w))) as [[]|e]; cbn; [|done].
  destruct (exec (k tt) _) as [[b' es'] w''] eqn:Hk. intros [= -> <- <-]. eauto.
Qed.

Lemma recv_Ok {B} (k : json → Io B) w b es w' :
  exec (recv_frame ≫= k) w = (Ok b, es, w') →
  ∃ j, head (inbox w) = Some (Ok j) ∧ exec (k j) (w <| inbox ::= tail |>) = (Ok b, es, w').
Proof.
  rewrite run_bind. cbn. destruct (head (inbox w)) as [[j|e]|]; cbn; [|done..].
  destruct (exec (k j) _) as [[b' es'] w''] eqn:Hk. intros [= -> <- <-]. eauto.
Qed.

(** Surroundings that answer with draws and frames. *)
Definition env (ds : list (list Z)) (fs : list json) : Env :=
  mkEnv ds [] (Ok <$> fs) (λ _ _, Ok None) (λ _, Ok false) (λ _, false).

Lemma exec_random {B} n (k : list Z → Io B) x ds fs :
  length x = n → exec (random_bytes n ≫= k) (env (x :: ds) fs) = exec (k x) (env ds fs).
Proof.
  intros Hl. rewrite run_bind. cbn. rewrite take_ge, Hl, Nat.sub_diag, app_nil_r by lia.
  change (mkEnv ds [] _ _ _ _) with (env ds fs). by destruct (exec (k x) (env ds fs)) as [[b es] w].
Qed.

Lemma exec_send {B} j (k : unit → Io B) ds fs :
  exec (send_frame j ≫= k) (env ds fs) =
  let '(b, es, w) := exec (k tt) (env ds fs) in (b, Sent j :: es, w).
Proof. rewrite run_bind. done. Qed.

Lemma exec_recv {B} j (k : json → Io B) ds fs :
  exec (recv_frame ≫= k) (env ds (j :: fs)) = exec (k j) (env ds fs).
Proof.
  rewrite run_bind. cbn. change (mkEnv ds [] _ _ _ _) with (env ds fs).
  by destruct (exec (k j) (env ds fs)) as [[b es] w].
Qed.

Lemma lift_Ok {A B} (x : Result A) (k : A → Io B) w b es w' :
  exec (lift x ≫= k) w = (Ok b, es, w') ↔ ∃ a, x = Ok a ∧ exec (k a) w = (Ok b, es, w').
Proof. rewrite exec_lift. destruct x; naive_solver. Qed.

Lemma result_Ok {A B} (x : Result A) (k : A → Result B) b :
  x ≫= k = Ok b ↔ ∃ a, x = Ok a ∧ k a = Ok b.
Proof. destruct x; cbn; naive_solver. Qed.

Lemma require_Ok b u : require b = Ok u ↔ b = true.
Proof. destruct b, u; cbn; naive_solver. Qed.

Lemma require_bind_Ok {B} b (x : Result B) v : (require b;; x) = Ok v ↔ b = true ∧ x = Ok v.
Proof. destruct b; cbn; naive_solver. Qed.

(** Take apart a computation of results that returned. *)
Ltac inv_ok H :=
  repeat first
    [ apply require_bind_Ok in H; let E := fresh "E" in destruct H as [E H]
    | apply result_Ok in H; let a := fresh "a" in let E := fresh "E" in destruct H as (a & E & H) ].

(** Read the fields of a frame that is spelled out. *)
Ltac read_fields :=
  repeat match goal with
  | |- context [value_or ?d ?k ?j] => let v := eval vm_compute in (value_or d k j) in
                                      change (value_or d k j) with v
  end.

(** The documented behaviour of the libraries, for keys that belong together.
    [crypto_box] works on the key both sides share, so a side can open what it
    sealed itself; and only what was sealed opens. *)
Definition bytes (l : list Z) : Prop := Forall (λ b, 0 ≤ b < 256) l.

Record SodiumLaws `{!Sodium} (keypair : list Z → list Z → Prop) : Prop := {
  b64_total b : bytes b → b ≠ [] → ∃ s, sodium_bin2base64 b = Some s ∧ s ≠ "";
  b64_roundtrip b s : sodium_bin2base64 b = Some s → sodium_base642bin s = Some b;
  z85_roundtrip raw s : length raw = kRawKeyBytes → zmq_z85_encode raw = Some s →
    String.length s = kZ85PubkeyChars ∧ zmq_z85_decode s = Some raw;
  box_seals m n pk sk pk' sk' : keypair pk sk → keypair pk' sk' → bytes m →
    ∃ c, crypto_box_easy m n pk' sk = Some c ∧ bytes c ∧ length c = (length m + kBoxMacBytes)%nat;
  box_opens m n pk sk pk' sk' c : keypair pk sk → keypair pk' sk' →
    crypto_box_easy m n pk' sk = Some c → crypto_box_open_easy c n pk sk' = Some m;
  box_opens_own m n pk' sk c :
    crypto_box_easy m n pk' sk = Some c → crypto_box_open_easy c n pk' sk = Some m;
  box_authentic m n pk' sk c :
    crypto_box_open_easy c n pk' sk = Some m → crypto_box_easy m n pk' sk = Some c;
}.

(** An identity of the store: its keypair and the pubkey it shows. *)
Definition identity `{!Sodium} (keypair : list Z → list Z → Prop) (s : Store) (name z85 : string)
    (pk sk : list Z) : Prop :=
  s !! name = Some (mkEntry (pk ++ sk) z85 true) ∧ keypair pk sk ∧
  length pk = kRawKeyBytes ∧ length sk = kRawKeyBytes ∧ zmq_z85_encode pk = Some z85.

Section laws.
Context `{!Sodium} (keypair : list Z → list Z → Prop) (L : SodiumLaws keypair).

Lemma identity_pubkey s name z85 pk sk : identity keypair s name z85 pk sk → pubkey name s = Ok z85.
Proof. intros (Hs & _). unfold pubkey, identity_entry. by rewrite Hs. Qed.

Lemma identity_raw s name z85 pk sk :
  identity keypair s name z85 pk sk →
  String.length z85 = kZ85PubkeyChars ∧ z85_pubkey_to_raw z85 = Ok pk.
Proof.
  intros (_ & _ & Hl & _ & Hz). destruct (z85_roundtrip _ L pk z85 Hl Hz) as [Hn Hd].
  split; [done|]. unfold z85_pubkey_to_raw, is_pubkey_size. by rewrite Hn, Hd.
Qed.

Lemma identity_seckey {A} s name z85 pk sk (use : list Z → Result A) :
  identity keypair s name z85 pk sk → with_seckey name use s = use sk.
Proof.
  intros (Hs & _ & Hl & _). unfold with_seckey, identity_entry. rewrite Hs. cbn -[kRawHalfBytes].
  f_equal. change kRawHalfBytes with kRawKeyBytes. rewrite <- Hl. apply drop_app_length.
Qed.

(** Sealing a challenge, and checking the answer of the other side. *)
Lemma seal_challenge_spec s name z85 pk sk pk' nonce challenge :
  identity keypair s name z85 pk sk → length challenge = kChallengeBytes →
  seal_challenge s name pk' nonce challenge =
  match crypto_box_easy challenge nonce pk' sk with Some c => Ok c | None => Throws runtime_error end.
Proof.
  intros Hi Hc. unfold seal_challenge, box_encrypt_using. rewrite Hc. cbn.
  rewrite (identity_seckey _ _ _ _ _ _ Hi). destruct Hi as (_ & _ & _ & Hl & _). rewrite Hl. cbn.
  by destruct (crypto_box_easy _ _ _ _).
Qed.

Lemma answers_challenge_spec s name z85 pk sk pk' nonce challenge cipher :
  identity keypair s name z85 pk sk →
  answers_challenge s name pk' nonce challenge cipher = Ok tt ↔
  length cipher = (kChallengeBytes + kMacBytes)%nat ∧ crypto_box_easy challenge nonce pk' sk = Some cipher.
Proof.
  intros Hi. unfold answers_challenge, has_size. rewrite require_bind_Ok, Nat.eqb_eq, result_Ok.
  assert (length cipher = (kChallengeBytes + kMacBytes)%nat →
          box_decrypt_using s name pk' nonce cipher kChallengeBytes
          = Ok (crypto_box_open_easy cipher nonce pk' sk)) as Hd.
  { intros Hl. unfold box_decrypt_using. rewrite Hl. cbn. rewrite (identity_seckey _ _ _ _ _ _ Hi).
    destruct Hi as (_ & _ & _ & Hs & _). by rewrite Hs. }
  split.
  - intros (Hl & p & Hp & Hr). rewrite (Hd Hl) in Hp. apply require_Ok, bool_decide_eq_true_1 in Hr.
    split; [done|]. apply (box_authentic _ L). congruence.
  - intros (Hl & Hc). split; [done|]. exists (Some challenge). rewrite (Hd Hl).
    split; [by rewrite (box_opens_own _ L _ _ _ _ _ Hc)|]. by apply require_Ok, bool_decide_eq_true_2.
Qed.

(** Encoding and decoding what a frame carries. *)
Lemma b64_both b : bytes b → b ≠ [] → ∃ s, b64_encode b = Ok s ∧ b64_decode s = Ok b ∧ str_empty s = false.
Proof.
  intros Hb Hne. destruct (b64_total _ L b Hb Hne) as (s & Hs & Hn). exists s.
  unfold b64_encode, b64_decode. rewrite Hs, (b64_roundtrip _ L b s Hs), (proj2 (str_empty_false s) Hn).
  done.
Qed.

(** ** Frames *)

(** Random bytes of the right lengths. *)
Definition drawn (nonce challenge : list Z) : Prop :=
  bytes nonce ∧ length nonce = kNonceBytes ∧ bytes challenge ∧ length challenge = kChallengeBytes.

Lemma drawn_b64 n c : drawn n c →
  ∃ n64 c64, b64_encode n = Ok n64 ∧ b64_decode n64 = Ok n ∧ str_empty n64 = false ∧
             b64_encode c = Ok c64 ∧ b64_decode c64 = Ok c ∧ str_empty c64 = false.
Proof.
  intros (Hbn & Hn & Hbc & Hc).
  destruct (b64_both n Hbn) as (n64 & ? & ? & ?); [by destruct n|].
  destruct (b64_both c Hbc) as (c64 & ? & ? & ?); [by destruct c|]. naive_solver.
Qed.

(** The frame that carries a nonce and a challenge. *)
Definition frame_one (n64 c64 : string) : json :=
  obj [("protocol_version", JStr kProtocolVersion); ("nonce_b64", JStr n64); ("challenge_b64", JStr c64)].

Lemma read_frame_one n c n64 c64 :
  drawn n c → b64_decode n64 = Ok n → b64_decode c64 = Ok c → read_challenge (frame_one n64 c64) = Ok (n, c).
Proof.
  intros (_ & Hn & _ & Hc) Hdn Hdc. unfold read_challenge, frame_one, value. read_fields.
  cbn. rewrite Hdn. cbn. unfold has_size. rewrite Hn. cbn. rewrite Hdc. cbn. by rewrite Hc.
Qed.

(** The hello of a consumer. *)
Definition hello_frame (self : ConsumerAuthMaterial) (r64 : string) (extra : list (string * json)) : json :=
  obj (hello_fields self r64 ++ extra).

Definition extra_fields (asked : option (string * string)) : list (string * json) :=
  match asked with
  | None => []
  | Some (n64, c64) => [("consumer_nonce_b64", JStr n64); ("consumer_challenge_b64", JStr c64)]
  end.

Lemma hello_is_valid obs uid z name r64 asked :
  str_empty uid = false → is_pubkey_size z = true → str_empty r64 = false →
  validate_hello obs (hello_frame (mkAuthMaterial uid z name) r64 (extra_fields asked))
  = Ok (mkHandshakeResult uid z "consumer", r64).
Proof.
  intros Hu Hz Hr. unfold validate_hello, hello_frame, hello_fields, value.
  destruct asked as [[n64 c64]|]; cbn [extra_fields role_uid pubkey_z85]; read_fields;
    cbn; rewrite Hu; cbn; rewrite Hz; cbn; by rewrite Hr.
Qed.

(** Frame 3, and what the consumer makes of it. *)
Definition proof_of (z r64 : string) : json :=
  obj [("producer_pubkey_z85", JStr z); ("proof_response_b64", JStr r64)].

Lemma proof_frame_spec s name zP pk sk pk' uid z cname r64 asked :
  identity keypair s name zP pk sk →
  proof_frame s name pk' (hello_frame (mkAuthMaterial uid z cname) r64 (extra_fields asked)) =
  match asked with
  | None => Ok None
  | Some (n64, c64) =>
      if str_empty n64 && str_empty c64 then Ok None
      else
        require (negb (str_empty n64 || str_empty c64));;
        n ← b64_decode n64;
        c ← b64_decode c64;
        require (has_size kNonceBytes n && has_size kChallengeBytes c);;
        cipher ← seal_challenge s name pk' n c;
        p64 ← b64_encode cipher;
        Ok (Some (proof_of zP p64))
  end.
Proof.
  intros Hi. unfold proof_frame, hello_frame, hello_fields, value.
  destruct asked as [[n64 c64]|]; cbn [extra_fields role_uid pubkey_z85]; read_fields; cbn [as_runtime_error mbind result_bind].
  - rewrite (identity_pubkey _ _ _ _ _ Hi). done.
  - done.
Qed.

Lemma check_proof_of s self zP pkP n c p64 cipher :
  is_pubkey_size zP = true → str_empty p64 = false → b64_decode p64 = Ok cipher →
  check_proof s self zP pkP n c (proof_of zP p64)
  = answers_challenge s (own_seckey_name self) pkP n c cipher.
Proof.
  intros Hz Hp Hd. unfold check_proof, proof_of, value. read_fields. cbn [as_runtime_error mbind result_bind].
  rewrite Hz, Hp, Hd, str_eqb_refl. done.
Qed.

(** ** Runs of the two sides *)

(** A producer that gets a hello whose response opens to its challenge. *)
Lemma producer_run s name obs zP pkP skP uid zC cname pkC r64 asked n c cipher n64 c64 proof :
  identity keypair s name zP pkP skP → str_empty name = false → str_empty uid = false →
  is_pubkey_size zC = true → z85_pubkey_to_raw zC = Ok pkC → drawn n c →
  b64_encode n = Ok n64 → b64_encode c = Ok c64 →
  str_empty r64 = false → b64_decode r64 = Ok cipher →
  answers_challenge s name pkC n c cipher = Ok tt →
  let hello := hello_frame (mkAuthMaterial uid zC cname) r64 (extra_fields asked) in
  proof_frame s name pkC hello = Ok proof →
  run (run_producer_handshake s name obs) (env [n; c] [hello])
  = (Ok (mkHandshakeResult uid zC "consumer"),
     Sent <$> frame_one n64 c64 :: match proof with Some f => [f] | None => [] end).
Proof.
  intros Hi Hname Hu Hz Hraw (_ & Hn & _ & Hc) Hen Hec Hr Hd Ha hello Hp.
  unfold run, run_producer_handshake. rewrite exec_lift. rewrite Hname. cbn [negb check_argument].
  rewrite exec_random by done. rewrite exec_random by done. rewrite exec_lift.
  unfold challenge_frame. rewrite Hen, Hec. cbn [mbind result_bind]. rewrite exec_send, exec_recv, exec_lift.
  fold (frame_one n64 c64). unfold hello. rewrite (hello_is_valid obs uid zC cname r64 asked Hu Hz Hr).
  cbn [consumer_pubkey_z85]. rewrite exec_lift, Hraw, exec_lift, Hd, exec_lift, Ha, exec_lift.
  fold hello. rewrite Hp. destruct proof as [f|]; [by rewrite exec_send|done].
Qed.

(** A consumer whose arguments are in order. *)
Definition consumer_ready (s : Store) (self : ConsumerAuthMaterial) (pkC skC : list Z) (zP : string)
    (pkP : list Z) : Prop :=
  identity keypair s (own_seckey_name self) (pubkey_z85 self) pkC skC ∧
  str_empty (role_uid self) = false ∧ str_empty (own_seckey_name self) = false ∧
  is_pubkey_size zP = true ∧ z85_pubkey_to_raw zP = Ok pkP.

(** Its run, once it got a first frame it can read. *)
Lemma consumer_run s self pkC skC zP pkP f1 n c cipher r64 mutual n2 c2 n64 c64 fs :
  consumer_ready s self pkC skC zP pkP → read_challenge f1 = Ok (n, c) → length c = kChallengeBytes →
  crypto_box_easy c n pkP skC = Some cipher → b64_encode cipher = Ok r64 →
  drawn n2 c2 → b64_encode n2 = Ok n64 → b64_encode c2 = Ok c64 →
  run (run_consumer_handshake s self zP mutual) (env [n2; c2] (f1 :: fs))
  = (if mutual : bool then
       match fs with [] => Throws runtime_error | f3 :: _ => check_proof s self zP pkP n2 c2 f3 end
     else Ok tt,
     [Sent (hello_frame self r64 (extra_fields (if mutual then Some (n64, c64) else None)))]).
Proof.
  intros (Hi & Hu & Hname & Hz & Hraw) Hread Hc Hbox He (_ & Hn2 & _ & Hc2) Hen Hec.
  pose proof (identity_raw _ _ _ _ _ Hi) as [HzC _].
  unfold run, run_consumer_handshake, check_arguments. rewrite exec_lift, Hu, Hz, Hname. unfold is_pubkey_size at 1.
  rewrite HzC. cbn [negb check_argument mbind result_bind Nat.eqb kZ85PubkeyChars].
  rewrite exec_recv, exec_lift, Hread, exec_lift, Hraw, exec_lift.
  rewrite (seal_challenge_spec _ _ _ _ _ _ _ _ Hi Hc), Hbox, exec_lift, He.
  destruct mutual; [|done].
  rewrite !exec_random by done. rewrite exec_lift. unfold mutual_fields. rewrite Hen, Hec.
  cbn [mbind result_bind]. rewrite exec_send, run_bind. destruct fs as [|f3 fs]; [done|]. cbn.
  by destruct (check_proof _ _ _ _ _ _ _).
Qed.

(** A challenge sealed by the owner of one key for the owner of another. *)
Lemma sealed_challenge pkA skA pkB skB n c :
  keypair pkA skA → keypair pkB skB → drawn n c →
  ∃ cipher r64, crypto_box_easy c n pkB skA = Some cipher ∧ b64_encode cipher = Ok r64 ∧
    b64_decode r64 = Ok cipher ∧ str_empty r64 = false ∧ length cipher = (kChallengeBytes + kMacBytes)%nat.
Proof.
  intros HkA HkB (_ & _ & Hbc & Hlc).
  destruct (box_seals _ L c n pkA skA pkB skB HkA HkB Hbc) as (cipher & Hbox & Hb & Hl).
  destruct (b64_both cipher Hb) as (r64 & He & Hd & Hne);
    [intros ->; unfold kBoxMacBytes in Hl; cbn in Hl; lia|].
  rewrite Hlc in Hl. by exists cipher, r64.
Qed.

(** The answer of one identity to a challenge, and what the other makes of it. *)
Lemma answer_exists sA nameA zA pkA skA sB nameB zB pkB skB n c :
  identity keypair sA nameA zA pkA skA → identity keypair sB nameB zB pkB skB → drawn n c →
  ∃ cipher r64, crypto_box_easy c n pkB skA = Some cipher ∧ b64_encode cipher = Ok r64 ∧
    b64_decode r64 = Ok cipher ∧ str_empty r64 = false ∧
    answers_challenge sB nameB pkA n c cipher = Ok tt.
Proof.
  intros (_ & HkA & _) HB Hd. pose proof HB as (_ & HkB & _).
  destruct (sealed_challenge pkA skA pkB skB n c HkA HkB Hd) as (cipher & r64 & Hbox & He & Hr & Hne & Hl).
  exists cipher, r64. split_and!; try done.
  apply (answers_challenge_spec _ _ _ _ _ _ _ _ _ HB). split; [done|].
  by apply (box_authentic _ L), (box_opens _ L _ _ pkA skA pkB skB).
Qed.

(** C36 An honest producer and an honest consumer that expects its key complete
    the handshake, with or without the proof of frame 3, whatever random bytes
    they draw: the producer gets the consumer's uid, key and type, and each side
    sends exactly the frames the other one reads. *)
Theorem handshake_completes sP nameP zP pkP skP obs sC self pkC skC mutual n1 c1 n2 c2 :
  identity keypair sP nameP zP pkP skP → str_empty nameP = false →
  consumer_ready sC self pkC skC zP pkP → drawn n1 c1 → drawn n2 c2 →
  ∃ f1 hello proof,
    run (run_producer_handshake sP nameP obs) (env [n1; c1] [hello])
    = (Ok (mkHandshakeResult (role_uid self) (pubkey_z85 self) "consumer"), Sent <$> f1 :: proof) ∧
    run (run_consumer_handshake sC self zP mutual) (env [n2; c2] (f1 :: proof)) = (Ok tt, [Sent hello]) ∧
    (proof = [] ↔ mutual = false).
Proof.
  intros HiP HnP Hr Hd1 Hd2. pose proof Hr as (HiC & Hu & HnC & HzP & HrawP).
  destruct self as [uid zC nameC]. cbn in *.
  pose proof (identity_raw _ _ _ _ _ HiC) as [HzC HrawC].
  pose proof (drawn_b64 n1 c1 Hd1) as (n64 & c64 & Hen & Hdn & _ & Hec & Hdc & _).
  pose proof (drawn_b64 n2 c2 Hd2) as (n64' & c64' & Hen' & Hdn' & Hne' & Hec' & Hdc' & Hce').
  pose proof Hd1 as (_ & _ & _ & Hl1). pose proof Hd2 as (_ & Hln2 & _ & Hl2).
  destruct (answer_exists _ _ _ _ _ _ _ _ _ _ n1 c1 HiC HiP Hd1) as (cipher & r64 & Hbox & Her & Hdr & Hner & Ha).
  destruct (answer_exists _ _ _ _ _ _ _ _ _ _ n2 c2 HiP HiC Hd2) as (cipher' & p64 & Hbox' & Hep & Hdp & Hnep & Ha').
  assert (is_pubkey_size zC = true) as HzC' by (unfold is_pubkey_size; by rewrite HzC).
  set (asked := if mutual then Some (n64', c64') else None).
  set (hello := hello_frame (mkAuthMaterial uid zC nameC) r64 (extra_fields asked)).
  set (proof := if mutual then Some (proof_of zP p64) else None).
  exists (frame_one n64 c64), hello, (match proof with Some f => [f] | None => [] end).
  split; [|split].
  - apply (producer_run sP nameP obs zP pkP skP uid zC nameC pkC r64 asked n1 c1 cipher n64 c64 proof); try done.
    rewrite (proof_frame_spec _ _ _ _ _ _ _ _ _ _ _ HiP). unfold asked, proof. destruct mutual; [|done].
    rewrite Hne', Hce', Hdn', Hdc'. cbn [negb orb andb mbind result_bind require]. unfold has_size.
    rewrite Hln2, Hl2. cbn [Nat.eqb kNonceBytes kChallengeBytes require andb mbind result_bind].
    rewrite (seal_challenge_spec _ _ _ _ _ _ _ _ HiP Hl2), Hbox'. cbn [mbind result_bind]. by rewrite Hep.
  - rewrite (consumer_run sC _ pkC skC zP pkP _ n1 c1 cipher r64 mutual n2 c2 n64' c64' _ Hr
               (read_frame_one _ _ _ _ Hd1 Hdn Hdc) Hl1 Hbox Her Hd2 Hen' Hec').
    f_equal. unfold proof. destruct mutual; [|done].
    by rewrite (check_proof_of _ _ _ _ _ _ _ _ HzP Hnep Hdp).
  - unfold proof. by destruct mutual.
Qed.

(** ** Whom the producer accepts *)

Lemma validated_hello obs hello r r64 :
  validate_hello obs hello = Ok (r, r64) →
  value "challenge_response_b64" hello = Ok r64 ∧
  value "role_uid" hello = Ok (consumer_role_uid r) ∧ consumer_role_uid r ≠ "" ∧
  value "pubkey_z85" hello = Ok (consumer_pubkey_z85 r) ∧
  (role_type r = "consumer" ∨ role_type r = "observer" ∧ obs = Some (consumer_pubkey_z85 r)).
Proof.
  unfold validate_hello. intros Hv. inv_ok Hv. revert E4 E7.
  set (ty := if str_empty a1 then "consumer" else a1) in *. intros Hty Hobs. injection Hv as <- <-.
  cbn. split_and!; [done|done|by apply str_empty_false, negb_true_iff|done|].
  apply orb_true_iff in Hty as [Hty|Hty]; [left; by apply bool_decide_eq_true_1 in Hty|right].
  rewrite Hty in Hobs. apply bool_decide_eq_true_1 in Hty as ->. split; [done|].
  unfold check_observer in Hobs. destruct obs as [trusted|]; [|done].
  apply require_bind_Ok in Hobs as [_ He]. apply require_Ok, bool_decide_eq_true_1 in He. by subst.
Qed.

(** C26 A producer that accepts a peer has been answered by the holder of the key
    the peer claims: the response it got is the box of this handshake's own
    challenge, under this handshake's own nonce, that the claimed key's secret
    makes for the producer's key.  A peer is a consumer, or an observer with the
    very pubkey the producer learned from the broker. *)
Theorem accepted_peer_holds_its_key s name obs zP pkP skP w r es :
  identity keypair s name zP pkP skP →
  run (run_producer_handshake s name obs) w = (Ok r, es) →
  let n := draw kNonceBytes (draws w) in
  let c := draw kChallengeBytes (tail (draws w)) in
  ∃ f1 hello pkC r64 cipher,
    challenge_frame n c = Ok f1 ∧ head es = Some (Sent f1) ∧ head (inbox w) = Some (Ok hello) ∧
    value "pubkey_z85" hello = Ok (consumer_pubkey_z85 r) ∧ z85_pubkey_to_raw (consumer_pubkey_z85 r) = Ok pkC ∧
    value "challenge_response_b64" hello = Ok r64 ∧ b64_decode r64 = Ok cipher ∧
    crypto_box_easy c n pkC skP = Some cipher ∧
    (∀ skC, keypair pkC skC → crypto_box_easy c n pkP skC = Some cipher) ∧
    (role_type r = "consumer" ∨ role_type r = "observer" ∧ obs = Some (consumer_pubkey_z85 r)).
Proof.
  intros Hi Hrun n c. unfold run in Hrun.
  destruct (exec (run_producer_handshake s name obs) w) as [[r' es'] w'] eqn:He. cbn in Hrun.
  injection Hrun as -> ->. unfold run_producer_handshake in He.
  apply lift_Ok in He as (_ & _ & He). rewrite !random_Ok in He. cbn [draws update] in He.
  apply lift_Ok in He as (f1 & Hf1 & He). apply send_Ok in He as (es' & -> & He).
  apply recv_Ok in He as (hello & Hh & He). apply lift_Ok in He as ([r' r64] & Hv & He).
  apply lift_Ok in He as (pkC & Hraw & He). apply lift_Ok in He as (cipher & Hd & He).
  apply lift_Ok in He as ([] & Ha & He). apply lift_Ok in He as (proof & _ & He).
  assert (r' = r) as ->.
  { destruct proof; [apply send_Ok in He as (? & _ & He)|]; cbn in He; by injection He as -> _ _. }
  apply validated_hello in Hv as (Hr & _ & _ & Hz & Hty).
  apply (answers_challenge_spec _ _ _ _ _ _ _ _ _ Hi) in Ha as [_ Hbox].
  exists f1, hello, pkC, r64, cipher. split_and!; try done.
  intros skC HkC. apply (box_authentic _ L), (box_opens _ L _ _ pkP skP pkC skC); [by destruct Hi as (_ & ? & _)|done|done].
Qed.

(** ** The proof of frame 3 *)

(** A field of a frame, as somebody who only sees frames reads it. *)
Definition field (k : string) (j : json) : string :=
  match json_get k j with Some (JStr s) => s | _ => "" end.

(** A first frame made of what a hello asks to be proved, and a frame 3 made of
    the answer to a first frame. *)
Definition reflected_challenge (hello : json) : json :=
  frame_one (field "consumer_nonce_b64" hello) (field "consumer_challenge_b64" hello).
Definition reflected_proof (producer_pubkey_z85 : string) (hello : json) : json :=
  proof_of producer_pubkey_z85 (field "challenge_response_b64" hello).

Lemma hello_frame_fields self r64 asked :
  field "challenge_response_b64" (hello_frame self r64 (extra_fields asked)) = r64 ∧
  field "consumer_nonce_b64" (hello_frame self r64 (extra_fields asked)) = from_option fst "" asked ∧
  field "consumer_challenge_b64" (hello_frame self r64 (extra_fields asked)) = from_option snd "" asked.
Proof. destruct self, asked as [[n64 c64]|]; by vm_compute. Qed.

(** Frame 3 does not prove that the producer is there: whoever answers a
    consumer's dial with any challenge can take the nonce and the challenge of
    its hello, hand them to another handshake of the same consumer with the same
    producer as a first frame, and return that handshake's answer as frame 3.
    The consumer accepts it; no secret key but the consumer's own was used.  The
    box key is the same in both directions, and the answer of frame 2 and the
    proof of frame 3 are the same box. *)
Theorem proof_can_be_reflected s self pkC skC zP pkP skP f1 n c n2 c2 n3 c3 mutual :
  consumer_ready s self pkC skC zP pkP → keypair pkP skP →
  read_challenge f1 = Ok (n, c) → drawn n c → drawn n2 c2 → drawn n3 c3 →
  ∃ hello hello2,
    (run (run_consumer_handshake s self zP true) (env [n2; c2] [f1])).2 = [Sent hello] ∧
    (run (run_consumer_handshake s self zP mutual) (env [n3; c3] [reflected_challenge hello])).2
    = [Sent hello2] ∧
    run (run_consumer_handshake s self zP true) (env [n2; c2] [f1; reflected_proof zP hello2])
    = (Ok tt, [Sent hello]).
Proof.
  intros Hr HkP Hread Hd1 Hd2 Hd3. pose proof Hr as (HiC & _ & _ & HzP & _). pose proof HiC as (_ & HkC & _).
  pose proof (drawn_b64 n2 c2 Hd2) as (n64 & c64 & Hen & Hdn & _ & Hec & Hdc & _).
  pose proof (drawn_b64 n3 c3 Hd3) as (n64' & c64' & Hen' & _ & _ & Hec' & _ & _).
  destruct (sealed_challenge pkC skC pkP skP n c HkC HkP Hd1) as (cipher & r64 & Hbox & Her & _).
  destruct (sealed_challenge pkC skC pkP skP n2 c2 HkC HkP Hd2)
    as (cipher2 & r642 & Hbox2 & Her2 & Hdr2 & Hner2 & Hl2).
  set (hello := hello_frame self r64 (extra_fields (Some (n64, c64)))).
  set (hello2 := hello_frame self r642 (extra_fields (if mutual then Some (n64', c64') else None))).
  exists hello, hello2. pose proof Hd1 as (_ & _ & _ & Hlc). pose proof Hd2 as (_ & _ & _ & Hlc2).
  assert (reflected_challenge hello = frame_one n64 c64) as Hrc.
  { unfold reflected_challenge, hello. pose proof (hello_frame_fields self r64 (Some (n64, c64))) as (_ & -> & ->). done. }
  assert (reflected_proof zP hello2 = proof_of zP r642) as Hrp.
  { unfold reflected_proof, hello2. by rewrite (proj1 (hello_frame_fields _ _ _)). }
  rewrite Hrc, Hrp.
  rewrite (consumer_run s self pkC skC zP pkP f1 n c cipher r64 true n2 c2 n64 c64 [] Hr Hread Hlc Hbox Her Hd2 Hen Hec).
  rewrite (consumer_run s self pkC skC zP pkP (frame_one n64 c64) n2 c2 cipher2 r642 mutual n3 c3 n64' c64' [] Hr
             (read_frame_one _ _ _ _ Hd2 Hdn Hdc) Hlc2 Hbox2 Her2 Hd3 Hen' Hec').
  rewrite (consumer_run s self pkC skC zP pkP f1 n c cipher r64 true n2 c2 n64 c64 _ Hr Hread Hlc Hbox Her Hd2 Hen Hec).
  split_and!; [done|done|]. f_equal.
  rewrite (check_proof_of _ _ _ _ _ _ _ _ HzP Hner2 Hdr2).
  by apply (answers_challenge_spec _ _ _ _ _ _ _ _ _ HiC).
Qed.

End laws.

(** ** What a peer gets *)

(** A program that only talks over its channel. *)
Fixpoint talks {A} (p : Io A) : Prop :=
  match p with
  | Ret _ => True
  | Random _ k => ∀ x, talks (k x)
  | Send _ k => ∀ r, talks (k r)
  | Recv k => ∀ r, talks (k r)
  | _ => False
  end.

Lemma talks_handle {A B} (f : Result A → Io B) p : talks p → (∀ r, talks (f r)) → talks (handle f p).
Proof. induction p; cbn; auto; naive_solver. Qed.

Lemma talks_bind {A B} (p : Io A) (k : A → Io B) : talks p → (∀ a, talks (k a)) → talks (p ≫= k).
Proof. intros Hp Hk. apply talks_handle; [done|]. intros [a|e]; [apply Hk|done]. Qed.

(** Its events are frames, and it leaves the callbacks alone. *)
Lemma exec_talks {A} (p : Io A) w r es w' :
  talks p → exec p w = (r, es, w') →
  Forall (λ e, ∃ j, e = Sent j) es ∧ broker_query w' = broker_query w ∧ send_capability w' = send_capability w.
Proof.
  revert w r es w'. induction p as [x|n k IH|j k IH|k IH|fd k IH|pk uid k IH|pk k IH|fd k IH];
    cbn; intros w r es w' Ht He; try done.
  - by injection He as <- <- <-.
  - by apply IH in He; [|apply Ht].
  - destruct (exec (k _) _) as [[b es1] w1] eqn:Hk. apply IH in Hk as (Hf & ? & ?); [|apply Ht].
    destruct (default _ _); injection He as <- <- <-; split_and!; eauto.
  - by apply IH in He; [|apply Ht].
Qed.

Lemma frames_only fs e : Forall (λ e, ∃ j, e = Sent j) fs → e ∈ fs → ∃ j, e = Sent j.
Proof. rewrite Forall_forall. auto. Qed.

Section peers.
Context `{!Sodium}.

Lemma producer_talks s name obs : talks (run_producer_handshake s name obs).
Proof.
  unfold run_producer_handshake, lift, random_bytes, send_frame, recv_frame.
  repeat (apply talks_bind; [cbn; done|intros ?]).
  all: repeat match goal with |- talks (match ?x with _ => _ end) => destruct x end.
  all: repeat (apply talks_bind; [cbn; try done|intros ?]); try done.
  all: repeat case_match; cbn; done.
Qed.

(** The acceptor: what it returns of a peer, and what it does to its
    descriptor. *)
Lemma accept_one_run s uid name obs peer w :
  0 ≤ peer_socket_fd peer →
  let '(r, es, w') := exec (accept_one s uid name obs (Ok (Some peer))) w in
  broker_query w' = broker_query w ∧ send_capability w' = send_capability w ∧
  ∃ fs, Forall (λ e, ∃ j, e = Sent j) fs ∧
  match r with
  | Ok None => False
  | Ok (Some auth) => es = fs ∧ raw_peer auth = peer ∧ peer_uid peer = uid
  | Throws _ => es = fs ++ [Closed (peer_socket_fd peer)]
  end.
Proof.
  intros Hfd. unfold accept_one. rewrite exec_lift.
  destruct (peer_socket_fd peer <? 0) eqn:Hneg; [apply Z.ltb_lt in Hneg; lia|].
  unfold closing_on_throw. rewrite exec_handle, exec_lift.
  destruct (peer_uid peer =? uid) eqn:Hu; cbn [require]; [|split_and!; try done; by exists []].
  rewrite run_bind. destruct (exec (run_producer_handshake s name obs) w) as [[r es] w'] eqn:He.
  pose proof (exec_talks _ _ _ _ _ (producer_talks s name obs) He) as (Hf & Hq & Hc).
  destruct r as [phr|e]; cbn; (split_and!; [done|done|exists es]).
  - rewrite !app_nil_r. split_and!; [done|done|done|by apply Z.eqb_eq].
  - done.
Qed.

Lemma exec_query {B} pk uid (k : option json → Io B) w :
  exec (query_broker pk uid ≫= k) w =
  let '(r, es, w') := exec (k (match broker_query w pk uid with Ok x => x | Throws _ => None end)) w in
  (r, Queried pk uid :: es, w').
Proof. unfold query_broker. cbn. by destruct (broker_query w pk uid). Qed.

Lemma exec_look_up {B} pk (k : bool → Io B) w :
  exec (look_up pk ≫= k) w =
  exec (k (match cache_lookup w pk with Ok b => b | Throws _ => false end)) w.
Proof. unfold look_up. cbn. by destruct (cache_lookup w pk). Qed.

Lemma exec_hand_over {B} fd (k : bool → Io B) w :
  exec (hand_over fd ≫= k) w =
  let '(r, es, w') := exec (k (send_capability w fd)) w in
  (r, if send_capability w fd then CapabilitySent fd :: es else es, w').
Proof. done. Qed.

(** A peer that has passed: the broker is asked about it, and the capability
    sent on its word alone. *)
Lemma serve_peer_run auth w :
  let '(r, es, _) := exec (serve_peer auth) w in
  let fd := peer_socket_fd (raw_peer auth) in
  let asked := broker_query w (authenticated_pubkey_z85 auth) (authenticated_role_uid auth) in
  (∃ rest, es = Queried (authenticated_pubkey_z85 auth) (authenticated_role_uid auth) :: rest ∧
     (rest = [] ∧ r ≠ Ok OutcomeSent ∨ rest = [CapabilitySent fd] ∧ r = Ok OutcomeSent)) ∧
  (r = Ok OutcomeSent ↔
   ∃ reply, asked = Ok (Some reply) ∧ value "status" reply = Ok "success" ∧ send_capability w fd = true).
Proof.
  unfold serve_peer. rewrite exec_query.
  destruct (broker_query w _ _) as [[reply|]|e]; [|cbn; split; [eexists; split; [done|by left]|naive_solver]..].
  rewrite exec_lift. unfold broker_verdict.
  destruct (value "status" reply) as [status|e] eqn:Hs; cbn [mbind result_bind];
    [|split; [eexists; split; [done|by left]|split; [done|intros (? & [= <-] & ? & _); congruence]]].
  destruct (status =s "success") eqn:H1.
  - apply bool_decide_eq_true_1 in H1 as ->. rewrite exec_look_up, exec_hand_over.
    destruct (send_capability w _) eqn:Hc; cbn; split.
    + eexists. split; [done|by right].
    + split; [eauto|done].
    + eexists. split; [done|by left].
    + split; [done|]. intros (reply' & [= <-] & _ & ?). congruence.
  - apply bool_decide_eq_false_1 in H1.
    assert (¬ ∃ reply', Ok (Some reply) = Ok (Some reply') ∧ value "status" reply' = Ok "success" ∧
              send_capability w (peer_socket_fd (raw_peer auth)) = true) as Hno.
    { intros (reply' & [= <-] & ? & _). congruence. }
    destruct (status =s "denied"); [|cbn; split; [eexists; split; [done|by left]|by split]].
    rewrite exec_look_up, exec_lift.
    destruct (value_or _ _ reply); cbn; (split; [eexists; split; [done|by left]|by split]).
Qed.

(** C27 The capability goes to a peer exactly when the handshake has
    authenticated it and the broker, asked about that very key and uid, answers
    with success; and on every path, exceptions included, the peer's descriptor
    is closed once, at the end. *)
Theorem capability_needs_handshake_and_broker s uid name obs peer w :
  0 ≤ peer_socket_fd peer →
  let fd := peer_socket_fd peer in
  let '(r, es) := run (accept_and_serve_one s uid name obs (Ok (Some peer))) w in
  (∃ es', es = es' ++ [Closed fd] ∧ ∀ fd', Closed fd' ∉ es') ∧
  (∀ fd', CapabilitySent fd' ∈ es ↔ r = Ok OutcomeSent ∧ fd' = fd) ∧
  (r = Ok OutcomeSent ↔
   ∃ auth frames reply,
     run (accept_one s uid name obs (Ok (Some peer))) w = (Ok (Some auth), frames) ∧
     raw_peer auth = peer ∧ peer_uid peer = uid ∧
     broker_query w (authenticated_pubkey_z85 auth) (authenticated_role_uid auth) = Ok (Some reply) ∧
     value "status" reply = Ok "success" ∧ send_capability w fd = true).
Proof.
  intros Hfd. unfold run, accept_and_serve_one. rewrite exec_handle.
  pose proof (accept_one_run s uid name obs peer w Hfd) as Ha.
  destruct (exec (accept_one s uid name obs (Ok (Some peer))) w) as [[[[auth|]|e] es] w1]; [|naive_solver|].
  - destruct Ha as (Hq & Hc & fs & Hf & -> & Hp & Hu). rewrite Hp.
    destruct (peer_socket_fd peer <? 0) eqn:Hneg; [apply Z.ltb_lt in Hneg; lia|].
    unfold closing. rewrite exec_handle. pose proof (serve_peer_run auth w1) as Hs.
    destruct (exec (serve_peer auth) w1) as [[r es] w2]. cbn. rewrite Hp, Hq, Hc in Hs.
    destruct Hs as ((rest & -> & Hr) & Hiff). split_and!.
    + exists (fs ++ Queried (authenticated_pubkey_z85 auth) (authenticated_role_uid auth) :: rest).
      split; [by rewrite <- app_assoc|]. intros fd' [Hin|[Hin|Hin]%elem_of_cons]%elem_of_app; [|done|].
      * by apply (frames_only _ _ Hf) in Hin as [].
      * destruct Hr as [[-> _]|[-> _]]; [by apply elem_of_nil in Hin|].
        by apply list_elem_of_singleton in Hin.
    + intros fd'. rewrite !elem_of_app, elem_of_cons, list_elem_of_singleton. split.
      * intros [Hin|[[?|Hin]|?]]; [by apply (frames_only _ _ Hf) in Hin as []|done| |done].
        destruct Hr as [[-> _]|[-> ->]]; [by apply elem_of_nil in Hin|].
        apply list_elem_of_singleton in Hin. by injection Hin as ->.
      * intros [Hok ->]. destruct Hr as [[_ Hne]|[-> _]]; [done|]. right; left; right. by apply list_elem_of_singleton.
    + rewrite Hiff. naive_solver.
  - destruct Ha as (Hq & Hc & fs & Hf & ->). cbn. rewrite app_nil_r. split_and!.
    + exists fs. split; [done|]. intros fd' Hin. by apply (frames_only _ _ Hf) in Hin as [].
    + intros fd'. rewrite elem_of_app, list_elem_of_singleton. split; [|by intros [? _]].
      intros [Hin|?]; [by apply (frames_only _ _ Hf) in Hin as []|done].
    + naive_solver.
Qed.

End peers.

(** ** Frames over the stream *)

Lemma bytes_of_back s : string_of_bytes (bytes_of s) = s.
Proof.
  unfold string_of_bytes, bytes_of. rewrite <- list_fmap_compose.
  rewrite <- (String.string_of_list_ascii_of_string s) at 2. f_equal.
  rewrite <- (list_fmap_id (String.list_ascii_of_string s)) at 2.
  apply list_fmap_ext. intros i c _. cbn. by rewrite Nat2Z.id, ascii_nat_embedding.
Qed.

Lemma take_min_length {A} n (l : list A) : take (Nat.min n (length l)) l = take n l.
Proof. destruct (le_lt_dec n (length l)); [by rewrite Nat.min_l by lia|]. by rewrite Nat.min_r, !take_ge by lia. Qed.

Lemma length_prefix n : 0 ≤ n ≤ kMaxAttachFrameBytes → length_of (length_bytes n) = n.
Proof.
  unfold kMaxAttachFrameBytes, length_of, length_bytes. intros Hn.
  change 255 with (Z.ones 8). rewrite !Z.land_ones, !Z.shiftr_div_pow2, !Z.shiftl_mul_pow2 by lia.
  rewrite !(Z.div_small n (2 ^ 16)), !(Z.div_small n (2 ^ 24)) by lia. rewrite !Zmod_0_l, !Z.mul_0_l, !Z.lor_0_r.
  rewrite (Z.mod_small (n / 2 ^ 8)) by (split; [apply Z.div_pos; lia|apply Z.div_lt_upper_bound; lia]).
  apply Z.bits_inj'. intros i Hi. rewrite Z.lor_spec. destruct (decide (i < 8)).
  - rewrite Z.mod_pow2_bits_low, Z.mul_pow2_bits_low by lia. by rewrite orb_false_r.
  - rewrite Z.mod_pow2_bits_high, Z.mul_pow2_bits, Z.div_pow2_bits by lia. cbn. f_equal. lia.
Qed.

Lemma send_all_Ok turns buf ts sent : send_all turns buf = (Ok ts, sent) → sent = buf.
Proof.
  revert buf ts sent. induction turns as [|t turns IH]; intros buf ts sent; destruct buf as [|b buf]; cbn; try by intros [= <- <-].
  destruct t as [| | | | |n]; try done; [by apply IH|].
  destruct (send_all turns (drop n (b :: buf))) as [r sent'] eqn:Hs. intros [= -> <-].
  rewrite (IH _ _ _ Hs). apply take_drop.
Qed.

(** Whatever the turns, receiving takes the bytes asked for off the stream, or
    throws. *)
Lemma recv_all_until_Ok turns want stream b ts rest :
  recv_all_until turns want stream = Ok (b, ts, rest) →
  (want ≤ length stream)%nat ∧ b = take want stream ∧ rest = drop want stream.
Proof.
  revert want stream b ts rest. induction turns as [|t turns IH]; intros want stream b ts rest;
    destruct want as [|want]; cbn [recv_all_until]; try (intros [= <- <- <-]; cbn; split_and!; first [done|lia]); try done.
  destruct t as [| | | | |n]; try done; [by apply IH|].
  set (got := take (Nat.min n (S want)) stream). destruct (length got =? 0)%nat; [done|].
  intros H. apply result_Ok in H as ([[b' ts'] rest'] & Hr & [= <- <- <-]).
  apply IH in Hr as (Hl & -> & ->). rewrite length_drop in Hl.
  assert (length got ≤ length stream ∧ length got ≤ S want)%nat as [Hg1 Hg2]
    by (unfold got; rewrite length_take; lia).
  assert (got = take (length got) stream) as Hgot by (unfold got; by rewrite length_take, take_min_length).
  split_and!; [lia| |by rewrite drop_drop; f_equal; lia].
  rewrite Hgot at 1. rewrite take_take_drop. f_equal. lia.
Qed.

(** A stream that keeps coming delivers what is asked for. *)
Definition moving (t : Turn) : Prop := ∃ n, t = Moves (S n).

Lemma recv_all_until_moving turns want stream :
  Forall moving turns → (want ≤ length turns)%nat → (want ≤ length stream)%nat →
  ∃ ts, recv_all_until turns want stream = Ok (take want stream, ts, drop want stream) ∧
        Forall moving ts ∧ (length turns ≤ length ts + want)%nat.
Proof.
  intros Hm. revert want stream. induction Hm as [|t turns [n ->] Hm IH]; intros want stream Hw Hs.
  { destruct want; [|cbn in Hw; lia]. by exists []. }
  destruct want as [|want]; cbn in Hw.
  { exists (Moves (S n) :: turns). split_and!; [done| |cbn; lia]. constructor; [by eexists|done]. }
  cbn [recv_all_until]. set (got := take (Nat.min (S n) (S want)) stream).
  assert (length got = Nat.min (S n) (S want)) as Hg by (unfold got; rewrite length_take; lia).
  rewrite Hg. cbn [Nat.min Nat.eqb]. destruct (IH (S want - S (Nat.min n want))%nat (drop (S (Nat.min n want)) stream))
    as (ts & Hr & Hts & Hlen); [lia|rewrite length_drop; lia|].
  rewrite Hr. exists ts. split_and!; [|done|cbn; lia]. cbn [mbind result_bind]. unfold got.
  change (Nat.min (S n) (S want)) with (S (Nat.min n want)). rewrite take_take_drop, drop_drop.
  replace (S (Nat.min n want) + (S want - S (Nat.min n want)))%nat with (S want) by lia. done.
Qed.

Section framing.
Context `{!JsonText}.

Lemma bytes_of_length s : length (bytes_of s) = String.length s.
Proof. unfold bytes_of. rewrite length_fmap. by induction s; cbn; [|f_equal]. Qed.

Lemma shm_send_frame_Ok sending j ts written :
  shm_send_frame sending j = (Ok ts, written) →
  Z.of_nat (length (bytes_of (dump j))) ≤ kMaxAttachFrameBytes ∧
  written = length_bytes (Z.of_nat (length (bytes_of (dump j)))) ++ bytes_of (dump j).
Proof.
  unfold shm_send_frame. destruct (_ <? _) eqn:Hmax; [done|]. apply Z.ltb_ge in Hmax.
  destruct (send_all sending _) as [[ts1|e] sent] eqn:H1; [|done].
  destruct (send_all ts1 _) as [r rest] eqn:H2. intros [= -> <-].
  by rewrite (send_all_Ok _ _ _ _ H1), (send_all_Ok _ _ _ _ H2).
Qed.

(** C37 A frame crosses the socket unharmed: the bytes one side writes, however
    its writes are cut, are read back as that frame with the rest of the stream
    untouched, however the reads are cut, unless a read fails; a stream that
    keeps coming is read to the end; and a frame over the limit is refused
    before a byte is written. *)
Theorem frame_crosses_the_socket j sending ts written :
  parse (dump j) = Some j → dump j ≠ "" →
  (shm_send_frame sending j = (Ok ts, written) →
   ∀ turns rest,
     (∀ j' ts' rest', shm_recv_frame turns (written ++ rest) = Ok (j', ts', rest') → j' = j ∧ rest' = rest) ∧
     (Forall moving turns → (length written ≤ length turns)%nat →
      ∃ ts', shm_recv_frame turns (written ++ rest) = Ok (j, ts', rest))) ∧
  (kMaxAttachFrameBytes < Z.of_nat (String.length (dump j)) →
   shm_send_frame sending j = (Throws runtime_error, [])).
Proof.
  intros Hp Hne. split.
  - intros [Hmax ->]%shm_send_frame_Ok turns rest. set (body := bytes_of (dump j)) in *.
    set (len := Z.of_nat (length body)) in *. set (lb := length_bytes len).
    assert (length lb = 4%nat) as Hlb by done.
    assert (length_of lb = len) as Hlen by (apply length_prefix; lia).
    assert ((len =? 0) = false) as Hz.
    { apply Z.eqb_neq. unfold len, body. rewrite bytes_of_length. by destruct (dump j). }
    assert ((kMaxAttachFrameBytes <? len) = false) as Hm by (by apply Z.ltb_ge).
    rewrite <- app_assoc. unfold shm_recv_frame. split.
    + intros j' ts' rest' Hr. apply result_Ok in Hr as ([[lb' t1] s1] & (_ & -> & ->)%recv_all_until_Ok & Hr).
      rewrite take_app_length', drop_app_length', Hlen, Hz, Hm in Hr by done.
      apply result_Ok in Hr as ([[body' t2] s2] & (_ & -> & ->)%recv_all_until_Ok & Hr).
      unfold len in Hr. rewrite Nat2Z.id, take_app_length, drop_app_length in Hr.
      unfold body in Hr. rewrite bytes_of_back, Hp in Hr. by injection Hr as <- _ <-.
    + intros Hmv Hturns. rewrite length_app in Hturns.
      destruct (recv_all_until_moving turns 4 (lb ++ body ++ rest)) as (t1 & -> & Hm1 & Hl1);
        [done|lia|rewrite length_app; lia|]. cbn [mbind result_bind].
      rewrite take_app_length', drop_app_length', Hlen, Hz, Hm by done.
      destruct (recv_all_until_moving t1 (Z.to_nat len) (body ++ rest)) as (t2 & -> & _);
        [done|unfold len; lia|unfold len; rewrite length_app; lia|]. cbn [mbind result_bind].
      unfold len. rewrite Nat2Z.id, take_app_length, drop_app_length.
      unfold body. rewrite bytes_of_back, Hp. by eexists.
  - intros Hbig. unfold shm_send_frame. rewrite bytes_of_length. by rewrite (proj2 (Z.ltb_lt _ _) Hbig).
Qed.

End framing.

End HandshakeProps.
