(* ===== verification/HandshakeToy.v ===== *)
(** * A concrete library for the attach handshake

    A toy box and toy encodings that have the behaviour the handshake relies on,
    two identities over them, and the theorems of [HandshakeProps] at these
    values. *)

From S2P Require Import Prelude.
From Stdlib Require Import Ascii.
From S2P Require Import Json.
From S2P Require Import KeyStore.
From S2P Require Import AttachProtocol.
From S2P Require Import HandshakeProps.
Import Json KeyStore AttachProtocol HandshakeProps.

Module HandshakeToy.

(** Keys are shared by adding them, the tag is a checksum of key, nonce and
    message. *)
Definition sum (l : list Z) : Z := foldr Z.add 0 l.
Definition shared (pk sk : list Z) : list Z := zip_with (λ x y, (x + y) mod 256) pk sk.
Definition tag (k n m : list Z) : list Z :=
  replicate kBoxMacBytes ((sum k + 3 * sum n + 5 * sum m) mod 256).
Definition toy_easy (m n pk sk : list Z) : option (list Z) := Some (tag (shared pk sk) n m ++ m).
Definition toy_open (c n pk sk : list Z) : option (list Z) :=
  let m := drop kBoxMacBytes c in
  if bool_decide (toy_easy m n pk sk = Some c) then Some m else None.

Definition all_bytes (l : list Z) : bool := forallb (λ b, (0 <=? b) && (b <? 256)) l.
Definition toy_z85_encode (raw : list Z) : option string :=
  if all_bytes raw then Some (string_of_bytes (raw ++ replicate 8 122)) else None.
Definition toy_z85_decode (s : string) : option (list Z) := Some (take kRawKeyBytes (bytes_of s)).
Definition toy_b64_encode (b : list Z) : option string :=
  if all_bytes b then Some (string_of_bytes b) else None.

#[export] Instance toy_sodium : Sodium := {|
  crypto_box_easy := toy_easy;
  crypto_box_open_easy := toy_open;
  zmq_z85_encode := toy_z85_encode;
  zmq_z85_decode := toy_z85_decode;
  sodium_bin2base64 := toy_b64_encode;
  sodium_base642bin := λ s, Some (bytes_of s);
|}.

Definition toy_keypair (pk sk : list Z) : Prop := pk = sk.

Lemma all_bytes_true l : all_bytes l = true ↔ bytes l.
Proof.
  unfold all_bytes, bytes. rewrite forallb_forall, Forall_forall. split; intros H x Hx.
  - apply list_elem_of_In, H, andb_true_iff in Hx as [?%Z.leb_le ?%Z.ltb_lt]. lia.
  - apply list_elem_of_In, H in Hx as [? ?]. apply andb_true_iff. split; [by apply Z.leb_le|by apply Z.ltb_lt].
Qed.

Lemma bytes_back l : bytes l → bytes_of (string_of_bytes l) = l.
Proof.
  intros Hl. unfold bytes_of, string_of_bytes. rewrite String.list_ascii_of_string_of_list_ascii.
  rewrite <- list_fmap_compose. rewrite <- (list_fmap_id l) at 2. apply list_fmap_ext.
  intros i b Hb. cbn. unfold bytes in Hl. rewrite Forall_lookup in Hl. specialize (Hl _ _ Hb).
  rewrite nat_ascii_embedding by lia. lia.
Qed.

Lemma shared_comm pk sk : shared pk sk = shared sk pk.
Proof.
  unfold shared. revert sk. induction pk as [|x pk IH]; intros [|y sk]; cbn; [done..|].
  rewrite IH. f_equal. f_equal. lia.
Qed.

Lemma toy_open_easy m n pk sk c : toy_easy m n pk sk = Some c → toy_open c n pk sk = Some m.
Proof.
  intros Hc. apply (inj Some) in Hc as <-. unfold toy_open.
  assert (drop kBoxMacBytes (tag (shared pk sk) n m ++ m) = m) as ->
    by (apply drop_app_length'; unfold tag; by rewrite length_replicate).
  cbv zeta. by rewrite bool_decide_eq_true_2.
Qed.

Lemma toy_laws : SodiumLaws toy_keypair.
Proof.
  constructor.
  - intros b Hb Hne. cbn. unfold toy_b64_encode. rewrite (proj2 (all_bytes_true b) Hb).
    eexists. split; [done|]. by destruct b.
  - intros b s. cbn. unfold toy_b64_encode. destruct (all_bytes b) eqn:Hb; [|done].
    intros [= <-]. f_equal. by apply bytes_back, all_bytes_true.
  - intros raw s Hl. cbn. unfold toy_z85_encode, toy_z85_decode. destruct (all_bytes raw) eqn:Hb; [|done].
    apply all_bytes_true in Hb. intros [= <-].
    assert (bytes (raw ++ replicate 8 122)) as Hb' by (apply Forall_app_2; [done|by apply Forall_replicate]).
    split; [|f_equal; rewrite bytes_back by done; rewrite <- Hl; apply take_app_length].
    rewrite <- bytes_of_length, bytes_back, length_app, Hl by done. done.
  - intros m n pk sk pk' sk' _ _ Hm. eexists. split; [done|]. split.
    + apply Forall_app_2; [|done]. apply Forall_replicate. by apply Z.mod_pos_bound.
    + rewrite length_app. unfold tag. rewrite length_replicate. lia.
  - intros m n pk sk pk' sk' c -> ->. cbn. unfold toy_easy. rewrite shared_comm. apply toy_open_easy.
  - intros m n pk' sk c. apply toy_open_easy.
  - intros m n pk' sk c. cbn. unfold toy_open. case_bool_decide as Hc; [|done]. intros [= <-]. done.
Qed.

(** ** Two identities *)

Definition key_of (b : Z) : list Z := replicate 32 b.
Definition z85_of (b : Z) : string := string_of_bytes (key_of b ++ replicate 8 122).
Definition store_of (b : Z) : Store := {["id" := mkEntry (key_of b ++ key_of b) (z85_of b) true]}.

Lemma key_of_bytes b : 0 ≤ b < 256 → bytes (key_of b).
Proof. intros. by apply Forall_replicate. Qed.

Lemma toy_identity b : 0 ≤ b < 256 → identity toy_keypair (store_of b) "id" (z85_of b) (key_of b) (key_of b).
Proof.
  intros Hb. split_and!; try done. change (zmq_z85_encode (key_of b)) with (toy_z85_encode (key_of b)).
  unfold toy_z85_encode. by rewrite (proj2 (all_bytes_true (key_of b)) (key_of_bytes b Hb)).
Qed.

Definition consumer : ConsumerAuthMaterial := mkAuthMaterial "cons.a" (z85_of 2) "id".

Lemma consumer_is_ready : consumer_ready toy_keypair (store_of 2) consumer (key_of 2) (key_of 2) (z85_of 1) (key_of 1).
Proof.
  split; [by apply (toy_identity 2)|]. split_and!; try (vm_compute; reflexivity).
Qed.

Definition toy_draws (a b : Z) : list (list Z) := [replicate 24 a; replicate 16 b].

Lemma toy_drawn a b : 0 ≤ a < 256 → 0 ≤ b < 256 → drawn (replicate 24 a) (replicate 16 b).
Proof. intros. split_and!; try done; by apply Forall_replicate. Qed.

Lemma handshake_completes_witness :
  ∃ f1 hello proof,
    run (run_producer_handshake (store_of 1) "id" None) (env (toy_draws 3 4) [hello])
    = (Ok (mkHandshakeResult "cons.a" (z85_of 2) "consumer"), Sent <$> f1 :: proof) ∧
    run (run_consumer_handshake (store_of 2) consumer (z85_of 1) true) (env (toy_draws 5 6) (f1 :: proof))
    = (Ok tt, [Sent hello]).
Proof.
  destruct (handshake_completes toy_keypair toy_laws (store_of 1) "id" (z85_of 1) (key_of 1) (key_of 1) None
              (store_of 2) consumer (key_of 2) (key_of 2) true _ _ _ _
              (toy_identity 1 ltac:(lia)) eq_refl consumer_is_ready
              (toy_drawn 3 4 ltac:(lia) ltac:(lia)) (toy_drawn 5 6 ltac:(lia) ltac:(lia)))
    as (f1 & hello & proof & Hp & Hc & _).
  exists f1, hello, proof. split; [exact Hp|exact Hc].
Defined.

(** The frames of one handshake. *)
Definition toy_f1 : json := default JNull (match challenge_frame (replicate 24 3) (replicate 16 4) with
  | Ok j => Some j | Throws _ => None end).
Definition sent_by (es : list Event) : json := match es with Sent j :: _ => j | _ => JNull end.
Definition toy_hello (mutual : bool) : json :=
  sent_by (run (run_consumer_handshake (store_of 2) consumer (z85_of 1) mutual) (env (toy_draws 5 6) [toy_f1])).2.

Lemma accepted_peer_holds_its_key_witness :
  run (run_producer_handshake (store_of 1) "id" None) (env (toy_draws 3 4) [toy_hello false])
  = (Ok (mkHandshakeResult "cons.a" (z85_of 2) "consumer"), [Sent toy_f1]) ∧
  ∃ r64 cipher, value "challenge_response_b64" (toy_hello false) = Ok r64 ∧ b64_decode r64 = Ok cipher ∧
    toy_easy (replicate 16 4) (replicate 24 3) (key_of 1) (key_of 2) = Some cipher.
Proof.
  assert (run (run_producer_handshake (store_of 1) "id" None) (env (toy_draws 3 4) [toy_hello false])
          = (Ok (mkHandshakeResult "cons.a" (z85_of 2) "consumer"), [Sent toy_f1])) as Hrun
    by (vm_compute; reflexivity).
  split; [exact Hrun|].
  destruct (accepted_peer_holds_its_key toy_keypair toy_laws (store_of 1) "id" None (z85_of 1) (key_of 1) (key_of 1)
              _ _ _ (toy_identity 1 ltac:(lia)) Hrun)
    as (f1 & hello & pkC & r64 & cipher & _ & _ & Hh & _ & Hraw & Hv & Hd & _ & Hsk & _).
  injection Hh as <-. exists r64, cipher. split; [exact Hv|]. split; [exact Hd|].
  assert (pkC = key_of 2) as -> by (vm_compute in Hraw; injection Hraw as <-; reflexivity).
  exact (Hsk _ eq_refl).
Defined.

Lemma proof_can_be_reflected_witness :
  ∃ hello hello2,
    hello = toy_hello true ∧
    run (run_consumer_handshake (store_of 2) consumer (z85_of 1) true)
        (env (toy_draws 5 6) [toy_f1; reflected_proof (z85_of 1) hello2]) = (Ok tt, [Sent hello]).
Proof.
  destruct (proof_can_be_reflected toy_keypair toy_laws (store_of 2) consumer (key_of 2) (key_of 2)
              (z85_of 1) (key_of 1) (key_of 1) toy_f1 _ _ _ _ _ _ false consumer_is_ready eq_refl
              ltac:(vm_compute; reflexivity) (toy_drawn 3 4 ltac:(lia) ltac:(lia))
              (toy_drawn 5 6 ltac:(lia) ltac:(lia)) (toy_drawn 7 8 ltac:(lia) ltac:(lia)))
    as (hello & hello2 & Hs & _ & Hr).
  exists hello, hello2. split; [|exact Hr]. unfold toy_hello, toy_draws. rewrite Hs. reflexivity.
Defined.

(** A broker that knows the consumer, and one that does not. *)
Definition served (known : bool) : Env :=
  mkEnv (toy_draws 3 4) [] [Ok (toy_hello false)]
    (λ pk uid, Ok (Some (obj [("status", JStr (if known then "success" else "denied"))])))
    (λ _, Ok known) (λ _, true).

Lemma capability_needs_handshake_and_broker_witness :
  (run (accept_and_serve_one (store_of 1) 1000 "id" None (Ok (Some (mkPeer 5 1000)))) (served true)).1 = Ok OutcomeSent ∧
  CapabilitySent 5 ∈ (run (accept_and_serve_one (store_of 1) 1000 "id" None (Ok (Some (mkPeer 5 1000)))) (served true)).2 ∧
  (run (accept_and_serve_one (store_of 1) 1000 "id" None (Ok (Some (mkPeer 5 1000)))) (served false)).1 = Ok DeniedByBroker.
Proof.
  assert ((run (accept_and_serve_one (store_of 1) 1000 "id" None (Ok (Some (mkPeer 5 1000)))) (served true)).1
          = Ok OutcomeSent) as Hs by (vm_compute; reflexivity).
  split; [exact Hs|]. split; [|vm_compute; reflexivity].
  pose proof (capability_needs_handshake_and_broker (store_of 1) 1000 "id" None (mkPeer 5 1000) (served true)
                ltac:(vm_compute; discriminate)) as Hc.
  cbv zeta in Hc.
  destruct (run (accept_and_serve_one _ _ _ _ _) (served true)) as [r es]. cbn in Hs |- *.
  destruct Hc as (_ & Hc & _). apply Hc. split; [exact Hs|reflexivity].
Defined.

(** A printer of one document. *)
#[export] Instance toy_text : JsonText := {|
  dump := λ _, "{}";
  parse := λ s, if s =s "{}" then Some (obj []) else None;
|}.

Lemma frame_crosses_the_socket_witness :
  shm_send_frame [Moves 2; Interrupted; Moves 9; Moves 1; Moves 1] (obj [])
  = (Ok [], [2; 0; 0; 0; 123; 125]) ∧
  ∃ ts, shm_recv_frame (replicate 7 (Moves 1)) ([2; 0; 0; 0; 123; 125] ++ [7]) = Ok (obj [], ts, [7]).
Proof.
  assert (shm_send_frame [Moves 2; Interrupted; Moves 9; Moves 1; Moves 1] (obj [])
          = (Ok [], [2; 0; 0; 0; 123; 125])) as Hsend by (vm_compute; reflexivity).
  split; [exact Hsend|].
  assert (parse (dump (obj [])) = Some (obj [])) as Hp by reflexivity.
  assert (dump (obj []) ≠ "") as Hne by discriminate.
  destruct (frame_crosses_the_socket (obj []) [Moves 2; Interrupted; Moves 9; Moves 1; Moves 1] [] [2; 0; 0; 0; 123; 125] Hp Hne) as [Hc _].
  destruct (Hc Hsend (replicate 7 (Moves 1)) [7]) as [_ Hc'].
  apply Hc'; [apply (Forall_replicate _ 7 (Moves 1)); by exists 0%nat|cbn; lia].
Defined.

End HandshakeToy.
