(* ===== verification/ZmqWire.v ===== *)
(** * The frames of the ZeroMQ queues

    Models [src/utils/hub/zmq_wire_helpers.hpp]: an item becomes a MessagePack
    array of magic, schema tag, sequence number, fields and checksum, and back.
    msgpack-c is the class [Msgpack]: it prints and parses objects and converts
    native scalars.  Proved: an item comes back with its padding cleared. *)

From S2P Require Import Prelude.
From S2P Require Import ShmHeader.
From S2P Require Import Layout.
Import ShmHeader FieldLayout.

Module ZmqWire.

(** A [msgpack::object] as far as the code looks into it; every type but arrays
    and binaries is a value of the library. *)
Inductive Obj (V : Type) :=
  | OBin (bytes : list Z)
  | OArr (elements : list (Obj V))
  | OVal (v : V).
Arguments OBin {_} _.
Arguments OArr {_} _.
Arguments OVal {_} _.

(** [pack] and [convert] of unsigned numbers and of the scalar types, whose
    values are the bytes they have in memory; [convert] fails on a value the
    type does not hold.  [serialize] is what the packer writes for an object,
    [unpack] throws on other bytes. *)
Class Msgpack := {
  Value : Type;
  pack_uint : Z → Value;
  convert_uint : Z → Value → option Z;
  pack_scalar : string → list Z → Value;
  convert_scalar : string → Value → option (list Z);
  value_size : Value → Z;
  serialize : Obj Value → list Z;
  unpack : list Z → option (Obj Value);
}.

Definition kFrameMagic : Z := 0x51484C50.

Definition max_frame_size (defs : list FieldLayout) : Z :=
  foldl (λ sz d, sz + if is_bin d then 5 + byte_size d else 9) (25 + 3 + 4 + 34) defs.

(** Memory under a [char] pointer. *)
Definition bytes_at (off n : Z) (src : list Z) : list Z := take (Z.to_nat n) (drop (Z.to_nat off) src).
Definition write_at (off : Z) (bytes dst : list Z) : list Z :=
  take (Z.to_nat off) dst ++ bytes ++ drop (Z.to_nat off + length bytes) dst.

Definition is_scalar_type (t : string) : bool :=
  is_valid_type_str t && negb ((t =s "string") || (t =s "bytes")).

Section with_msgpack.
Context `{!Msgpack}.

(** An unknown scalar type packs nothing; the array is then one short of its
    header, which [layout_ok] rules out. *)
Definition pack_field (src : list Z) (fd : FieldLayout) : list (Obj Value) :=
  if is_bin fd then [OBin (bytes_at (offset fd) (byte_size fd) src)]
  else if is_scalar_type (ftype fd)
  then [OVal (pack_scalar (ftype fd) (bytes_at (offset fd) (field_elem_size (ftype fd)) src))]
  else [].

Definition unpack_field (obj : Obj Value) (fd : FieldLayout) (dst : list Z) : option (list Z) :=
  if is_bin fd then
    match obj with
    | OBin b => if Z.of_nat (length b) =? byte_size fd then Some (write_at (offset fd) b dst) else None
    | _ => None
    end
  else if is_scalar_type (ftype fd) then
    match obj with
    | OVal v => b ← convert_scalar (ftype fd) v; Some (write_at (offset fd) b dst)
    | _ => None
    end
  else None.

Definition pack_frame (schema_tag : list Z) (seq : Z) (defs : list FieldLayout) (slot_data checksum : list Z) :
    Obj Value :=
  OArr [OVal (pack_uint kFrameMagic); OBin schema_tag; OVal (pack_uint seq);
        OArr (concat (pack_field slot_data <$> defs)); OBin checksum].

Record FrameEnvelope := mkFrame {
  recv_tag : list Z;
  frame_seq : Z;
  payload : list (Obj Value);
  frame_checksum : list Z;
}.

(** None stands for an envelope that is not [valid]. *)
Definition unpack_envelope (obj : Obj Value) : option FrameEnvelope :=
  match obj with
  | OArr [OVal m; OBin tag; OVal s; OArr p; OBin cks] =>
      magic ← convert_uint 32 m;
      if negb (magic =? kFrameMagic) then None
      else if negb (length tag =? 8)%nat then None
      else
        seq ← convert_uint 64 s;
        if negb (length cks =? 32)%nat then None
        else Some (mkFrame tag seq p cks)
  | _ => None
  end.

Fixpoint unpack_fields (payload : list (Obj Value)) (defs : list FieldLayout) (dst : list Z) : option (list Z) :=
  match payload, defs with
  | o :: payload, fd :: defs => dst ← unpack_field o fd dst; unpack_fields payload defs dst
  | [], [] => Some dst
  | _, _ => None
  end.

Definition unpack_payload (payload : list (Obj Value)) (defs : list FieldLayout) (dst : list Z) :
    option (list Z) :=
  if negb (length payload =? length defs)%nat then None else unpack_fields payload defs dst.

End with_msgpack.

(** ** Items and frames *)

Definition covers (i : nat) (fd : FieldLayout) : bool :=
  (offset fd <=? Z.of_nat i) && (Z.of_nat i <? offset fd + byte_size fd).

(** The item with the bytes outside its fields zeroed. *)
Definition clear_padding (defs : list FieldLayout) (slot : list Z) : list Z :=
  imap (λ i x, if existsb (covers i) defs then x else 0) slot.

(** A layout for items of [sz] bytes. *)
Definition layout_ok (sz : Z) (defs : list FieldLayout) : Prop :=
  Forall (λ fd, 0 ≤ offset fd ∧ 0 ≤ byte_size fd ∧ offset fd + byte_size fd ≤ sz ∧
                (is_bin fd = false → is_scalar_type (ftype fd) = true ∧ byte_size fd = field_elem_size (ftype fd)))
         defs.

(** The scalars of an item that the library gives back as they were. *)
Definition scalars_kept `{!Msgpack} (defs : list FieldLayout) (slot : list Z) : Prop :=
  Forall (λ fd, is_bin fd = false →
    let b := bytes_at (offset fd) (byte_size fd) slot in convert_scalar (ftype fd) (pack_scalar (ftype fd) b) = Some b)
    defs.

(** The bytes of an object in the format: the header of an array has one, three
    or five bytes, that of a binary two, three or five. *)
Fixpoint object_size `{!Msgpack} (o : Obj Value) : Z :=
  match o with
  | OBin b => (let n := Z.of_nat (length b) in if n <? 2 ^ 8 then 2 + n else if n <? 2 ^ 16 then 3 + n else 5 + n)
  | OArr l =>
      (let n := Z.of_nat (length l) in if n <? 16 then 1 else if n <? 2 ^ 16 then 3 else 5) +
      foldr Z.add 0 (object_size <$> l)
  | OVal v => value_size v
  end.

(** What the format and the library promise: unsigned numbers and whole objects
    come back, a scalar has nine bytes at most and a 32-bit number five. *)
Record MsgpackLaws `{!Msgpack} : Prop := {
  uint_kept w n : 0 ≤ n < 2 ^ w → convert_uint w (pack_uint n) = Some n;
  unpack_serialize o : unpack (serialize o) = Some o;
  serialize_size o : Z.of_nat (length (serialize o)) ≤ object_size o;
  value_size_max v : 0 ≤ value_size v ≤ 9;
  value_size_u32 n : 0 ≤ n < 2 ^ 32 → value_size (pack_uint n) ≤ 5;
}.

Lemma bytes_at_length off n src :
  0 ≤ off → 0 ≤ n → off + n ≤ Z.of_nat (length src) → length (bytes_at off n src) = Z.to_nat n.
Proof. intros. unfold bytes_at. rewrite length_take, length_drop. lia. Qed.

Lemma bytes_at_lookup off n src i :
  bytes_at off n src !! i = if (i <? Z.to_nat n)%nat then src !! (Z.to_nat off + i)%nat else None.
Proof.
  unfold bytes_at. destruct (i <? Z.to_nat n)%nat eqn:Hi.
  - apply Nat.ltb_lt in Hi. by rewrite lookup_take_lt, lookup_drop.
  - apply Nat.ltb_ge in Hi. by apply lookup_take_ge.
Qed.

Lemma write_at_lookup off b dst i :
  0 ≤ off → (Z.to_nat off + length b ≤ length dst)%nat →
  write_at off b dst !! i =
  if (Z.to_nat off <=? i)%nat && (i <? Z.to_nat off + length b)%nat then b !! (i - Z.to_nat off)%nat else dst !! i.
Proof.
  intros Ho Hl. unfold write_at.
  destruct (Nat.leb_spec (Z.to_nat off) i) as [H1|H1]; cbn [andb].
  - rewrite lookup_app_r by (rewrite length_take; lia). rewrite length_take, Nat.min_l by lia.
    destruct (Nat.ltb_spec i (Z.to_nat off + length b)) as [H2|H2].
    + by rewrite lookup_app_l by lia.
    + rewrite lookup_app_r by lia. rewrite lookup_drop. f_equal. lia.
  - rewrite lookup_app_l by (rewrite length_take; lia). by rewrite lookup_take_lt by lia.
Qed.

Lemma clear_padding_length defs slot : length (clear_padding defs slot) = length slot.
Proof. apply length_imap. Qed.

Lemma clear_padding_lookup defs slot i :
  clear_padding defs slot !! i = (λ x, if existsb (covers i) defs then x else 0) <$> slot !! i.
Proof. unfold clear_padding. apply list_lookup_imap. Qed.

Lemma clear_padding_nil slot : clear_padding [] slot = replicate (length slot) 0.
Proof.
  apply list_eq. intros i. rewrite clear_padding_lookup. cbn. destruct (slot !! i) eqn:Hi; cbn.
  - symmetry. apply lookup_replicate_2. by apply lookup_lt_Some in Hi.
  - symmetry. apply lookup_replicate_None. by apply lookup_ge_None.
Qed.

(** Decoding one more field fills in its bytes. *)
Lemma write_field_clear done fd slot :
  0 ≤ offset fd → 0 ≤ byte_size fd → offset fd + byte_size fd ≤ Z.of_nat (length slot) →
  write_at (offset fd) (bytes_at (offset fd) (byte_size fd) slot) (clear_padding done slot)
  = clear_padding (done ++ [fd]) slot.
Proof.
  intros Ho Hs Hl. apply list_eq. intros i.
  rewrite write_at_lookup by (rewrite ?clear_padding_length, ?bytes_at_length by lia; lia).
  rewrite bytes_at_length, bytes_at_lookup, !clear_padding_lookup, existsb_app by lia. cbn [existsb].
  rewrite orb_false_r. unfold covers at 3.
  destruct (Nat.leb_spec (Z.to_nat (offset fd)) i) as [H1|H1];
    destruct (Nat.ltb_spec i (Z.to_nat (offset fd) + Z.to_nat (byte_size fd))) as [H2|H2]; cbn [andb].
  - replace (offset fd <=? Z.of_nat i) with true by (symmetry; apply Z.leb_le; lia).
    replace (Z.of_nat i <? offset fd + byte_size fd) with true by (symmetry; apply Z.ltb_lt; lia).
    replace (i - Z.to_nat (offset fd) <? Z.to_nat (byte_size fd))%nat with true by (symmetry; apply Nat.ltb_lt; lia).
    replace (Z.to_nat (offset fd) + (i - Z.to_nat (offset fd)))%nat with i by lia.
    rewrite orb_true_r. by destruct (slot !! i).
  - replace (Z.of_nat i <? offset fd + byte_size fd) with false by (symmetry; apply Z.ltb_ge; lia).
    by rewrite andb_false_r, orb_false_r.
  - replace (offset fd <=? Z.of_nat i) with false by (symmetry; apply Z.leb_gt; lia). by rewrite orb_false_r.
  - replace (offset fd <=? Z.of_nat i) with false by (symmetry; apply Z.leb_gt; lia). by rewrite orb_false_r.
Qed.

Section facts.
Context `{!Msgpack}.

Lemma unpack_pack_field sz done fd slot :
  layout_ok sz [fd] → sz = Z.of_nat (length slot) → scalars_kept [fd] slot →
  ∃ o, pack_field slot fd = [o] ∧
       unpack_field o fd (clear_padding done slot) = Some (clear_padding (done ++ [fd]) slot).
Proof.
  intros [(Ho & Hs & Hl & Hsc) _]%Forall_cons Hsz [Hk _]%Forall_cons. unfold pack_field, unpack_field.
  destruct (is_bin fd) eqn:Hb.
  - eexists. split; [done|]. cbn. rewrite bytes_at_length by lia. rewrite Z2Nat.id, Z.eqb_refl by lia.
    by rewrite write_field_clear by lia.
  - destruct Hsc as [Hsc Hel]; [done|]. rewrite Hsc, <- Hel. eexists. split; [done|]. cbn. rewrite (Hk eq_refl). cbn.
    by rewrite write_field_clear by lia.
Qed.

Lemma unpack_pack_fields sz defs done slot :
  layout_ok sz defs → sz = Z.of_nat (length slot) → scalars_kept defs slot →
  length (concat (pack_field slot <$> defs)) = length defs ∧
  unpack_fields (concat (pack_field slot <$> defs)) defs (clear_padding done slot)
  = Some (clear_padding (done ++ defs) slot).
Proof.
  intros Hl Hsz. revert done. induction Hl as [|fd defs Hf Hl IH]; intros done Hk.
  { cbn. split; [done|]. by rewrite app_nil_r. }
  apply Forall_cons in Hk as [Hk1 Hk].
  destruct (unpack_pack_field sz done fd slot) as (o & Hp & Hu); [by apply Forall_singleton|done|by apply Forall_singleton|].
  destruct (IH (done ++ [fd]) Hk) as [Hlen Hrest]. cbn. rewrite Hp. cbn. split; [by rewrite Hlen|].
  rewrite Hu. cbn. rewrite Hrest. by rewrite <- app_assoc.
Qed.

(** A frame gives back its tag, number and checksum, and the item without its
    padding. *)
Lemma frame_roundtrip sz tag seq defs slot cks :
  MsgpackLaws → length tag = 8%nat → length cks = 32%nat → 0 ≤ seq < 2 ^ 64 →
  layout_ok sz defs → sz = Z.of_nat (length slot) → scalars_kept defs slot →
  ∃ env, unpack (serialize (pack_frame tag seq defs slot cks)) = Some (pack_frame tag seq defs slot cks) ∧
    unpack_envelope (pack_frame tag seq defs slot cks) = Some env ∧
    recv_tag env = tag ∧ frame_seq env = seq ∧ frame_checksum env = cks ∧
    length (payload env) = length defs ∧
    unpack_payload (payload env) defs (replicate (length slot) 0) = Some (clear_padding defs slot).
Proof.
  intros [Hu Hs _ _ _] Ht Hc Hq Hl Hsz Hk. destruct (unpack_pack_fields sz defs [] slot Hl Hsz Hk) as [Hlen Hf].
  assert (convert_uint 32 (pack_uint kFrameMagic) = Some kFrameMagic) as Hm by (apply Hu; unfold kFrameMagic; lia).
  eexists. split; [apply Hs|]. unfold unpack_envelope, pack_frame. rewrite Hm, (Hu 64 seq Hq). cbn.
  rewrite Ht, Hc. cbn. split; [done|]. cbn. split_and!; try done.
  unfold unpack_payload. rewrite Hlen, Nat.eqb_refl. cbn. by rewrite <- clear_padding_nil.
Qed.

(** A frame stays below the limit the receiver checks. *)
Lemma sum_app l1 l2 : foldr Z.add 0 (l1 ++ l2) = foldr Z.add 0 l1 + foldr Z.add 0 l2.
Proof. induction l1 as [|x l1 IH]; cbn; lia. Qed.

Lemma max_frame_size_sum defs sz :
  foldl (λ sz d, sz + if is_bin d then 5 + byte_size d else 9) sz defs =
  sz + foldr Z.add 0 ((λ d, if is_bin d then 5 + byte_size d else 9) <$> defs).
Proof. revert sz. induction defs as [|d defs IH]; intros sz; cbn; [lia|]. rewrite IH. cbn. lia. Qed.

Lemma field_objects_size sz defs slot :
  MsgpackLaws → layout_ok sz defs → sz = Z.of_nat (length slot) →
  foldr Z.add 0 (object_size <$> concat (pack_field slot <$> defs)) ≤
  foldr Z.add 0 ((λ d, if is_bin d then 5 + byte_size d else 9) <$> defs).
Proof.
  intros HL Hl Hsz. induction Hl as [|fd defs (Ho & Hb & Hle & Hsc) Hl IH]; [done|].
  cbn. rewrite fmap_app, sum_app. unfold pack_field at 1. destruct (is_bin fd); cbn.
  - rewrite bytes_at_length by lia. rewrite Z2Nat.id by lia. repeat case_match; lia.
  - destruct Hsc as [-> _]; [done|]. cbn. pose proof (value_size_max HL (pack_scalar (ftype fd) (bytes_at (offset fd) (field_elem_size (ftype fd)) slot))).
    lia.
Qed.

Lemma frame_size sz tag seq defs slot cks :
  MsgpackLaws → length tag = 8%nat → length cks = 32%nat → layout_ok sz defs → sz = Z.of_nat (length slot) →
  scalars_kept defs slot → Z.of_nat (length defs) < 65536 →
  Z.of_nat (length (serialize (pack_frame tag seq defs slot cks))) < max_frame_size defs.
Proof.
  intros HL Ht Hc Hl Hsz Hk Hn. unfold max_frame_size. rewrite max_frame_size_sum.
  pose proof (field_objects_size sz defs slot HL Hl Hsz) as Hf.
  destruct (unpack_pack_fields sz defs [] slot Hl Hsz Hk) as [Hlen _].
  pose proof (serialize_size HL (pack_frame tag seq defs slot cks)) as Hs. cbn in Hs.
  pose proof (value_size_max HL (pack_uint seq)).
  pose proof (value_size_u32 HL kFrameMagic ltac:(unfold kFrameMagic; lia)).
  rewrite Ht, Hc, Hlen in Hs. change (Z.of_nat 8 <? 2 ^ 8) with true in Hs.
  change (Z.of_nat 32 <? 2 ^ 8) with true in Hs. change (Z.of_nat 5 <? 16) with true in Hs. cbn iota in Hs.
  assert ((if Z.of_nat (length defs) <? 16 then 1 else if Z.of_nat (length defs) <? 2 ^ 16 then 3 else 5) ≤ 3) as Hh.
  { replace (Z.of_nat (length defs) <? 2 ^ 16) with true by (symmetry; apply Z.ltb_lt; lia).
    destruct (_ <? 16); lia. }
  lia.
Qed.

End facts.

(** A field as the factories of the queues require it. *)
Definition field_accepted (f : SchemaFieldDesc) : bool :=
  is_valid_type_str (type_str f) && (if is_blob f then negb (flength f =? 0) else negb (count f =? 0)).

(** A layout computed from an accepted schema is one for its item size. *)
Lemma computed_layout_ok fields packing l sz :
  Forall field_widths fields → fields_fit fields → Forall (λ f, field_accepted f = true) fields →
  compute_field_layout fields packing = (l, sz) → layout_ok sz l.
Proof.
  intros Hw Hfit Ha Hc. apply Forall_lookup. intros i fl Hi.
  destruct (computed_field _ _ _ _ _ _ Hw Hfit Hc Hi) as (? & ? & ? & (f & Hf & Hs & _ & Ht & Hb) & _).
  split_and!; [done..|]. rewrite Hb, Ht, Hs. intros [Hblob Hcount]%orb_false_iff.
  rewrite Forall_lookup in Ha, Hw. specialize (Ha i f Hf). specialize (Hw i f Hf) as [Hc1 _].
  unfold field_accepted in Ha. rewrite Hblob in Ha. apply andb_true_iff in Ha as [Hv Hz].
  apply negb_true_iff, Z.eqb_neq in Hz. apply Z.ltb_ge in Hcount. unfold size_of. rewrite Hblob.
  unfold is_scalar_type, is_blob in *. rewrite Hv, Hblob. split; [done|].
  replace (count f) with 1 by lia. rewrite Z.mul_1_r.
  destruct (elem_size_cases (type_str f)) as [-> | [-> | [-> | ->]]]; done.
Qed.

End ZmqWire.
