(* ===== verification/ZmqQueue.v ===== *)
(** * The data path of a ZeroMQ queue

    Models the rings of [src/utils/hub/hub_zmq_queue.cpp] and the code that
    moves items through them: [write_acquire] and [write_commit] of the writing
    caller, the thread that packs and sends ([run_send_thread_]), the thread
    that receives and decodes ([run_recv_thread_]) and [read_acquire].  What the
    socket does with a frame is an argument.  A wait on a condition variable is
    a call that is blocked until its condition holds or its time is up.  Timing
    metrics are left out. *)

From S2P Require Import Prelude.
From S2P Require Import ShmHeader.
From S2P Require Import Layout.
From S2P Require Import ZmqWire.
Import ShmHeader FieldLayout ZmqWire.

Module ZmqQueue.

Inductive OverflowPolicy := Block | Drop.
#[global] Instance overflow_policy_eq_dec : EqDecision OverflowPolicy.
Proof. solve_decision. Defined.
#[global] Instance checksum_policy_eq_dec : EqDecision ChecksumPolicy.
Proof. solve_decision. Defined.

(** ** Rings *)

Record SlotRing := mkRing {
  ring_slots : list (list Z);
  ring_head : nat;
  ring_tail : nat;
  ring_count : nat;
}.
#[global] Instance eta_ring : Eta SlotRing := λ r,
  mkRing (ring_slots r) (ring_head r) (ring_tail r) (ring_count r).

Definition new_ring (depth item_sz : nat) : SlotRing := mkRing (replicate depth (zeros item_sz)) 0 0 0.

(** The oldest item, and its removal. *)
Definition ring_front (r : SlotRing) : list Z := default [] (ring_slots r !! ring_head r).
Definition ring_pop (depth : nat) (r : SlotRing) : SlotRing :=
  r <| ring_head := ((ring_head r + 1) mod depth)%nat |> <| ring_count := (ring_count r - 1)%nat |>.

(** An item into the slot at the tail. *)
Definition ring_store (depth : nat) (item : list Z) (r : SlotRing) : SlotRing :=
  r <| ring_slots := <[ring_tail r := item]> (ring_slots r) |>
    <| ring_tail := ((ring_tail r + 1) mod depth)%nat |>.

(** ** Settings fixed by the factories *)

Record Frames := mkFrames {
  item_sz : nat;
  schema_tag : option (list Z);
  schema_defs : list FieldLayout;
  max_frame_sz : Z;
}.

Definition tag_bytes (c : Frames) : list Z := default (zeros 8) (schema_tag c).

Section with_libraries.
Context `{!Msgpack} `{!Crypto}.

(** ** Receiving *)

Record Rx := mkRx {
  recv_ring : SlotRing;
  current_read_buf : list Z;
  recv_stop : bool;
  expected_seq : Z;
  seq_initialized : bool;
  last_seq : Z;
  recv_overflow_count : Z;
  recv_frame_error_count : Z;
  recv_gap_count : Z;
  checksum_error_count : Z;
}.
#[global] Instance eta_rx : Eta Rx := λ r,
  mkRx (recv_ring r) (current_read_buf r) (recv_stop r) (expected_seq r) (seq_initialized r) (last_seq r)
    (recv_overflow_count r) (recv_frame_error_count r) (recv_gap_count r) (checksum_error_count r).

Definition new_rx (max_depth sz : nat) : Rx :=
  mkRx (new_ring max_depth sz) (zeros sz) false 0 false 0 0 0 0 0.

Definition frame_error (rx : Rx) : Rx := rx <| recv_frame_error_count ::= u64_succ |>.

Definition note_seq (seq : Z) (rx : Rx) : Rx :=
  (if seq_initialized rx && (expected_seq rx <? seq)
   then rx <| recv_gap_count ::= (λ n, u64 (n + (seq - expected_seq rx))) |> else rx)
  <| expected_seq := u64_succ seq |> <| seq_initialized := true |> <| last_seq := seq |>.

(** The push under the lock: a full ring loses its oldest item. *)
Definition push_received (max_depth : nat) (item : list Z) (rx : Rx) : Rx :=
  let r := recv_ring rx in
  if (max_depth <=? ring_count r)%nat then
    rx <| recv_ring := ring_store max_depth item (r <| ring_head := ((ring_head r + 1) mod max_depth)%nat |>) |>
       <| recv_overflow_count ::= u64_succ |>
  else rx <| recv_ring := ring_store max_depth item (r <| ring_count := S (ring_count r) |>) |>.

(** One message of the receiving loop. *)
Definition recv_message (c : Frames) (max_depth : nat) (policy : ChecksumPolicy) (msg : list Z) (rx : Rx) : Rx :=
  if max_frame_sz c <=? Z.of_nat (length msg) then frame_error rx
  else
    match unpack msg ≫= unpack_envelope with
    | None => frame_error rx
    | Some env =>
        if negb (length (payload env) =? length (schema_defs c))%nat then frame_error rx
        else if bool_decide (is_Some (schema_tag c)) && negb (bool_decide (recv_tag env = tag_bytes c))
        then frame_error rx
        else
          let rx := note_seq (frame_seq env) rx in
          match unpack_payload (payload env) (schema_defs c) (zeros (item_sz c)) with
          | None => frame_error rx
          | Some item =>
              if negb (bool_decide (policy = ChecksumNone)) && negb (verify_blake2b (frame_checksum env) item)
              then rx <| checksum_error_count ::= u64_succ |>
              else push_received max_depth item rx
          end
    end.

(** [read_acquire]: the item, nothing when the wait ends without one, or still
    waiting ([None]). *)
Definition read_acquire (max_depth : nat) (timed_out : bool) (rx : Rx) : option (option (list Z) * Rx) :=
  let r := recv_ring rx in
  if (ring_count r =? 0)%nat then
    if timed_out || recv_stop rx then Some (None, rx) else None
  else
    let item := ring_front r in
    Some (Some item, rx <| current_read_buf := item |> <| recv_ring := ring_pop max_depth r |>).

(** ** Sending *)

Record Tx := mkTx {
  write_buf : list Z;
  send_ring : SlotRing;
  send_stop : bool;
  send_seq : Z;
  send_drop_count : Z;
  send_retry_count : Z;
  data_drop_count : Z;
}.
#[global] Instance eta_tx : Eta Tx := λ r,
  mkTx (write_buf r) (send_ring r) (send_stop r) (send_seq r) (send_drop_count r) (send_retry_count r)
    (data_drop_count r).

Definition new_tx (send_depth sz : nat) : Tx := mkTx (zeros sz) (new_ring send_depth sz) false 0 0 0 0.

(** [write_acquire]: granted with a zeroed buffer, refused, or (policy Block)
    left to wait for room. *)
Inductive Acquire := Granted | Refused | Waits.

Definition grant (sz : nat) (tx : Tx) : Acquire * Tx := (Granted, tx <| write_buf := zeros sz |>).
Definition refuse (tx : Tx) : Acquire * Tx := (Refused, tx <| data_drop_count ::= u64_succ |>).

(** The wait of policy Block, once its condition holds or its time is up. *)
Definition write_wait (send_depth sz : nat) (timed_out : bool) (tx : Tx) : Acquire * Tx :=
  let full := (send_depth <=? ring_count (send_ring tx))%nat in
  if full && negb (send_stop tx) && negb timed_out then (Waits, tx)
  else if (full && negb (send_stop tx)) || send_stop tx then refuse tx
  else grant sz tx.

Definition write_acquire (policy : OverflowPolicy) (send_depth sz : nat) (tx : Tx) : Acquire * Tx :=
  if send_stop tx then (Refused, tx)
  else
    match policy with
    | Drop => if (send_depth <=? ring_count (send_ring tx))%nat then refuse tx else grant sz tx
    | Block => write_wait send_depth sz false tx
    end.

(** [write_commit]: a full ring would lose the item. *)
Definition write_commit (send_depth : nat) (tx : Tx) : Tx :=
  let r := send_ring tx in
  if (send_depth <=? ring_count r)%nat then tx
  else tx <| send_ring := ring_store send_depth (write_buf tx) (r <| ring_count := S (ring_count r) |>) |>.

(** The frame of an item. *)
Definition item_checksum (policy : ChecksumPolicy) (item : list Z) : list Z :=
  if bool_decide (policy = Enforced) then compute_blake2b_array item else zeros 32.
Definition item_frame (c : Frames) (policy : ChecksumPolicy) (seq : Z) (item : list Z) : list Z :=
  serialize (pack_frame (tag_bytes c) seq (schema_defs c) item (item_checksum policy item)).

(** Where the sending thread is: at the head of its loop, waiting for an item,
    with a copy of the oldest item, with its frame, or about to free its slot. *)
Inductive SendPc :=
  | SLoop | SWaiting | SPacking (item : list Z) | SSending (frame : list Z) | SAdvancing | SExited.

(** What [socket.send] answers; the socket is open while the thread runs. *)
Inductive SendResult := SendOk | SendAgain | SendError.

Definition send_thread_step (c : Frames) (send_depth : nat) (policy : ChecksumPolicy)
    (shutdown_requested : bool) (sr : SendResult) (pc : SendPc) (tx : Tx) : option (SendPc * Tx) :=
  let r := send_ring tx in
  match pc with
  | SLoop => Some (if shutdown_requested then SExited else SWaiting, tx)
  | SWaiting =>
      if (ring_count r =? 0)%nat then
        if send_stop tx || shutdown_requested then Some (SExited, tx) else None
      else Some (SPacking (ring_front r), tx)
  | SPacking item => Some (SSending (item_frame c policy (send_seq tx) item), tx <| send_seq ::= u64_succ |>)
  | SSending frame =>
      match sr with
      | SendOk => Some (SAdvancing, tx)
      | SendAgain =>
          if send_stop tx then Some (SAdvancing, tx <| send_drop_count ::= u64_succ |>)
          else Some (SSending frame, tx <| send_retry_count ::= u64_succ |>)
      | SendError => Some (SAdvancing, tx <| send_drop_count ::= u64_succ |>)
      end
  | SAdvancing => Some (SLoop, tx <| send_ring := ring_pop send_depth r |>)
  | SExited => None
  end.

End with_libraries.

(** ** What a ring holds *)

Definition ring_contents (depth : nat) (r : SlotRing) : list (list Z) :=
  (λ k, default [] (ring_slots r !! ((ring_head r + k) mod depth)%nat)) <$> seq 0 (ring_count r).

Definition ring_ok (depth : nat) (r : SlotRing) : Prop :=
  (0 < depth)%nat ∧ length (ring_slots r) = depth ∧ (ring_head r < depth)%nat ∧ (ring_count r ≤ depth)%nat ∧
  ring_tail r = ((ring_head r + ring_count r) mod depth)%nat.

(** A bounded queue that keeps the newest items. *)
Definition push_newest {A} (depth : nat) (x : A) (q : list A) : list A :=
  (if (length q <? depth)%nat then q else tail q) ++ [x].

Lemma mod_distinct d a b : (a < b < a + d)%nat → (a mod d ≠ b mod d)%nat.
Proof.
  intros Hb He. pose proof (Nat.div_mod_eq a d) as Ha. pose proof (Nat.div_mod_eq b d) as Hb'.
  rewrite He in Ha. assert (b - a = d * (b / d - a / d))%nat as Hd by nia.
  destruct (b / d - a / d)%nat as [|k] eqn:E; nia.
Qed.

Lemma ring_contents_length d r : length (ring_contents d r) = ring_count r.
Proof. unfold ring_contents. by rewrite length_fmap, length_seq. Qed.

Lemma new_ring_ok d sz : (0 < d)%nat → ring_ok d (new_ring d sz).
Proof.
  intros Hd. split_and!; cbn; try lia; [by rewrite length_replicate|]. symmetry. by apply Nat.Div0.mod_0_l.
Qed.

Lemma ring_store_ok d r x :
  ring_ok d r → (ring_count r < d)%nat →
  ring_ok d (ring_store d x (r <| ring_count := S (ring_count r) |>)) ∧
  ring_contents d (ring_store d x (r <| ring_count := S (ring_count r) |>)) = ring_contents d r ++ [x].
Proof.
  intros (Hd & Hl & Hh & Hc & Ht) Hlt. split.
  - split_and!; cbn; try lia; [by rewrite length_insert|]. rewrite Ht, Nat.Div0.add_mod_idemp_l. f_equal. lia.
  - unfold ring_contents, ring_store. cbn [ring_count ring_head ring_slots]. cbn -[seq].
    rewrite (seq_S (ring_count r) 0), fmap_app. f_equal.
    + apply list_fmap_ext. intros i k Hk. apply lookup_seq in Hk as [-> Hk]. cbn.
      rewrite list_lookup_insert_ne; [done|]. rewrite Ht. intros He. symmetry in He. revert He.
      apply mod_distinct. lia.
    + cbn. rewrite <- Ht. rewrite list_lookup_insert_eq; [done|]. rewrite Ht, Hl. by apply Nat.mod_upper_bound; lia.
Qed.

Lemma ring_pop_ok d r :
  ring_ok d r → (0 < ring_count r)%nat →
  ring_ok d (ring_pop d r) ∧ ring_contents d r = ring_front r :: ring_contents d (ring_pop d r).
Proof.
  intros (Hd & Hl & Hh & Hc & Ht) Hlt. split.
  - split_and!; cbn; try lia; [apply Nat.mod_upper_bound; lia|].
    rewrite Ht, Nat.Div0.add_mod_idemp_l. f_equal. lia.
  - unfold ring_contents, ring_pop, ring_front. destruct (ring_count r) as [|n] eqn:Hn; [lia|]. cbn.
    rewrite Nat.add_0_r, (Nat.mod_small (ring_head r) d Hh). f_equal. rewrite Nat.sub_0_r.
    rewrite <- fmap_S_seq, <- list_fmap_compose. apply list_fmap_ext. intros i k _. cbn.
    rewrite Nat.Div0.add_mod_idemp_l. by rewrite <- Nat.add_assoc.
Qed.

(** A full ring that stores loses its oldest item. *)
Lemma ring_overwrite_ok d r x :
  ring_ok d r → ring_count r = d →
  let r' := ring_store d x (r <| ring_head := ((ring_head r + 1) mod d)%nat |>) in
  ring_ok d r' ∧ ring_contents d r' = tail (ring_contents d r) ++ [x].
Proof.
  intros Hok Hfull. pose proof Hok as (Hd & _). destruct (ring_pop_ok d r Hok ltac:(lia)) as [Hp Hc].
  destruct (ring_store_ok d (ring_pop d r) x Hp) as [Hs Hs']; [cbn; lia|]. rewrite Hc. cbn [tail].
  assert ((ring_pop d r) <| ring_count := S (ring_count (ring_pop d r)) |>
          = r <| ring_head := ((ring_head r + 1) mod d)%nat |>) as He.
  { unfold ring_pop. destruct r as [s h t c]. cbn in *. f_equal. lia. }
  rewrite He in Hs, Hs'. by split.
Qed.

End ZmqQueue.
