(* ===== verification/ZmqQueueProps.v ===== *)
(** * What a ZeroMQ queue does with items

    Proved of [ZmqQueue]: a writer sends what was committed, in order and
    numbered, or counts it as dropped, whatever the interleaving of its caller,
    its thread and a stop; a reader delivers what it accepted, in order, and
    loses only the oldest items of a full ring; which frames a reader accepts;
    and what the counter of gaps counts. *)

From S2P Require Import Prelude.
From S2P Require Import ShmHeader.
From S2P Require Import Layout.
From S2P Require Import ZmqWire.
From S2P Require Import ZmqQueue.
Import ShmHeader FieldLayout ZmqWire ZmqQueue.

Module ZmqQueueProps.

Lemma u64_plus a b : u64 (u64 a + b) = u64 (a + b).
Proof. unfold u64. by rewrite Z.add_mod_idemp_l. Qed.

Lemma u64_succ_of_nat n : u64_succ (u64 (Z.of_nat n)) = u64 (Z.of_nat (S n)).
Proof. unfold u64_succ. rewrite u64_plus. f_equal. lia. Qed.

Section with_libraries.
Context `{!Msgpack} `{!Crypto}.

(** ** The writer *)

Inductive Caller := CIdle | CWaiting | CHolding.
Definition caller_after (a : Acquire) : Caller :=
  match a with Granted => CHolding | Refused => CIdle | Waits => CWaiting end.

(** A writing queue with its caller and its thread; and, to speak about them,
    the items committed so far, for each item the thread is done with whether
    it was sent, and the frames handed to the socket. *)
Record Writer := mkWriter {
  tx : Tx;
  pc : SendPc;
  caller : Caller;
  shutdown : bool;
  committed : list (list Z);
  outcomes : list bool;
  wire : list (list Z);
}.
#[global] Instance eta_writer : Eta Writer := λ w,
  mkWriter (tx w) (pc w) (caller w) (shutdown w) (committed w) (outcomes w) (wire w).

Section writer.
Context (c : Frames) (depth : nat) (overflow : OverflowPolicy) (policy : ChecksumPolicy).

Definition init_writer : Writer := mkWriter (new_tx depth (item_sz c)) SLoop CIdle false [] [] [].

(** What a step of the thread adds to the record of outcomes. *)
Definition note_outcome (sr : SendResult) (pc' : SendPc) (w : Writer) : Writer :=
  match pc w, pc', sr with
  | SSending frame, SAdvancing, SendOk => w <| outcomes ::= (λ o, o ++ [true]) |> <| wire ::= (λ l, l ++ [frame]) |>
  | SSending _, SAdvancing, _ => w <| outcomes ::= (λ o, o ++ [false]) |>
  | _, _, _ => w
  end.

Inductive wstep (w : Writer) : Writer → Prop :=
  | ws_acquire a t : caller w = CIdle → write_acquire overflow depth (item_sz c) (tx w) = (a, t) →
      wstep w (w <| tx := t |> <| caller := caller_after a |>)
  | ws_wait timed_out a t : caller w = CWaiting → write_wait depth (item_sz c) timed_out (tx w) = (a, t) →
      wstep w (w <| tx := t |> <| caller := caller_after a |>)
  | ws_fill b : caller w = CHolding → length b = item_sz c → wstep w (w <| tx ::= (λ t, t <| write_buf := b |>) |>)
  | ws_commit : caller w = CHolding →
      wstep w (w <| committed ::= (λ l, l ++ [write_buf (tx w)]) |> <| tx ::= write_commit depth |>
                 <| caller := CIdle |>)
  | ws_discard : caller w = CHolding → wstep w (w <| caller := CIdle |>)
  | ws_stop : wstep w (w <| tx ::= (λ t, t <| send_stop := true |>) |>)
  | ws_shutdown : wstep w (w <| shutdown := true |>)
  | ws_thread sr p t : send_thread_step c depth policy (shutdown w) sr (pc w) (tx w) = Some (p, t) →
      wstep w ((note_outcome sr p w) <| pc := p |> <| tx := t |>).

Definition wreachable : Writer → Prop := rtc wstep init_writer.

(** The frames of the items that were sent: item [k] has number [k]. *)
Definition sent_frames (items : list (list Z)) (outs : list bool) : list (list Z) :=
  concat (imap (λ k '(item, sent), if sent : bool then [item_frame c policy (u64 (Z.of_nat k)) item] else [])
            (zip items outs)).

#[local] Arguments sent_frames : simpl never.

Definition advancing (p : SendPc) : nat := match p with SAdvancing => 1 | _ => 0 end.
Definition sending (p : SendPc) : nat := match p with SSending _ => 1 | _ => 0 end.

Definition pc_ok (w : Writer) : Prop :=
  match pc w with
  | SPacking item => committed w !! length (outcomes w) = Some item
  | SSending f => ∃ item, committed w !! length (outcomes w) = Some item ∧
                          f = item_frame c policy (u64 (Z.of_nat (length (outcomes w)))) item
  | SAdvancing => (1 ≤ length (outcomes w))%nat
  | _ => True
  end.

Record WInv (w : Writer) : Prop := {
  w_ring : ring_ok depth (send_ring (tx w));
  w_done : (length (outcomes w) ≤ length (committed w))%nat;
  w_pc : pc_ok w;
  w_contents : ring_contents depth (send_ring (tx w)) =
               drop (length (outcomes w) - advancing (pc w)) (committed w);
  w_seq : send_seq (tx w) = u64 (Z.of_nat (length (outcomes w) + sending (pc w)));
  w_holding : caller w = CHolding → (ring_count (send_ring (tx w)) < depth)%nat;
  w_wire : wire w = sent_frames (committed w) (outcomes w);
  w_drops : send_drop_count (tx w) = u64 (Z.of_nat (length (filter (λ b : bool, b = false) (outcomes w))));
  w_sizes : Forall (λ b, length b = item_sz c) (write_buf (tx w) :: committed w);
}.

Lemma sent_frames_commit items outs x :
  (length outs ≤ length items)%nat → sent_frames (items ++ [x]) outs = sent_frames items outs.
Proof.
  intros Hl. unfold sent_frames. do 2 f_equal. revert outs Hl.
  induction items as [|y items IH]; intros [|o outs] Hl; cbn in *; try done; [lia|]. f_equal. apply IH. lia.
Qed.

Lemma sent_frames_outcome items outs item b :
  items !! length outs = Some item →
  sent_frames items (outs ++ [b]) =
  sent_frames items outs ++ (if b then [item_frame c policy (u64 (Z.of_nat (length outs))) item] else []).
Proof.
  intros Hi. assert (zip items (outs ++ [b]) = zip items outs ++ [(item, b)]) as Hz.
  { revert outs Hi. induction items as [|y items IH]; intros [|o outs] Hi; cbn in *; try done;
      [injection Hi as ->; by destruct items|]. f_equal. by apply IH. }
  assert (length (zip items outs) = length outs) as Hl.
  { rewrite length_zip_with. apply lookup_lt_Some in Hi. lia. }
  unfold sent_frames. rewrite Hz, imap_app, concat_app. f_equal. cbn. rewrite Hl, Nat.add_0_r, app_nil_r. done.
Qed.

Lemma winv_init : (0 < depth)%nat → WInv init_writer.
Proof.
  intros Hd. constructor; cbn; try done; try lia; [by apply new_ring_ok|].
  repeat constructor. apply length_replicate.
Qed.

(** A step that leaves the thread, the ring and the records alone. *)
Lemma winv_caller w t k :
  WInv w → send_ring t = send_ring (tx w) → send_seq t = send_seq (tx w) →
  send_drop_count t = send_drop_count (tx w) → length (write_buf t) = item_sz c →
  (k = CHolding → (ring_count (send_ring (tx w)) < depth)%nat) →
  WInv (w <| tx := t |> <| caller := k |>).
Proof.
  intros HI Hr Hs Hd Hb Hk. destruct HI as [H1 H2 H3 H4 H5 H6 H7 H8 H9].
  constructor; cbn; rewrite ?Hr, ?Hs, ?Hd; try done. apply Forall_cons in H9 as [_ H9]. by constructor.
Qed.

(** What an acquisition leaves of the queue, and when it is granted. *)
Definition untouched (t t' : Tx) : Prop :=
  send_ring t' = send_ring t ∧ send_seq t' = send_seq t ∧ send_drop_count t' = send_drop_count t ∧
  (write_buf t' = write_buf t ∨ write_buf t' = zeros (item_sz c)).

Lemma write_wait_spec timed_out t a t' :
  write_wait depth (item_sz c) timed_out t = (a, t') →
  untouched t t' ∧ (a = Granted → (ring_count (send_ring t) < depth)%nat).
Proof.
  unfold write_wait, refuse, grant, untouched. destruct (depth <=? _)%nat eqn:Hf; cbn.
  - destruct (send_stop t), timed_out; cbn; intros [= <- <-]; cbn; repeat split; auto; discriminate.
  - apply Nat.leb_gt in Hf. destruct (send_stop t); cbn; intros [= <- <-]; cbn; repeat split; auto.
Qed.

Lemma write_acquire_spec t a t' :
  write_acquire overflow depth (item_sz c) t = (a, t') →
  untouched t t' ∧ (a = Granted → (ring_count (send_ring t) < depth)%nat).
Proof.
  unfold write_acquire. destruct (send_stop t).
  { intros [= <- <-]. unfold untouched. repeat split; auto; discriminate. }
  destruct overflow; [apply write_wait_spec|]. unfold refuse, grant, untouched.
  destruct (depth <=? _)%nat eqn:Hf; intros [= <- <-]; cbn; repeat split; auto; [discriminate|].
  intros _. by apply Nat.leb_gt.
Qed.

Lemma winv_acquired w a t :
  WInv w → untouched (tx w) t → (a = Granted → (ring_count (send_ring (tx w)) < depth)%nat) →
  WInv (w <| tx := t |> <| caller := caller_after a |>).
Proof.
  intros HI (Hr & Hs & Hd & Hb) Hg. apply winv_caller; try done.
  - pose proof (w_sizes _ HI) as [Hl _]%Forall_cons. destruct Hb as [-> | ->]; [done|apply length_replicate].
  - destruct a; cbn; try done. auto.
Qed.

Lemma winv_commit w :
  WInv w → caller w = CHolding →
  WInv (w <| committed ::= (λ l, l ++ [write_buf (tx w)]) |> <| tx ::= write_commit depth |> <| caller := CIdle |>).
Proof.
  intros HI Hh. pose proof (w_holding _ HI Hh) as Hlt. destruct HI as [H1 H2 H3 H4 H5 H6 H7 H8 H9].
  destruct (ring_store_ok _ _ (write_buf (tx w)) H1 Hlt) as [Hok Hc].
  assert (write_commit depth (tx w) = (tx w) <| send_ring := ring_store depth (write_buf (tx w))
            ((send_ring (tx w)) <| ring_count := S (ring_count (send_ring (tx w))) |>) |>) as Hw.
  { unfold write_commit. apply Nat.leb_gt in Hlt. by rewrite Hlt. }
  constructor; cbn; rewrite ?Hw; cbn; try done.
  - rewrite length_app. cbn. lia.
  - unfold pc_ok in *. cbn. destruct (pc w); try done; rewrite lookup_app_l; try done; [|destruct H3 as (? & H3 & _)];
      by eapply lookup_lt_Some.
  - cbn in Hc. rewrite Hc, H4. by rewrite drop_app_le by lia.
  - by rewrite sent_frames_commit.
  - apply Forall_cons in H9 as [Hb H9]. repeat constructor; try done. by apply Forall_app_2; [|repeat constructor].
Qed.

Lemma drops_snoc (outs : list bool) (b : bool) :
  length (filter (λ b : bool, b = false) (outs ++ [b])) =
  (length (filter (λ b : bool, b = false) outs) + if b then 0 else 1)%nat.
Proof. rewrite filter_app, length_app. by destruct b. Qed.

(** The thread is done with an item. *)
Lemma winv_done w sr f t (b : bool) :
  WInv w → pc w = SSending f → send_ring t = send_ring (tx w) → send_seq t = send_seq (tx w) →
  write_buf t = write_buf (tx w) →
  send_drop_count t = (if b then send_drop_count (tx w) else u64_succ (send_drop_count (tx w))) →
  (b = true ↔ sr = SendOk) →
  WInv ((note_outcome sr SAdvancing w) <| pc := SAdvancing |> <| tx := t |>).
Proof.
  intros HI Hp Hr Hs Hb Hd Hsr. pose proof (w_pc _ HI) as Hpc. unfold pc_ok in Hpc. rewrite Hp in Hpc.
  destruct Hpc as (item & Hi & ->). destruct HI as [H1 H2 H3 H4 H5 H6 H7 H8 H9]. rewrite Hp in *. cbn in H4, H5.
  assert (note_outcome sr SAdvancing w
          = w <| outcomes ::= (λ o, o ++ [b]) |>
              <| wire ::= (λ l, l ++ if b then [item_frame c policy (u64 (Z.of_nat (length (outcomes w)))) item] else []) |>)
    as ->.
  { unfold note_outcome. rewrite Hp. destruct b.
    - by rewrite (proj1 Hsr eq_refl).
    - destruct w. cbn. rewrite app_nil_r. destruct sr; [|done..]. discriminate (proj2 Hsr eq_refl). }
  assert (length (outcomes w) < length (committed w))%nat by (by eapply lookup_lt_Some).
  constructor; cbn; rewrite ?Hr, ?Hs, ?length_app; cbn; try done; try lia.
  - rewrite H4. f_equal. lia.
  - rewrite H5. do 2 f_equal. lia.
  - by rewrite H7, (sent_frames_outcome _ _ item).
  - rewrite Hd, H8, drops_snoc. destruct b; [by rewrite Nat.add_0_r|]. rewrite u64_succ_of_nat. do 2 f_equal. lia.
  - by rewrite Hb.
Qed.

Lemma winv_thread w sr p t :
  WInv w → send_thread_step c depth policy (shutdown w) sr (pc w) (tx w) = Some (p, t) →
  WInv ((note_outcome sr p w) <| pc := p |> <| tx := t |>).
Proof.
  intros HI. pose proof HI as [H1 H2 H3 H4 H5 H6 H7 H8 H9]. unfold send_thread_step. unfold pc_ok in H3.
  destruct (pc w) as [| |item|f| |] eqn:Hp.
  - intros [= <- <-]. unfold note_outcome. rewrite Hp.
    destruct (shutdown w); constructor; cbn; try done.
  - destruct (ring_count (send_ring (tx w)) =? 0)%nat eqn:Hz.
    + destruct (_ || _); [|done]. intros [= <- <-]. unfold note_outcome. rewrite Hp. by constructor.
    + intros [= <- <-]. unfold note_outcome. rewrite Hp. constructor; cbn; try done.
      unfold pc_ok. cbn. apply Nat.eqb_neq in Hz.
      destruct (ring_pop_ok _ _ H1 ltac:(lia)) as [_ Hc]. rewrite H4 in Hc. cbn in Hc. rewrite Nat.sub_0_r in Hc.
      rewrite <- (Nat.add_0_r (length (outcomes w))), <- lookup_drop. by rewrite Hc.
  - intros [= <- <-]. unfold note_outcome. rewrite Hp. cbn in H4, H5. rewrite Nat.add_0_r in H5.
    constructor; cbn; try done.
    + unfold pc_ok. cbn. exists item. split; [done|]. by rewrite H5.
    + rewrite H5, u64_succ_of_nat. do 2 f_equal. lia.
  - destruct sr; cbn.
    + intros [= <- <-]. by apply (winv_done w SendOk f (tx w) true).
    + destruct (send_stop (tx w)); intros [= <- <-].
      * by apply (winv_done w SendAgain f _ false).
      * unfold note_outcome. rewrite Hp. by constructor; cbn.
    + intros [= <- <-]. by apply (winv_done w SendError f _ false).
  - intros [= <- <-]. unfold note_outcome. rewrite Hp. cbn in H4, H5.
    assert (0 < ring_count (send_ring (tx w)))%nat as Hpos.
    { rewrite <- (ring_contents_length depth), H4, length_drop. lia. }
    destruct (ring_pop_ok _ _ H1 Hpos) as [Hok Hc]. constructor; cbn; try done.
    + transitivity (drop 1 (ring_contents depth (send_ring (tx w)))); [by rewrite Hc|].
      rewrite H4, drop_drop. f_equal. lia.
    + intros Hh. specialize (H6 Hh). lia.
  - done.
Qed.

Lemma winv_step w w' : WInv w → wstep w w' → WInv w'.
Proof.
  intros HI Hst. pose proof (w_sizes _ HI) as [Hb Hbs]%Forall_cons. destruct Hst.
  - destruct (write_acquire_spec _ _ _ H2). by apply winv_acquired.
  - destruct (write_wait_spec _ _ _ _ H2). by apply winv_acquired.
  - apply (winv_caller w _ (caller w)); try done. apply HI.
  - by apply winv_commit.
  - apply (winv_caller w (tx w) CIdle); done.
  - apply (winv_caller w _ (caller w)); try done. apply HI.
  - destruct HI. by constructor.
  - by eapply winv_thread.
Qed.

Lemma winv_reachable w : (0 < depth)%nat → wreachable w → WInv w.
Proof.
  intros Hd. unfold wreachable. revert w. apply (rtc_ind_r WInv); [by apply winv_init|].
  intros w w' _ Hst HI. by eapply winv_step.
Qed.

End writer.

(** C13 What a writing queue does with the items committed to it, whatever the
    interleaving of its caller, its thread, stops and what the socket answers:
    the frames handed to the socket are those of the items sent, in the order of
    their commits and numbered by it; every item before them was sent or counted
    as dropped; the ring holds the rest, never more than its depth; and a commit
    after a granted acquisition is never lost. *)
Theorem writer_sends_in_order c depth overflow policy w :
  (0 < depth)%nat → wreachable c depth overflow policy w →
  let n := length (outcomes w) in
  wire w = sent_frames c policy (committed w) (outcomes w) ∧
  ring_contents depth (send_ring (tx w)) = drop (n - advancing (pc w)) (committed w) ∧
  (length (committed w) ≤ n + depth)%nat ∧
  send_drop_count (tx w) = u64 (Z.of_nat (length (filter (λ b : bool, b = false) (outcomes w)))) ∧
  (caller w = CHolding →
   ring_contents depth (send_ring (write_commit depth (tx w))) =
   ring_contents depth (send_ring (tx w)) ++ [write_buf (tx w)]).
Proof.
  intros Hd HI%winv_reachable; [|done]. cbv zeta. pose proof (w_ring _ _ _ _ HI) as Hr.
  split_and!; [apply HI|apply HI| |apply HI|].
  - pose proof (f_equal length (w_contents _ _ _ _ HI)) as Hl. rewrite ring_contents_length, length_drop in Hl.
    destruct Hr as (_ & _ & _ & Hc & _). lia.
  - intros Hh. pose proof (w_holding _ _ _ _ HI Hh) as Hlt. unfold write_commit.
    rewrite (proj2 (Nat.leb_gt _ _) Hlt). cbn. apply (ring_store_ok _ _ _ Hr Hlt).
Qed.

(** ** The reader *)

(** The item a message carries for a reader, if it accepts it. *)
Definition decode (c : Frames) (policy : ChecksumPolicy) (msg : list Z) : option (list Z) :=
  if max_frame_sz c <=? Z.of_nat (length msg) then None
  else
    env ← unpack msg ≫= unpack_envelope;
    if negb (length (payload env) =? length (schema_defs c))%nat ||
       (bool_decide (is_Some (schema_tag c)) && negb (bool_decide (recv_tag env = tag_bytes c))) then None
    else
      item ← unpack_payload (payload env) (schema_defs c) (zeros (item_sz c));
      if negb (bool_decide (policy = ChecksumNone)) && negb (verify_blake2b (frame_checksum env) item) then None
      else Some item.

(** What the rest of the reader keeps while a message comes in. *)
Definition same_ring (r r' : Rx) : Prop :=
  recv_ring r' = recv_ring r ∧ recv_overflow_count r' = recv_overflow_count r.

Lemma note_seq_ring s r : same_ring r (note_seq s r).
Proof. unfold note_seq. by case_match. Qed.

Lemma recv_message_decode c depth policy msg r :
  match decode c policy msg with
  | None => same_ring r (recv_message c depth policy msg r)
  | Some item => ∃ r1, same_ring r r1 ∧ recv_message c depth policy msg r = push_received depth item r1
  end.
Proof.
  unfold decode, recv_message. destruct (max_frame_sz c <=? _); [done|].
  destruct (unpack msg ≫= unpack_envelope) as [env|]; [|done]. cbn [mbind option_bind].
  destruct (negb _); [done|]. cbn [orb]. destruct (bool_decide _ && _); [done|].
  pose proof (note_seq_ring (frame_seq env) r) as Hn.
  destruct (unpack_payload _ _ _) as [item|]; cbn; [|exact Hn].
  destruct (_ && _); [exact Hn|]. by exists (note_seq (frame_seq env) r).
Qed.

(** A reading queue; the items it has accepted and those it has delivered. *)
Record Reader := mkReader { rx : Rx; accepted : list (list Z); delivered : list (list Z) }.
#[global] Instance eta_reader : Eta Reader := λ r, mkReader (rx r) (accepted r) (delivered r).

Section reader.
Context (c : Frames) (depth : nat) (policy : ChecksumPolicy).

Definition init_reader : Reader := mkReader (new_rx depth (item_sz c)) [] [].

Inductive rstep (r : Reader) : Reader → Prop :=
  | rs_message msg :
      rstep r (r <| rx ::= recv_message c depth policy msg |>
                 <| accepted ::= (λ l, l ++ option_list (decode c policy msg)) |>)
  | rs_read timed_out o q : read_acquire depth timed_out (rx r) = Some (o, q) →
      rstep r (r <| rx := q |> <| delivered ::= (λ l, l ++ option_list o) |>)
  | rs_stop : rstep r (r <| rx ::= (λ q, q <| recv_stop := true |>) |>).

Definition rreachable : Reader → Prop := rtc rstep init_reader.

Record RInv (r : Reader) : Prop := {
  r_ring : ring_ok depth (recv_ring (rx r));
  r_order : sublist (delivered r ++ ring_contents depth (recv_ring (rx r))) (accepted r);
  r_newest : ∃ before, accepted r = before ++ ring_contents depth (recv_ring (rx r));
  r_count : ∃ lost, (length (accepted r) = length (delivered r) + lost + ring_count (recv_ring (rx r)))%nat ∧
                    recv_overflow_count (rx r) = u64 (Z.of_nat lost);
}.

Lemma push_received_spec item q :
  ring_ok depth (recv_ring q) →
  let q' := push_received depth item q in
  ring_ok depth (recv_ring q') ∧
  ring_contents depth (recv_ring q') = push_newest depth item (ring_contents depth (recv_ring q)) ∧
  recv_overflow_count q' =
    (if (ring_count (recv_ring q) <? depth)%nat then recv_overflow_count q else u64_succ (recv_overflow_count q)).
Proof.
  intros Hok. cbv zeta. unfold push_received, push_newest. rewrite ring_contents_length.
  pose proof Hok as (_ & _ & _ & Hc & _).
  destruct (Nat.leb_spec depth (ring_count (recv_ring q))); destruct (Nat.ltb_spec (ring_count (recv_ring q)) depth);
    try lia; cbn.
  - destruct (ring_overwrite_ok depth (recv_ring q) item Hok ltac:(lia)) as [? ?]. done.
  - destruct (ring_store_ok depth (recv_ring q) item Hok) as [? ?]; [done|]. done.
Qed.

Lemma rinv_init : (0 < depth)%nat → RInv init_reader.
Proof.
  intros Hd. constructor; cbn; [by apply new_ring_ok|done|by exists []|by exists 0%nat].
Qed.

Lemma rinv_step r r' : RInv r → rstep r r' → RInv r'.
Proof.
  intros [H1 H2 [before H3] (lost & H4 & H5)] Hst. destruct Hst as [msg|timed_out o q Hq|].
  - pose proof (recv_message_decode c depth policy msg (rx r)) as Hm.
    destruct (decode c policy msg) as [item|]; cbn [option_list].
    + destruct Hm as (q & (Hr & Ho) & Hm). rewrite <- Hr in *.
      destruct (push_received_spec item q H1) as (P1 & P2 & P3).
      pose proof (ring_contents_length depth (recv_ring q)) as Hlen. pose proof H1 as (Hpos & _ & _ & Hle & _).
      pose proof (f_equal length P2) as Hlen'. rewrite ring_contents_length in Hlen'.
      unfold push_newest in P2, Hlen'. rewrite Hlen in P2, Hlen'. rewrite length_app in Hlen'. cbn [length] in Hlen'.
      constructor; cbn; rewrite ?Hm; [done| | |].
      * rewrite P2. destruct (ring_count (recv_ring q) <? depth)%nat.
        -- rewrite app_assoc. by apply sublist_app.
        -- rewrite app_assoc. apply sublist_app; [|done]. etrans; [|exact H2]. apply sublist_app; [done|].
           destruct (ring_contents _ _); cbn; [done|]. by apply sublist_cons.
      * rewrite P2, H3. destruct (ring_count (recv_ring q) <? depth)%nat.
        -- exists before. by rewrite app_assoc.
        -- destruct (ring_contents depth (recv_ring q)) as [|y l]; cbn; [by exists before; rewrite app_nil_r|].
           exists (before ++ [y]). by rewrite <- !app_assoc.
      * destruct (ring_count (recv_ring q) <? depth)%nat eqn:Hlt; rewrite ?Hlt in Hlen'.
        -- exists lost. rewrite length_app, P3, Ho. cbn. split; [lia|done].
        -- apply Nat.ltb_ge in Hlt. exists (S lost).
           rewrite length_app, P3, Ho, H5, u64_succ_of_nat. cbn. split; [|done].
           rewrite length_tl in Hlen'. lia.
    + destruct Hm as [Hr Ho].
      constructor; cbn; rewrite ?app_nil_r, ?Hr, ?Ho; [done|done|by exists before|by exists lost].
  - unfold read_acquire in Hq. destruct (ring_count (recv_ring (rx r)) =? 0)%nat eqn:Hz.
    + destruct (_ || _); [|done]. injection Hq as <- <-.
      constructor; cbn; rewrite ?app_nil_r; [done|done|by exists before|by exists lost].
    + injection Hq as <- <-. apply Nat.eqb_neq in Hz.
      destruct (ring_pop_ok _ _ H1 ltac:(lia)) as [P1 P2]. rewrite P2 in H2, H3. cbn.
      constructor; cbn -[ring_contents ring_pop]; [done| | |].
      * by rewrite <- app_assoc.
      * exists (before ++ [ring_front (recv_ring (rx r))]). by rewrite <- app_assoc.
      * exists lost. rewrite length_app. cbn. split; [lia|done].
  - constructor; cbn; [done|done|by exists before|by exists lost].
Qed.

End reader.

(** C15 What a reading queue delivers, whatever messages come in between reads:
    the items it accepted, in their order; the ring holds the newest of them,
    oldest first; and every accepted item is delivered, in the ring or counted
    as an overflow. *)
Theorem reader_keeps_the_newest c depth policy r :
  (0 < depth)%nat → rreachable c depth policy r →
  let held := ring_contents depth (recv_ring (rx r)) in
  sublist (delivered r ++ held) (accepted r) ∧ (length held ≤ depth)%nat ∧
  (∃ before, accepted r = before ++ held) ∧
  (∃ lost, (length (accepted r) = length (delivered r) + lost + length held)%nat ∧
           recv_overflow_count (rx r) = u64 (Z.of_nat lost)).
Proof.
  intros Hd Hr. assert (RInv depth r) as [H1 H2 H3 H4].
  { revert r Hr. apply (rtc_ind_r (RInv depth)); [by apply rinv_init|].
    intros r r' _ Hst HI. by eapply rinv_step. }
  cbv zeta. rewrite ring_contents_length. split_and!; try done. by destruct H1 as (_ & _ & _ & ? & _).
Qed.

End with_libraries.

End ZmqQueueProps.
