(* ===== verification/ZmqDelivery.v ===== *)
(** * From one ZeroMQ queue to another

    Composes the writer and the reader of [ZmqQueueProps] over frames that the
    reader's settings fit: which items arrive under which checksum policies,
    exactly which items of all those sent are accepted, and what the counter of
    gaps says of one writer and of two. *)

From S2P Require Import Prelude.
From S2P Require Import ShmHeader.
From S2P Require Import Layout.
From S2P Require Import ZmqWire.
From S2P Require Import ZmqQueue.
From S2P Require Import ZmqQueueProps.
From Stdlib Require Import Sorting.Sorted.
Import ShmHeader FieldLayout ZmqWire ZmqQueue ZmqQueueProps.

Module ZmqDelivery.

(** Settings as the factories make them. *)
Record FramesOk (c : Frames) : Prop := {
  frames_layout : layout_ok (Z.of_nat (item_sz c)) (schema_defs c);
  frames_limit : max_frame_sz c = max_frame_size (schema_defs c);
  frames_tag : length (tag_bytes c) = 8%nat;
  frames_fields : Z.of_nat (length (schema_defs c)) < 65536;
}.

Section delivery.
Context `{!Msgpack} `{!Crypto}.

(** BLAKE2b-256 does not fail. *)
Definition hash_works : Prop := ∀ x, ∃ h, crypto_generichash x = Some h ∧ length h = 32%nat.

(** An item as a writer of these settings has it. *)
Definition item_ok (c : Frames) (slot : list Z) : Prop :=
  length slot = item_sz c ∧ scalars_kept (schema_defs c) slot.

Definition policy_accepts (wp rp : ChecksumPolicy) (slot item : list Z) : bool :=
  bool_decide (rp = ChecksumNone) || bool_decide (item_checksum wp slot = compute_blake2b_array item).

Definition item_accepted (c : Frames) (wp rp : ChecksumPolicy) (slot : list Z) : Prop :=
  policy_accepts wp rp slot (clear_padding (schema_defs c) slot) = true.
#[global] Instance item_accepted_dec c wp rp slot : Decision (item_accepted c wp rp slot).
Proof. unfold item_accepted. apply _. Defined.

Context (laws : MsgpackLaws) (hash : hash_works).

Lemma item_checksum_length wp slot : length (item_checksum wp slot) = 32%nat.
Proof.
  unfold item_checksum. case_bool_decide; [|apply length_replicate].
  unfold compute_blake2b_array. destruct (hash slot) as (h & -> & Hl). done.
Qed.

Lemma verify_works stored item : verify_blake2b stored item = bool_decide (stored = compute_blake2b_array item).
Proof. unfold verify_blake2b, compute_blake2b_array. destruct (hash item) as (h & -> & _). done. Qed.

(** A frame of a writer at a reader of the same settings. *)
Lemma recv_item_frame c wp rp depth seq slot r :
  FramesOk c → item_ok c slot → 0 ≤ seq < 2 ^ 64 →
  let item := clear_padding (schema_defs c) slot in
  decode c rp (item_frame c wp seq slot) = (if policy_accepts wp rp slot item then Some item else None) ∧
  recv_message c depth rp (item_frame c wp seq slot) r =
    if policy_accepts wp rp slot item then push_received depth item (note_seq seq r)
    else (note_seq seq r) <| checksum_error_count ::= u64_succ |>.
Proof.
  intros [Hlay Hlim Htag Hn] [Hlen Hk] Hq. cbv zeta.
  pose proof (item_checksum_length wp slot) as Hc.
  assert (Z.of_nat (item_sz c) = Z.of_nat (length slot)) as Hsz by (by rewrite Hlen).
  pose proof (frame_size _ (tag_bytes c) seq _ slot _ laws Htag Hc Hlay Hsz Hk Hn) as Hfs.
  destruct (frame_roundtrip _ (tag_bytes c) seq _ slot _ laws Htag Hc Hq Hlay Hsz Hk)
    as (env & Hu & He & Ht & Hs & Hck & Hpl & Hp).
  unfold decode, recv_message, item_frame. rewrite Hlim, (proj2 (Z.leb_gt _ _) Hfs), Hu. cbn [mbind option_bind].
  rewrite He. cbn [mbind option_bind].
  rewrite Hpl, Nat.eqb_refl, Ht, (bool_decide_true (tag_bytes c = tag_bytes c)), andb_false_r by done.
  cbn [negb orb]. rewrite Hs, <- Hlen. unfold zeros. rewrite Hp. cbn [mbind option_bind]. rewrite Hck, verify_works.
  unfold policy_accepts. destruct (bool_decide (rp = ChecksumNone)); [done|].
  by destruct (bool_decide (item_checksum _ _ = _)).
Qed.

(** The items a writer has sent. *)
Definition sent_items (w : Writer) : list (list Z) :=
  (filter (λ x : list Z * bool, x.2 = true) (zip (committed w) (outcomes w))).*1.

(** The items of a reader's frames. *)
Lemma omap_sent_frames c wp rp items outs k :
  FramesOk c → Forall (item_ok c) items →
  omap (decode c rp)
    (concat (imap (λ i '(item, sent), if sent : bool then [item_frame c wp (u64 (Z.of_nat (k + i))) item] else [])
       (zip items outs)))
  = clear_padding (schema_defs c) <$>
      filter (item_accepted c wp rp) (filter (λ x : list Z * bool, x.2 = true) (zip items outs)).*1.
Proof.
  intros HF Hi. revert outs k. induction Hi as [|x items Hx Hi IH]; intros [|o outs] k; try done.
  cbn [zip zip_with imap]. cbn [concat].
  rewrite omap_app, Nat.add_0_r.
  specialize (IH outs (S k)).
  rewrite (imap_ext _ (λ i '(item, sent), if sent : bool then [item_frame c wp (u64 (Z.of_nat (S k + i))) item] else []))
    by (intros i [y []] _; [cbn; do 4 f_equal; lia|done]).
  rewrite IH. destruct o; [|done]. rewrite (filter_cons_True _ (x, true)) by done. cbn [omap list_omap].
  pose proof (u64_range (Z.of_nat k)) as Hr.
  destruct (recv_item_frame c wp rp 0 (u64 (Z.of_nat k)) x (new_rx 0 0) HF Hx) as [-> _];
    [unfold u64_max, u64_modulus in Hr; lia|].
  cbn [fmap list_fmap]. destruct (policy_accepts wp rp x _) eqn:Ha; cbn [app].
  - by rewrite filter_cons_True.
  - rewrite filter_cons_False; [done|]. cbn. unfold item_accepted. by rewrite Ha.
Qed.

(** Readers that check nothing accept everything, and what a writer stamped is
    accepted when its padding is clear. *)
Lemma item_accepted_all c wp rp items :
  rp = ChecksumNone ∨ (wp = Enforced ∧ Forall (λ x, clear_padding (schema_defs c) x = x) items) →
  filter (item_accepted c wp rp) items = items.
Proof.
  intros Hc. apply filter_all. intros x Hx. unfold item_accepted, policy_accepts.
  destruct Hc as [->|[-> Hf]]; [done|]. rewrite Forall_forall in Hf. rewrite (Hf x Hx).
  apply orb_true_iff. right. by apply bool_decide_eq_true.
Qed.
End delivery.

(** C20 What a reader accepts of a frame a writer of the same settings sent: the
    item with its padding cleared, if the reader checks nothing or the checksum
    in the frame is that item's.  So a writer that stamps its items gets those
    through whose padding is clear; one that does not stamp them gets nothing
    through to a reader that checks, under the policy Manual included. *)
Theorem item_delivery `{!Msgpack} `{!Crypto} c wp rp depth seq slot r :
  MsgpackLaws → hash_works → FramesOk c → item_ok c slot → 0 ≤ seq < 2 ^ 64 →
  let item := clear_padding (schema_defs c) slot in
  let after := recv_message c depth rp (item_frame c wp seq slot) r in
  (policy_accepts wp rp slot item = true → after = push_received depth item (note_seq seq r)) ∧
  (policy_accepts wp rp slot item = false →
   after = (note_seq seq r) <| checksum_error_count ::= u64_succ |>) ∧
  (wp = Enforced → item = slot → policy_accepts wp rp slot item = true) ∧
  (wp ≠ Enforced → rp ≠ ChecksumNone → compute_blake2b_array item ≠ zeros 32 →
   policy_accepts wp rp slot item = false).
Proof.
  intros HL HH HF Hi Hq item after. destruct (recv_item_frame HL HH c wp rp depth seq slot r HF Hi Hq) as [_ Hm].
  fold item in Hm. fold after in Hm. rewrite Hm. split_and!.
  - by intros ->.
  - by intros ->.
  - intros -> He. unfold policy_accepts. rewrite He. apply orb_true_iff. right. by apply bool_decide_eq_true.
  - intros Hw Hr Hz. unfold policy_accepts, item_checksum.
    rewrite (bool_decide_eq_false_2 (rp = _)), (bool_decide_eq_false_2 (wp = _)) by done.
    apply bool_decide_eq_false_2. by intros He%symmetry.
Qed.

(** C16 A writer and a reader of the same frames form a queue: when the reader
    takes the frames the writer has handed to its socket, it gets, in the order
    they were committed and with their padding cleared, exactly those items sent
    whose checksum in the frame is that of the cleared item, or all of them when
    it checks nothing.  So nothing is lost between a writer that stamps items
    whose padding is clear and any reader; a writer that does not stamp loses
    its items at a reader that checks ([item_delivery]). *)
Theorem sent_is_accepted `{!Msgpack} `{!Crypto} c wdepth overflow wp rp w :
  MsgpackLaws → hash_works → FramesOk c → (0 < wdepth)%nat → wreachable c wdepth overflow wp w →
  Forall (item_ok c) (committed w) →
  omap (decode c rp) (wire w) = clear_padding (schema_defs c) <$> filter (item_accepted c wp rp) (sent_items w) ∧
  (rp = ChecksumNone ∨ (wp = Enforced ∧ Forall (λ x, clear_padding (schema_defs c) x = x) (sent_items w)) →
   omap (decode c rp) (wire w) = clear_padding (schema_defs c) <$> sent_items w).
Proof.
  intros HL HH HF Hd Hr%winv_reachable Hi; [|done].
  assert (omap (decode c rp) (wire w) = clear_padding (schema_defs c) <$> filter (item_accepted c wp rp) (sent_items w)) as ->.
  { rewrite (w_wire _ _ _ _ Hr). by apply (omap_sent_frames HL HH c wp rp _ _ 0). }
  split; [done|]. intros Ha. by rewrite (item_accepted_all c wp rp _ Ha).
Qed.

(** ** Gaps *)

Section gaps.
Context `{!Msgpack} `{!Crypto} (laws : MsgpackLaws) (hash : hash_works).

Lemma gap_after c wp rp depth seq slot r :
  FramesOk c → item_ok c slot → 0 ≤ seq < u64_max →
  let r' := recv_message c depth rp (item_frame c wp seq slot) r in
  seq_initialized r' = true ∧ expected_seq r' = seq + 1 ∧
  recv_gap_count r' = if seq_initialized r && (expected_seq r <? seq)
                      then u64 (recv_gap_count r + (seq - expected_seq r)) else recv_gap_count r.
Proof.
  intros HF Hi Hq. cbv zeta.
  destruct (recv_item_frame laws hash c wp rp depth seq slot r HF Hi) as [_ ->].
  { unfold u64_max, u64_modulus in Hq. lia. }
  assert (u64_succ seq = seq + 1) as Hs by (by apply u64_succ_id).
  destruct (policy_accepts _ _ _ _); unfold push_received, note_seq; repeat case_match; cbn; by rewrite ?Hs.
Qed.

Lemma numbers_above q (frames : list (Z * list Z)) :
  Forall (Z.lt q) frames.*1 → Forall (λ f, q + 1 ≤ f.1) frames.
Proof. rewrite Forall_fmap. intros H1. eapply Forall_impl; [exact H1|]. intros f Hf. cbn in Hf. lia. Qed.

(** Frames of one writer with the given numbers. *)
Definition receive_all c wp rp depth (frames : list (Z * list Z)) (r : Rx) : Rx :=
  foldl (λ r '(seq, slot), recv_message c depth rp (item_frame c wp seq slot) r) r frames.

Lemma gaps_add_up c wp rp depth frames r last :
  FramesOk c → Forall (λ f, item_ok c f.2 ∧ 0 ≤ f.1 < u64_max) frames →
  StronglySorted Z.lt frames.*1 → seq_initialized r = true → 0 ≤ expected_seq r → 0 ≤ recv_gap_count r →
  Forall (λ f, expected_seq r ≤ f.1) frames → recv_gap_count r + (u64_max + 1 - expected_seq r) ≤ u64_max →
  list.last frames.*1 = Some last →
  recv_gap_count (receive_all c wp rp depth frames r) =
  recv_gap_count r + (last + 1 - expected_seq r) - Z.of_nat (length frames).
Proof.
  intros HF. revert r. induction frames as [|[q slot] frames IH]; intros r Hf Hs Hi He Hg Hle Hb Hlast; [done|].
  apply Forall_cons in Hf as [[Hok Hq] Hf]. cbn in Hok, Hq.
  apply StronglySorted_inv in Hs as [Hs' Hall]. apply Forall_cons in Hle as [Hle1 Hle]. cbn in Hle1.
  change (receive_all c wp rp depth ((q, slot) :: frames) r) with
    (receive_all c wp rp depth frames (recv_message c depth rp (item_frame c wp q slot) r)).
  destruct (gap_after c wp rp depth q slot r HF Hok Hq) as (Hi' & He' & Hg').
  rewrite Hi in Hg'. cbn [andb] in Hg'.
  assert (recv_gap_count (recv_message c depth rp (item_frame c wp q slot) r)
          = recv_gap_count r + (q - expected_seq r)) as Hgq.
  { rewrite Hg'. destruct (expected_seq r <? q) eqn:E; [apply u64_id; lia|]. apply Z.ltb_ge in E. lia. }
  destruct frames as [|[q2 slot2] frames].
  { cbn in Hlast. injection Hlast as <-. cbn. rewrite Hgq. lia. }
  rewrite IH; clear IH; rewrite ?Hi', ?He', ?Hgq; try done; try lia.
  - cbn [length]. lia.
  - exact (numbers_above q ((q2, slot2) :: frames) Hall).
Qed.

End gaps.

(** The counter of gaps counts the frames of one writer that did not come in
    between the first and the last that did.  With two writers on one socket,
    as fan-in has them, it also counts frames nobody lost: one frame of a writer
    that is behind makes the next frame of the other look like a gap. *)
Theorem gap_counter `{!Msgpack} `{!Crypto} c wp rp depth :
  MsgpackLaws → hash_works → FramesOk c →
  (∀ frames first last, Forall (λ f, item_ok c f.2 ∧ 0 ≤ f.1 < u64_max) frames →
     StronglySorted Z.lt frames.*1 → head frames.*1 = Some first → list.last frames.*1 = Some last →
     recv_gap_count (receive_all c wp rp depth frames (new_rx depth (item_sz c))) =
     last + 1 - first - Z.of_nat (length frames)) ∧
  (∀ a b x y z, Forall (item_ok c) [x; y; z] → 0 ≤ b → b < a → a + 1 < u64_max →
     recv_gap_count (receive_all c wp rp depth [(a, x); (b, y); (a + 1, z)] (new_rx depth (item_sz c))) = a - b).
Proof.
  intros HL HH HF. split.
  - intros [|[q slot] frames] first last Hf Hs Hfirst Hlast; [done|]. cbn in Hfirst. injection Hfirst as <-.
    apply Forall_cons in Hf as [[Hok Hq] Hf]. cbn in Hok, Hq. apply StronglySorted_inv in Hs as [Hs' Hall].
    change (receive_all c wp rp depth ((q, slot) :: frames) (new_rx depth (item_sz c))) with
      (receive_all c wp rp depth frames (recv_message c depth rp (item_frame c wp q slot) (new_rx depth (item_sz c)))).
    destruct (gap_after HL HH c wp rp depth q slot (new_rx depth (item_sz c)) HF Hok Hq) as (Hi' & He' & Hg').
    cbn [new_rx seq_initialized andb recv_gap_count] in Hg'.
    destruct frames as [|f frames]; [cbn in *; injection Hlast as <-; rewrite Hg'; lia|].
    rewrite (gaps_add_up HL HH c wp rp depth (f :: frames) _ last); rewrite ?Hi', ?He', ?Hg'; try done; try lia.
    + cbn [length]. lia.
    + exact (numbers_above q (f :: frames) Hall).
  - intros a b x y z Hxyz Hb Hab Ha. apply Forall_cons in Hxyz as [Hx Hxyz]. apply Forall_cons in Hxyz as [Hy [Hz _]%Forall_cons].
    unfold receive_all. cbn [foldl]. set (r0 := new_rx depth (item_sz c)).
    destruct (gap_after HL HH c wp rp depth a x r0 HF Hx ltac:(lia)) as (Hi1 & He1 & Hg1).
    set (r1 := recv_message c depth rp (item_frame c wp a x) r0) in *.
    destruct (gap_after HL HH c wp rp depth b y r1 HF Hy ltac:(lia)) as (Hi2 & He2 & Hg2).
    set (r2 := recv_message c depth rp (item_frame c wp b y) r1) in *.
    destruct (gap_after HL HH c wp rp depth (a + 1) z r2 HF Hz ltac:(lia)) as (_ & _ & ->).
    rewrite Hi1, He1, Hg1, (proj2 (Z.ltb_ge (a + 1) b)) in Hg2 by lia. cbn in Hg2. rewrite Hi2, He2, Hg2. cbn [andb].
    rewrite (proj2 (Z.ltb_lt (b + 1) (a + 1))) by lia. rewrite u64_id; lia.
Qed.

End ZmqDelivery.
