(* ===== verification/ZmqControl.v ===== *)
(** * Making, approving and starting a ZeroMQ queue

    Models the control side of [src/utils/hub/hub_zmq_queue.cpp]: the factories,
    the allowlist of a binding queue and the peers of a dialing one, the
    approval the broker's answers drive, the deferred dial of a fan-in producer,
    [start] and [stop]; with [peer_admission.hpp] and the routing of domains of
    [domain_routing_table.cpp] and [zap_router.cpp].  ZeroMQ and the lifecycle
    manager answer as the record [Net] says; the key store is [KeyStore]. *)

From S2P Require Import Prelude.
From S2P Require Import Json.
From S2P Require Import Entries.
From S2P Require Import ShmHeader.
From S2P Require Import Layout.
From S2P Require Import KeyStore.
From S2P Require Import AttachProtocol.
From S2P Require Import ZmqWire.
From S2P Require Import ZmqQueue.
Import Json Entries ShmHeader FieldLayout ZmqWire ZmqQueue.

Module ZmqControl.

Inductive Mode := Read | Write.
Inductive SocketPattern := PushPull | PubSub.
Inductive Mechanism := Uninitialized | Curve | ShmCapability.
#[global] Instance mode_eq_dec : EqDecision Mode.
Proof. solve_decision. Defined.
#[global] Instance pattern_eq_dec : EqDecision SocketPattern.
Proof. solve_decision. Defined.
#[global] Instance mechanism_eq_dec : EqDecision Mechanism.
Proof. solve_decision. Defined.

(** ** Peers *)

Record ProducerPeer := mkPeer { peer_uid : string; peer_endpoint : string; peer_pubkey : string }.

(** A [PeerIdentity] is its kind and its data. *)
Definition PeerIdentity : Type := string * string.
Record PeerAllowlist := mkAllowlist { peers : gset PeerIdentity; unrestricted : bool }.

Definition contains (l : PeerAllowlist) (p : PeerIdentity) : bool :=
  unrestricted l || bool_decide (p ∈ peers l).
Definition is_deny_all (l : PeerAllowlist) : bool := negb (unrestricted l) && bool_decide (peers l = ∅).

(** ** The queue *)

(** [socket] and [worker] say whether the socket is open and the thread of the
    queue runs; [addr_name] is the text made of the queue's name and its
    address. *)
Record Queue := mkQueue {
  mode : Mode;
  socket_pattern : SocketPattern;
  bind_socket : bool;
  queue_name : string;
  instance_id : string;
  addr_name : string;
  frames : Frames;
  max_depth : nat;
  send_depth : nat;
  overflow_policy : OverflowPolicy;
  identity_key_name : string;
  zap_domain : string;
  endpoint : string;
  actual_endpoint_ : string;
  dial_pending : bool;
  server_pubkey_z85 : string;
  mechanism : Mechanism;
  resolved_zap_domain : string;
  allowlist : option PeerAllowlist;
  zap_handle : option string;
  producer_peers : list ProducerPeer;
  checksum_policy : ChecksumPolicy;
  rx : Rx;
  tx : Tx;
  running : bool;
  socket : bool;
  worker : bool;
}.
#[global] Instance eta_queue : Eta Queue := λ q,
  mkQueue (mode q) (socket_pattern q) (bind_socket q) (queue_name q) (instance_id q) (addr_name q) (frames q)
    (max_depth q) (send_depth q) (overflow_policy q) (identity_key_name q) (zap_domain q) (endpoint q)
    (actual_endpoint_ q) (dial_pending q) (server_pubkey_z85 q) (mechanism q) (resolved_zap_domain q) (allowlist q)
    (zap_handle q) (producer_peers q) (checksum_policy q) (rx q) (tx q) (running q) (socket q) (worker q).

(** ** Factories *)

Record CreateOptions := mkOptions {
  o_endpoint : string;
  o_server_pubkey : KeyStore.Z85PublicKey;
  o_schema : list SchemaFieldDesc;
  o_packing : string;
  o_identity_key_name : string;
  o_zap_domain : string;
  o_buffer_depth : nat;
  o_schema_tag : option (list Z);
  o_overflow_policy : OverflowPolicy;
  o_instance_id : string;
  o_addr_name : string;
}.

(** The checks of a schema, in the order of the code; an empty answer of
    [find_invalid_type] counts as valid, as it does for the type "". *)
Definition find_invalid_type (schema : list SchemaFieldDesc) : string :=
  default "" (type_str <$> head (filter (λ f, is_valid_type_str (type_str f) = false) schema)).

Definition field_sizes_ok (f : SchemaFieldDesc) : bool :=
  if is_blob f then negb (flength f =? 0) else negb (count f =? 0).

Definition schema_accepted (schema : list SchemaFieldDesc) (depth : nat) (packing : string) : bool :=
  negb (bool_decide (schema = [])) && negb (depth =? 0)%nat &&
  ((packing =s "aligned") || (packing =s "packed")) &&
  str_empty (find_invalid_type schema) && forallb field_sizes_ok schema.

Definition frames_of (schema : list SchemaFieldDesc) (packing : string) (schema_tag : option (list Z)) : Frames :=
  let '(layouts, sz) := compute_field_layout schema packing in
  mkFrames (Z.to_nat sz) schema_tag layouts (max_frame_size layouts).

Definition new_queue (m : Mode) (pattern : SocketPattern) (bind : bool) (o : CreateOptions) : Queue :=
  let f := frames_of (o_schema o) (o_packing o) (o_schema_tag o) in
  let read := bool_decide (m = Read) in
  mkQueue m pattern bind (o_endpoint o) (o_instance_id o) (o_addr_name o) f
    (if read then o_buffer_depth o else 64%nat) (if read then 64%nat else o_buffer_depth o)
    (if read then Drop else o_overflow_policy o) "" "" (o_endpoint o) "" false "" Uninitialized "" None None []
    Enforced
    (if read then new_rx (o_buffer_depth o) (item_sz f) else new_rx 0 0)
    (if read then new_tx 0 0 else new_tx (o_buffer_depth o) (item_sz f)) false false false.

Definition build_plaintext (m : Mode) (pattern : SocketPattern) (bind : bool) (o : CreateOptions) : option Queue :=
  if schema_accepted (o_schema o) (o_buffer_depth o) (o_packing o) then Some (new_queue m pattern bind o) else None.

(** [validate_curve_factory_params]; a name that is a raw secret makes [pubkey]
    throw out of the factory, which is no queue either. *)
Definition validate_curve_factory_params (sodium_ready : bool) (keys : KeyStore.Store) (identity_key_name : string) :
    bool :=
  negb (str_empty identity_key_name) && sodium_ready && KeyStore.has identity_key_name keys &&
  match KeyStore.pubkey identity_key_name keys with
  | KeyStore.Ok pub => (String.length pub =? 40)%nat
  | KeyStore.Throws _ => false
  end.

Definition server_pubkey_str (k : KeyStore.Z85PublicKey) : string := if KeyStore.pubkey_empty k then "" else k.

(** The factories add the key name, the domain and the server's key. *)
Definition make (sodium_ready : bool) (keys : KeyStore.Store) (m : Mode) (pattern : SocketPattern) (bind : bool)
    (server_pubkey domain : string) (o : CreateOptions) : option Queue :=
  if negb (validate_curve_factory_params sodium_ready keys (o_identity_key_name o)) then None
  else
    (λ q, q <| identity_key_name := o_identity_key_name o |> <| zap_domain := domain |>
            <| server_pubkey_z85 := server_pubkey |>) <$> build_plaintext m pattern bind o.

Definition pull_from sodium_ready keys (bind : bool) (server_pubkey : KeyStore.Z85PublicKey) (o : CreateOptions) :=
  make sodium_ready keys Read PushPull bind (server_pubkey_str server_pubkey) "" o.
Definition push_to sodium_ready keys (bind : bool) (server_pubkey : KeyStore.Z85PublicKey) (domain : string)
    (o : CreateOptions) :=
  make sodium_ready keys Write PushPull bind (server_pubkey_str server_pubkey) domain o.

Definition create_reader sodium_ready keys (topology : ChannelTopology) (o : CreateOptions) : option Queue :=
  match topology with
  | FanIn => pull_from sodium_ready keys true KeyStore.default_pubkey o
  | OneToOne => pull_from sodium_ready keys false (o_server_pubkey o) o
  | FanOut =>
      if KeyStore.pubkey_empty (o_server_pubkey o) then None
      else make sodium_ready keys Read PubSub false (o_server_pubkey o) "" o
  end.

Definition create_writer sodium_ready keys (topology : ChannelTopology) (o : CreateOptions) : option Queue :=
  match topology with
  | OneToOne => push_to sodium_ready keys true KeyStore.default_pubkey (o_zap_domain o) o
  | FanIn => push_to sodium_ready keys false (o_server_pubkey o) "" o
  | FanOut => make sodium_ready keys Write PubSub true "" (o_zap_domain o) o
  end.

(** ** Admission *)

Definition set_peer_allowlist (l : PeerAllowlist) (q : Queue) : bool * Queue :=
  if bind_socket q then (true, q <| allowlist := Some l |>) else (false, q).

Definition peer_allowlist_snapshot (q : Queue) : option PeerAllowlist := if bind_socket q then allowlist q else None.

Definition is_peer_allowed (q : Queue) (peer : PeerIdentity) : bool :=
  bind_socket q && match allowlist q with Some l => contains l peer | None => false end.

Definition set_producer_peers (l : list ProducerPeer) (q : Queue) : bool * Queue :=
  if negb (bool_decide (mode q = Read)) then (false, q)
  else if bool_decide (socket_pattern q = PubSub) && (1 <? length l)%nat then (false, q)
  else (true, q <| producer_peers := l |>).

Fixpoint replace_peer (peer : ProducerPeer) (l : list ProducerPeer) : option (list ProducerPeer) :=
  match l with
  | [] => None
  | p :: l => if peer_uid p =s peer_uid peer then Some (peer :: l) else cons p <$> replace_peer peer l
  end.

Definition add_producer_peer (peer : ProducerPeer) (q : Queue) : bool * Queue :=
  if negb (bool_decide (mode q = Read)) then (false, q)
  else (true, q <| producer_peers ::= (λ l, default (l ++ [peer]) (replace_peer peer l)) |>).

Fixpoint erase_peer (role_uid : string) (l : list ProducerPeer) : option (list ProducerPeer) :=
  match l with
  | [] => None
  | p :: l => if peer_uid p =s role_uid then Some l else cons p <$> erase_peer role_uid l
  end.

Definition remove_producer_peer (role_uid : string) (q : Queue) : bool * Queue :=
  if negb (bool_decide (mode q = Read)) then (false, q)
  else match erase_peer role_uid (producer_peers q) with
       | Some l => (true, q <| producer_peers := l |>)
       | None => (false, q)
       end.

Definition producer_peer_count (q : Queue) : nat :=
  if bool_decide (mode q = Read) then length (producer_peers q) else 0.

Definition own_pubkey_z85 (keys : KeyStore.Store) (q : Queue) : string :=
  if str_empty (identity_key_name q) then ""
  else match KeyStore.pubkey (identity_key_name q) keys with KeyStore.Ok k => k | KeyStore.Throws _ => "" end.

Definition binding_role_type (q : Queue) : string :=
  if negb (bind_socket q) then "" else match mode q with Read => "consumer" | Write => "producer" end.

Definition is_admission_populated (q : Queue) : bool :=
  if bind_socket q then match allowlist q with Some l => negb (bool_decide (peers l = ∅)) | None => false end
  else match mode q with
       | Read => negb (bool_decide (length (producer_peers q) = 0%nat))
       | Write => negb (str_empty (server_pubkey_z85 q))
       end.

Definition set_checksum_policy (policy : ChecksumPolicy) (q : Queue) : Queue := q <| checksum_policy := policy |>.
Definition capacity (q : Queue) : nat := match mode q with Read => max_depth q | Write => send_depth q end.
Definition actual_endpoint (q : Queue) : string :=
  if str_empty (actual_endpoint_ q) then endpoint q else actual_endpoint_ q.

Definition is_configured (q : Queue) : bool :=
  if bind_socket q then negb (str_empty (endpoint q))
  else negb (str_empty (server_pubkey_z85 q)) && negb (str_empty (endpoint q)).

(** ** Domains *)

(** The table [zap] says who decides on a domain: a queue, or another
    component. *)
Definition table_register (domain : string) (who : option nat) (zap : gmap string (option nat)) :
    bool * gmap string (option nat) :=
  if str_empty domain then (false, zap)
  else match zap !! domain with Some _ => (false, zap) | None => (true, <[domain := who]> zap) end.

Definition table_unregister (domain : string) (zap : gmap string (option nat)) : gmap string (option nat) :=
  if str_empty domain then zap else delete domain zap.

(** What [start] meets: the socket calls, the mechanism ZeroMQ reports, the
    endpoint it resolved, and whether the router's module loads. *)
Record Net := mkNet {
  socket_ok : bool;
  curve_ok : bool;
  zap_domain_ok : string → bool;
  bind_ok : string → bool;
  connect_ok : string → string → bool;
  negotiated_curve : bool;
  last_endpoint : option string;
  load_module : bool;
}.

(** [ZapRouter::register_domain] throws on an empty or taken domain, and when
    its module does not load. *)
Definition register_domain (net : Net) (domain : string) (who : option nat) (zap : gmap string (option nat)) : option (gmap string (option nat)) :=
  if str_empty domain then None
  else if negb (load_module net) then None
  else match table_register domain who zap with (true, zap) => Some zap | (false, _) => None end.

(** ** Starting *)

(** What leaves the [try] of [start]: the two kinds of exception it catches, and
    the others. *)
Inductive Exn := invalid_argument | zmq_error | other_exception.

Definition resolve_domain (q : Queue) : string :=
  if negb (str_empty (zap_domain q)) then zap_domain q
  else if negb (str_empty (instance_id q)) then instance_id q else addr_name q.

(** The server's half of the CURVE setup.  The handle that [emplace] replaces
    leaves its domain. *)
Definition setup_server (net : Net) (self : nat) (zap : gmap string (option nat)) (q : Queue) : option Exn * (gmap string (option nat) * Queue) :=
  let q := q <| resolved_zap_domain := resolve_domain q |> in
  if negb (zap_domain_ok net (resolved_zap_domain q)) then (Some zmq_error, (zap, q))
  else
    let q := q <| allowlist ::= (λ l, Some (default (mkAllowlist ∅ false) l)) |> in
    match register_domain net (resolved_zap_domain q) (Some self) zap with
    | None => (Some other_exception, (zap, q))
    | Some zap =>
        let zap := match zap_handle q with Some old => table_unregister old zap | None => zap end in
        (None, (zap, q <| zap_handle := Some (resolved_zap_domain q) |>))
    end.

Definition setup_curve (net : Net) (keys : KeyStore.Store) (self : nat) (zap : gmap string (option nat)) (q : Queue) :
    option Exn * (gmap string (option nat) * Queue) :=
  if str_empty (identity_key_name q) then (None, (zap, q))
  else match KeyStore.pubkey (identity_key_name q) keys with
       | KeyStore.Throws _ => (Some other_exception, (zap, q))
       | KeyStore.Ok _ =>
           if negb (curve_ok net) then (Some zmq_error, (zap, q))
           else if bind_socket q then setup_server net self zap q else (None, (zap, q))
       end.

(** Whom a dialing queue connects to: every peer with an endpoint, or the one
    its factory named when it has no peers. *)
Definition connect_targets (q : Queue) : list (string * string) :=
  match producer_peers q with
  | [] => [(server_pubkey_z85 q, endpoint q)]
  | l => (λ p, (peer_pubkey p, peer_endpoint p)) <$> filter (λ p, str_empty (peer_endpoint p) = false) l
  end.

Definition open_socket (net : Net) (q : Queue) : option Exn :=
  if (if bind_socket q then bind_ok net (endpoint q)
      else forallb (λ t, connect_ok net t.1 t.2) (connect_targets q))
  then (if negotiated_curve net then None else Some invalid_argument)
  else Some zmq_error.

(** The body of the [try]. *)
Definition setup (net : Net) (keys : KeyStore.Store) (self : nat) (zap : gmap string (option nat)) (q : Queue) :
    option Exn * (gmap string (option nat) * Queue) :=
  if negb (socket_ok net) then (Some zmq_error, (zap, q))
  else
    match setup_curve net keys self zap (q <| socket := true |>) with
    | (Some e, s) => (Some e, s)
    | (None, (zap, q)) => (open_socket net q, (zap, q))
    end.

(** What [start] does once CURVE is confirmed. *)
Definition after_setup (net : Net) (q : Queue) : Queue :=
  q <| mechanism := Curve |>
    <| actual_endpoint_ := if bind_socket q then default (endpoint q) (last_endpoint net) else endpoint q |>
    <| rx ::= (λ r, match mode q with Read => r <| recv_stop := false |> | Write => r end) |>
    <| tx ::= (λ t, match mode q with Write => t <| send_stop := false |> | Read => t end) |>
    <| worker := true |>.

(** What the thread meets outside the messages: the tick of its [recv] runs out,
    ZeroMQ throws for a signal, for the end of the context or for another
    reason, or the thread manager asks it to end. *)
Inductive LoopEvent := RecvTimedOut | RecvInterrupted | RecvTerminated | RecvFailed | ShutdownRequested.

(** Whether the loop of [run_recv_thread_] or [run_send_thread_] ends with it; a
    send that throws only costs the item.  Nothing tells the queue. *)
Definition leaves_loop (m : Mode) (e : LoopEvent) : bool :=
  match e with
  | RecvTimedOut | RecvInterrupted => false
  | RecvTerminated | RecvFailed => bool_decide (m = Read)
  | ShutdownRequested => true
  end.

Definition thread_meets (e : LoopEvent) (q : Queue) : Queue :=
  q <| worker ::= (λ w, w && negb (leaves_loop (mode q) e)) |>.

(** [start]: what it returns; [None] when an exception leaves it. *)
Definition start (net : Net) (keys : KeyStore.Store) (self : nat) (zap : gmap string (option nat)) (q : Queue) :
    option bool * (gmap string (option nat) * Queue) :=
  if running q then (Some true, (zap, q))
  else if negb (is_configured q) then (Some false, (zap, q))
  else
    match setup net keys self zap (q <| running := true |>) with
    | (Some other_exception, s) => (None, s)
    | (Some _, (zap, q)) =>
        (Some false, (zap, q <| socket := false |> <| mechanism := Uninitialized |> <| running := false |>))
    | (None, (zap, q)) => (Some true, (zap, after_setup net q))
    end.

(** [stop]; its drain ends the thread. *)
Definition stop (zap : gmap string (option nat)) (q : Queue) : gmap string (option nat) * Queue :=
  if negb (running q) then (zap, q)
  else
    let q := q <| running := false |> <| rx ::= (λ r, r <| recv_stop := true |>) |>
               <| tx ::= (λ t, t <| send_stop := true |>) |> <| worker := false |> in
    let '(zap, q) :=
      match zap_handle q with
      | Some d => (table_unregister d zap, q <| zap_handle := None |> <| resolved_zap_domain := "" |>)
      | None => (zap, q)
      end in
    (zap, q <| socket := false |> <| mechanism := Uninitialized |>).

(** The destructor: [stop], and the handle goes with the queue. *)
Definition destroy (zap : gmap string (option nat)) (q : Queue) : gmap string (option nat) :=
  let '(zap, q) := stop zap q in
  match zap_handle q with Some d => table_unregister d zap | None => zap end.

(** ** Approval *)

(** An entry of the peer list; what is not one refuses the approval, by a check
    or by an exception. *)
Definition parse_peer (is_dialing : bool) (entry : json) : option ProducerPeer :=
  if negb (is_object entry) then None
  else
    match AttachProtocol.value "role_uid" entry, AttachProtocol.value "endpoint" entry,
          AttachProtocol.value "pubkey_z85" entry with
    | KeyStore.Ok uid, KeyStore.Ok ep, KeyStore.Ok key =>
        if negb (String.length key =? 40)%nat then None
        else if is_dialing && str_empty ep then None
        else Some (mkPeer uid ep key)
    | _, _, _ => None
    end.

Definition peer_field (q : Queue) : string := match mode q with Read => "producers" | Write => "initial_allowlist" end.

(** The peers of the artifacts: none given, a list, or a refusal. *)
Definition parse_peers (q : Queue) (artifacts : json) : option (option (list ProducerPeer)) :=
  match json_get (peer_field q) artifacts with
  | None => Some None
  | Some (JArr l) =>
      if negb (bind_socket q) && bool_decide (socket_pattern q = PubSub) && (1 <? length l)%nat then None
      else Some <$> mapM (parse_peer (negb (bind_socket q))) l
  | Some _ => None
  end.

Definition allowlist_of (l : list ProducerPeer) : PeerAllowlist :=
  mkAllowlist (list_to_set ((λ p, ("curve", peer_pubkey p)) <$> l)) false.

(** The first peer fills in what the queue does not have yet. *)
Definition promote (l : list ProducerPeer) (q : Queue) : Queue :=
  match l with
  | [] => q
  | p :: _ =>
      q <| server_pubkey_z85 ::= (λ k, if str_empty k && negb (str_empty (peer_pubkey p)) then peer_pubkey p else k) |>
        <| endpoint ::= (λ e, if str_empty e && negb (str_empty (peer_endpoint p)) then peer_endpoint p else e) |>
  end.

Definition apply_peers (already_running : bool) (l : list ProducerPeer) (q : Queue) : bool * Queue :=
  let '(ok, q) := if bool_decide (mode q = Read) then set_producer_peers l q else (true, q) in
  if negb ok then (false, q)
  else if bind_socket q then set_peer_allowlist (allowlist_of l) q
  else (true, if already_running then q else promote l q).

Definition apply_master_approval (net : Net) (keys : KeyStore.Store) (self : nat) (artifacts : json)
    (zap : gmap string (option nat)) (q : Queue) : bool * (gmap string (option nat) * Queue) :=
  let already_running := running q in
  match parse_peers q artifacts with
  | None => (false, (zap, q))
  | Some have =>
      let '(ok, q) := match have with Some l => apply_peers already_running l q | None => (true, q) end in
      if negb ok then (false, (zap, q))
      else if already_running then (true, (zap, q))
      else if bool_decide (mode q = Write) && negb (bind_socket q)
      then (true, (zap, q <| dial_pending := true |>))
      else
        let '(r, s) := start net keys self zap q in (default false r, s)
  end.

(** The polling of [finalize_connect]: what each turn meets. *)
Inductive PollTurn := Cancelled | PeerReady | PermanentError | NotReady (deadline_passed : bool).

Fixpoint poll_peer (turns : list PollTurn) : option bool :=
  match turns with
  | [] => None
  | Cancelled :: _ | PermanentError :: _ | NotReady true :: _ => Some false
  | PeerReady :: _ => Some true
  | NotReady false :: turns => poll_peer turns
  end.

(** [None] while it still polls; an exception of [start] would end the process,
    the function being [noexcept]. *)
Definition finalize_connect (net : Net) (keys : KeyStore.Store) (self : nat) (turns : list PollTurn)
    (zap : gmap string (option nat)) (q : Queue) : option (option bool * (gmap string (option nat) * Queue)) :=
  if negb (dial_pending q) then Some (Some true, (zap, q))
  else
    match poll_peer turns with
    | None => None
    | Some false => Some (Some false, (zap, q))
    | Some true => Some (start net keys self zap (q <| dial_pending := false |>))
    end.

End ZmqControl.
