(* ===== verification/ZapRouter.v ===== *)
(** * Answering ZeroMQ's authentication requests

    Models [src/utils/security/zap_router.cpp] and the lookup of
    [domain_routing_table.hpp]: a request of ZeroMQ for a peer that wants to
    connect, read frame by frame, and the answer of the component that
    registered the domain.  The components are the queues of [ZmqControl] and
    others, which answer as an argument says. *)

From S2P Require Import Prelude.
From S2P Require Import KeyStore.
From S2P Require Import AttachProtocol.
From S2P Require Import ZmqQueue.
From S2P Require Import ZmqControl.
Import ZmqControl.

Module ZapRouter.

Definition kZapVersion : string := "1.0".
Definition kCurvePubkeyRawBytes : nat := 32.
Definition kCurvePubkeyZ85Chars : nat := 40.
Definition kZapMinReqFrames : nat := 7.

(** The router: whether its socket is there, the table of domains, and the
    counts of answers. *)
Record Router := mkRouter {
  sock : bool;
  routing : gmap string (option nat);
  allowed_count : Z;
  denied_count : Z;
}.
#[global] Instance eta_router : Eta Router := λ r,
  mkRouter (sock r) (routing r) (allowed_count r) (denied_count r).

(** The frames of an answer that vary. *)
Record Reply := mkReply {
  request_id : string;
  status_code : string;
  status_text : string;
  user_id : string;
}.

(** [on_module_startup_] and [on_module_shutdown_]. *)
Definition on_module_startup_ (bind_ok : bool) (r : Router) : Router := if sock r then r else r <| sock := bind_ok |>.
Definition on_module_shutdown_ (r : Router) : Router :=
  r <| sock := false |> <| allowed_count := 0 |> <| denied_count := 0 |>.

(** A decision that throws denies. *)
Definition with_admission {A} (domain : string) (fn : A → option bool) (table : gmap string A) : option bool :=
  (λ a, default false (fn a)) <$> table !! domain.

Definition deny (id text : string) (r : Router) : option Reply * Router :=
  (Some (mkReply id "400" text ""), r <| denied_count ::= u64_succ |>).
Definition allow (id z85 : string) (r : Router) : option Reply * Router :=
  (Some (mkReply id "200" "OK" z85), r <| allowed_count ::= u64_succ |>).

Section with_sodium.
Context `{!KeyStore.Sodium}.

Definition z85_encode_pubkey (src : list Z) : string :=
  if negb (length src =? kCurvePubkeyRawBytes)%nat then ""
  else match KeyStore.zmq_z85_encode src with
       | None => ""
       | Some s => String.substring 0 kCurvePubkeyZ85Chars s
       end.

(** One turn of [pump_one] on a received message; [admission] answers for who
    holds the domain. *)
Definition pump_request (admission : option nat → PeerIdentity → option bool) (req : list string) (r : Router) :
    option Reply * Router :=
  match req with
  | [] => (None, r <| denied_count ::= u64_succ |>)
  | _ =>
      if (length req <? kZapMinReqFrames)%nat then deny (default "" (req !! 1%nat)) "Malformed request" r
      else
        let frame i := default "" (req !! i) in
        let id := frame 1%nat in
        if negb (frame 0%nat =s kZapVersion) then deny id "Bad version" r
        else if negb (frame 5%nat =s "CURVE") then deny id "Unsupported mechanism" r
        else
          let z85 := z85_encode_pubkey (AttachProtocol.bytes_of (frame 6%nat)) in
          if str_empty z85 then deny id "Bad credentials" r
          else
            match with_admission (frame 2%nat) (λ who, admission who ("curve", z85)) (routing r) with
            | None => deny id "Domain not registered" r
            | Some true => allow id z85 r
            | Some false => deny id "Not in allowlist" r
            end
  end.

(** [pump_one]: what it returns, the answer sent and the router; no message
    stands for a timeout or an error of the socket. *)
Definition pump_one (admission : option nat → PeerIdentity → option bool) (msg : option (list string)) (r : Router) :
    bool * option Reply * Router :=
  if negb (sock r) then (false, None, r)
  else
    match msg with
    | None => (false, None, r)
    | Some req => let '(reply, r) := pump_request admission req r in (bool_decide (is_Some reply), reply, r)
    end.

(** The queues of a process decide by their allowlists. *)
Definition queue_admission (queues : gmap nat Queue) (others : PeerIdentity → option bool)
    (who : option nat) (peer : PeerIdentity) : option bool :=
  match who with
  | Some i => q ← queues !! i; Some (is_peer_allowed q peer)
  | None => others peer
  end.

End with_sodium.

End ZapRouter.
