(* ===== verification/ZmqControlProps.v ===== *)
(** * What admission to a ZeroMQ queue comes to

    Proved of [ZmqControl] and [ZapRouter] for a process with any number of
    queues, whatever calls are made on them: a domain is in the router's table
    exactly as long as a queue holds it; a peer gets through exactly when the
    queue of its domain lists its key; and what [start], an approval and a
    deferred dial leave behind when something fails. *)

From S2P Require Import Prelude.
From S2P Require Import Json.
From S2P Require Import Entries.
From S2P Require Import ShmHeader.
From S2P Require Import Layout.
From S2P Require Import KeyStore.
From S2P Require Import AttachProtocol.
From S2P Require Import ZmqWire.
From S2P Require Import ZmqQueue.
From S2P Require Import ZmqDelivery.
From S2P Require Import ZmqControl.
From S2P Require Import ZapRouter.
Import Json Entries ShmHeader FieldLayout ZmqWire ZmqQueue ZmqControl ZapRouter.

Module ZmqControlProps.

(** ** Calls *)

(** A call on queue [i], or what its thread meets, from the table and the queue
    to the table and the queue after it. *)
Inductive call (i : nat) (zap : gmap string (option nat)) (q : Queue) : gmap string (option nat) → Queue → Prop :=
  | call_start net keys r zap' q' : start net keys i zap q = (r, (zap', q')) → call i zap q zap' q'
  | call_stop zap' q' : stop zap q = (zap', q') → call i zap q zap' q'
  | call_approve net keys artifacts r zap' q' :
      apply_master_approval net keys i artifacts zap q = (r, (zap', q')) → call i zap q zap' q'
  | call_finalize net keys turns r zap' q' :
      finalize_connect net keys i turns zap q = Some (r, (zap', q')) → call i zap q zap' q'
  | call_allowlist l r q' : set_peer_allowlist l q = (r, q') → call i zap q zap q'
  | call_peers l r q' : set_producer_peers l q = (r, q') → call i zap q zap q'
  | call_add peer r q' : add_producer_peer peer q = (r, q') → call i zap q zap q'
  | call_policy policy : call i zap q zap (set_checksum_policy policy q)
  | call_remove uid r q' : remove_producer_peer uid q = (r, q') → call i zap q zap q'
  | call_thread e : call i zap q zap (thread_meets e q).

(** What a queue with a registration looks like, and who holds which domain. *)
Definition handle_ok (q : Queue) : Prop :=
  ∀ d, zap_handle q = Some d → d = resolve_domain q ∧ d ≠ "" ∧ bind_socket q = true ∧ is_Some (allowlist q).

Record held (i : nat) (zap : gmap string (option nat)) (q : Queue) : Prop := {
  held_iff d : zap !! d = Some (Some i) ↔ zap_handle q = Some d;
  held_handle : handle_ok q;
}.

(** The domains of others are as they were. *)
Definition others_kept (i : nat) (zap zap' : gmap string (option nat)) : Prop :=
  ∀ d who, who ≠ Some i → (zap' !! d = Some who ↔ zap !! d = Some who).

Lemma others_kept_refl i zap : others_kept i zap zap.
Proof. by intros d who _. Qed.

(** Two queues alike for the registration. *)
Definition same_registration (q q' : Queue) : Prop :=
  zap_handle q' = zap_handle q ∧ bind_socket q' = bind_socket q ∧ resolve_domain q' = resolve_domain q ∧
  (is_Some (allowlist q) → is_Some (allowlist q')).

Lemma held_same i zap q q' : same_registration q q' → held i zap q → held i zap q'.
Proof.
  intros (Hz & Hb & Hr & Ha) [H1 H2]. split; [intros d; rewrite Hz; apply H1|].
  intros d. rewrite Hz, Hb, Hr. intros Hd. destruct (H2 d Hd) as (? & ? & ? & ?). auto.
Qed.

Lemma same_refl q : same_registration q q.
Proof. by repeat split. Qed.
Lemma same_trans q1 q2 q3 : same_registration q1 q2 → same_registration q2 q3 → same_registration q1 q3.
Proof. intros (? & ? & ? & ?) (? & ? & ? & ?). split_and!; [congruence..|auto]. Qed.
#[local] Hint Resolve same_refl others_kept_refl : core.

Lemma set_peer_allowlist_same l q : same_registration q (set_peer_allowlist l q).2.
Proof. unfold set_peer_allowlist. destruct (bind_socket q); [|done]. repeat split; cbn; eauto. Qed.
Lemma set_producer_peers_same l q : same_registration q (set_producer_peers l q).2.
Proof. unfold set_producer_peers. by repeat case_match. Qed.
Lemma add_producer_peer_same p q : same_registration q (add_producer_peer p q).2.
Proof. unfold add_producer_peer. by repeat case_match. Qed.
Lemma remove_producer_peer_same u q : same_registration q (remove_producer_peer u q).2.
Proof. unfold remove_producer_peer. by repeat case_match. Qed.

Lemma promote_same l q : same_registration q (promote l q).
Proof. by destruct l. Qed.

Lemma apply_peers_same running l q : same_registration q (apply_peers running l q).2.
Proof.
  unfold apply_peers. pose proof (set_producer_peers_same l q) as Hs.
  destruct (bool_decide (mode q = Read)); [destruct (set_producer_peers l q) as [ok q1]|]; cbn in *.
  - destruct ok; cbn; [|done]. eapply same_trans; [exact Hs|]. destruct (bind_socket q1); [apply set_peer_allowlist_same|].
    destruct running; [done|apply promote_same].
  - destruct (bind_socket q); [apply set_peer_allowlist_same|]. destruct running; [done|apply promote_same].
Qed.

(** ** Registration *)

Lemma register_domain_spec net d who zap zap' :
  register_domain net d who zap = Some zap' → d ≠ "" ∧ zap !! d = None ∧ zap' = <[d := who]> zap.
Proof.
  unfold register_domain, table_register. destruct (str_empty d) eqn:He; [done|]. apply str_empty_false in He.
  destruct (load_module net); [|done]. destruct (zap !! d); [done|]. by intros [= <-].
Qed.

(** A queue that holds its domain cannot register it again, so no handle is ever
    replaced. *)
Lemma setup_server_held net i zap q r zap' q' :
  held i zap q → bind_socket q = true → setup_server net i zap q = (r, (zap', q')) →
  held i zap' q' ∧ others_kept i zap zap'.
Proof.
  intros [H1 H2] Hb. unfold setup_server. cbv zeta. cbn.
  destruct (negb _).
  { intros [= <- <- <-]. split; [|done]. apply (held_same _ _ q); [by repeat split|by split]. }
  destruct (register_domain _ _ _ _) as [zap1|] eqn:Hr.
  - apply register_domain_spec in Hr as (Hne & Hfree & ->). intros [= <- <- <-].
    assert (zap_handle q = None) as Hz.
    { destruct (zap_handle q) as [d|] eqn:Hd; [|done]. destruct (H2 d Hd) as (Hr & _).
      assert (zap !! d = Some (Some i)) by (by apply H1). congruence. }
    cbn in Hne, Hfree. rewrite Hz. split; [split|].
    + intros d. destruct (decide (d = resolve_domain q)) as [->|Hn].
      * rewrite (lookup_insert_eq zap). by split.
      * rewrite (lookup_insert_ne zap) by done. rewrite H1, Hz. split; [done|]. cbn. by intros [= <-].
    + intros d. cbn. intros [= <-]. by eauto.
    + intros d who Hw. destruct (decide (d = resolve_domain q)) as [->|Hn].
      * rewrite (lookup_insert_eq zap), Hfree. split; [by intros [= <-]|done].
      * by rewrite (lookup_insert_ne zap).
  - intros [= <- <- <-]. split; [|done]. apply (held_same _ _ q); [|by split]. repeat split; cbn; eauto.
Qed.

Lemma setup_held net keys i zap q r zap' q' :
  held i zap q → setup net keys i zap q = (r, (zap', q')) → held i zap' q' ∧ others_kept i zap zap'.
Proof.
  intros Hh. unfold setup. destruct (negb (socket_ok net)); [by intros [= <- <- <-]|].
  assert (∀ r zap' q', setup_curve net keys i zap (q <| socket := true |>) = (r, (zap', q')) →
            held i zap' q' ∧ others_kept i zap zap') as Hc.
  { clear r zap' q'. intros r zap' q'. unfold setup_curve.
    assert (held i zap (q <| socket := true |>)) as Hs by (by apply (held_same _ _ q)).
    destruct (str_empty _); [by intros [= <- <- <-]|]. destruct (KeyStore.pubkey _ _); [|by intros [= <- <- <-]].
    destruct (negb (curve_ok net)); [by intros [= <- <- <-]|].
    destruct (bind_socket _) eqn:Hb; [|by intros [= <- <- <-]]. by apply setup_server_held. }
  destruct (setup_curve net keys i zap (q <| socket := true |>)) as [[e|] [zap1 q1]] eqn:Hq;
    specialize (Hc _ _ _ eq_refl); intros Hr; injection Hr as <- <- <-; exact Hc.
Qed.

Lemma start_held net keys i zap q r zap' q' :
  held i zap q → start net keys i zap q = (r, (zap', q')) → held i zap' q' ∧ others_kept i zap zap'.
Proof.
  intros Hh. unfold start. destruct (running q); [by intros [= <- <- <-]|].
  destruct (negb (is_configured q)); [by intros [= <- <- <-]|].
  destruct (setup _ _ _ _ _) as [e [zap1 q1]] eqn:Hs.
  apply setup_held in Hs as [H1 H2]; [|by apply (held_same _ _ q)].
  destruct e as [[]|]; intros [= <- <- <-]; split; try done; by apply (held_same _ _ q1).
Qed.

(** What giving up a registration leaves. *)
Lemma release_held i zap q :
  held i zap q →
  let zap' := match zap_handle q with Some d => table_unregister d zap | None => zap end in
  (∀ d, zap' !! d ≠ Some (Some i)) ∧ others_kept i zap zap'.
Proof.
  intros [H1 H2]. destruct (zap_handle q) as [d|] eqn:Hd; cbv zeta.
  - destruct (H2 d Hd) as (_ & Hne & _). unfold table_unregister. apply str_empty_false in Hne as ->.
    assert (zap !! d = Some (Some i)) as Hz by (by apply H1). split.
    + intros d'. rewrite (lookup_delete_Some zap), H1. intros [? ?]. congruence.
    + intros d' who Hw. rewrite (lookup_delete_Some zap). split; [by intros [_ ?]|]. intros Hw'. split; [|done].
      intros <-. congruence.
  - split; [|done]. intros d Hz%H1. done.
Qed.

Lemma held_none i zap q : (∀ d, zap !! d ≠ Some (Some i)) → zap_handle q = None → held i zap q.
Proof. intros Hn Hz. split; [|intros d; by rewrite Hz]. intros d. rewrite Hz. split; [by intros ?%Hn|done]. Qed.

Lemma stop_held i zap q zap' q' : held i zap q → stop zap q = (zap', q') → held i zap' q' ∧ others_kept i zap zap'.
Proof.
  intros Hh. unfold stop. destruct (negb (running q)); [by intros [= <- <-]|]. cbn.
  destruct (release_held i zap q Hh) as [Hn Ho]. destruct (zap_handle q) as [d|] eqn:Hd; intros [= <- <-].
  - split; [|done]. by apply held_none.
  - split; [|done]. apply held_none; [done|]. done.
Qed.

Lemma approval_held net keys i artifacts zap q r zap' q' :
  held i zap q → apply_master_approval net keys i artifacts zap q = (r, (zap', q')) →
  held i zap' q' ∧ others_kept i zap zap'.
Proof.
  intros Hh. unfold apply_master_approval. destruct (parse_peers q artifacts) as [have|]; [|by intros [= <- <- <-]].
  assert (same_registration q (match have with Some l => apply_peers (running q) l q | None => (true, q) end).2) as Hs.
  { destruct have; [apply apply_peers_same|done]. }
  destruct (match have with Some _ => _ | None => _ end) as [ok q1]. cbn in Hs. apply (held_same i zap) in Hs; [|done].
  destruct (negb ok); [by intros [= <- <- <-]|]. destruct (running q); [by intros [= <- <- <-]|].
  destruct (_ && _).
  { intros [= <- <- <-]. split; [|done]. by apply (held_same _ _ q1). }
  destruct (start net keys i zap q1) as [b [zap2 q2]] eqn:Hst. intros [= <- <- <-]. by eapply start_held.
Qed.

Lemma call_held i zap q zap' q' : held i zap q → call i zap q zap' q' → held i zap' q' ∧ others_kept i zap zap'.
Proof.
  intros Hh Hc. destruct Hc as [net keys r zap' q' H|zap' q' H|net keys a r zap' q' H|net keys turns r zap' q' H
    |l r q' H|l r q' H|p r q' H|policy|u r q' H|e].
  - by eapply start_held.
  - by eapply stop_held.
  - by eapply approval_held.
  - revert H. unfold finalize_connect. destruct (negb _); [by intros [= <- <- <-]|].
    destruct (poll_peer turns) as [[]|]; [|by intros [= <- <- <-]|done].
    intros [= H]. eapply start_held in H; [exact H|]. by apply (held_same _ _ q).
  - pose proof (set_peer_allowlist_same l q) as Hs. rewrite H in Hs. split; [by eapply held_same|done].
  - pose proof (set_producer_peers_same l q) as Hs. rewrite H in Hs. split; [by eapply held_same|done].
  - pose proof (add_producer_peer_same p q) as Hs. rewrite H in Hs. split; [by eapply held_same|done].
  - split; [by apply (held_same _ _ q)|done].
  - pose proof (remove_producer_peer_same u q) as Hs. rewrite H in Hs. split; [by eapply held_same|done].
  - split; [by apply (held_same _ _ q)|done].
Qed.

(** ** A process *)

Section process.
Context {sodium : KeyStore.Sodium} (others : PeerIdentity → option bool).

Record Process := mkProcess { queues : gmap nat Queue; router : Router }.
#[global] Instance eta_process : Eta Process := λ p, mkProcess (queues p) (router p).

Definition init : Process := mkProcess ∅ (mkRouter false ∅ 0 0).

(** A queue one of the factories made. *)
Definition made (q : Queue) : Prop :=
  ∃ ready keys topology o, create_reader ready keys topology o = Some q ∨ create_writer ready keys topology o = Some q.

(** A message of ZeroMQ's, answered. *)
Definition request (msg : option (list string)) (p : Process) : bool * option Reply * Process :=
  let '(got, reply, r) := pump_one (queue_admission (queues p) others) msg (router p) in
  (got, reply, p <| router := r |>).

Inductive pstep (p : Process) : Process → Prop :=
  | ps_create i q : queues p !! i = None → made q → pstep p (p <| queues ::= <[i := q]> |>)
  | ps_call i q zap' q' : queues p !! i = Some q → call i (routing (router p)) q zap' q' →
      pstep p (p <| queues ::= <[i := q']> |> <| router ::= (λ r, r <| routing := zap' |>) |>)
  | ps_destroy i q : queues p !! i = Some q →
      pstep p (p <| queues ::= delete i |> <| router ::= (λ r, r <| routing ::= (λ zap, destroy zap q) |>) |>)
  | ps_register net d zap' : register_domain net d None (routing (router p)) = Some zap' →
      pstep p (p <| router ::= (λ r, r <| routing := zap' |>) |>)
  | ps_unregister d : routing (router p) !! d = Some None →
      pstep p (p <| router ::= (λ r, r <| routing ::= table_unregister d |>) |>)
  | ps_startup bind_ok : pstep p (p <| router ::= on_module_startup_ bind_ok |>)
  | ps_shutdown : pstep p (p <| router ::= on_module_shutdown_ |>)
  | ps_request msg : pstep p (request msg p).2.

Definition preachable : Process → Prop := rtc pstep init.

Definition PInv (p : Process) : Prop :=
  ∀ i, match queues p !! i with
       | Some q => held i (routing (router p)) q
       | None => ∀ d, routing (router p) !! d ≠ Some (Some i)
       end.

Lemma pump_one_routing admission msg r got reply r' :
  pump_one admission msg r = (got, reply, r') → routing r' = routing r.
Proof.
  unfold pump_one, pump_request, deny, allow. intros Hp. repeat case_match; by simplify_eq.
Qed.

Lemma make_unregistered ready keys m pattern bind k d o q :
  make ready keys m pattern bind k d o = Some q → zap_handle q = None.
Proof.
  unfold make, build_plaintext. destruct (negb _); [done|]. destruct (schema_accepted _ _ _); cbn; [|done].
  by intros [= <-].
Qed.

Lemma made_unregistered q : made q → zap_handle q = None.
Proof.
  intros (ready & keys & t & o & [H|H]); destruct t; unfold create_reader, create_writer, pull_from, push_to in H;
    try (destruct (KeyStore.pubkey_empty _); [done|]); exact (make_unregistered _ _ _ _ _ _ _ _ _ H).
Qed.

Lemma pinv_others i p zap' : PInv p → others_kept i (routing (router p)) zap' → ∀ j, j ≠ i →
  match queues p !! j with
  | Some q => held j zap' q
  | None => ∀ d, zap' !! d ≠ Some (Some j)
  end.
Proof.
  intros HI Ho j Hj. specialize (HI j). assert (Some j ≠ Some i) as Hw by congruence.
  destruct (queues p !! j).
  - destruct HI as [H1 H2]. split; [|done]. intros d. rewrite <- H1. by apply Ho.
  - intros d Hd%Ho; [|done]. by eapply HI.
Qed.

(** A change of the domains that are not queues'. *)
Lemma pinv_foreign p zap' :
  PInv p → (∀ d i, zap' !! d = Some (Some i) ↔ routing (router p) !! d = Some (Some i)) →
  PInv (p <| router ::= (λ r, r <| routing := zap' |>) |>).
Proof.
  intros HI Hz i. specialize (HI i). cbn. destruct (queues p !! i).
  - destruct HI as [H1 H2]. split; [|done]. intros d. by rewrite Hz.
  - intros d. rewrite Hz. apply HI.
Qed.

Lemma pinv_same_table p r : PInv p → routing r = routing (router p) → PInv (p <| router := r |>).
Proof. intros HI Hr i. cbn. rewrite Hr. apply HI. Qed.

Lemma pinv_step p p' : PInv p → pstep p p' → PInv p'.
Proof.
  intros HI Hst. destruct Hst as [i q Hi Hm|i q zap' q' Hi Hc|i q Hi|net d zap' Hr|d Hd|b| |msg].
  - intros j. cbn. destruct (decide (j = i)) as [->|Hj].
    + rewrite lookup_insert_eq. apply held_none; [|by apply made_unregistered]. specialize (HI i). by rewrite Hi in HI.
    + rewrite lookup_insert_ne by done. apply HI.
  - pose proof (HI i) as Hh. rewrite Hi in Hh. destruct (call_held _ _ _ _ _ Hh Hc) as [Hh' Ho].
    intros j. cbn. destruct (decide (j = i)) as [->|Hj]; [by rewrite lookup_insert_eq|].
    rewrite lookup_insert_ne by done. by apply (pinv_others i).
  - pose proof (HI i) as Hh. rewrite Hi in Hh.
    destruct (stop (routing (router p)) q) as [zap1 q1] eqn:Hs. destruct (stop_held _ _ _ _ _ Hh Hs) as [Hh1 Ho1].
    destruct (release_held i zap1 q1 Hh1) as [Hn Ho2]. cbv zeta in *.
    intros j. unfold destroy. cbn -[stop]. rewrite Hs.
    destruct (decide (j = i)) as [->|Hj]; [by rewrite lookup_delete_eq|].
    rewrite lookup_delete_ne by done. apply (pinv_others i); try done.
    intros d who Hw. by rewrite (Ho2 d who Hw), (Ho1 d who Hw).
  - apply register_domain_spec in Hr as (Hne & Hfree & ->). apply pinv_foreign; [done|]. intros d' i.
    destruct (decide (d' = d)) as [->|].
    + rewrite (lookup_insert_eq (routing (router p))), Hfree. by split.
    + by rewrite (lookup_insert_ne (routing (router p))).
  - assert (p <| router ::= (λ r, r <| routing ::= table_unregister d |>) |>
            = p <| router ::= (λ r, r <| routing := table_unregister d (routing (router p)) |>) |>) as -> by done.
    apply pinv_foreign; [done|]. intros d' i. unfold table_unregister. destruct (str_empty d); [done|].
    rewrite (lookup_delete_Some (routing (router p))). split; [by intros [_ ?]|]. intros H. split; [|done]. intros <-. congruence.
  - apply (pinv_same_table p (on_module_startup_ b (router p))); [done|]. unfold on_module_startup_. by destruct (sock _).
  - by apply (pinv_same_table p (on_module_shutdown_ (router p))).
  - unfold request. destruct (pump_one _ _ _) as [[got reply] r] eqn:Hp. apply pump_one_routing in Hp. cbn.
    by apply pinv_same_table.
Qed.

Lemma pinv_reachable p : preachable p → PInv p.
Proof.
  unfold preachable. revert p. apply (rtc_ind_r PInv).
  - intros i. assert (queues init !! i = None) as -> by apply lookup_empty. intros d Hd. discriminate Hd.
  - intros p p' _ Hst HI. by eapply pinv_step.
Qed.

(** ** Who gets in *)

(** Whether a key opens a domain: the queue that holds it lists the key, or
    another component that holds it says so. *)
Definition opens (p : Process) (domain key : string) : Prop :=
  (∃ i q l, queues p !! i = Some q ∧ zap_handle q = Some domain ∧ allowlist q = Some l ∧
            contains l ("curve", key) = true) ∨
  (routing (router p) !! domain = Some None ∧ others ("curve", key) = Some true).

Definition frame (req : list string) (i : nat) : string := default "" (req !! i).
Definition presented_key (req : list string) : string := z85_encode_pubkey (AttachProtocol.bytes_of (frame req 6)).

(** A request of the protocol the router speaks. *)
Definition well_formed (req : list string) : Prop :=
  frame req 0 = "1.0" ∧ frame req 5 = "CURVE" ∧ presented_key req ≠ "".

(** One answer, and one count more. *)
Definition answered (req : list string) (reply : Reply) (r r' : Router) : Prop :=
  request_id reply = frame req 1 ∧ sock r' = sock r ∧ routing r' = routing r ∧
  (status_code reply = "200" ∧ user_id reply = presented_key req ∧
   allowed_count r' = u64_succ (allowed_count r) ∧ denied_count r' = denied_count r ∨
   status_code reply = "400" ∧ user_id reply = "" ∧
   allowed_count r' = allowed_count r ∧ denied_count r' = u64_succ (denied_count r)).

Lemma pump_answers admission req r :
  sock r = true → (7 ≤ length req)%nat →
  ∃ reply r', pump_one admission (Some req) r = (true, Some reply, r') ∧ answered req reply r r' ∧
    (status_code reply = "200" ↔
     well_formed req ∧ ∃ who, routing r !! frame req 2 = Some who ∧ admission who ("curve", presented_key req) = Some true).
Proof.
  intros Hs Hl. unfold pump_one, pump_request, well_formed. rewrite Hs. cbn [negb].
  destruct req as [|f0 req]; [cbn in Hl; lia|]. cbv iota. generalize dependent (f0 :: req). intros l Hl.
  rewrite (proj2 (Nat.ltb_ge (length l) kZapMinReqFrames)) by exact Hl. cbv beta zeta.
  fold (frame l 0) (frame l 1) (frame l 2) (frame l 5) (frame l 6). fold (presented_key l).
  destruct (frame l 0 =s kZapVersion) eqn:E0; cbn [negb]; bool_facts.
  2:{ do 2 eexists. split; [done|]. split; [by repeat split; right|]. cbn. split; [done|]. intros [[? _] _]. done. }
  destruct (frame l 5 =s "CURVE") eqn:E5; cbn [negb]; bool_facts.
  2:{ do 2 eexists. split; [done|]. split; [by repeat split; right|]. cbn. split; [done|]. intros [(_ & ? & _) _]. done. }
  destruct (str_empty (presented_key l)) eqn:Ek.
  { apply str_empty_true in Ek. do 2 eexists. split; [done|]. split; [by repeat split; right|]. cbn. split; [done|].
    by intros [(_ & _ & ?) _]. }
  apply str_empty_false in Ek. unfold with_admission.
  destruct (routing r !! frame l 2) as [who|]; cbn.
  - destruct (admission who ("curve", presented_key l)) as [[]|] eqn:Ha; cbn.
    + do 2 eexists. split; [done|]. split; [by repeat split; left|]. split; [|done]. intros _. split; [done|].
      by exists who.
    + do 2 eexists. split; [done|]. split; [by repeat split; right|]. cbn. split; [done|].
      intros [_ (w & [= <-] & Hw)]. congruence.
    + do 2 eexists. split; [done|]. split; [by repeat split; right|]. cbn. split; [done|].
      intros [_ (w & [= <-] & Hw)]. congruence.
  - do 2 eexists. split; [done|]. split; [by repeat split; right|]. cbn. split; [done|]. by intros [_ (w & ? & _)].
Qed.

Lemma opens_spec p domain key :
  PInv p → opens p domain key ↔
  ∃ who, routing (router p) !! domain = Some who ∧ queue_admission (queues p) others who ("curve", key) = Some true.
Proof.
  intros HI. split.
  - intros [(i & q & l & Hi & Hd & Hl & Hc)|[Hd Ho]].
    + specialize (HI i). rewrite Hi in HI. destruct HI as [H1 H2]. exists (Some i). split; [by apply H1|]. cbn.
      rewrite Hi. cbn. unfold is_peer_allowed. destruct (H2 _ Hd) as (_ & _ & -> & _). by rewrite Hl, Hc.
    + by exists None.
  - intros ([i|] & Hd & Ha); [|by right]. left. cbn in Ha. destruct (queues p !! i) as [q|] eqn:Hi; [|done].
    cbn in Ha. specialize (HI i). rewrite Hi in HI. destruct HI as [H1 H2]. apply H1 in Hd.
    unfold is_peer_allowed in Ha. destruct (H2 _ Hd) as (_ & _ & Hb & [l Hl]). rewrite Hb, Hl in Ha.
    exists i, q, l. split_and!; try done. by injection Ha.
Qed.

(** ** The gate an approval sets *)

Lemma start_allowlist net keys i zap q r zap' q' l :
  allowlist q = Some l → start net keys i zap q = (r, (zap', q')) → allowlist q' = Some l.
Proof.
  intros Hl. unfold start, setup, setup_curve, setup_server, open_socket. intros Hst.
  repeat case_match; simplify_eq; cbn; by rewrite ?Hl.
Qed.

Lemma apply_peers_gate running l q q' :
  bind_socket q = true → apply_peers running l q = (true, q') → allowlist q' = Some (allowlist_of l).
Proof.
  intros Hb. unfold apply_peers, set_producer_peers, set_peer_allowlist. intros Ha.
  repeat case_match; simplify_eq; cbn in *; congruence.
Qed.

Lemma approval_gate net keys i artifacts zap q zap' q' l peers :
  bind_socket q = true → json_get (peer_field q) artifacts = Some (JArr l) → mapM (parse_peer false) l = Some peers →
  apply_master_approval net keys i artifacts zap q = (true, (zap', q')) → allowlist q' = Some (allowlist_of peers).
Proof.
  intros Hb Hj Hp. unfold apply_master_approval, parse_peers. rewrite Hj, Hb. cbn [negb andb]. rewrite Hp. cbn.
  destruct (apply_peers (running q) peers q) as [ok q1] eqn:Ha. destruct ok; cbn; [|done].
  apply apply_peers_gate in Ha as Hg; [|done].
  assert (bind_socket q1 = true) as Hb1.
  { pose proof (apply_peers_same (running q) peers q) as (_ & Hs & _). rewrite Ha in Hs. cbn in Hs. congruence. }
  destruct (running q); [by intros [= <- <-]|]. rewrite Hb1, andb_false_r.
  destruct (start net keys i zap q1) as [r [zap2 q2]] eqn:Hst. intros [= _ <- <-]. by eapply start_allowlist.
Qed.

Lemma parse_peer_key dialing e p :
  parse_peer dialing e = Some p → AttachProtocol.value "pubkey_z85" e = KeyStore.Ok (peer_pubkey p).
Proof. unfold parse_peer. intros Hp. repeat case_match; by simplify_eq. Qed.

Lemma allowlist_of_contains l peers key :
  mapM (parse_peer false) l = Some peers →
  contains (allowlist_of peers) ("curve", key) = true ↔
  ∃ e, e ∈ l ∧ AttachProtocol.value "pubkey_z85" e = KeyStore.Ok key.
Proof.
  intros Hm%mapM_Some. unfold contains, allowlist_of. cbn. rewrite bool_decide_eq_true, elem_of_list_to_set.
  rewrite list_elem_of_fmap. split.
  - intros (p & [= ->] & Hp). apply list_elem_of_lookup in Hp as [k Hk].
    destruct (Forall2_lookup_r _ _ _ _ _ Hm Hk) as (e & He & Hpe). exists e. split; [by eapply list_elem_of_lookup_2|].
    by eapply parse_peer_key.
  - intros (e & He & Hv). apply list_elem_of_lookup in He as [k Hk].
    destruct (Forall2_lookup_l _ _ _ _ _ Hm Hk) as (p & Hp & Hpe). apply parse_peer_key in Hpe.
    exists p. split; [congruence|by eapply list_elem_of_lookup_2].
Qed.

End process.

(** C14 A process's router answers every request it gets, once, and lets a key
    through to a domain exactly when the queue that holds the domain lists the
    key, or another component that holds it says so; a domain has one queue at
    most, whatever queues were made, approved, started, stopped and destroyed
    before, with whatever failures. *)
Theorem zap_admits_exactly `{!KeyStore.Sodium} others p req :
  preachable others p → sock (router p) = true → (7 ≤ length req)%nat →
  (∃ reply p', request others (Some req) p = (true, Some reply, p') ∧ queues p' = queues p ∧
     answered req reply (router p) (router p') ∧
     (status_code reply = "200" ↔ well_formed req ∧ opens others p (frame req 2) (presented_key req))) ∧
  (∀ i j q q' d, queues p !! i = Some q → queues p !! j = Some q' → zap_handle q = Some d → zap_handle q' = Some d →
     i = j).
Proof.
  intros HI%pinv_reachable Hs Hl. split.
  - destruct (pump_answers (queue_admission (queues p) others) req (router p) Hs Hl) as (reply & r' & Hp & Ha & Hc).
    exists reply, (p <| router := r' |>). unfold request. rewrite Hp. split_and!; try done.
    by rewrite Hc, (opens_spec others).
  - intros i j q q' d Hi Hj Hd Hd'. pose proof (HI i) as Hhi. pose proof (HI j) as Hhj. rewrite Hi in Hhi. rewrite Hj in Hhj.
    apply (held_iff _ _ _ Hhi) in Hd. apply (held_iff _ _ _ Hhj) in Hd'. congruence.
Qed.

(** C17 After the broker's approval of a listening queue has been taken, the peers
    that get through to its domain are exactly those whose keys the approval
    lists, whatever the queue let in before. *)
Theorem approved_peers_are_admitted `{!KeyStore.Sodium} others p net keys i q artifacts l zap' q' d req :
  preachable others p → queues p !! i = Some q → bind_socket q = true →
  json_get (peer_field q) artifacts = Some (JArr l) →
  apply_master_approval net keys i artifacts (routing (router p)) q = (true, (zap', q')) →
  zap_handle q' = Some d →
  let p' := p <| queues ::= <[i := q']> |> <| router ::= (λ r, r <| routing := zap' |>) |> in
  sock (router p) = true → (7 ≤ length req)%nat → frame req 2 = d → well_formed req →
  ∃ reply p'', request others (Some req) p' = (true, Some reply, p'') ∧
    (status_code reply = "200" ↔ ∃ e, e ∈ l ∧ AttachProtocol.value "pubkey_z85" e = KeyStore.Ok (presented_key req)).
Proof.
  intros HI%pinv_reachable Hi Hb Hj Ha Hd p' Hs Hl Hf Hw.
  assert (PInv p') as HI'.
  { eapply (pinv_step others p); [done|]. eapply ps_call; [done|]. by eapply call_approve. }
  destruct (pump_answers (queue_admission (queues p') others) req (router p') Hs Hl) as (reply & r' & Hp & _ & Hc).
  exists reply, (p' <| router := r' |>). split; [unfold request; by rewrite Hp|].
  rewrite Hc, <- (opens_spec others p') by done. rewrite Hf.
  assert (∃ peers, mapM (parse_peer false) l = Some peers) as [peers Hm].
  { revert Ha. unfold apply_master_approval, parse_peers. rewrite Hj, Hb. cbn [negb andb].
    destruct (mapM (parse_peer false) l); [eauto|done]. }
  pose proof (approval_gate _ _ _ _ _ _ _ _ _ _ Hb Hj Hm Ha) as Hg.
  assert (queues p' !! i = Some q') as Hi' by apply lookup_insert_eq.
  rewrite <- (allowlist_of_contains l peers (presented_key req) Hm). unfold opens. split.
  - intros [_ [(j & qj & lj & Hqj & Hdj & Hlj & Hk)|[Hn _]]].
    + pose proof (HI' i) as Hhi. pose proof (HI' j) as Hhj. rewrite Hi' in Hhi. rewrite Hqj in Hhj.
      assert (j = i) as ->.
      { apply (held_iff _ _ _ Hhi) in Hd. apply (held_iff _ _ _ Hhj) in Hdj. congruence. }
      congruence.
    + pose proof (HI' i) as Hhi. rewrite Hi' in Hhi. apply (held_iff _ _ _ Hhi) in Hd. congruence.
  - intros Hk. split; [done|]. left. by exists i, q', (allowlist_of peers).
Qed.

End ZmqControlProps.
