(* ===== verification/ZmqLifecycle.v ===== *)
(** * The life of a ZeroMQ queue

    Proved of [ZmqControl]: what the factories hand out; that a queue moves
    items only behind CURVE and, if it listens, behind its gate; and what a
    failed start and a deferred dial leave behind. *)

From S2P Require Import Prelude.
From S2P Require Import Json.
From S2P Require Import Entries.
From S2P Require Import ShmHeader.
From S2P Require Import Layout.
From S2P Require Import KeyStore.
From S2P Require Import ZmqWire.
From S2P Require Import ZmqQueue.
From S2P Require Import ZmqDelivery.
From S2P Require Import ZmqControl.
From S2P Require Import ZapRouter.
From S2P Require Import ZmqControlProps.
Import Json Entries ShmHeader FieldLayout ZmqWire ZmqQueue ZmqDelivery ZmqControl ZapRouter ZmqControlProps.

Module ZmqLifecycle.

(** ** What the factories make *)

Lemma field_loop_length packed fields off ma : length (field_loop packed off ma fields).1.1 = length fields.
Proof.
  revert off ma. induction fields as [|f fields IH]; intros off ma; [done|]. cbn.
  match goal with |- context [field_loop packed ?o ?m fields] => specialize (IH o m);
    destruct (field_loop packed o m fields) as [[rest o'] m'] end.
  cbn in *. by rewrite IH.
Qed.

Lemma invalid_type_found schema :
  Forall (λ f, type_str f ≠ "") schema → str_empty (find_invalid_type schema) = true →
  Forall (λ f, is_valid_type_str (type_str f) = true) schema.
Proof.
  unfold find_invalid_type. induction 1 as [|f schema Hf _ IH]; [done|]. rewrite filter_cons.
  destruct (is_valid_type_str (type_str f)) eqn:Hv.
  - rewrite decide_False by done. intros. constructor; auto.
  - rewrite decide_True by done. cbn. intros Hs%str_empty_true. congruence.
Qed.

Lemma accepted_fields schema depth packing :
  schema_accepted schema depth packing = true → Forall (λ f, type_str f ≠ "") schema →
  schema ≠ [] ∧ (0 < depth)%nat ∧ Forall (λ f, field_accepted f = true) schema.
Proof.
  unfold schema_accepted. intros H Hne. apply andb_true_iff in H as [H Hs]. apply andb_true_iff in H as [H Ht].
  apply andb_true_iff in H as [H _]. apply andb_true_iff in H as [Hn Hd]. split_and!.
  - apply negb_true_iff, bool_decide_eq_false in Hn. done.
  - apply negb_true_iff, Nat.eqb_neq in Hd. lia.
  - apply invalid_type_found in Ht; [|done]. rewrite Forall_forall in Ht |- *. rewrite forallb_forall in Hs.
    intros f Hf. unfold field_accepted. rewrite (Ht f Hf). apply Hs. by apply list_elem_of_In.
Qed.

Lemma frames_of_ok schema depth packing tag :
  schema_accepted schema depth packing = true → Forall (λ f, type_str f ≠ "") schema →
  Forall field_widths schema → fields_fit schema → Z.of_nat (length schema) < 65536 →
  length (default (zeros 8) tag) = 8%nat → FramesOk (frames_of schema packing tag).
Proof.
  intros Ha Hne Hw Hfit Hn Ht. destruct (accepted_fields _ _ _ Ha Hne) as (Hnil & _ & Hf).
  unfold frames_of. destruct (compute_field_layout schema packing) as [layouts sz] eqn:Hc.
  assert (length layouts = length schema) as Hlen.
  { revert Hc. unfold compute_field_layout. pose proof (field_loop_length (packing =s "packed") schema 0 1) as Hl.
    destruct (field_loop _ _ _ _) as [[l o] m]. by intros [= <- _]. }
  assert (0 ≤ sz) as Hsz.
  { destruct layouts as [|fl layouts]; [by destruct schema|].
    destruct (computed_field _ _ _ _ 0 fl Hw Hfit Hc eq_refl) as (? & ? & ? & _). lia. }
  pose proof (computed_layout_ok _ _ _ _ Hw Hfit Hf Hc) as Hok.
  constructor; cbn; try done; [by rewrite Z2Nat.id|by rewrite Hlen].
Qed.

(** A queue as the factories hand it out: closed, with an identity of the key
    store, and letting nobody in. *)
Record fresh (keys : KeyStore.Store) (q : Queue) : Prop := {
  fresh_identity : identity_key_name q ≠ "" ∧ KeyStore.has (identity_key_name q) keys = true;
  fresh_closed : running q = false ∧ socket q = false ∧ worker q = false ∧ mechanism q = Uninitialized ∧
                 zap_handle q = None ∧ dial_pending q = false ∧ producer_peers q = [];
  fresh_denies peer : is_peer_allowed q peer = false;
}.

Lemma make_spec ready keys m pattern bind k d o q :
  make ready keys m pattern bind k d o = Some q →
  schema_accepted (o_schema o) (o_buffer_depth o) (o_packing o) = true ∧ fresh keys q ∧
  mode q = m ∧ socket_pattern q = pattern ∧ bind_socket q = bind ∧ server_pubkey_z85 q = k ∧ zap_domain q = d ∧
  frames q = frames_of (o_schema o) (o_packing o) (o_schema_tag o).
Proof.
  unfold make, build_plaintext. destruct (validate_curve_factory_params _ _ _) eqn:Hv; [|done]. cbn [negb].
  unfold validate_curve_factory_params in Hv.
  apply andb_true_iff in Hv as [Hv _]. apply andb_true_iff in Hv as [Hv Hhas].
  apply andb_true_iff in Hv as [Hne _]. apply negb_true_iff, str_empty_false in Hne.
  destruct (schema_accepted _ _ _) eqn:Ha; [|done]. cbn. intros [= <-].
  split_and!; try done. constructor; cbn; [done|done|]. intros peer. unfold is_peer_allowed. cbn. by rewrite andb_false_r.
Qed.

(** What each factory passes on. *)
Definition factory (reader : bool) := if reader then create_reader else create_writer.

(** Readers listen under fan-in, writers otherwise. *)
Definition binds (reader : bool) (t : ChannelTopology) : bool :=
  if reader then bool_decide (t = FanIn) else negb (bool_decide (t = FanIn)).

Lemma factory_spec (reader : bool) ready keys t o q :
  factory reader ready keys t o = Some q →
  ∃ k d, make ready keys (if reader then Read else Write) (if bool_decide (t = FanOut) then PubSub else PushPull)
           (binds reader t) k d o = Some q ∧
         (binds reader t = true → k = "").
Proof.
  unfold factory. destruct reader, t; unfold create_reader, create_writer, pull_from, push_to;
    try (destruct (KeyStore.pubkey_empty (o_server_pubkey o)) eqn:He; [done|]);
    intros Hq; do 2 eexists; (split; [exact Hq|done]).
Qed.

(** ** Behind CURVE *)

Definition safe (q : Queue) : Prop :=
  identity_key_name q ≠ "" ∧
  (worker q = true ∨ mechanism q ≠ Uninitialized →
   mechanism q = Curve ∧ socket q = true ∧ running q = true ∧
   (bind_socket q = true → is_Some (zap_handle q) ∧ is_Some (allowlist q))).

(** Calls that leave what [safe] looks at. *)
Definition same_safety (q q' : Queue) : Prop :=
  identity_key_name q' = identity_key_name q ∧ worker q' = worker q ∧ mechanism q' = mechanism q ∧
  socket q' = socket q ∧ running q' = running q ∧ bind_socket q' = bind_socket q ∧ zap_handle q' = zap_handle q ∧
  (is_Some (allowlist q) → is_Some (allowlist q')).

Lemma safe_same q q' : same_safety q q' → safe q → safe q'.
Proof.
  intros (E1 & E2 & E3 & E4 & E5 & E6 & E7 & E8) [H1 H2]. unfold safe.
  rewrite E1, E2, E3, E4, E5, E6, E7. split; [done|]. intros Hw. destruct (H2 Hw) as (? & ? & ? & H).
  split_and!; try done. intros Hb. destruct (H Hb). auto.
Qed.

Lemma same_safety_refl q : same_safety q q.
Proof. by repeat split. Qed.
Lemma same_safety_trans q1 q2 q3 : same_safety q1 q2 → same_safety q2 q3 → same_safety q1 q3.
Proof. unfold same_safety. intros; destruct_and!; split_and!; [congruence..|auto]. Qed.
#[local] Hint Resolve same_safety_refl : core.

Lemma set_peer_allowlist_safety l q : same_safety q (set_peer_allowlist l q).2.
Proof. unfold set_peer_allowlist. destruct (bind_socket q); [|done]. repeat split; cbn; eauto. Qed.
Lemma set_producer_peers_safety l q : same_safety q (set_producer_peers l q).2.
Proof. unfold set_producer_peers. by repeat case_match. Qed.

Lemma apply_peers_safety running l q : same_safety q (apply_peers running l q).2.
Proof.
  unfold apply_peers. pose proof (set_producer_peers_safety l q) as Hs.
  assert (∀ q1, same_safety q1 (promote l q1)) as Hp by (by intros; destruct l).
  destruct (bool_decide (mode q = Read)); [destruct (set_producer_peers l q) as [ok q1]|]; cbn in *.
  - destruct ok; cbn; [|done]. eapply same_safety_trans; [exact Hs|].
    destruct (bind_socket q1); [apply set_peer_allowlist_safety|]. destruct running; auto.
  - destruct (bind_socket q); [apply set_peer_allowlist_safety|]. destruct running; auto.
Qed.

(** A queue that does not run has neither worker nor mechanism; what [setup]
    does to it. *)
Definition closed (q : Queue) : Prop := identity_key_name q ≠ "" ∧ worker q = false ∧ mechanism q = Uninitialized.

Lemma safe_closed q : safe q → running q = false → closed q.
Proof.
  intros [H1 H2] Hr. split_and!; [done| |].
  - destruct (worker q) eqn:Hw; [|done]. destruct (H2 (or_introl eq_refl)) as (_ & _ & ? & _). congruence.
  - destruct (decide (mechanism q = Uninitialized)) as [|Hm]; [done|].
    destruct (H2 (or_intror Hm)) as (_ & _ & ? & _). congruence.
Qed.

Lemma closed_safe q : closed q → safe q.
Proof. intros (H1 & H2 & H3). split; [done|]. rewrite H2, H3. intros [?|?]; done. Qed.

Lemma setup_safety net keys i zap q r zap' q' :
  closed q → setup net keys i zap q = (r, (zap', q')) →
  closed q' ∧ (r = None → socket q' = true ∧ running q' = running q ∧
               (bind_socket q' = true → is_Some (zap_handle q') ∧ is_Some (allowlist q'))).
Proof.
  intros Hc. pose proof (proj1 Hc) as Hid. apply str_empty_false in Hid.
  unfold setup, setup_curve, setup_server, closed in *. intros Hs.
  destruct (socket_ok net); cbn [negb] in Hs; [|by simplify_eq].
  change (identity_key_name (q <| socket := true |>)) with (identity_key_name q) in Hs. rewrite Hid in Hs.
  destruct (KeyStore.pubkey _ _); [|by simplify_eq]. destruct (curve_ok net); cbn [negb] in Hs; [|by simplify_eq].
  destruct (bind_socket (q <| socket := true |>)) eqn:Hb.
  - destruct (zap_domain_ok _ _); cbn [negb] in Hs; [|by simplify_eq].
    destruct (register_domain _ _ _ _); [|by simplify_eq]. simplify_eq. cbn. split; [done|]. eauto 10.
  - simplify_eq. cbn. split; [done|]. intros _. split_and!; try done. cbn in Hb. congruence.
Qed.

Lemma start_safety net keys i zap q r zap' q' :
  safe q → start net keys i zap q = (r, (zap', q')) → safe q'.
Proof.
  intros Hs. unfold start. destruct (running q) eqn:Hr; [by intros [= <- <- <-]|].
  destruct (negb (is_configured q)); [by intros [= <- <- <-]|].
  destruct (setup net keys i zap (q <| running := true |>)) as [e [zap1 q1]] eqn:Hq.
  pose proof (safe_closed _ Hs Hr) as Hc. apply setup_safety in Hq as [Hc1 Hok]; [|done].
  destruct e as [[]|]; intros [= <- <- <-]; try (by apply closed_safe).
  - apply closed_safe. destruct Hc1 as (? & ? & ?). by split_and!.
  - apply closed_safe. destruct Hc1 as (? & ? & ?). by split_and!.
  - destruct Hc1 as (H1 & _ & _). destruct (Hok eq_refl) as (H2 & H3 & H4). split; [done|]. intros _.
    cbn. by split_and!.
Qed.

Lemma stop_safety zap q : safe q → safe (stop zap q).2.
Proof.
  intros Hs. unfold stop. destruct (running q); cbn; [|done]. apply closed_safe.
  destruct (zap_handle q); cbn; (split_and!; [apply Hs|done..]).
Qed.

Lemma approval_safety net keys i artifacts zap q r zap' q' :
  safe q → apply_master_approval net keys i artifacts zap q = (r, (zap', q')) → safe q'.
Proof.
  intros Hs. unfold apply_master_approval. destruct (parse_peers q artifacts) as [have|]; [|by intros [= <- <- <-]].
  assert (same_safety q (match have with Some l => apply_peers (running q) l q | None => (true, q) end).2) as Hsame.
  { destruct have; [apply apply_peers_safety|done]. }
  destruct (match have with Some _ => _ | None => _ end) as [ok q1]. cbn in Hsame. apply safe_same in Hsame; [|done].
  destruct (negb ok); [by intros [= <- <- <-]|]. destruct (running q); [by intros [= <- <- <-]|].
  destruct (_ && _); [intros [= <- <- <-]; by apply (safe_same q1)|].
  destruct (start net keys i zap q1) as [b [zap2 q2]] eqn:Hst. intros [= <- <- <-]. by eapply start_safety.
Qed.

Lemma call_safety i zap q zap' q' : safe q → call i zap q zap' q' → safe q'.
Proof.
  intros Hs Hc. destruct Hc as [net keys r zap' q' H|zap' q' H|net keys a r zap' q' H|net keys turns r zap' q' H
    |l r q' H|l r q' H|p r q' H|policy|u r q' H|e].
  - by eapply start_safety.
  - pose proof (stop_safety zap q Hs) as H'. by rewrite H in H'.
  - by eapply approval_safety.
  - revert H. unfold finalize_connect. destruct (negb _); [by intros [= <- <- <-]|].
    destruct (poll_peer turns) as [[]|]; [|by intros [= <- <- <-]|done].
    intros [= H]. eapply start_safety in H; [exact H|]. by apply (safe_same q).
  - pose proof (set_peer_allowlist_safety l q) as H'. rewrite H in H'. by eapply safe_same.
  - pose proof (set_producer_peers_safety l q) as H'. rewrite H in H'. by eapply safe_same.
  - revert H. unfold add_producer_peer. destruct (negb _); intros [= <- <-]; by apply (safe_same q).
  - by apply (safe_same q).
  - revert H. unfold remove_producer_peer. repeat case_match; intros [= <- <-]; by apply (safe_same q).
  - destruct Hs as [H1 H2]. split; [done|]. cbn. intros [[Hw _]%andb_true_iff|Hm]; auto.
Qed.

Lemma made_safe q : made q → safe q.
Proof.
  assert (∀ reader ready keys t o, factory reader ready keys t o = Some q → safe q) as Hf.
  { intros reader ready keys t o (k & d & Hm & _)%factory_spec. apply make_spec in Hm as (_ & [[Hid _] Hc _] & _).
    destruct Hc as (_ & _ & Hw & Hm & _). by apply closed_safe. }
  intros (ready & keys & t & o & [H|H]); [by apply (Hf true ready keys t o)|by apply (Hf false ready keys t o)].
Qed.

Section process.
Context {sodium : KeyStore.Sodium} (others : PeerIdentity → option bool).

Lemma safe_reachable p : preachable others p → map_Forall (λ _, safe) (queues p).
Proof.
  unfold preachable. revert p. apply (rtc_ind_r (λ p, map_Forall (λ _, safe) (queues p))); [apply map_Forall_empty|].
  intros p p' _ Hst HI. destruct Hst as [i q Hi Hm|i q zap' q' Hi Hc|i q Hi|net d zap' Hr|d Hd|b| |msg]; cbn; try done.
  - apply map_Forall_insert_2; [by apply made_safe|done].
  - apply map_Forall_insert_2; [|done]. eapply call_safety; [|done]. by apply (HI i).
  - by apply map_Forall_delete.
  - unfold request. by destruct (pump_one _ _ _) as [[??]?].
Qed.

End process.

(** C18 Items move only behind CURVE: in every reachable process a queue whose
    thread runs reports CURVE; and a queue that reports a mechanism reports
    CURVE, is running with its socket open, and if it listens, the router has
    its domain and the queue an allowlist, so that nobody connects unseen.  The
    converse of the first part does not hold: a thread may leave its loop, and
    the queue goes on reporting CURVE
    ([ZmqToy.dead_reader_reads_as_running]). *)
Theorem no_data_without_curve `{!KeyStore.Sodium} others p i q :
  preachable others p → queues p !! i = Some q →
  (worker q = true → mechanism q = Curve) ∧
  (mechanism q ≠ Uninitialized →
   mechanism q = Curve ∧ running q = true ∧ socket q = true ∧
   (bind_socket q = true →
    ∃ d l, zap_handle q = Some d ∧ routing (router p) !! d = Some (Some i) ∧ allowlist q = Some l)).
Proof.
  intros Hp Hi. pose proof (safe_reachable others p Hp i q Hi) as [_ Hs]. pose proof (pinv_reachable others p Hp i) as Hh.
  rewrite Hi in Hh. split.
  - intros Hq. by destruct (Hs (or_introl Hq)).
  - intros Hq. destruct (Hs (or_intror Hq)) as (Hm & Hso & Hr & Hb). split_and!; try done. intros Hbind.
    destruct (Hb Hbind) as [[d Hd] [l Hl]]. exists d, l. split_and!; try done. by apply (held_iff _ _ _ Hh).
Qed.

(** What the factories make of a topology: a reader listens under fan-in, a
    writer otherwise; fan-out publishes; the queue is closed, has an identity of
    the key store and lets nobody in; its rings have the depth asked for and its
    frames carry its items, provided no field has the empty type. *)
Theorem created_queue (reader : bool) ready keys t o q :
  factory reader ready keys t o = Some q →
  Forall (λ f, type_str f ≠ "") (o_schema o) → Forall field_widths (o_schema o) → fields_fit (o_schema o) →
  Z.of_nat (length (o_schema o)) < 65536 → length (default (zeros 8) (o_schema_tag o)) = 8%nat →
  fresh keys q ∧ mode q = (if reader then Read else Write) ∧ bind_socket q = binds reader t ∧
  (socket_pattern q = PubSub ↔ t = FanOut) ∧ (bind_socket q = true → server_pubkey_z85 q = "") ∧
  FramesOk (frames q) ∧
  (if reader then ring_ok (o_buffer_depth o) (recv_ring (rx q)) else ring_ok (o_buffer_depth o) (send_ring (tx q))).
Proof.
  intros (k & d & Hm & Hk)%factory_spec Hne Hw Hfit Hn Ht. pose proof Hm as Hmake.
  apply make_spec in Hm as (Ha & Hf & Hmo & Hpa & Hb & Hs & _ & Hfr).
  destruct (accepted_fields _ _ _ Ha Hne) as (_ & Hd & _). split_and!; try done.
  - rewrite Hpa. by case_bool_decide.
  - rewrite Hb, Hs. done.
  - rewrite Hfr. by apply (frames_of_ok _ (o_buffer_depth o)).
  - revert Hmake. unfold make, build_plaintext. destruct (negb _); [done|]. rewrite Ha. cbn. intros [= <-].
    destruct reader; by apply new_ring_ok.
Qed.

(** ** Failures *)

(** What a start of a listening queue meets up to its bind. *)
Definition reaches_bind (net : Net) (keys : KeyStore.Store) (q : Queue) : Prop :=
  socket_ok net = true ∧ curve_ok net = true ∧ zap_domain_ok net (resolve_domain q) = true ∧
  ∃ pub, KeyStore.pubkey (identity_key_name q) keys = KeyStore.Ok pub.

(** A queue that starts while it holds its domain cannot. *)
Lemma restart_escapes net keys i zap q d :
  running q = false → bind_socket q = true → endpoint q ≠ "" → identity_key_name q ≠ "" → reaches_bind net keys q →
  resolve_domain q = d → zap !! d = Some (Some i) →
  ∃ q', start net keys i zap q = (None, (zap, q')) ∧ running q' = true ∧ worker q' = worker q ∧
        mechanism q' = mechanism q.
Proof.
  intros Hr Hb He Hid (Hso & Hcu & Hdo & pub & Hpub) Hd Hz. apply str_empty_false in Hid, He.
  unfold start, is_configured, setup, setup_curve, setup_server. rewrite Hr, Hb, He, Hso. cbn.
  rewrite Hid, Hpub, Hcu. cbn. change (resolve_domain _) with (resolve_domain q). rewrite Hdo. cbn.
  assert (register_domain net (resolve_domain q) (Some i) zap = None) as ->.
  { unfold register_domain, table_register. destruct (str_empty (resolve_domain q)); [done|].
    destruct (load_module net); [|done].
    cbn. by rewrite Hd, Hz. }
  rewrite Hb. eexists. split; [done|]. cbn. done.
Qed.

(** A queue whose bind fails. *)
Definition bind_failed (q : Queue) : Queue :=
  q <| running := false |> <| socket := false |> <| resolved_zap_domain := resolve_domain q |>
    <| allowlist ::= (λ l, Some (default (mkAllowlist ∅ false) l)) |> <| zap_handle := Some (resolve_domain q) |>
    <| mechanism := Uninitialized |>.

Lemma bind_fails net keys i zap q pub :
  running q = false → bind_socket q = true → str_empty (endpoint q) = false →
  str_empty (identity_key_name q) = false → KeyStore.pubkey (identity_key_name q) keys = KeyStore.Ok pub →
  socket_ok net = true → curve_ok net = true → zap_domain_ok net (resolve_domain q) = true → load_module net = true →
  bind_ok net (endpoint q) = false → str_empty (resolve_domain q) = false → zap_handle q = None →
  zap !! resolve_domain q = None →
  start net keys i zap q = (Some false, (<[resolve_domain q := Some i]> zap, bind_failed q)).
Proof.
  intros Hr Hb He Hid Hpub Hso Hcu Hdo Hload Hbind Hdn Hz Hfree.
  unfold start, is_configured, setup, setup_curve, setup_server, open_socket, register_domain, table_register.
  rewrite Hr, Hb, He, Hso. cbn. rewrite Hid, Hpub, Hcu. cbn. rewrite Hb. cbn.
  repeat change (resolve_domain (mkQueue _ _ _ _ _ _ _ _ _ _ _ _ _ _ _ _ _ _ _ _ _ _ _ _ _ _ _)) with (resolve_domain q).
  rewrite Hdo. cbn. rewrite Hdn, Hload, Hfree. cbn. rewrite Hz. cbn. rewrite Hbind. unfold bind_failed. cbn.
  by rewrite Hb.
Qed.

(** C21 What becomes of a listening queue whose bind fails, say because its port
    is still taken: the start reports the failure, but the queue keeps its
    domain.  The next approval fails although nothing is in its way, for the
    start it drives trips over the queue's own domain; that exception leaves the
    queue marked as running.  The approval after that reports success, with no
    thread and no CURVE. *)
Theorem failed_bind_reads_as_running net net' keys i zap q artifacts :
  running q = false → worker q = false → mechanism q = Uninitialized → bind_socket q = true → endpoint q ≠ "" →
  identity_key_name q ≠ "" →
  zap_handle q = None → resolve_domain q ≠ "" → zap !! resolve_domain q = None → load_module net = true →
  reaches_bind net keys q → bind_ok net (endpoint q) = false →
  reaches_bind net' keys q → json_get (peer_field q) artifacts = None →
  ∃ q1 q2,
    let zap1 := <[resolve_domain q := Some i]> zap in
    start net keys i zap q = (Some false, (zap1, q1)) ∧ running q1 = false ∧
    apply_master_approval net' keys i artifacts zap1 q1 = (false, (zap1, q2)) ∧
    apply_master_approval net' keys i artifacts zap1 q2 = (true, (zap1, q2)) ∧
    running q2 = true ∧ worker q2 = false ∧ mechanism q2 = Uninitialized.
Proof.
  intros Hr Hw Hm Hb He Hid Hz Hdn Hfree Hload (Hso & Hcu & Hdo & pub & Hpub) Hbind Hre Hj.
  pose proof Hid as Hid'. pose proof He as He'. apply str_empty_false in Hid', He', Hdn.
  assert (∃ q1, start net keys i zap q = (Some false, (<[resolve_domain q := Some i]> zap, q1)) ∧ running q1 = false ∧
            worker q1 = false ∧ mechanism q1 = Uninitialized ∧ bind_socket q1 = true ∧ endpoint q1 = endpoint q ∧
            identity_key_name q1 = identity_key_name q ∧ resolve_domain q1 = resolve_domain q ∧
            mode q1 = mode q) as (q1 & Hst & Hr1 & Hw1 & Hm1 & Hb1 & He1 & Hid1 & Hd1 & Hmo1).
  { eexists. split; [by apply (bind_fails net keys i zap q pub)|]. done. }
  assert (reaches_bind net' keys q1) as Hre1 by (unfold reaches_bind in *; by rewrite Hd1, Hid1).
  rewrite <- He1 in He. rewrite <- Hid1 in Hid.
  destruct (restart_escapes net' keys i (<[resolve_domain q := Some i]> zap) q1 (resolve_domain q) Hr1 Hb1 He Hid Hre1 Hd1
              ltac:(apply lookup_insert_eq)) as (q2 & Hst2 & Hr2 & Hw2 & Hm2).
  exists q1, q2. cbv zeta. unfold apply_master_approval, parse_peers, peer_field in *.
  assert (mode q2 = mode q) as Hmo2.
  { revert Hst2. unfold start, setup, setup_curve, setup_server. intros Hst2. repeat case_match; simplify_eq; done. }
  rewrite Hmo2, Hmo1, Hj, Hr1, Hr2, Hb1. cbn. rewrite Hst2. rewrite andb_false_r. cbn.
  split_and!; try done; congruence.
Qed.

(** What a start says of the queue it leaves. *)
Lemma start_notes net keys i zap q r zap' q' :
  running q = false → start net keys i zap q = (r, (zap', q')) →
  dial_pending q' = dial_pending q ∧
  (r = Some true → worker q' = true ∧ mechanism q' = Curve ∧ running q' = true) ∧
  (r = Some false → running q' = false ∧ worker q' = worker q).
Proof.
  intros Hr. unfold start. rewrite Hr. destruct (negb (is_configured q)); [by intros [= <- <- <-]|].
  unfold setup, setup_curve, setup_server. intros Hst.
  repeat case_match; simplify_eq; cbn; split_and!; try done; intros; simplify_eq; done.
Qed.

(** The deferred dial of a fan-in producer: the approval opens no socket and
    marks the dial as pending; the role waits until the peer is ready, its time
    is up or it is told to stop, and only readiness dials.  A dial that fails is
    no longer pending, so asking again reports success without a connection. *)
Theorem deferred_dial net net' net'' keys i artifacts zap q turns turns' have :
  running q = false → mode q = Write → bind_socket q = false → parse_peers q artifacts = Some have →
  ∃ q1,
    apply_master_approval net keys i artifacts zap q = (true, (zap, q1)) ∧
    running q1 = false ∧ socket q1 = socket q ∧ worker q1 = worker q ∧ dial_pending q1 = true ∧
    match poll_peer turns with
    | None => finalize_connect net' keys i turns zap q1 = None
    | Some false => finalize_connect net' keys i turns zap q1 = Some (Some false, (zap, q1))
    | Some true =>
        ∃ r zap2 q2, finalize_connect net' keys i turns zap q1 = Some (r, (zap2, q2)) ∧ dial_pending q2 = false ∧
          (r = Some true → worker q2 = true ∧ mechanism q2 = Curve ∧ running q2 = true) ∧
          (r = Some false → running q2 = false ∧ worker q2 = worker q ∧
             finalize_connect net'' keys i turns' zap2 q2 = Some (Some true, (zap2, q2)))
    end.
Proof.
  intros Hr Hm Hb Hp. unfold apply_master_approval. rewrite Hp, Hr.
  destruct (match have with Some l => apply_peers false l q | None => (true, q) end) as [ok q0] eqn:Ha.
  assert (ok = true ∧ running q0 = false ∧ mode q0 = Write ∧ bind_socket q0 = false ∧ socket q0 = socket q ∧
          worker q0 = worker q) as (-> & Hr0 & Hm0 & Hb0 & Hs0 & Hw0).
  { destruct have as [l|]; [|by simplify_eq]. revert Ha. unfold apply_peers.
    rewrite (bool_decide_eq_false_2 (mode q = Read)) by congruence. cbn. rewrite Hb. intros [= <- <-].
    by destruct l. }
  cbn [negb]. rewrite Hm0, Hb0, bool_decide_true by done. cbn [andb negb].
  eexists. split; [done|]. cbn. split_and!; try done.
  unfold finalize_connect. cbn [negb]. cbn. destruct (poll_peer turns) as [[]|]; [|done|done].
  set (q1 := q0 <| dial_pending := true |> <| dial_pending := false |>).
  destruct (start net' keys i zap q1) as [r [zap2 q2]] eqn:Hst. exists r, zap2, q2.
  destruct (start_notes net' keys i zap q1 r zap2 q2) as (Hd2 & Hok & Hno); [done..|].
  split; [exact (f_equal Some Hst)|]. split_and!; [done..|]. intros He. destruct (Hno He) as [Hr2 Hw2].
  split_and!; [done|by rewrite Hw2|]. by rewrite Hd2.
Qed.

End ZmqLifecycle.
