(* ===== verification/ZmqToy.v ===== *)
(** * Concrete queues over a toy format

    A small format with the laws [MsgpackLaws] asks for, a toy hash, a writer, a
    reader and a process that were run on them, and the theorems of
    [ZmqQueueProps], [ZmqDelivery], [ZmqControlProps] and [ZmqLifecycle] at
    these values. *)

From S2P Require Import Prelude.
From S2P Require Import Json.
From S2P Require Import Entries.
From S2P Require Import ShmHeader.
From S2P Require Import Layout.
From S2P Require Import KeyStore.
From S2P Require Import AttachProtocol.
From S2P Require Import HandshakeProps.
From S2P Require Import HandshakeToy.
From S2P Require Import ZmqWire.
From S2P Require Import ZmqQueue.
From S2P Require Import ZmqQueueProps.
From S2P Require Import ZmqDelivery.
From S2P Require Import ZmqControl.
From S2P Require Import ZapRouter.
From S2P Require Import ZmqControlProps.
From S2P Require Import ZmqLifecycle.
From Stdlib Require Import Sorting.Sorted.
Import Json Entries ShmHeader FieldLayout ZmqWire ZmqQueue ZmqQueueProps ZmqDelivery.

Module ZmqToy.

(** ** A format *)

(** A value is a number; an object starts with its kind and its length in one
    number. *)
Fixpoint toy_serialize (o : Obj Z) : list Z :=
  match o with
  | OBin b => 3 * Z.of_nat (length b) :: b
  | OArr l => 3 * Z.of_nat (length l) + 1 :: concat (toy_serialize <$> l)
  | OVal v => [2; v]
  end.

Fixpoint many (p : list Z → option (Obj Z * list Z)) (n : nat) (s : list Z) : option (list (Obj Z) * list Z) :=
  match n with
  | O => Some ([], s)
  | S n => '(o, s) ← p s; '(l, s) ← many p n s; Some (o :: l, s)
  end.

Fixpoint parse_object (fuel : nat) (s : list Z) : option (Obj Z * list Z) :=
  match fuel, s with
  | S fuel, t :: s =>
      let n := Z.to_nat (t / 3) in
      if t mod 3 =? 0 then Some (OBin (take n s), drop n s)
      else if t mod 3 =? 1 then '(l, s) ← many (parse_object fuel) n s; Some (OArr l, s)
      else match s with v :: s => Some (OVal v, s) | [] => None end
  | _, _ => None
  end.

(** Little-endian scalars. *)
Fixpoint to_bytes (n : nat) (v : Z) : list Z :=
  match n with O => [] | S n => v mod 256 :: to_bytes n (v / 256) end.

#[export] Instance toy_msgpack : Msgpack := {|
  Value := Z;
  pack_uint := λ n, n;
  convert_uint := λ w v, if (0 <=? v) && (v <? 2 ^ w) then Some v else None;
  pack_scalar := λ _ b, foldr (λ x acc, x + 256 * acc) 0 b;
  convert_scalar := λ t v, Some (to_bytes (Z.to_nat (field_elem_size t)) v);
  value_size := λ _, 2;
  serialize := toy_serialize;
  unpack := λ s, match parse_object (length s) s with Some (o, []) => Some o | _ => None end;
|}.

Lemma obj_nested_ind (P : Obj Z → Prop) :
  (∀ b, P (OBin b)) → (∀ l, Forall P l → P (OArr l)) → (∀ v, P (OVal v)) → ∀ o, P o.
Proof.
  intros H1 H2 H3. fix IH 1. intros [b|l|v]; [apply H1| |apply H3]. apply H2.
  induction l as [|o l IHl]; constructor; [apply IH|apply IHl].
Qed.

Lemma many_parses (p : list Z → option (Obj Z * list Z)) l rest :
  Forall (λ o, ∀ rest, p (toy_serialize o ++ rest) = Some (o, rest)) l →
  many p (length l) (concat (toy_serialize <$> l) ++ rest) = Some (l, rest).
Proof.
  induction 1 as [|o l Ho _ IH]; [done|]. cbn. rewrite <- app_assoc, Ho. cbn. by rewrite IH.
Qed.

Lemma parse_serialize o fuel rest :
  (length (toy_serialize o) ≤ fuel)%nat → parse_object fuel (toy_serialize o ++ rest) = Some (o, rest).
Proof.
  revert fuel rest. induction o as [b|l IH|v] using obj_nested_ind; intros [|fuel] rest Hf; cbn in Hf; try lia;
    cbn -[Z.mul Z.div Z.modulo].
  - replace (3 * Z.of_nat (length b)) with (Z.of_nat (length b) * 3) by lia.
    rewrite Z.mod_mul, Z.div_mul, Nat2Z.id by done. cbn. by rewrite take_app_length, drop_app_length.
  - replace (3 * Z.of_nat (length l) + 1) with (1 + Z.of_nat (length l) * 3) by lia.
    rewrite Z.mod_add, Z.div_add by done. change (1 mod 3) with 1. change (1 / 3) with 0.
    rewrite Z.add_0_l, Nat2Z.id. cbn -[many]. rewrite (many_parses (parse_object fuel)); [done|].
    assert (length (concat (toy_serialize <$> l)) ≤ fuel)%nat as Hl by lia. clear Hf.
    induction IH as [|o l Ho _ IHl]; [constructor|]. cbn in Hl. rewrite length_app in Hl. constructor.
    + intros rest'. apply Ho. lia.
    + apply IHl. lia.
  - done.
Qed.

Lemma toy_size o : Z.of_nat (length (toy_serialize o)) ≤ object_size o.
Proof.
  induction o as [b|l IH|v] using obj_nested_ind; cbn -[Z.of_nat].
  - repeat case_match; lia.
  - assert (Z.of_nat (length (concat (toy_serialize <$> l))) ≤ foldr Z.add 0 (@map (Obj Z) Z object_size l)) as Hc.
    { induction IH as [|o l Ho _ IHl]; [done|]. cbn -[Z.of_nat]. rewrite length_app. lia. }
    match goal with |- context [foldr Z.add 0 ?x] => change x with (@map (Obj Z) Z object_size l) end.
    repeat case_match; lia.
  - lia.
Qed.

Lemma toy_format : MsgpackLaws.
Proof.
  constructor.
  - intros w n Hn. cbn. rewrite (proj2 (Z.leb_le 0 n)), (proj2 (Z.ltb_lt n (2 ^ w))) by lia. done.
  - intros o. cbn. pose proof (parse_serialize o (length (toy_serialize o)) [] ltac:(lia)) as Hp.
    rewrite app_nil_r in Hp. by rewrite Hp.
  - apply toy_size.
  - intros v. cbn. lia.
  - intros n Hn. cbn. lia.
Qed.

(** A checksum for a hash, never all zeros. *)
#[export] Instance toy_crypto : Crypto := λ b, Some (replicate 32 (1 + foldr Z.add 0 b)).

Lemma toy_hash_works : hash_works.
Proof. intros x. by eexists. Qed.

(** ** Items with a padding byte *)

Definition toy_schema : list SchemaFieldDesc := [mkField "uint8" 1 0; mkField "uint16" 1 0; mkField "string" 1 2].
Definition toy_frames : Frames := ZmqControl.frames_of toy_schema "aligned" (Some (replicate 8 9)).

Lemma toy_frames_ok : FramesOk toy_frames.
Proof.
  apply (ZmqLifecycle.frames_of_ok toy_schema 2); try done.
  - unfold toy_schema. by rewrite !Forall_cons, Forall_nil.
  - unfold toy_schema. rewrite !Forall_cons, Forall_nil. unfold field_widths, u32_max. cbn. lia.
Qed.

Definition clean : list Z := [7; 0; 1; 2; 65; 66].
Definition dirty : list Z := [7; 5; 1; 2; 65; 66].

Lemma toy_item_ok slot : slot = clean ∨ slot = dirty → item_ok toy_frames slot.
Proof.
  intros [-> | ->]; (split; [done|]); unfold scalars_kept; vm_compute; repeat constructor; done.
Qed.

(** ** A writer that sent its first item and dropped its second *)

Section writer_run.
Let c := toy_frames.

Definition after_acquire (w : Writer) : Writer :=
  let '(a, t) := write_acquire Drop 2 (item_sz c) (ZmqQueueProps.tx w) in
  w <| ZmqQueueProps.tx := t |> <| caller := caller_after a |>.
Definition after_commit (item : list Z) (w : Writer) : Writer :=
  let w := w <| ZmqQueueProps.tx ::= (λ t, t <| write_buf := item |>) |> in
  w <| committed ::= (λ l, l ++ [write_buf (ZmqQueueProps.tx w)]) |> <| ZmqQueueProps.tx ::= write_commit 2 |>
    <| caller := CIdle |>.
Definition after_thread (sr : SendResult) (w : Writer) : Writer :=
  match send_thread_step c 2 Enforced (shutdown w) sr (pc w) (ZmqQueueProps.tx w) with
  | Some (p, t) => (note_outcome sr p w) <| pc := p |> <| ZmqQueueProps.tx := t |>
  | None => w
  end.

Lemma reach_acquire w :
  wreachable c 2 Drop Enforced w → caller w = CIdle → wreachable c 2 Drop Enforced (after_acquire w).
Proof.
  intros Hw Hc. eapply rtc_r; [exact Hw|]. unfold after_acquire.
  destruct (write_acquire Drop 2 (item_sz c) (ZmqQueueProps.tx w)) as [a t] eqn:Ha. by apply ws_acquire.
Qed.

Lemma reach_commit item w :
  wreachable c 2 Drop Enforced w → caller w = CHolding → length item = item_sz c →
  wreachable c 2 Drop Enforced (after_commit item w).
Proof.
  intros Hw Hc Hl. eapply rtc_r; [eapply rtc_r; [exact Hw|by apply (ws_fill _ _ _ _ _ item)]|].
  by apply ws_commit.
Qed.

Lemma reach_thread sr w :
  wreachable c 2 Drop Enforced w → wreachable c 2 Drop Enforced (after_thread sr w).
Proof.
  intros Hw. unfold after_thread. destruct (send_thread_step _ _ _ _ _ _ _) as [[p t]|] eqn:Hs; [|done].
  eapply rtc_r; [exact Hw|]. by eapply ws_thread.
Qed.

End writer_run.

Definition one_item (sr : SendResult) (item : list Z) (w : Writer) : Writer :=
  Nat.iter 5 (after_thread sr) (after_commit item (after_acquire w)).

Lemma reach_item sr item w :
  wreachable toy_frames 2 Drop Enforced w → caller w = CIdle → caller (after_acquire w) = CHolding →
  length item = 6%nat → wreachable toy_frames 2 Drop Enforced (one_item sr item w).
Proof.
  intros Hw Hc Hh Hl. unfold one_item. cbn [Nat.iter nat_rect].
  do 5 apply reach_thread. apply reach_commit; [by apply reach_acquire|done|done].
Qed.

Definition toy_writer : Writer := one_item SendError dirty (one_item SendOk clean (init_writer toy_frames 2)).

Lemma toy_writer_reachable : wreachable toy_frames 2 Drop Enforced toy_writer.
Proof.
  apply reach_item; [|vm_compute; reflexivity..]. apply reach_item; [apply rtc_refl|vm_compute; reflexivity..].
Qed.

Lemma writer_sends_in_order_witness :
  committed toy_writer = [clean; dirty] ∧ outcomes toy_writer = [true; false] ∧
  wire toy_writer = sent_frames toy_frames Enforced [clean; dirty] [true; false].
Proof.
  split; [vm_compute; reflexivity|]. split; [vm_compute; reflexivity|].
  exact (proj1 (writer_sends_in_order toy_frames 2 Drop Enforced toy_writer ltac:(lia) toy_writer_reachable)).
Defined.

Lemma sent_is_accepted_witness :
  omap (decode toy_frames ChecksumNone) (wire toy_writer) = [clean].
Proof.
  assert (Forall (item_ok toy_frames) (committed toy_writer)) as Hi.
  { assert (committed toy_writer = [clean; dirty]) as -> by (vm_compute; reflexivity).
    apply Forall_cons; split; [apply toy_item_ok; auto|]. apply Forall_singleton, toy_item_ok. auto. }
  destruct (sent_is_accepted toy_frames 2 Drop Enforced ChecksumNone toy_writer toy_format toy_hash_works
             toy_frames_ok ltac:(lia) toy_writer_reachable Hi) as [_ Hall].
  rewrite (Hall (or_introl eq_refl)). vm_compute. reflexivity.
Defined.

(** An item whose padding is not clear does not get through. *)
Lemma item_delivery_witness :
  recv_message toy_frames 2 Enforced (item_frame toy_frames Enforced 4 dirty) (new_rx 2 6)
  = (note_seq 4 (new_rx 2 6)) <| checksum_error_count ::= u64_succ |> ∧
  policy_accepts Enforced Enforced clean clean = true.
Proof.
  destruct (item_delivery toy_frames Enforced Enforced 2 4 dirty (new_rx 2 6) toy_format toy_hash_works toy_frames_ok
              (toy_item_ok dirty (or_intror eq_refl)) ltac:(lia)) as (_ & Hno & _).
  split; [apply Hno; vm_compute; reflexivity|].
  destruct (item_delivery toy_frames Enforced Enforced 2 4 clean (new_rx 2 6) toy_format toy_hash_works toy_frames_ok
              (toy_item_ok clean (or_introl eq_refl)) ltac:(lia)) as (_ & _ & Hyes & _).
  apply Hyes; vm_compute; reflexivity.
Defined.

Lemma gap_counter_witness :
  recv_gap_count (receive_all toy_frames Enforced Enforced 2 [(3, clean); (5, clean)] (new_rx 2 6)) = 1 ∧
  recv_gap_count (receive_all toy_frames Enforced Enforced 2 [(8, clean); (3, clean); (9, clean)] (new_rx 2 6)) = 5.
Proof.
  destruct (gap_counter toy_frames Enforced Enforced 2 toy_format toy_hash_works toy_frames_ok) as [H1 H2].
  pose proof (toy_item_ok clean (or_introl eq_refl)) as Hi. split.
  - apply (H1 [(3, clean); (5, clean)] 3 5); [|by repeat constructor|done|done].
    apply Forall_cons; split; [|apply Forall_singleton]; (split; [exact Hi|]); cbn; unfold u64_max, u64_modulus; lia.
  - apply (H2 8 3 clean clean clean); [apply Forall_cons; split; [exact Hi|]; apply Forall_cons; split;
      [exact Hi|by apply Forall_singleton]|lia|lia|unfold u64_max, u64_modulus; lia].
Defined.

(** ** A reader whose ring of two overflows *)

Definition toy_reader : Reader :=
  let step seq r :=
    let msg := item_frame toy_frames Enforced seq clean in
    r <| ZmqQueueProps.rx ::= recv_message toy_frames 2 Enforced msg |>
      <| accepted ::= (λ l, l ++ option_list (decode toy_frames Enforced msg)) |> in
  step 2 (step 1 (step 0 (init_reader toy_frames 2))).

Lemma toy_reader_reachable : rreachable toy_frames 2 Enforced toy_reader.
Proof. unfold toy_reader. do 3 (eapply rtc_r; [|apply rs_message]). apply rtc_refl. Qed.

Lemma reader_keeps_the_newest_witness :
  accepted toy_reader = [clean; clean; clean] ∧
  ring_contents 2 (recv_ring (ZmqQueueProps.rx toy_reader)) = [clean; clean] ∧
  ∃ before, accepted toy_reader = before ++ [clean; clean].
Proof.
  split; [vm_compute; reflexivity|].
  assert (ring_contents 2 (recv_ring (ZmqQueueProps.rx toy_reader)) = [clean; clean]) as Hc
    by (vm_compute; reflexivity).
  split; [exact Hc|]. rewrite <- Hc.
  exact (proj1 (proj2 (proj2 (reader_keeps_the_newest toy_frames 2 Enforced toy_reader ltac:(lia) toy_reader_reachable)))).
Defined.

(** ** A process with one listening queue *)

Import HandshakeProps HandshakeToy ZmqControl ZapRouter ZmqControlProps ZmqLifecycle.

Definition toy_options : CreateOptions :=
  mkOptions "tcp://h:1" KeyStore.default_pubkey toy_schema "aligned" "id" "" 2 (Some (replicate 8 9)) Drop "cons" "c@1".
Definition toy_keys : KeyStore.Store := store_of 1.
Definition toy_queue : Queue := (new_queue Read PushPull true toy_options) <| identity_key_name := "id" |>.
Definition toy_net (bind : bool) : Net := mkNet true true (λ _, true) (λ _, bind) (λ _ _, true) true None true.

Lemma toy_queue_made : create_reader true toy_keys FanIn toy_options = Some toy_queue.
Proof. vm_compute. reflexivity. Qed.

Definition toy_others : PeerIdentity → option bool := λ _, None.
Definition toy_process : Process := mkProcess {[0%nat := toy_queue]} (mkRouter true ∅ 0 0).

Lemma toy_process_reachable : preachable toy_others toy_process.
Proof.
  unfold preachable. eapply rtc_l; [apply (ps_create toy_others init 0 toy_queue); [apply lookup_empty|]|].
  { exists true, toy_keys, FanIn, toy_options. left. apply toy_queue_made. }
  eapply rtc_l; [apply (ps_startup toy_others _ true)|]. apply rtc_refl.
Qed.

(** The broker's approval lists the key of identity 2. *)
Definition toy_approval : json :=
  JObj [("producers", JArr [JObj [("pubkey_z85", JStr (z85_of 2))]])].
Definition toy_approved : gmap string (option nat) * Queue :=
  (apply_master_approval (toy_net true) toy_keys 0 toy_approval ∅ toy_queue).2.

Lemma toy_approval_taken :
  apply_master_approval (toy_net true) toy_keys 0 toy_approval ∅ toy_queue = (true, toy_approved).
Proof. vm_compute. reflexivity. Qed.

Definition toy_running : Process :=
  toy_process <| queues ::= <[0%nat := toy_approved.2]> |>
    <| router ::= (λ r, r <| routing := toy_approved.1 |>) |>.

Lemma toy_running_reachable : preachable toy_others toy_running.
Proof.
  eapply rtc_r; [exact toy_process_reachable|]. unfold toy_running.
  apply (ps_call toy_others toy_process 0 toy_queue); [apply lookup_singleton_eq|].
  eapply (call_approve _ _ _ (toy_net true) toy_keys toy_approval).
  exact (eq_trans toy_approval_taken (f_equal (pair true) (surjective_pairing toy_approved))).
Qed.

(** A request of the peer with the given identity for the queue's domain. *)
Definition toy_request (b : Z) : list string := ["1.0"; "7"; "cons"; ""; ""; "CURVE"; AttachProtocol.string_of_bytes (key_of b)].

Lemma toy_request_key b : b = 2 ∨ b = 3 → presented_key (toy_request b) = z85_of b ∧ well_formed (toy_request b).
Proof. intros [-> | ->]; (split; [vm_compute; reflexivity|]); (split_and!; [done|done|]); vm_compute; discriminate. Qed.

Lemma approved_peers_are_admitted_witness :
  (∃ reply p', request toy_others (Some (toy_request 2)) toy_running = (true, Some reply, p') ∧ status_code reply = "200") ∧
  (∃ reply p', request toy_others (Some (toy_request 3)) toy_running = (true, Some reply, p') ∧ status_code reply ≠ "200").
Proof.
  assert (∀ b, b = 2 ∨ b = 3 →
    ∃ reply p', request toy_others (Some (toy_request b)) toy_running = (true, Some reply, p') ∧
      (status_code reply = "200" ↔
       ∃ e, e ∈ [JObj [("pubkey_z85", JStr (z85_of 2))]] ∧
            AttachProtocol.value "pubkey_z85" e = KeyStore.Ok (presented_key (toy_request b)))) as Hr.
  { intros b Hb. destruct (toy_request_key b Hb) as [_ Hw].
    exact (approved_peers_are_admitted toy_others toy_process (toy_net true) toy_keys 0 toy_queue toy_approval
             [JObj [("pubkey_z85", JStr (z85_of 2))]] toy_approved.1 toy_approved.2 "cons" (toy_request b)
             toy_process_reachable (lookup_singleton_eq 0%nat toy_queue) eq_refl eq_refl
             (eq_trans toy_approval_taken (f_equal (pair true) (surjective_pairing toy_approved)))
             ltac:(vm_compute; reflexivity) eq_refl ltac:(cbn; lia) eq_refl Hw). }
  split.
  - destruct (Hr 2 (or_introl eq_refl)) as (reply & p' & Hq & Hc). exists reply, p'. split; [exact Hq|].
    apply Hc. exists (JObj [("pubkey_z85", JStr (z85_of 2))]). split; [by left|].
    rewrite (proj1 (toy_request_key 2 (or_introl eq_refl))). reflexivity.
  - destruct (Hr 3 (or_intror eq_refl)) as (reply & p' & Hq & Hc). exists reply, p'. split; [exact Hq|].
    intros (e & He & Hv)%Hc. apply list_elem_of_singleton in He as ->.
    rewrite (proj1 (toy_request_key 3 (or_intror eq_refl))) in Hv. vm_compute in Hv. discriminate Hv.
Defined.

Lemma zap_admits_exactly_witness :
  ∃ reply p', request toy_others (Some (toy_request 2)) toy_running = (true, Some reply, p') ∧
    status_code reply = "200" ∧ opens toy_others toy_running "cons" (z85_of 2).
Proof.
  assert (opens toy_others toy_running "cons" (z85_of 2)) as Ho.
  { left. exists 0%nat, toy_approved.2, (allowlist_of [mkPeer "" "" (z85_of 2)]).
    split; [apply lookup_insert_eq|]. split_and!; vm_compute; reflexivity. }
  destruct (zap_admits_exactly toy_others toy_running (toy_request 2) toy_running_reachable eq_refl ltac:(cbn; lia))
    as [(reply & p' & Hq & _ & _ & Hc) _].
  exists reply, p'. split; [exact Hq|]. split; [|exact Ho]. apply Hc.
  destruct (toy_request_key 2 (or_introl eq_refl)) as [Hk Hw]. split; [exact Hw|]. rewrite Hk. exact Ho.
Defined.

Lemma no_data_without_curve_witness :
  worker toy_approved.2 = true ∧ mechanism toy_approved.2 = Curve ∧ socket toy_approved.2 = true.
Proof.
  assert (worker toy_approved.2 = true) as Hw by (vm_compute; reflexivity).
  destruct (no_data_without_curve toy_others toy_running 0 toy_approved.2 toy_running_reachable
              (lookup_insert_eq _ _ _)) as [Hc Hs].
  assert (mechanism toy_approved.2 ≠ Uninitialized) as Hm by (rewrite (Hc Hw); discriminate).
  split; [exact Hw|]. split; [exact (Hc Hw)|]. exact (proj1 (proj2 (proj2 (Hs Hm)))).
Defined.

(** A reader whose thread has left its loop, which it does on any error of its
    socket but an interruption: the queue reports CURVE and running, another
    start succeeds without a thread, and nothing is received any more. *)
Theorem dead_reader_reads_as_running :
  let q := thread_meets RecvFailed toy_approved.2 in
  preachable toy_others (toy_running <| queues ::= <[0%nat := q]> |> <| router ::= (λ r, r <| routing := routing r |>) |>) ∧
  worker q = false ∧ mechanism q = Curve ∧ running q = true ∧
  ∀ net keys zap, start net keys 0 zap q = (Some true, (zap, q)).
Proof.
  cbv zeta. split; [|split_and!; by vm_compute].
  eapply rtc_r; [exact toy_running_reachable|].
  apply (ps_call toy_others toy_running 0 toy_approved.2); [apply lookup_insert_eq|]. apply call_thread.
Qed.

Lemma failed_bind_reads_as_running_witness :
  ∃ q1 q2, start (toy_net false) toy_keys 0 ∅ toy_queue = (Some false, (<["cons" := Some 0%nat]> ∅, q1)) ∧
    apply_master_approval (toy_net true) toy_keys 0 (JObj []) (<["cons" := Some 0%nat]> ∅) q2 =
      (true, (<["cons" := Some 0%nat]> ∅, q2)) ∧ worker q2 = false.
Proof.
  assert (∀ b, reaches_bind (toy_net b) toy_keys toy_queue) as Hr.
  { intros b. split_and!; try done. exists (z85_of 1). vm_compute. reflexivity. }
  destruct (failed_bind_reads_as_running (toy_net false) (toy_net true) toy_keys 0 ∅ toy_queue (JObj [])
              eq_refl eq_refl eq_refl eq_refl ltac:(discriminate) ltac:(discriminate) eq_refl
              ltac:(vm_compute; discriminate) (lookup_empty _) eq_refl (Hr false) eq_refl (Hr true) eq_refl)
    as (q1 & q2 & Hs & _ & _ & Ha & _ & Hw & _).
  exists q1, q2. split; [exact Hs|]. split; [exact Ha|exact Hw].
Defined.

(** The factory's own statement, and a deferred dial whose start fails. *)
Lemma created_queue_witness : bind_socket toy_queue = true ∧ is_peer_allowed toy_queue ("curve", z85_of 2) = false.
Proof.
  destruct (created_queue true true toy_keys FanIn toy_options toy_queue toy_queue_made) as (Hf & _ & Hb & _).
  - unfold toy_options, toy_schema. cbn. by rewrite !Forall_cons, Forall_nil.
  - unfold toy_options, toy_schema. cbn. rewrite !Forall_cons, Forall_nil. unfold field_widths, u32_max. cbn. lia.
  - unfold fields_fit, u64_max, u64_modulus, u32_max. cbn. lia.
  - cbn. lia.
  - reflexivity.
  - split; [exact Hb|]. apply (fresh_denies _ _ Hf).
Defined.

Definition toy_dialer : Queue :=
  (new_queue Write PushPull false toy_options) <| identity_key_name := "id" |> <| server_pubkey_z85 := z85_of 2 |>.

Lemma deferred_dial_witness :
  ∃ q1, apply_master_approval (toy_net true) toy_keys 0 (JObj []) ∅ toy_dialer = (true, (∅, q1)) ∧
    dial_pending q1 = true ∧ finalize_connect (toy_net true) toy_keys 0 [NotReady true] ∅ q1 = Some (Some false, (∅, q1)).
Proof.
  destruct (deferred_dial (toy_net true) (toy_net true) (toy_net true) toy_keys 0 (JObj []) ∅ toy_dialer [NotReady true] []
              None eq_refl eq_refl eq_refl eq_refl) as (q1 & Ha & _ & _ & _ & Hd & Hf).
  exists q1. split; [exact Ha|]. split; [exact Hd|exact Hf].
Defined.

End ZmqToy.
